(* ===== verification/_CoqProject ===== *)
-Q . S2P
Prelude.v
GoLib.v
Strconv.v
Errors.v
Record.v
Store.v
Effects.v
Quiet.v
Memstore.v
Core.v
CoreSpec.v
CoreClaims.v
ContractClaims.v
Custody.v
Lease.v
GoHttp.v
Key.v
Sha256.v
Fingerprint.v
Varint.v
StoredResponse.v
Context.v
Http.v
Problem.v
Recorder.v
RecorderSpec.v
Config.v
Middleware.v
MiddlewareSpec.v
HttpClaims.v
Journal.v
Guards.v
Redis.v
Redistore.v
RedistoreSpec.v
RedisClaims.v
Pgstore.v
PgSpec.v
PgClaims.v
Grpc.v
Grpcidem.v
GrpcClaims.v
Gin.v
Ginadapter.v
GinClaims.v
GinMatch.v
Errtrailadapter.v
Testing.v
Conforming.v
Idemleasetest.v
SuiteStore.v
SuiteMachine.v
Httpidemtest.v
HttpRules.v
SuiteRace.v
SuiteHttp.v
SuiteClaims.v
SuiteRedis.v
SuitePg.v
SuiteRemote.v
Liveness.v
Typed.v
