(* ===== verification/Prelude.v ===== *)
(** * Verification of idemlease: an Idempotency-Key library for Go

    *** The program

    idemlease makes retries of a request safe.  A request carries a key;
    the first execution for a key reserves it in a Store under a lease and
    a random token, runs the business handler, and then either persists the
    result under the key (later requests are replayed it) or discards the
    reservation (later requests execute again).  The parts:

    - record.go, store.go: the persisted record and the Store interface
      with its documented contract;
    - idemlease.go: the state machine, [Begin] (proceed, replay, reject in
      flight, reject a different fingerprint) and [Finish];
    - memstore/, redistore/, pgstore/: three stores - one map under a mutex,
      four Lua scripts on Redis hashes, SQL statements on a table;
    - httpidem/: the net/http middleware - key grammar, fingerprint,
      response recorder, payload format, replay policy, problem documents;
    - grpcidem/, ginadapter/: the same flow as a gRPC interceptor and as a
      Gin handler; errtrailadapter/: error codes for the middleware's
      errors.

    *** The files and what they model

    Foundations.  [Prelude] bytes and machine integers; [GoLib], [Strconv],
    [Varint], [Sha256], [GoHttp] the parts of Go's standard library the
    sources call, as executable functions; [Errors] Go error values with
    [errors.Is]; [Effects] code as a tree of calls ([prog]) with its
    execution on a store and a clock ([run]) and the transport of
    executions along refinements; [Quiet] equality of programs up to logs.

    Core.  [Record] is record.go.  [Store] is store.go: the class [Store]
    is the Go interface, [spec_Reserve] and its companions the abstract
    operations, the class [StoreContract] what store.go promises.  [Core]
    is idemlease.go; [CoreSpec], [CoreClaims], [ContractClaims] what Begin
    and Finish do; [Lease] any number of executions interleaved on one
    store; [Custody] what a reservation's holder can rely on.

    Stores.  [Memstore] is memstore.go.  [Redis] names the Redis commands
    the scripts use with their documented laws and a network that loses and
    repeats requests, [Redistore] is redistore.go over it, [RedistoreSpec]
    and [RedisClaims] show that every request that arrives is executed as
    the operation store.go specifies.  [Pgstore] is pgstore.go: each query
    is a function on the table, each operation a program of statements that
    any scheduler may interleave with other clients and may fail; [PgSpec],
    [PgClaims] show what each operation comes to, statement by statement.

    HTTP.  [Key], [Fingerprint], [StoredResponse], [Context] (with
    policy.go and reservation.go), [Problem] (errors.go), [Recorder],
    [Config] and [Middleware] (httpidem.go) are the files of httpidem/ of
    these names; [Http] is net/http's interfaces: requests, ResponseWriter
    as a class, handlers as arbitrary trees of calls.  [RecorderSpec],
    [MiddlewareSpec], [HttpClaims], [Journal], [Guards] hold the theorems.

    Adapters.  [Grpc] and [Gin] are the interfaces of gRPC, protobuf and
    Gin with their documented laws; [Grpcidem] is grpcidem.go and policy.go,
    [Ginadapter] is ginadapter.go, [Errtrailadapter] is errtrailadapter.go.
    [GrpcClaims], [GinClaims], [GinMatch] hold the theorems.

    Conformance.  [Testing] models the testing package: a test is a computation
    on worlds that collects reports and may stop early; goroutines run one
    call at a time in the order of an arbitrary schedule.  [Idemleasetest]
    is idemleasetest.go and statemachine.go, [Httpidemtest] is
    httpidemtest.go with its flaky store.  [Conforming] states what a store
    that is up does, deadlines on another clock included; [SuiteStore],
    [SuiteMachine], [HttpRules], [SuiteRace] and [SuiteHttp] show subtest by
    subtest that conforming stores, and the middleware over them, pass;
    [SuiteClaims] has the theorems;
    [SuiteRedis] and [SuitePg] show that redistore on a network that answers
    and pgstore on a database that does not fail conform, [SuiteRemote]
    that they pass.
    [Liveness] shows that no key stays blocked, [Typed] that records stay
    well typed.

    Names are the source's: [middleware.ServeHTTP], [redistore.Reserve],
    [grpcidem.intercept] (the closure UnaryServerInterceptor returns),
    [begin_and_act] and [proceed] for the continuations of one Go function
    after its early returns.  A Go method on a pointer returns the new
    value of its receiver.

    *** What is shown

    Lease guarantee.  [Lease.at_most_one_valid_lease]: over any store that
    keeps the contract, and any interleaving of any number of executions,
    at most one holds a valid lease on a key;
    [Lease.completed_record_is_stable]: a live completed record is not
    changed by anyone.  [MiddlewareSpec.http_lease_guarantee] brings HTTP
    requests under it.

    Begin and Finish.  The decision tables with every error branch, replay
    after persist, at most three Reserve calls on any store however it
    answers, and - over any contract-keeping store with a faulty network -
    that no Begin proceeds while a live record exists.

    Stores.  memstore refines the specification; on every keyspace
    satisfying the Redis laws each execution of a redistore request has the
    effect, the answer and, to the millisecond, the deadlines of the
    operation it asks for, with the distance between reported and real
    deadlines, and what a repeated request meets.  Under every scheduler a
    pgstore operation reports success exactly with the effect of its one
    writing statement, each sentinel is tied to what the table showed to the
    statement it comes from, and all other statements are quiet; CompleteTx
    likewise.  Sweep deletes only keys its sub-select saw expired, and loses
    a live record only if its row was written since;
    [PgClaims.sweep_may_delete_live] is a run in which it does.

    [StoreContract], which the theorems about Begin, Finish and the
    integrations assume, asks for less than either store does - it leaves
    open which of the two sentinels of a lost lease is returned, and allows
    an answer that was lost after the effect - so that a store on a network
    that loses answers can keep it.

    Integrations.  Whole requests through [ServeHTTP] and whole calls
    through the interceptor: every rejection, every replay, the handler
    runs once per persisted key, panics and failures of the store included;
    the exact store calls of one request; the Gin adapter does on a Gin
    writer what the middleware does on the same writer seen as an
    http.ResponseWriter.  What a recorder captures is what was sent, and a
    replay sends it again.

    Formats.  Key grammar and store keys, fingerprints injective up to
    SHA-256, round trips of stored responses and protobuf payloads, strict
    decoding, deterministic encoding, bounded buffers, Retry-After.

    Conformance.  The suites the repository runs against its stores accept
    every conforming store, in any interleaving of their goroutines -
    memstore; redistore and pgstore but for the state machine suite, whose
    bound on the advised delay is exact where those two round; a Begin after
    a record's deadline proceeds, whoever crashed; live records are well
    typed.

    *** Bounds and fuel

    Begin's loop takes the constant 3 of the code as its fuel, and running
    out is the code's own answer; so does pgstore's Reserve loop (three
    rounds of two statements).  The varint loops take ten bytes, the longest
    64-bit varint; the decoders consume their input, and their fuel is its
    length; SHA-256 recurses on the blocks of the padded message.  Integers
    are [Z] with Go's wrap-around written out where the code can overflow
    ([i64], [u64]); durations and lengths are int64.

    The suites draw at most 115 and 123 random blocks; their clocks may
    drift by the bounds stated in [Conforming], their calls together take at
    most half a second (50ms over HTTP) on top of the waits of the tests.

    *** Modelling decisions

    - A [prog] runs with a clock that advances by an arbitrary tick before
      each call; one store operation happens at one instant.  Redis retries
      of one request carry the arguments computed at the first attempt.
    - memstore's mutex makes each operation atomic; a Redis script is
      atomic, and so is a statement of PostgreSQL on one key, whose whole
      condition is evaluated on the row it locks.  Sweep's DELETE is not: its
      sub-select and its deletion see tables between which others commit
      (READ COMMITTED), and whether a row changed in between passes the
      recheck is up to the server's plan.  The instance of the contract for
      pgstore is for operations without other clients between their
      statements; [PgClaims.pg_operation_outcomes] has no such restriction.
    - Random tokens are drawn from the world; theorems that need it assume
      that a drawn token was not drawn before, or, for one sequence,
      nothing.  A failing random source is modelled.
    - Handlers, handler chains, ResponseWriters, policies, scopes and
      validators are arbitrary.  Policies, scopes and validators are pure;
      a handler's panic reaches the middleware (a handler that recovers its
      own panic is a handler that does not panic).
    - A request body delivers its error on a read of its own; ToUpper is
      ASCII, as HTTP methods are; error texts use keys unquoted where the
      code formats with %q.
    - In Gin, Flush and Hijack do not panic and a chain does not replace
      the context's writer.
    - gRPC, protobuf, Gin, errtrail, Redis and PostgreSQL's clock are
      parameters with documented laws; each has a concrete instance on
      which the theorems are instantiated.
    - In the suites a report is the format of the message, without its
      arguments; Sleep advances both clocks by the same duration, ticks
      apart; handler counters and log buffers are the log of the world.  A
      goroutine blocked in its handler is a program stopped at the line
      [entered]; where the Go test would hang because a handler runs twice,
      the model reports a failure.

    *** Not modelled

    Closing the original request body, cancellation (the sources detach the
    trailing store calls with WithoutCancel), runtime.Goexit inside a
    handler, the slog handlers (log lines are data of the world), the
    connection handles of Hijack, the data races of a map shared by
    goroutines (the mutex excludes them), doc.go, and the examples. *)
From Stdlib Require Export Strings.Byte Lia.
From stdpp Require Export base tactics option list numbers gmap strings sorting.

(** ** Bytes: Go's [string] and [[]byte] *)

#[global] Instance byte_eq_dec : EqDecision byte := Byte.byte_eq_dec.

#[global] Program Instance byte_countable : Countable byte :=
  inj_countable Byte.to_N Byte.of_N _.
Next Obligation. intros b. apply Byte.of_to_N. Qed.

Abbreviation bytes := (list byte).

Declare Scope idem_scope.
Delimit Scope idem_scope with idem.

(** A Go string literal. *)
Definition bs (s : string) : bytes := String.list_byte_of_string s.

(** The value of a byte, and Go's conversion [byte(z)]. *)
Definition byte_Z (b : byte) : Z := Z.of_N (Byte.to_N b).
Definition Z_byte (z : Z) : byte :=
  default x00 (Byte.of_N (Z.to_N (z `mod` 256))).

Lemma byte_Z_range b : (0 ≤ byte_Z b < 256)%Z.
Proof. unfold byte_Z. pose proof (Byte.to_N_bounded b). lia. Qed.

Lemma Z_byte_Z b : Z_byte (byte_Z b) = b.
Proof.
  unfold Z_byte. rewrite Z.mod_small by apply byte_Z_range.
  unfold byte_Z. by rewrite N2Z.id, Byte.of_to_N.
Qed.

Lemma byte_Z_byte z : byte_Z (Z_byte z) = (z `mod` 256)%Z.
Proof.
  unfold Z_byte. pose proof (Z.mod_pos_bound z 256 eq_refl) as Hb.
  destruct (Byte.of_N (Z.to_N (z `mod` 256))) as [b|] eqn:E; simpl.
  - apply Byte.to_of_N in E. unfold byte_Z. rewrite E. lia.
  - apply Byte.of_N_None_iff in E. lia.
Qed.

Lemma byte_Z_inj b1 b2 : byte_Z b1 = byte_Z b2 → b1 = b2.
Proof. intros H. by rewrite <-(Z_byte_Z b1), <-(Z_byte_Z b2), H. Qed.

(** ** Machine integers *)

(** Two's-complement reduction to Go's [int64] (and 64-bit [int]), and
    reduction to [uint64]. *)
Definition two63 : Z := 9223372036854775808%Z.
Definition two64 : Z := 18446744073709551616%Z.
Definition i64 (z : Z) : Z := ((z + two63) `mod` two64 - two63)%Z.
Definition u64 (z : Z) : Z := (z `mod` two64)%Z.
Definition max_int64 : Z := (two63 - 1)%Z.
Definition min_int64 : Z := (- two63)%Z.

Definition is_i64 (z : Z) : Prop := (min_int64 ≤ z ≤ max_int64)%Z.

Lemma i64_small z : is_i64 z → i64 z = z.
Proof.
  unfold is_i64, i64, max_int64, min_int64, two63, two64. intros H.
  rewrite Z.mod_small; lia.
Qed.

Lemma i64_range z : is_i64 (i64 z).
Proof.
  unfold is_i64, i64, max_int64, min_int64.
  pose proof (Z.mod_pos_bound (z + two63) two64 eq_refl).
  unfold two63, two64 in *. lia.
Qed.

Lemma u64_small z : (0 ≤ z < two64)%Z → u64 z = z.
Proof. intros H. by apply Z.mod_small. Qed.

Lemma u64_range z : (0 ≤ u64 z < two64)%Z.
Proof. apply Z.mod_pos_bound. done. Qed.

Lemma i64_u64 z : is_i64 z → i64 (u64 z) = z.
Proof.
  intros H. unfold i64, u64.
  rewrite Z.add_mod_idemp_l by done. fold (i64 z). by apply i64_small.
Qed.

(** ** Generic list lemmas *)

Lemma take_app_exact {A} (l k : list A) n : n = length l → take n (l ++ k) = l.
Proof. intros ->. by rewrite take_app_length. Qed.

Lemma drop_app_exact {A} (l k : list A) n : n = length l → drop n (l ++ k) = k.
Proof. intros ->. by rewrite drop_app_length. Qed.

Lemma forallb_Forall {A} (f : A → bool) l : forallb f l = true ↔ Forall (λ x, f x = true) l.
Proof. by rewrite Forall_forall, forallb_forall; setoid_rewrite list_elem_of_In. Qed.

(** Splitting at the first, or at the last, separator is unambiguous. *)
Lemma sep_inj {A} (c : A) (s1 s2 k1 k2 : list A) :
  c ∉ s1 → c ∉ s2 → s1 ++ c :: k1 = s2 ++ c :: k2 → s1 = s2 ∧ k1 = k2.
Proof.
  revert s2. induction s1 as [|a s1 IH]; intros [|b s2] H1 H2; simpl; intros; simplify_eq.
  - done.
  - exfalso. apply H2. set_solver.
  - exfalso. apply H1. set_solver.
  - destruct (IH s2) as [-> ->]; [set_solver..|done].
Qed.

Lemma app_sep_inj {A} (c : A) (s1 s2 k1 k2 : list A) :
  c ∉ k1 → c ∉ k2 → s1 ++ c :: k1 = s2 ++ c :: k2 → s1 = s2 ∧ k1 = k2.
Proof.
  revert s2. induction s1 as [|a s1 IH]; intros [|b s2] H1 H2; simpl; intros; simplify_eq.
  - done.
  - exfalso. apply H1. set_solver.
  - exfalso. apply H2. set_solver.
  - by destruct (IH s2) as [-> ->].
Qed.

(** The middle of a nested pair determines it up to the other parts. *)
Lemma pair_outcome {A B C} (x : (A * B) * C) b : x.1.2 = b → x = ((x.1.1, b), x.2).
Proof. destruct x as [[a b'] c]. simpl. by intros ->. Qed.

Lemma pair_snd {A B} (x : A * B) b : x.2 = b → x = (x.1, b).
Proof. destruct x. by intros <-. Qed.

Lemma pair_fst {A B} (x : A * B) a : x.1 = a → x = (a, x.2).
Proof. destruct x. by intros <-. Qed.

(** ** Automation *)

Create HintDb idem discriminated.
#[export] Hint Resolve byte_Z_range i64_range u64_range : idem.
#[export] Hint Rewrite @length_app @length_cons @length_nil : idem.

(** Case analysis on every [match] of the goal, keeping the equations and
    closing the impossible cases. *)
Ltac split_matches :=
  intros; repeat (case_match; simplify_eq/=; try done); try done; eauto.
