(* ===== verification/GoLib.v ===== *)
(** * The parts of Go's standard library the sources use

    Instants and durations ([time]), error values and [errors.Is]
    ([errors], [fmt.Errorf]), hexadecimal and decimal rendering
    ([encoding/hex], [strconv]), and the byte-string helpers of
    [strings].  Only what the modelled packages call is here. *)
From stdpp Require Import pretty.
From S2P Require Import Prelude.

(** ** Package time *)

Module Time.
Local Open Scope Z_scope.

(** A [time.Time] as nanoseconds since the zero [Time]; a
    [time.Duration] is an [int64] count of nanoseconds. *)
Definition Time : Set := Z.
Definition Duration : Set := Z.

Definition Nanosecond : Duration := 1.
Definition Millisecond : Duration := 1000000.
Definition Second : Duration := 1000000000.
Definition Minute : Duration := 60 * Second.
Definition Hour : Duration := 60 * Minute.

Definition zero : Time := 0.

(** [t.Add(d)], [t.Before(u)]. *)
Definition Add (t : Time) (d : Duration) : Time := t + d.
Definition Before (t u : Time) : bool := t <? u.

(** [t.Sub(u)] saturates at the bounds of [Duration]. *)
Definition Sub (t u : Time) : Duration :=
  Z.max min_int64 (Z.min max_int64 (t - u)).

(** [d.Milliseconds()] truncates towards zero. *)
Definition Milliseconds (d : Duration) : Z := Z.quot d Millisecond.

Lemma Sub_exact t u : is_i64 (t - u) → Sub t u = t - u.
Proof. unfold is_i64, Sub. lia. Qed.

Lemma Sub_range t u : is_i64 (Sub t u).
Proof. unfold is_i64, Sub, max_int64, min_int64, two63. lia. Qed.

Lemma Sub_pos t u : u < t → 0 < Sub t u.
Proof. unfold Sub, max_int64, min_int64, two63. lia. Qed.

Lemma Before_spec t u : Before t u = true ↔ t < u.
Proof. apply Z.ltb_lt. Qed.

Lemma not_Before_spec t u : negb (Before t u) = true ↔ u ≤ t.
Proof. unfold Before. rewrite negb_true_iff, Z.ltb_ge. done. Qed.
End Time.

#[export] Hint Resolve Time.Sub_range Time.Sub_pos : idem.

(** ** Packages strconv and encoding/hex *)

Definition FormatInt (z : Z) : bytes := bs (pretty z).

Definition hex_digit (z : Z) : byte :=
  if (z <? 10)%Z then Z_byte (48 + z) else Z_byte (87 + z).
Definition hex_byte (b : byte) : bytes :=
  [hex_digit (byte_Z b / 16); hex_digit (byte_Z b `mod` 16)].
(** [hex.EncodeToString]. *)
Definition EncodeToString (l : bytes) : bytes := l ≫= hex_byte.

(** The verb [%02X] of a byte. *)
Definition HEX_digit (z : Z) : byte :=
  if (z <? 10)%Z then Z_byte (48 + z) else Z_byte (55 + z).
Definition HEX_byte (b : byte) : bytes :=
  [HEX_digit (byte_Z b / 16); HEX_digit (byte_Z b `mod` 16)].

Lemma hex_digit_inj x y :
  (0 ≤ x < 16)%Z → (0 ≤ y < 16)%Z → hex_digit x = hex_digit y → x = y.
Proof.
  intros Hx Hy H. apply (f_equal byte_Z) in H. revert H. unfold hex_digit.
  do 2 case_match; rewrite !byte_Z_byte, !Z.mod_small by lia; lia.
Qed.

Lemma hex_byte_inj b c : hex_byte b = hex_byte c → b = c.
Proof.
  intros H. injection H as H1 H2.
  pose proof (byte_Z_range b). pose proof (byte_Z_range c).
  pose proof (Z.mod_pos_bound (byte_Z b) 16 eq_refl).
  pose proof (Z.mod_pos_bound (byte_Z c) 16 eq_refl).
  apply hex_digit_inj in H1; [|split; [apply Z.div_pos|apply Z.div_lt_upper_bound]; lia..].
  apply hex_digit_inj in H2; [|lia..].
  apply byte_Z_inj.
  rewrite (Z.div_mod (byte_Z b) 16), (Z.div_mod (byte_Z c) 16) by done.
  by rewrite H1, H2.
Qed.

Lemma EncodeToString_inj l k : EncodeToString l = EncodeToString k → l = k.
Proof.
  revert k. induction l as [|b l IH]; intros [|c k] H; [done..|].
  unfold EncodeToString in *. cbn [mbind list_bind] in H.
  change (hex_byte b ++ EncodeToString l = hex_byte c ++ EncodeToString k) in H.
  apply app_inj_1 in H as [Hb Hl]; [|done].
  apply hex_byte_inj in Hb as ->. f_equal. by apply IH.
Qed.

(** ** Package strings *)

Definition is_lower (b : byte) : bool := (97 <=? byte_Z b)%Z && (byte_Z b <=? 122)%Z.
Definition is_upper (b : byte) : bool := (65 <=? byte_Z b)%Z && (byte_Z b <=? 90)%Z.
Definition upper_byte (b : byte) : byte :=
  if is_lower b then Z_byte (byte_Z b - 32) else b.
Definition lower_byte (b : byte) : byte :=
  if is_upper b then Z_byte (byte_Z b + 32) else b.

(** [strings.ToUpper] on ASCII input; HTTP methods are tokens, hence ASCII. *)
Definition ToUpper (s : bytes) : bytes := map upper_byte s.

(** [strings.TrimLeft], [strings.Trim] with the cutset given as a test. *)
Fixpoint TrimLeft (cut : byte → bool) (s : bytes) : bytes :=
  match s with
  | [] => []
  | b :: s' => if cut b then TrimLeft cut s' else s
  end.
Definition TrimRight (cut : byte → bool) (s : bytes) : bytes :=
  reverse (TrimLeft cut (reverse s)).
Definition Trim (cut : byte → bool) (s : bytes) : bytes :=
  TrimRight cut (TrimLeft cut s).

Lemma TrimLeft_id cut s :
  (∀ b, head s = Some b → cut b = false) → TrimLeft cut s = s.
Proof. destruct s as [|b s]; simpl; [done|]. intros H. by rewrite H. Qed.

Lemma Trim_id cut s :
  (∀ b, head s = Some b → cut b = false) →
  (∀ b, last s = Some b → cut b = false) → Trim cut s = s.
Proof.
  intros Hh Hl. unfold Trim, TrimRight.
  rewrite (TrimLeft_id cut s) by done.
  rewrite TrimLeft_id; [apply reverse_involutive|].
  intros b Hb. apply Hl. by rewrite <-head_reverse.
Qed.

Lemma TrimLeft_suffix cut s : ∃ p, s = p ++ TrimLeft cut s ∧ Forall (λ b, cut b = true) p.
Proof.
  induction s as [|b s (p & Hp & Hf)]; simpl; [by exists []|].
  destruct (cut b) eqn:E.
  - exists (b :: p). simpl. rewrite <-Hp. by split; [|constructor].
  - by exists [].
Qed.

Lemma TrimLeft_head cut s b : head (TrimLeft cut s) = Some b → cut b = false.
Proof.
  induction s as [|c s IH]; simpl; [done|].
  destruct (cut c) eqn:E; [done|]. simpl. by intros [= ->].
Qed.

Lemma Trim_infix cut s :
  ∃ p q, s = p ++ Trim cut s ++ q ∧ Forall (λ b, cut b = true) (p ++ q).
Proof.
  destruct (TrimLeft_suffix cut s) as (p & Hp & Hf).
  destruct (TrimLeft_suffix cut (reverse (TrimLeft cut s))) as (q & Hq & Hg).
  exists p, (reverse q). split.
  - rewrite Hp at 1. f_equal. unfold Trim, TrimRight.
    apply (f_equal reverse) in Hq. rewrite reverse_involutive, reverse_app in Hq. done.
  - apply Forall_app. split; [done|]. by apply Forall_reverse.
Qed.

Lemma TrimLeft_app cut p s :
  Forall (λ b, cut b = true) p → TrimLeft cut (p ++ s) = TrimLeft cut s.
Proof. induction 1 as [|b p Hb Hp IH]; simpl; [done|]. by rewrite Hb. Qed.

(** Trimming removes exactly the padding around a text that neither starts
    nor ends with a cut byte. *)
Lemma Trim_pad cut p s q :
  Forall (λ b, cut b = true) p → Forall (λ b, cut b = true) q →
  (∃ b, head s = Some b ∧ cut b = false) → (∀ b, last s = Some b → cut b = false) →
  Trim cut (p ++ s ++ q) = s.
Proof.
  intros Hp Hq (b & Hb & Hcut) Hl. unfold Trim, TrimRight. rewrite TrimLeft_app by done.
  rewrite (TrimLeft_id cut (s ++ q)); [|destruct s; naive_solver].
  rewrite reverse_app, TrimLeft_app by by apply Forall_reverse.
  rewrite TrimLeft_id; [apply reverse_involutive|].
  intros c Hc. apply Hl. by rewrite <-head_reverse.
Qed.
