(* ===== verification/Strconv.v ===== *)
(** * Decimal integers and Unix milliseconds ([strconv], [time])

    [strconv.ParseInt(s, 10, 64)], which inverts [FormatInt] on every
    int64, and the conversions between a [time.Time] and the milliseconds
    of the Unix epoch. *)
From stdpp Require Import pretty.
From S2P Require Import Prelude GoLib.
Import Time.
Local Open Scope Z_scope.

(** ** ParseInt *)

Definition digit_value (b : byte) : option N :=
  let z := byte_Z b in
  if (48 <=? z) && (z <=? 57) then Some (Z.to_N (z - 48)) else None.

Fixpoint parse_digits (acc : N) (s : bytes) : option N :=
  match s with
  | [] => Some acc
  | b :: s => match digit_value b with
              | Some d => parse_digits (acc * 10 + d) s
              | None => None
              end
  end.

(** [None] is [ErrSyntax] or [ErrRange]; the callers only test for an error. *)
Definition ParseInt (s : bytes) : option Z :=
  let '(neg, digits) :=
    match s with
    | x2d :: s => (true, s)
    | x2b :: s => (false, s)
    | _ => (false, s)
    end in
  match digits with
  | [] => None
  | _ =>
      n ← parse_digits 0 digits;
      let z := if neg : bool then - Z.of_N n else Z.of_N n in
      if (min_int64 <=? z) && (z <=? max_int64) then Some z else None
  end.

Lemma digit_value_char (d : N) :
  (d < 10)%N →
  digit_value (Ascii.byte_of_ascii (pretty_N_char d)) = Some d ∧
  Ascii.byte_of_ascii (pretty_N_char d) ≠ x2d ∧ Ascii.byte_of_ascii (pretty_N_char d) ≠ x2b.
Proof.
  intros Hd.
  assert (d ∈ ([0; 1; 2; 3; 4; 5; 6; 7; 8; 9]%N : list N)) as Hin
    by (rewrite !elem_of_cons; lia).
  repeat (apply elem_of_cons in Hin as [->|Hin]; [done|]). by apply not_elem_of_nil in Hin.
Qed.

Lemma bs_String c s : bs (String c s) = Ascii.byte_of_ascii c :: bs s.
Proof. done. Qed.

Lemma parse_digits_go (x : N) (s : string) :
  (0 < x)%N → parse_digits 0 (bs (pretty_N_go x s)) = parse_digits x (bs s).
Proof.
  revert s. induction (N.lt_wf_0 x) as [x _ IH]. intros s Hx.
  rewrite pretty_N_go_step by done.
  assert (x `mod` 10 < 10)%N as Hm by (by apply N.mod_lt).
  pose proof (N.div_mod x 10 ltac:(done)) as Hdm.
  assert (parse_digits (x `div` 10) (bs (String (pretty_N_char (x `mod` 10)) s)) =
          parse_digits x (bs s)) as Hstep.
  { rewrite bs_String. cbn [parse_digits].
    rewrite (proj1 (digit_value_char _ Hm)). f_equal. lia. }
  destruct (decide (x `div` 10 = 0)%N) as [H0|H0].
  - rewrite H0 in *. by rewrite pretty_N_go_0.
  - rewrite IH; [done|by apply N.div_lt|lia].
Qed.

Lemma pretty_go_head (x : N) (s : string) :
  (0 < x)%N →
  ∃ d r, (d < 10)%N ∧ bs (pretty_N_go x s) = Ascii.byte_of_ascii (pretty_N_char d) :: r.
Proof.
  revert s. induction (N.lt_wf_0 x) as [x _ IH]. intros s Hx. rewrite pretty_N_go_step by done.
  destruct (decide (x `div` 10 = 0)%N) as [H0|H0].
  - rewrite H0, pretty_N_go_0. eexists _, _. split; [|apply bs_String]. by apply N.mod_lt.
  - apply IH; [by apply N.div_lt|by apply N.neq_0_lt_0].
Qed.

Lemma pretty_N_bytes (n : N) :
  parse_digits 0 (bs (pretty n)) = Some n ∧
  ∃ d r, (d < 10)%N ∧ bs (pretty n) = Ascii.byte_of_ascii (pretty_N_char d) :: r.
Proof.
  unfold pretty, pretty_N. case_decide as Hn.
  - subst. split; [done|]. exists 0%N, []. done.
  - split; [|apply pretty_go_head; lia]. rewrite parse_digits_go by lia. done.
Qed.

Lemma ParseInt_FormatInt (z : Z) : is_i64 z → ParseInt (FormatInt z) = Some z.
Proof.
  intros [Hlo Hhi]. unfold FormatInt.
  assert (∀ b, (min_int64 <=? b) && (b <=? max_int64) = true ↔ is_i64 b) as Hrange
    by (intros b; unfold is_i64; rewrite andb_true_iff, !Z.leb_le; done).
  assert (∀ n, is_i64 (Z.of_N n) → ParseInt (bs (pretty n)) = Some (Z.of_N n)) as Hpos.
  { intros n Hn. destruct (pretty_N_bytes n) as (Hp & d & r & Hd & E).
    destruct (digit_value_char d Hd) as (_ & Hm & Hpl). revert Hp. rewrite E. intros Hp.
    unfold ParseInt. destruct (Ascii.byte_of_ascii (pretty_N_char d)); try done;
      rewrite Hp; simpl; by rewrite (proj2 (Hrange _) Hn). }
  destruct z as [|p|p].
  - done.
  - by apply (Hpos (N.pos p)).
  - change (pretty (Z.neg p)) with ("-" +:+ pretty (N.pos p))%string.
    change (bs ("-" +:+ pretty (N.pos p))) with (x2d :: bs (pretty (N.pos p))).
    destruct (pretty_N_bytes (N.pos p)) as (Hp & d & r & Hd & E). rewrite E in *.
    cbn [ParseInt]. rewrite Hp. cbn [mbind option_bind].
    change (- Z.of_N (N.pos p)) with (Z.neg p). by rewrite (proj2 (Hrange _)) by done.
Qed.

(** ** The Unix epoch *)

(** 1970-01-01 as nanoseconds since the zero [Time], January 1 of year 1. *)
Definition unix_epoch : Time := 62135596800 * Second.

(** [t.UnixMilli()] and [time.UnixMilli(ms)]. *)
Definition UnixMilli (t : Time) : Z := i64 ((t - unix_epoch) / Millisecond).
Definition of_UnixMilli (ms : Z) : Time := unix_epoch + ms * Millisecond.

(** [time.Until(t)] at the instant [now]. *)
Definition Until (now t : Time) : Duration := Sub t now.

(** [time.Duration(ms) * time.Millisecond], which wraps around. *)
Definition millis (ms : Z) : Duration := i64 (ms * Millisecond).

Lemma Milliseconds_bounds d :
  0 ≤ d → Milliseconds d * Millisecond ≤ d < (Milliseconds d + 1) * Millisecond.
Proof.
  intros Hd. unfold Milliseconds, Millisecond. rewrite Z.quot_div_nonneg by lia.
  pose proof (Z.div_mod d 1000000 ltac:(done)).
  pose proof (Z.mod_pos_bound d 1000000 ltac:(done)). lia.
Qed.

Lemma Milliseconds_range d : is_i64 d → -9223372036854 ≤ Milliseconds d ≤ 9223372036854.
Proof.
  unfold is_i64, min_int64, max_int64, two63, Milliseconds, Millisecond. intros [H1 H2].
  destruct (Z.le_gt_cases 0 d) as [Hd|Hd].
  - rewrite Z.quot_div_nonneg by lia. pose proof (Z.div_mod d 1000000 ltac:(done)).
    pose proof (Z.mod_pos_bound d 1000000 ltac:(done)). lia.
  - replace d with (- - d) by lia. rewrite Z.quot_opp_l, Z.quot_div_nonneg by lia.
    pose proof (Z.div_mod (-d) 1000000 ltac:(done)).
    pose proof (Z.mod_pos_bound (-d) 1000000 ltac:(done)). lia.
Qed.

Lemma millis_small ms :
  0 ≤ ms ≤ 9223372036854 → millis ms = ms * Millisecond.
Proof.
  intros. unfold millis. apply i64_small.
  unfold is_i64, min_int64, max_int64, two63, Millisecond. lia.
Qed.

(** ** Rounding and printing durations ([time.Duration]) *)

(** [d.Round(m)]: to the nearest multiple of [m], halves away from zero,
    saturating at the bounds of int64. *)
Definition lessThanHalf (x y : Duration) : bool := u64 (u64 x + u64 x) <? u64 y.
Definition Round (d m : Duration) : Duration :=
  if m <=? 0 then d else
  let r := Z.rem d m in
  if d <? 0 then
    let r := i64 (- r) in
    if lessThanHalf r m then i64 (d + r) else
    let d1 := i64 (i64 (d - m) + r) in
    if d1 <? d then d1 else min_int64
  else
    if lessThanHalf r m then i64 (d - r) else
    let d1 := i64 (i64 (d + m) - r) in
    if d <? d1 then d1 else max_int64.

(** [fmtFrac]: the fraction of [v] over [10^prec], without trailing zeros
    and without the point when nothing is left. *)
Fixpoint frac_digits (prec : nat) (v : Z) : bytes :=
  match prec with
  | O => []
  | S prec =>
      let ds := frac_digits prec (v mod 10 ^ Z.of_nat prec) in
      let d := v / 10 ^ Z.of_nat prec in
      if bool_decide (ds = []) && (d =? 0) then [] else Z_byte (48 + d) :: ds
  end.
Definition fmtFrac (prec : nat) (v : Z) : bytes :=
  let ds := frac_digits prec (v mod 10 ^ Z.of_nat prec) in
  FormatInt (v / 10 ^ Z.of_nat prec) ++ (if bool_decide (ds = []) then [] else bs "." ++ ds).

(** [d.String()]. *)
Definition Duration_String (d : Duration) : bytes :=
  let u := Z.abs d in
  (if d <? 0 then bs "-" else []) ++
  (if u =? 0 then bs "0s"
   else if u <? 1000 then FormatInt u ++ bs "ns"
   else if u <? Millisecond then fmtFrac 3 u ++ [xc2; xb5] ++ bs "s"
   else if u <? Second then fmtFrac 6 u ++ bs "ms"
   else
     let s := u / Second in
     let m := s / 60 in
     let h := m / 60 in
     (if 0 <? h then FormatInt h ++ bs "h" else []) ++
     (if 0 <? m then FormatInt (m mod 60) ++ bs "m" else []) ++
     fmtFrac 9 (s mod 60 * Second + u mod Second) ++ bs "s").

Example duration_hms :
  Duration_String (2 * Hour + 3 * Minute + 4 * Second + 500 * Millisecond) = bs "2h3m4.5s".
Proof. reflexivity. Qed.

Example duration_ms : Duration_String (1 * Millisecond + 500000) = bs "1.5ms".
Proof. reflexivity. Qed.

(** Rounding to whole seconds moves a duration by at most half a second. *)
Lemma Round_Second (d : Duration) :
  0 ≤ d → d + Second ≤ max_int64 →
  (Second | Round d Second) ∧ - Second < 2 * (Round d Second - d) ≤ Second.
Proof.
  intros Hd Hmax. unfold Round, lessThanHalf, max_int64, two63, Second, Time.Second in *.
  rewrite (Z.rem_mod_nonneg d) by lia.
  pose proof (Z.mod_pos_bound d 1000000000 eq_refl) as Hr.
  pose proof (Z.div_mod d 1000000000 ltac:(done)) as Hdm.
  set (r := d mod 1000000000) in *. set (q := d / 1000000000) in *.
  rewrite (proj2 (Z.ltb_ge d 0)) by done. change (1000000000 <=? 0) with false. cbv iota.
  rewrite (u64_small r), (u64_small (r + r)), (u64_small 1000000000) by (unfold two64; lia).
  assert (∀ z, 0 ≤ z ≤ 9223372036854775807 → i64 z = z) as Hi
    by (intros; apply i64_small; unfold is_i64, min_int64, max_int64, two63; lia).
  destruct (Z.ltb_spec (r + r) 1000000000).
  - rewrite Hi by lia. split; [exists q; lia|lia].
  - rewrite (Hi (d + _)), Hi by lia. rewrite (proj2 (Z.ltb_lt _ _)) by lia.
    split; [exists (q + 1); lia|lia].
Qed.
