(* ===== verification/Errors.v ===== *)
(** * Error values

    Go errors as a tree: a sentinel created once by [errors.New], an
    error with no wrapped cause, or an error built by [fmt.Errorf] with
    one or two [%w] verbs.  [errors.Is] compares sentinels by identity
    through the wrapping. *)
From S2P Require Import Prelude GoLib.

(** The package-level sentinels: store.go, httpidem/errors.go,
    httpidem/storedresponse.go, pgstore/pgstore.go, grpcidem/grpcidem.go,
    and those of net/http, go-redis and database/sql the code compares with. *)
Inductive sentinel :=
  | ErrAlreadyExists
  | ErrTokenMismatch
  | ErrNotFound
  | ErrKeyMissing
  | ErrKeyInvalid
  | ErrInFlight
  | ErrFingerprintMismatch
  | ErrRequestBodyTooLarge
  | ErrStoreUnavailable
  | errCorruptStoredResponse
  | ErrAlreadyCompleted
  | http_ErrNotSupported
  | http_ErrBodyNotAllowed
  | http_ErrHijacked
  | redis_Nil
  | sql_ErrNoRows
  | grpcidem_errKeyMissing.

#[global] Instance sentinel_eq_dec : EqDecision sentinel.
Proof. solve_decision. Defined.

Inductive error :=
  | errSentinel (s : sentinel)
  | errText (msg : bytes)
  | errWrap (msg : bytes) (cause : error)
  | errWrap2 (msg : bytes) (cause1 cause2 : error).

Coercion errSentinel : sentinel >-> error.

#[global] Instance error_eq_dec : EqDecision error.
Proof. solve_decision. Defined.

(** The texts given to [errors.New]. *)
Definition sentinel_text (s : sentinel) : bytes :=
  match s with
  | ErrAlreadyExists => bs "idemlease: record already exists"
  | ErrTokenMismatch => bs "idemlease: reservation token mismatch"
  | ErrNotFound => bs "idemlease: record not found"
  | ErrKeyMissing => bs "httpidem: Idempotency-Key header is missing"
  | ErrKeyInvalid => bs "httpidem: Idempotency-Key header is invalid"
  | ErrInFlight => bs "httpidem: a request with this Idempotency-Key is in flight"
  | ErrFingerprintMismatch =>
      bs "httpidem: Idempotency-Key was already used with a different request"
  | ErrRequestBodyTooLarge => bs "httpidem: request body exceeds MaxRequestBody"
  | ErrStoreUnavailable => bs "httpidem: idempotency store is unavailable"
  | errCorruptStoredResponse => bs "httpidem: corrupted stored response payload"
  | ErrAlreadyCompleted => bs "pgstore: record already completed with this token"
  | http_ErrNotSupported => bs "feature not supported"
  | http_ErrBodyNotAllowed => bs "http: request method or response status code does not allow body"
  | http_ErrHijacked => bs "http: connection has been hijacked"
  | redis_Nil => bs "redis: nil"
  | sql_ErrNoRows => bs "sql: no rows in result set"
  | grpcidem_errKeyMissing => bs "grpcidem: idempotency-key metadata is missing"
  end.

(** [err.Error()]. *)
Definition Error (e : error) : bytes :=
  match e with
  | errSentinel s => sentinel_text s
  | errText msg | errWrap msg _ | errWrap2 msg _ _ => msg
  end.

(** [errors.Is(e, target)] for a sentinel target. *)
Fixpoint Is (e : error) (target : sentinel) : bool :=
  match e with
  | errSentinel s => bool_decide (s = target)
  | errText _ => false
  | errWrap _ c => Is c target
  | errWrap2 _ c1 c2 => Is c1 target || Is c2 target
  end.

(** [fmt.Errorf("%w<suffix>", e)] and [fmt.Errorf("<prefix>%w", e)]. *)
Definition Errorf_w_suffix (e : error) (suffix : bytes) : error :=
  errWrap (Error e ++ suffix) e.
Definition Errorf_prefix_w (prefix : bytes) (e : error) : error :=
  errWrap (prefix ++ Error e) e.
(** [fmt.Errorf("%w: %w", e1, e2)]. *)
Definition Errorf_w_w (e1 e2 : error) : error :=
  errWrap2 (Error e1 ++ bs ": " ++ Error e2) e1 e2.

Lemma Is_sentinel (s : sentinel) : Is s s = true.
Proof. simpl. by rewrite bool_decide_eq_true_2. Qed.

Lemma Is_sentinel_ne (s t : sentinel) : s ≠ t → Is s t = false.
Proof. intros. simpl. by rewrite bool_decide_eq_false_2. Qed.

#[export] Hint Resolve Is_sentinel : idem.

(** An infrastructure failure: an error that is none of the three
    sentinels of the Store contract. *)
Definition is_infra (e : error) : bool :=
  negb (Is e ErrAlreadyExists || Is e ErrTokenMismatch || Is e ErrNotFound).

Lemma is_infra_spec e :
  is_infra e = true ↔
  Is e ErrAlreadyExists = false ∧ Is e ErrTokenMismatch = false ∧ Is e ErrNotFound = false.
Proof. unfold is_infra. rewrite negb_true_iff, !orb_false_iff. tauto. Qed.
