(* ===== verification/Record.v ===== *)
(** * Records (record.go)

    The unit a Store persists, its states, and logical expiry. *)
From S2P Require Import Prelude GoLib.
Import Time.

(** [State] is a [uint8]; the two declared constants and the other values. *)
Inductive State :=
  | StateReserved
  | StateCompleted
  | StateOther (v : Z).

#[global] Instance State_eq_dec : EqDecision State.
Proof. solve_decision. Defined.

Record Record := mkRecord {
  rec_Key : bytes;
  rec_Fingerprint : bytes;
  rec_State : State;
  rec_Token : bytes;
  rec_LeaseExpiresAt : Time;
  rec_RecordExpiresAt : Time;
  rec_Payload : bytes;
}.

#[global] Instance Record_eq_dec : EqDecision Record.
Proof. unfold EqDecision, Time. solve_decision. Defined.

Definition Expired (r : Record) (now : Time) : bool :=
  match rec_State r with
  | StateReserved => negb (Before now (rec_LeaseExpiresAt r))
  | StateCompleted => negb (Before now (rec_RecordExpiresAt r))
  | StateOther _ => true
  end.

(** The deadline that governs a record, if its state is a declared one. *)
Definition deadline (r : Record) : option Time :=
  match rec_State r with
  | StateReserved => Some (rec_LeaseExpiresAt r)
  | StateCompleted => Some (rec_RecordExpiresAt r)
  | StateOther _ => None
  end.

Lemma Expired_false r now :
  Expired r now = false ↔ ∃ d, deadline r = Some d ∧ (now < d)%Z.
Proof.
  unfold Expired, deadline. destruct (rec_State r);
    rewrite ?negb_false_iff, ?Before_spec; naive_solver.
Qed.

Lemma Expired_true r now :
  Expired r now = true ↔ ∀ d, deadline r = Some d → (d ≤ now)%Z.
Proof.
  unfold Expired, deadline. destruct (rec_State r);
    rewrite ?not_Before_spec; naive_solver.
Qed.

Lemma Expired_deadline r now d : deadline r = Some d → Expired r now = (d <=? now)%Z.
Proof.
  intros Hd. destruct (Z.leb_spec d now).
  - apply Expired_true. rewrite Hd. intros ? [= <-]. done.
  - apply Expired_false. eauto.
Qed.

(** Expiry is permanent. *)
Lemma Expired_mono r t t' : (t ≤ t')%Z → Expired r t = true → Expired r t' = true.
Proof. rewrite !Expired_true. intros ? H d Hd. specialize (H d Hd). lia. Qed.

Lemma Expired_mono_false r t t' : (t ≤ t')%Z → Expired r t' = false → Expired r t = false.
Proof.
  intros Ht H. apply not_true_iff_false. intros Hx.
  apply (Expired_mono _ _ _ Ht) in Hx. congruence.
Qed.

Lemma Expired_state_other r now v : rec_State r = StateOther v → Expired r now = true.
Proof. unfold Expired. by intros ->. Qed.

(** Two records with the same identity: everything but the deadlines,
    which a store may re-express on another clock. *)
Definition same_identity (r1 r2 : Record) : Prop :=
  rec_Key r1 = rec_Key r2 ∧ rec_Fingerprint r1 = rec_Fingerprint r2 ∧
  rec_State r1 = rec_State r2 ∧ rec_Token r1 = rec_Token r2 ∧
  rec_Payload r1 = rec_Payload r2.

#[global] Instance same_identity_equiv : Equivalence same_identity.
Proof. unfold same_identity. split; red; naive_solver congruence. Qed.

(** The record [Complete] leaves. *)
Definition completed (r : Record) (payload : bytes) (expires : Time) : Record :=
  mkRecord (rec_Key r) (rec_Fingerprint r) StateCompleted (rec_Token r)
    (rec_LeaseExpiresAt r) expires payload.
