(* ===== verification/Store.v ===== *)
(** * The Store interface and its contract (store.go)

    [Store] is the Go interface as a class of operations on a store state.
    [content] is what a store logically holds; [spec_*] are the operations
    the comments of store.go promise, on that content, and [*_does] what
    they promise of a store that keeps deadlines on its own clock;
    [StoreContract] is the weaker interface the state machine and the
    integrations are verified against: it also admits clients that lose
    answers and repeat requests, and does not tell one lost lease from
    another.  Contents are compared by what they
    show from an instant on ([live_equiv]), which is coarser than equality:
    expired records are absent whether or not they are still stored. *)
From S2P Require Import Prelude GoLib Errors Record.
Import Time.

(** The two clocks an operation can read: the calling process's and the
    store server's. *)
Record Instant := mkInstant { app_clock : Time; srv_clock : Time }.

(** type Store interface *)
Class Store (S : Type) := {
  Reserve : Instant → Record → S → S * (option Record * option error);
  Complete : Instant → bytes → bytes → bytes → Duration → S → S * option error;
  Release : Instant → bytes → bytes → S → S * option error;
  Get : Instant → bytes → S → S * (option Record * option error);
}.

(** ** Logical content *)

Abbreviation content := (gmap bytes Record).

Definition live (t : Time) (m : content) (k : bytes) : option Record :=
  match m !! k with
  | Some r => if Expired r t then None else Some r
  | None => None
  end.

Lemma live_Some t m k r : live t m k = Some r ↔ m !! k = Some r ∧ Expired r t = false.
Proof. unfold live. split; [|intros [-> ->]; done]. split_matches. Qed.

Lemma live_None t m k : live t m k = None ↔ ∀ r, m !! k = Some r → Expired r t = true.
Proof.
  unfold live. split.
  - intros H r Hr. rewrite Hr in H. by destruct (Expired r t).
  - intros H. destruct (m !! k) as [r|]; [|done]. by rewrite (H r).
Qed.

(** The view of one record as time passes. *)
Definition live_rec (t : Time) (r : Record) : option Record :=
  if Expired r t then None else Some r.

Lemma live_insert_eq t m k r : live t (<[k:=r]> m) k = live_rec t r.
Proof. unfold live. by rewrite lookup_insert_eq. Qed.

Lemma live_insert_ne t m k k' r : k ≠ k' → live t (<[k:=r]> m) k' = live t m k'.
Proof. intros. unfold live. by rewrite lookup_insert_ne. Qed.

Lemma live_delete_eq t m k : live t (delete k m) k = None.
Proof. unfold live. by rewrite lookup_delete_eq. Qed.

Lemma live_delete_ne t m k k' : k ≠ k' → live t (delete k m) k' = live t m k'.
Proof. intros. unfold live. by rewrite lookup_delete_ne. Qed.

#[export] Hint Rewrite live_insert_eq live_delete_eq : idem.
#[export] Hint Rewrite live_insert_ne live_delete_ne using done : idem.

Lemma live_mono t t' m k r : (t ≤ t')%Z → live t' m k = Some r → live t m k = Some r.
Proof.
  rewrite !live_Some. intros ? [? ?]. split; [done|]. by eapply Expired_mono_false.
Qed.

Lemma live_None_mono t t' m k : (t ≤ t')%Z → live t m k = None → live t' m k = None.
Proof. rewrite !live_None. intros ? H r Hr. eapply Expired_mono; eauto. Qed.

(** ** Equivalence of contents from an instant on *)

Definition live_equiv (now : Time) (m1 m2 : content) : Prop :=
  ∀ t k, (now ≤ t)%Z → live t m1 k = live t m2 k.

Notation "m1 ≡{ t }≡ m2" := (live_equiv t m1 m2) (at level 70, t at next level, format "m1  ≡{ t }≡  m2").

#[global] Instance live_equiv_equiv now : Equivalence (live_equiv now).
Proof.
  split.
  - by intros m t k _.
  - intros m1 m2 H t k Ht. by rewrite H.
  - intros m1 m2 m3 H1 H2 t k Ht. by rewrite H1, H2.
Qed.

Lemma live_equiv_mono t t' m1 m2 : (t ≤ t')%Z → m1 ≡{t}≡ m2 → m1 ≡{t'}≡ m2.
Proof. intros Ht H u k Hu. apply H. lia. Qed.

#[global] Instance live_proper now : Proper (live_equiv now ==> eq ==> eq) (live now).
Proof. intros m1 m2 H k ? <-. by apply H. Qed.

#[global] Instance insert_live_proper now k r :
  Proper (live_equiv now ==> live_equiv now) (insert (M:=content) k r).
Proof.
  intros m1 m2 H t k' Ht. destruct (decide (k = k')) as [->|].
  - by rewrite !live_insert_eq.
  - rewrite !live_insert_ne by done. by apply H.
Qed.

#[global] Instance delete_live_proper now k :
  Proper (live_equiv now ==> live_equiv now) (delete (M:=content) k).
Proof.
  intros m1 m2 H t k' Ht. destruct (decide (k = k')) as [->|].
  - by rewrite !live_delete_eq.
  - rewrite !live_delete_ne by done. by apply H.
Qed.

(** Dropping what has expired is invisible. *)
Lemma delete_expired now m k : live now m k = None → delete k m ≡{now}≡ m.
Proof.
  intros H t k' Ht. destruct (decide (k = k')) as [<-|].
  - rewrite live_delete_eq. symmetry. by eapply live_None_mono.
  - by rewrite live_delete_ne.
Qed.

(** ** The operations store.go promises *)

Definition spec_Reserve (now : Time) (r : Record) (m : content)
    : content * (option Record * option error) :=
  match live now m (rec_Key r) with
  | Some e => (m, (Some e, Some (ErrAlreadyExists : error)))
  | None => (<[rec_Key r := r]> m, (None, None))
  end.

(** The compare-and-set of Complete and Release: the live reserved record
    held under the token, or why there is none. *)
Definition cas (now : Time) (key token : bytes) (m : content) : Record + error :=
  match live now m key with
  | None => inr (ErrNotFound : error)
  | Some r =>
      if decide (rec_Token r = token) then
        if decide (rec_State r = StateReserved) then inl r
        else inr (ErrNotFound : error)
      else inr (ErrTokenMismatch : error)
  end.

Definition spec_Complete (now : Time) (key token payload : bytes) (ttl : Duration)
    (m : content) : content * option error :=
  match cas now key token m with
  | inl r => (<[key := completed r payload (Add now ttl)]> m, None)
  | inr e => (m, Some e)
  end.

Definition spec_Release (now : Time) (key token : bytes) (m : content)
    : content * option error :=
  match cas now key token m with
  | inl _ => (delete key m, None)
  | inr e => (m, Some e)
  end.

Definition spec_Get (now : Time) (key : bytes) (m : content)
    : content * (option Record * option error) :=
  (m, (live now m key, None)).

(** The specification as a store whose only clock is the caller's. *)
#[global] Instance SpecStore : Store content := {
  Reserve i r m := spec_Reserve (app_clock i) r m;
  Complete i k tok p ttl m := spec_Complete (app_clock i) k tok p ttl m;
  Release i k tok m := spec_Release (app_clock i) k tok m;
  Get i k m := spec_Get (app_clock i) k m;
}.

Lemma cas_inl now key token m r :
  cas now key token m = inl r ↔
  live now m key = Some r ∧ rec_Token r = token ∧ rec_State r = StateReserved.
Proof. unfold cas. split; [split_matches|]. intros (-> & -> & ->). by rewrite !decide_True. Qed.

Lemma cas_inr now key token m e :
  cas now key token m = inr e →
  e = (ErrTokenMismatch : error) ∨ e = (ErrNotFound : error).
Proof. unfold cas. split_matches; naive_solver. Qed.

#[global] Instance cas_proper now :
  Proper (eq ==> eq ==> live_equiv now ==> eq) (cas now).
Proof. intros k ? <- tok ? <- m1 m2 H. unfold cas. by rewrite H. Qed.

(** What a caller may pass to Reserve: a reservation, which has no payload
    yet. *)
Definition reservation (r : Record) : Prop :=
  rec_State r = StateReserved ∧ rec_Payload r = [].

(** ** What is promised of one execution

    The operations of the comments, of a store that keeps deadlines on a
    clock of its own: [until] holds of the deadlines it may write, and
    [told] relates a deadline to what it is reported as.  Every answer is
    determined: which sentinel comes when, and that success means the
    effect. *)
Section does.
Variables (until : Z → Prop) (told : Z → Time → Prop) (now : Time).

Definition claims_until (r : Record) (m m' : content) : Prop :=
  ∃ r' d, same_identity r r' ∧ deadline r' = Some d ∧ until d ∧
    m' ≡{now}≡ <[rec_Key r := r']> m.

Definition completes_until (key payload : bytes) (old : Record) (m m' : content) : Prop :=
  ∃ r' d, same_identity (completed old payload Time.zero) r' ∧ deadline r' = Some d ∧ until d ∧
    m' ≡{now}≡ <[key := r']> m.

(** [old] is reported as [ex]. *)
Definition tells (old ex : Record) : Prop :=
  same_identity old ex ∧ ∃ d t, deadline old = Some d ∧ deadline ex = Some t ∧ told d t.

Definition reserve_does (r : Record) (m m' : content) (a : option Record * option error) : Prop :=
  match live now m (rec_Key r) with
  | Some old => (∃ ex, a = (Some ex, Some (ErrAlreadyExists : error)) ∧ tells old ex) ∧ m' ≡{now}≡ m
  | None => a = (None, None) ∧ claims_until r m m'
  end.

Definition complete_does (key token payload : bytes) (m m' : content) (err : option error) : Prop :=
  match cas now key token m with
  | inl old => err = None ∧ completes_until key payload old m m'
  | inr e => err = Some e ∧ m' ≡{now}≡ m
  end.

Definition release_does (key token : bytes) (m m' : content) (err : option error) : Prop :=
  match cas now key token m with
  | inl _ => err = None ∧ m' ≡{now}≡ delete key m
  | inr e => err = Some e ∧ m' ≡{now}≡ m
  end.

Definition get_does (key : bytes) (m m' : content) (a : option Record * option error) : Prop :=
  m' ≡{now}≡ m ∧
  match live now m key with
  | Some old => ∃ ex, a = (Some ex, None) ∧ tells old ex
  | None => a = (None, None)
  end.
End does.

(** The specification does so, with the very deadlines. *)
Lemma spec_does now m :
  (∀ r, reservation r → reserve_does (eq (rec_LeaseExpiresAt r)) eq now r m
     (spec_Reserve now r m).1 (spec_Reserve now r m).2) ∧
  (∀ key token payload ttl, complete_does (eq (Add now ttl)) now key token payload m
     (spec_Complete now key token payload ttl m).1 (spec_Complete now key token payload ttl m).2) ∧
  (∀ key token, release_does now key token m
     (spec_Release now key token m).1 (spec_Release now key token m).2) ∧
  (∀ key, get_does eq now key m (spec_Get now key m).1 (spec_Get now key m).2).
Proof.
  assert (∀ r d, Expired r d = false → ∃ x, deadline r = Some x) as Hd.
  { intros r d Hx. apply Expired_false in Hx as (x & Hx & _). by exists x. }
  split_and!.
  - intros r [Hs _]. unfold reserve_does, spec_Reserve. destruct (live _ _ _) as [old|] eqn:Hl; simpl.
    + apply live_Some in Hl as [_ [x Hx]%Hd]. split; [|done]. exists old. split; [done|].
      split; [done|]. by exists x, x.
    + split; [done|]. exists r, (rec_LeaseExpiresAt r). split_and!; try done.
      unfold deadline. by rewrite Hs.
  - intros *. unfold complete_does, spec_Complete. destruct (cas _ _ _ _) as [old|e]; [|done].
    split; [done|]. by exists (completed old payload (Add now ttl)), (Add now ttl).
  - intros *. unfold release_does, spec_Release. by destruct (cas _ _ _ _).
  - intros key. split; [done|]. simpl. destruct (live _ _ _) as [old|] eqn:Hl; [|done].
    apply live_Some in Hl as [_ [x Hx]%Hd]. exists old. split; [done|]. split; [done|].
    by exists x, x.
Qed.

(** ** The contract the development relies on *)

(** An operation had its effect or failed for infrastructure reasons, before
    or after taking effect.  A networked client may also repeat a request
    whose answer was lost: the repetition then meets the effect of the
    first one, and reports the caller's own reservation as existing, or
    its own completed or released record as lost. *)
Definition claims (now : Time) (r : Record) (m m' : content) : Prop :=
  ∃ r', same_identity r r' ∧ live now m (rec_Key r) = None ∧
    m' ≡{now}≡ <[rec_Key r := r']> m.

Definition completes (now : Time) (key token payload : bytes) (m m' : content) : Prop :=
  ∃ r x r', live now m key = Some r ∧ rec_Token r = token ∧ rec_State r = StateReserved ∧
    same_identity (completed r payload x) r' ∧ m' ≡{now}≡ <[key := r']> m.

Definition releases (now : Time) (key token : bytes) (m m' : content) : Prop :=
  ∃ r, live now m key = Some r ∧ rec_Token r = token ∧ rec_State r = StateReserved ∧
    m' ≡{now}≡ delete key m.

Definition reserve_post (now : Time) (r : Record) (m m' : content)
    (ex : option Record) (err : option error) : Prop :=
  match err with
  | None => ex = None ∧ claims now r m m'
  | Some e =>
      (Is e ErrAlreadyExists = true ∧
         ∃ old', ex = Some old' ∧
           ((m' ≡{now}≡ m ∧ ∃ old, live now m (rec_Key r) = Some old ∧ same_identity old old')
            ∨ (claims now r m m' ∧ same_identity r old')))
      ∨ (is_infra e = true ∧ (m' ≡{now}≡ m ∨ claims now r m m'))
  end.

Definition get_post (now : Time) (key : bytes) (m m' : content)
    (ex : option Record) (err : option error) : Prop :=
  m' ≡{now}≡ m ∧
  match err, ex with
  | None, Some e' => ∃ e, live now m key = Some e ∧ same_identity e e'
  | None, None => live now m key = None
  | Some _, _ => ex = None
  end.

Definition lease_lost_error (e : error) : bool :=
  Is e ErrTokenMismatch || Is e ErrNotFound.

Definition complete_post (now : Time) (key token payload : bytes) (m m' : content)
    (err : option error) : Prop :=
  match err with
  | None => completes now key token payload m m'
  | Some e =>
      (lease_lost_error e = true ∧
         ((m' ≡{now}≡ m ∧ ∀ r, cas now key token m ≠ inl r) ∨ completes now key token payload m m'))
      ∨ (is_infra e = true ∧ (m' ≡{now}≡ m ∨ completes now key token payload m m'))
  end.

Definition release_post (now : Time) (key token : bytes) (m m' : content)
    (err : option error) : Prop :=
  match err with
  | None => releases now key token m m'
  | Some e =>
      (lease_lost_error e = true ∧
         ((m' ≡{now}≡ m ∧ ∀ r, cas now key token m ≠ inl r) ∨ releases now key token m m'))
      ∨ (is_infra e = true ∧ (m' ≡{now}≡ m ∨ releases now key token m m'))
  end.

Lemma cas_inr_lost now key token m e : cas now key token m = inr e → lease_lost_error e = true.
Proof. intros E. by destruct (cas_inr _ _ _ _ _ E) as [-> | ->]. Qed.

(** The contract only speaks of contents up to equivalence. *)
#[global] Instance reserve_post_proper now r m :
  Proper (live_equiv now ==> eq ==> eq ==> iff) (reserve_post now r m).
Proof.
  intros m1 m2 Hm ex ? <- err ? <-. unfold reserve_post, claims.
  by destruct err; setoid_rewrite Hm.
Qed.

#[global] Instance complete_post_proper now key token payload m :
  Proper (live_equiv now ==> eq ==> iff) (complete_post now key token payload m).
Proof.
  intros m1 m2 Hm err ? <-. unfold complete_post, completes.
  by destruct err; setoid_rewrite Hm.
Qed.

#[global] Instance release_post_proper now key token m :
  Proper (live_equiv now ==> eq ==> iff) (release_post now key token m).
Proof.
  intros m1 m2 Hm err ? <-. unfold release_post, releases.
  by destruct err; setoid_rewrite Hm.
Qed.

#[global] Instance get_post_proper now key m :
  Proper (live_equiv now ==> eq ==> eq ==> iff) (get_post now key m).
Proof.
  intros m1 m2 Hm ex ? <- err ? <-. unfold get_post. by rewrite Hm.
Qed.

#[global] Instance claims_proper now r :
  Proper (live_equiv now ==> live_equiv now ==> iff) (claims now r).
Proof. intros m1 m2 Hm m1' m2' Hm'. unfold claims. by setoid_rewrite Hm; setoid_rewrite Hm'. Qed.

#[global] Instance completes_proper now key token payload :
  Proper (live_equiv now ==> live_equiv now ==> iff) (completes now key token payload).
Proof. intros m1 m2 Hm m1' m2' Hm'. unfold completes. by setoid_rewrite Hm; setoid_rewrite Hm'. Qed.

#[global] Instance releases_proper now key token :
  Proper (live_equiv now ==> live_equiv now ==> iff) (releases now key token).
Proof. intros m1 m2 Hm m1' m2' Hm'. unfold releases. by setoid_rewrite Hm; setoid_rewrite Hm'. Qed.

(** *** Repeated requests

    A repetition finds what the first execution left: a claim is made at
    most once more, after it has expired, and a completion or a release
    never happens twice. *)
Definition maybe (now : Time) (R : content → content → Prop) (m m' : content) : Prop :=
  m' ≡{now}≡ m ∨ R m m'.

Lemma claims_claims now r m1 m2 m3 : claims now r m1 m2 → claims now r m2 m3 → claims now r m1 m3.
Proof.
  intros (r1 & _ & Hl & Hm2) (r2 & Hs & _ & Hm3). exists r2. split; [done|]. split; [done|].
  rewrite Hm3, Hm2. by rewrite insert_insert_eq.
Qed.

Lemma completes_once now key token payload m1 m2 m3 :
  completes now key token payload m1 m2 → ¬ completes now key token payload m2 m3.
Proof.
  intros (r & x & r' & _ & _ & _ & (_ & _ & Hst & _) & Hm2) (r1 & _ & _ & Hl & _ & Hr1 & _).
  rewrite (Hm2 now) in Hl by done. rewrite live_insert_eq in Hl. unfold live_rec in Hl.
  case_match; simplify_eq/=; congruence.
Qed.

Lemma releases_once now key token m1 m2 m3 :
  releases now key token m1 m2 → ¬ releases now key token m2 m3.
Proof.
  intros (r & _ & _ & _ & Hm2) (r1 & Hl & _). rewrite (Hm2 now) in Hl by done.
  by rewrite live_delete_eq in Hl.
Qed.

Lemma maybe_trans now R m1 m2 m3 :
  Proper (live_equiv now ==> live_equiv now ==> iff) R →
  (R m1 m2 → R m2 m3 → R m1 m3) →
  maybe now R m1 m2 → maybe now R m2 m3 → maybe now R m1 m3.
Proof.
  intros HR Ht [H1|H1] [H2|H2]; unfold maybe.
  - left. by rewrite H2, H1.
  - right. by rewrite <-H1.
  - right. by rewrite H2.
  - right. auto.
Qed.

(** What the state machine and the integrations rely on, at the clock that is
    the store's expiry authority.  It is deliberately weaker than what is
    promised of one execution: the answer to an operation that took effect
    may be lost. *)
Class StoreContract (S : Type) `{Store S} := {
  authority : Instant → Time;
  abs : S → content;
  authority_mono i i' :
    (app_clock i ≤ app_clock i')%Z → (srv_clock i ≤ srv_clock i')%Z →
    (authority i ≤ authority i')%Z;
  reserve_contract i r s s' ex err :
    reservation r →
    Reserve i r s = (s', (ex, err)) →
    reserve_post (authority i) r (abs s) (abs s') ex err;
  complete_contract i key token payload ttl s s' err :
    Complete i key token payload ttl s = (s', err) →
    complete_post (authority i) key token payload (abs s) (abs s') err;
  release_contract i key token s s' err :
    Release i key token s = (s', err) →
    release_post (authority i) key token (abs s) (abs s') err;
  get_contract i key s s' ex err :
    Get i key s = (s', (ex, err)) →
    get_post (authority i) key (abs s) (abs s') ex err;
}.

(** The specification satisfies the contract. *)
#[global, refine] Instance SpecStore_contract : StoreContract content := {
  authority := app_clock;
  abs m := m;
}.
Proof.
  - done.
  - intros i r m m' ex err Hst H. simpl in H. unfold spec_Reserve in H.
    destruct (live _ _ _) as [e|] eqn:E; simplify_eq.
    + left. split; [done|]. exists e. split; [done|]. left. split; [done|]. by exists e.
    + split; [done|]. exists r. done.
  - intros i k tok p ttl m m' err H. simpl in H. unfold spec_Complete in H.
    destruct (cas _ _ _ _) as [r|e] eqn:E; simplify_eq.
    + apply cas_inl in E as (? & ? & ?). do 3 eexists; split_and!; done.
    + left. split; [by eapply cas_inr_lost|]. left. split; [done|]. by rewrite E.
  - intros i k tok m m' err H. simpl in H. unfold spec_Release in H.
    destruct (cas _ _ _ _) as [r|e] eqn:E; simplify_eq.
    + apply cas_inl in E as (? & ? & ?). by exists r.
    + left. split; [by eapply cas_inr_lost|]. left. split; [done|]. by rewrite E.
  - intros i k m m' ex err H. simpl in H. unfold spec_Get in H. simplify_eq.
    split; [done|]. destruct (live _ _ _) as [e|] eqn:E; [by exists e|done].
Defined.

(** ** Frame lemmas: what an operation leaves alone *)

(** A live record keeps being shown until its deadline. *)
Lemma live_until now t m k r d :
  (now ≤ t)%Z → live now m k = Some r → deadline r = Some d → (t < d)%Z →
  live t m k = Some r.
Proof. rewrite !live_Some. intros ? [Hk _] Hd ?. split; [done|]. apply Expired_false. eauto. Qed.

Lemma reserve_frame now r m m' ex err k old :
  reserve_post now r m m' ex err → live now m k = Some old → live now m' k = Some old.
Proof.
  assert (∀ r', live now m (rec_Key r) = None → m' ≡{now}≡ <[rec_Key r := r']> m →
    live now m k = Some old → live now m' k = Some old) as Hclaim.
  { intros r' Hn Hm Hl. rewrite (Hm now k) by done.
    destruct (decide (rec_Key r = k)) as [<-|]; [congruence|]. by rewrite live_insert_ne. }
  assert (m' ≡{now}≡ m → live now m k = Some old → live now m' k = Some old) as Hsame.
  { intros Hm. by rewrite (Hm now k). }
  unfold reserve_post, claims. destruct err; naive_solver.
Qed.

(** A compare-and-set under another token, or on a record that is not
    reserved, does not touch the record. *)
Lemma complete_frame now key tok p m m' err k old :
  complete_post now key tok p m m' err → live now m k = Some old →
  rec_Token old ≠ tok ∨ rec_State old ≠ StateReserved → live now m' k = Some old.
Proof.
  intros Hpost Hl Hold.
  assert (∀ r r', live now m key = Some r → rec_Token r = tok → rec_State r = StateReserved →
    m' ≡{now}≡ <[key := r']> m → live now m' k = Some old) as Hdone.
  { intros r r' Hr Ht Hs Hm. rewrite (Hm now k) by done.
    destruct (decide (key = k)) as [<-|]; [naive_solver congruence|]. by rewrite live_insert_ne. }
  assert (m' ≡{now}≡ m → live now m' k = Some old) as Hsame.
  { intros Hm. by rewrite (Hm now k). }
  unfold complete_post, completes in Hpost. destruct err; naive_solver.
Qed.

Lemma release_frame now key tok m m' err k old :
  release_post now key tok m m' err → live now m k = Some old →
  rec_Token old ≠ tok ∨ rec_State old ≠ StateReserved → live now m' k = Some old.
Proof.
  intros Hpost Hl Hold.
  assert (∀ r, live now m key = Some r → rec_Token r = tok → rec_State r = StateReserved →
    m' ≡{now}≡ delete key m → live now m' k = Some old) as Hdone.
  { intros r Hr Ht Hs Hm. rewrite (Hm now k) by done.
    destruct (decide (key = k)) as [<-|]; [naive_solver congruence|]. by rewrite live_delete_ne. }
  assert (m' ≡{now}≡ m → live now m' k = Some old) as Hsame.
  { intros Hm. by rewrite (Hm now k). }
  unfold release_post, releases in Hpost. destruct err; naive_solver.
Qed.

Lemma get_frame now key m m' ex err k old :
  get_post now key m m' ex err → live now m k = Some old → live now m' k = Some old.
Proof. intros [Hm _] Hl. by rewrite (Hm now k). Qed.

(** A successful Reserve leaves a live record only if it is the caller's. *)
Lemma reserve_ok_live now r m m' ex r' :
  reserve_post now r m m' ex None → live now m' (rec_Key r) = Some r' →
  rec_Token r' = rec_Token r ∧ rec_State r' = rec_State r.
Proof.
  intros (_ & r0 & (?&?&?&?&?) & _ & Hm). rewrite (Hm now) by done.
  rewrite live_insert_eq. unfold live_rec. case_match; naive_solver.
Qed.
