(* ===== verification/Effects.v ===== *)
(** * Programs over a store

    The code of idemlease runs against a Store, a clock, a random source
    and a logger.  A [prog] is such a piece of code as a tree of calls;
    [run] executes it against one store, with the clock advancing by a
    given tick before every call; [Refines] and [run_refines] transport
    everything a program does from one store to another. *)
From S2P Require Import Prelude GoLib Errors Record Store.
Import Time.

(** A structured log line of [log/slog]. *)
Inductive level := LevelWarn | LevelError.
Record logline := mkLog { log_level : level; log_msg : bytes; log_attrs : list (bytes * bytes) }.

#[global] Instance level_eq_dec : EqDecision level.
Proof. solve_decision. Defined.
#[global] Instance logline_eq_dec : EqDecision logline.
Proof. solve_decision. Defined.

Inductive prog (A : Type) :=
  | Ret (a : A)
  | CallNow (k : Time → prog A)
  | CallRead (n : nat) (k : bytes + error → prog A)
  | CallReserve (r : Record) (k : option Record * option error → prog A)
  | CallComplete (key token payload : bytes) (ttl : Duration) (k : option error → prog A)
  | CallRelease (key token : bytes) (k : option error → prog A)
  | CallGet (key : bytes) (k : option Record * option error → prog A)
  | CallLog (l : logline) (k : prog A).
Arguments Ret {A} _.
Arguments CallNow {A} _.
Arguments CallRead {A} _ _.
Arguments CallReserve {A} _ _.
Arguments CallComplete {A} _ _ _ _ _.
Arguments CallRelease {A} _ _ _.
Arguments CallGet {A} _ _.
Arguments CallLog {A} _ _.

Fixpoint prog_bind {A B} (f : A → prog B) (p : prog A) : prog B :=
  match p with
  | Ret a => f a
  | CallNow k => CallNow (λ x, prog_bind f (k x))
  | CallRead n k => CallRead n (λ x, prog_bind f (k x))
  | CallReserve r k => CallReserve r (λ x, prog_bind f (k x))
  | CallComplete key tok p ttl k => CallComplete key tok p ttl (λ x, prog_bind f (k x))
  | CallRelease key tok k => CallRelease key tok (λ x, prog_bind f (k x))
  | CallGet key k => CallGet key (λ x, prog_bind f (k x))
  | CallLog l k => CallLog l (prog_bind f k)
  end.

#[global] Instance prog_mret : MRet prog := @Ret.
#[global] Instance prog_mbind : MBind prog := @prog_bind.

(** The single calls. *)
Definition time_Now : prog Time := CallNow Ret.
Definition rand_Read (n : nat) : prog (bytes + error) := CallRead n Ret.
Definition s_Reserve (r : Record) : prog (option Record * option error) := CallReserve r Ret.
Definition s_Complete key token payload ttl : prog (option error) :=
  CallComplete key token payload ttl Ret.
Definition s_Release key token : prog (option error) := CallRelease key token Ret.
Definition s_Get key : prog (option Record * option error) := CallGet key Ret.
Definition log (l : logline) : prog () := CallLog l (Ret ()).

(** The calls of a logger, and the attribute of an error. *)
Definition Warn (msg : string) (attrs : list (bytes * bytes)) : prog () :=
  log (mkLog LevelWarn (bs msg) attrs).
Definition LogError (msg : string) (attrs : list (bytes * bytes)) : prog () :=
  log (mkLog LevelError (bs msg) attrs).
Definition error_attr (e : error) : list (bytes * bytes) := [(bs "error", Error e)].

(** ** Execution *)

Record tick := mkTick { d_app : N; d_srv : N }.

Definition advance_instant (i : Instant) (d : tick) : Instant :=
  mkInstant (app_clock i + Z.of_N (d_app d))%Z (srv_clock i + Z.of_N (d_srv d))%Z.

(** Clocks never go back. *)
Definition later (i i' : Instant) : Prop :=
  (app_clock i ≤ app_clock i' ∧ srv_clock i ≤ srv_clock i')%Z.

#[global] Instance later_preorder : PreOrder later.
Proof. unfold later. split; red; intros; lia. Qed.

Record world (S : Type) := mkWorld {
  w_store : S;
  w_now : Instant;
  w_ticks : list tick;
  w_rand : list (bytes + error);
  w_log : list logline;
}.
Arguments mkWorld {S} _ _ _ _ _.
Arguments w_store {S} _.
Arguments w_now {S} _.
Arguments w_ticks {S} _.
Arguments w_rand {S} _.
Arguments w_log {S} _.

Definition set_store {S} (s : S) (w : world S) : world S :=
  mkWorld s (w_now w) (w_ticks w) (w_rand w) (w_log w).

(** Time passes before a call: by the next tick, by nothing once they are
    used up. *)
Definition advance {S} (w : world S) : world S :=
  match w_ticks w with
  | [] => w
  | d :: ds => mkWorld (w_store w) (advance_instant (w_now w) d) ds (w_rand w) (w_log w)
  end.

(** [rand.Read]: the next block of the random source, cut to the size of
    the buffer, or its failure; an exhausted source fails. *)
Definition read_rand {S} (n : nat) (w : world S) : (bytes + error) * world S :=
  match w_rand w with
  | [] => (inr (errText (bs "EOF")), w)
  | b :: bs =>
      (match b with inl b => inl (take n b) | inr e => inr e end,
       mkWorld (w_store w) (w_now w) (w_ticks w) bs (w_log w))
  end.

Definition add_log {S} (l : logline) (w : world S) : world S :=
  mkWorld (w_store w) (w_now w) (w_ticks w) (w_rand w) (w_log w ++ [l]).

Fixpoint run {S A} `{Store S} (p : prog A) (w : world S) : A * world S :=
  match p with
  | Ret a => (a, w)
  | CallNow k => let w := advance w in run (k (app_clock (w_now w))) w
  | CallRead n k => let '(b, w) := read_rand n w in run (k b) w
  | CallReserve r k =>
      let w := advance w in
      let '(s, x) := Reserve (w_now w) r (w_store w) in run (k x) (set_store s w)
  | CallComplete key tok p ttl k =>
      let w := advance w in
      let '(s, x) := Complete (w_now w) key tok p ttl (w_store w) in run (k x) (set_store s w)
  | CallRelease key tok k =>
      let w := advance w in
      let '(s, x) := Release (w_now w) key tok (w_store w) in run (k x) (set_store s w)
  | CallGet key k =>
      let w := advance w in
      let '(s, x) := Get (w_now w) key (w_store w) in run (k x) (set_store s w)
  | CallLog l k => run k (add_log l w)
  end.

Lemma run_bind {S A B} `{Store S} (p : prog A) (f : A → prog B) (w : world S) :
  run (p ≫= f) w = let '(a, w') := run p w in run (f a) w'.
Proof.
  unfold mbind, prog_mbind.
  revert w. induction p; intros w; simpl; auto;
    match goal with |- (let '(_, _) := ?e in _) = _ => destruct e end; auto.
Qed.

Lemma advance_later {S} (w : world S) : later (w_now w) (w_now (advance w)).
Proof.
  unfold advance. destruct (w_ticks w) as [|d ds]; simpl; [done|].
  unfold later, advance_instant; simpl. lia.
Qed.

Lemma advance_store {S} (w : world S) : w_store (advance w) = w_store w.
Proof. unfold advance. by destruct (w_ticks w). Qed.

Lemma advance_rand {S} (w : world S) : w_rand (advance w) = w_rand w.
Proof. unfold advance. by destruct (w_ticks w). Qed.
#[export] Hint Rewrite @advance_store @advance_rand : idem.

Lemma run_later {S A} `{Store S} (p : prog A) (w : world S) :
  later (w_now w) (w_now (run p w).2).
Proof.
  revert w. induction p; intros w; simpl.
  1: done.
  all: try match goal with |- context [let '(_, _) := ?e in _] => destruct e eqn:E end.
  all: etrans; [|match goal with IH : _ |- _ => apply IH end].
  all: try apply advance_later.
  - unfold read_rand in E. by destruct (w_rand w); simplify_eq/=.
  - done.
Qed.

(** ** Refinement between stores

    [R i s1 s2]: at instant [i] the two stores answer alike from now on. *)
Class Refines (S1 S2 : Type) `{Store S1, Store S2} (R : Instant → S1 → S2 → Prop) := {
  refines_later i i' s1 s2 : later i i' → R i s1 s2 → R i' s1 s2;
  refines_reserve i r s1 s2 s1' s2' x1 x2 : R i s1 s2 →
    Reserve i r s1 = (s1', x1) → Reserve i r s2 = (s2', x2) → x1 = x2 ∧ R i s1' s2';
  refines_complete i key tok p ttl s1 s2 s1' s2' x1 x2 : R i s1 s2 →
    Complete i key tok p ttl s1 = (s1', x1) → Complete i key tok p ttl s2 = (s2', x2) →
    x1 = x2 ∧ R i s1' s2';
  refines_release i key tok s1 s2 s1' s2' x1 x2 : R i s1 s2 →
    Release i key tok s1 = (s1', x1) → Release i key tok s2 = (s2', x2) →
    x1 = x2 ∧ R i s1' s2';
  refines_get i key s1 s2 s1' s2' x1 x2 : R i s1 s2 →
    Get i key s1 = (s1', x1) → Get i key s2 = (s2', x2) → x1 = x2 ∧ R i s1' s2';
}.

Section refines.
Context {S1 S2 : Type} `{Refines S1 S2 R}.

(** Worlds that differ only by related stores. *)
Definition world_rel (w1 : world S1) (w2 : world S2) : Prop :=
  R (w_now w1) (w_store w1) (w_store w2) ∧ w_now w1 = w_now w2 ∧
  w_ticks w1 = w_ticks w2 ∧ w_rand w1 = w_rand w2 ∧ w_log w1 = w_log w2.

Lemma world_rel_advance w1 w2 : world_rel w1 w2 → world_rel (advance w1) (advance w2).
Proof.
  intros (HR & Hn & Ht & Hr & Hl). pose proof (advance_later w1) as Hla.
  unfold world_rel, advance in *. rewrite <-Ht, <-Hn, <-Hr, <-Hl.
  destruct (w_ticks w1) eqn:E; simpl in *; rewrite ?E; split_and!; try done.
  by eapply (refines_later (R:=R)).
Qed.

Lemma world_rel_set w1 w2 s1 s2 :
  world_rel w1 w2 → R (w_now w1) s1 s2 → world_rel (set_store s1 w1) (set_store s2 w2).
Proof. intros (? & ? & ? & ? & ?) ?. by split_and!. Qed.

Lemma world_rel_rand n w1 w2 :
  world_rel w1 w2 →
  (read_rand n w1).1 = (read_rand n w2).1 ∧ world_rel (read_rand n w1).2 (read_rand n w2).2.
Proof.
  unfold world_rel, read_rand. intros (? & ? & ? & Hr & ?). rewrite <-Hr.
  destruct (w_rand w1) eqn:E; simpl; split; try done; split_and!; simpl; congruence.
Qed.

(** A program cannot tell related stores apart. *)
Lemma run_refines {A} (p : prog A) w1 w2 :
  world_rel w1 w2 →
  (run p w1).1 = (run p w2).1 ∧ world_rel (run p w1).2 (run p w2).2.
Proof.
  revert w1 w2. induction p as [a|k IH|n k IH|r k IH|key tok p ttl k IH|key tok k IH|key k IH|l k IH];
    intros w1 w2 Hw; simpl; [done|..].
  2: { apply (world_rel_rand n) in Hw as [Hx Hw].
       destruct (read_rand n w1), (read_rand n w2); simplify_eq/=. by apply IH. }
  6: { apply IH. unfold world_rel in *. destruct Hw as (?&?&?&?&Hl). simpl. by rewrite Hl. }
  all: apply world_rel_advance in Hw; pose proof Hw as (HR & Hn & _).
  all: rewrite <-Hn.
  1: by apply IH.
  all: match goal with
       | |- fst (let '(_, _) := ?e1 in _) = fst (let '(_, _) := ?e2 in _) ∧ _ =>
           destruct e1 as [s1 x1] eqn:E1; destruct e2 as [s2 x2] eqn:E2
       end.
  - destruct (refines_reserve _ _ _ _ _ _ _ _ HR E1 E2) as [-> ?].
    by apply IH, world_rel_set.
  - destruct (refines_complete _ _ _ _ _ _ _ _ _ _ _ HR E1 E2) as [-> ?].
    by apply IH, world_rel_set.
  - destruct (refines_release _ _ _ _ _ _ _ _ _ HR E1 E2) as [-> ?].
    by apply IH, world_rel_set.
  - destruct (refines_get _ _ _ _ _ _ _ _ HR E1 E2) as [-> ?].
    by apply IH, world_rel_set.
Qed.
End refines.
