(* ===== verification/Quiet.v ===== *)
(** * Programs up to their log lines

    Logging changes neither the store nor the clock, so programs that
    differ only in what they log answer alike.  [quiet_eq] is this
    equivalence; binding respects it, and log lines can be dropped. *)
From S2P Require Import Prelude GoLib Errors Record Store Effects.

(** Worlds that differ by their log only. *)
Definition same_but_log {S} (w w' : world S) : Prop :=
  w_store w' = w_store w ∧ w_now w' = w_now w ∧ w_ticks w' = w_ticks w ∧ w_rand w' = w_rand w.

#[global] Instance same_but_log_equiv {S} : Equivalence (same_but_log (S:=S)).
Proof.
  split; unfold same_but_log.
  - by intros w.
  - intros w w' (-> & -> & -> & ->). done.
  - intros w1 w2 w3 (-> & -> & -> & ->) (-> & -> & -> & ->). done.
Qed.

Lemma same_but_log_advance {S} (w w' : world S) :
  same_but_log w w' → same_but_log (advance w) (advance w').
Proof.
  intros (Hs & Hn & Ht & Hr). unfold same_but_log, advance. rewrite Ht.
  destruct (w_ticks w) eqn:E; simpl; rewrite ?E, ?Hs, ?Hn, ?Hr; done.
Qed.

Lemma same_but_log_rand {S} n (w w' : world S) :
  same_but_log w w' →
  (read_rand n w).1 = (read_rand n w').1 ∧ same_but_log (read_rand n w).2 (read_rand n w').2.
Proof.
  intros (Hs & Hn & Ht & Hr). unfold same_but_log, read_rand. rewrite Hr.
  destruct (w_rand w) eqn:E; simpl; rewrite ?E, ?Hs, ?Hn, ?Ht; done.
Qed.

Lemma run_same_but_log {S A} `{Store S} (p : prog A) (w w' : world S) :
  same_but_log w w' →
  (run p w).1 = (run p w').1 ∧ same_but_log (run p w).2 (run p w').2.
Proof.
  revert w w'. induction p as [a|k IH|n k IH|r k IH|key tok p ttl k IH|key tok k IH|key k IH|l k IH];
    intros w w' Hw; simpl; [done|..].
  2: { apply (same_but_log_rand n) in Hw as [Hx Hw].
       destruct (read_rand n w), (read_rand n w'); simplify_eq/=. by apply IH. }
  6: { apply IH. exact Hw. }
  all: apply same_but_log_advance in Hw; pose proof Hw as (Hs & Hn & Ht & Hr); rewrite Hn.
  1: by apply IH.
  all: rewrite Hs; match goal with |- context [let '(_, _) := ?e in _] => destruct e end;
    apply IH; unfold same_but_log; by rewrite ?Hn, ?Ht, ?Hr.
Qed.

Section quiet.
Context {S : Type} `{Store S}.

(** The same answer and the same world, log aside. *)
Definition quiet_eq {A} (p q : prog A) : Prop :=
  ∀ w w' : world S, same_but_log w w' →
    (run p w).1 = (run q w').1 ∧ same_but_log (run p w).2 (run q w').2.

#[global] Instance quiet_eq_equiv {A} : Equivalence (@quiet_eq A).
Proof.
  split.
  - intros p w w'. apply run_same_but_log.
  - intros p q Hpq w w' Hw. destruct (Hpq w' w ltac:(by symmetry)) as [-> ?]. split; [done|by symmetry].
  - intros p q r Hpq Hqr w w' Hw. destruct (Hpq w w ltac:(done)) as [-> H1].
    destruct (Hqr w w' Hw) as [-> H2]. split; [done|]. by etrans.
Qed.

#[global] Instance quiet_eq_bind {A B} :
  Proper (pointwise_relation A quiet_eq ==> quiet_eq ==> quiet_eq) (@prog_bind A B).
Proof.
  intros f g Hfg p q Hpq w w' Hw. change (prog_bind f p) with (p ≫= f). change (prog_bind g q) with (q ≫= g).
  rewrite !run_bind. destruct (Hpq w w' Hw) as [Hx Hw1].
  destruct (run p w), (run q w'). simpl in *. subst. by apply Hfg.
Qed.

Lemma quiet_bind {A B} (p q : prog A) (f g : A → prog B) :
  quiet_eq p q → (∀ a, quiet_eq (f a) (g a)) → quiet_eq (p ≫= f) (q ≫= g).
Proof. intros Hpq Hfg. by apply quiet_eq_bind. Qed.

Lemma quiet_assoc {A B D} (p : prog A) (f : A → prog B) (g : B → prog D) :
  quiet_eq ((p ≫= f) ≫= g) (p ≫= λ a, f a ≫= g).
Proof.
  intros w w' Hw. rewrite !run_bind. destruct (run_same_but_log p w w' Hw) as [Hx Hw1].
  destruct (run p w), (run p w'). simpl in *. subst. rewrite run_bind.
  destruct (run_same_but_log (f a0) w0 w1 Hw1) as [Hx2 Hw2].
  destruct (run (f a0) w0), (run (f a0) w1). simpl in *. subst. by apply run_same_but_log.
Qed.

Lemma quiet_ret_r {A} (p : prog A) : quiet_eq (p ≫= mret) p.
Proof.
  intros w w' Hw. rewrite run_bind. destruct (run_same_but_log p w w' Hw) as [Hx Hw1].
  by destruct (run p w), (run p w').
Qed.

(** A log line more or less. *)
Lemma quiet_log (lvl : level) (msg : bytes) (attrs : list (bytes * bytes)) :
  quiet_eq (log (mkLog lvl msg attrs)) (mret ()).
Proof. intros w w' Hw. split; [done|]. exact Hw. Qed.

Lemma quiet_Warn msg attrs : quiet_eq (Warn msg attrs) (mret ()).
Proof. apply quiet_log. Qed.

Lemma quiet_log_then {A} (q : prog ()) (p : prog A) : quiet_eq q (mret ()) → quiet_eq (q ≫= λ _, p) p.
Proof.
  intros Hq. etrans; [apply (quiet_bind _ (mret ()) _ (λ _, p)); [exact Hq|reflexivity]|]. reflexivity.
Qed.
End quiet.
