(* ===== verification/Memstore.v ===== *)
(** * The in-memory store (memstore/memstore.go)

    One map guarded by one mutex: every operation is a single atomic step,
    reading the clock once.  Expired records are deleted when their key is
    accessed. *)
From S2P Require Import Prelude GoLib Errors Record Store Effects.
Import Time.

Module memstore.

(** type Store struct; the mutex is the atomicity of the operations. *)
Record Store := mkStore { recs : gmap bytes Record }.

Definition New : Store := mkStore ∅.

(** [bytes.Clone] copies the backing array: as a value, the identity. *)
Definition clone (r : Record) : Record :=
  mkRecord (rec_Key r) (rec_Fingerprint r) (rec_State r) (rec_Token r)
    (rec_LeaseExpiresAt r) (rec_RecordExpiresAt r) (rec_Payload r).

Definition lookup (s : Store) (key : bytes) (now : Time) : Store * option Record :=
  match recs s !! key with
  | None => (s, None)
  | Some rec =>
      if Expired rec now then (mkStore (delete key (recs s)), None)
      else (s, Some rec)
  end.

Definition Reserve (i : Instant) (rec : Record) (s : Store)
    : Store * (option Record * option error) :=
  let '(s, found) := lookup s (rec_Key rec) (app_clock i) in
  match found with
  | Some existing => (s, (Some (clone existing), Some (ErrAlreadyExists : error)))
  | None => (mkStore (<[rec_Key rec := clone rec]> (recs s)), (None, None))
  end.

Definition Complete (i : Instant) (key token payload : bytes) (recordTTL : Duration)
    (s : Store) : Store * option error :=
  let now := app_clock i in
  let '(s, found) := lookup s key now in
  match found with
  | None => (s, Some (ErrNotFound : error))
  | Some rec =>
      if negb (bool_decide (rec_Token rec = token)) then (s, Some (ErrTokenMismatch : error))
      else if negb (bool_decide (rec_State rec = StateReserved)) then
        (s, Some (ErrNotFound : error))
      else
        let rec' := mkRecord (rec_Key rec) (rec_Fingerprint rec) StateCompleted
                      (rec_Token rec) (rec_LeaseExpiresAt rec) (Add now recordTTL) payload in
        (mkStore (<[key := rec']> (recs s)), None)
  end.

Definition Release (i : Instant) (key token : bytes) (s : Store)
    : Store * option error :=
  let '(s, found) := lookup s key (app_clock i) in
  match found with
  | None => (s, Some (ErrNotFound : error))
  | Some rec =>
      if negb (bool_decide (rec_Token rec = token)) then (s, Some (ErrTokenMismatch : error))
      else if negb (bool_decide (rec_State rec = StateReserved)) then
        (s, Some (ErrNotFound : error))
      else (mkStore (delete key (recs s)), None)
  end.

Definition Get (i : Instant) (key : bytes) (s : Store)
    : Store * (option Record * option error) :=
  let '(s, found) := lookup s key (app_clock i) in
  match found with
  | None => (s, (None, None))
  | Some rec => (s, (Some (clone rec), None))
  end.

End memstore.
Import memstore(mkStore, recs).

#[global] Instance memstore_Store : Store memstore.Store := {
  Reserve := memstore.Reserve;
  Complete := memstore.Complete;
  Release := memstore.Release;
  Get := memstore.Get;
}.

(** ** Refinement of the specification *)

Lemma clone_id r : memstore.clone r = r.
Proof. by destruct r. Qed.

(** [lookup] answers with the logical content and changes nothing visible. *)
Lemma lookup_spec s key now s' r :
  memstore.lookup s key now = (s', r) →
  r = live now (recs s) key ∧ recs s' ≡{now}≡ recs s.
Proof.
  unfold memstore.lookup. intros H.
  destruct (recs s !! key) as [rec|] eqn:E; [destruct (Expired rec now) eqn:Ex|]; simplify_eq/=.
  - assert (live now (recs s) key = None) as Hn by (unfold live; by rewrite E, Ex).
    split; [done|]. by apply delete_expired.
  - unfold live. by rewrite E, Ex.
  - unfold live. by rewrite E.
Qed.

(** The memstore and the content it stands for, as seen from an instant. *)
Definition mem_rel (i : Instant) (s : memstore.Store) (m : content) : Prop :=
  recs s ≡{app_clock i}≡ m.

(** Complete and Release look the record up and apply the same
    compare-and-set. *)
Lemma mem_cas {A : Type} (now : Time) (m : content) key token (f : Record → A) (g : error → A) :
  match live now m key with
  | None => g (ErrNotFound : error)
  | Some rec =>
      if negb (bool_decide (rec_Token rec = token)) then g (ErrTokenMismatch : error)
      else if negb (bool_decide (rec_State rec = StateReserved)) then g (ErrNotFound : error)
      else f rec
  end = match cas now key token m with inl r => f r | inr e => g e end.
Proof. unfold cas. repeat (case_match || case_bool_decide || case_decide); naive_solver. Qed.

#[global, refine] Instance mem_refines : Refines memstore.Store content mem_rel := {}.
Proof.
  - intros i i' s m [? _]. by apply live_equiv_mono.
  - intros i r s m s' m' x1 x2 HR H1 H2. cbn in H1, H2.
    unfold memstore.Reserve, spec_Reserve, mem_rel in *.
    destruct (memstore.lookup _ _ _) as [s0 o] eqn:E. apply lookup_spec in E as [-> Hs].
    rewrite HR in H1. rewrite !clone_id in H1.
    destruct (live _ m _); simplify_eq/=; (split; [by rewrite ?clone_id|]); by rewrite Hs, HR.
  - intros i key tok p ttl s m s' m' x1 x2 HR H1 H2. cbn in H1, H2.
    unfold memstore.Complete, spec_Complete, mem_rel in *.
    destruct (memstore.lookup _ _ _) as [s0 o] eqn:E. apply lookup_spec in E as [-> Hs].
    rewrite HR in H1. rewrite (mem_cas _ _ _ _
      (λ rec, (mkStore (<[key := completed rec p (Add (app_clock i) ttl)]> (recs s0)), None))
      (λ e, (s0, Some e))) in H1.
    destruct (cas _ _ _ m); simplify_eq/=; (split; [done|]); by rewrite Hs, HR.
  - intros i key tok s m s' m' x1 x2 HR H1 H2. cbn in H1, H2.
    unfold memstore.Release, spec_Release, mem_rel in *.
    destruct (memstore.lookup _ _ _) as [s0 o] eqn:E. apply lookup_spec in E as [-> Hs].
    rewrite HR in H1.
    rewrite (mem_cas _ _ _ _ (λ rec, (mkStore (delete key (recs s0)), None))
      (λ e, (s0, Some e))) in H1.
    destruct (cas _ _ _ m); simplify_eq/=; (split; [done|]); by rewrite Hs, HR.
  - intros i key s m s' m' x1 x2 HR H1 H2. cbn in H1, H2.
    unfold memstore.Get, spec_Get, mem_rel in *.
    destruct (memstore.lookup _ _ _) as [s0 o] eqn:E. apply lookup_spec in E as [-> Hs].
    rewrite HR in H1.
    destruct (live _ m _); simplify_eq/=; (split; [by rewrite ?clone_id|]); by rewrite Hs, HR.
Qed.

(** Hence the contract, with the process clock as the expiry authority. *)
#[global, refine] Instance mem_contract : StoreContract memstore.Store := {
  authority := app_clock;
  abs := recs;
}.
Proof.
  - done.
  - intros i r s s' ex err Hst H.
    destruct (Reserve (S:=content) i r (recs s)) as [m' x] eqn:E.
    assert (mem_rel i s (recs s)) as HR by done.
    destruct (refines_reserve _ _ _ _ _ _ _ _ HR H E) as [<- Hm].
    apply (reserve_post_proper _ _ _ _ _ Hm _ _ eq_refl _ _ eq_refl).
    exact (reserve_contract (S:=content) _ _ _ _ _ _ Hst E).
  - intros i key tok p ttl s s' err H.
    destruct (Complete (S:=content) i key tok p ttl (recs s)) as [m' x] eqn:E.
    assert (mem_rel i s (recs s)) as HR by done.
    destruct (refines_complete _ _ _ _ _ _ _ _ _ _ _ HR H E) as [<- Hm].
    apply (complete_post_proper _ _ _ _ _ _ _ Hm _ _ eq_refl).
    exact (complete_contract (S:=content) _ _ _ _ _ _ _ _ E).
  - intros i key tok s s' err H.
    destruct (Release (S:=content) i key tok (recs s)) as [m' x] eqn:E.
    assert (mem_rel i s (recs s)) as HR by done.
    destruct (refines_release _ _ _ _ _ _ _ _ _ HR H E) as [<- Hm].
    apply (release_post_proper _ _ _ _ _ _ Hm _ _ eq_refl).
    exact (release_contract (S:=content) _ _ _ _ _ _ E).
  - intros i key s s' ex err H.
    destruct (Get (S:=content) i key (recs s)) as [m' x] eqn:E.
    assert (mem_rel i s (recs s)) as HR by done.
    destruct (refines_get _ _ _ _ _ _ _ _ HR H E) as [<- Hm].
    apply (get_post_proper _ _ _ _ _ Hm _ _ eq_refl _ _ eq_refl).
    exact (get_contract (S:=content) _ _ _ _ _ _ E).
Defined.
