(* ===== verification/Core.v ===== *)
(** * The state machine (idemlease.go)

    [Begin] performs the leading transition with at most three Reserve
    calls, [Finish] the trailing one. *)
From S2P Require Import Prelude GoLib Errors Record Store Effects Memstore.
Import Time.

(** type Action *)
Inductive Action := Proceed | Replay | RejectInFlight | RejectFingerprintMismatch.

#[global] Instance Action_eq_dec : EqDecision Action.
Proof. solve_decision. Defined.

(** type Outcome; fields that do not belong to the action are zero. *)
Record Outcome := mkOutcome {
  out_Action : Action;
  out_Token : bytes;
  out_Payload : bytes;
  out_RetryAfter : Duration;
}.

(** type Decision: an [int]; the two declared constants and the others. *)
Inductive Decision := Persist | Discard | DecisionOther (n : Z).

#[global] Instance Decision_eq_dec : EqDecision Decision.
Proof. solve_decision. Defined.

Definition DefaultLeaseTTL : Duration := (30 * Second)%Z.
Definition DefaultRecordTTL : Duration := (24 * Hour)%Z.

Record Options := mkOptions { LeaseTTL : Duration; RecordTTL : Duration }.

Definition leaseTTL (o : Options) : Duration :=
  if (0 <? LeaseTTL o)%Z then LeaseTTL o else DefaultLeaseTTL.
Definition recordTTL (o : Options) : Duration :=
  if (0 <? RecordTTL o)%Z then RecordTTL o else DefaultRecordTTL.
Definition Effective (o : Options) : Options := mkOptions (leaseTTL o) (recordTTL o).

(** The error texts of Begin, Finish and newToken. *)
Definition err_rand (e : error) : error :=
  Errorf_prefix_w (bs "idemlease: generate reservation token: ") e.
Definition err_no_existing : error :=
  errText (bs "idemlease: store returned ErrAlreadyExists without the existing record").
Definition err_expired_existing : error :=
  errText (bs "idemlease: store keeps returning an expired record as existing (contract violation)").
Definition err_invalid_state (v : Z) : error :=
  errText (bs "idemlease: store returned existing record with invalid state " ++ FormatInt v).
Definition err_invalid_decision (n : Z) : error :=
  errText (bs "idemlease: invalid decision " ++ FormatInt n).

(** 128 random bits in hexadecimal. *)
Definition newToken : prog (bytes + error) :=
  b ← rand_Read 16;
  match b with
  | inr err => mret (inr (err_rand err))
  | inl b => mret (inl (EncodeToString b))
  end.

(** The switch on an unexpired existing record. *)
Definition decide_existing (existing : Record) (fingerprint : bytes) (now : Time)
    : Outcome + error :=
  match rec_State existing with
  | StateReserved =>
      inl (mkOutcome RejectInFlight [] [] (Sub (rec_LeaseExpiresAt existing) now))
  | StateCompleted =>
      if bool_decide (rec_Fingerprint existing = fingerprint)
      then inl (mkOutcome Replay [] (rec_Payload existing) 0%Z)
      else inl (mkOutcome RejectFingerprintMismatch [] [] 0%Z)
  | StateOther v => inr (err_invalid_state v)
  end.

(** The loop of Begin; [more] is how many attempts may still follow the
    current one ([maxAttempts - attempt]). *)
Fixpoint begin_loop (more : nat) (key fingerprint token : bytes) (o : Options)
    : prog (Outcome + error) :=
  t ← time_Now;
  '(existing, err) ← s_Reserve
    (mkRecord key fingerprint StateReserved token (Add t (leaseTTL o)) Time.zero []);
  match err with
  | None => mret (inl (mkOutcome Proceed token [] 0%Z))
  | Some err =>
      if negb (Is err ErrAlreadyExists) then mret (inr err) else
      match existing with
      | None => mret (inr err_no_existing)
      | Some existing =>
          now ← time_Now;
          if Expired existing now then
            match more with
            | S more => begin_loop more key fingerprint token o
            | O => mret (inr err_expired_existing)
            end
          else mret (decide_existing existing fingerprint now)
      end
  end.

Definition maxAttempts : nat := 3.

Definition Begin (key fingerprint : bytes) (o : Options) : prog (Outcome + error) :=
  token ← newToken;
  match token with
  | inr err => mret (inr err)
  | inl token => begin_loop (maxAttempts - 1) key fingerprint token o
  end.

(** The tail of Finish: [(leaseLost, err)] from the store's error. *)
Definition normalize (err : option error) : bool * option error :=
  match err with
  | None => (false, None)
  | Some err =>
      if Is err ErrTokenMismatch || Is err ErrNotFound then (true, None)
      else (false, Some err)
  end.

Definition Finish (key token : bytes) (d : Decision) (payload : bytes) (o : Options)
    : prog (bool * option error) :=
  match d with
  | Persist => err ← s_Complete key token payload (recordTTL o); mret (normalize err)
  | Discard => err ← s_Release key token; mret (normalize err)
  | DecisionOther n => mret (false, Some (err_invalid_decision n))
  end.
