(* ===== verification/CoreSpec.v ===== *)
(** * What Begin and Finish do, branch by branch

    Sequential behaviour of the state machine: on an arbitrary store the
    number of Reserve calls and the possible errors; on the specification
    and - by refinement - on the in-memory store, the full decision tables
    and the replay of a persisted result. *)
From S2P Require Import Prelude GoLib Errors Record Store Effects Memstore Core.
Import Time.

(** ** Any store at all *)

(** A store that counts the Reserve calls it receives. *)
Definition counted (S : Type) : Type := (S * nat)%type.

#[global] Instance counted_store {S} `{Store S} : Store (counted S) := {
  Reserve i r s := let '(s', x) := Reserve i r s.1 in ((s', Datatypes.S s.2), x);
  Complete i key tok p ttl s := let '(s', x) := Complete i key tok p ttl s.1 in ((s', s.2), x);
  Release i key tok s := let '(s', x) := Release i key tok s.1 in ((s', s.2), x);
  Get i key s := let '(s', x) := Get i key s.1 in ((s', s.2), x);
}.

Definition reserves {S} (w : world (counted S)) : nat := (w_store w).2.

Lemma decide_existing_ok existing fp now :
  Expired existing now = false → ∃ out, decide_existing existing fp now = inl out.
Proof.
  unfold decide_existing, Expired. intros H. destruct (rec_State existing); [..|done]; eauto.
  case_match; eauto.
Qed.

(** The record Begin asks the store to reserve. *)
Definition begin_record (key fp tok : bytes) (o : Options) (t : Time) : Record :=
  mkRecord key fp StateReserved tok (Add t (leaseTTL o)) Time.zero [].

(** One attempt of the loop, as a run. *)
Lemma run_begin_loop {S} `{Store S} more key fp tok o (w : world S) :
  run (begin_loop more key fp tok o) w =
  let w1 := advance w in
  let w2 := advance w1 in
  let '(s, (existing, err)) :=
    Reserve (w_now w2) (begin_record key fp tok o (app_clock (w_now w1))) (w_store w2) in
  let w2 := set_store s w2 in
  match err with
  | None => (inl (mkOutcome Proceed tok [] 0%Z), w2)
  | Some err =>
      if negb (Is err ErrAlreadyExists) then (inr err, w2) else
      match existing with
      | None => (inr err_no_existing, w2)
      | Some existing =>
          let w3 := advance w2 in
          let now := app_clock (w_now w3) in
          if Expired existing now then
            match more with
            | Datatypes.S more => run (begin_loop more key fp tok o) w3
            | O => (inr err_expired_existing, w3)
            end
          else (decide_existing existing fp now, w3)
      end
  end.
Proof.
  destruct more; cbn [begin_loop]; cbn -[begin_loop Reserve decide_existing];
    unfold begin_record;
    (destruct (Reserve _ _ _) as [s [ex [err|]]]; cbn -[begin_loop decide_existing]; [|done]);
    destruct (Is err ErrAlreadyExists); cbn -[begin_loop decide_existing]; try done;
    destruct ex; cbn -[begin_loop decide_existing]; try done;
    destruct (Expired _ _); done.
Qed.

Lemma run_Begin {S} `{Store S} key fp o (w : world S) :
  run (Begin key fp o) w =
  let '(b, w) := read_rand 16 w in
  match b with
  | inl b => run (begin_loop (maxAttempts - 1) key fp (EncodeToString b) o) w
  | inr e => (inr (err_rand e), w)
  end.
Proof. cbn -[begin_loop]. destruct (read_rand 16 w) as [[b|e] w']; done. Qed.

Definition begin_errors (P : error → Prop) (e : error) : Prop :=
  (∃ cause, e = err_rand cause) ∨ (P e ∧ Is e ErrAlreadyExists = false) ∨
  e = err_no_existing ∨ e = err_expired_existing.

Lemma begin_loop_total {S} `{Store S} (P : error → Prop) more key fp tok o (w : world (counted S)) :
  (∀ i r s s' ex e, Reserve i r s = (s', (ex, Some e)) → P e) →
  let '(res, w') := run (begin_loop more key fp tok o) w in
  reserves w' ≤ reserves w + Datatypes.S more ∧ ∀ e, res = inr e → begin_errors P e.
Proof.
  intros HP. revert w. induction more as [|more IH]; intros w; rewrite run_begin_loop;
    unfold reserves in *; cbn -[begin_loop]; rewrite !advance_store;
    (destruct (Reserve _ _ _) as [s [ex [err|]]] eqn:E; [|simpl; split; [lia|done]]);
    cbn -[begin_loop]; unfold begin_errors in *;
    (destruct (Is err ErrAlreadyExists) eqn:Ha; cbn -[begin_loop];
      [|split; [lia|naive_solver]]);
    (destruct ex as [old|]; cbn -[begin_loop]; [|split; [lia|naive_solver]]);
    destruct (Expired _ _) eqn:Hx; cbn -[begin_loop]; rewrite ?advance_store; simpl;
    try (apply (decide_existing_ok _ fp) in Hx as [out ->]; split; [lia|done]).
  - split; [lia|naive_solver].
  - match goal with |- context [run _ ?w3] => specialize (IH w3) end.
    destruct (run _ _) as [res w']. rewrite advance_store in IH. simpl in IH.
    split; [lia|naive_solver].
Qed.

(** At most three attempts, and only the enumerated errors. *)
Lemma Begin_attempts {S} `{Store S} (P : error → Prop) key fp o (w : world (counted S)) :
  (∀ i r s s' ex e, Reserve i r s = (s', (ex, Some e)) → P e) →
  let '(res, w') := run (Begin key fp o) w in
  reserves w' ≤ reserves w + 3 ∧ ∀ e, res = inr e → begin_errors P e.
Proof.
  intros HP. rewrite run_Begin. unfold read_rand.
  destruct (w_rand w) as [|[b|e] bs] eqn:Er.
  - split; [lia|]. intros e [= <-]. left. eauto.
  - match goal with |- context [run (begin_loop ?m ?k ?f ?t ?o) ?w] =>
      pose proof (begin_loop_total P m k f t o w HP) as Hl end.
    destruct (run _ _) as [res w']. destruct Hl as [Hl ?]. split; [|done].
    unfold reserves in *. simpl in *. lia.
  - split; [unfold reserves; simpl; lia|]. intros e' [= <-]. left. eauto.
Qed.

(** ** The decision table *)

Definition set_rand {S} (bs : list (bytes + error)) (w : world S) : world S :=
  mkWorld (w_store w) (w_now w) (w_ticks w) bs (w_log w).

Lemma advance_set_rand {S} bs (w : world S) : advance (set_rand bs w) = set_rand bs (advance w).
Proof. unfold advance, set_rand. by destruct w as [? ? [] ? ?]. Qed.

Lemma advance_set_store {S} s (w : world S) : advance (set_store s w) = set_store s (advance w).
Proof. unfold advance, set_store. by destruct w as [? ? [] ? ?]. Qed.

Lemma run_Begin_ok {S} `{Store S} key fp o b rest (w : world S) :
  w_rand w = inl b :: rest →
  run (Begin key fp o) w =
  run (begin_loop 2 key fp (EncodeToString (take 16 b)) o) (set_rand rest w).
Proof. intros Hr. rewrite run_Begin. unfold read_rand. by rewrite Hr. Qed.

(** What Begin answers about a live record that is still unexpired when it
    reads the clock again. *)
Definition decision_of (old : Record) (fp : bytes) (now : Time) : option Outcome :=
  match rec_State old with
  | StateReserved =>
      Some (mkOutcome RejectInFlight [] [] (Sub (rec_LeaseExpiresAt old) now))
  | StateCompleted =>
      Some (if decide (rec_Fingerprint old = fp)
            then mkOutcome Replay [] (rec_Payload old) 0%Z
            else mkOutcome RejectFingerprintMismatch [] [] 0%Z)
  | StateOther _ => None
  end.

Lemma decide_existing_decision old fp now out :
  Expired old now = false →
  decide_existing old fp now = inl out ↔ decision_of old fp now = Some out.
Proof.
  unfold decide_existing, decision_of, Expired. intros Hx.
  destruct (rec_State old); [naive_solver| |done].
  case_bool_decide; case_decide; naive_solver.
Qed.

(** Begin's effect on the specification store. *)
Definition begin_post (key fp tok : bytes) (o : Options) (w : world content)
    (res : Outcome + error) (w' : world content) : Prop :=
  let w1 := advance w in
  let w2 := advance w1 in
  let w3 := advance w2 in
  let now := app_clock (w_now w2) in
  let now' := app_clock (w_now w3) in
  let proceed := res = inl (mkOutcome Proceed tok [] 0%Z) ∧
    ∃ t, w_store w' = <[key := begin_record key fp tok o t]> (w_store w) ∧
         (app_clock (w_now w) ≤ t ≤ app_clock (w_now w'))%Z in
  match live now (w_store w) key with
  | None => proceed
  | Some old =>
      if Expired old now' then proceed
      else w_store w' = w_store w ∧ ∃ out, res = inl out ∧ decision_of old fp now' = Some out
  end.

Lemma begin_claim (more : nat) (key fp tok : bytes) (o : Options) (w : world content) res w' :
  live (app_clock (w_now (advance (advance w)))) (w_store w) key = None →
  run (begin_loop more key fp tok o) w = (res, w') →
  res = inl (mkOutcome Proceed tok [] 0%Z) ∧
  ∃ t, w_store w' = <[key := begin_record key fp tok o t]> (w_store w) ∧
       (app_clock (w_now w) ≤ t ≤ app_clock (w_now w'))%Z.
Proof.
  intros Hl. rewrite run_begin_loop. cbn -[begin_loop]. unfold spec_Reserve. cbn -[begin_loop].
  rewrite !advance_store, Hl. intros [= <- <-]. split; [done|].
  eexists. split; [done|]. simpl.
  pose proof (advance_later w) as [? _]. pose proof (advance_later (advance w)) as [? _]. done.
Qed.

Lemma begin_loop_post (more : nat) (key fp tok : bytes) (o : Options) (w : world content) res w' :
  run (begin_loop (Datatypes.S more) key fp tok o) w = (res, w') →
  begin_post key fp tok o w res w'.
Proof.
  unfold begin_post. intros Hrun. cbv zeta.
  destruct (live _ _ _) as [old|] eqn:Hl; [|by eapply begin_claim].
  rewrite run_begin_loop in Hrun. cbn -[begin_loop] in Hrun. unfold spec_Reserve in Hrun.
  cbn -[begin_loop] in Hrun. rewrite !advance_store, Hl in Hrun.
  change (negb _) with false in Hrun. cbn -[begin_loop] in Hrun.
  rewrite advance_set_store in Hrun. simpl w_now in Hrun.
  destruct (Expired old _) eqn:Hx.
  - pose proof (advance_later w) as [? _]. pose proof (advance_later (advance w)) as [? _].
    pose proof (advance_later (advance (advance w))) as [? _].
    apply live_Some in Hl as [Hk _].
    eapply begin_claim in Hrun as (-> & t & ? & Ht1 & Ht2).
    + split; [done|]. exists t. simpl in *. split; [done|]. lia.
    + simpl w_store. apply live_None. rewrite Hk. intros ? [= <-].
      eapply Expired_mono; [|exact Hx].
      rewrite !advance_set_store. simpl w_now. etrans; apply advance_later.
  - destruct (decide_existing_ok _ fp _ Hx) as [out Ho]. rewrite Ho in Hrun. simplify_eq.
    split; [done|]. exists out. split; [done|]. by apply decide_existing_decision.
Qed.

(** ** The same on the in-memory store *)

(** The specification world a memstore world stands for. *)
Definition spec_world (w : world memstore.Store) : world content :=
  mkWorld (memstore.recs (w_store w)) (w_now w) (w_ticks w) (w_rand w) (w_log w).

Lemma spec_world_rel (w : world memstore.Store) : world_rel (R:=mem_rel) w (spec_world w).
Proof. by split_and!. Qed.

Lemma advance_spec_world w : advance (spec_world w) = spec_world (advance w).
Proof. by destruct w as [? ? [] ? ?]. Qed.

(** A program's run on the memstore, seen as a run on the specification. *)
Lemma mem_run {A} (p : prog A) (w : world memstore.Store) res w' :
  run p w = (res, w') →
  ∃ m', run p (spec_world w) = (res, m') ∧
    memstore.recs (w_store w') ≡{app_clock (w_now w')}≡ w_store m' ∧ w_now m' = w_now w'.
Proof.
  intros Hrun. pose proof (run_refines p _ _ (spec_world_rel w)) as [Hx (HR & Hn & _)].
  rewrite Hrun in *. destruct (run p (spec_world w)) as [res' m']. simpl in *. subst.
  by exists m'.
Qed.

(** What Begin leaves and answers: [m] and [m'] are the records before and
    after, [now] the instant of its first Reserve, [now'] the instant of
    the check that follows and [fin] that of its last call. *)
Definition begin_table (key fp tok : bytes) (o : Options) (m m' : content)
    (start now now' fin : Time) (res : Outcome + error) : Prop :=
  let proceed := res = inl (mkOutcome Proceed tok [] 0%Z) ∧
    ∃ t, m' ≡{fin}≡ <[key := begin_record key fp tok o t]> m ∧ (start ≤ t ≤ fin)%Z in
  match live now m key with
  | None => proceed
  | Some old =>
      if Expired old now' then proceed
      else m' ≡{fin}≡ m ∧ ∃ out, res = inl out ∧ decision_of old fp now' = Some out
  end.

Lemma mem_Begin (key fp : bytes) (o : Options) (w w' : world memstore.Store)
    (b : bytes) (rest : list (bytes + error)) (res : Outcome + error) :
  w_rand w = inl b :: rest →
  run (Begin key fp o) w = (res, w') →
  begin_table key fp (EncodeToString (take 16 b)) o
    (memstore.recs (w_store w)) (memstore.recs (w_store w'))
    (app_clock (w_now w)) (app_clock (w_now (advance (advance w))))
    (app_clock (w_now (advance (advance (advance w))))) (app_clock (w_now w')) res.
Proof.
  intros Hr Hrun. apply mem_run in Hrun as (w1 & Hrun & Hm & Hn).
  rewrite (run_Begin_ok _ _ _ b rest) in Hrun by done.
  apply begin_loop_post in Hrun. unfold begin_post in Hrun. cbv zeta in Hrun.
  rewrite !advance_set_rand in Hrun. simpl w_store in Hrun. simpl w_now in Hrun.
  rewrite !advance_spec_world in Hrun. simpl w_now in Hrun. rewrite Hn in Hrun.
  unfold begin_table. destruct (live _ _ _) as [old|]; [destruct (Expired _ _)|].
  - destruct Hrun as (-> & t & Hs & Ht). split; [done|]. exists t. by rewrite <-Hs.
  - destruct Hrun as (Hs & Hrun). split; [|done]. by rewrite <-Hs.
  - destruct Hrun as (-> & t & Hs & Ht). split; [done|]. exists t. by rewrite <-Hs.
Qed.

Lemma normalize_lost e : lease_lost_error e = true → normalize (Some e) = (true, None).
Proof. unfold lease_lost_error. simpl. by intros ->. Qed.

Lemma spec_finish_persist (key tok payload : bytes) (o : Options) (w w' : world content) lost err :
  run (Finish key tok Persist payload o) w = ((lost, err), w') →
  w_now w' = w_now (advance w) ∧
  let now := app_clock (w_now (advance w)) in
  match cas now key tok (w_store w) with
  | inl r => lost = false ∧ err = None ∧
      <[key := completed r payload (Add now (recordTTL o))]> (w_store w) = w_store w'
  | inr _ => lost = true ∧ err = None ∧ w_store w = w_store w'
  end.
Proof.
  simpl. rewrite advance_store. unfold spec_Complete.
  destruct (cas _ _ _ _) as [r|e] eqn:E; [by intros; simplify_eq/=|].
  cbv [mret prog_mret]. cbn -[normalize].
  rewrite normalize_lost by (by eapply cas_inr_lost). by intros; simplify_eq/=.
Qed.

Lemma spec_finish_discard (key tok payload : bytes) (o : Options) (w w' : world content) lost err :
  run (Finish key tok Discard payload o) w = ((lost, err), w') →
  w_now w' = w_now (advance w) ∧
  let now := app_clock (w_now (advance w)) in
  match cas now key tok (w_store w) with
  | inl r => lost = false ∧ err = None ∧ delete key (w_store w) = w_store w'
  | inr _ => lost = true ∧ err = None ∧ w_store w = w_store w'
  end.
Proof.
  simpl. rewrite advance_store. unfold spec_Release.
  destruct (cas _ _ _ _) as [r|e] eqn:E; [by intros; simplify_eq/=|].
  cbv [mret prog_mret]. cbn -[normalize].
  rewrite normalize_lost by (by eapply cas_inr_lost). by intros; simplify_eq/=.
Qed.

Lemma mem_Finish (key tok payload : bytes) (d : Decision) (o : Options)
    (w w' : world memstore.Store) (lost : bool) (err : option error) :
  run (Finish key tok d payload o) w = ((lost, err), w') →
  let now := app_clock (w_now w') in
  let m := memstore.recs (w_store w) in
  let m' := memstore.recs (w_store w') in
  match d with
  | DecisionOther n => (lost, err) = (false, Some (err_invalid_decision n)) ∧ w' = w
  | _ =>
      match cas now key tok m with
      | inl r =>
          lost = false ∧ err = None ∧
          m' ≡{now}≡ (if decide (d = Persist)
                      then <[key := completed r payload (Add now (recordTTL o))]> m
                      else delete key m)
      | inr _ => lost = true ∧ err = None ∧ m' ≡{now}≡ m
      end
  end.
Proof.
  intros Hrun. cbv zeta. destruct d as [| |n].
  3: { simpl in Hrun. by simplify_eq. }
  all: apply mem_run in Hrun as (w1 & Hrun & Hm & Hn); rewrite <-Hn in *.
  - apply spec_finish_persist in Hrun as [Hw Hrun]. rewrite !Hw in *. simpl in Hrun.
    destruct (cas _ _ _ _); destruct Hrun as (-> & -> & Hs); split_and!; try done;
      by rewrite Hs.
  - apply spec_finish_discard in Hrun as [Hw Hrun]. rewrite !Hw in *. simpl in Hrun.
    destruct (cas _ _ _ _); destruct Hrun as (-> & -> & Hs); split_and!; try done;
      by rewrite Hs.
Qed.

(** ** Completed records over whole runs *)

Lemma spec_reserve_frame now r m m' x k old :
  spec_Reserve now r m = (m', x) → live now m k = Some old → live now m' k = Some old.
Proof.
  unfold spec_Reserve. intros H Hl. destruct (live now m (rec_Key r)) eqn:E; simplify_eq; [done|].
  rewrite live_insert_ne; [done|congruence].
Qed.

(** One call followed by the rest of a run: [s] is the store the call left. *)
Lemma spec_call_frame {A} (p : prog A) (w : world content) s key r :
  deadline r = Some (rec_RecordExpiresAt r) →
  live (app_clock (w_now w)) (w_store w) key = Some r →
  (live (app_clock (w_now (advance w))) (w_store (advance w)) key = Some r →
     live (app_clock (w_now (advance w))) s key = Some r) →
  (app_clock (w_now (run p (set_store s (advance w))).2) < rec_RecordExpiresAt r)%Z →
  live (app_clock (w_now (set_store s (advance w)))) (w_store (set_store s (advance w))) key
    = Some r.
Proof.
  intros Hd Hl Hs Hfin. simpl. apply Hs. rewrite advance_store.
  destruct (run_later p (set_store s (advance w))) as [Hle _]. simpl in Hle.
  eapply live_until; [apply advance_later|done..|lia].
Qed.

Lemma spec_run_completed {A} (p : prog A) (w : world content) key r :
  live (app_clock (w_now w)) (w_store w) key = Some r → rec_State r = StateCompleted →
  (app_clock (w_now (run p w).2) < rec_RecordExpiresAt r)%Z →
  live (app_clock (w_now (run p w).2)) (w_store (run p w).2) key = Some r.
Proof.
  intros Hl Hst. assert (deadline r = Some (rec_RecordExpiresAt r)) as Hd
    by (unfold deadline; by rewrite Hst).
  assert (rec_State r ≠ StateReserved) as Hns by congruence.
  revert w Hl. induction p as [a|k IH|n k IH|r0 k IH|key0 tok p ttl k IH|key0 tok k IH|key0 k IH|l k IH];
    intros w Hl; simpl; [done|..].
  - intros Hfin. apply IH; [|done].
    destruct (run_later (k (app_clock (w_now (advance w)))) (advance w)) as [Hle _].
    rewrite advance_store. eapply live_until; [apply advance_later|done..|lia].
  - destruct (read_rand n w) as [b w1] eqn:E. apply IH.
    unfold read_rand in E. by destruct (w_rand w); simplify_eq/=.
  - destruct (spec_Reserve _ _ _) as [s x] eqn:E. intros Hfin. apply IH; [|done].
    eapply spec_call_frame; eauto using spec_reserve_frame.
  - destruct (spec_Complete _ _ _ _ _ _) as [s x] eqn:E. intros Hfin. apply IH; [|done].
    eapply spec_call_frame; eauto. intros Hl'.
    eapply complete_frame; [|done|by right].
    exact (complete_contract (S:=content) (w_now (advance w)) key0 tok p ttl
             (w_store (advance w)) s x E).
  - destruct (spec_Release _ _ _ _) as [s x] eqn:E. intros Hfin. apply IH; [|done].
    eapply spec_call_frame; eauto. intros Hl'.
    eapply release_frame; [|done|by right].
    exact (release_contract (S:=content) (w_now (advance w)) key0 tok
             (w_store (advance w)) s x E).
  - intros Hfin. apply IH; [|done]. by eapply spec_call_frame.
  - by apply IH.
Qed.

Lemma mem_run_completed {A} (p : prog A) (w w' : world memstore.Store) x key r :
  run p w = (x, w') →
  live (app_clock (w_now w)) (memstore.recs (w_store w)) key = Some r →
  rec_State r = StateCompleted → (app_clock (w_now w') < rec_RecordExpiresAt r)%Z →
  live (app_clock (w_now w')) (memstore.recs (w_store w')) key = Some r.
Proof.
  intros Hrun Hl Hst Hfin. apply mem_run in Hrun as (m' & Hrun & Hm & Hn).
  rewrite (Hm _ key) by done. rewrite <-Hn in *.
  pose proof (spec_run_completed p (spec_world w) key r Hl Hst) as H. rewrite Hrun in H.
  by apply H.
Qed.

Lemma leaseTTL_pos o : (0 < leaseTTL o)%Z.
Proof. unfold leaseTTL. case_match; [lia|done]. Qed.

Lemma recordTTL_pos o : (0 < recordTTL o)%Z.
Proof. unfold recordTTL. case_match; [lia|done]. Qed.
#[export] Hint Resolve leaseTTL_pos recordTTL_pos : idem.

