(* ===== verification/CoreClaims.v ===== *)
(** * The decision tables and the replay of a persisted result

    The claims about Begin and Finish on the in-memory store, and about
    the two in sequence: what was persisted is what a later Begin replays. *)
From S2P Require Import Prelude GoLib Errors Record Store Effects Memstore Core CoreSpec.
Import Time.

(** When Begin proceeds, the reservation it made is what the key holds. *)
Lemma mem_Begin_proceed (key fp : bytes) (o : Options) (w w' : world memstore.Store) out :
  run (Begin key fp o) w = (inl out, w') → out_Action out = Proceed →
  ∃ t, memstore.recs (w_store w') ≡{app_clock (w_now w')}≡
         <[key := begin_record key fp (out_Token out) o t]> (memstore.recs (w_store w)).
Proof.
  intros Hrun Hp. destruct (w_rand w) as [|[b|e] rest] eqn:Er.
  - rewrite run_Begin in Hrun. unfold read_rand in Hrun. rewrite Er in Hrun. simplify_eq.
  - pose proof (mem_Begin _ _ _ _ _ _ _ _ Er Hrun) as Ht. unfold begin_table in Ht.
    destruct (live _ _ _) as [old|]; [destruct (Expired _ _)|]; simpl in Ht.
    + destruct Ht as ([= ->] & t & ? & _). by exists t.
    + destruct Ht as (_ & out' & [= <-] & Hd). unfold decision_of in Hd.
      repeat case_match; simplify_eq/=.
    + destruct Ht as ([= ->] & t & ? & _). by exists t.
  - rewrite run_Begin in Hrun. unfold read_rand in Hrun. rewrite Er in Hrun. simplify_eq.
Qed.

(** A program that reserves nothing under the token [tok]. *)
Fixpoint never_reserves {A} (tok : bytes) (p : prog A) : Prop :=
  match p with
  | Ret _ => True
  | CallNow k => ∀ x, never_reserves tok (k x)
  | CallRead _ k => ∀ x, never_reserves tok (k x)
  | CallReserve r k => rec_Token r ≠ tok ∧ ∀ x, never_reserves tok (k x)
  | CallComplete _ _ _ _ k | CallRelease _ _ k => ∀ x, never_reserves tok (k x)
  | CallGet _ k => ∀ x, never_reserves tok (k x)
  | CallLog _ k => never_reserves tok k
  end.

(** Whatever [key] holds under [tok] has the fingerprint [fp]. *)
Definition token_fp (tok key fp : bytes) (now : Time) (m : content) : Prop :=
  ∀ r, live now m key = Some r → rec_Token r = tok → rec_Fingerprint r = fp.

#[global] Instance token_fp_proper (tok key fp : bytes) (now : Time) :
  Proper (live_equiv now ==> iff) (token_fp tok key fp now).
Proof.
  intros m1 m2 H. unfold token_fp. by rewrite (H now key).
Qed.

Lemma token_fp_later (tok key fp : bytes) (t t' : Time) (m : content) :
  (t ≤ t')%Z → token_fp tok key fp t m → token_fp tok key fp t' m.
Proof. intros ? H r Hl. apply H. by eapply live_mono. Qed.

Lemma token_fp_advance (tok key fp : bytes) (w : world content) :
  token_fp tok key fp (app_clock (w_now w)) (w_store w) →
  token_fp tok key fp (app_clock (w_now (advance w))) (w_store (advance w)).
Proof.
  rewrite advance_store. destruct (advance_later w) as [Hle _]. by apply token_fp_later.
Qed.

Lemma token_fp_reserve (tok key fp : bytes) (now : Time) (r : Record) (m m' : content) x :
  rec_Token r ≠ tok → spec_Reserve now r m = (m', x) →
  token_fp tok key fp now m → token_fp tok key fp now m'.
Proof.
  unfold spec_Reserve. intros Hr H Hm. destruct (live _ _ _); simplify_eq; [done|].
  intros r' Hl Ht. destruct (decide (rec_Key r = key)) as [<-|].
  - rewrite live_insert_eq in Hl. unfold live_rec in Hl. by case_match; simplify_eq.
  - rewrite live_insert_ne in Hl by done. by apply Hm.
Qed.

Lemma token_fp_complete (tok key fp key' tok' p : bytes) (ttl : Duration) (now : Time)
    (m m' : content) x :
  spec_Complete now key' tok' p ttl m = (m', x) →
  token_fp tok key fp now m → token_fp tok key fp now m'.
Proof.
  unfold spec_Complete. intros H Hm. destruct (cas _ _ _ _) as [r|] eqn:E; simplify_eq; [|done].
  intros r' Hl Ht. destruct (decide (key' = key)) as [<-|].
  - rewrite live_insert_eq in Hl. unfold live_rec in Hl. case_match; simplify_eq.
    apply cas_inl in E as (E & _ & _). simpl in *. by apply Hm.
  - rewrite live_insert_ne in Hl by done. by apply Hm.
Qed.

Lemma token_fp_release (tok key fp key' tok' : bytes) (now : Time) (m m' : content) x :
  spec_Release now key' tok' m = (m', x) →
  token_fp tok key fp now m → token_fp tok key fp now m'.
Proof.
  unfold spec_Release. intros H Hm. destruct (cas _ _ _ _) as [r|] eqn:E; simplify_eq; [|done].
  intros r' Hl Ht. destruct (decide (key' = key)) as [<-|].
  - by rewrite live_delete_eq in Hl.
  - rewrite live_delete_ne in Hl by done. by apply Hm.
Qed.

Lemma spec_run_token_fp {A} (tok key fp : bytes) (p : prog A) (w : world content) :
  never_reserves tok p →
  token_fp tok key fp (app_clock (w_now w)) (w_store w) →
  token_fp tok key fp (app_clock (w_now (run p w).2)) (w_store (run p w).2).
Proof.
  revert w. induction p as [a|k IH|n k IH|r0 k IH|key0 tok0 p ttl k IH|key0 tok0 k IH|key0 k IH|l k IH];
    intros w Hn Hw; simpl; [done|..]; simpl in Hn.
  - apply IH; [done|]. by apply token_fp_advance.
  - destruct (read_rand n w) as [b w1] eqn:E. apply IH; [done|].
    unfold read_rand in E. by destruct (w_rand w); simplify_eq/=.
  - destruct (spec_Reserve _ _ _) as [s x] eqn:E. destruct Hn as [Hr Hn]. apply IH; [done|].
    by eapply token_fp_reserve, token_fp_advance.
  - destruct (spec_Complete _ _ _ _ _ _) as [s x] eqn:E. apply IH; [done|].
    by eapply token_fp_complete, token_fp_advance.
  - destruct (spec_Release _ _ _ _) as [s x] eqn:E. apply IH; [done|].
    by eapply token_fp_release, token_fp_advance.
  - apply IH; [done|]. by apply token_fp_advance.
  - by apply IH.
Qed.

Lemma mem_run_token_fp {A} (tok key fp : bytes) (p : prog A) (w w' : world memstore.Store) x :
  run p w = (x, w') → never_reserves tok p →
  token_fp tok key fp (app_clock (w_now w)) (memstore.recs (w_store w)) →
  token_fp tok key fp (app_clock (w_now w')) (memstore.recs (w_store w')).
Proof.
  intros Hrun Hn Hw. apply mem_run in Hrun as (m' & Hrun & Hm & Hnow).
  rewrite Hm, <-Hnow. pose proof (spec_run_token_fp tok key fp p (spec_world w) Hn Hw) as H.
  by rewrite Hrun in H.
Qed.

(** When the holder persists in time, the key holds the completed record. *)
Lemma mem_persisted (key tok payload : bytes) (o : Options) (w w' : world memstore.Store) :
  run (Finish key tok Persist payload o) w = ((false, None), w') →
  let now := app_clock (w_now w') in
  ∃ r, live now (memstore.recs (w_store w)) key = Some r ∧ rec_Token r = tok ∧
    live now (memstore.recs (w_store w')) key =
      Some (completed r payload (Add now (recordTTL o))).
Proof.
  intros Hrun. cbv zeta. pose proof (mem_Finish _ _ _ _ _ _ _ _ _ Hrun) as Ht. simpl in Ht.
  destruct (cas _ _ _ _) as [r|e] eqn:E; [|by destruct Ht].
  destruct Ht as (_ & _ & Ht). apply cas_inl in E as (E & Htok & _).
  exists r. split; [done|]. split; [done|]. rewrite (Ht _ key), live_insert_eq by done.
  unfold live_rec. destruct (Expired _ _) eqn:Hx; [|done].
  pose proof (recordTTL_pos o).
  apply Expired_true with (d := Add (app_clock (w_now w')) (recordTTL o)) in Hx; [|done].
  unfold Add in Hx. lia.
Qed.

(** Begin on a key whose record is completed past its last reading. *)
Lemma mem_Begin_completed (key fp : bytes) (o : Options) (w w' : world memstore.Store)
    (b : bytes) (rest : list (bytes + error)) (res : Outcome + error) (r : Record) :
  w_rand w = inl b :: rest → run (Begin key fp o) w = (res, w') →
  live (app_clock (w_now w)) (memstore.recs (w_store w)) key = Some r →
  rec_State r = StateCompleted →
  (app_clock (w_now (advance (advance (advance w)))) < rec_RecordExpiresAt r)%Z →
  res = inl (if decide (rec_Fingerprint r = fp)
             then mkOutcome Replay [] (rec_Payload r) 0%Z
             else mkOutcome RejectFingerprintMismatch [] [] 0%Z).
Proof.
  intros Hr Hrun Hl Hst Hdl. pose proof (mem_Begin _ _ _ _ _ _ _ _ Hr Hrun) as Ht.
  pose proof (advance_later w) as [? _]. pose proof (advance_later (advance w)) as [? _].
  pose proof (advance_later (advance (advance w))) as [? _].
  assert (deadline r = Some (rec_RecordExpiresAt r)) as Hd by (unfold deadline; by rewrite Hst).
  unfold begin_table in Ht.
  rewrite (live_until (app_clock (w_now w)) (app_clock (w_now (advance (advance w)))) _ _ r
             (rec_RecordExpiresAt r)) in Ht by (done || lia).
  destruct (Expired r _) eqn:Hx.
  - eapply Expired_true in Hx; [|done]. lia.
  - destruct Ht as (_ & out & -> & Hdec). unfold decision_of in Hdec. rewrite Hst in Hdec.
    by simplify_eq.
Qed.

(** C28. Begin on any store, however it behaves: at most three Reserve calls
    are made, and an error is the random source's failure, an error of the
    store other than ErrAlreadyExists, or one of the two reports of a
    broken store; in particular the invalid-state default of its last
    switch is never taken. *)
Theorem Begin_bounded {S} `{Store S} (P : error → Prop) key fp o (w : world (counted S)) :
  (∀ i r s s' ex e, Reserve i r s = (s', (ex, Some e)) → P e) →
  let '(res, w') := run (Begin key fp o) w in
  reserves w' ≤ reserves w + 3 ∧ ∀ e, res = inr e → begin_errors P e.
Proof. apply Begin_attempts. Qed.

(** C22. The decision table of Begin on the in-memory store.  No live record:
    the key is reserved under the fresh token and the caller proceeds.  A
    live reserved record: RejectInFlight with the remaining lease, whatever
    the fingerprint.  A live completed record: Replay of its payload when
    the fingerprints agree, RejectFingerprintMismatch when not.  A record
    that expires between the Reserve and the check is claimed by the next
    attempt.  Nothing visible changes unless the caller proceeds, and no
    error is returned when the random source works. *)
Theorem Begin_decision_table (key fp : bytes) (o : Options) (w w' : world memstore.Store)
    (b : bytes) (rest : list (bytes + error)) (res : Outcome + error) :
  w_rand w = inl b :: rest →
  run (Begin key fp o) w = (res, w') →
  begin_table key fp (EncodeToString (take 16 b)) o
    (memstore.recs (w_store w)) (memstore.recs (w_store w'))
    (app_clock (w_now w)) (app_clock (w_now (advance (advance w))))
    (app_clock (w_now (advance (advance (advance w))))) (app_clock (w_now w')) res.
Proof. apply mem_Begin. Qed.

(** C27. The table of Finish on the in-memory store.  Under the token of the
    live reservation Persist stores the payload until now + recordTTL and
    Discard deletes the record; under any other token, or after the lease
    or the record is gone, the caller is told the lease is lost and nothing
    visible changes, so a late finisher cannot disturb the new owner. *)
Theorem Finish_table (key tok payload : bytes) (d : Decision) (o : Options)
    (w w' : world memstore.Store) (lost : bool) (err : option error) :
  run (Finish key tok d payload o) w = ((lost, err), w') →
  let now := app_clock (w_now w') in
  let m := memstore.recs (w_store w) in
  let m' := memstore.recs (w_store w') in
  match d with
  | DecisionOther n => (lost, err) = (false, Some (err_invalid_decision n)) ∧ w' = w
  | _ =>
      match cas now key tok m with
      | inl r =>
          lost = false ∧ err = None ∧
          m' ≡{now}≡ (if decide (d = Persist)
                      then <[key := completed r payload (Add now (recordTTL o))]> m
                      else delete key m)
      | inr _ => lost = true ∧ err = None ∧ m' ≡{now}≡ m
      end
  end.
Proof. apply mem_Finish. Qed.

(** C2. Exactly-once, end to end.  A caller whose Begin proceeded runs its
    effect while any other programs use the store (none of them reserving
    under its random token) and persists its result in time.  From then on,
    whatever further programs run on the store, every Begin for the key
    whose check falls before the record's expiry answers Replay with that
    very payload when the fingerprint agrees, and
    RejectFingerprintMismatch when it does not: the effect is not run a
    second time. *)
Theorem replay_after_persist {A B} (between : prog A) (others : prog B)
    (key fp fp' payload : bytes) (o o' o'' : Options)
    (w0 w1 w2 w3 w4 w5 : world memstore.Store) (out : Outcome) (x : A) (y : B)
    (b : bytes) (rest : list (bytes + error)) (res : Outcome + error) :
  run (Begin key fp o) w0 = (inl out, w1) → out_Action out = Proceed →
  run between w1 = (x, w2) → never_reserves (out_Token out) between →
  run (Finish key (out_Token out) Persist payload o') w2 = ((false, None), w3) →
  run others w3 = (y, w4) →
  w_rand w4 = inl b :: rest →
  run (Begin key fp' o'') w4 = (res, w5) →
  (app_clock (w_now (advance (advance (advance w4)))) <
     Add (app_clock (w_now w3)) (recordTTL o'))%Z →
  res = inl (if decide (fp = fp') then mkOutcome Replay [] payload 0%Z
             else mkOutcome RejectFingerprintMismatch [] [] 0%Z).
Proof.
  intros H0 Hp H1 Hn H2 H3 Hr H4 Hdl.
  apply mem_Begin_proceed in H0 as (t & Hm); [|done].
  assert (token_fp (out_Token out) key fp (app_clock (w_now w2))
    (memstore.recs (w_store w2))) as Hfp.
  { eapply mem_run_token_fp; [done..|]. rewrite Hm. intros r Hl _.
    rewrite live_insert_eq in Hl. unfold live_rec in Hl. by case_match; simplify_eq. }
  pose proof (run_later (Finish key (out_Token out) Persist payload o') w2) as [Hle _].
  rewrite H2 in Hle. simpl in Hle.
  apply mem_persisted in H2 as (r & Hl & Ht & Hl').
  apply (token_fp_later _ _ _ _ _ _ Hle) in Hfp.
  assert (rec_Fingerprint r = fp) as <- by (by apply Hfp).
  pose proof (advance_later w4) as [? _]. pose proof (advance_later (advance w4)) as [? _].
  pose proof (advance_later (advance (advance w4))) as [? _].
  pose proof (mem_run_completed _ _ _ _ _ _ H3 Hl' eq_refl ltac:(simpl; lia)) as Hl4.
  exact (mem_Begin_completed _ _ _ _ _ _ _ _ _ Hr H4 Hl4 eq_refl Hdl).
Qed.

(** C23. The in-memory store implements the abstract store: any program of
    store calls, clock readings and random draws gets the same answers from
    it as from the specification (a map with logically expiring entries),
    under every schedule of the clock, and leaves equivalent contents. *)
Theorem memstore_refines_spec {A} (p : prog A) (w w' : world memstore.Store) (x : A) :
  run p w = (x, w') →
  ∃ m', run p (spec_world w) = (x, m') ∧ w_now m' = w_now w' ∧
    memstore.recs (w_store w') ≡{app_clock (w_now w')}≡ w_store m'.
Proof. intros (m' & ? & ? & ?)%mem_run. by exists m'. Qed.

(** ** Witnesses *)

Module Example.
(** One second passes before every call. *)
Definition ticks (n : nat) : list tick := replicate n (mkTick 1000000000 1000000000).
Definition entropy (b : byte) : bytes + error := inl (replicate 16 b).
Definition w0 : world memstore.Store :=
  mkWorld memstore.New (mkInstant 1000%Z 1000%Z) (ticks 60) [entropy x01; entropy x02; entropy x03] [].
Definition o : Options := mkOptions 0%Z 0%Z.

(** The first caller reserves. *)
Definition w1 := (run (Begin (bs "k") (bs "f") o) w0).2.
Definition tok : bytes := EncodeToString (replicate 16 x01).
(** Meanwhile a duplicate is rejected. *)
Definition duplicate : prog (option Record * option error) :=
  CallReserve (mkRecord (bs "k") (bs "f") StateReserved (bs "other") 99%Z 0%Z []) Ret.
Definition w2 := (run duplicate w1).2.
Definition w3 := (run (Finish (bs "k") tok Persist (bs "result") o) w2).2.
Definition others : prog (bool * option error) := Finish (bs "k") (bs "stale") Discard [] o.
Definition w4 := (run others w3).2.

Definition counted_w0 : world (counted memstore.Store) :=
  mkWorld (memstore.New, 0) (mkInstant 1000%Z 1000%Z) (ticks 9) [entropy x01] [].
End Example.

Lemma Begin_bounded_witness :
  let '(res, w') := run (Begin (bs "k") (bs "f") Example.o) Example.counted_w0 in
  reserves w' ≤ reserves Example.counted_w0 + 3 ∧ ∀ e, res = inr e → begin_errors (λ _, True) e.
Proof. apply (Begin_bounded (λ _, True)). done. Defined.

Lemma Begin_decision_table_witness :
  begin_table (bs "k") (bs "f") (EncodeToString (take 16 (replicate 16 x02))) Example.o
    (memstore.recs (w_store Example.w4))
    (memstore.recs (w_store (run (Begin (bs "k") (bs "f") Example.o) Example.w4).2))
    (app_clock (w_now Example.w4))
    (app_clock (w_now (advance (advance Example.w4))))
    (app_clock (w_now (advance (advance (advance Example.w4)))))
    (app_clock (w_now (run (Begin (bs "k") (bs "f") Example.o) Example.w4).2))
    (run (Begin (bs "k") (bs "f") Example.o) Example.w4).1.
Proof.
  eapply (Begin_decision_table (bs "k") (bs "f") Example.o Example.w4).
  - vm_compute. reflexivity.
  - apply surjective_pairing.
Defined.

Lemma Finish_table_witness :
  run (Finish (bs "k") Example.tok Persist (bs "result") Example.o) Example.w2
    = ((false, None), Example.w3) ∧
  ∃ r, cas (app_clock (w_now Example.w3)) (bs "k") Example.tok
         (memstore.recs (w_store Example.w2)) = inl r.
Proof.
  assert (run (Finish (bs "k") Example.tok Persist (bs "result") Example.o) Example.w2
    = ((false, None), Example.w3)) as H by (vm_compute; reflexivity).
  split; [exact H|].
  pose proof (Finish_table _ _ _ _ _ _ _ _ _ H) as Ht. cbv zeta in Ht.
  destruct (cas _ _ _ _) as [r|e]; [by exists r|]. by destruct Ht.
Defined.

Lemma replay_after_persist_witness :
  (run (Begin (bs "k") (bs "f") Example.o) Example.w4).1
    = inl (mkOutcome Replay [] (bs "result") 0%Z).
Proof.
  eapply (replay_after_persist Example.duplicate Example.others (bs "k") (bs "f") (bs "f")
    (bs "result") Example.o Example.o Example.o Example.w0 Example.w1 Example.w2 Example.w3
    Example.w4 _ (mkOutcome Proceed Example.tok [] 0%Z)).
  all: try (vm_compute; reflexivity).
  - vm_compute. split; [discriminate|done].
Defined.

Lemma memstore_refines_spec_witness :
  ∃ m', run Example.others (spec_world Example.w3) = ((true, None), m').
Proof.
  destruct (memstore_refines_spec Example.others Example.w3 Example.w4 (true, None))
    as (m' & H & _); [vm_compute; reflexivity|]. by exists m'.
Defined.
