(* ===== verification/ContractClaims.v ===== *)
(** * Begin over any store that keeps the contract

    What a caller can rely on whatever the store is and however its network
    fails: a live record keeps every Begin for its key from proceeding. *)
From S2P Require Import Prelude GoLib Errors Record Store Effects Core CoreSpec.
Import Time.

Section contract.
Context {S : Type} `{StoreContract S}.

(** The store's view of a key, on its own clock. *)
Definition shown (w : world S) (key : bytes) : option Record :=
  live (authority (w_now w)) (abs (w_store w)) key.

Lemma authority_advance (w : world S) :
  (authority (w_now w) ≤ authority (w_now (advance w)))%Z.
Proof. destruct (advance_later w). by apply authority_mono. Qed.

Lemma authority_run {A} (p : prog A) (w : world S) :
  (authority (w_now w) ≤ authority (w_now (run p w).2))%Z.
Proof. destruct (run_later p w). by apply authority_mono. Qed.

Lemma shown_advance (w : world S) key r d :
  shown w key = Some r → deadline r = Some d →
  (authority (w_now (advance w)) < d)%Z → shown (advance w) key = Some r.
Proof.
  unfold shown. rewrite advance_store. intros Hl Hd Hlt.
  eapply live_until; eauto. apply authority_advance.
Qed.

(** What Begin may answer about a live record. *)
Definition answer_for (r : Record) (fp : bytes) (res : Outcome + error) : Prop :=
  match res with
  | inl out =>
      match rec_State r with
      | StateReserved => out_Action out = RejectInFlight ∧ out_Token out = []
      | StateCompleted =>
          out = (if decide (rec_Fingerprint r = fp)
                 then mkOutcome Replay [] (rec_Payload r) 0%Z
                 else mkOutcome RejectFingerprintMismatch [] [] 0%Z)
      | StateOther _ => False
      end
  | inr _ => True
  end.

Lemma decide_existing_answer old old' fp now :
  same_identity old old' → Expired old' now = false →
  answer_for old fp (decide_existing old' fp now).
Proof.
  unfold answer_for, decide_existing, Expired. intros (_ & Hf & Hs & _ & Hp).
  rewrite Hs, Hf, Hp. destruct (rec_State old'); [done| |done].
  intros _. case_bool_decide; case_decide; congruence.
Qed.

(** Begin returns no earlier than its first Reserve. *)
Lemma begin_loop_later more key fp tok o (w : world S) :
  later (w_now (advance (advance w))) (w_now (run (begin_loop more key fp tok o) w).2).
Proof.
  rewrite run_begin_loop. cbn zeta. destruct (Reserve _ _ _) as [s [ex [err|]]]; [|done].
  destruct (negb _); [done|]. destruct ex as [old|]; [|done].
  destruct (Expired _ _); [destruct more as [|more]|].
  - apply (advance_later (set_store s (advance (advance w)))).
  - etrans; [apply (advance_later (set_store s (advance (advance w))))|apply run_later].
  - apply (advance_later (set_store s (advance (advance w)))).
Qed.

(** A Reserve for a live key is refused and changes nothing one can see. *)
Lemma reserve_live now r0 m m' ex err r :
  reserve_post now r0 m m' ex err → live now m (rec_Key r0) = Some r →
  live now m' (rec_Key r0) = Some r ∧
  ∃ e, err = Some e ∧
    (Is e ErrAlreadyExists = true → ∃ old, ex = Some old ∧ same_identity r old).
Proof.
  intros Hp Hl. split; [by eapply reserve_frame|]. unfold reserve_post, claims in Hp.
  destruct err as [e|]; [|naive_solver]. exists e. split; [done|]. intros He.
  destruct Hp as [(_ & old & -> & [(_ & r1 & ? & ?)|(? & _)])|(Hi & _)].
  - simplify_eq. eauto.
  - naive_solver.
  - apply is_infra_spec in Hi as (? & _). congruence.
Qed.

Lemma begin_loop_live more key fp tok o (w w' : world S) res r d :
  shown w key = Some r → deadline r = Some d →
  run (begin_loop more key fp tok o) w = (res, w') → (authority (w_now w') < d)%Z →
  shown w' key = Some r ∧ answer_for r fp res.
Proof.
  revert w. induction more as [|more IH]; intros w Hr Hd Hrun Hlt;
    match type of Hrun with run (begin_loop ?n _ _ _ _) _ = _ =>
      pose proof (begin_loop_later n key fp tok o w) as [Ha Hs] end;
    rewrite Hrun in Ha, Hs; simpl in Ha, Hs; pose proof (authority_mono _ _ Ha Hs) as Hle;
    pose proof (authority_advance w) as Hle1; pose proof (authority_advance (advance w)) as Hle2;
    assert (shown (advance (advance w)) key = Some r) as Hr2
      by (eapply shown_advance; [eapply shown_advance; [done|done|lia]|done|lia]);
    rewrite run_begin_loop in Hrun; cbn zeta in Hrun;
    set (w2 := advance (advance w)) in *; clearbody w2;
    destruct (Reserve (w_now w2) _ (w_store w2)) as [s [ex err]] eqn:E;
    (apply reserve_contract in E; [|done]);
    (apply (reserve_live _ _ _ _ _ _ r) in E as (Hr3 & e & -> & Hex); [|exact Hr2]);
    change (shown (set_store s w2) key = Some r) in Hr3; simpl in Hrun;
    (destruct (Is e ErrAlreadyExists); simpl in Hrun; [|by simplify_eq]);
    (destruct (Hex eq_refl) as (old & -> & Hid));
    pose proof (authority_advance (set_store s w2)) as Hle3;
    destruct (Expired old _) eqn:Hx.
  - simplify_eq. split; [|done]. eapply shown_advance; eauto.
  - simplify_eq. split; [eapply shown_advance; eauto|]. by eapply decide_existing_answer.
  - pose proof (authority_run (begin_loop more key fp tok o) (advance (set_store s w2))) as Hle4.
    rewrite Hrun in Hle4. cbn [snd] in Hle4.
    eapply IH; [eapply shown_advance; [exact Hr3|done|lia]|done|exact Hrun|done].
  - simplify_eq. split; [eapply shown_advance; eauto|]. by eapply decide_existing_answer.
Qed.

Lemma read_rand_same n (w : world S) :
  w_store (read_rand n w).2 = w_store w ∧ w_now (read_rand n w).2 = w_now w.
Proof. unfold read_rand. by destruct (w_rand w). Qed.

Lemma Begin_live key fp o (w w' : world S) res r d :
  shown w key = Some r → deadline r = Some d →
  run (Begin key fp o) w = (res, w') → (authority (w_now w') < d)%Z →
  shown w' key = Some r ∧ answer_for r fp res.
Proof.
  intros Hr Hd. rewrite run_Begin. pose proof (read_rand_same 16 w) as [Hs Hn].
  destruct (read_rand 16 w) as [[b|e] w1]; cbn [fst snd] in *.
  - apply begin_loop_live; [|done]. unfold shown. by rewrite Hs, Hn.
  - intros [= <- <-] _. split; [|done]. unfold shown. by rewrite Hs, Hn.
Qed.
End contract.

(** C12. Over any store that keeps the contract, whatever infrastructure
    failures, lost replies and re-expressed deadlines occur, a record that
    stays live during a call of Begin is not disturbed by it and keeps it
    from proceeding: a reserved one is answered as in flight, without a
    token, a completed one is replayed to the same fingerprint and reported
    as a mismatch to another - or Begin fails with an error. *)
Theorem Begin_on_live_record {S} `{StoreContract S} (key fp : bytes) (o : Options)
    (w w' : world S) (res : Outcome + error) (r : Record) (d : Time) :
  shown w key = Some r → deadline r = Some d →
  run (Begin key fp o) w = (res, w') → (authority (w_now w') < d)%Z →
  shown w' key = Some r ∧ answer_for r fp res.
Proof. apply Begin_live. Qed.
