(* ===== verification/Custody.v ===== *)
(** * What becomes of a reservation its holder keeps

    Programs that leave a reservation alone, in the abstract store and in
    the in-memory store: nothing but the holder's own Finish can complete
    the record ([reserved_only]), and while the lease runs the record stays
    as it was ([held]).  The integrations' whole-request theorems build on
    these. *)
From S2P Require Import Prelude GoLib Errors Record Store Effects Memstore Core CoreSpec.
From S2P Require Import CoreClaims.
Import Time.

(** ** What the record of a request can become

    [reserved_only]: whatever the key holds is a reservation, and one under
    our token has our fingerprint. *)
Definition reserved_only (key tok fp : bytes) (now : Time) (m : content) : Prop :=
  ∀ r, live now m key = Some r →
    rec_State r = StateReserved ∧ (rec_Token r = tok → rec_Fingerprint r = fp).

(** A program that may use the store as other requests do, but neither
    finishes the reservation of [key] nor reserves it under [tok]. *)
Fixpoint leaves_alone {A} (key tok : bytes) (p : prog A) : Prop :=
  match p with
  | Ret _ => True
  | CallNow k => ∀ x, leaves_alone key tok (k x)
  | CallRead _ k => ∀ x, leaves_alone key tok (k x)
  | CallReserve r k =>
      (rec_Key r = key → rec_State r = StateReserved ∧ rec_Token r ≠ tok) ∧
      ∀ x, leaves_alone key tok (k x)
  | CallComplete key' _ _ _ k => key' ≠ key ∧ ∀ x, leaves_alone key tok (k x)
  | CallRelease key' _ k => key' ≠ key ∧ ∀ x, leaves_alone key tok (k x)
  | CallGet _ k => ∀ x, leaves_alone key tok (k x)
  | CallLog _ k => leaves_alone key tok k
  end.

Section reserved.
Variables (key tok fp : bytes).

Abbreviation RO := (reserved_only key tok fp).

#[global] Instance reserved_only_proper (now : Time) :
  Proper (live_equiv now ==> iff) (reserved_only key tok fp now).
Proof. intros m1 m2 H. unfold reserved_only. by rewrite (H now key). Qed.

Lemma reserved_only_later (t t' : Time) (m : content) : (t ≤ t')%Z → RO t m → RO t' m.
Proof. intros ? H r Hl. apply H. by eapply live_mono. Qed.

Lemma reserved_only_frame (now : Time) (m m' : content) :
  live now m' key = live now m key → RO now m → RO now m'.
Proof. unfold reserved_only. by intros ->. Qed.

Lemma reserved_only_advance (w : world content) :
  RO (app_clock (w_now w)) (w_store w) →
  RO (app_clock (w_now (advance w))) (w_store (advance w)).
Proof. rewrite advance_store. destruct (advance_later w) as [H _]. by apply reserved_only_later. Qed.

Lemma spec_run_reserved_only {A} (p : prog A) (w : world content) :
  leaves_alone key tok p → RO (app_clock (w_now w)) (w_store w) →
  RO (app_clock (w_now (run p w).2)) (w_store (run p w).2).
Proof.
  revert w. induction p as [a|k IH|n k IH|r0 k IH|key0 tok0 p ttl k IH|key0 tok0 k IH|key0 k IH|l k IH];
    intros w Hn Hw; simpl; [done|..]; simpl in Hn.
  - apply IH; [done|]. by apply reserved_only_advance.
  - destruct (read_rand n w) as [b w1] eqn:E. apply IH; [done|].
    unfold read_rand in E. by destruct (w_rand w); simplify_eq/=.
  - destruct Hn as [Hr Hn]. apply reserved_only_advance in Hw. unfold spec_Reserve.
    destruct (live _ _ (rec_Key r0)) eqn:El; apply IH; try done. simpl.
    intros r' Hl. destruct (decide (rec_Key r0 = key)) as [<-|].
    + rewrite live_insert_eq in Hl. unfold live_rec in Hl. case_match; simplify_eq.
      destruct (Hr eq_refl). done.
    + rewrite live_insert_ne in Hl by done. by apply Hw.
  - destruct Hn as [Hk Hn]. apply reserved_only_advance in Hw. unfold spec_Complete.
    destruct (cas _ _ _ _); apply IH; try done. simpl.
    eapply reserved_only_frame; [|exact Hw]. by rewrite live_insert_ne.
  - destruct Hn as [Hk Hn]. apply reserved_only_advance in Hw. unfold spec_Release.
    destruct (cas _ _ _ _); apply IH; try done. simpl.
    eapply reserved_only_frame; [|exact Hw]. by rewrite live_delete_ne.
  - apply IH; [done|]. by apply reserved_only_advance.
  - by apply IH.
Qed.

(** On a world of the in-memory store. *)
Definition RO_world (w : world memstore.Store) : Prop :=
  RO (app_clock (w_now w)) (memstore.recs (w_store w)).

Lemma run_reserved_only {A} (p : prog A) (w w' : world memstore.Store) x :
  run p w = (x, w') → leaves_alone key tok p → RO_world w → RO_world w'.
Proof.
  intros Hrun Hn Hw. apply mem_run in Hrun as (m' & Hrun & Hm & Hnow).
  unfold RO_world. rewrite Hm, <-Hnow.
  pose proof (spec_run_reserved_only p (spec_world w) Hn Hw) as H. by rewrite Hrun in H.
Qed.

(** A completed record at the key contradicts [reserved_only]. *)
Lemma RO_not_completed (w : world memstore.Store) rc :
  RO_world w → live (app_clock (w_now w)) (memstore.recs (w_store w)) key = Some rc →
  rec_State rc = StateCompleted → False.
Proof. intros Hw Hl Hst. destruct (Hw rc Hl). congruence. Qed.

(** Finish with Discard leaves no completed record. *)
Lemma Finish_discard_RO payload o (w w' : world memstore.Store) x :
  run (Finish key tok Discard payload o) w = (x, w') → RO_world w → RO_world w' ∧ x.2 = None.
Proof.
  destruct x as [lost err]. intros Hrun Hw. pose proof (mem_Finish _ _ _ _ _ _ _ _ _ Hrun) as Ht.
  pose proof (run_later (Finish key tok Discard payload o) w) as [Hle _]. rewrite Hrun in Hle.
  simpl in *. unfold RO_world in *. apply (reserved_only_later _ _ _ Hle) in Hw.
  destruct (cas _ _ _ _) as [r|e]; destruct Ht as (_ & -> & Hm); split; try done; rewrite Hm; [|done].
  intros r' Hl. by rewrite live_delete_eq in Hl.
Qed.

(** Finish with Persist, when the record ends up completed: it holds what
    was persisted. *)
Lemma Finish_persist_RO payload o (w w' : world memstore.Store) x rc :
  run (Finish key tok Persist payload o) w = (x, w') → RO_world w →
  live (app_clock (w_now w')) (memstore.recs (w_store w')) key = Some rc →
  rec_State rc = StateCompleted →
  x = (false, None) ∧ rec_Fingerprint rc = fp ∧ rec_Payload rc = payload.
Proof.
  destruct x as [lost err]. intros Hrun Hw Hl Hst.
  pose proof (mem_Finish _ _ _ _ _ _ _ _ _ Hrun) as Ht. cbv zeta in Ht.
  pose proof (run_later (Finish key tok Persist payload o) w) as [Hle _]. rewrite Hrun in Hle.
  simpl in Hle. apply (reserved_only_later _ _ _ Hle) in Hw.
  destruct (cas _ _ _ _) as [r|e'] eqn:Ec.
  - rewrite decide_True in Ht by done. destruct Ht as (-> & -> & Hm).
    rewrite (Hm _ key), live_insert_eq in Hl by done. unfold live_rec in Hl.
    destruct (Expired _ _); [done|]. injection Hl as <-.
    apply cas_inl in Ec as (Hr & Htok & _). destruct (Hw r Hr) as [_ Hfp]. simpl. auto.
  - destruct Ht as (-> & -> & Hm). exfalso.
    eapply (RO_not_completed w'); [|exact Hl|done]. unfold RO_world. by rewrite Hm.
Qed.

End reserved.

(** Finish in the in-memory store reports no error. *)
Lemma mem_Finish_ok key tok d payload o (w w' : world memstore.Store) x :
  run (Finish key tok d payload o) w = (x, w') → d = Persist ∨ d = Discard → x.2 = None.
Proof.
  destruct x as [lost err]. intros Hrun Hd.
  pose proof (mem_Finish _ _ _ _ _ _ _ _ _ Hrun) as Ht. cbv zeta in Ht.
  destruct Hd as [-> | ->], (cas _ _ _ _); by destruct Ht as (_ & -> & _).
Qed.

(** Logging changes neither the store nor the clock. *)
Lemma run_log {S} `{Store S} lvl msg attrs (w : world S) :
  run (log (mkLog lvl msg attrs)) w = ((), add_log (mkLog lvl msg attrs) w).
Proof. done. Qed.

(** A Begin that finds the key free leaves the reservation of its token. *)
Lemma mem_first_Begin key fp o (wd wd' : world memstore.Store) rnd rest out :
  w_rand wd = inl rnd :: rest → live (app_clock (w_now wd)) (memstore.recs (w_store wd)) key = None →
  run (Begin key fp o) wd = (out, wd') →
  let tok := EncodeToString (take 16 rnd) in
  out = inl (mkOutcome Proceed tok [] 0%Z) ∧ RO_world key tok fp wd'.
Proof.
  intros Hr Hl Hrun. pose proof (mem_Begin _ _ _ _ _ _ _ _ Hr Hrun) as Ht. unfold begin_table in Ht.
  pose proof (advance_later wd) as [? _]. pose proof (advance_later (advance wd)) as [? _].
  rewrite (live_None_mono (app_clock (w_now wd))) in Ht by (done || lia).
  destruct Ht as (-> & t & Hm & _). split; [done|].
  intros r Hr'. rewrite (Hm _ key) in Hr' by done. rewrite live_insert_eq in Hr'.
  unfold live_rec in Hr'. by case_match; simplify_eq.
Qed.

(** ** A lease held to the end *)

Section held.
Variables (key tok : bytes) (r0 : Record).
Hypothesis Hr0 : rec_State r0 = StateReserved.
Hypothesis Htok : rec_Token r0 = tok.

Lemma held_deadline : deadline r0 = Some (rec_LeaseExpiresAt r0).
Proof using Hr0 Htok. unfold deadline. by rewrite Hr0. Qed.

Lemma spec_run_held {A} (p : prog A) (w : world content) :
  leaves_alone key tok p →
  live (app_clock (w_now w)) (w_store w) key = Some r0 →
  (app_clock (w_now (run p w).2) < rec_LeaseExpiresAt r0)%Z →
  live (app_clock (w_now (run p w).2)) (w_store (run p w).2) key = Some r0.
Proof using Hr0 Htok.
  pose proof held_deadline as Hd.
  assert (∀ (q : prog A) (w : world content) s,
    (app_clock (w_now (run q (set_store s (advance w))).2) < rec_LeaseExpiresAt r0)%Z →
    live (app_clock (w_now w)) (w_store w) key = Some r0 →
    live (app_clock (w_now (advance w))) (w_store (advance w)) key = Some r0) as Hadv.
  { intros q w1 s Hlt Hl. rewrite advance_store.
    destruct (run_later q (set_store s (advance w1))) as [Hle _]. simpl in Hle.
    destruct (advance_later w1) as [? _]. eapply live_until; [|exact Hl|exact Hd|]; lia. }
  revert w. induction p as [a|k IH|n k IH|r k IH|key0 tok0 p ttl k IH|key0 tok0 k IH|key0 k IH|l k IH];
    intros w Hn Hl; simpl in *; [done|..].
  - intros Hlt. apply IH; [done| |done].
    by apply (Hadv (k (app_clock (w_now (advance w)))) w (w_store (advance w)));
      [destruct (advance w)|].
  - destruct (read_rand n w) as [b w1] eqn:E. apply IH; [done|].
    unfold read_rand in E. by destruct (w_rand w); simplify_eq/=.
  - destruct Hn as [Hr Hn]. destruct (spec_Reserve _ _ _) as [s x] eqn:E. intros Hlt.
    pose proof (Hadv _ _ _ Hlt Hl) as Hl'. apply IH; [done| |done]. simpl.
    by eapply spec_reserve_frame.
  - destruct Hn as [Hk Hn]. destruct (spec_Complete _ _ _ _ _ _) as [s x] eqn:E. intros Hlt.
    pose proof (Hadv _ _ _ Hlt Hl) as Hl'. apply IH; [done| |done]. simpl.
    unfold spec_Complete in E. destruct (cas _ _ _ _); simplify_eq; [|done].
    by rewrite live_insert_ne.
  - destruct Hn as [Hk Hn]. destruct (spec_Release _ _ _ _) as [s x] eqn:E. intros Hlt.
    pose proof (Hadv _ _ _ Hlt Hl) as Hl'. apply IH; [done| |done]. simpl.
    unfold spec_Release in E. destruct (cas _ _ _ _); simplify_eq; [|done].
    by rewrite live_delete_ne.
  - intros Hlt. apply IH; [done| |done]. simpl. exact (Hadv _ _ _ Hlt Hl).
  - by apply IH.
Qed.

Definition held (w : world memstore.Store) : Prop :=
  live (app_clock (w_now w)) (memstore.recs (w_store w)) key = Some r0.

Lemma run_held {A} (p : prog A) (w w' : world memstore.Store) x :
  run p w = (x, w') → leaves_alone key tok p → held w →
  (app_clock (w_now w') < rec_LeaseExpiresAt r0)%Z → held w'.
Proof using Hr0 Htok.
  intros Hrun Hn Hw Hlt. apply mem_run in Hrun as (m' & Hrun & Hm & Hnow).
  unfold held. rewrite (Hm _ key), <-Hnow by done.
  pose proof (spec_run_held p (spec_world w) Hn Hw) as H. rewrite Hrun in H. simpl in H.
  rewrite Hnow in *. by apply H.
Qed.

(** Finish on the held lease, seen at its end. *)
Lemma Finish_held d payload o (w w' : world memstore.Store) x :
  run (Finish key tok d payload o) w = (x, w') → held w →
  (app_clock (w_now w') < rec_LeaseExpiresAt r0)%Z →
  match d with
  | Persist => x = (false, None) ∧ ∃ expires,
      live (app_clock (w_now w')) (memstore.recs (w_store w')) key
        = Some (completed r0 payload expires)
  | Discard => x = (false, None) ∧
      live (app_clock (w_now w')) (memstore.recs (w_store w')) key = None
  | DecisionOther n => held w' ∧ x = (false, Some (err_invalid_decision n))
  end.
Proof using Hr0 Htok.
  destruct x as [lost err]. intros Hrun Hw Hlt.
  pose proof (mem_Finish _ _ _ _ _ _ _ _ _ Hrun) as Ht. cbv zeta in Ht.
  pose proof (run_later (Finish key tok d payload o) w) as [Hle _]. rewrite Hrun in Hle. simpl in Hle.
  assert (cas (app_clock (w_now w')) key tok (memstore.recs (w_store w)) = inl r0) as Hc.
  { apply cas_inl. split; [|done]. eapply live_until; [exact Hle|exact Hw|apply held_deadline|done]. }
  destruct d as [| |n].
  - rewrite Hc, decide_True in Ht by done. destruct Ht as (-> & -> & Hm). split; [done|].
    exists (Add (app_clock (w_now w')) (Core.recordTTL o)). rewrite (Hm _ key) by done.
    rewrite live_insert_eq. unfold live_rec. destruct (Expired _ _) eqn:Hx; [|done].
    eapply Expired_true in Hx; [|done]. simpl in Hx. unfold Add in Hx.
    pose proof (recordTTL_pos o). lia.
  - rewrite Hc, decide_False in Ht by done. destruct Ht as (-> & -> & Hm). split; [done|].
    rewrite (Hm _ key) by done. by rewrite live_delete_eq.
  - destruct Ht as [-> ->]. done.
Qed.

End held.

(** A granted Begin holds its lease. *)
Lemma mem_first_held key fp o (wd wd' : world memstore.Store) rnd rest out :
  w_rand wd = inl rnd :: rest → live (app_clock (w_now wd)) (memstore.recs (w_store wd)) key = None →
  run (Begin key fp o) wd = (out, wd') →
  (app_clock (w_now wd') < app_clock (w_now wd) + Core.leaseTTL o)%Z →
  let tok := EncodeToString (take 16 rnd) in
  out = inl (mkOutcome Proceed tok [] 0%Z) ∧
  ∃ t, (app_clock (w_now wd) ≤ t)%Z ∧ held key (begin_record key fp tok o t) wd'.
Proof.
  intros Hr Hl Hrun Hlt. pose proof (mem_Begin _ _ _ _ _ _ _ _ Hr Hrun) as Ht. unfold begin_table in Ht.
  pose proof (advance_later wd) as [? _]. pose proof (advance_later (advance wd)) as [? _].
  rewrite (live_None_mono (app_clock (w_now wd))) in Ht by (done || lia).
  destruct Ht as (-> & t & Hm & Ht & _). split; [done|]. exists t. split; [done|].
  unfold held. rewrite (Hm _ key), live_insert_eq by done. unfold live_rec.
  destruct (Expired _ _) eqn:Hx; [|done]. eapply Expired_true in Hx; [|done].
  simpl in Hx. unfold Add in Hx. lia.
Qed.

(** The end of a run bounds the clock at its middle. *)
Lemma run_bind_later {S A B} `{Store S} (p : prog A) (f : A → prog B) (w w1 w2 : world S) a x :
  run p w = (a, w1) → run (p ≫= f) w = (x, w2) →
  run (f a) w1 = (x, w2) ∧ (app_clock (w_now w1) ≤ app_clock (w_now w2))%Z.
Proof.
  intros Hp. rewrite run_bind, Hp. intros Hf. split; [done|].
  pose proof (run_later (f a) w1) as [Hle _]. by rewrite Hf in Hle.
Qed.
