(* ===== verification/Lease.v ===== *)
(** * Leases under concurrency

    Many executions run their programs against one shared store, one call
    at a time in any order, each on its own clock.  The only assumptions
    are the store's contract and that a drawn reservation token was not
    drawn before.  The header's guarantee - at most one execution holds a
    valid lease on a key - is an invariant of every reachable state. *)
From S2P Require Import Prelude GoLib Errors Record Store Effects Memstore Core.
Import Time.

(** ** Token discipline

    Where an execution stands: it has drawn no token, it holds one it has
    not been granted a lease with, or its Reserve succeeded. *)
Inductive phase := NoToken | HasToken (t : bytes) | Granted (t : bytes).

Definition phase_token (ph : phase) : option bytes :=
  match ph with NoToken => None | HasToken t | Granted t => Some t end.

(** [disc Q ph p]: started in phase [ph], the program reserves only with
    the token it drew, completes and releases only after its own Reserve
    succeeded and with that token, and returns with [Q]. *)
Inductive disc {A} (Q : phase → A → Prop) : phase → prog A → Prop :=
  | disc_Ret ph a : Q ph a → disc Q ph (Ret a)
  | disc_Now ph k : (∀ t, disc Q ph (k t)) → disc Q ph (CallNow k)
  | disc_Read n k :
      (∀ b, disc Q (HasToken (EncodeToString b)) (k (inl b))) →
      (∀ e, disc Q NoToken (k (inr e))) → disc Q NoToken (CallRead n k)
  | disc_Reserve t r k :
      rec_Token r = t → reservation r →
      (∀ ex, disc Q (Granted t) (k (ex, None))) →
      (∀ ex err, disc Q (HasToken t) (k (ex, Some err))) →
      disc Q (HasToken t) (CallReserve r k)
  | disc_Complete t key p ttl k :
      (∀ x, disc Q (Granted t) (k x)) → disc Q (Granted t) (CallComplete key t p ttl k)
  | disc_Release t key k :
      (∀ x, disc Q (Granted t) (k x)) → disc Q (Granted t) (CallRelease key t k)
  | disc_Get ph key k : (∀ x, disc Q ph (k x)) → disc Q ph (CallGet key k)
  | disc_Log ph l k : disc Q ph k → disc Q ph (CallLog l k).

Create HintDb disc discriminated.
#[export] Hint Constructors disc : disc.

Lemma disc_bind {A B} (Q : phase → A → Prop) (R : phase → B → Prop) ph p (f : A → prog B) :
  disc Q ph p → (∀ ph' a, Q ph' a → disc R ph' (f a)) → disc R ph (p ≫= f).
Proof.
  intros Hp Hf. unfold mbind, prog_mbind.
  induction Hp; simpl; eauto with disc.
Qed.

Lemma disc_weaken {A} (Q R : phase → A → Prop) ph p :
  disc Q ph p → (∀ ph' a, Q ph' a → R ph' a) → disc R ph p.
Proof. intros Hp HQ. induction Hp; eauto with disc. Qed.

(** ** Begin and Finish keep to it *)

Definition begin_result (ph : phase) (res : Outcome + error) : Prop :=
  match res with
  | inl out => out_Action out = Proceed → ph = Granted (out_Token out)
  | inr _ => True
  end.

Lemma decide_existing_not_proceed existing fp now out :
  decide_existing existing fp now = inl out → out_Action out ≠ Proceed.
Proof. unfold decide_existing. repeat case_match; naive_solver. Qed.

Lemma begin_loop_disc more key fp t o :
  disc begin_result (HasToken t) (begin_loop more key fp t o).
Proof.
  induction more as [|more IH]; simpl; constructor; intros now; constructor; try done;
    intros ex; [by constructor| |by constructor|]; intros err;
    (destruct (negb _); [by constructor|]); (destruct ex as [ex|]; [|by constructor]);
    constructor; intros now'; (destruct (Expired ex now'); [by auto; constructor|]);
    constructor; unfold begin_result; (destruct (decide_existing _ _ _) eqn:E; [|done]);
    by intros ?%(decide_existing_not_proceed _ _ _ _ E).
Qed.

Lemma Begin_disc key fp o : disc begin_result NoToken (Begin key fp o).
Proof.
  apply (disc_bind (λ ph tok, match tok with inl t => ph = HasToken t | inr _ => True end)).
  - constructor; intros; by constructor.
  - intros ph [t|e]; [intros ->; apply begin_loop_disc|by constructor].
Qed.

Lemma Finish_disc key t d p o : disc (λ ph _, ph = Granted t) (Granted t) (Finish key t d p o).
Proof. destruct d; simpl; repeat constructor. Qed.

#[export] Hint Resolve Begin_disc Finish_disc begin_loop_disc : disc.

(** ** The shared system *)

Section system.
Context {S : Type} `{SC : StoreContract S}.
Context {A : Type}.
(** The executions that may arrive, each keeping to the discipline. *)
Variable client : prog A → Prop.
Hypothesis client_disc : ∀ p, client p → disc (λ _ _, True) NoToken p.

(** An execution, with its phase and, while it holds one, its lease: the
    key and the deadline the store gave it. *)
Record thread := mkThread {
  th_prog : prog A;
  th_phase : phase;
  th_lease : option (bytes * Time);
}.

Record sys := mkSys {
  sy_store : S;
  sy_now : Time;                 (* the expiry authority's clock *)
  sy_used : gset bytes;          (* tokens drawn so far *)
  sy_threads : gmap nat thread;
}.

Definition upd (y : sys) (s : S) (now : Time) (n : nat) (th : thread) : sys :=
  mkSys s now (sy_used y) (<[n := th]> (sy_threads y)).

(** The lease a successful Reserve acquires, read off the store. *)
Definition lease_of (now : Time) (s : S) (key : bytes) : option (bytes * Time) :=
  match live now (abs s) key with
  | Some r => Some (key, rec_LeaseExpiresAt r)
  | None => None
  end.

Inductive step (y : sys) : sys → Prop :=
  | step_arrive n p :
      sy_threads y !! n = None → client p →
      step y (upd y (sy_store y) (sy_now y) n (mkThread p NoToken None))
  | step_clock now :
      (sy_now y ≤ now)%Z →
      step y (mkSys (sy_store y) now (sy_used y) (sy_threads y))
  | step_now n k ph l t :
      sy_threads y !! n = Some (mkThread (CallNow k) ph l) →
      step y (upd y (sy_store y) (sy_now y) n (mkThread (k t) ph l))
  | step_read_ok n m k l b :
      sy_threads y !! n = Some (mkThread (CallRead m k) NoToken l) →
      EncodeToString b ∉ sy_used y →
      step y (mkSys (sy_store y) (sy_now y) ({[EncodeToString b]} ∪ sy_used y)
        (<[n := mkThread (k (inl b)) (HasToken (EncodeToString b)) l]> (sy_threads y)))
  | step_read_err n m k l e :
      sy_threads y !! n = Some (mkThread (CallRead m k) NoToken l) →
      step y (upd y (sy_store y) (sy_now y) n (mkThread (k (inr e)) NoToken l))
  | step_reserve_ok n r k t l i s ex :
      sy_threads y !! n = Some (mkThread (CallReserve r k) (HasToken t) l) →
      (sy_now y ≤ authority i)%Z →
      Reserve i r (sy_store y) = (s, (ex, None)) →
      step y (upd y s (authority i) n
        (mkThread (k (ex, None)) (Granted t) (lease_of (authority i) s (rec_Key r))))
  | step_reserve_err n r k t l i s ex err :
      sy_threads y !! n = Some (mkThread (CallReserve r k) (HasToken t) l) →
      (sy_now y ≤ authority i)%Z →
      Reserve i r (sy_store y) = (s, (ex, Some err)) →
      step y (upd y s (authority i) n (mkThread (k (ex, Some err)) (HasToken t) l))
  | step_complete n key tok p ttl k ph l i s x :
      sy_threads y !! n = Some (mkThread (CallComplete key tok p ttl k) ph l) →
      (sy_now y ≤ authority i)%Z →
      Complete i key tok p ttl (sy_store y) = (s, x) →
      step y (upd y s (authority i) n (mkThread (k x) ph None))
  | step_release n key tok k ph l i s x :
      sy_threads y !! n = Some (mkThread (CallRelease key tok k) ph l) →
      (sy_now y ≤ authority i)%Z →
      Release i key tok (sy_store y) = (s, x) →
      step y (upd y s (authority i) n (mkThread (k x) ph None))
  | step_get n key k ph l i s x :
      sy_threads y !! n = Some (mkThread (CallGet key k) ph l) →
      (sy_now y ≤ authority i)%Z →
      Get i key (sy_store y) = (s, x) →
      step y (upd y s (authority i) n (mkThread (k x) ph l))
  | step_log n m k ph l :
      sy_threads y !! n = Some (mkThread (CallLog m k) ph l) →
      step y (upd y (sy_store y) (sy_now y) n (mkThread k ph l)).

(** A system before any execution has arrived, on any store. *)
Definition initial (y : sys) : Prop := sy_threads y = ∅.

Definition reachable (y : sys) : Prop := ∃ y0, initial y0 ∧ rtc step y0 y.

(** Execution [n] holds a lease on [key] that is still valid: it was
    granted it, has not called Finish, and the deadline is ahead. *)
Definition holds_valid_lease (y : sys) (n : nat) (key : bytes) : Prop :=
  ∃ th d, sy_threads y !! n = Some th ∧ th_lease th = Some (key, d) ∧ (sy_now y < d)%Z.

(** ** The invariant *)

Record inv (y : sys) : Prop := {
  inv_disc n th : sy_threads y !! n = Some th →
    disc (λ _ _, True) (th_phase th) (th_prog th);
  inv_used n th t : sy_threads y !! n = Some th →
    phase_token (th_phase th) = Some t → t ∈ sy_used y;
  inv_unique n1 n2 th1 th2 t :
    sy_threads y !! n1 = Some th1 → sy_threads y !! n2 = Some th2 →
    phase_token (th_phase th1) = Some t → phase_token (th_phase th2) = Some t → n1 = n2;
  inv_lease n th key d :
    sy_threads y !! n = Some th → th_lease th = Some (key, d) → (sy_now y < d)%Z →
    ∃ r, live (sy_now y) (abs (sy_store y)) key = Some r ∧
         phase_token (th_phase th) = Some (rec_Token r) ∧
         rec_State r = StateReserved ∧ rec_LeaseExpiresAt r = d;
}.

Lemma inv_initial y : initial y → inv y.
Proof. unfold initial. intros Hy. split; intros *; rewrite Hy, lookup_empty; done. Qed.

(** A call of thread [n] that keeps its token and touches no reserved
    record held under another token. *)
Lemma inv_upd y s now n th0 th :
  inv y → sy_threads y !! n = Some th0 → (sy_now y ≤ now)%Z →
  disc (λ _ _, True) (th_phase th) (th_prog th) →
  phase_token (th_phase th) = phase_token (th_phase th0) →
  (∀ key d, th_lease th = Some (key, d) → (now < d)%Z →
     th_lease th0 = Some (key, d) ∧
       (∀ r, live now (abs (sy_store y)) key = Some r → live now (abs s) key = Some r)
     ∨ ∃ r, live now (abs s) key = Some r ∧ phase_token (th_phase th0) = Some (rec_Token r) ∧
         rec_State r = StateReserved ∧ rec_LeaseExpiresAt r = d) →
  (∀ key r, live now (abs (sy_store y)) key = Some r → rec_State r = StateReserved →
     phase_token (th_phase th0) ≠ Some (rec_Token r) → live now (abs s) key = Some r) →
  inv (upd y s now n th).
Proof.
  intros [Hd Hu Hq Hl] Hn Hnow Hdisc Htok Hown Hother. split; simpl.
  - intros n' th'. rewrite lookup_insert_Some. naive_solver.
  - intros n' th' t. rewrite lookup_insert_Some. rewrite <-Htok in *. naive_solver congruence.
  - intros n1 n2 th1 th2 t.
    rewrite !lookup_insert_Some.
    intros [[-> <-]|[? H1]] [[-> <-]|[? H2]]; rewrite ?Htok; naive_solver.
  - intros n' th' key d. rewrite lookup_insert_Some.
    assert (∀ th1, sy_threads y !! n' = Some th1 → th_lease th1 = Some (key, d) → (now < d)%Z →
      ∃ r, live now (abs (sy_store y)) key = Some r ∧
           phase_token (th_phase th1) = Some (rec_Token r) ∧
           rec_State r = StateReserved ∧ rec_LeaseExpiresAt r = d) as Hstill.
    { intros th1 H1 Hl1 Hd1. destruct (Hl _ _ _ _ H1 Hl1) as (r & Hr & Ht & Hs & Hdd); [lia|].
      exists r. split_and!; try done. eapply live_until; eauto.
      unfold deadline. by rewrite Hs, Hdd. }
    intros [[<- <-]|[Hne Hn']] Hle Hdl.
    + destruct (Hown _ _ Hle Hdl) as [[Hle0 Hk]|(r & ? & ? & ? & ?)].
      * destruct (Hstill _ Hn Hle0 Hdl) as (r & ? & ? & ? & ?).
        exists r. rewrite Htok. split_and!; auto.
      * exists r. rewrite Htok. done.
    + destruct (Hstill _ Hn' Hle Hdl) as (r & Hr & Ht & Hs & Hdd).
      exists r. split_and!; auto. apply Hother; [done..|].
      intros Heq. apply Hne. by eapply Hq.
Qed.

Lemma inv_arrive y n p :
  inv y → sy_threads y !! n = None → client p →
  inv (upd y (sy_store y) (sy_now y) n (mkThread p NoToken None)).
Proof.
  intros [Hd Hu Hq Hl] Hn Hp. split; simpl.
  - intros n' th'. rewrite lookup_insert_Some. intros [[_ <-]|[_ ?]]; [by apply client_disc|by eapply Hd].
  - intros n' th' t. rewrite lookup_insert_Some. naive_solver.
  - intros n1 n2 th1 th2 t. rewrite !lookup_insert_Some. naive_solver.
  - intros n' th' key d. rewrite lookup_insert_Some. naive_solver.
Qed.

Lemma inv_clock y now :
  inv y → (sy_now y ≤ now)%Z → inv (mkSys (sy_store y) now (sy_used y) (sy_threads y)).
Proof.
  intros [Hd Hu Hq Hl] Hnow. split; simpl; [done..|].
  intros n th key d Hn Hle Hdl.
  destruct (Hl _ _ _ _ Hn Hle) as (r & ? & ? & Hs & Hdd); [lia|].
  exists r. split_and!; try done. eapply live_until; eauto. unfold deadline. by rewrite Hs, Hdd.
Qed.

Lemma inv_read y n m k l b :
  inv y → sy_threads y !! n = Some (mkThread (CallRead m k) NoToken l) →
  EncodeToString b ∉ sy_used y →
  inv (mkSys (sy_store y) (sy_now y) ({[EncodeToString b]} ∪ sy_used y)
        (<[n := mkThread (k (inl b)) (HasToken (EncodeToString b)) l]> (sy_threads y))).
Proof.
  intros [Hd Hu Hq Hl] Hn Hfresh. split; simpl.
  - intros n' th'. rewrite lookup_insert_Some. intros [[_ <-]|[_ ?]]; [|by eapply Hd].
    apply Hd in Hn. simpl in *. by inversion Hn.
  - intros n' th' t. rewrite lookup_insert_Some. intros [[_ <-]|[_ ?]] ?; simplify_eq/=; set_solver.
  - intros n1 n2 th1 th2 t. rewrite !lookup_insert_Some.
    intros [[-> <-]|[? H1]] [[-> <-]|[? H2]] Ht1 Ht2; simplify_eq/=; try done.
    + destruct Hfresh. by eapply Hu.
    + destruct Hfresh. by eapply Hu.
    + by eapply Hq.
  - intros n' th' key d. rewrite lookup_insert_Some. intros [[<- <-]|[_ ?]]; simpl; [|by eapply Hl].
    intros -> Hdl. destruct (Hl _ _ _ _ Hn eq_refl Hdl) as (r & _ & ? & _). done.
Qed.

(** Inversion of the discipline at a call. *)
Lemma inv_thread_disc y n p ph l :
  inv y → sy_threads y !! n = Some (mkThread p ph l) → disc (λ _ _, True) ph p.
Proof. intros Hi Hn. by apply (inv_disc _ Hi) in Hn. Qed.

Lemma inv_step y y' : inv y → step y y' → inv y'.
Proof.
  intros Hi Hs. destruct Hs as
    [n p Hn Hp|now Hnow|n k ph l t Hn|n m k l b Hn Hf|n m k l e Hn
    |n r k t l i s ex Hn Hnow Hop|n r k t l i s ex err Hn Hnow Hop
    |n key tok p ttl k ph l i s x Hn Hnow Hop|n key tok k ph l i s x Hn Hnow Hop
    |n key k ph l i s x Hn Hnow Hop|n m k ph l Hn];
    try (pose proof (inv_thread_disc _ _ _ _ _ Hi Hn) as Hd; inversion Hd; subst; clear Hd).
  - by apply inv_arrive.
  - by apply inv_clock.
  - eapply inv_upd; eauto; naive_solver.
  - by eapply inv_read.
  - eapply inv_upd; eauto; naive_solver.
  - apply reserve_contract in Hop; [|done].
    eapply inv_upd; eauto using reserve_frame; simpl; [].
    intros key d Hle Hdl. right. unfold lease_of in Hle.
    destruct (live _ _ _) as [r'|] eqn:Hr'; simplify_eq.
    destruct (reserve_ok_live _ _ _ _ _ _ Hop Hr') as [Ht' Hs']. exists r'.
    unfold reservation in *. destruct_and?. split_and!; congruence.
  - apply reserve_contract in Hop; [|done].
    eapply inv_upd; eauto using reserve_frame; naive_solver eauto using reserve_frame.
  - apply complete_contract in Hop.
    eapply inv_upd; eauto; [done|]. simpl. intros. eapply complete_frame; eauto. naive_solver.
  - apply release_contract in Hop.
    eapply inv_upd; eauto; [done|]. simpl. intros. eapply release_frame; eauto. naive_solver.
  - destruct x as [ex err]. apply get_contract in Hop.
    eapply inv_upd; eauto using get_frame; naive_solver eauto using get_frame.
  - eapply inv_upd; eauto; naive_solver.
Qed.

Lemma inv_reachable y : reachable y → inv y.
Proof.
  intros (y0 & H0 & Hs). apply inv_initial in H0.
  induction Hs; eauto using inv_step.
Qed.

Lemma step_clock_mono y y' : step y y' → (sy_now y ≤ sy_now y')%Z.
Proof. by destruct 1; simpl. Qed.

Lemma steps_clock y y' : rtc step y y' → (sy_now y ≤ sy_now y')%Z.
Proof. induction 1; [done|]. etrans; [by eapply step_clock_mono|done]. Qed.

(** The holder's record is the one the store shows. *)
Lemma holder_record y n key :
  reachable y → holds_valid_lease y n key →
  ∃ th r, sy_threads y !! n = Some th ∧ phase_token (th_phase th) = Some (rec_Token r) ∧
    live (sy_now y) (abs (sy_store y)) key = Some r ∧ rec_State r = StateReserved.
Proof.
  intros Hy%inv_reachable (th & d & Hn & Hl & Hd).
  destruct (inv_lease _ Hy _ _ _ _ Hn Hl Hd) as (r & ? & ? & ? & ?). eauto 10.
Qed.

Lemma one_holder y n1 n2 key :
  reachable y → holds_valid_lease y n1 key → holds_valid_lease y n2 key → n1 = n2.
Proof.
  intros Hy H1 H2.
  destruct (holder_record _ _ _ Hy H1) as (th1 & r1 & Hn1 & Ht1 & Hr1 & _).
  destruct (holder_record _ _ _ Hy H2) as (th2 & r2 & Hn2 & Ht2 & Hr2 & _).
  simplify_eq. eapply inv_unique; eauto using inv_reachable.
Qed.

(** No step changes a live record that is not reserved. *)
Lemma step_frame y y' key r d :
  inv y → step y y' → live (sy_now y) (abs (sy_store y)) key = Some r →
  rec_State r ≠ StateReserved → deadline r = Some d → (sy_now y' < d)%Z →
  live (sy_now y') (abs (sy_store y')) key = Some r ∧ (sy_now y ≤ sy_now y')%Z.
Proof.
  intros Hi Hs Hl Hst Hd Hlt.
  assert (∀ t, (sy_now y ≤ t)%Z → (t < d)%Z → live t (abs (sy_store y)) key = Some r) as Hu
    by (intros; eapply live_until; eauto).
  destruct Hs as
    [n p Hn Hp|now Hnow|n k ph l t Hn|n m k l b Hn Hf|n m k l e Hn
    |n r0 k t l i s ex Hn Hnow Hop|n r0 k t l i s ex err Hn Hnow Hop
    |n key0 tok p ttl k ph l i s x Hn Hnow Hop|n key0 tok k ph l i s x Hn Hnow Hop
    |n key0 k ph l i s x Hn Hnow Hop|n m k ph l Hn]; simpl in *;
    try (split; [by auto with lia|lia]);
    pose proof (inv_thread_disc _ _ _ _ _ Hi Hn) as Hdisc; inversion Hdisc; subst;
    (split; [|done]); specialize (Hu _ Hnow Hlt).
  - apply reserve_contract in Hop; eauto using reserve_frame.
  - apply reserve_contract in Hop; eauto using reserve_frame.
  - apply complete_contract in Hop; eauto using complete_frame.
  - apply release_contract in Hop; eauto using release_frame.
  - destruct x as [ex err]. apply get_contract in Hop; eauto using get_frame.
Qed.

Lemma steps_frame y y' key r d :
  inv y → rtc step y y' → live (sy_now y) (abs (sy_store y)) key = Some r →
  rec_State r ≠ StateReserved → deadline r = Some d → (sy_now y' < d)%Z →
  live (sy_now y') (abs (sy_store y')) key = Some r.
Proof.
  intros Hi Hs Hl Hst Hd Hlt. induction Hs as [|y1 y2 y3 H12 H23 IH]; [done|].
  assert (sy_now y2 ≤ sy_now y3)%Z as Hle by (eapply steps_clock; eauto).
  destruct (step_frame _ _ _ _ _ Hi H12 Hl Hst Hd) as [? _]; [lia|].
  eauto using inv_step.
Qed.
End system.
Arguments mkThread {A} _ _ _.
Arguments thread A : clear implicits.
Arguments sys S A : clear implicits.

(** ** The callers of the core

    What the comment of Begin asks of a caller: on Proceed run the
    operation, which may itself complete or release its own reservation,
    and then call Finish with the token. *)
Definition execution (key fp : bytes) (o : Options) (work : Outcome → prog (Decision * bytes))
    : prog () :=
  res ← Begin key fp o;
  match res with
  | inl out =>
      match out_Action out with
      | Proceed =>
          '(d, payload) ← work out;
          _ ← Finish key (out_Token out) d payload o;
          mret ()
      | _ => mret ()
      end
  | inr _ => mret ()
  end.

Definition caller (p : prog ()) : Prop :=
  ∃ key fp o work,
    (∀ out, disc (λ ph _, ph = Granted (out_Token out)) (Granted (out_Token out)) (work out)) ∧
    p = execution key fp o work.

Lemma caller_disc p : caller p → disc (λ _ _, True) NoToken p.
Proof.
  intros (key & fp & o & work & Hw & ->). unfold execution.
  eapply disc_bind; [apply Begin_disc|]. intros ph [out|e] Hr; [|by constructor].
  simpl in Hr. destruct (out_Action out); try by constructor.
  rewrite Hr by done. eapply disc_bind; [apply Hw|]. intros ph' [d p] ->.
  eapply disc_bind; [apply Finish_disc|]. by constructor.
Qed.

(** C1. The guarantee of the README: in every state the shared system can
    reach - any store that keeps the contract, any number of executions of
    Begin/Finish with their calls interleaved in any order, any clocks on
    the callers' side, any store failures before or after taking effect -
    at most one execution holds a valid lease on a key. *)
Theorem at_most_one_valid_lease {S} `{StoreContract S} (y : sys S ()) (n1 n2 : nat) (key : bytes) :
  reachable caller y →
  holds_valid_lease y n1 key → holds_valid_lease y n2 key → n1 = n2.
Proof. apply one_holder, caller_disc. Qed.

(** C11. A completed record is never changed, replaced or released while it
    is valid, whatever executions do in the meantime: what is replayed is
    the first result stored. *)
Theorem completed_record_is_stable {S} `{StoreContract S} (y y' : sys S ()) (key : bytes) (r : Record) :
  reachable caller y → rtc (step caller) y y' →
  live (sy_now y) (abs (sy_store y)) key = Some r → rec_State r = StateCompleted →
  (sy_now y' < rec_RecordExpiresAt r)%Z →
  live (sy_now y') (abs (sy_store y')) key = Some r.
Proof.
  intros Hy Hs Hl Hst Hlt.
  eapply (steps_frame caller caller_disc y y' key r (rec_RecordExpiresAt r));
    try done; [by eapply inv_reachable, Hy; apply caller_disc|congruence|].
  unfold deadline. by rewrite Hst.
Qed.

(** ** Witnesses: one execution on the in-memory store *)

Module Example.
Definition key : bytes := bs "k".
Definition block : bytes := bs "0123456789abcdef".
Definition work (out : Outcome) : prog (Decision * bytes) := mret (Persist, bs "ok").
Definition exec : prog () := execution key (bs "fp") (mkOptions 0%Z 0%Z) work.
Definition y0 : sys memstore.Store () := mkSys memstore.New 5%Z ∅ ∅.
Definition at0 : Instant := mkInstant 5%Z 5%Z.

(** The program after its first [n] calls, each answered as in this run. *)
Definition tok : bytes := EncodeToString block.
Definition reserved : Record :=
  mkRecord key (bs "fp") StateReserved tok (5 + 30 * Second)%Z Time.zero [].
Definition after_read (p : prog ()) : prog () :=
  match p with CallRead _ k => k (inl block) | _ => p end.
Definition after_now (p : prog ()) : prog () :=
  match p with CallNow k => k 5%Z | _ => p end.
Definition after_reserve (p : prog ()) : prog () :=
  match p with CallReserve _ k => k (None, None) | _ => p end.
Definition after_complete (p : prog ()) : prog () :=
  match p with CallComplete _ _ _ _ k => k None | _ => p end.

Definition holding : sys memstore.Store () :=
  mkSys (memstore.mkStore {[ key := reserved ]}) 5%Z {[ tok ]}
    {[ 0 := mkThread (after_reserve (after_now (after_read exec))) (Granted tok)
              (Some (key, 5 + 30 * Second)%Z) ]}.

Definition result : Record := completed reserved (bs "ok") (5 + 24 * Hour)%Z.
Definition finished : sys memstore.Store () :=
  mkSys (memstore.mkStore {[ key := result ]}) 5%Z {[ tok ]}
    {[ 0 := mkThread (after_complete (after_reserve (after_now (after_read exec))))
              (Granted tok) None ]}.
End Example.

Lemma example_caller : caller Example.exec.
Proof. repeat eexists. intros out. by constructor. Qed.

Lemma rtc_eq {A} (R : relation A) x y : x = y → rtc R x y.
Proof. intros ->. constructor. Qed.

Lemma example_holding : rtc (step caller) Example.y0 Example.holding.
Proof.
  eapply rtc_l; [by apply (step_arrive _ _ 0 Example.exec), example_caller|].
  eapply rtc_l; [eapply (step_read_ok _ _ 0 16 _ _ Example.block); [reflexivity|set_solver]|].
  eapply rtc_l; [eapply (step_now _ _ 0 _ _ _ 5%Z); reflexivity|].
  eapply rtc_l; [eapply (step_reserve_ok _ _ 0 _ _ _ _ Example.at0); [reflexivity|done|reflexivity]|].
  apply rtc_eq. vm_compute. reflexivity.
Qed.

Lemma example_finished : rtc (step caller) Example.holding Example.finished.
Proof.
  eapply rtc_l;
    [eapply (step_complete _ _ 0 _ _ _ _ _ _ _ Example.at0); [reflexivity|done|reflexivity]|].
  apply rtc_eq. vm_compute. reflexivity.
Qed.

Lemma at_most_one_valid_lease_witness :
  holds_valid_lease Example.holding 0 Example.key ∧
  ∀ n, holds_valid_lease Example.holding n Example.key → n = 0.
Proof.
  assert (holds_valid_lease Example.holding 0 Example.key) as H0.
  { do 2 eexists. split_and!; reflexivity. }
  split; [exact H0|]. intros n Hn.
  apply (at_most_one_valid_lease Example.holding n 0 Example.key); [|exact Hn|exact H0].
  exists Example.y0. split; [reflexivity|exact example_holding].
Defined.

(** An hour after it was stored, the result of the first execution is
    still what the store shows. *)
Definition example_later : sys memstore.Store () :=
  mkSys (sy_store Example.finished) (5 + Hour)%Z (sy_used Example.finished)
    (sy_threads Example.finished).

Lemma completed_record_is_stable_witness :
  live (5 + Hour)%Z (abs (sy_store example_later)) Example.key = Some Example.result.
Proof.
  apply (completed_record_is_stable Example.finished example_later Example.key Example.result);
    [|apply rtc_once, step_clock; done|reflexivity..].
  exists Example.y0. split; [reflexivity|].
  etrans; [exact example_holding|exact example_finished].
Defined.
