(* ===== verification/GoHttp.v ===== *)
(** * The parts of net/http, net/textproto and net/url the sources use

    Header maps and their canonical names, and the escaped path of a URL. *)
From S2P Require Import Prelude GoLib.

(** ** Headers *)

(** [http.Header]: a map from names to lists of values. *)
Abbreviation header := (gmap bytes (list bytes)).

Definition is_alpha (b : byte) : bool := is_lower b || is_upper b.
Definition is_digit (b : byte) : bool := (48 <=? byte_Z b)%Z && (byte_Z b <=? 57)%Z.

(** Membership in a byte set written as a string. *)
Definition one_of (set : string) (b : byte) : bool := bool_decide (b ∈ bs set).

(** [validHeaderFieldByte]: the token bytes of RFC 7230. *)
Definition validHeaderFieldByte (b : byte) : bool :=
  is_alpha b || is_digit b || one_of "!#$%&'*+-.^_`|~" b.

(** The letters of a name: upper case at the start and after a dash,
    lower case elsewhere. *)
Fixpoint canon (upper : bool) (s : bytes) : bytes :=
  match s with
  | [] => []
  | c :: s =>
      let c' := if upper then upper_byte c else lower_byte c in
      c' :: canon (bool_decide (c' = "-"%byte)) s
  end.

(** [textproto.CanonicalMIMEHeaderKey]: names that are not tokens are
    returned unchanged. *)
Definition CanonicalMIMEHeaderKey (s : bytes) : bytes :=
  if forallb validHeaderFieldByte s then canon true s else s.

Module Header.

(** [h.Values(k)], [h.Get(k)], [h.Set(k, v)], [h.Del(k)]. *)
Definition Values (h : header) (k : bytes) : list bytes :=
  default [] (h !! CanonicalMIMEHeaderKey k).
Definition Get (h : header) (k : bytes) : bytes := default [] (head (Values h k)).
Definition Set' (k v : bytes) (h : header) : header := <[CanonicalMIMEHeaderKey k := [v]]> h.

End Header.

Lemma upper_byte_idem b : upper_byte (upper_byte b) = upper_byte b.
Proof. by destruct b. Qed.

Lemma lower_byte_idem b : lower_byte (lower_byte b) = lower_byte b.
Proof. by destruct b. Qed.

Lemma valid_upper b : validHeaderFieldByte (upper_byte b) = validHeaderFieldByte b.
Proof. by destruct b. Qed.

Lemma valid_lower b : validHeaderFieldByte (lower_byte b) = validHeaderFieldByte b.
Proof. by destruct b. Qed.

Lemma canon_idem u s : canon u (canon u s) = canon u s.
Proof.
  revert u. induction s as [|c s IH]; intros u; simpl; [done|].
  destruct u; rewrite ?upper_byte_idem, ?lower_byte_idem, IH; done.
Qed.

Lemma canon_valid u s :
  forallb validHeaderFieldByte (canon u s) = forallb validHeaderFieldByte s.
Proof.
  revert u. induction s as [|c s IH]; intros u; simpl; [done|].
  rewrite IH. destruct u; by rewrite ?valid_upper, ?valid_lower.
Qed.

Lemma Canonical_idem s :
  CanonicalMIMEHeaderKey (CanonicalMIMEHeaderKey s) = CanonicalMIMEHeaderKey s.
Proof.
  unfold CanonicalMIMEHeaderKey. destruct (forallb _ s) eqn:E; [|by rewrite E].
  by rewrite canon_valid, E, canon_idem.
Qed.
#[export] Hint Rewrite Canonical_idem : idem.

Example canonical_ex1 : CanonicalMIMEHeaderKey (bs "idempotency-KEY") = bs "Idempotency-Key".
Proof. reflexivity. Qed.
Example canonical_ex2 : CanonicalMIMEHeaderKey (bs "x y") = bs "x y".
Proof. reflexivity. Qed.

(** ** URLs *)

Module url.

(** The fields of [url.URL] the sources read. *)
Record URL := mkURL { Path : bytes; RawPath : bytes; RawQuery : bytes }.

(** [shouldEscape(c, encodePath)]. *)
Definition shouldEscape (c : byte) : bool :=
  negb (is_alpha c || is_digit c || one_of "-_.~$&+,/:;=@" c).

(** [validEncoded(s, encodePath)]. *)
Definition validEncoded (s : bytes) : bool :=
  forallb (λ c, one_of "!$&'()*+,;=:@[]%" c || negb (shouldEscape c)) s.

Definition unhex (c : byte) : option Z :=
  let z := byte_Z c in
  if is_digit c then Some (z - 48)%Z
  else if (97 <=? z)%Z && (z <=? 102)%Z then Some (z - 87)%Z
  else if (65 <=? z)%Z && (z <=? 70)%Z then Some (z - 55)%Z
  else None.

(** [unescape(s, encodePath)]; [None] is an [EscapeError]. *)
Fixpoint unescape (s : bytes) : option bytes :=
  match s with
  | [] => Some []
  | c :: s' =>
      if bool_decide (c = "%"%byte) then
        match s' with
        | h :: l :: s'' =>
            h ← unhex h; l ← unhex l; r ← unescape s''; Some (Z_byte (16 * h + l) :: r)
        | _ => None
        end
      else r ← unescape s'; Some (c :: r)
  end.

(** [escape(s, encodePath)]. *)
Definition escape_byte (c : byte) : bytes :=
  if shouldEscape c then "%"%byte :: HEX_byte c else [c].
Definition escape (s : bytes) : bytes := s ≫= escape_byte.

(** [u.EscapedPath()]. *)
Definition EscapedPath (u : URL) : bytes :=
  if negb (bool_decide (RawPath u = [])) && validEncoded (RawPath u) &&
     bool_decide (unescape (RawPath u) = Some (Path u))
  then RawPath u
  else if bool_decide (Path u = bs "*") then bs "*"
  else escape (Path u).

(** The separators of the fingerprint never occur in an escaped path. *)
Definition path_byte (c : byte) : bool :=
  negb (bool_decide (c = "?"%byte)) && negb (bool_decide (c = x0a)).

Lemma escape_byte_path c : forallb path_byte (escape_byte c) = true.
Proof. by destruct c. Qed.

Lemma valid_path c : one_of "!$&'()*+,;=:@[]%" c || negb (shouldEscape c) = true → path_byte c = true.
Proof. by destruct c. Qed.

Lemma EscapedPath_path u : forallb path_byte (EscapedPath u) = true.
Proof.
  unfold EscapedPath. case_match eqn:E; [|case_match; [done|]].
  - rewrite !andb_true_iff in E. destruct E as [[_ E] _]. unfold validEncoded in E.
    rewrite forallb_Forall in *. eapply Forall_impl; [exact E|]. apply valid_path.
  - clear. unfold escape. induction (Path u) as [|c s IH]; [done|].
    cbn [mbind list_bind]. rewrite forallb_app, escape_byte_path. exact IH.
Qed.

End url.
