(* ===== verification/Key.v ===== *)
(** * Idempotency keys (httpidem/key.go)

    The header grammar, RFC 8941 strings, and the store key the middleware
    composes from a scope and a key. *)
From S2P Require Import Prelude GoLib GoHttp Errors.

Definition HeaderIdempotencyKey : bytes := bs "Idempotency-Key".
Definition HeaderIdempotencyReplayed : bytes := bs "Idempotency-Replayed".

(** The loop of parseSFString from a position on; [b] is the builder. *)
Fixpoint sf_loop (s : bytes) (b : bytes) : option bytes :=
  match s with
  | [] => None
  | c :: s' =>
      if bool_decide (c = x5c) then
        match s' with
        | [] => None
        | next :: s'' =>
            if negb (bool_decide (next = x22)) && negb (bool_decide (next = x5c))
            then None else sf_loop s'' (b ++ [next])
        end
      else if bool_decide (c = x22) then
        if negb (bool_decide (s' = [])) then None else Some b
      else if (byte_Z c <? 32)%Z || (126 <? byte_Z c)%Z then None
      else sf_loop s' (b ++ [c])
  end.

Definition parseSFString (s : bytes) : option bytes :=
  match s with
  | c :: ((_ :: _) as s') => if negb (bool_decide (c = x22)) then None else sf_loop s' []
  | _ => None
  end.

(** The first control character of a raw key. *)
Definition is_control (c : byte) : bool := (byte_Z c <=? 31)%Z || (byte_Z c =? 127)%Z.

Definition ows (c : byte) : bool := bool_decide (c = " "%byte) || bool_decide (c = x09).

Definition err_empty_value : error := Errorf_w_suffix ErrKeyInvalid (bs ": empty value").
Definition err_malformed_sf : error :=
  Errorf_w_suffix ErrKeyInvalid (bs ": malformed RFC 8941 string").
Definition err_control (c : byte) : error :=
  Errorf_w_suffix ErrKeyInvalid (bs ": control character 0x" ++ HEX_byte c).
Definition err_key_length (n : nat) : error :=
  Errorf_w_suffix ErrKeyInvalid (bs ": key is " ++ FormatInt (Z.of_nat n) ++ bs " bytes, want 1-255").
Definition err_many_headers (n : nat) : error :=
  Errorf_w_suffix ErrKeyInvalid
    (bs ": " ++ FormatInt (Z.of_nat n) ++ bs " Idempotency-Key headers, want exactly 1").

(** The raw or quoted key of a trimmed, non-empty value. *)
Definition decode_key (v : bytes) : bytes + error :=
  if bool_decide (head v = Some x22) then
    match parseSFString v with
    | Some decoded => inl decoded
    | None => inr err_malformed_sf
    end
  else
    match find is_control v with
    | Some c => inr (err_control c)
    | None => inl v
    end.

Definition ParseKey (value : bytes) : bytes + error :=
  let v := Trim ows value in
  if bool_decide (v = []) then inr err_empty_value else
  match decode_key v with
  | inr err => inr err
  | inl key =>
      if bool_decide (length key = 0) || bool_decide (255 < length key)
      then inr (err_key_length (length key))
      else inl key
  end.

Definition KeyFromHeader (h : header) : bytes + error :=
  let values := Header.Values h HeaderIdempotencyKey in
  match values with
  | [] => inr (ErrKeyMissing : error)
  | [v] => ParseKey v
  | _ => inr (err_many_headers (length values))
  end.

(** The key handed to the store: [scope + "\x00" + key] under a scope. *)
Definition storeKey (scope key : bytes) : bytes :=
  if bool_decide (scope = []) then key else scope ++ x00 :: key.

(** ** RFC 8941 strings *)

(** The String whose contents are [k]: only the quote and the backslash are
    escaped. *)
Definition sf_escape (k : bytes) : bytes :=
  k ≫= λ c, if bool_decide (c = x22) || bool_decide (c = x5c) then [x5c; c] else [c].
Definition sf_quote (k : bytes) : bytes := x22 :: sf_escape k ++ [x22].

Definition sf_char (c : byte) : bool := (32 <=? byte_Z c)%Z && (byte_Z c <=? 126)%Z.

Lemma sf_escape_cons c k : sf_escape (c :: k) = sf_escape [c] ++ sf_escape k.
Proof. unfold sf_escape. cbn [mbind list_bind]. by rewrite app_nil_r. Qed.

Lemma sf_escape_plain c : c ≠ x22 → c ≠ x5c → sf_escape [c] = [c].
Proof. by destruct c. Qed.

Lemma sf_loop_complete d b :
  Forall (λ c, sf_char c = true) d → sf_loop (sf_escape d ++ [x22]) b = Some (b ++ d).
Proof.
  intros Hd. revert b. induction Hd as [|c d Hc Hd IH]; intros b.
  - simpl. by rewrite app_nil_r.
  - rewrite sf_escape_cons, <-app_assoc. revert IH.
    generalize (sf_escape d ++ [x22]). intros s IH.
    replace (b ++ c :: d) with ((b ++ [c]) ++ d) by by rewrite <-app_assoc.
    rewrite <-IH. revert Hc. clear. by destruct c.
Qed.

Lemma sf_loop_sound s b k :
  sf_loop s b = Some k →
  ∃ d, k = b ++ d ∧ s = sf_escape d ++ [x22] ∧ Forall (λ c, sf_char c = true) d.
Proof.
  revert b. remember (length s) as n eqn:Hn. revert s Hn.
  induction (lt_wf n) as [n _ IH]. intros [|c s] -> b; simpl; [done|].
  case_bool_decide as Hc; [subst; destruct s as [|c' s]; [done|]|case_bool_decide as Hq].
  - destruct (negb _ && negb _) eqn:E; [done|]. intros H.
    apply IH with (y := length s) in H as (d & -> & -> & Hd); [|simpl; (done || lia)..].
    exists (c' :: d). rewrite <-app_assoc. split; [done|]. split.
    + rewrite (sf_escape_cons c'). revert E. clear. by destruct c'.
    + constructor; [|done]. revert E. clear. by destruct c'.
  - subst. case_bool_decide; [|done]. intros [= <-]. subst. exists [].
    by rewrite app_nil_r.
  - destruct ((byte_Z c <? 32)%Z || (126 <? byte_Z c)%Z) eqn:E; [done|]. intros H.
    apply IH with (y := length s) in H as (d & -> & -> & Hd); [|simpl; (done || lia)..].
    exists (c :: d). rewrite <-app_assoc. split; [done|]. split.
    + by rewrite (sf_escape_cons c), sf_escape_plain.
    + constructor; [|done]. unfold sf_char.
      rewrite orb_false_iff, !Z.ltb_ge in E. rewrite andb_true_iff, !Z.leb_le. lia.
Qed.

Lemma parseSFString_spec s k :
  parseSFString s = Some k ↔ s = sf_quote k ∧ Forall (λ c, sf_char c = true) k.
Proof.
  unfold parseSFString, sf_quote. split.
  - destruct s as [|c [|c' s]]; [done..|]. case_bool_decide; simpl negb; [|done]. subst.
    intros (d & -> & Hs & Hd)%sf_loop_sound. by rewrite Hs.
  - intros [-> Hk]. pose proof (sf_loop_complete k [] Hk) as H. simpl in H.
    destruct (sf_escape k ++ [x22]) as [|c s] eqn:E; [|done].
    by apply (f_equal length) in E; rewrite length_app in E; simpl in E; lia.
Qed.

(** ** The grammar *)

Definition raw_key (v key : bytes) : Prop :=
  head v ≠ Some x22 ∧ forallb (λ c, negb (is_control c)) v = true ∧ key = v.
Definition quoted_key (v key : bytes) : Prop :=
  v = sf_quote key ∧ forallb sf_char key = true.

Lemma find_None_forallb {A} (f : A → bool) l :
  find f l = None ↔ forallb (λ x, negb (f x)) l = true.
Proof. induction l as [|x l IH]; simpl; [done|]. by destruct (f x). Qed.

Lemma decode_key_spec v key :
  decode_key v = inl key ↔ raw_key v key ∨ quoted_key v key.
Proof.
  unfold decode_key, raw_key, quoted_key. case_bool_decide as Hh.
  - destruct (parseSFString v) as [k|] eqn:E.
    + apply parseSFString_spec in E as [-> Hk]. rewrite <-forallb_Forall in Hk.
      split; [intros; simplify_eq; auto|]. intros [[? _]|[Hq Hk']]; [done|].
      assert (parseSFString (sf_quote k) = Some key) as H.
      { apply parseSFString_spec. rewrite Hq, <-forallb_Forall. done. }
      rewrite (proj2 (parseSFString_spec _ k)) in H; [congruence|].
      by rewrite <-forallb_Forall.
    + split; [done|]. intros [[? _]|[-> Hk]]; [done|].
      rewrite (proj2 (parseSFString_spec _ key)) in E; [done|]. by rewrite <-forallb_Forall.
  - destruct (find _ v) as [c|] eqn:E.
    + split; [done|]. intros [(_ & Hv & _)|[-> _]]; [|done].
      apply find_None_forallb in Hv. congruence.
    + apply find_None_forallb in E. split; [intros; simplify_eq; auto|].
      intros [(_ & _ & ->)|[-> _]]; done.
Qed.

(** Every rejection wraps ErrKeyInvalid and nothing else. *)
Definition key_invalid (e : error) : Prop :=
  ∃ detail, e = Errorf_w_suffix ErrKeyInvalid detail.

Lemma decode_key_error v e : decode_key v = inr e → key_invalid e.
Proof. unfold decode_key, key_invalid. intros H. repeat case_match; simplify_eq; by eexists. Qed.

Lemma ParseKey_spec value key :
  ParseKey value = inl key ↔
  1 ≤ length key ≤ 255 ∧
  (raw_key (Trim ows value) key ∨ quoted_key (Trim ows value) key).
Proof.
  rewrite <-decode_key_spec. unfold ParseKey. case_bool_decide as Hv.
  - rewrite Hv. split; [done|]. simpl. intros [? [= <-]]. simpl in *. lia.
  - destruct (decode_key _) as [k|e]; [|naive_solver].
    destruct (bool_decide (length k = 0) || bool_decide (255 < length k)) eqn:E.
    + split; [done|]. intros [? [= <-]]. rewrite orb_true_iff, !bool_decide_eq_true in E. lia.
    + rewrite orb_false_iff, !bool_decide_eq_false in E.
      split; [intros [= <-]; split; [lia|done]|by intros [_ [= <-]]].
Qed.

Lemma ParseKey_error value e : ParseKey value = inr e → key_invalid e.
Proof.
  unfold ParseKey. intros H. case_bool_decide; [simplify_eq; by eexists|].
  destruct (decode_key _) eqn:E; [|simplify_eq; by eapply decode_key_error].
  case_match; simplify_eq; by eexists.
Qed.

Lemma key_invalid_Is e : key_invalid e → Is e ErrKeyInvalid = true ∧ Is e ErrKeyMissing = false.
Proof. by intros [d ->]. Qed.

(** No byte of a parsed key is a control character. *)
Lemma ParseKey_no_control value key :
  ParseKey value = inl key → forallb (λ c, negb (is_control c)) key = true.
Proof.
  intros [_ [(_ & H & ->)|[_ H]]]%ParseKey_spec; [done|].
  rewrite forallb_Forall in *. eapply Forall_impl; [exact H|]. clear. intros c. by destruct c.
Qed.

Lemma no_control_nul key : forallb (λ c, negb (is_control c)) key = true → x00 ∉ key.
Proof.
  rewrite forallb_Forall, Forall_forall. intros H Hin. by specialize (H _ Hin).
Qed.

Lemma storeKey_inj s1 s2 k1 k2 :
  x00 ∉ k1 → x00 ∉ k2 → storeKey s1 k1 = storeKey s2 k2 → s1 = s2 ∧ k1 = k2.
Proof.
  unfold storeKey. intros H1 H2. do 2 case_bool_decide; subst.
  - done.
  - intros ->. exfalso. apply H1. set_solver.
  - intros <-. exfalso. apply H2. set_solver.
  - by apply app_sep_inj.
Qed.

(** ** Claims *)

(** C37. The grammar of ParseKey, exactly: a key is accepted when the value,
    trimmed of spaces and tabs, either does not start with a double quote,
    contains no control character and is the key itself, or is the RFC 8941
    String that quotes the key, whose bytes are printable ASCII; in both
    cases the key has 1 to 255 bytes.  Everything else is rejected, and
    every rejection wraps ErrKeyInvalid. *)
Theorem ParseKey_grammar (value : bytes) :
  (∀ key, ParseKey value = inl key ↔
     1 ≤ length key ≤ 255 ∧
     let v := Trim ows value in
     (head v ≠ Some x22 ∧ forallb (λ c, negb (is_control c)) v = true ∧ key = v) ∨
     (v = sf_quote key ∧ forallb sf_char key = true)) ∧
  (∀ e, ParseKey value = inr e → Is e ErrKeyInvalid = true ∧ Is e ErrKeyMissing = false).
Proof.
  split; [apply ParseKey_spec|]. intros e ?%ParseKey_error. by apply key_invalid_Is.
Qed.

(** The raw and the quoted form of a printable key name the same key,
    with any spaces and tabs around either. *)
Theorem raw_and_quoted_agree (k pad pad' : bytes) :
  1 ≤ length k ≤ 255 → forallb sf_char k = true →
  Forall (λ c, ows c = true) pad → Forall (λ c, ows c = true) pad' →
  ParseKey (pad ++ sf_quote k ++ pad') = inl k ∧
  ((∀ c, head k = Some c → c ≠ x22 ∧ ows c = false) →
   (∀ c, last k = Some c → ows c = false) →
   ParseKey (pad ++ k ++ pad') = inl k).
Proof.
  intros Hlen Hk Hp Hp'. split.
  - apply ParseKey_spec. split; [done|]. right. unfold quoted_key. split; [|done].
    apply Trim_pad; [done..|by exists x22|]. unfold sf_quote. intros c.
    rewrite app_comm_cons, last_snoc. by intros [= <-].
  - intros Hh Hl. apply ParseKey_spec. split; [done|]. left.
    destruct k as [|c k]; [simpl in *; lia|]. destruct (Hh c eq_refl) as [Hc Hows].
    unfold raw_key. rewrite Trim_pad by naive_solver. split; [naive_solver|]. split; [|done].
    rewrite forallb_Forall in *. eapply Forall_impl; [exact Hk|]. clear. by intros [].
Qed.

Lemma raw_and_quoted_agree_witness :
  ParseKey (bs "  " ++ sf_quote (bs "abc")) = inl (bs "abc") ∧ ParseKey (bs " abc ") = inl (bs "abc").
Proof.
  destruct (raw_and_quoted_agree (bs "abc") (bs "  ") []) as [Hq _];
    [simpl; lia|reflexivity|repeat constructor..|].
  destruct (raw_and_quoted_agree (bs "abc") (bs " ") (bs " ")) as [_ Hr];
    [simpl; lia|reflexivity|repeat constructor..|].
  split; [exact Hq|]. apply Hr; simpl; intros c [= <-]; done.
Defined.

(** What KeyFromHeader answers: ErrKeyMissing exactly when the header
    is absent; the parsed key of the only value; and for several values or
    a malformed one an error that wraps ErrKeyInvalid. *)
Theorem KeyFromHeader_outcomes (h : header) :
  match KeyFromHeader h, Header.Values h HeaderIdempotencyKey with
  | inl key, vs => ∃ v, vs = [v] ∧ ParseKey v = inl key ∧ 1 ≤ length key ≤ 255 ∧ x00 ∉ key
  | inr e, [] => e = errSentinel ErrKeyMissing
  | inr e, _ => Is e ErrKeyInvalid = true ∧ Is e ErrKeyMissing = false
  end.
Proof.
  unfold KeyFromHeader. destruct (Header.Values _ _) as [|v [|v' vs]]; [done| |].
  - destruct (ParseKey v) as [key|e] eqn:E.
    + exists v. split; [done|]. split; [done|]. split.
      * by apply ParseKey_spec in E as [? _].
      * by eapply no_control_nul, ParseKey_no_control.
    + by eapply key_invalid_Is, ParseKey_error.
  - apply key_invalid_Is. by eexists.
Qed.

(** C38. Store keys of parsed keys never collide: the composition of a scope
    and a key determines both, whatever bytes the scope contains, so callers
    under different scopes, and scoped and unscoped ones, stay apart. *)
Theorem storeKey_injective (v1 v2 k1 k2 s1 s2 : bytes) :
  ParseKey v1 = inl k1 → ParseKey v2 = inl k2 →
  storeKey s1 k1 = storeKey s2 k2 → s1 = s2 ∧ k1 = k2.
Proof. intros H1 H2. apply storeKey_inj; by eapply no_control_nul, ParseKey_no_control. Qed.

Lemma storeKey_injective_witness :
  storeKey (bs "tenant") (bs "k") = storeKey (bs "tenant") (bs "k") ∧
  (bs "tenant") = (bs "tenant") ∧ bs "k" = bs "k".
Proof.
  split; [reflexivity|].
  apply (storeKey_injective (bs " k") (sf_quote (bs "k"))); reflexivity.
Defined.
