(* ===== verification/Sha256.v ===== *)
(** * SHA-256 (crypto/sha256)

    The FIPS 180-4 hash as an executable function, with test vectors. *)
From S2P Require Import Prelude GoLib.

Module sha256.

Definition w32 (z : Z) : Z := (z `mod` 4294967296)%Z.
Definition rotr (x n : Z) : Z := Z.lor (Z.shiftr x n) (w32 (Z.shiftl x (32 - n))).
Definition not32 (x : Z) : Z := (4294967295 - x)%Z.

Definition Ch (x y z : Z) : Z := Z.lxor (Z.land x y) (Z.land (not32 x) z).
Definition Maj (x y z : Z) : Z := Z.lxor (Z.lxor (Z.land x y) (Z.land x z)) (Z.land y z).
Definition Sigma0 (x : Z) : Z := Z.lxor (Z.lxor (rotr x 2) (rotr x 13)) (rotr x 22).
Definition Sigma1 (x : Z) : Z := Z.lxor (Z.lxor (rotr x 6) (rotr x 11)) (rotr x 25).
Definition sigma0 (x : Z) : Z := Z.lxor (Z.lxor (rotr x 7) (rotr x 18)) (Z.shiftr x 3).
Definition sigma1 (x : Z) : Z := Z.lxor (Z.lxor (rotr x 17) (rotr x 19)) (Z.shiftr x 10).

(** The constants are the first 32 bits of the fractional parts of the cube
    roots, respectively square roots, of the first primes. *)
Fixpoint cbrt_bits (n : nat) (x r : Z) : Z :=
  match n with
  | O => r
  | S n =>
      let r' := (r + 2 ^ Z.of_nat n)%Z in
      cbrt_bits n x (if (r' * r' * r' <=? x)%Z then r' else r)
  end.
Definition cbrt_frac (p : Z) : Z := w32 (cbrt_bits 40 (p * 2 ^ 96) 0).
Definition sqrt_frac (p : Z) : Z := w32 (Z.sqrt (p * 2 ^ 64)).

Definition is_prime (n : nat) : bool :=
  forallb (λ d, negb (n mod d =? 0)) (seq 2 (n - 2)).
Definition primes : list Z := Z.of_nat <$> List.filter is_prime (seq 2 310).

Definition K : list Z := Eval vm_compute in cbrt_frac <$> primes.

Record digest := mkDigest { dA : Z; dB : Z; dC : Z; dD : Z; dE : Z; dF : Z; dG : Z; dH : Z }.

Definition init : digest :=
  Eval vm_compute in
  match sqrt_frac <$> primes with
  | a :: b :: c :: d :: e :: f :: g :: h :: _ => mkDigest a b c d e f g h
  | _ => mkDigest 0 0 0 0 0 0 0 0
  end.

(** One round with the round constant [k] and the schedule word [w]. *)
Definition round (d : digest) (k w : Z) : digest :=
  let '(mkDigest a b c d e f g h) := d in
  let t1 := (h + Sigma1 e + Ch e f g + k + w)%Z in
  let t2 := (Sigma0 a + Maj a b c)%Z in
  mkDigest (w32 (t1 + t2)) a b c (w32 (d + t1)) e f g.

(** The rounds of a block; [ws] holds the next sixteen schedule words. *)
Fixpoint rounds (ks ws : list Z) (d : digest) : digest :=
  match ks with
  | [] => d
  | k :: ks =>
      let w n := nth n ws 0%Z in
      let new := w32 (sigma1 (w 14%nat) + w 9%nat + sigma0 (w 1%nat) + w 0%nat)%Z in
      rounds ks (tail ws ++ [new]) (round d k (w 0%nat))
  end.

Definition add_digest (x y : digest) : digest :=
  mkDigest (w32 (dA x + dA y)) (w32 (dB x + dB y)) (w32 (dC x + dC y)) (w32 (dD x + dD y))
           (w32 (dE x + dE y)) (w32 (dF x + dF y)) (w32 (dG x + dG y)) (w32 (dH x + dH y)).

(** Big-endian words. *)
Fixpoint words (l : bytes) : list Z :=
  match l with
  | a :: b :: c :: d :: l =>
      (((byte_Z a * 256 + byte_Z b) * 256 + byte_Z c) * 256 + byte_Z d)%Z :: words l
  | _ => []
  end.

Definition word_bytes (w : Z) : bytes :=
  [Z_byte (Z.shiftr w 24); Z_byte (Z.shiftr w 16); Z_byte (Z.shiftr w 8); Z_byte w].

Definition pad (l : bytes) : bytes :=
  let n := Z.of_nat (length l) in
  l ++ x80 :: replicate (Z.to_nat ((55 - n) `mod` 64)) x00 ++
    word_bytes (Z.shiftr (8 * n) 32) ++ word_bytes (8 * n).

(** The blocks of a padded message, [n] of them. *)
Fixpoint blocks (n : nat) (ws : list Z) (d : digest) : digest :=
  match n with
  | O => d
  | S n => blocks n (drop 16 ws) (add_digest d (rounds K (take 16 ws) d))
  end.

Definition digest_bytes (d : digest) : bytes :=
  word_bytes (dA d) ++ word_bytes (dB d) ++ word_bytes (dC d) ++ word_bytes (dD d) ++
  word_bytes (dE d) ++ word_bytes (dF d) ++ word_bytes (dG d) ++ word_bytes (dH d).

Definition Sum256 (l : bytes) : bytes :=
  let ws := words (pad l) in
  digest_bytes (blocks (length ws / 16) ws init).

Example K_length : length K = 64.
Proof. reflexivity. Qed.

Lemma Sum256_length l : length (Sum256 l) = 32.
Proof. done. Qed.

Example vector_empty :
  EncodeToString (Sum256 []) =
  bs "e3b0c44298fc1c149afbf4c8996fb92427ae41e4649b934ca495991b7852b855".
Proof. vm_compute. reflexivity. Qed.
Example vector_abc :
  EncodeToString (Sum256 (bs "abc")) =
  bs "ba7816bf8f01cfea414140de5dae2223b00361a396177a9cb410ff61f20015ad".
Proof. vm_compute. reflexivity. Qed.
Example vector_two_blocks :
  EncodeToString (Sum256 (bs "abcdbcdecdefdefgefghfghighijhijkijkljklmklmnlmnomnopnopq")) =
  bs "248d6a61d20638b8e5c026930c3e6039a33ce45964ff2167f6ecedd419db06c1".
Proof. vm_compute. reflexivity. Qed.

End sha256.
