(* ===== verification/Fingerprint.v ===== *)
(** * Request fingerprints (httpidem/fingerprint.go)

    The hash of method, escaped path, query and body, and why two different
    requests cannot feed it the same bytes. *)
From S2P Require Import Prelude GoLib GoHttp Sha256.
Import url.

(** A running hash of [crypto/sha256] is the bytes written to it. *)
Definition Hash : Type := bytes.
Definition sha256_New : Hash := [].
Definition hash_Write (h : Hash) (p : bytes) : Hash := h ++ p.
Definition hash_Sum (h : Hash) : bytes := sha256.Sum256 h.

Definition Fingerprint (method : bytes) (u : URL) (body : bytes) : bytes :=
  let h := sha256_New in
  let h := hash_Write h (ToUpper method) in
  let h := hash_Write h [x0a] in
  let h := hash_Write h (EscapedPath u) in
  let h := hash_Write h (bs "?") in
  let h := hash_Write h (RawQuery u) in
  let h := hash_Write h [x0a] in
  let h := hash_Write h body in
  hash_Sum h.

(** The documented preimage. *)
Definition preimage (method : bytes) (u : URL) (body : bytes) : bytes :=
  ToUpper method ++ x0a :: EscapedPath u ++ "?"%byte :: RawQuery u ++ x0a :: body.

Lemma Fingerprint_preimage method u body :
  Fingerprint method u body = sha256.Sum256 (preimage method u body).
Proof.
  unfold Fingerprint, hash_Sum, hash_Write, sha256_New, preimage. f_equal.
  by rewrite <-!app_assoc.
Qed.

Lemma ToUpper_newline m : x0a ∈ ToUpper m → x0a ∈ m.
Proof.
  unfold ToUpper. rewrite list_elem_of_In, in_map_iff. intros (c & Hc & Hin).
  rewrite list_elem_of_In. assert (c = x0a) as <-; [|done]. revert Hc. clear. by destruct c.
Qed.

Lemma EscapedPath_no u c : path_byte c = false → c ∉ EscapedPath u.
Proof.
  intros Hc Hin. pose proof (EscapedPath_path u) as H. rewrite forallb_Forall, Forall_forall in H.
  apply H in Hin. congruence.
Qed.

(** C39. The fingerprint is the SHA-256 digest of UPPER(method) "\n"
    EscapedPath "?" RawQuery "\n" body, and two requests whose method and
    query contain no newline feed it the same bytes only when they agree on
    the method (up to case), the escaped path, the query and the body.  So
    two requests told apart by none of these and yet fingerprinted alike
    would be a SHA-256 collision. *)
Theorem Fingerprint_injective (m1 m2 : bytes) (u1 u2 : URL) (b1 b2 : bytes) :
  x0a ∉ m1 → x0a ∉ m2 → x0a ∉ RawQuery u1 → x0a ∉ RawQuery u2 →
  Fingerprint m1 u1 b1 = Fingerprint m2 u2 b2 →
  (ToUpper m1 = ToUpper m2 ∧ EscapedPath u1 = EscapedPath u2 ∧
   RawQuery u1 = RawQuery u2 ∧ b1 = b2) ∨
  (preimage m1 u1 b1 ≠ preimage m2 u2 b2 ∧
   sha256.Sum256 (preimage m1 u1 b1) = sha256.Sum256 (preimage m2 u2 b2)).
Proof.
  intros Hm1 Hm2 Hq1 Hq2 Hf. rewrite !Fingerprint_preimage in Hf.
  destruct (decide (preimage m1 u1 b1 = preimage m2 u2 b2)) as [Heq|]; [left|by right].
  unfold preimage in Heq.
  apply sep_inj in Heq as [Hm Heq]; [|by intros ?%ToUpper_newline..].
  apply sep_inj in Heq as [Hp Heq]; [|by apply EscapedPath_no..].
  by apply sep_inj in Heq as [Hq Hb].
Qed.

Lemma Fingerprint_injective_witness :
  (ToUpper (bs "post") = ToUpper (bs "POST") ∧ EscapedPath (mkURL (bs "/a b") [] (bs "x=1")) =
     EscapedPath (mkURL (bs "/a b") (bs "/a%20b") (bs "x=1")) ∧
   bs "x=1" = bs "x=1" ∧ bs "{}" = bs "{}") ∨
  (preimage (bs "post") (mkURL (bs "/a b") [] (bs "x=1")) (bs "{}") ≠
     preimage (bs "POST") (mkURL (bs "/a b") (bs "/a%20b") (bs "x=1")) (bs "{}") ∧
   sha256.Sum256 (preimage (bs "post") (mkURL (bs "/a b") [] (bs "x=1")) (bs "{}")) =
     sha256.Sum256 (preimage (bs "POST") (mkURL (bs "/a b") (bs "/a%20b") (bs "x=1")) (bs "{}"))).
Proof.
  apply (Fingerprint_injective (bs "post") (bs "POST") (mkURL (bs "/a b") [] (bs "x=1"))
    (mkURL (bs "/a b") (bs "/a%20b") (bs "x=1")) (bs "{}") (bs "{}")).
  1-4: by apply (bool_decide_unpack _).
  vm_compute. reflexivity.
Defined.
