(* ===== verification/Varint.v ===== *)
(** * Unsigned varints (encoding/binary)

    [binary.AppendUvarint] and [binary.Uvarint] on 64-bit values, and that
    the second reads back what the first wrote. *)
From S2P Require Import Prelude GoLib.

Definition MaxVarintLen64 : nat := 10.

(** The loop of AppendUvarint; a 64-bit value needs at most ten bytes. *)
Fixpoint put_uvarint (fuel : nat) (x : Z) : bytes :=
  match fuel with
  | O => []
  | S fuel =>
      if (128 <=? x)%Z
      then Z_byte (Z.lor x 128) :: put_uvarint fuel (Z.shiftr x 7)
      else [Z_byte x]
  end.

Definition AppendUvarint (buf : bytes) (x : Z) : bytes := buf ++ put_uvarint MaxVarintLen64 x.

(** The loop of Uvarint at index [i], with the accumulator [x] and the
    shift [s]; the second component is the number of bytes read, 0 when the
    buffer is too small and negative on overflow. *)
Fixpoint uvarint_loop (buf : bytes) (i : nat) (x s : Z) : Z * Z :=
  match buf with
  | [] => (0, 0)%Z
  | b :: buf =>
      if bool_decide (i = MaxVarintLen64) then (0, - (Z.of_nat i + 1))%Z
      else if (byte_Z b <? 128)%Z then
        if bool_decide (i = MaxVarintLen64 - 1) && (1 <? byte_Z b)%Z
        then (0, - (Z.of_nat i + 1))%Z
        else (Z.lor x (u64 (Z.shiftl (byte_Z b) s)), Z.of_nat i + 1)%Z
      else
        uvarint_loop buf (S i) (Z.lor x (u64 (Z.shiftl (Z.land (byte_Z b) 127) s))) (s + 7)%Z
  end.

Definition Uvarint (buf : bytes) : Z * Z := uvarint_loop buf 0 0%Z 0%Z.

Definition is_u64 (z : Z) : Prop := (0 ≤ z < two64)%Z.

(** ** Arithmetic of the loop *)

Lemma lor_shiftl_add x b s :
  (0 ≤ s)%Z → (0 ≤ x < 2 ^ s)%Z → (0 ≤ b)%Z → Z.lor x (Z.shiftl b s) = (x + b * 2 ^ s)%Z.
Proof.
  intros Hs Hx Hb. rewrite <-Z.shiftl_mul_pow2 by done. pose proof (Z.add_lor_land x (Z.shiftl b s)) as Hl.
  assert (Z.land x (Z.shiftl b s) = 0)%Z as H0; [|lia].
  apply Z.bits_inj'. intros n Hn. rewrite Z.land_spec, Z.bits_0.
  destruct (Z.lt_ge_cases n s).
  - rewrite Z.shiftl_spec_low by done. apply andb_false_r.
  - destruct (decide (x = 0%Z)) as [->|]; [by rewrite Z.bits_0|].
    rewrite Z.bits_above_log2; [done|lia|].
    apply Z.lt_le_trans with s; [|done]. apply Z.log2_lt_pow2; lia.
Qed.

Lemma low_byte x : (0 ≤ x)%Z → Z.land (byte_Z (Z_byte (Z.lor x 128))) 127 = (x mod 128)%Z.
Proof.
  intros Hx. rewrite byte_Z_byte. change 256%Z with (2 ^ 8)%Z.
  rewrite <-Z.land_ones by done. change 127%Z with (Z.ones 7).
  change 128%Z with (2 ^ 7)%Z at 2. rewrite <-(Z.land_ones x 7) by done.
  apply Z.bits_inj'. intros n Hn.
  rewrite !Z.land_spec, Z.lor_spec, !Z.testbit_ones_nonneg by lia.
  change 128%Z with (2 ^ 7)%Z. rewrite Z.pow2_bits_eqb by done.
  destruct (Z.ltb_spec n 7); [|by rewrite !andb_false_r].
  rewrite (proj2 (Z.ltb_lt n 8)), (proj2 (Z.eqb_neq 7 n)) by lia.
  by rewrite orb_false_r, !andb_true_r.
Qed.

Lemma high_bit x : (0 ≤ x)%Z → (byte_Z (Z_byte (Z.lor x 128)) <? 128)%Z = false.
Proof.
  intros Hx. rewrite byte_Z_byte. apply Z.ltb_ge.
  assert (Z.testbit (Z.lor x 128 `mod` 2 ^ 8) 7 = true) as Hb.
  { rewrite <-Z.land_ones by done. rewrite Z.land_spec, Z.lor_spec. by rewrite orb_true_r. }
  destruct (Z.le_gt_cases 128 (Z.lor x 128 `mod` 256)); [done|].
  pose proof (Z.mod_pos_bound (Z.lor x 128) 256 eq_refl).
  change (2 ^ 8)%Z with 256%Z in Hb.
  destruct (decide (Z.lor x 128 `mod` 256 = 0)%Z) as [E|].
  - by rewrite E in Hb.
  - rewrite Z.bits_above_log2 in Hb; [done|lia|].
    apply Z.log2_lt_pow2; [lia|]. change (2 ^ 7)%Z with 128%Z. lia.
Qed.

(** Reading back one varint from index [i], with [10 - i] bytes to go. *)
Lemma uvarint_loop_put fuel x rest i acc s :
  i + fuel = 10 → s = (7 * Z.of_nat i)%Z → (0 ≤ acc < 2 ^ s)%Z →
  (0 ≤ x)%Z → (x < 2 ^ (64 - s))%Z → 0 < fuel →
  uvarint_loop (put_uvarint fuel x ++ rest) i acc s =
    (acc + x * 2 ^ s, Z.of_nat i + Z.of_nat (length (put_uvarint fuel x)))%Z.
Proof.
  revert x i acc s. induction fuel as [|fuel IH]; intros x i acc s Hi Hs Hacc Hx Hlt Hf; [lia|].
  assert (0 ≤ s ≤ 63)%Z as Hs63 by lia.
  assert (2 ^ 64 = 2 ^ s * 2 ^ (64 - s))%Z as Hpow by (rewrite <-Z.pow_add_r; [f_equal|..]; lia).
  simpl put_uvarint. destruct (Z.leb_spec 128 x) as [Hge|Hsm]; simpl.
  - rewrite bool_decide_eq_false_2 by (unfold MaxVarintLen64; lia).
    rewrite high_bit, low_byte by done.
    pose proof (Z.mod_pos_bound x 128 eq_refl) as Hm. pose proof (Z.div_mod x 128 ltac:(done)) as Hd.
    assert (s ≤ 56)%Z as Hs56.
    { destruct (Z.le_gt_cases s 56); [done|]. exfalso.
      assert (2 ^ (64 - s) ≤ 2 ^ 7)%Z by (apply Z.pow_le_mono_r; lia).
      change (2 ^ 7)%Z with 128%Z in *. lia. }
    assert (2 ^ (s + 7) = 2 ^ s * 128)%Z as Hp7 by (rewrite Z.pow_add_r by lia; done).
    assert (0 < 2 ^ s)%Z as Hps by (apply Z.pow_pos_nonneg; lia).
    rewrite Z.shiftr_div_pow2 by done. change (2 ^ 7)%Z with 128%Z.
    assert (u64 (Z.shiftl (x mod 128) s) = Z.shiftl (x mod 128) s) as ->.
    { apply u64_small. rewrite Z.shiftl_mul_pow2 by lia. unfold two64.
      change 18446744073709551616%Z with (2 ^ 64)%Z. rewrite Hpow.
      pose proof (Z.mod_le x 128 Hx ltac:(done)). split; [nia|].
      rewrite (Z.mul_comm (2 ^ s)). apply Z.mul_lt_mono_pos_r; lia. }
    rewrite lor_shiftl_add by lia.
    assert (2 ^ (64 - s) = 128 * 2 ^ (64 - (s + 7)))%Z as Hq.
    { change 128%Z with (2 ^ 7)%Z. rewrite <-Z.pow_add_r by lia. f_equal. lia. }
    assert (x / 128 < 2 ^ (64 - (s + 7)))%Z as Hdiv
      by (apply Z.div_lt_upper_bound; [lia|by rewrite <-Hq]).
    assert (0 < fuel) as Hfuel by (destruct fuel; lia).
    assert (0 ≤ x / 128)%Z by (apply Z.div_pos; lia).
    assert (0 ≤ acc + x `mod` 128 * 2 ^ s < 2 ^ (s + 7))%Z by (rewrite Hp7; nia).
    rewrite IH by lia. f_equal; [|lia]. rewrite Hp7. nia.
  - rewrite bool_decide_eq_false_2 by (unfold MaxVarintLen64; lia).
    rewrite byte_Z_byte, Z.mod_small by lia. rewrite (proj2 (Z.ltb_lt x 128)) by done.
    assert (bool_decide (i = 9) && (1 <? x)%Z = false) as ->.
    { apply andb_false_iff. case_bool_decide; [right|by left].
      apply Z.ltb_ge. subst i s. change (x < 2)%Z in Hlt. lia. }
    f_equal. rewrite u64_small.
    + rewrite lor_shiftl_add by lia. done.
    + rewrite Z.shiftl_mul_pow2 by lia. unfold two64.
      change 18446744073709551616%Z with (2 ^ 64)%Z. rewrite Hpow.
      assert (0 < 2 ^ s)%Z as Hps by (apply Z.pow_pos_nonneg; lia). nia.
Qed.

(** Ten bytes are enough, and what was written is read back whatever follows. *)
Lemma Uvarint_put x rest :
  is_u64 x →
  Uvarint (put_uvarint MaxVarintLen64 x ++ rest) =
    (x, Z.of_nat (length (put_uvarint MaxVarintLen64 x))).
Proof.
  intros [Hx Hlt]. unfold Uvarint, MaxVarintLen64.
  assert (x < 2 ^ (64 - 0))%Z as Hlt' by (change (2 ^ (64 - 0))%Z with two64; exact Hlt).
  pose proof (uvarint_loop_put 10 x rest 0 0 0 eq_refl eq_refl (conj (Z.le_refl 0) eq_refl)
    Hx Hlt' ltac:(lia)) as H.
  etrans; [exact H|]. apply (f_equal2 pair); [change (2 ^ 0)%Z with 1%Z; lia|by rewrite Z.add_0_l].
Qed.

Lemma put_uvarint_S n x : put_uvarint (S n) x ≠ [].
Proof. simpl. destruct (_ <=? _)%Z; discriminate. Qed.

Lemma put_uvarint_nonempty x : put_uvarint MaxVarintLen64 x ≠ [].
Proof. apply put_uvarint_S. Qed.

(** What Uvarint read does not depend on what follows. *)
Lemma uvarint_loop_app buf rest i x s v n :
  uvarint_loop buf i x s = (v, n) → (0 < n)%Z →
  uvarint_loop (buf ++ rest) i x s = (v, n) ∧ (Z.of_nat i < n ≤ Z.of_nat i + Z.of_nat (length buf))%Z.
Proof.
  revert i x s. induction buf as [|b buf IH]; intros i x s; simpl; [intros; simplify_eq; lia|].
  intros H Hn. repeat case_match; simplify_eq; try (split; [done|]); try lia.
  apply IH in H as [-> ?]; [|done]. split; [done|lia].
Qed.

Lemma log2_u64 z : is_u64 z → (Z.log2 z < 64)%Z.
Proof.
  intros [H0 H]. destruct (decide (z = 0)%Z) as [->|]; [done|].
  apply Z.log2_lt_pow2; [lia|exact H].
Qed.

Lemma lor_u64 y z : is_u64 y → is_u64 z → is_u64 (Z.lor y z).
Proof.
  intros Hy Hz. assert (0 ≤ Z.lor y z)%Z as H0 by (apply Z.lor_nonneg; split; [apply Hy|apply Hz]).
  split; [done|]. destruct (decide (Z.lor y z = 0)%Z) as [->|]; [done|].
  change two64 with (2 ^ 64)%Z. apply Z.log2_lt_pow2; [lia|].
  rewrite Z.log2_lor by (apply Hy || apply Hz).
  apply log2_u64 in Hy, Hz. lia.
Qed.

Lemma uvarint_loop_range buf i x s v n :
  is_u64 x → uvarint_loop buf i x s = (v, n) → is_u64 v.
Proof.
  revert i x s. induction buf as [|b buf IH]; intros i x s Hx; simpl.
  - by intros [= <- <-].
  - destruct (bool_decide _); [by intros [= <- <-]|].
    destruct (byte_Z b <? 128)%Z.
    + destruct (_ && _); intros [= <- <-]; [done|]. apply lor_u64; [done|apply u64_range].
    + apply IH. apply lor_u64; [done|apply u64_range].
Qed.

Lemma Uvarint_range buf v n : Uvarint buf = (v, n) → is_u64 v.
Proof. by apply uvarint_loop_range. Qed.
