(* ===== verification/StoredResponse.v ===== *)
(** * Stored responses (httpidem/storedresponse.go)

    The replayable subset of an HTTP response and its payload format: a
    version byte, the status, the headers in sorted order, the body. *)
From S2P Require Import Prelude GoLib GoHttp Errors Varint.

Record StoredResponse := mkStoredResponse {
  StatusCode : Z;
  sr_Header : header;
  sr_Body : bytes;
}.

#[global] Instance StoredResponse_eq_dec : EqDecision StoredResponse.
Proof. solve_decision. Defined.

Definition storedResponseVersion : byte := x01.
Definition maxHeaderNames : Z := 1024.
Definition maxHeaderValues : Z := 1024.

Definition err_version (b : byte) : error :=
  errText (bs "httpidem: unsupported stored response version 0x" ++ HEX_byte b).

(** ** Encoding *)

Definition appendString (buf s : bytes) : bytes :=
  AppendUvarint buf (Z.of_nat (length s)) ++ s.

(** Go's order on strings: bytewise lexicographic. *)
Fixpoint bytes_leb (x y : bytes) : bool :=
  match x, y with
  | [], _ => true
  | _ :: _, [] => false
  | a :: x, b :: y =>
      (byte_Z a <? byte_Z b)%Z || ((byte_Z a =? byte_Z b)%Z && bytes_leb x y)
  end.
Definition bytes_le (x y : bytes) : Prop := bytes_leb x y = true.

#[global] Instance bytes_le_dec : RelDecision bytes_le.
Proof. intros x y. unfold bytes_le. apply _. Defined.

(** [sort.Strings]. *)
Definition sort_Strings (l : list bytes) : list bytes := merge_sort bytes_le l.

(** One iteration of the loop over the names. *)
Definition append_header (h : header) (buf : bytes) (name : bytes) : bytes :=
  let buf := appendString buf name in
  let values := default [] (h !! name) in
  let buf := AppendUvarint buf (Z.of_nat (length values)) in
  foldl appendString buf values.

(** MarshalBinary when [range sr.Header] yields the names in the order
    [order]; [uint64(sr.StatusCode)] wraps. *)
Definition marshal_ranging (order : list bytes) (sr : StoredResponse) : bytes :=
  let buf := [storedResponseVersion] in
  let buf := AppendUvarint buf (u64 (StatusCode sr)) in
  let names := sort_Strings order in
  let buf := AppendUvarint buf (Z.of_nat (length names)) in
  let buf := foldl (append_header (sr_Header sr)) buf names in
  appendString buf (sr_Body sr).

(** MarshalBinary under one particular iteration order; it never fails. *)
Definition MarshalBinary (sr : StoredResponse) : bytes + error :=
  inl (marshal_ranging (map_to_list (sr_Header sr)).*1 sr).

(** ** Decoding *)

Record decoder := mkDecoder { d_buf : bytes; d_err : option error }.

Definition d_uvarint (d : decoder) : Z * decoder :=
  match d_err d with
  | Some _ => (0%Z, d)
  | None =>
      let '(v, n) := Uvarint (d_buf d) in
      if (n <=? 0)%Z then (0%Z, mkDecoder (d_buf d) (Some (errCorruptStoredResponse : error)))
      else (v, mkDecoder (drop (Z.to_nat n) (d_buf d)) None)
  end.

Definition d_bytes (d : decoder) : bytes * decoder :=
  let '(n, d) := d_uvarint d in
  match d_err d with
  | Some _ => ([], d)
  | None =>
      if (Z.of_nat (length (d_buf d)) <? n)%Z
      then ([], mkDecoder (d_buf d) (Some (errCorruptStoredResponse : error)))
      else (take (Z.to_nat n) (d_buf d), mkDecoder (drop (Z.to_nat n) (d_buf d)) None)
  end.

Definition d_string (d : decoder) : bytes * decoder := d_bytes d.

(** The loop over the values of one name. *)
Fixpoint read_values (n : nat) (name : bytes) (d : decoder) (h : header) : decoder * header :=
  match n with
  | O => (d, h)
  | S n =>
      match d_err d with
      | Some _ => (d, h)
      | None =>
          let '(v, d) := d_string d in
          read_values n name d (<[name := default [] (h !! name) ++ [v]]> h)
      end
  end.

(** The loop over the names; [None] is the early refusal. *)
Fixpoint read_names (n : nat) (d : decoder) (h : header) : option (decoder * header) :=
  match n with
  | O => Some (d, h)
  | S n =>
      match d_err d with
      | Some _ => Some (d, h)
      | None =>
          let '(name, d) := d_string d in
          let '(nValues, d) := d_uvarint d in
          if (maxHeaderValues <? nValues)%Z then None else
          let '(d, h) := read_values (Z.to_nat nValues) name d h in
          read_names n d h
      end
  end.

Definition UnmarshalBinary (data : bytes) : StoredResponse + error :=
  match data with
  | [] => inr (errCorruptStoredResponse : error)
  | v :: rest =>
      if negb (bool_decide (v = storedResponseVersion)) then inr (err_version v) else
      let d := mkDecoder rest None in
      let '(status, d) := d_uvarint d in
      let '(nNames, d) := d_uvarint d in
      if (maxHeaderNames <? nNames)%Z then inr (errCorruptStoredResponse : error) else
      match read_names (Z.to_nat nNames) d ∅ with
      | None => inr (errCorruptStoredResponse : error)
      | Some (d, header) =>
          let '(body, d) := d_bytes d in
          match d_err d with
          | Some err => inr err
          | None =>
              if negb (bool_decide (d_buf d = [])) then inr (errCorruptStoredResponse : error)
              else inl (mkStoredResponse (i64 status) header body)
          end
      end
  end.

(** ** The encoding as a concatenation *)

Definition enc_string (s : bytes) : bytes :=
  put_uvarint MaxVarintLen64 (Z.of_nat (length s)) ++ s.
Definition enc_strings (l : list bytes) : bytes := l ≫= enc_string.
Definition enc_header (h : header) (name : bytes) : bytes :=
  let vs := default [] (h !! name) in
  enc_string name ++ put_uvarint MaxVarintLen64 (Z.of_nat (length vs)) ++ enc_strings vs.

Lemma appendString_enc buf s : appendString buf s = buf ++ enc_string s.
Proof. unfold appendString, AppendUvarint, enc_string. by rewrite app_assoc. Qed.

Lemma foldl_append {A} (f : bytes → A → bytes) (g : A → bytes) buf l :
  (∀ b x, f b x = b ++ g x) → foldl f buf l = buf ++ (l ≫= g).
Proof.
  intros Hf. revert buf. induction l as [|x l IH]; intros buf; simpl.
  - by rewrite app_nil_r.
  - rewrite IH, Hf, app_assoc. done.
Qed.

Lemma append_header_enc h buf name : append_header h buf name = buf ++ enc_header h name.
Proof.
  unfold append_header, enc_header, enc_strings, AppendUvarint.
  rewrite (foldl_append _ enc_string) by apply appendString_enc.
  by rewrite appendString_enc, <-!app_assoc.
Qed.

Lemma marshal_enc order sr :
  marshal_ranging order sr =
  storedResponseVersion :: put_uvarint MaxVarintLen64 (u64 (StatusCode sr)) ++
  put_uvarint MaxVarintLen64 (Z.of_nat (length (sort_Strings order))) ++
  (sort_Strings order ≫= enc_header (sr_Header sr)) ++ enc_string (sr_Body sr).
Proof.
  unfold marshal_ranging, AppendUvarint.
  rewrite appendString_enc, (foldl_append _ (enc_header (sr_Header sr))) by apply append_header_enc.
  rewrite <-!app_assoc. done.
Qed.

(** ** Sorting *)

#[global] Instance bytes_le_total : Total bytes_le.
Proof.
  intros x. unfold bytes_le. induction x as [|a x IH]; intros [|b y]; simpl; try by (left + right).
  rewrite !orb_true_iff, !andb_true_iff, !Z.ltb_lt, !Z.eqb_eq.
  destruct (IH y); destruct (Z.lt_total (byte_Z a) (byte_Z b)) as [|[|]]; auto.
Qed.

#[global] Instance bytes_le_trans : Transitive bytes_le.
Proof.
  intros x. unfold bytes_le.
  induction x as [|a x IH]; intros [|b y] [|c z]; simpl; try done.
  rewrite !orb_true_iff, !andb_true_iff, !Z.ltb_lt, !Z.eqb_eq.
  intros [?|[? Hx]] [?|[? Hy]]; [left; lia..|right; split; [lia|exact (IH _ _ Hx Hy)]].
Qed.

#[global] Instance bytes_le_antisymm : AntiSymm (=) bytes_le.
Proof.
  intros x. unfold bytes_le. induction x as [|a x IH]; intros [|b y]; simpl; try done.
  rewrite !orb_true_iff, !andb_true_iff, !Z.ltb_lt, !Z.eqb_eq.
  intros [?|[Hab Hx]] [?|[? Hy]]; [lia..|]. apply byte_Z_inj in Hab as ->. f_equal. auto.
Qed.

Lemma sort_Strings_perm l : sort_Strings l ≡ₚ l.
Proof. apply merge_sort_Permutation. Qed.

Lemma sort_Strings_unique l1 l2 : l1 ≡ₚ l2 → sort_Strings l1 = sort_Strings l2.
Proof.
  intros H. unfold sort_Strings.
  apply (StronglySorted_unique bytes_le); [by apply StronglySorted_merge_sort; apply _..|].
  by rewrite !merge_sort_Permutation.
Qed.

(** ** Reading back *)

Definition fits (l : bytes) : Prop := (Z.of_nat (length l) < two64)%Z.

Lemma d_uvarint_put x rest :
  is_u64 x → d_uvarint (mkDecoder (put_uvarint MaxVarintLen64 x ++ rest) None) =
    (x, mkDecoder rest None).
Proof.
  intros Hx. unfold d_uvarint. cbn [d_err d_buf]. rewrite Uvarint_put by done.
  pose proof (put_uvarint_nonempty x) as Hn.
  destruct (put_uvarint MaxVarintLen64 x) as [|b l] eqn:E; [done|]. rewrite <-E in *.
  assert (0 < length (put_uvarint MaxVarintLen64 x)) by (rewrite E; simpl; lia).
  destruct (Z.leb_spec (Z.of_nat (length (put_uvarint MaxVarintLen64 x))) 0); [lia|].
  by rewrite drop_app_exact by lia.
Qed.

Lemma d_bytes_put s rest :
  fits s → d_bytes (mkDecoder (enc_string s ++ rest) None) = (s, mkDecoder rest None).
Proof.
  intros Hs. unfold d_bytes, enc_string. rewrite <-app_assoc, d_uvarint_put by (unfold is_u64, fits in *; lia).
  cbn [d_err d_buf]. rewrite length_app.
  destruct (Z.ltb_spec (Z.of_nat (length s + length rest)) (Z.of_nat (length s))); [lia|].
  by rewrite Nat2Z.id, take_app_exact, drop_app_exact.
Qed.

(** Appending values to a name; no values leave no trace. *)
Definition add_values (name : bytes) (vs : list bytes) (h : header) : header :=
  match vs with [] => h | _ => <[name := default [] (h !! name) ++ vs]> h end.

Lemma read_values_put vs name rest h :
  Forall fits vs →
  read_values (length vs) name (mkDecoder (enc_strings vs ++ rest) None) h =
    (mkDecoder rest None, add_values name vs h).
Proof.
  intros Hvs. revert h. induction Hvs as [|v vs Hv Hvs IH]; intros h; [done|].
  cbn [length read_values d_err]. unfold d_string. change (enc_strings (v :: vs)) with (enc_string v ++ enc_strings vs).
  rewrite <-app_assoc, d_bytes_put by done. rewrite IH. f_equal.
  unfold add_values. destruct vs as [|v' vs].
  - done.
  - rewrite lookup_insert_eq. simpl. rewrite insert_insert_eq, <-app_assoc. done.
Qed.

(** The header limits of the decoder. *)
Definition header_ok (h : header) : Prop :=
  map_Forall (λ name vs, fits name ∧ (Z.of_nat (length vs) ≤ maxHeaderValues)%Z ∧ Forall fits vs) h.

Lemma read_names_put (H : header) (names : list bytes) (rest : bytes) (h : header) :
  header_ok H → Forall (λ n, is_Some (H !! n)) names →
  read_names (length names) (mkDecoder ((names ≫= enc_header H) ++ rest) None) h =
    Some (mkDecoder rest None, foldl (λ h n, add_values n (default [] (H !! n)) h) h names).
Proof.
  intros HH Hn. revert h. induction Hn as [|n names [vs Hvs] Hn IH]; intros h; [done|].
  destruct (HH _ _ Hvs) as (Hf & Hlen & Hall).
  cbn [length read_names d_err]. cbn [mbind list_bind]. unfold d_string.
  unfold enc_header at 1. rewrite Hvs. change (default [] (Some vs)) with vs. rewrite <-!app_assoc, d_bytes_put by done.
  rewrite d_uvarint_put by (unfold is_u64, maxHeaderValues, two64 in *; lia).
  destruct (Z.ltb_spec maxHeaderValues (Z.of_nat (length vs))); [lia|].
  rewrite Nat2Z.id, read_values_put by done.
  change (list_bind _ _ _ names) with (names ≫= enc_header H). rewrite IH.
  cbn [foldl]. by rewrite Hvs.
Qed.

Lemma foldl_add_values (H : header) (names : list bytes) (h : header) (k : bytes) :
  NoDup names →
  foldl (λ h n, add_values n (default [] (H !! n)) h) h names !! k =
  if decide (k ∈ names ∧ default [] (H !! k) ≠ [])
  then Some (default [] (h !! k) ++ default [] (H !! k)) else h !! k.
Proof.
  intros Hnd. revert h. induction Hnd as [|n names Hn Hnd IH]; intros h; cbn [foldl].
  - rewrite decide_False by set_solver. done.
  - rewrite IH. destruct (decide (k = n)) as [->|Hne].
    + rewrite decide_False by tauto. unfold add_values.
      destruct (default [] (H !! n)) as [|v vs]; [by rewrite decide_False by set_solver|].
      rewrite lookup_insert_eq, decide_True by set_solver. done.
    + assert (add_values n (default [] (H !! n)) h !! k = h !! k) as ->.
      { unfold add_values. destruct (default [] (H !! n)); [done|]. by rewrite lookup_insert_ne by congruence. }
      apply decide_ext. set_solver.
Qed.

(** What the decoder can represent: a name without values leaves no trace
    in the payload's meaning. *)
Definition drop_empty (h : header) : header := filter (λ kv, kv.2 ≠ []) h.

Definition encodable (sr : StoredResponse) : Prop :=
  is_i64 (StatusCode sr) ∧ (Z.of_nat (size (sr_Header sr)) ≤ maxHeaderNames)%Z ∧
  header_ok (sr_Header sr) ∧ fits (sr_Body sr).

(** The orders in which [range h] can yield the names of [h]. *)
Definition range_order (h : header) (order : list bytes) : Prop := order ≡ₚ (map_to_list h).*1.

Lemma range_order_elem h order k : range_order h order → k ∈ order ↔ is_Some (h !! k).
Proof.
  intros ->. rewrite list_elem_of_fmap. split.
  - intros ([k' vs] & -> & Hin). apply elem_of_map_to_list in Hin. by exists vs.
  - intros [vs Hvs]. exists (k, vs). split; [done|]. by apply elem_of_map_to_list.
Qed.

Lemma range_order_NoDup h order : range_order h order → NoDup order.
Proof. intros ->. apply NoDup_fst_map_to_list. Qed.

Lemma range_order_length h order : range_order h order → length order = size h.
Proof. intros ->. rewrite length_fmap. apply length_map_to_list. Qed.

Lemma sort_range_order h order : range_order h order → range_order h (sort_Strings order).
Proof. unfold range_order. intros <-. apply sort_Strings_perm. Qed.

Lemma add_all_values H names :
  range_order H names →
  foldl (λ h n, add_values n (default [] (H !! n)) h) ∅ names = drop_empty H.
Proof.
  intros Hn. apply map_eq. intros k.
  rewrite foldl_add_values by by eapply range_order_NoDup.
  unfold drop_empty. destruct (H !! k) as [vs|] eqn:E.
  - rewrite lookup_empty. cbn [default]. case_decide as Hd.
    + destruct Hd as [_ Hd]. symmetry. by apply map_lookup_filter_Some.
    + symmetry. apply map_lookup_filter_None. right. intros vs' Hvs' Hne. apply Hd.
      split; [by eapply range_order_elem|]. simplify_eq/=. done.
  - rewrite decide_False by naive_solver. rewrite lookup_empty. symmetry.
    apply map_lookup_filter_None. by left.
Qed.

Lemma u64_u64 z : is_u64 (u64 z).
Proof. apply u64_range. Qed.

(** Decoding what was encoded, with anything behind it. *)
Lemma unmarshal_marshal order sr rest :
  encodable sr → range_order (sr_Header sr) order →
  UnmarshalBinary (marshal_ranging order sr ++ rest) =
    if decide (rest = [])
    then inl (mkStoredResponse (StatusCode sr) (drop_empty (sr_Header sr)) (sr_Body sr))
    else inr (errCorruptStoredResponse : error).
Proof.
  intros (Hst & Hsize & Hh & Hb) Ho. rewrite marshal_enc. apply sort_range_order in Ho.
  set (names := sort_Strings order) in *. pose proof (range_order_length _ _ Ho) as Hlen.
  rewrite <-app_comm_cons, <-!app_assoc. unfold UnmarshalBinary.
  rewrite bool_decide_eq_true_2 by done. cbn [negb].
  rewrite d_uvarint_put by apply u64_u64.
  rewrite d_uvarint_put by (unfold is_u64, maxHeaderNames, two64 in *; lia).
  destruct (Z.ltb_spec maxHeaderNames (Z.of_nat (length names))); [lia|].
  rewrite Nat2Z.id, read_names_put; [|done|].
  - rewrite add_all_values, d_bytes_put by done. cbn [d_err d_buf].
    rewrite i64_u64 by done. destruct (decide (rest = [])) as [->|]; [done|].
    by rewrite bool_decide_eq_false_2.
  - apply Forall_forall. intros k. by apply range_order_elem.
Qed.

(** ** The decoder reads a prefix and leaves the rest alone *)

Lemma d_uvarint_app p x v r :
  d_uvarint (mkDecoder p None) = (v, mkDecoder r None) →
  d_uvarint (mkDecoder (p ++ x) None) = (v, mkDecoder (r ++ x) None).
Proof.
  unfold d_uvarint. cbn [d_err d_buf]. destruct (Uvarint p) as [w n] eqn:E.
  destruct (Z.leb_spec n 0) as [|Hn]; [done|]. intros [= -> <-].
  unfold Uvarint in *. destruct (uvarint_loop_app _ x _ _ _ _ _ E Hn) as [-> Hle].
  destruct (Z.leb_spec n 0); [lia|]. rewrite drop_app_le by lia. done.
Qed.

Lemma d_bytes_app p x v r :
  d_bytes (mkDecoder p None) = (v, mkDecoder r None) →
  d_bytes (mkDecoder (p ++ x) None) = (v, mkDecoder (r ++ x) None).
Proof.
  unfold d_bytes. destruct (d_uvarint (mkDecoder p None)) as [n [b [e|]]] eqn:E; cbn [d_err d_buf]; [done|].
  rewrite (d_uvarint_app _ x _ _ E). cbn [d_err d_buf]. rewrite length_app.
  destruct (Z.ltb_spec (Z.of_nat (length b)) n) as [|Hn]; [done|]. intros [= <- <-].
  destruct (Z.ltb_spec (Z.of_nat (length b + length x)) n); [lia|].
  rewrite take_app_le, drop_app_le by lia. done.
Qed.

(** The first error is latched. *)
Lemma d_uvarint_err d v d' : d_uvarint d = (v, d') → d_err d' = None → d_err d = None.
Proof. unfold d_uvarint. destruct (d_err d) eqn:E; [intros [= <- <-]; congruence|done]. Qed.

Lemma d_bytes_err d v d' : d_bytes d = (v, d') → d_err d' = None → d_err d = None.
Proof.
  unfold d_bytes. destruct (d_uvarint d) as [n d1] eqn:E. intros H He.
  eapply d_uvarint_err; [done|]. destruct (d_err d1) eqn:E1; [|done]. injection H as <- <-. congruence.
Qed.

Lemma read_values_err n name d h d' h' :
  read_values n name d h = (d', h') → d_err d' = None → d_err d = None.
Proof.
  revert d h. induction n as [|n IH]; intros d h; simpl; [by intros [= <- <-]|].
  destruct (d_err d) eqn:E; [|done]. intros [= <- <-]. congruence.
Qed.

Lemma read_names_err n d h d' h' :
  read_names n d h = Some (d', h') → d_err d' = None → d_err d = None.
Proof.
  destruct n; simpl; [by intros [= <- <-]|]. destruct (d_err d) eqn:E; [|done].
  intros [= <- <-]. congruence.
Qed.

Lemma decoder_ok (d : decoder) : d_err d = None → d = mkDecoder (d_buf d) None.
Proof. destruct d. simpl. by intros ->. Qed.

Lemma read_values_app n name p x h r h' :
  read_values n name (mkDecoder p None) h = (mkDecoder r None, h') →
  read_values n name (mkDecoder (p ++ x) None) h = (mkDecoder (r ++ x) None, h').
Proof.
  revert p h. induction n as [|n IH]; intros p h; simpl; [by intros [= -> ->]|].
  unfold d_string. destruct (d_bytes (mkDecoder p None)) as [v d] eqn:E. intros H.
  pose proof (read_values_err _ _ _ _ _ _ H eq_refl) as He. apply decoder_ok in He.
  rewrite He in H, E. rewrite (d_bytes_app _ x _ _ E). by apply IH.
Qed.

Lemma read_names_app n p x h r h' :
  read_names n (mkDecoder p None) h = Some (mkDecoder r None, h') →
  read_names n (mkDecoder (p ++ x) None) h = Some (mkDecoder (r ++ x) None, h').
Proof.
  revert p h. induction n as [|n IH]; intros p h; simpl; [by intros [= -> ->]|].
  unfold d_string. destruct (d_bytes (mkDecoder p None)) as [name d] eqn:E.
  destruct (d_uvarint d) as [nv d1] eqn:E1.
  destruct (maxHeaderValues <? nv)%Z eqn:Hl; [done|].
  destruct (read_values _ _ _ _) as [d2 h2] eqn:E2. intros H.
  pose proof (read_names_err _ _ _ _ _ H eq_refl) as H2.
  pose proof (read_values_err _ _ _ _ _ _ E2 H2) as H1.
  pose proof (d_uvarint_err _ _ _ E1 H1) as H0.
  apply decoder_ok in H0, H1, H2. rewrite H0 in E, E1. rewrite H1 in E1, E2. rewrite H2 in E2, H.
  rewrite (d_bytes_app _ x _ _ E), (d_uvarint_app _ x _ _ E1), Hl.
  rewrite (read_values_app _ _ _ x _ _ _ E2). by apply IH.
Qed.

Lemma unmarshal_app data x sr :
  UnmarshalBinary data = inl sr → x ≠ [] →
  UnmarshalBinary (data ++ x) = inr (errCorruptStoredResponse : error).
Proof.
  intros H Hx. destruct data as [|v p]; [done|]. rewrite <-app_comm_cons. unfold UnmarshalBinary in *.
  destruct (negb _); [done|].
  destruct (d_uvarint (mkDecoder p None)) as [st d1] eqn:E1.
  destruct (d_uvarint d1) as [nn d2] eqn:E2. destruct (maxHeaderNames <? nn)%Z eqn:Hl; [done|].
  destruct (read_names _ _ _) as [[d3 h]|] eqn:E3; [|done].
  destruct (d_bytes d3) as [b d4] eqn:E4. destruct (d_err d4) eqn:H4; [done|].
  pose proof (d_bytes_err _ _ _ E4 H4) as H3. pose proof (read_names_err _ _ _ _ _ E3 H3) as H2.
  pose proof (d_uvarint_err _ _ _ E2 H2) as H1.
  apply decoder_ok in H1, H2, H3, H4. rewrite H1 in E1, E2. rewrite H2 in E2, E3.
  rewrite H3 in E3, E4. rewrite H4 in E4, H.
  rewrite (d_uvarint_app _ x _ _ E1), (d_uvarint_app _ x _ _ E2), Hl.
  rewrite (read_names_app _ _ x _ _ _ E3), (d_bytes_app _ x _ _ E4). cbn [d_err d_buf].
  rewrite bool_decide_eq_false_2; [done|]. destruct (d_buf d4), x; done.
Qed.

(** ** The decoder's only errors *)

Definition latched_ok (d : decoder) : Prop :=
  ∀ e, d_err d = Some e → e = (errCorruptStoredResponse : error).

Lemma d_uvarint_latched d : latched_ok d → latched_ok (d_uvarint d).2.
Proof.
  unfold d_uvarint, latched_ok. intros H. destruct (d_err d) eqn:E; [cbn; rewrite E; exact H|].
  destruct (Uvarint _) as [v n]. destruct (n <=? 0)%Z; simpl; congruence.
Qed.

Lemma d_bytes_latched d : latched_ok d → latched_ok (d_bytes d).2.
Proof.
  intros H%d_uvarint_latched. unfold d_bytes. destruct (d_uvarint d) as [n d1]. simpl in H.
  destruct (d_err d1) eqn:E; [done|]. destruct (_ <? _)%Z; unfold latched_ok; simpl; congruence.
Qed.

Lemma read_values_latched n name d h : latched_ok d → latched_ok (read_values n name d h).1.
Proof.
  revert d h. induction n as [|n IH]; intros d h H; simpl; [done|].
  destruct (d_err d); [done|]. apply d_bytes_latched in H. unfold d_string.
  destruct (d_bytes d). by apply IH.
Qed.

Lemma read_names_latched n d h d' h' :
  latched_ok d → read_names n d h = Some (d', h') → latched_ok d'.
Proof.
  revert d h. induction n as [|n IH]; intros d h H; simpl; [by intros [= <- <-]|].
  destruct (d_err d); [by intros [= <- <-]|]. apply d_bytes_latched in H. unfold d_string.
  destruct (d_bytes d) as [name d1]. apply d_uvarint_latched in H. simpl in H.
  destruct (d_uvarint d1) as [nv d2]. simpl in H. destruct (_ <? _)%Z; [done|].
  apply (read_values_latched (Z.to_nat nv) name _ h) in H.
  destruct (read_values _ _ _ _) as [d3 h3]. by apply IH.
Qed.

Lemma unmarshal_errors data e :
  UnmarshalBinary data = inr e →
  e = (errCorruptStoredResponse : error) ∨
  ∃ v rest, data = v :: rest ∧ v ≠ storedResponseVersion ∧ e = err_version v.
Proof.
  destruct data as [|v p]; simpl; [by intros [= <-]; left|].
  case_bool_decide; simpl; [|intros [= <-]; right; by exists v, p].
  assert (latched_ok (mkDecoder p None)) as H0 by done.
  apply d_uvarint_latched in H0. destruct (d_uvarint (mkDecoder p None)) as [st d1].
  apply d_uvarint_latched in H0. simpl in H0. destruct (d_uvarint d1) as [nn d2]. simpl in H0.
  destruct (_ <? _)%Z; [by intros [= <-]; left|].
  destruct (read_names _ _ _) as [[d3 h]|] eqn:E; [|by intros [= <-]; left].
  apply read_names_latched in E; [|done]. apply d_bytes_latched in E.
  destruct (d_bytes d3) as [b d4]. simpl in E. destruct (d_err d4) eqn:E4.
  - intros [= <-]. left. by apply E.
  - case_bool_decide; simpl; [done|]. intros [= <-]. by left.
Qed.

(** ** Claims *)

(** C33. The payload format round-trips.  Whatever order the header map is
    ranged in, decoding the encoding of a response whose status is an int
    and which keeps to the decoder's limits (1024 names, 1024 values a
    name) gives back the status, the body and the headers - all of them
    when every name has a value, as captured headers do; a name without
    values is dropped. *)
Theorem StoredResponse_roundtrip (order : list bytes) (sr : StoredResponse) :
  encodable sr → range_order (sr_Header sr) order →
  UnmarshalBinary (marshal_ranging order sr) =
    inl (mkStoredResponse (StatusCode sr) (drop_empty (sr_Header sr)) (sr_Body sr)) ∧
  (map_Forall (λ _ vs, vs ≠ []) (sr_Header sr) →
   UnmarshalBinary (marshal_ranging order sr) = inl sr).
Proof.
  intros He Ho. pose proof (unmarshal_marshal order sr [] He Ho) as H.
  rewrite app_nil_r, decide_True in H by done. rewrite H. split; [done|].
  intros Hne. unfold drop_empty. rewrite map_filter_id; [by destruct sr|].
  intros k vs Hk. exact (Hne k vs Hk).
Qed.

(** MarshalBinary is deterministic although Go ranges over maps in a
    random order: every order of the names yields the same payload. *)
Theorem MarshalBinary_deterministic (o1 o2 : list bytes) (sr : StoredResponse) :
  range_order (sr_Header sr) o1 → range_order (sr_Header sr) o2 →
  marshal_ranging o1 sr = marshal_ranging o2 sr ∧
  MarshalBinary sr = inl (marshal_ranging o1 sr).
Proof.
  intros H1 H2. unfold MarshalBinary. rewrite !marshal_enc.
  rewrite (sort_Strings_unique o2 o1), (sort_Strings_unique (map_to_list _).*1 o1); [done|..].
  - by symmetry.
  - by rewrite H1, H2.
Qed.

(** C35. The decoder accepts no payload with anything missing or anything
    left over: when it accepts [data] it refuses every proper extension of
    it as corrupted, and every proper prefix with an error.  Its errors are
    exactly corruption and an unsupported version byte. *)
Theorem UnmarshalBinary_strict (data : bytes) (sr : StoredResponse) :
  UnmarshalBinary data = inl sr →
  (∀ x, x ≠ [] → UnmarshalBinary (data ++ x) = inr (errSentinel errCorruptStoredResponse)) ∧
  (∀ p x, data = p ++ x → x ≠ [] → ∃ e, UnmarshalBinary p = inr e ∧
     (e = errSentinel errCorruptStoredResponse ∨
      ∃ v rest, p = v :: rest ∧ v ≠ storedResponseVersion ∧ e = err_version v)).
Proof.
  intros H. split; [intros x Hx; by apply (unmarshal_app data x sr)|].
  intros p x -> Hx. destruct (UnmarshalBinary p) as [sr'|e] eqn:E.
  - rewrite (unmarshal_app _ _ _ E Hx) in H. done.
  - exists e. split; [done|]. by apply unmarshal_errors.
Qed.

Module ExampleStored.

Definition hdr : header :=
  <[bs "Content-Type" := [bs "application/json"]]> (<[bs "Location" := [bs "/1"; bs "/2"]]> ∅).
Definition sr : StoredResponse := mkStoredResponse 201 hdr (bs "{}").
Definition order1 := [bs "Content-Type"; bs "Location"].
Definition order2 := [bs "Location"; bs "Content-Type"].

Lemma ordered1 : range_order (sr_Header sr) order1.
Proof. apply (bool_decide_unpack (order1 ≡ₚ _)). vm_compute. exact I. Qed.
Lemma ordered2 : range_order (sr_Header sr) order2.
Proof. apply (bool_decide_unpack (order2 ≡ₚ _)). vm_compute. exact I. Qed.

Lemma sr_encodable : encodable sr.
Proof.
  split; [unfold is_i64, min_int64, max_int64, two63; simpl; lia|]. split; [vm_compute; discriminate|].
  split; [|unfold fits, two64; simpl; lia].
  intros k vs. unfold sr, hdr, sr_Header.
  intros [[<- <-]|[_ [[<- <-]|[_ ?]]%lookup_insert_Some]]%lookup_insert_Some; [..|done];
    (split; [|split]); repeat (apply Forall_cons_2); try apply Forall_nil_2;
    unfold fits, maxHeaderValues, two64; simpl; lia.
Qed.

End ExampleStored.

Lemma StoredResponse_roundtrip_witness :
  UnmarshalBinary (marshal_ranging ExampleStored.order2 ExampleStored.sr) = inl ExampleStored.sr.
Proof.
  apply (StoredResponse_roundtrip ExampleStored.order2 ExampleStored.sr).
  - exact ExampleStored.sr_encodable.
  - exact ExampleStored.ordered2.
  - intros k vs. unfold ExampleStored.sr, ExampleStored.hdr, sr_Header.
    intros [[_ <-]|[_ [[_ <-]|[_ ?]]%lookup_insert_Some]]%lookup_insert_Some; done.
Defined.

Lemma MarshalBinary_deterministic_witness :
  marshal_ranging ExampleStored.order1 ExampleStored.sr =
  marshal_ranging ExampleStored.order2 ExampleStored.sr.
Proof.
  apply (MarshalBinary_deterministic ExampleStored.order1 ExampleStored.order2).
  - exact ExampleStored.ordered1.
  - exact ExampleStored.ordered2.
Defined.

Lemma UnmarshalBinary_strict_witness :
  UnmarshalBinary (marshal_ranging ExampleStored.order1 ExampleStored.sr ++ bs "!") =
    inr (errSentinel errCorruptStoredResponse).
Proof.
  apply (UnmarshalBinary_strict _ ExampleStored.sr); [vm_compute; reflexivity|done].
Defined.
