(* ===== verification/Context.v ===== *)
(** * Request contexts (httpidem/reservation.go, httpidem/policy.go)

    The three values the middleware installs in a request context: the
    reservation, and two boxes the handler writes and the middleware reads
    back.  A context is an immutable record that points to boxes in a heap,
    so that the handler and the middleware share them. *)
From S2P Require Import Prelude GoLib Errors Core.

(** type Reservation *)
Record Reservation := mkReservation {
  rsv_Key : bytes;
  rsv_Token : bytes;
  rsv_Options : Options;
}.

(** The boxes: the contents of every errBox and finishedBox ever made. *)
Record boxes := mkBoxes { errBoxes : list (option error); finishedBoxes : list bool }.

(** The values a context carries under errBoxKey, finishedKey and
    reservationKey; [context.WithValue] shadows earlier ones. *)
Record context := mkContext {
  ctx_errBox : option nat;
  ctx_finishedBox : option nat;
  ctx_reservation : option Reservation;
}.

Definition Background : context := mkContext None None None.

Definition SetError (ctx : context) (err : option error) (h : boxes) : boxes :=
  match ctx_errBox ctx with
  | Some box => mkBoxes (<[box := err]> (errBoxes h)) (finishedBoxes h)
  | None => h
  end.

(** ErrorChannel returns the derived context, the heap with the new box,
    and the function that reads the box. *)
Definition ErrorChannel (ctx : context) (h : boxes) : context * boxes * (boxes → option error) :=
  let box := length (errBoxes h) in
  (mkContext (Some box) (ctx_finishedBox ctx) (ctx_reservation ctx),
   mkBoxes (errBoxes h ++ [None]) (finishedBoxes h),
   λ h, default None (errBoxes h !! box)).

Definition MarkFinished (ctx : context) (h : boxes) : boxes :=
  match ctx_finishedBox ctx with
  | Some box => mkBoxes (errBoxes h) (<[box := true]> (finishedBoxes h))
  | None => h
  end.

Definition FinishChannel (ctx : context) (h : boxes) : context * boxes * (boxes → bool) :=
  let box := length (finishedBoxes h) in
  (mkContext (ctx_errBox ctx) (Some box) (ctx_reservation ctx),
   mkBoxes (errBoxes h) (finishedBoxes h ++ [false]),
   λ h, default false (finishedBoxes h !! box)).

Definition ContextWithReservation (ctx : context) (rsv : Reservation) : context :=
  mkContext (ctx_errBox ctx) (ctx_finishedBox ctx) (Some rsv).

Definition ReservationFromContext (ctx : context) : option Reservation := ctx_reservation ctx.

(** ** Policies *)

(** [ReplayPolicy.Decide]. *)
Definition ReplayPolicy : Type := Z → option error → Decision.

Definition StatusTooManyRequests : Z := 429.

Definition defaultDecide (status : Z) (_ : option error) : Decision :=
  if (status =? StatusTooManyRequests)%Z then Discard
  else if (500 <=? status)%Z then Discard
  else Persist.

Definition DefaultPolicy : ReplayPolicy := defaultDecide.

(** ** The channels *)

(** The error channel: reading back gives the last error set under the
    derived context, or under a context derived from it that shadows
    nothing; nothing set reads as no error. *)
Lemma ErrorChannel_fresh ctx h ctx' h' get :
  ErrorChannel ctx h = (ctx', h', get) → get h' = None.
Proof.
  unfold ErrorChannel. intros [= _ <- <-]. simpl.
  by rewrite lookup_app_r, Nat.sub_diag by lia.
Qed.

Lemma FinishChannel_fresh ctx h ctx' h' done :
  FinishChannel ctx h = (ctx', h', done) → done h' = false.
Proof.
  unfold FinishChannel. intros [= _ <- <-]. simpl.
  by rewrite lookup_app_r, Nat.sub_diag by lia.
Qed.
