(* ===== verification/Http.v ===== *)
(** * HTTP requests, response writers and handlers

    net/http as the sources see it: requests with a body to read, the
    ResponseWriter interface as a class, the server's own response as an
    instance, and handlers - arbitrary code outside this repository - as
    trees of the calls they can make. *)
From S2P Require Import Prelude GoLib GoHttp Errors Record Store Effects Core Context.
Import url.

(** ** Readers and requests *)

(** An [io.Reader] with [data] to deliver; afterwards every read returns the
    error, [None] standing for [io.EOF].  A failing reader reports its error
    on a read of its own, after the data. *)
Record reader := mkReader { rd_data : bytes; rd_err : option error }.

(** [r.Read(p)] with [len(p) = n]: what was read, and the error if there
    was nothing left ([None] in the second component: no error). *)
Definition rd_Read (n : nat) (r : reader) : bytes * option (option error) * reader :=
  match rd_data r with
  | [] => ([], Some (rd_err r), r)
  | _ => (take n (rd_data r), None, mkReader (drop n (rd_data r)) (rd_err r))
  end.

(** [io.ReadAll(io.LimitReader(r, n))]: at most [n] bytes; the limit hides
    an error that lies beyond it.  A limit of zero or less reads nothing. *)
Definition ReadAllLimited (n : Z) (r : reader) : (bytes + error) * reader :=
  if (n <=? 0)%Z then (inl [], r)
  else if (n <=? Z.of_nat (length (rd_data r)))%Z
  then (inl (take (Z.to_nat n) (rd_data r)), mkReader (drop (Z.to_nat n) (rd_data r)) (rd_err r))
  else (match rd_err r with Some e => inr e | None => inl (rd_data r) end,
        mkReader [] (rd_err r)).

(** [io.MultiReader(bytes.NewReader(b), r)]. *)
Definition MultiReader (b : bytes) (r : reader) : reader := mkReader (b ++ rd_data r) (rd_err r).

(** [http.Request]; a nil body and [http.NoBody] are [None]. *)
Record Request := mkRequest {
  r_Method : bytes;
  r_URL : URL;
  r_Header : header;
  r_Body : option reader;
  r_ContentLength : Z;
  r_ctx : context;
}.

Definition set_body (r : Request) (b : reader) : Request :=
  mkRequest (r_Method r) (r_URL r) (r_Header r) (Some b) (r_ContentLength r) (r_ctx r).
Definition set_content_length (r : Request) (n : Z) : Request :=
  mkRequest (r_Method r) (r_URL r) (r_Header r) (r_Body r) n (r_ctx r).
(** [r.WithContext(ctx)]. *)
Definition WithContext (r : Request) (ctx : context) : Request :=
  mkRequest (r_Method r) (r_URL r) (r_Header r) (r_Body r) (r_ContentLength r) ctx.

(** ** Response writers *)

(** [http.ResponseWriter] with the optional capabilities reached through
    [http.NewResponseController].  The header map is shared with the caller
    and mutated in place; a call can panic. *)
Class ResponseWriter (W : Type) := {
  Header : W → header;
  SetHeader : header → W → W;
  WriteHeader : Z → W → W * option bytes;
  Write : bytes → W → W * (Z * option error + bytes);
  Flush : W → W * option error;
  Hijack : W → W * option error;
  Push : bytes → W → W * option error;
}.

(** What flushing does on a given connection. *)
Inductive flush_support := FlushWorks | FlushFails (e : error) | FlushUnsupported.

(** The response of the net/http server: the header map, the final status
    with the headers it was sent with, the informational responses, the body
    sent so far. *)
Record response := mkResponse {
  rs_header : header;
  rs_sent : option (Z * header);
  rs_info : list (Z * header);
  rs_body : bytes;
  rs_hijacked : bool;
  rs_flush : flush_support;
  rs_hijack : option error;
}.

Definition set_sent (x : option (Z * header)) (w : response) : response :=
  mkResponse (rs_header w) x (rs_info w) (rs_body w) (rs_hijacked w) (rs_flush w) (rs_hijack w).
Definition add_info (x : Z * header) (w : response) : response :=
  mkResponse (rs_header w) (rs_sent w) (rs_info w ++ [x]) (rs_body w) (rs_hijacked w)
    (rs_flush w) (rs_hijack w).
Definition add_body (p : bytes) (w : response) : response :=
  mkResponse (rs_header w) (rs_sent w) (rs_info w) (rs_body w ++ p) (rs_hijacked w)
    (rs_flush w) (rs_hijack w).
Definition set_rs_header (h : header) (w : response) : response :=
  mkResponse h (rs_sent w) (rs_info w) (rs_body w) (rs_hijacked w) (rs_flush w) (rs_hijack w).
Definition set_hijacked (w : response) : response :=
  mkResponse (rs_header w) (rs_sent w) (rs_info w) (rs_body w) true (rs_flush w) (rs_hijack w).

(** [checkWriteHeaderCode] panics outside 100-999. *)
Definition panic_code (code : Z) : bytes := bs "invalid WriteHeader code " ++ FormatInt code.

Definition informational (code : Z) : bool :=
  (100 <=? code)%Z && (code <=? 199)%Z && negb (code =? 101)%Z.

Definition response_WriteHeader (code : Z) (w : response) : response * option bytes :=
  if rs_hijacked w then (w, None) else
  match rs_sent w with
  | Some _ => (w, None)
  | None =>
      if (code <? 100)%Z || (999 <? code)%Z then (w, Some (panic_code code))
      else if informational code then (add_info (code, rs_header w) w, None)
      else (set_sent (Some (code, rs_header w)) w, None)
  end.

(** [bodyAllowedForStatus]. *)
Definition bodyAllowed (status : Z) : bool :=
  negb ((100 <=? status)%Z && (status <=? 199)%Z || (status =? 204)%Z || (status =? 304)%Z).

Definition sent_status (w : response) : Z :=
  match rs_sent w with Some (code, _) => code | None => 200 end.

Definition response_Write (p : bytes) (w : response) : response * (Z * option error + bytes) :=
  if rs_hijacked w then (w, inl (0%Z, Some (http_ErrHijacked : error))) else
  let '(w, panicked) := response_WriteHeader 200 w in
  match panicked with
  | Some v => (w, inr v)
  | None =>
      if bool_decide (p = []) then (w, inl (0%Z, None))
      else if negb (bodyAllowed (sent_status w))
      then (w, inl (0%Z, Some (http_ErrBodyNotAllowed : error)))
      else (add_body p w, inl (Z.of_nat (length p), None))
  end.

Definition err_not_supported : error := Errorf_prefix_w [] http_ErrNotSupported.

Definition response_Flush (w : response) : response * option error :=
  match rs_flush w with
  | FlushUnsupported => (w, Some err_not_supported)
  | FlushWorks => ((response_WriteHeader 200 w).1, None)
  | FlushFails e => ((response_WriteHeader 200 w).1, Some e)
  end.

Definition response_Hijack (w : response) : response * option error :=
  match rs_hijack w with
  | Some e => (w, Some e)
  | None =>
      if rs_hijacked w then (w, Some (http_ErrHijacked : error)) else (set_hijacked w, None)
  end.

#[global] Instance response_writer : ResponseWriter response := {
  Header := rs_header;
  SetHeader := set_rs_header;
  WriteHeader := response_WriteHeader;
  Write := response_Write;
  Flush := response_Flush;
  Hijack := response_Hijack;
  Push _ w := (w, Some (http_ErrNotSupported : error));
}.

(** When the outermost handler returns, the server sends the implicit 200. *)
Definition finish_response (w : response) : response := (response_WriteHeader 200 w).1.

(** A fresh response on a connection with the given capabilities. *)
Definition new_response (f : flush_support) (h : option error) : response :=
  mkResponse ∅ None [] [] false f h.

(** ** Handlers *)

Inductive handler_prog : Type :=
  | HReturn
  | HPanic (v : bytes)
  | HHeader (k : header → handler_prog)
  | HSetHeader (h : header) (k : handler_prog)
  | HWriteHeader (code : Z) (k : handler_prog)
  | HWrite (p : bytes) (k : Z * option error → handler_prog)
  | HFlush (k : option error → handler_prog)
  | HHijack (k : option error → handler_prog)
  | HPush (target : bytes) (k : option error → handler_prog)
  | HRead (n : nat) (k : bytes * option (option error) → handler_prog)
  | HSetError (err : option error) (k : handler_prog)
  | HMarkFinished (k : handler_prog)
  | HReservation (k : option Reservation → handler_prog)
  | HCall {X : Type} (p : prog X) (k : X → handler_prog).

(** [http.Handler]. *)
Definition Handler : Type := Request → handler_prog.

(** How a call of a handler ends. *)
Inductive outcome := Returned | Panicked (v : bytes).

(** What a running handler works on: its writer, the boxes, the body. *)
Record hstate (W : Type) := mkHState { hs_w : W; hs_boxes : boxes; hs_body : option reader }.
Arguments mkHState {W} _ _ _.
Arguments hs_w {W} _.
Arguments hs_boxes {W} _.
Arguments hs_body {W} _.

Definition set_w {W W'} (w : W') (s : hstate W) : hstate W' := mkHState w (hs_boxes s) (hs_body s).
Definition set_boxes {W} (b : boxes) (s : hstate W) : hstate W := mkHState (hs_w s) b (hs_body s).

Definition read_body {W} (n : nat) (s : hstate W)
    : bytes * option (option error) * hstate W :=
  match hs_body s with
  | None => ([], Some None, s)
  | Some r => let '(x, r) := rd_Read n r in (x, mkHState (hs_w s) (hs_boxes s) (Some r))
  end.

Fixpoint hrun {W} `{ResponseWriter W} (ctx : context) (p : handler_prog) (s : hstate W)
    : prog (hstate W * outcome) :=
  match p with
  | HReturn => mret (s, Returned)
  | HPanic v => mret (s, Panicked v)
  | HHeader k => hrun ctx (k (Header (hs_w s))) s
  | HSetHeader h k => hrun ctx k (set_w (SetHeader h (hs_w s)) s)
  | HWriteHeader code k =>
      let '(w, panicked) := WriteHeader code (hs_w s) in
      match panicked with
      | Some v => mret (set_w w s, Panicked v)
      | None => hrun ctx k (set_w w s)
      end
  | HWrite b k =>
      let '(w, res) := Write b (hs_w s) in
      match res with
      | inr v => mret (set_w w s, Panicked v)
      | inl x => hrun ctx (k x) (set_w w s)
      end
  | HFlush k => let '(w, e) := Flush (hs_w s) in hrun ctx (k e) (set_w w s)
  | HHijack k => let '(w, e) := Hijack (hs_w s) in hrun ctx (k e) (set_w w s)
  | HPush t k => let '(w, e) := Push t (hs_w s) in hrun ctx (k e) (set_w w s)
  | HRead n k => let '(x, s) := read_body n s in hrun ctx (k x) s
  | HSetError e k => hrun ctx k (set_boxes (SetError ctx e (hs_boxes s)) s)
  | HMarkFinished k => hrun ctx k (set_boxes (MarkFinished ctx (hs_boxes s)) s)
  | HReservation k => hrun ctx (k (ReservationFromContext ctx)) s
  | HCall p k => x ← p; hrun ctx (k x) s
  end.

(** [h.ServeHTTP(w, r)]. *)
Definition serve {W} `{ResponseWriter W} (h : Handler) (w : W) (r : Request) (b : boxes)
    : prog (hstate W * outcome) :=
  hrun (r_ctx r) (h r) (mkHState w b (r_Body r)).
