(* ===== verification/Problem.v ===== *)
(** * Problem documents (httpidem/errors.go)

    The default ErrorWriter: an RFC 9457 problem document, with the string
    encoding of encoding/json. *)
From S2P Require Import Prelude GoLib GoHttp Errors Http.

(** ** encoding/json strings, with HTML escaping *)

Module json.

Definition in_range (lo hi : Z) (b : byte) : bool := (lo <=? byte_Z b)%Z && (byte_Z b <=? hi)%Z.

(** The size of the well-formed UTF-8 sequence of two or more bytes that
    starts with [b0] and continues in [s], if there is one. *)
Definition rune_size (b0 : byte) (s : bytes) : option nat :=
  let cont := in_range 128 191 in
  match s with
  | b1 :: s =>
      if in_range 194 223 b0 then if cont b1 then Some 2 else None
      else
        let three := if in_range 224 224 b0 then in_range 160 191 b1
                     else if in_range 237 237 b0 then in_range 128 159 b1
                     else in_range 225 239 b0 && cont b1 in
        let four := if in_range 240 240 b0 then in_range 144 191 b1
                    else if in_range 244 244 b0 then in_range 128 143 b1
                    else in_range 241 243 b0 && cont b1 in
        match s with
        | b2 :: s =>
            if three && cont b2 then Some 3
            else match s with
                 | b3 :: _ => if four && cont b2 && cont b3 then Some 4 else None
                 | [] => None
                 end
        | [] => None
        end
  | [] => None
  end.

(** One ASCII byte. *)
Definition escape_ascii (b : byte) : bytes :=
  if bool_decide (b = x5c) || bool_decide (b = x22) then [x5c; b]
  else if bool_decide (b = x08) then x5c :: bs "b"
  else if bool_decide (b = x0c) then x5c :: bs "f"
  else if bool_decide (b = x0a) then x5c :: bs "n"
  else if bool_decide (b = x0d) then x5c :: bs "r"
  else if bool_decide (b = x09) then x5c :: bs "t"
  else if (byte_Z b <? 32)%Z || one_of "<>&" b then x5c :: bs "u00" ++ hex_byte b
  else [b].

(** The loop of appendString; [skip] bytes belong to a rune already copied. *)
Fixpoint encode (skip : nat) (s : bytes) : bytes :=
  match s with
  | [] => []
  | b :: s =>
      match skip with
      | S skip => b :: encode skip s
      | O =>
          if (byte_Z b <? 128)%Z then escape_ascii b ++ encode 0 s
          else
            match rune_size b s with
            | None => x5c :: bs "ufffd" ++ encode 0 s
            | Some n => b :: encode (n - 1) s
            end
      end
  end.

(** U+2028 and U+2029 are escaped too. *)
Fixpoint separators (s : bytes) : bytes :=
  match s with
  | xe2 :: x80 :: xa8 :: s => x5c :: bs "u2028" ++ separators s
  | xe2 :: x80 :: xa9 :: s => x5c :: bs "u2029" ++ separators s
  | b :: s => b :: separators s
  | [] => []
  end.

Definition string (s : bytes) : bytes := x22 :: separators (encode 0 s) ++ [x22].

End json.

(** [http.StatusText]. *)
Definition StatusText (code : Z) : bytes :=
  bs (match code with
  | 100 => "Continue" | 101 => "Switching Protocols" | 102 => "Processing" | 103 => "Early Hints"
  | 200 => "OK" | 201 => "Created" | 202 => "Accepted" | 203 => "Non-Authoritative Information"
  | 204 => "No Content" | 205 => "Reset Content" | 206 => "Partial Content" | 207 => "Multi-Status"
  | 208 => "Already Reported" | 226 => "IM Used"
  | 300 => "Multiple Choices" | 301 => "Moved Permanently" | 302 => "Found" | 303 => "See Other"
  | 304 => "Not Modified" | 305 => "Use Proxy" | 307 => "Temporary Redirect"
  | 308 => "Permanent Redirect"
  | 400 => "Bad Request" | 401 => "Unauthorized" | 402 => "Payment Required" | 403 => "Forbidden"
  | 404 => "Not Found" | 405 => "Method Not Allowed" | 406 => "Not Acceptable"
  | 407 => "Proxy Authentication Required" | 408 => "Request Timeout" | 409 => "Conflict"
  | 410 => "Gone" | 411 => "Length Required" | 412 => "Precondition Failed"
  | 413 => "Request Entity Too Large" | 414 => "Request URI Too Long"
  | 415 => "Unsupported Media Type" | 416 => "Requested Range Not Satisfiable"
  | 417 => "Expectation Failed" | 418 => "I'm a teapot" | 421 => "Misdirected Request"
  | 422 => "Unprocessable Entity" | 423 => "Locked" | 424 => "Failed Dependency"
  | 425 => "Too Early" | 426 => "Upgrade Required" | 428 => "Precondition Required"
  | 429 => "Too Many Requests" | 431 => "Request Header Fields Too Large"
  | 451 => "Unavailable For Legal Reasons"
  | 500 => "Internal Server Error" | 501 => "Not Implemented" | 502 => "Bad Gateway"
  | 503 => "Service Unavailable" | 504 => "Gateway Timeout" | 505 => "HTTP Version Not Supported"
  | 506 => "Variant Also Negotiates" | 507 => "Insufficient Storage" | 508 => "Loop Detected"
  | 510 => "Not Extended" | 511 => "Network Authentication Required"
  | _ => EmptyString
  end%Z%string).

(** The problem document, with [detail] omitted when empty; the encoder
    ends it with a newline. *)
Definition problem (status : Z) (detail : bytes) : bytes :=
  bs "{" ++ json.string (bs "type") ++ bs ":" ++ json.string (bs "about:blank") ++
  bs "," ++ json.string (bs "title") ++ bs ":" ++ json.string (StatusText status) ++
  bs "," ++ json.string (bs "status") ++ bs ":" ++ FormatInt status ++
  (if bool_decide (detail = []) then []
   else bs "," ++ json.string (bs "detail") ++ bs ":" ++ json.string detail) ++
  bs "}" ++ [x0a].

(** type ErrorWriter *)
Definition ErrorWriter : Type := Request → Z → option error → handler_prog.

Definition problemWriter : ErrorWriter := λ r status err,
  let detail :=
    match err with
    | Some err => if (status <? 500)%Z then Error err else []
    | None => []
    end in
  HHeader (λ h,
  HSetHeader (Header.Set' (bs "Content-Type") (bs "application/problem+json") h)
  (HWriteHeader status
  (HWrite (problem status detail) (λ _, HReturn)))).

Definition DefaultErrorWriter : ErrorWriter := problemWriter.

Example problem_ex :
  problem 409 (bs "a<b") =
  bs "{" ++ json.string (bs "type") ++ bs ":" ++ json.string (bs "about:blank") ++
  bs "," ++ json.string (bs "title") ++ bs ":" ++ json.string (bs "Conflict") ++
  bs "," ++ json.string (bs "status") ++ bs ":409," ++ json.string (bs "detail") ++ bs ":" ++
  x22 :: bs "a\u003cb" ++ x22 :: bs "}" ++ [x0a].
Proof. reflexivity. Qed.
