(* ===== verification/Recorder.v ===== *)
(** * Capturing responses (httpidem/recorder.go)

    The Recorder, and the captureWriter that feeds it while forwarding
    everything to the underlying writer. *)
From S2P Require Import Prelude GoLib GoHttp Errors Effects StoredResponse Context Http.

Definition alwaysExcludedHeaders : list bytes :=
  bs <$> ["Set-Cookie"; "Authorization"; "Connection"; "Transfer-Encoding"; "Keep-Alive";
          "Upgrade"; "Trailer"; "Te"; "Proxy-Authenticate"; "Proxy-Authorization"]%string.

Record Recorder := mkRecorder {
  maxBody : Z;
  allow : gset bytes;
  rec_status : Z;
  rec_header : option header;
  rec_body : bytes;
  rec_overflowed : bool;
  rec_abandoned : bool;
}.

(** The loop of NewRecorder over the names. *)
Definition add_allowed (allow : gset bytes) (name : bytes) : gset bytes :=
  let c := CanonicalMIMEHeaderKey name in
  if bool_decide (c ∈ alwaysExcludedHeaders) then allow else {[c]} ∪ allow.

Definition NewRecorder (maxBody : Z) (allowHeaders : list bytes) : Recorder :=
  mkRecorder maxBody (foldl add_allowed ∅ allowHeaders) 0 None [] false false.

(** The snapshot of the allowlisted headers; names without values are
    skipped. *)
Definition snapshot_header (h : header) (acc : header) (name : bytes) : header :=
  match Header.Values h name with
  | [] => acc
  | values => <[name := values]> acc
  end.
Definition snapshot (allow : gset bytes) (h : header) : header :=
  foldl (snapshot_header h) ∅ (elements allow).

Definition RecordStatus (status : Z) (h : header) (rec : Recorder) : Recorder :=
  if negb (rec_status rec =? 0)%Z || ((100 <=? status)%Z && (status <? 200)%Z) then rec
  else mkRecorder (maxBody rec) (allow rec) status (Some (snapshot (allow rec) h))
         (rec_body rec) (rec_overflowed rec) (rec_abandoned rec).

Definition RecordBody (p : bytes) (rec : Recorder) : Recorder :=
  if rec_overflowed rec || rec_abandoned rec then rec
  else if (maxBody rec <? Z.of_nat (length (rec_body rec)) + Z.of_nat (length p))%Z
  then mkRecorder (maxBody rec) (allow rec) (rec_status rec) (rec_header rec) []
         true (rec_abandoned rec)
  else mkRecorder (maxBody rec) (allow rec) (rec_status rec) (rec_header rec)
         (rec_body rec ++ p) (rec_overflowed rec) (rec_abandoned rec).

Definition Abandon (rec : Recorder) : Recorder :=
  mkRecorder (maxBody rec) (allow rec) (rec_status rec) (rec_header rec) []
    (rec_overflowed rec) true.

Definition Status (rec : Recorder) : Z :=
  if (rec_status rec =? 0)%Z then 200 else rec_status rec.

(** The Recorder's StoredResponse; [None] when it reports [ok = false]. *)
Definition rec_StoredResponse (rec : Recorder) : option StoredResponse :=
  if rec_overflowed rec || rec_abandoned rec then None
  else Some (mkStoredResponse (Status rec) (default ∅ (rec_header rec)) (rec_body rec)).

(** ** The capturing writer *)

Record captureWriter (W : Type) := mkCaptureWriter {
  cw_ResponseWriter : W;
  cw_rec : Recorder;
  cw_wroteHeader : bool;
}.
Arguments mkCaptureWriter {W} _ _ _.
Arguments cw_ResponseWriter {W} _.
Arguments cw_rec {W} _.
Arguments cw_wroteHeader {W} _.

Section capture_writer.
Context {W : Type} `{ResponseWriter W}.

Definition set_rw (w : W) (cw : captureWriter W) : captureWriter W :=
  mkCaptureWriter w (cw_rec cw) (cw_wroteHeader cw).
Definition set_rec (rec : Recorder) (cw : captureWriter W) : captureWriter W :=
  mkCaptureWriter (cw_ResponseWriter cw) rec (cw_wroteHeader cw).

Definition cw_WriteHeader (code : Z) (cw : captureWriter W) : captureWriter W * option bytes :=
  let cw :=
    if negb (cw_wroteHeader cw)
    then mkCaptureWriter (cw_ResponseWriter cw)
           (RecordStatus code (Header (cw_ResponseWriter cw)) (cw_rec cw))
           (if (200 <=? code)%Z then true else cw_wroteHeader cw)
    else cw in
  let '(w, panicked) := WriteHeader code (cw_ResponseWriter cw) in
  (set_rw w cw, panicked).

Definition cw_Write (p : bytes) (cw : captureWriter W)
    : captureWriter W * (Z * option error + bytes) :=
  let '(cw, panicked) :=
    if negb (cw_wroteHeader cw) then cw_WriteHeader 200 cw else (cw, None) in
  match panicked with
  | Some v => (cw, inr v)
  | None =>
      let cw := set_rec (RecordBody p (cw_rec cw)) cw in
      let '(w, x) := Write p (cw_ResponseWriter cw) in
      (set_rw w cw, x)
  end.

Definition finalize (cw : captureWriter W) : captureWriter W :=
  if negb (cw_wroteHeader cw)
  then mkCaptureWriter (cw_ResponseWriter cw)
         (RecordStatus 200 (Header (cw_ResponseWriter cw)) (cw_rec cw)) true
  else cw.

Definition cw_flush (cw : captureWriter W) : captureWriter W * option error :=
  let '(w, err) := Flush (cw_ResponseWriter cw) in
  let cw := set_rw w cw in
  match err with
  | Some e => if negb (Is e http_ErrNotSupported) then (set_rec (Abandon (cw_rec cw)) cw, err)
              else (cw, err)
  | None => (set_rec (Abandon (cw_rec cw)) cw, err)
  end.

Definition cw_Hijack (cw : captureWriter W) : captureWriter W * option error :=
  let '(w, err) := Hijack (cw_ResponseWriter cw) in
  let cw := set_rw w cw in
  match err with
  | None => (set_rec (Abandon (cw_rec cw)) cw, err)
  | Some _ => (cw, err)
  end.

Definition cw_Push (target : bytes) (cw : captureWriter W) : captureWriter W * option error :=
  let '(w, err) := Push target (cw_ResponseWriter cw) in (set_rw w cw, err).

#[global] Instance capture_writer : ResponseWriter (captureWriter W) := {
  Header cw := Header (cw_ResponseWriter cw);
  SetHeader h cw := set_rw (SetHeader h (cw_ResponseWriter cw)) cw;
  WriteHeader := cw_WriteHeader;
  Write := cw_Write;
  Flush := cw_flush;
  Hijack := cw_Hijack;
  Push := cw_Push;
}.

End capture_writer.

(** WriteStored (httpidem/reservation.go): headers, then status, then
    body; the order of the names does not matter, each is assigned. *)
Definition assign_headers (stored h : header) : header := stored ∪ h.

Definition WriteStored {W} `{ResponseWriter W} (sr : StoredResponse) (w : W)
    : W * (option error + bytes) :=
  let w := SetHeader (assign_headers (sr_Header sr) (Header w)) w in
  let '(w, panicked) := WriteHeader (StatusCode sr) w in
  match panicked with
  | Some v => (w, inr v)
  | None =>
      let '(w, x) := Write (sr_Body sr) w in
      match x with
      | inr v => (w, inr v)
      | inl (_, err) => (w, inl err)
      end
  end.

(** ** Snapshots *)

Lemma snapshot_foldl h names acc k :
  NoDup names →
  foldl (snapshot_header h) acc names !! k =
  if decide (k ∈ names ∧ Header.Values h k ≠ []) then Some (Header.Values h k) else acc !! k.
Proof.
  intros Hnd. revert acc. induction Hnd as [|n names Hn Hnd IH]; intros acc; cbn [foldl].
  - by rewrite decide_False by set_solver.
  - rewrite IH. unfold snapshot_header at 1. destruct (decide (k = n)) as [->|Hne].
    + rewrite (decide_False (P := n ∈ names ∧ _)) by tauto.
      destruct (Header.Values h n) as [|v vs]; [by rewrite decide_False by set_solver|].
      by rewrite lookup_insert_eq, decide_True by set_solver.
    + assert (match Header.Values h n with [] => acc | v :: vs => <[n := v :: vs]> acc end !! k
        = acc !! k) as ->.
      { destruct (Header.Values h n); [done|]. by rewrite lookup_insert_ne by congruence. }
      apply decide_ext. set_solver.
Qed.

Lemma lookup_snapshot allow h k :
  snapshot allow h !! k =
  if decide (k ∈ allow ∧ Header.Values h k ≠ []) then Some (Header.Values h k) else None.
Proof.
  unfold snapshot. rewrite snapshot_foldl by apply NoDup_elements. rewrite lookup_empty.
  apply decide_ext. by rewrite elem_of_elements.
Qed.

(** ** The allowlist *)

Definition allowed_name (c : bytes) : Prop :=
  CanonicalMIMEHeaderKey c = c ∧ c ∉ alwaysExcludedHeaders.

Lemma foldl_add_allowed names acc c :
  c ∈ foldl add_allowed acc names ↔
  c ∈ acc ∨ (c ∉ alwaysExcludedHeaders ∧ ∃ n, n ∈ names ∧ CanonicalMIMEHeaderKey n = c).
Proof.
  revert acc. induction names as [|n names IH]; intros acc; cbn [foldl]; [set_solver|].
  rewrite IH. unfold add_allowed. case_bool_decide; set_solver.
Qed.

Lemma NewRecorder_allow maxb names c :
  c ∈ allow (NewRecorder maxb names) ↔
  c ∉ alwaysExcludedHeaders ∧ ∃ n, n ∈ names ∧ CanonicalMIMEHeaderKey n = c.
Proof. simpl. rewrite foldl_add_allowed. set_solver. Qed.

(** ** Invariant of a Recorder *)

(** Reachable from NewRecorder by the four operations. *)
Inductive recorded (maxb : Z) (names : list bytes) : Recorder → Prop :=
  | recorded_new : recorded maxb names (NewRecorder maxb names)
  | recorded_status rec status h :
      recorded maxb names rec → recorded maxb names (RecordStatus status h rec)
  | recorded_body rec p : recorded maxb names rec → recorded maxb names (RecordBody p rec)
  | recorded_abandon rec : recorded maxb names rec → recorded maxb names (Abandon rec).

Record rec_inv (maxb : Z) (names : list bytes) (rec : Recorder) : Prop := {
  ri_max : maxBody rec = maxb;
  ri_allow : allow rec = allow (NewRecorder maxb names);
  ri_header : ∀ h, rec_header rec = Some h → ∃ full, h = snapshot (allow rec) full;
  ri_body : rec_body rec ≠ [] → (Z.of_nat (length (rec_body rec)) ≤ maxb)%Z;
  ri_status : ¬ (100 ≤ rec_status rec < 200)%Z;
}.

Lemma recorded_inv maxb names rec : recorded maxb names rec → rec_inv maxb names rec.
Proof.
  induction 1 as [|rec status h _ [Hm Ha Hh Hb Hs]|rec p _ [Hm Ha Hh Hb Hs]|rec _ [Hm Ha Hh Hb Hs]].
  - split; simpl; try done. lia.
  - unfold RecordStatus. destruct (_ || _) eqn:E; [by split|].
    rewrite orb_false_iff, andb_false_iff, Z.leb_gt, Z.ltb_ge in E.
    split; simpl; try done; [|lia]. intros ? [= <-]. eauto.
  - unfold RecordBody. destruct (_ || _); [by split|].
    destruct (Z.ltb_spec (maxBody rec) (Z.of_nat (length (rec_body rec)) + Z.of_nat (length p)));
      split; simpl; try done. intros _. rewrite length_app. lia.
  - by split.
Qed.
