(* ===== verification/RecorderSpec.v ===== *)
(** * What is captured, and what a replay shows

    The capturing writer is invisible to the handler and to the client, and
    what it captures from the net/http response is what a replay sends
    again. *)
From S2P Require Import Prelude GoLib GoHttp Errors Store Effects Memstore StoredResponse.
From S2P Require Import Context Http Recorder.

(** ** Invariants of a running handler *)

Section hrun_inv.
Context {W : Type} `{ResponseWriter W} (P : W → Prop).
Hypothesis P_SetHeader : ∀ h w, P w → P (SetHeader h w).
Hypothesis P_WriteHeader : ∀ code w w', WriteHeader code w = (w', None) → P w → P w'.
Hypothesis P_Write : ∀ p w w' x, Write p w = (w', inl x) → P w → P w'.
Hypothesis P_Flush : ∀ w, P w → P (Flush w).1.
Hypothesis P_Hijack : ∀ w, P w → P (Hijack w).1.
Hypothesis P_Push : ∀ t w, P w → P (Push t w).1.

(** A property of the writer kept by every call that does not panic holds
    when the handler returns. *)
Lemma hrun_inv {S} `{Store S} ctx p (s : hstate W) (wd wd' : world S) s' :
  P (hs_w s) → run (hrun ctx p s) wd = ((s', Returned), wd') → P (hs_w s').
Proof.
  revert s wd. induction p as [|v|k IH|h p IH|code p IH|b k IH|k IH|k IH|t k IH|n k IH|e p IH|p IH|k IH|X q k IH];
    intros s wd HP; simpl.
  - by intros [= <- _].
  - done.
  - by apply IH.
  - apply IH. by apply P_SetHeader.
  - destruct (WriteHeader code (hs_w s)) as [w' [v|]] eqn:E; [done|]. apply IH. simpl. eauto.
  - destruct (Write b (hs_w s)) as [w' [x|v]] eqn:E; [|done]. apply IH. simpl. eauto.
  - destruct (Flush (hs_w s)) as [w' e] eqn:E. apply IH. simpl.
    rewrite <-(eq_refl : (w', e).1 = w'), <-E. auto.
  - destruct (Hijack (hs_w s)) as [w' e] eqn:E. apply IH. simpl.
    rewrite <-(eq_refl : (w', e).1 = w'), <-E. auto.
  - destruct (Push t (hs_w s)) as [w' e] eqn:E. apply IH. simpl.
    rewrite <-(eq_refl : (w', e).1 = w'), <-E. auto.
  - unfold read_body. destruct (hs_body s) as [r|]; [|by apply IH].
    destruct (rd_Read n r) as [x r']. by apply IH.
  - by apply IH.
  - by apply IH.
  - by apply IH.
  - rewrite run_bind. destruct (run q wd) as [x wd1]. by apply IH.
Qed.
End hrun_inv.

(** ** Transparency *)

(** What the capture relies on: Write sends the implicit 200 itself, so
    sending it first changes nothing, and 200 never panics. *)
Class ImplicitOK (W : Type) `{ResponseWriter W} :=
  implicit_ok : ∀ p w, ∃ w', WriteHeader 200 w = (w', None) ∧ Write p w' = Write p w.

#[global] Instance response_implicit_ok : ImplicitOK response.
Proof.
  intros p w. simpl. unfold response_Write, response_WriteHeader.
  destruct (rs_hijacked w) eqn:Eh; [exists w; by rewrite Eh|].
  destruct (rs_sent w) as [x|] eqn:Es; [exists w; by rewrite Eh, Es|]. simpl.
  eexists. split; [done|]. simpl. by rewrite Eh.
Qed.

Section transparency.
Context {W : Type} `{ImplicitOK W}.

Definition uncaptured (s : hstate (captureWriter W)) : hstate W :=
  set_w (cw_ResponseWriter (hs_w s)) s.

Lemma cw_WriteHeader_transparent code (cw : captureWriter W) :
  WriteHeader code (cw_ResponseWriter cw) =
  (cw_ResponseWriter (cw_WriteHeader code cw).1, (cw_WriteHeader code cw).2).
Proof.
  unfold cw_WriteHeader. destruct (cw_wroteHeader cw); simpl;
    by destruct (WriteHeader code (cw_ResponseWriter cw)).
Qed.

Lemma cw_Write_transparent p (cw : captureWriter W) :
  Write p (cw_ResponseWriter cw) =
  (cw_ResponseWriter (cw_Write p cw).1, (cw_Write p cw).2).
Proof.
  unfold cw_Write. destruct (cw_wroteHeader cw) eqn:E; simpl.
  - by destruct (Write p (cw_ResponseWriter cw)).
  - destruct (implicit_ok p (cw_ResponseWriter cw)) as (w' & Hw & Hp).
    unfold cw_WriteHeader. rewrite E. simpl. rewrite Hw. simpl. rewrite Hp.
    by destruct (Write p (cw_ResponseWriter cw)).
Qed.

Lemma cw_flush_transparent (cw : captureWriter W) :
  Flush (cw_ResponseWriter cw) = (cw_ResponseWriter (cw_flush cw).1, (cw_flush cw).2).
Proof.
  unfold cw_flush. destruct (Flush (cw_ResponseWriter cw)) as [w [e|]]; simpl; [|done].
  by destruct (negb _).
Qed.

Lemma cw_Hijack_transparent (cw : captureWriter W) :
  Hijack (cw_ResponseWriter cw) = (cw_ResponseWriter (cw_Hijack cw).1, (cw_Hijack cw).2).
Proof. unfold cw_Hijack. by destruct (Hijack (cw_ResponseWriter cw)) as [w [e|]]. Qed.

Lemma cw_Push_transparent t (cw : captureWriter W) :
  Push t (cw_ResponseWriter cw) = (cw_ResponseWriter (cw_Push t cw).1, (cw_Push t cw).2).
Proof. unfold cw_Push. by destruct (Push t (cw_ResponseWriter cw)). Qed.

Lemma hrun_uncaptured {S} `{Store S} ctx p (s : hstate (captureWriter W)) (wd : world S) :
  run (hrun ctx p (uncaptured s)) wd =
  let '((s', how), wd') := run (hrun ctx p s) wd in ((uncaptured s', how), wd').
Proof.
  revert s wd. induction p as [|v|k IH|h p IH|code p IH|b k IH|k IH|k IH|t k IH|n k IH|e p IH|p IH|k IH|X q k IH];
    intros s wd; cbn -[cw_WriteHeader cw_Write cw_flush cw_Hijack cw_Push].
  - done.
  - done.
  - apply IH.
  - apply (IH (set_w (set_rw (SetHeader h (cw_ResponseWriter (hs_w s))) (hs_w s)) s)).
  - rewrite cw_WriteHeader_transparent.
    destruct (cw_WriteHeader code (hs_w s)) as [cw [v|]]; cbn; [done|].
    apply (IH (set_w cw s)).
  - rewrite cw_Write_transparent. destruct (cw_Write b (hs_w s)) as [cw [x|v]]; cbn; [|done].
    apply (IH x (set_w cw s)).
  - rewrite cw_flush_transparent. destruct (cw_flush (hs_w s)) as [cw e]. apply (IH e (set_w cw s)).
  - rewrite cw_Hijack_transparent. destruct (cw_Hijack (hs_w s)) as [cw e].
    apply (IH e (set_w cw s)).
  - rewrite cw_Push_transparent. destruct (cw_Push t (hs_w s)) as [cw e]. apply (IH e (set_w cw s)).
  - unfold read_body. cbn. destruct (hs_body s) as [r|]; [|apply IH].
    destruct (rd_Read n r) as [x r']. apply (IH x (mkHState (hs_w s) (hs_boxes s) (Some r'))).
  - apply (IH (set_boxes (SetError ctx e (hs_boxes s)) s)).
  - apply (IH (set_boxes (MarkFinished ctx (hs_boxes s)) s)).
  - apply IH.
  - rewrite !run_bind. destruct (run q wd) as [x wd1]. apply IH.
Qed.
End transparency.

(** ** What the capture holds *)

(** The connection never reports ErrNotSupported after having flushed. *)
Definition honest_flush (w : response) : Prop :=
  ∀ e, rs_flush w = FlushFails e → Is e http_ErrNotSupported = false.

Definition body_sent (code : Z) (body : bytes) : bytes := if bodyAllowed code then body else [].

(** The capture agrees with what the client was sent, unless it is void or
    the protocol was switched. *)
Definition agrees (cw : captureWriter response) : Prop :=
  let w := cw_ResponseWriter cw in
  let rec := cw_rec cw in
  honest_flush w ∧
  (rec_abandoned rec = true ∨
   rs_hijacked w = false ∧
   match rs_sent w with
   | None => cw_wroteHeader cw = false ∧ rec_status rec = 0%Z ∧ rec_header rec = None ∧
             rs_body w = [] ∧ rec_body rec = []
   | Some (code, h) =>
       code = 101%Z ∨
       cw_wroteHeader cw = true ∧ rec_status rec = code ∧
       rec_header rec = Some (snapshot (allow rec) h) ∧ (200 ≤ code ≤ 999)%Z ∧
       (rec_overflowed rec = true ∨ rs_body w = body_sent code (rec_body rec))
   end).

Lemma RecordStatus_abandoned status h rec : rec_abandoned (RecordStatus status h rec) = rec_abandoned rec.
Proof. unfold RecordStatus. by destruct (_ || _). Qed.

Lemma RecordBody_abandoned p rec : rec_abandoned (RecordBody p rec) = rec_abandoned rec.
Proof. unfold RecordBody. destruct (_ || _); [done|]. by destruct (_ <? _)%Z. Qed.

Lemma response_WriteHeader_flush code w : rs_flush (response_WriteHeader code w).1 = rs_flush w.
Proof. unfold response_WriteHeader. by repeat case_match. Qed.

Lemma response_Write_flush p w : rs_flush (response_Write p w).1 = rs_flush w.
Proof.
  unfold response_Write. destruct (rs_hijacked w); [done|].
  pose proof (response_WriteHeader_flush 200 w) as H.
  destruct (response_WriteHeader 200 w) as [w' [v|]]; simpl in H; [done|].
  repeat case_match; done.
Qed.

Lemma agrees_SetHeader h cw : agrees cw → agrees (SetHeader h cw).
Proof. done. Qed.

Lemma agrees_WriteHeader code cw cw' :
  cw_WriteHeader code cw = (cw', None) → agrees cw → agrees cw'.
Proof.
  unfold cw_WriteHeader. cbn [WriteHeader Header response_writer]. intros Hcw [Hf Hag].
  assert (honest_flush (cw_ResponseWriter cw')) as Hf'.
  { destruct (cw_wroteHeader cw); simpl in Hcw;
      pose proof (response_WriteHeader_flush code (cw_ResponseWriter cw)) as Hfl;
      destruct (response_WriteHeader code (cw_ResponseWriter cw)) as [w x]; simplify_eq/=;
      unfold honest_flush in *; by rewrite Hfl. }
  split; [done|]. clear Hf Hf'. destruct Hag as [Hab|[Hh Hag]].
  { left. destruct (cw_wroteHeader cw); simpl in Hcw;
      destruct (response_WriteHeader _ _) as [w x]; simplify_eq/=; [done|].
    by rewrite RecordStatus_abandoned. }
  right. unfold response_WriteHeader in Hcw.
  destruct (cw_wroteHeader cw) eqn:Ewh; cbn [negb] in Hcw.
  - cbn [cw_ResponseWriter] in Hcw. rewrite Hh in Hcw.
    destruct (rs_sent (cw_ResponseWriter cw)) as [[c h]|] eqn:Es; [|by destruct Hag].
    simplify_eq/=. rewrite Es. split; [done|]. destruct Hag as [->|Hag]; [by left|right]. by rewrite Ewh.
  - cbn [cw_ResponseWriter] in Hcw. rewrite Hh in Hcw.
    destruct (rs_sent (cw_ResponseWriter cw)) as [[c h]|] eqn:Es.
    + destruct Hag as [->|(? & _)]; [|done]. simplify_eq/=. rewrite Es. auto.
    + destruct Hag as (_ & Hst & Hrh & Hb & Hrb).
      destruct ((code <? 100)%Z || (999 <? code)%Z) eqn:Erange; [done|].
      rewrite orb_false_iff, !Z.ltb_ge in Erange.
      destruct (informational code) eqn:Einf; simplify_eq/=.
      * unfold informational in Einf. rewrite !andb_true_iff, !Z.leb_le in Einf.
        rewrite Es. split; [done|]. unfold RecordStatus.
        rewrite (proj2 (Z.leb_le 100 code)), (proj2 (Z.ltb_lt code 200)), (proj2 (Z.leb_gt 200 code)) by lia.
        rewrite orb_true_r. done.
      * split; [done|]. destruct (decide (code = 101%Z)) as [->|Hne]; [by left|right].
        assert (200 ≤ code)%Z as Hge.
        { unfold informational in Einf. destruct (Z.leb_spec 100 code); [|lia].
          destruct (Z.leb_spec code 199); [|lia]. simpl in Einf.
          apply negb_false_iff, Z.eqb_eq in Einf. done. }
        rewrite (proj2 (Z.leb_le 200 code)) by done. unfold RecordStatus. rewrite Hst.
        rewrite (proj2 (Z.ltb_ge code 200)) by done. rewrite andb_false_r. simpl.
        split_and!; try done; try lia. right. rewrite Hb, Hrb. unfold body_sent. by case_match.
Qed.

(** Sending a final status, and writing once it is sent. *)
Lemma WriteHeader_final code w :
  rs_sent w = None → rs_hijacked w = false → (200 ≤ code ≤ 999)%Z →
  response_WriteHeader code w = (set_sent (Some (code, rs_header w)) w, None).
Proof.
  intros Hs Hh Hc. unfold response_WriteHeader, informational. rewrite Hs, Hh.
  rewrite (proj2 (Z.ltb_ge code 100)), (proj2 (Z.ltb_ge 999 code)) by lia.
  rewrite (proj2 (Z.leb_gt code 199)) by lia. by rewrite andb_false_r.
Qed.

Lemma Write_sent p w c h w' x :
  rs_sent w = Some (c, h) → rs_hijacked w = false → response_Write p w = (w', x) →
  rs_hijacked w' = false ∧ rs_sent w' = Some (c, h) ∧ rs_body w' = rs_body w ++ body_sent c p ∧
  ∃ y, x = inl y.
Proof.
  intros Hs Hh Hw. unfold response_Write, response_WriteHeader in Hw. rewrite Hh, Hs in Hw.
  unfold sent_status, body_sent in *. rewrite Hs in Hw.
  destruct (bool_decide (p = [])) eqn:Ep; [|destruct (bodyAllowed c)]; simplify_eq/=.
  - apply bool_decide_eq_true in Ep as ->.
    assert ((if bodyAllowed c then [] else []) = @nil byte) as -> by (by destruct (bodyAllowed c)).
    rewrite app_nil_r. eauto.
  - eauto.
  - rewrite app_nil_r. eauto.
Qed.

(** After the writer has committed to a status, a write reaches the client
    when the status allows a body, and the capture either way. *)
Lemma agrees_body p cw cw' x :
  agrees cw → cw_wroteHeader cw = true →
  (let cw := set_rec (RecordBody p (cw_rec cw)) cw in
   let '(w, x) := response_Write p (cw_ResponseWriter cw) in (set_rw w cw, x)) = (cw', x) →
  agrees cw'.
Proof.
  intros [Hf Hag] Ewh Hcw.
  cbn [set_rec cw_ResponseWriter] in Hcw.
  pose proof (response_Write_flush p (cw_ResponseWriter cw)) as Hfl.
  destruct (response_Write p (cw_ResponseWriter cw)) as [w y] eqn:Ew. simplify_eq/=.
  split; [unfold honest_flush in *; simpl; by rewrite Hfl|].
  destruct (rec_abandoned (cw_rec cw)) eqn:Ea; [left; by simpl; rewrite RecordBody_abandoned|].
  destruct Hag as [?|[Hh Hag]]; [done|].
  cbn [set_rw set_rec cw_ResponseWriter cw_rec cw_wroteHeader].
  destruct (rs_sent (cw_ResponseWriter cw)) as [[c h]|] eqn:Es; [|by destruct Hag; congruence].
  destruct (Write_sent _ _ _ _ _ _ Es Hh Ew) as (Hh' & Hs' & Hb' & _).
  right. split; [done|]. rewrite Hs', Hb'.
  destruct Hag as [->|(_ & Hst & Hrh & Hc & Hb)]; [by left|right].
  unfold RecordBody. destruct (rec_overflowed (cw_rec cw)) eqn:Eo; cbn [orb].
  - rewrite Eo. split_and!; try done; try apply Hc. by left.
  - destruct Hb as [?|Hb]; [done|]. rewrite Ea.
    destruct (_ <? _)%Z; simpl; split_and!; try done; try apply Hc; [by left|right].
    rewrite Hb. unfold body_sent. by destruct (bodyAllowed c).
Qed.

Lemma agrees_Write p cw cw' x : cw_Write p cw = (cw', inl x) → agrees cw → agrees cw'.
Proof.
  unfold cw_Write. intros Hcw Hag. destruct (cw_wroteHeader cw) eqn:Ewh; cbn [negb] in Hcw.
  - by eapply agrees_body.
  - destruct (cw_WriteHeader 200 cw) as [cw1 [v|]] eqn:E1; [done|].
    eapply agrees_body; [by eapply agrees_WriteHeader| |exact Hcw].
    unfold cw_WriteHeader in E1. rewrite Ewh in E1. simpl in E1.
    destruct (response_WriteHeader _ _) as [w y]. by simplify_eq/=.
Qed.

Lemma agrees_Flush cw : agrees cw → agrees (cw_flush cw).1.
Proof.
  intros [Hf Hag]. unfold cw_flush. cbn [Flush response_writer]. unfold response_Flush.
  pose proof (response_WriteHeader_flush 200 (cw_ResponseWriter cw)) as Hfl.
  destruct (rs_flush (cw_ResponseWriter cw)) as [|e|] eqn:Ef; simpl.
  - split; [|by left]. intros e. simpl. by rewrite Hfl.
  - rewrite (Hf e Ef). simpl. split; [|by left]. intros e'. simpl. rewrite Hfl. intros [= <-]. by apply Hf.
  - split; [intros e; simpl; congruence|]. exact Hag.
Qed.

Lemma agrees_Hijack cw : agrees cw → agrees (cw_Hijack cw).1.
Proof.
  intros [Hf Hag]. unfold cw_Hijack. cbn [Hijack response_writer]. unfold response_Hijack.
  destruct (rs_hijack (cw_ResponseWriter cw)) as [e|]; simpl; [by split|].
  destruct (rs_hijacked (cw_ResponseWriter cw)) eqn:E; simpl; [|by split; [|left]].
  split; [done|]. destruct Hag as [?|[? _]]; [by left|congruence].
Qed.

(** A response nothing was sent on yet. *)
Definition fresh (w : response) : Prop :=
  rs_sent w = None ∧ rs_hijacked w = false ∧ rs_body w = [] ∧ honest_flush w.

Lemma agrees_initial w maxb names :
  fresh w → agrees (mkCaptureWriter w (NewRecorder maxb names) false).
Proof. intros (Hs & Hh & Hb & Hf). split; [done|]. right. split; [done|]. simpl. by rewrite Hs. Qed.

Lemma hrun_agrees {S} `{Store S} ctx p (s s' : hstate (captureWriter response)) (wd wd' : world S) :
  agrees (hs_w s) → run (hrun ctx p s) wd = ((s', Returned), wd') → agrees (hs_w s').
Proof.
  apply (hrun_inv agrees).
  - apply agrees_SetHeader.
  - intros code w w' E. exact (agrees_WriteHeader code w w' E).
  - intros b w w' x E. exact (agrees_Write b w w' x E).
  - apply agrees_Flush.
  - apply agrees_Hijack.
  - done.
Qed.

(** The configuration of a Recorder does not change. *)
Definition recorder_of (maxb : Z) (names : list bytes) (cw : captureWriter response) : Prop :=
  recorded maxb names (cw_rec cw).

Lemma hrun_recorded {S} `{Store S} maxb names ctx p (s s' : hstate (captureWriter response))
    (wd wd' : world S) :
  recorder_of maxb names (hs_w s) → run (hrun ctx p s) wd = ((s', Returned), wd') →
  recorder_of maxb names (hs_w s').
Proof.
  unfold recorder_of.
  apply (hrun_inv (λ cw, recorded maxb names (cw_rec cw))).
  - done.
  - intros code w w' E ?. simpl in E. unfold cw_WriteHeader in E.
    destruct (WriteHeader code _) as [w1 x]. simplify_eq/=.
    destruct (cw_wroteHeader w); simpl; [done|]. by constructor.
  - intros b w w' x E ?. simpl in E. unfold cw_Write, cw_WriteHeader in E.
    destruct (cw_wroteHeader w); simpl in E; repeat case_match; simplify_eq/=;
      repeat constructor; done.
  - intros w ?. simpl. unfold cw_flush. simpl. destruct (response_Flush _) as [w1 [e|]]; simpl;
      [destruct (negb _)|]; simpl; try done; by constructor.
  - intros w ?. simpl. unfold cw_Hijack. simpl. destruct (response_Hijack _) as [w1 [e|]]; simpl;
      [done|by constructor].
  - done.
Qed.

Lemma finalize_recorded maxb names cw :
  recorder_of maxb names cw → recorder_of maxb names (finalize cw).
Proof. unfold recorder_of, finalize. intros. destruct (cw_wroteHeader cw); simpl; [done|by constructor]. Qed.

(** A usable capture is what the client received. *)
Lemma captured_faithful cw sr :
  agrees cw → rec_StoredResponse (cw_rec (finalize cw)) = Some sr →
  let live := finish_response (cw_ResponseWriter (finalize cw)) in
  sent_status live ≠ 101%Z →
  ∃ h, rs_sent live = Some (StatusCode sr, h) ∧
       sr_Header sr = snapshot (allow (cw_rec (finalize cw))) h ∧
       rs_body live = body_sent (StatusCode sr) (sr_Body sr) ∧ (200 ≤ StatusCode sr ≤ 999)%Z.
Proof.
  intros [_ Hag] Hsr. cbv zeta. unfold finish_response, response_WriteHeader.
  assert (cw_ResponseWriter (finalize cw) = cw_ResponseWriter cw) as ->
    by (unfold finalize; by destruct (cw_wroteHeader cw)).
  assert (rec_abandoned (cw_rec (finalize cw)) = rec_abandoned (cw_rec cw)) as Hab.
  { unfold finalize. destruct (cw_wroteHeader cw); [done|]. simpl. by rewrite RecordStatus_abandoned. }
  unfold rec_StoredResponse in Hsr. rewrite Hab in Hsr.
  destruct (rec_overflowed (cw_rec (finalize cw))) eqn:Eo; [done|].
  destruct (rec_abandoned (cw_rec cw)) eqn:Ea; [done|]. cbn [orb] in Hsr.
  destruct Hag as [?|[Hh Hag]]; [done|]. rewrite Hh. simplify_eq/=.
  destruct (rs_sent (cw_ResponseWriter cw)) as [[code h]|] eqn:Es; cbn [fst].
  - unfold sent_status. rewrite Es. intros H101. exists h.
    destruct Hag as [?|(Hwh & Hst & Hrh & Hc & Hb)]; [done|].
    unfold finalize in *. rewrite Hwh in *. simpl in *.
    destruct Hb as [?|Hb]; [congruence|]. rewrite Hrh. unfold Status. rewrite Hst.
    rewrite (proj2 (Z.eqb_neq code 0)) by lia. done.
  - intros _. destruct Hag as (Hwh & Hst & Hrh & Hb & Hrb). unfold finalize. rewrite Hwh. simpl.
    exists (rs_header (cw_ResponseWriter cw)). unfold RecordStatus. rewrite Hst. simpl.
    rewrite Hb, Hrb. done.
Qed.

(** A replay onto a response nothing was sent on. *)
Lemma WriteStored_fresh sr w :
  fresh w → (200 ≤ StatusCode sr ≤ 999)%Z →
  ∃ w' err, WriteStored sr w = (w', inl err) ∧ finish_response w' = w' ∧
    rs_sent w' = Some (StatusCode sr, sr_Header sr ∪ rs_header w) ∧
    rs_body w' = body_sent (StatusCode sr) (sr_Body sr).
Proof.
  intros (Hs & Hh & Hb & _) Hc. unfold WriteStored.
  cbn [SetHeader WriteHeader Write Header response_writer].
  rewrite WriteHeader_final by done. set (w1 := set_sent _ _).
  destruct (response_Write (sr_Body sr) w1) as [w' x] eqn:E.
  destruct (Write_sent _ w1 _ _ _ _ eq_refl Hh E) as (Hh' & Hs' & Hb' & [n err] & ->).
  exists w', err. split; [done|]. split.
  - unfold finish_response, response_WriteHeader. by rewrite Hh', Hs'.
  - split; [exact Hs'|]. rewrite Hb'. subst w1. simpl. by rewrite Hb.
Qed.

(** A handler's usable capture against what was sent, and its replay. *)
Lemma capture_and_replay {S} `{Store S} (ctx : context) (p : handler_prog) (maxb : Z)
    (names : list bytes) (w w1 : response) (b : boxes) (body : option reader)
    (wd wd' : world S) (s : hstate (captureWriter response)) (sr : StoredResponse) :
  fresh w → fresh w1 →
  run (hrun ctx p (mkHState (mkCaptureWriter w (NewRecorder maxb names) false) b body)) wd
    = ((s, Returned), wd') →
  rec_StoredResponse (cw_rec (finalize (hs_w s))) = Some sr →
  let sent := finish_response (cw_ResponseWriter (finalize (hs_w s))) in
  sent_status sent ≠ 101%Z →
  ∃ h w' err, rs_sent sent = Some (StatusCode sr, h) ∧ (200 ≤ StatusCode sr ≤ 999)%Z ∧
    sr_Header sr = snapshot (allow (NewRecorder maxb names)) h ∧
    (sr_Body sr ≠ [] → (Z.of_nat (length (sr_Body sr)) ≤ maxb)%Z) ∧
    WriteStored sr w1 = (w', inl err) ∧ finish_response w' = w' ∧
    rs_sent w' = Some (StatusCode sr, sr_Header sr ∪ rs_header w1) ∧ rs_body w' = rs_body sent.
Proof.
  intros Hw Hw1 Hrun Hsr. cbv zeta. intros H101.
  assert (agrees (hs_w s)) as Hag.
  { eapply hrun_agrees; [|exact Hrun]. by apply agrees_initial. }
  assert (recorder_of maxb names (finalize (hs_w s))) as Hrec.
  { apply finalize_recorded. eapply hrun_recorded; [|exact Hrun]. apply recorded_new. }
  destruct (captured_faithful _ _ Hag Hsr H101) as (h & Hsent & Hhdr & Hbody & Hc).
  destruct (WriteStored_fresh _ _ Hw1 Hc) as (w' & err & Hws & Hfin & Hs' & Hb').
  destruct (recorded_inv _ _ _ Hrec) as [_ Ha _ Hb _].
  exists h, w', err. rewrite Hs', Hb', Hbody. split; [done|]. split; [done|].
  split; [by rewrite Hhdr, Ha|]. split; [|done].
  unfold rec_StoredResponse in Hsr. destruct (_ || _); [done|]. by simplify_eq/=.
Qed.

(** ** Claims *)

(** C32. What a Recorder hands out is safe to store: every header in it has
    the canonical name of an allowlisted header, is none of the
    always-excluded ones - not even when those are listed - and has a
    value; the body is within the limit; the status is never informational.
    Nothing is handed out once the capture overflowed or was abandoned. *)
Theorem Recorder_safe (maxb : Z) (names : list bytes) (rec : Recorder) (sr : StoredResponse) :
  recorded maxb names rec → rec_StoredResponse rec = Some sr →
  map_Forall (λ name values,
    name ∉ alwaysExcludedHeaders ∧ values ≠ [] ∧
    ∃ n, n ∈ names ∧ CanonicalMIMEHeaderKey n = name) (sr_Header sr) ∧
  (sr_Body sr ≠ [] → (Z.of_nat (length (sr_Body sr)) ≤ maxb)%Z) ∧
  ¬ (100 ≤ StatusCode sr < 200)%Z ∧ rec_overflowed rec = false ∧ rec_abandoned rec = false.
Proof.
  intros Hrec Hsr. destruct (recorded_inv _ _ _ Hrec) as [_ Ha Hh Hb Hs].
  unfold rec_StoredResponse in Hsr. destruct (rec_overflowed rec); [done|].
  destruct (rec_abandoned rec); [done|]. simplify_eq/=. split_and!; try done.
  - intros name vs Hl. destruct (rec_header rec) as [h|] eqn:Eh; [|done].
    destruct (Hh h eq_refl) as [full ->]. simpl in Hl. rewrite lookup_snapshot in Hl.
    case_decide as Hd; [|done]. destruct Hd as [Hin Hv]. simplify_eq.
    rewrite Ha in Hin. apply (NewRecorder_allow maxb names name) in Hin. by destruct Hin.
  - unfold Status. destruct (Z.eqb_spec (rec_status rec) 0); lia.
Qed.

(** C31. The capturing writer is invisible.  Over any writer whose Write
    sends the implicit 200, a handler run under capture sees the same
    results of every call - reads, writes, flushes, hijacks, store calls -
    panics or returns alike, and leaves the underlying writer, the boxes
    and the store exactly as without the capture. *)
Theorem capture_transparent {W S} `{ImplicitOK W} `{Store S} (ctx : context) (p : handler_prog)
    (w : W) (rec : Recorder) (b : boxes) (body : option reader) (wd : world S) :
  let '((s, how), wd') := run (hrun ctx p (mkHState (mkCaptureWriter w rec false) b body)) wd in
  run (hrun ctx p (mkHState w b body)) wd =
    ((mkHState (cw_ResponseWriter (hs_w s)) (hs_boxes s) (hs_body s), how), wd').
Proof.
  pose proof (hrun_uncaptured ctx p (mkHState (mkCaptureWriter w rec false) b body) wd) as Hu.
  destruct (run (hrun ctx p (mkHState (mkCaptureWriter w rec false) b body)) wd) as [[s how] wd'].
  exact Hu.
Qed.

(** C29. Replays are faithful.  When a handler returned under capture and
    the capture is usable, then on every response nothing was sent on, a
    replay of the capture sends the very status and body the client of the
    live response got - the implicit 200 and the bodiless statuses included
    - and, for each allowlisted header, the very values the live response
    was sent with.  (A response that switched protocols is excepted.) *)
Theorem replay_faithful {S} `{Store S} (ctx : context) (p : handler_prog) (maxb : Z)
    (names : list bytes) (w w1 : response) (b : boxes) (body : option reader)
    (wd wd' : world S) (s : hstate (captureWriter response)) (sr : StoredResponse) :
  fresh w → fresh w1 →
  run (hrun ctx p (mkHState (mkCaptureWriter w (NewRecorder maxb names) false) b body)) wd
    = ((s, Returned), wd') →
  rec_StoredResponse (cw_rec (finalize (hs_w s))) = Some sr →
  let sent := finish_response (cw_ResponseWriter (finalize (hs_w s))) in
  let replayed := finish_response (WriteStored sr w1).1 in
  sent_status sent ≠ 101%Z →
  ∃ h, rs_sent sent = Some (StatusCode sr, h) ∧
       rs_sent replayed = Some (StatusCode sr, sr_Header sr ∪ rs_header w1) ∧
       rs_body replayed = rs_body sent ∧
       ∀ name, sr_Header sr !! name =
         if decide (name ∈ allow (NewRecorder maxb names) ∧ Header.Values h name ≠ [])
         then Some (Header.Values h name) else None.
Proof.
  intros Hw Hw1 Hrun Hsr. cbv zeta. intros H101.
  destruct (capture_and_replay _ _ _ _ _ _ _ _ _ _ _ _ Hw Hw1 Hrun Hsr H101)
    as (h & w' & err & Hs & _ & Hh & _ & Hws & Hfin & Hs' & Hb').
  exists h. rewrite Hws. cbn [fst]. rewrite Hfin, Hs', Hb'. split_and!; try done.
  intros name. by rewrite Hh, lookup_snapshot.
Qed.

Module ExampleCapture.

Definition names : list bytes := [bs "content-type"; bs "Set-Cookie"].
Definition handler : handler_prog :=
  HHeader (λ h, HSetHeader (Header.Set' (bs "Set-Cookie") (bs "sid=1")
                              (Header.Set' (bs "Content-Type") (bs "text/plain") h))
  (HWriteHeader 103 (HWriteHeader 201 (HWrite (bs "created") (λ _, HReturn))))).
Definition w : response := new_response FlushWorks None.
Definition wd : world memstore.Store := mkWorld memstore.New (mkInstant 0%Z 0%Z) [] [] [].
Definition start : hstate (captureWriter response) :=
  mkHState (mkCaptureWriter w (NewRecorder 100 names) false) (mkBoxes [] []) None.
Definition end_state : hstate (captureWriter response) :=
  (run (hrun Background handler start) wd).1.1.
Definition end_world : world memstore.Store := (run (hrun Background handler start) wd).2.
Lemma returned : run (hrun Background handler start) wd = ((end_state, Returned), end_world).
Proof. apply pair_outcome. reflexivity. Qed.
Definition sr : StoredResponse :=
  mkStoredResponse 201 (<[bs "Content-Type" := [bs "text/plain"]]> ∅) (bs "created").

End ExampleCapture.

Lemma Recorder_safe_witness :
  bs "Set-Cookie" ∉ dom (sr_Header ExampleCapture.sr) ∧
  map_Forall (λ name _, name ∉ alwaysExcludedHeaders) (sr_Header ExampleCapture.sr).
Proof.
  assert (recorded 100 ExampleCapture.names (cw_rec (hs_w ExampleCapture.end_state))) as Hrec.
  { apply (hrun_recorded 100 ExampleCapture.names Background ExampleCapture.handler
      ExampleCapture.start ExampleCapture.end_state ExampleCapture.wd ExampleCapture.end_world).
    - apply recorded_new.
    - exact ExampleCapture.returned. }
  destruct (Recorder_safe _ _ _ ExampleCapture.sr Hrec) as (Hall & _); [vm_compute; reflexivity|].
  split; [apply (bool_decide_unpack (bs "Set-Cookie" ∉ dom (sr_Header ExampleCapture.sr))); vm_compute; exact I|].
  intros name vs Hl. by apply (Hall name vs).
Defined.

Lemma capture_transparent_witness :
  run (hrun Background ExampleCapture.handler
         (mkHState ExampleCapture.w (mkBoxes [] []) None)) ExampleCapture.wd =
    ((mkHState (cw_ResponseWriter (hs_w ExampleCapture.end_state))
        (hs_boxes ExampleCapture.end_state) (hs_body ExampleCapture.end_state), Returned),
     ExampleCapture.end_world).
Proof.
  pose proof (capture_transparent Background ExampleCapture.handler ExampleCapture.w
    (NewRecorder 100 ExampleCapture.names) (mkBoxes [] []) None ExampleCapture.wd) as H.
  pose proof ExampleCapture.returned as Hr. unfold ExampleCapture.start in Hr.
  rewrite Hr in H. exact H.
Defined.

Lemma replay_faithful_witness :
  rs_body (finish_response (WriteStored ExampleCapture.sr ExampleCapture.w).1) = bs "created".
Proof.
  destruct (replay_faithful Background ExampleCapture.handler 100 ExampleCapture.names
    ExampleCapture.w ExampleCapture.w (mkBoxes [] []) None ExampleCapture.wd ExampleCapture.end_world
    ExampleCapture.end_state ExampleCapture.sr) as (h & _ & _ & Hb & _).
  - repeat split. discriminate.
  - repeat split. discriminate.
  - exact ExampleCapture.returned.
  - vm_compute. reflexivity.
  - vm_compute. discriminate.
  - rewrite Hb. vm_compute. reflexivity.
Defined.
