(* ===== verification/Config.v ===== *)
(** * Configuration of the middleware (httpidem/httpidem.go)

    The config record, the Option functions and the defaults of New.  The
    logger is the log of the world a program runs in. *)
From S2P Require Import Prelude GoLib GoHttp Errors Core Context Http Problem.
Import Time.

Module httpidem.

Definition DefaultMaxRequestBody : Z := 2 ^ 20.
Definition DefaultMaxResponseBody : Z := 2 ^ 20.
Definition maxStoredResponseOverhead : Z := 64 * 2 ^ 10.

(** type config; the method set holds the methods mapped to true. *)
Record config := mkConfig {
  require : bool;
  leaseTTL : Duration;
  recordTTL : Duration;
  maxRequestBody : Z;
  maxResponseBody : Z;
  bypassLargeBody : bool;
  policy : ReplayPolicy;
  errorWriter : ErrorWriter;
  failOpen : bool;
  methods : gset bytes;
  storeHeaders : list bytes;
  keyScope : option (Request → bytes);
  keyValidator : option (bytes → bool);
  hashKeysInLogs : bool;
  replayedHeader : bool;
}.

(** type Option *)
Definition Option : Type := config → config.

Definition Require (v : bool) : Option := λ c,
  mkConfig v (leaseTTL c) (recordTTL c) (maxRequestBody c) (maxResponseBody c)
    (bypassLargeBody c) (policy c) (errorWriter c) (failOpen c) (methods c)
    (storeHeaders c) (keyScope c) (keyValidator c) (hashKeysInLogs c) (replayedHeader c).
Definition LeaseTTL (d : Duration) : Option := λ c,
  mkConfig (require c) d (recordTTL c) (maxRequestBody c) (maxResponseBody c)
    (bypassLargeBody c) (policy c) (errorWriter c) (failOpen c) (methods c)
    (storeHeaders c) (keyScope c) (keyValidator c) (hashKeysInLogs c) (replayedHeader c).
Definition RecordTTL (d : Duration) : Option := λ c,
  mkConfig (require c) (leaseTTL c) d (maxRequestBody c) (maxResponseBody c)
    (bypassLargeBody c) (policy c) (errorWriter c) (failOpen c) (methods c)
    (storeHeaders c) (keyScope c) (keyValidator c) (hashKeysInLogs c) (replayedHeader c).
Definition MaxRequestBody (n : Z) : Option := λ c,
  mkConfig (require c) (leaseTTL c) (recordTTL c) n (maxResponseBody c)
    (bypassLargeBody c) (policy c) (errorWriter c) (failOpen c) (methods c)
    (storeHeaders c) (keyScope c) (keyValidator c) (hashKeysInLogs c) (replayedHeader c).
Definition MaxResponseBody (n : Z) : Option := λ c,
  mkConfig (require c) (leaseTTL c) (recordTTL c) (maxRequestBody c) n
    (bypassLargeBody c) (policy c) (errorWriter c) (failOpen c) (methods c)
    (storeHeaders c) (keyScope c) (keyValidator c) (hashKeysInLogs c) (replayedHeader c).
Definition BypassLargeBody (v : bool) : Option := λ c,
  mkConfig (require c) (leaseTTL c) (recordTTL c) (maxRequestBody c) (maxResponseBody
    c) v (policy c) (errorWriter c) (failOpen c) (methods c) (storeHeaders c) (keyScope
    c) (keyValidator c) (hashKeysInLogs c) (replayedHeader c).
Definition Policy (p : ReplayPolicy) : Option := λ c,
  mkConfig (require c) (leaseTTL c) (recordTTL c) (maxRequestBody c) (maxResponseBody
    c) (bypassLargeBody c) p (errorWriter c) (failOpen c) (methods c) (storeHeaders c)
    (keyScope c) (keyValidator c) (hashKeysInLogs c) (replayedHeader c).
Definition Errors (ew : ErrorWriter) : Option := λ c,
  mkConfig (require c) (leaseTTL c) (recordTTL c) (maxRequestBody c) (maxResponseBody
    c) (bypassLargeBody c) (policy c) ew (failOpen c) (methods c) (storeHeaders c)
    (keyScope c) (keyValidator c) (hashKeysInLogs c) (replayedHeader c).
Definition FailOpen (v : bool) : Option := λ c,
  mkConfig (require c) (leaseTTL c) (recordTTL c) (maxRequestBody c) (maxResponseBody
    c) (bypassLargeBody c) (policy c) (errorWriter c) v (methods c) (storeHeaders c)
    (keyScope c) (keyValidator c) (hashKeysInLogs c) (replayedHeader c).
Definition Methods (ms : list bytes) : Option := λ c,
  mkConfig (require c) (leaseTTL c) (recordTTL c) (maxRequestBody c) (maxResponseBody
    c) (bypassLargeBody c) (policy c) (errorWriter c) (failOpen c) (list_to_set (ToUpper
    <$> ms)) (storeHeaders c) (keyScope c) (keyValidator c) (hashKeysInLogs c)
    (replayedHeader c).
Definition StoreHeaders (names : list bytes) : Option := λ c,
  mkConfig (require c) (leaseTTL c) (recordTTL c) (maxRequestBody c) (maxResponseBody
    c) (bypassLargeBody c) (policy c) (errorWriter c) (failOpen c) (methods c) names
    (keyScope c) (keyValidator c) (hashKeysInLogs c) (replayedHeader c).
Definition KeyScope (fn : Request → bytes) : Option := λ c,
  mkConfig (require c) (leaseTTL c) (recordTTL c) (maxRequestBody c) (maxResponseBody
    c) (bypassLargeBody c) (policy c) (errorWriter c) (failOpen c) (methods c)
    (storeHeaders c) (Some fn) (keyValidator c) (hashKeysInLogs c) (replayedHeader c).
Definition KeyValidator (fn : bytes → bool) : Option := λ c,
  mkConfig (require c) (leaseTTL c) (recordTTL c) (maxRequestBody c) (maxResponseBody
    c) (bypassLargeBody c) (policy c) (errorWriter c) (failOpen c) (methods c)
    (storeHeaders c) (keyScope c) (Some fn) (hashKeysInLogs c) (replayedHeader c).
Definition HashKeysInLogs (v : bool) : Option := λ c,
  mkConfig (require c) (leaseTTL c) (recordTTL c) (maxRequestBody c) (maxResponseBody
    c) (bypassLargeBody c) (policy c) (errorWriter c) (failOpen c) (methods c)
    (storeHeaders c) (keyScope c) (keyValidator c) v (replayedHeader c).
Definition ReplayedHeader (v : bool) : Option := λ c,
  mkConfig (require c) (leaseTTL c) (recordTTL c) (maxRequestBody c) (maxResponseBody
    c) (bypassLargeBody c) (policy c) (errorWriter c) (failOpen c) (methods c)
    (storeHeaders c) (keyScope c) (keyValidator c) (hashKeysInLogs c) v.

Definition default_config : config :=
  mkConfig false 0%Z 0%Z DefaultMaxRequestBody DefaultMaxResponseBody false DefaultPolicy
    DefaultErrorWriter false {[bs "POST"; bs "PATCH"]}
    [bs "Content-Type"; bs "Content-Language"; bs "Content-Encoding"; bs "Content-Disposition";
     bs "Location"]
    None None false true.

(** The configuration New builds from its options, applied in order. *)
Definition New_config (opts : list Option) : config := foldl (λ c o, o c) default_config opts.

End httpidem.
