(* ===== verification/Middleware.v ===== *)
(** * The middleware (httpidem/httpidem.go)

    ServeHTTP as a program over the store: the guards in the order of the
    code, Begin, the handler under capture, Finish, the logs; the deferred
    recovery is the branch of a panicked handler.  The writer is any
    ResponseWriter. *)
From S2P Require Import Prelude GoLib GoHttp Errors Record Store Effects Core Key Sha256.
From S2P Require Import Fingerprint StoredResponse Context Http Recorder Problem Config.
Import Time.
Import httpidem.

Module middleware.

Section serve.
Context {W : Type} `{ResponseWriter W}.

(** [retryAfterSeconds]: int64 arithmetic, rounding up, at least 1. *)
Definition retryAfterSeconds (d : Duration) : bytes :=
  let secs := Z.quot (i64 (i64 (d + Second) - 1)) Second in
  let secs := if (secs <? 1)%Z then 1%Z else secs in
  FormatInt secs.

Definition hashForLog (s : bytes) : bytes :=
  bs "sha256:" ++ EncodeToString (take 8 (sha256.Sum256 s)).

(** The log attributes of every line. *)
Definition keyAttrs (cfg : config) (scope key : bytes) : list (bytes * bytes) :=
  let hashed := hashKeysInLogs cfg in
  let key := if hashed then hashForLog key else key in
  let scope := if hashed && negb (bool_decide (scope = [])) then hashForLog scope else scope in
  (bs "idempotency_key", key) ::
  (if negb (bool_decide (scope = [])) then [(bs "idempotency_scope", scope)] else []).

(** [readBody]: the body and whether it overflows, or the read error; the
    request keeps what was not read.  [max+1] is int64 arithmetic. *)
Definition readBody (r : Request) (max : Z) : (bytes * bool + error) * Request :=
  match r_Body r with
  | None => (inl ([], false), r)
  | Some rd =>
      let '(x, rd) := ReadAllLimited (i64 (max + 1)) rd in
      let r := set_body r rd in
      match x with
      | inr err => (inr err, r)
      | inl body => (inl (body, (max <? Z.of_nat (length body))%Z), r)
      end
  end.

(** [cfg.errorWriter.WriteError(w, r, status, err)]. *)
Definition WriteError (cfg : config) (w : W) (r : Request) (b : boxes) (status : Z) (err : error)
    : prog (hstate W * outcome) :=
  serve (λ r, errorWriter cfg r status (Some err)) w r b.

Definition writeReplay (cfg : config) (w : W) (r : Request) (b : boxes) (scope key payload : bytes)
    : prog (hstate W * outcome) :=
  if (i64 (maxResponseBody cfg + maxStoredResponseOverhead) <? Z.of_nat (length payload))%Z then
    _ ← LogError "httpidem: stored payload exceeds the configured response limits; refusing to replay"
          (keyAttrs cfg scope key ++ [(bs "payload_bytes", FormatInt (Z.of_nat (length payload)))]);
    WriteError cfg w r b 500 errCorruptStoredResponse
  else
    match UnmarshalBinary payload with
    | inr err =>
        _ ← LogError "httpidem: stored response payload is corrupted"
              (keyAttrs cfg scope key ++ error_attr err);
        WriteError cfg w r b 500 err
    | inl sr =>
        let w :=
          if replayedHeader cfg
          then SetHeader (Header.Set' HeaderIdempotencyReplayed (bs "true") (Header w)) w
          else w in
        let '(w, res) := WriteStored sr w in
        mret (mkHState w b (r_Body r),
              match res with inl _ => Returned | inr v => Panicked v end)
    end.

(** Finish with Discard, logging [msg] when the store fails. *)
Definition discard_logging (cfg : config) (scope key storeKey token : bytes) (o : Options)
    (msg : string) : prog () :=
  '(_, ferr) ← Finish storeKey token Discard [] o;
  match ferr with
  | Some ferr => Warn msg (keyAttrs cfg scope key ++ error_attr ferr)
  | None => mret ()
  end.

(** The decision after the policy: streamed and overflowed captures are
    discarded, with a log line. *)
Definition capture_decision (cfg : config) (scope key : bytes) (rec : Recorder) (d : Decision)
    : prog Decision :=
  if bool_decide (d = Persist) then
    if rec_abandoned rec then
      _ ← Warn "httpidem: response was streamed (Flush/Hijack); discarding instead of persisting"
            (keyAttrs cfg scope key);
      mret Discard
    else if rec_overflowed rec then
      _ ← Warn "httpidem: response exceeds MaxResponseBody; discarding instead of persisting"
            (keyAttrs cfg scope key);
      mret Discard
    else mret d
  else mret d.

(** The payload of a persisting decision; a failed encoding discards. *)
Definition encode_payload (cfg : config) (scope key : bytes) (rec : Recorder) (d : Decision)
    : prog (Decision * bytes) :=
  if bool_decide (d = Persist) then
    match MarshalBinary (default (mkStoredResponse 0 ∅ []) (rec_StoredResponse rec)) with
    | inl payload => mret (d, payload)
    | inr err =>
        _ ← Warn "httpidem: encoding stored response failed; discarding"
              (keyAttrs cfg scope key ++ error_attr err);
        mret (Discard, [])
    end
  else mret (d, []).

(** The switch on the result of Finish: a failed persist logs and releases,
    a failed release logs, a lost lease logs. *)
Definition after_finish (cfg : config) (scope key storeKey token : bytes) (o : Options)
    (decision : Decision) (leaseLost : bool) (err : option error) : prog () :=
  match err with
  | Some err =>
      if bool_decide (decision = Persist) then
        _ ← Warn "httpidem: persisting response failed; idempotency temporarily weakened"
              (keyAttrs cfg scope key ++ error_attr err);
        discard_logging cfg scope key storeKey token o
          "httpidem: best-effort release failed; key stays reserved until lease expiry"
      else
        Warn "httpidem: releasing reservation failed; key stays reserved until lease expiry"
          (keyAttrs cfg scope key ++ error_attr err)
  | None =>
      if leaseLost then
        Warn "httpidem: lease lost during execution; response returned but not stored for replay"
          (keyAttrs cfg scope key ++ [(bs "event", bs "lease_lost")])
      else mret ()
  end.

(** Everything after the handler returned without having finished. *)
Definition finish_response_record (cfg : config) (scope key storeKey token : bytes) (o : Options)
    (rec : Recorder) (handlerErr : option error) : prog () :=
  let decision := policy cfg (Status rec) handlerErr in
  decision ← capture_decision cfg scope key rec decision;
  '(decision, payload) ← encode_payload cfg scope key rec decision;
  '(leaseLost, err) ← Finish storeKey token decision payload o;
  after_finish cfg scope key storeKey token o decision leaseLost err.

(** The request the handler runs with: its context carries the error
    channel, the reservation and the finish channel. *)
Definition proceed_context (ctx : context) (b : boxes) (rsv : Reservation)
    : context * boxes * (boxes → option error) * (boxes → bool) :=
  let '(ctx, b, handlerErr) := ErrorChannel ctx b in
  let ctx := ContextWithReservation ctx rsv in
  let '(ctx, b, finished) := FinishChannel ctx b in
  (ctx, b, handlerErr, finished).

Definition strip (s : hstate (captureWriter W)) : hstate W :=
  set_w (cw_ResponseWriter (hs_w s)) s.

(** Proceed: run the handler under capture, then Finish. *)
Definition proceed (cfg : config) (next : Handler) (w : W) (r : Request) (b : boxes)
    (scope key storeKey token : bytes) (o : Options) : prog (hstate W * outcome) :=
  let cw := mkCaptureWriter w (NewRecorder (maxResponseBody cfg) (storeHeaders cfg)) false in
  let '(ctx, b, handlerErr, finished) :=
    proceed_context (r_ctx r) b (mkReservation storeKey token (Effective o)) in
  '(s, how) ← serve next cw (WithContext r ctx) b;
  match how with
  | Panicked v =>
      _ ← (if finished (hs_boxes s) then mret ()
           else discard_logging cfg scope key storeKey token o
                  "httpidem: releasing reservation after handler panic failed");
      mret (strip s, Panicked v)
  | Returned =>
      let s := set_w (finalize (hs_w s)) s in
      if finished (hs_boxes s) then mret (strip s, Returned) else
      _ ← finish_response_record cfg scope key storeKey token o (cw_rec (hs_w s))
            (handlerErr (hs_boxes s));
      mret (strip s, Returned)
  end.

(** From Begin on; [r] holds the buffered body. *)
Definition begin_and_act (cfg : config) (next : Handler) (w : W) (r : Request) (b : boxes)
    (key body : bytes) : prog (hstate W * outcome) :=
  let fingerprint := Fingerprint (r_Method r) (r_URL r) body in
  let scope := match keyScope cfg with Some f => f r | None => [] end in
  let storeKey := storeKey scope key in
  let o := mkOptions (leaseTTL cfg) (recordTTL cfg) in
  out ← Begin storeKey fingerprint o;
  match out with
  | inr err =>
      if failOpen cfg then
        _ ← Warn "httpidem: store unavailable; proceeding without idempotency (FailOpen)"
              (keyAttrs cfg scope key ++ error_attr err);
        serve next w r b
      else WriteError cfg w r b 503 (Errorf_w_w ErrStoreUnavailable err)
  | inl out =>
      match out_Action out with
      | Replay => writeReplay cfg w r b scope key (out_Payload out)
      | RejectInFlight =>
          let w := SetHeader (Header.Set' (bs "Retry-After")
                     (retryAfterSeconds (out_RetryAfter out)) (Header w)) w in
          WriteError cfg w r b 409 ErrInFlight
      | RejectFingerprintMismatch => WriteError cfg w r b 422 ErrFingerprintMismatch
      | Proceed => proceed cfg next w r b scope key storeKey (out_Token out) o
      end
  end.

Definition err_key_validator : error :=
  Errorf_w_suffix ErrKeyInvalid (bs ": rejected by KeyValidator").
Definition err_reading_body (e : error) : error :=
  Errorf_prefix_w (bs "httpidem: reading request body: ") e.

Definition ServeHTTP (cfg : config) (next : Handler) (w : W) (r : Request) (b : boxes)
    : prog (hstate W * outcome) :=
  if negb (bool_decide (ToUpper (r_Method r) ∈ methods cfg)) then serve next w r b else
  match KeyFromHeader (r_Header r) with
  | inr err =>
      if Is err ErrKeyMissing && negb (require cfg) then serve next w r b
      else WriteError cfg w r b 400 err
  | inl key =>
      if match keyValidator cfg with Some f => negb (f key) | None => false end
      then WriteError cfg w r b 400 err_key_validator else
      let '(res, r) := readBody r (maxRequestBody cfg) in
      match res with
      | inr err => WriteError cfg w r b 400 (err_reading_body err)
      | inl (body, true) =>
          if negb (bypassLargeBody cfg) then WriteError cfg w r b 413 ErrRequestBodyTooLarge else
          _ ← Warn "httpidem: request body exceeds MaxRequestBody; bypassing idempotency"
                (keyAttrs cfg [] key);
          let rest := default (mkReader [] None) (r_Body r) in
          serve next w (set_body r (MultiReader body rest)) b
      | inl (body, false) =>
          let r := set_body r (mkReader body None) in
          let r := set_content_length r (Z.of_nat (length body)) in
          begin_and_act cfg next w r b key body
      end
  end.

End serve.

End middleware.
