(* ===== verification/MiddlewareSpec.v ===== *)
(** * What the middleware does before and without the handler

    Retry-After, the buffered body, the guards of ServeHTTP, rejections,
    and the discipline that brings HTTP requests under the lease guarantee. *)
From S2P Require Import Prelude GoLib GoHttp Errors Record Store Effects Memstore Core CoreSpec.
From S2P Require Import Lease Key Sha256 Fingerprint StoredResponse Context Http Recorder.
From S2P Require Import RecorderSpec Problem Config Middleware.
Import Time httpidem middleware.

(** ** Arithmetic *)

Lemma i64_eqm a b : (a `mod` two64 = b `mod` two64)%Z → i64 a = i64 b.
Proof.
  intros Heq. unfold i64. f_equal.
  by rewrite <-(Z.add_mod_idemp_l a), Heq, Z.add_mod_idemp_l by done.
Qed.

Lemma i64_mod a : (i64 a `mod` two64 = a `mod` two64)%Z.
Proof.
  unfold i64. rewrite Zminus_mod_idemp_l. f_equal. lia.
Qed.

Lemma i64_add_l a b : i64 (i64 a + b) = i64 (a + b).
Proof.
  apply i64_eqm. rewrite <-(Z.add_mod_idemp_l (i64 a)), i64_mod, Z.add_mod_idemp_l by done. done.
Qed.

(** ** Retry-After *)

Lemma retryAfter_secs d :
  is_i64 d → (d + Second - 1 ≤ max_int64)%Z →
  i64 (i64 (d + Second) - 1) = (d + Second - 1)%Z.
Proof.
  intros [Hd _] Hm. change (i64 (d + Second) - 1)%Z with (i64 (d + Second) + (-1))%Z.
  rewrite i64_add_l. apply i64_small. split; [|exact Hm].
  unfold min_int64, Second in *. lia.
Qed.

(** Retry-After is the remaining lease in seconds, rounded up and at
    least 1: waiting that long is never too short, and less than a second
    too long.  Within one second of the largest Duration the sum overflows
    and the answer degrades to 1. *)
Theorem retryAfterSeconds_bounds (d : Duration) :
  is_i64 d →
  ∃ n, retryAfterSeconds d = FormatInt n ∧ (1 ≤ n)%Z ∧
    ((d + Second - 1 ≤ max_int64)%Z → (d ≤ n * Second)%Z ∧ (n = 1 ∨ (n - 1) * Second < d)%Z) ∧
    ((max_int64 < d + Second - 1)%Z → n = 1%Z).
Proof.
  intros Hd. unfold retryAfterSeconds. set (q := Z.quot _ Second).
  exists (if (q <? 1)%Z then 1%Z else q). split; [done|]. split; [case_match eqn:E; lia|].
  assert (0 < Second)%Z as Hs by done. split; intros Hm.
  - assert (q = Z.quot (d + Second - 1) Second) as Hq by (subst q; by rewrite retryAfter_secs).
    destruct (Z.le_gt_cases 1 d) as [Hpos|Hneg].
    + rewrite Z.quot_div_nonneg in Hq by (unfold Second in *; lia).
      pose proof (Z.div_mod (d + Second - 1) Second ltac:(lia)) as Hdm. rewrite <-Hq in Hdm.
      pose proof (Z.mod_pos_bound (d + Second - 1) Second Hs).
      destruct (Z.ltb_spec q 1); [unfold Second in *; lia|]. split; [lia|right; lia].
    + assert (q < 1)%Z as Hlt.
      { rewrite Hq. destruct (Z.le_gt_cases 0 (d + Second - 1)).
        - rewrite Z.quot_small; unfold Second in *; lia.
        - pose proof (Z.quot_opp_l (- (d + Second - 1)) Second ltac:(lia)) as Ho.
          rewrite Z.opp_involutive in Ho. rewrite Ho.
          pose proof (Z.quot_pos (- (d + Second - 1)) Second ltac:(lia) Hs). lia. }
      rewrite (proj2 (Z.ltb_lt q 1)) by done. split; [lia|by left].
  - assert (q < 1)%Z as Hlt; [|by rewrite (proj2 (Z.ltb_lt q 1))].
    assert (i64 (i64 (d + Second) - 1) = d + Second - 1 - two64)%Z as Hw.
    { change (i64 (d + Second) - 1)%Z with (i64 (d + Second) + (-1))%Z. rewrite i64_add_l.
      rewrite <-(i64_small (d + Second - 1 - two64)).
      - apply i64_eqm. replace (d + Second - 1 - two64)%Z with (d + Second + -1 + (-1) * two64)%Z by lia.
        by rewrite Z.mod_add.
      - unfold is_i64, min_int64, max_int64, two63, two64, Second in *. lia. }
    subst q. rewrite Hw. set (x := (d + Second - 1 - two64)%Z).
    assert (x < 0)%Z by (subst x; unfold is_i64, max_int64, two63, two64, Second in *; lia).
    pose proof (Z.quot_opp_l (- x) Second ltac:(lia)) as Ho. rewrite Z.opp_involutive in Ho.
    pose proof (Z.quot_pos (- x) Second ltac:(lia) Hs). lia.
Qed.

Lemma retryAfterSeconds_bounds_witness :
  is_i64 (2500 * Millisecond)%Z ∧ retryAfterSeconds (2500 * Millisecond)%Z = bs "3" ∧
  ∃ n, retryAfterSeconds (2500 * Millisecond)%Z = FormatInt n ∧ (1 ≤ n)%Z.
Proof.
  assert (is_i64 (2500 * Millisecond)%Z) as H by (split; vm_compute; discriminate).
  split; [exact H|]. split; [vm_compute; reflexivity|].
  destruct (retryAfterSeconds_bounds _ H) as (n & Hn & H1 & _). by exists n.
Defined.

(** ** The buffered body *)

(** readBody buffers the body exactly.  With a limit below the largest
    int64 a body within the limit is returned whole, or the error of
    reading it; a longer one is reported as overflowing, and the returned
    prefix followed by what was left unread is the original body.  With the
    largest int64 as the limit, limit+1 wraps around and every body is
    returned empty, as if it had been read completely. *)
Theorem readBody_spec (r : Request) (rd : reader) (max : Z) :
  r_Body r = Some rd → (0 ≤ max ≤ max_int64)%Z →
  let '(res, r') := readBody r max in
  if decide (max = max_int64) then res = inl ([], false) ∧ r' = r
  else if decide (Z.of_nat (length (rd_data rd)) ≤ max)%Z
  then res = match rd_err rd with Some e => inr e | None => inl (rd_data rd, false) end ∧
       r' = set_body r (mkReader [] (rd_err rd))
  else ∃ body rest, res = inl (body, true) ∧ r' = set_body r rest ∧ MultiReader body rest = rd.
Proof.
  intros Hb [H0 Hm]. unfold readBody. rewrite Hb. unfold ReadAllLimited.
  case_decide as Hmax.
  - subst max. change (i64 (max_int64 + 1)) with min_int64. simpl.
    split; [done|]. by destruct r; simpl in *; subst.
  - rewrite i64_small by (unfold is_i64, max_int64, min_int64, two63 in *; lia).
    rewrite (proj2 (Z.leb_gt (max + 1) 0)) by lia. case_decide as Hlen.
    + rewrite (proj2 (Z.leb_gt (max + 1) _)) by lia. destruct (rd_err rd); [done|].
      by rewrite (proj2 (Z.ltb_ge _ _)).
    + rewrite (proj2 (Z.leb_le (max + 1) _)) by lia. rewrite length_take.
      rewrite (proj2 (Z.ltb_lt _ _)) by lia. eexists _, _. split; [done|]. split; [done|].
      unfold MultiReader. simpl. rewrite take_drop. by destruct rd.
Qed.

Module ExampleRequest.

Definition req : Request :=
  mkRequest (bs "POST") (url.mkURL (bs "/pay") [] [])
    (<[bs "Idempotency-Key" := [bs "key-1"]]> ∅) (Some (mkReader (bs "{}") None)) 2 Background.

End ExampleRequest.

Lemma readBody_spec_witness :
  (readBody ExampleRequest.req 100).1 = inl (bs "{}", false) ∧
  (readBody ExampleRequest.req max_int64).1 = inl ([], false).
Proof.
  pose proof (readBody_spec ExampleRequest.req (mkReader (bs "{}") None) 100 eq_refl) as H1.
  pose proof (readBody_spec ExampleRequest.req (mkReader (bs "{}") None) max_int64 eq_refl) as H2.
  split.
  - destruct (readBody ExampleRequest.req 100) as [res r']. cbn in H1. apply H1.
    split; vm_compute; discriminate.
  - destruct (readBody ExampleRequest.req max_int64) as [res r']. cbn in H2. apply H2.
    split; vm_compute; discriminate.
Defined.

(** ** The lease discipline of a request *)

(** A handler's own store calls: none that touch a reservation outside a
    lease; under one, only completing or releasing it with its token (the
    transactional join).  The reservation it sees is the one it runs under. *)
Fixpoint hdisc (ph : phase) (p : handler_prog) : Prop :=
  match p with
  | HReturn | HPanic _ => True
  | HHeader k => ∀ x, hdisc ph (k x)
  | HSetHeader _ k | HWriteHeader _ k | HSetError _ k | HMarkFinished k => hdisc ph k
  | HWrite _ k => ∀ x, hdisc ph (k x)
  | HFlush k | HHijack k | HPush _ k => ∀ x, hdisc ph (k x)
  | HRead _ k => ∀ x, hdisc ph (k x)
  | HReservation k =>
      ∀ rsv, (∀ r, rsv = Some r → ph = Granted (rsv_Token r)) → hdisc ph (k rsv)
  | HCall q k => disc (λ ph' _, ph' = ph) ph q ∧ ∀ x, hdisc ph (k x)
  end.

Definition disciplined (h : Handler) : Prop := ∀ r ph, hdisc ph (h r).

(** The context shows no reservation but that of the phase. *)
Definition ctx_ok (ph : phase) (ctx : context) : Prop :=
  ∀ r, ctx_reservation ctx = Some r → ph = Granted (rsv_Token r).

Section discipline.
Context {W : Type} `{ResponseWriter W}.

Lemma hrun_disc ph ctx p (s : hstate W) :
  ctx_ok ph ctx → hdisc ph p → disc (λ ph' _, ph' = ph) ph (hrun ctx p s).
Proof.
  intros Hctx. revert s.
  induction p as [|v|k IH|h p IH|code p IH|b k IH|k IH|k IH|t k IH|n k IH|e p IH|p IH|k IH|X q k IH];
    intros s Hd; simpl in *; auto.
  - by constructor.
  - by constructor.
  - destruct (WriteHeader code _) as [w [v|]]; [by constructor|auto].
  - destruct (Write b _) as [w [x|v]]; [auto|by constructor].
  - destruct (Flush _) as [w x]. auto.
  - destruct (Hijack _) as [w x]. auto.
  - destruct (Push t _) as [w x]. auto.
  - destruct (read_body n s) as [x s']. auto.
  - destruct Hd as [Hq Hk]. eapply disc_bind; [exact Hq|]. intros ph' x ->. auto.
Qed.

Lemma serve_disc ph h (w : W) r b :
  ctx_ok ph (r_ctx r) → disciplined h → disc (λ ph' _, ph' = ph) ph (serve h w r b).
Proof. intros Hc Hh. by apply hrun_disc. Qed.

End discipline.

Definition no_reservation (r : Request) : Prop := ctx_reservation (r_ctx r) = None.

Lemma no_reservation_ok ph r : no_reservation r → ctx_ok ph (r_ctx r).
Proof. unfold no_reservation, ctx_ok. congruence. Qed.

Section request_discipline.
Context {W : Type} `{ResponseWriter W}.

(** The middleware's configuration is disciplined when its error writer is. *)
Definition disciplined_config (cfg : config) : Prop :=
  ∀ status err, disciplined (λ r, errorWriter cfg r status err).

Lemma default_disciplined : disciplined_config default_config.
Proof. intros status err r ph. simpl. intros. done. Qed.

Variable cfg : config.
Hypothesis Hcfg : disciplined_config cfg.

Abbreviation anyphase := (λ (_ : phase) (_ : hstate W * outcome), True).

Lemma serve_any ph h (w : W) r b :
  no_reservation r → disciplined h → disc anyphase ph (serve h w r b).
Proof.
  intros Hr Hh. eapply disc_weaken; [by apply serve_disc, Hh; apply no_reservation_ok|done].
Qed.

Lemma WriteError_any ph (w : W) r b status err :
  no_reservation r → disc anyphase ph (WriteError cfg w r b status err).
Proof. intros. by apply serve_any. Qed.

Lemma Warn_disc ph msg attrs : disc (λ ph' _, ph' = ph) ph (Warn msg attrs).
Proof. repeat constructor. Qed.

Lemma log_then {A} ph lvl msg attrs (p : prog A) Q :
  disc Q ph p → disc Q ph (_ ← log (mkLog lvl msg attrs); p).
Proof. intros. simpl. by constructor. Qed.

Lemma writeReplay_any ph (w : W) r b scope key payload :
  no_reservation r → disc anyphase ph (writeReplay cfg w r b scope key payload).
Proof.
  intros Hr. unfold writeReplay. destruct (_ <? _)%Z; [by apply log_then, WriteError_any|].
  destruct (UnmarshalBinary payload) as [sr|err]; [|by apply log_then, WriteError_any].
  destruct (WriteStored sr _) as [w' res]. by constructor.
Qed.

Lemma discard_logging_disc t scope key storeKey o msg :
  disc (λ ph _, ph = Granted t) (Granted t) (discard_logging cfg scope key storeKey t o msg).
Proof.
  eapply disc_bind; [apply Finish_disc|]. intros ph [lost [e|]] ->; [apply Warn_disc|by constructor].
Qed.

Lemma capture_decision_disc ph scope key rec d :
  disc (λ ph' _, ph' = ph) ph (capture_decision cfg scope key rec d).
Proof.
  unfold capture_decision. destruct (bool_decide _); [|by constructor].
  destruct (rec_abandoned rec); [apply log_then; by constructor|].
  destruct (rec_overflowed rec); [apply log_then; by constructor|by constructor].
Qed.

Lemma encode_payload_disc ph scope key rec d :
  disc (λ ph' _, ph' = ph) ph (encode_payload cfg scope key rec d).
Proof.
  unfold encode_payload. destruct (bool_decide _); [|by constructor].
  destruct (MarshalBinary _); [by constructor|apply log_then; by constructor].
Qed.

Lemma finish_response_record_disc t scope key storeKey o rec e :
  disc (λ ph _, ph = Granted t) (Granted t)
    (finish_response_record cfg scope key storeKey t o rec e).
Proof.
  unfold finish_response_record. eapply disc_bind; [apply capture_decision_disc|].
  intros ph d ->. eapply disc_bind; [apply encode_payload_disc|]. intros ph [d' payload] ->.
  eapply disc_bind; [apply Finish_disc|]. intros ph [lost [err|]] ->; unfold after_finish.
  - destruct (bool_decide _); [apply log_then, discard_logging_disc|apply Warn_disc].
  - destruct lost; [apply Warn_disc|by constructor].
Qed.

Lemma proceed_context_reservation ctx b rsv ctx' b' he fin :
  proceed_context ctx b rsv = (ctx', b', he, fin) → ctx_reservation ctx' = Some rsv.
Proof. unfold proceed_context. simpl. by intros [= <- _ _ _]. Qed.

Lemma proceed_any t next (w : W) r b scope key storeKey o :
  disciplined next → disc anyphase (Granted t) (proceed cfg next w r b scope key storeKey t o).
Proof.
  intros Hn. unfold proceed.
  destruct (proceed_context _ _ _) as [[[ctx b'] he] fin] eqn:Ec.
  apply proceed_context_reservation in Ec.
  eapply disc_bind.
  { apply serve_disc; [|exact Hn]. intros rsv. simpl. rewrite Ec. by intros [= <-]. }
  intros ph [s [|v]] ->.
  - destruct (fin _); [by constructor|].
    eapply disc_bind; [apply finish_response_record_disc|]. by constructor.
  - eapply (disc_bind (λ ph _, ph = Granted t)); [|by constructor].
    destruct (fin _); [by constructor|apply discard_logging_disc].
Qed.

Lemma begin_and_act_any next (w : W) r b key body :
  no_reservation r → disciplined next →
  disc anyphase NoToken (begin_and_act cfg next w r b key body).
Proof.
  intros Hr Hn. unfold begin_and_act. eapply disc_bind; [apply Begin_disc|].
  intros ph [out|err] Hres.
  - simpl in Hres. destruct (out_Action out) eqn:Ea.
    + rewrite (Hres eq_refl). by apply proceed_any.
    + by apply writeReplay_any.
    + by apply WriteError_any.
    + by apply WriteError_any.
  - destruct (failOpen cfg); [by apply log_then, serve_any|by apply WriteError_any].
Qed.

Lemma readBody_no_reservation r max res r' :
  readBody r max = (res, r') → no_reservation r → no_reservation r'.
Proof.
  unfold readBody, no_reservation. destruct (r_Body r) as [rd|]; [|by intros [= <- <-]].
  destruct (ReadAllLimited _ rd) as [[body|e] rd']; by intros [= <- <-].
Qed.

Lemma ServeHTTP_any next (w : W) r b :
  no_reservation r → disciplined next → disc anyphase NoToken (ServeHTTP cfg next w r b).
Proof.
  intros Hr Hn. unfold ServeHTTP. destruct (negb (bool_decide _)); [by apply serve_any|].
  destruct (KeyFromHeader _) as [key|err].
  - destruct (match keyValidator cfg with Some f => negb (f key) | None => false end);
      [by apply WriteError_any|].
    destruct (readBody r _) as [res r'] eqn:Eb.
    pose proof (readBody_no_reservation _ _ _ _ Eb Hr) as Hr'.
    destruct res as [[body [|]]|err]; [|by apply begin_and_act_any|by apply WriteError_any].
    destruct (negb _); [by apply WriteError_any|by apply log_then, serve_any].
  - destruct (_ && _); [by apply serve_any|by apply WriteError_any].
Qed.
End request_discipline.

(** A request as it arrives at the middleware of some process: any
    disciplined configuration and handler, any writer state, any boxes. *)
Definition http_request {W} `{ResponseWriter W} (p : prog (hstate W * outcome)) : Prop :=
  ∃ cfg next w r b, disciplined_config cfg ∧ disciplined next ∧ no_reservation r ∧
    p = ServeHTTP cfg next w r b.

(** C5. The lease guarantee for HTTP.  Any number of middlewares, in one
    process or many, over a store that keeps the contract, their store
    calls interleaved in any order: no two requests hold a valid lease on
    one store key at the same time - panicking handlers, failing persists,
    streaming responses and handlers that complete their own record
    included.  And a completed record stays what it is until it expires. *)
Theorem http_lease_guarantee {S W} `{StoreContract S} `{ResponseWriter W}
    (y : sys S (hstate W * outcome)) :
  reachable http_request y →
  (∀ n1 n2 key, holds_valid_lease y n1 key → holds_valid_lease y n2 key → n1 = n2) ∧
  (∀ y' key r, rtc (step http_request) y y' →
     live (sy_now y) (abs (sy_store y)) key = Some r → rec_State r = StateCompleted →
     (sy_now y' < rec_RecordExpiresAt r)%Z →
     live (sy_now y') (abs (sy_store y')) key = Some r).
Proof.
  assert (∀ p : prog (hstate W * outcome), http_request p → disc (λ _ _, True) NoToken p) as Hd.
  { intros p (cfg & next & w & r & b & Hcfg & Hn & Hr & ->). by apply ServeHTTP_any. }
  intros Hy. split.
  - intros n1 n2 key. by apply (one_holder http_request Hd).
  - intros y' key r Hs Hl Hst Hlt.
    eapply (steps_frame http_request Hd y y' key r (rec_RecordExpiresAt r)); try done.
    + by eapply inv_reachable.
    + congruence.
    + unfold deadline. by rewrite Hst.
Qed.

Module ExampleHTTP.

Definition handler : Handler := λ _, HWriteHeader 201 (HWrite (bs "ok") (λ _, HReturn)).
Definition w : response := new_response FlushWorks None.
Definition request : prog (hstate response * outcome) :=
  ServeHTTP default_config handler w ExampleRequest.req (mkBoxes [] []).
Definition block : bytes := bs "0123456789abcdef".
Definition tok : bytes := EncodeToString block.
Definition at0 : Instant := mkInstant 5%Z 5%Z.
Definition y0 : sys memstore.Store (hstate response * outcome) := mkSys memstore.New 5%Z ∅ ∅.

Lemma is_request : http_request request.
Proof.
  exists default_config, handler, w, ExampleRequest.req, (mkBoxes [] []).
  split; [apply default_disciplined|]. split; [|done]. intros r ph. simpl. auto.
Qed.

(** Any client that draws a token, reads the clock and reserves a key on
    an empty store holds a lease on it. *)
Lemma reserve_holds {A} (client : prog A → Prop) p k0 k1 k2 r :
  client p → p = CallRead 16 k0 → k0 (inl block) = CallNow k1 → k1 5%Z = CallReserve r k2 →
  rec_State r = StateReserved → (5 < rec_LeaseExpiresAt r)%Z →
  ∃ y, rtc (step client) (mkSys memstore.New 5%Z ∅ ∅) y ∧ holds_valid_lease y 0 (rec_Key r).
Proof.
  intros Hp -> H0 H1 Hst Hl. eexists. split.
  - eapply rtc_l; [by apply (step_arrive _ _ 0 (CallRead 16 k0))|].
    eapply rtc_l; [eapply (step_read_ok _ _ 0 16 _ _ block); [reflexivity|set_solver]|].
    rewrite H0. eapply rtc_l; [eapply (step_now _ _ 0 _ _ _ 5%Z); reflexivity|].
    rewrite H1. eapply rtc_l; [|apply rtc_refl].
    eapply (step_reserve_ok _ _ 0 _ _ _ _ at0); [reflexivity|done|reflexivity].
  - eexists _, (rec_LeaseExpiresAt r). split; [reflexivity|]. split; [|exact Hl].
    simpl. unfold lease_of, live, abs, mem_contract. simpl.
    rewrite clone_id, lookup_insert_eq. unfold Expired. rewrite Hst.
    unfold Before. by rewrite (proj2 (Z.ltb_lt _ _) Hl).
Qed.

Lemma is_running :
  ∃ y, rtc (step http_request) y0 y ∧ holds_valid_lease y 0 (bs "key-1").
Proof.
  change (bs "key-1") with (storeKey [] (bs "key-1")).
  eapply (reserve_holds http_request request _ _ _ (begin_record _ _ _ _ _));
    [exact is_request|reflexivity|reflexivity|reflexivity|reflexivity|reflexivity].
Qed.

End ExampleHTTP.

Lemma http_lease_guarantee_witness :
  ∃ y : sys memstore.Store (hstate response * outcome),
    reachable http_request y ∧ holds_valid_lease y 0 (bs "key-1") ∧
    ∀ n, holds_valid_lease y n (bs "key-1") → n = 0.
Proof.
  destruct ExampleHTTP.is_running as (y & Hy & H0).
  assert (reachable http_request y) as Hr by (by exists ExampleHTTP.y0).
  exists y. split; [exact Hr|]. split; [exact H0|]. intros n Hn.
  destruct (http_lease_guarantee y Hr) as [H _]. exact (H n 0 (bs "key-1") Hn H0).
Defined.
