(* ===== verification/HttpClaims.v ===== *)
(** * HTTP requests on the in-memory store

    Whole requests through the middleware: rejections, replays of what an
    earlier request persisted, panics and discarded results. *)
From S2P Require Import Prelude GoLib GoHttp Errors Record Store Effects Memstore Core CoreSpec.
From S2P Require Import CoreClaims Custody Key Sha256 Fingerprint StoredResponse Context Http Recorder.
From S2P Require Import RecorderSpec Problem Config Middleware MiddlewareSpec.
Import Time httpidem middleware.

(** ** Requests that reach Begin *)

(** The request [r] passes the guards with this key and body; [r'] is the
    request with the body buffered. *)
Definition ready (cfg : config) (r r' : Request) (key body : bytes) : Prop :=
  ToUpper (r_Method r) ∈ methods cfg ∧ KeyFromHeader (r_Header r) = inl key ∧
  (∀ f, keyValidator cfg = Some f → f key = true) ∧
  ∃ r1, readBody r (maxRequestBody cfg) = (inl (body, false), r1) ∧
    r' = set_content_length (set_body r1 (mkReader body None)) (Z.of_nat (length body)).

Definition scope_of (cfg : config) (r : Request) : bytes :=
  match keyScope cfg with Some f => f r | None => [] end.
Definition skey (cfg : config) (r : Request) (key : bytes) : bytes := storeKey (scope_of cfg r) key.
Definition options (cfg : config) : Options := mkOptions (leaseTTL cfg) (recordTTL cfg).
Definition fprint (r : Request) (body : bytes) : bytes := Fingerprint (r_Method r) (r_URL r) body.

Lemma ServeHTTP_ready {W} `{ResponseWriter W} cfg next (w : W) r r' b key body :
  ready cfg r r' key body → ServeHTTP cfg next w r b = begin_and_act cfg next w r' b key body.
Proof.
  intros (Hm & Hk & Hv & r1 & Hb & ->). unfold ServeHTTP.
  rewrite bool_decide_eq_true_2 by done. cbn [negb]. rewrite Hk.
  assert (match keyValidator cfg with Some f => negb (f key) | None => false end = false) as ->.
  { destruct (keyValidator cfg) as [f|]; [|done]. by rewrite (Hv f eq_refl). }
  by rewrite Hb.
Qed.

(** Begin's part of the run. *)
Lemma run_begin_and_act {W S} `{ResponseWriter W} `{Store S} cfg next (w : W) r b key body
    (wd wd1 : world S) out :
  run (Begin (skey cfg r key) (fprint r body) (options cfg)) wd = (inl out, wd1) →
  run (begin_and_act cfg next w r b key body) wd =
  run (match out_Action out with
       | Replay => writeReplay cfg w r b (scope_of cfg r) key (out_Payload out)
       | RejectInFlight =>
           WriteError cfg (SetHeader (Header.Set' (bs "Retry-After")
             (retryAfterSeconds (out_RetryAfter out)) (Header w)) w) r b 409 ErrInFlight
       | RejectFingerprintMismatch => WriteError cfg w r b 422 ErrFingerprintMismatch
       | Proceed => proceed cfg next w r b (scope_of cfg r) key (skey cfg r key) (out_Token out)
                      (options cfg)
       end) wd1.
Proof. intros Hb. unfold begin_and_act. rewrite run_bind. unfold skey, fprint, options, scope_of in Hb. by rewrite Hb. Qed.

(** ** Rejections *)

(** The problem response the default error writer sends. *)
Definition rejection (w0 : response) (status : Z) (detail : bytes) (w : response) : Prop :=
  rs_sent w = Some (status, Header.Set' (bs "Content-Type") (bs "application/problem+json")
                              (rs_header w0)) ∧
  rs_body w = problem status detail.

Lemma problem_nonempty status detail : problem status detail ≠ [].
Proof. done. Qed.

Lemma WriteError_default {S} `{Store S} cfg w r b status err (wd : world S) :
  errorWriter cfg = DefaultErrorWriter → fresh w → (200 ≤ status ≤ 999)%Z →
  bodyAllowed status = true →
  ∃ s, run (WriteError cfg w r b status err) wd = ((s, Returned), wd) ∧
    rejection w status (if (status <? 500)%Z then Error err else []) (hs_w s).
Proof.
  intros He (Hs & Hh & Hb & _) Hst Hba. unfold WriteError, serve. rewrite He.
  set (detail := if (status <? 500)%Z then Error err else []).
  cbn -[problem response_Write response_WriteHeader]. fold detail.
  set (w1 := set_rs_header _ _). rewrite (WriteHeader_final status w1) by done.
  cbn -[problem response_Write response_WriteHeader].
  destruct (response_Write _ _) as [w' x] eqn:E.
  destruct (Write_sent _ (set_sent (Some (status, rs_header w1)) w1) _ _ _ _ eq_refl Hh E)
    as (_ & Hs' & Hb' & y & ->).
  cbn -[problem]. eexists. split; [done|]. split; [exact Hs'|].
  cbn -[problem]. rewrite Hb'. unfold body_sent. rewrite Hba. cbn -[problem]. by rewrite Hb.
Qed.

(** C6. Duplicates are turned away without running the handler.  While the
    store key is reserved the answer is 409 with a Retry-After that covers
    the remaining lease; when it is completed under another fingerprint the
    answer is 422.  The default error writer sends the problem document,
    and nothing visible in the store changes - for every handler, one that
    always panics included. *)
Theorem http_rejections (cfg : config) (next : Handler) (w : response) (r r' : Request)
    (b : boxes) (key body : bytes) (wd : world memstore.Store) (rnd : bytes)
    (rest : list (bytes + error)) (old : Record) :
  ready cfg r r' key body → errorWriter cfg = DefaultErrorWriter → fresh w →
  w_rand wd = inl rnd :: rest →
  let m := memstore.recs (w_store wd) in
  let now' := app_clock (w_now (advance (advance (advance wd)))) in
  live (app_clock (w_now (advance (advance wd)))) m (skey cfg r' key) = Some old →
  Expired old now' = false →
  rec_State old = StateReserved ∨ rec_Fingerprint old ≠ fprint r' body →
  ∃ s wd', run (ServeHTTP cfg next w r b) wd = ((s, Returned), wd') ∧
    memstore.recs (w_store wd') ≡{app_clock (w_now wd')}≡ m ∧
    match rec_State old with
    | StateReserved =>
        rejection (set_rs_header (Header.Set' (bs "Retry-After")
          (retryAfterSeconds (Sub (rec_LeaseExpiresAt old) now')) (rs_header w)) w)
          409 (Error ErrInFlight) (hs_w s)
    | _ => rejection w 422 (Error ErrFingerprintMismatch) (hs_w s)
    end.
Proof.
  intros Hready He Hw Hr. cbv zeta. intros Hl Hx Hcase.
  rewrite (ServeHTTP_ready _ _ _ _ _ _ _ _ Hready).
  destruct (run (Begin (skey cfg r' key) (fprint r' body) (options cfg)) wd) as [res wd1] eqn:Eb.
  pose proof (mem_Begin _ _ _ _ _ _ _ _ Hr Eb) as Ht. unfold begin_table in Ht.
  rewrite Hl, Hx in Ht. destruct Ht as (Hm & out & -> & Hdec).
  rewrite (run_begin_and_act _ _ _ _ _ _ _ _ _ _ Eb). unfold decision_of in Hdec.
  destruct (rec_State old) eqn:Est.
  - simplify_eq/=. change (SetHeader ?h w) with (set_rs_header h w).
    destruct (WriteError_default cfg
      (set_rs_header (Header.Set' (bs "Retry-After")
        (retryAfterSeconds (Sub (rec_LeaseExpiresAt old)
           (app_clock (w_now (advance (advance (advance wd))))))) (rs_header w)) w)
      r' b 409 ErrInFlight wd1 He) as (s & Hrun & Hrej); [done..|].
    eexists s, wd1. split; [exact Hrun|]. by split.
  - destruct Hcase as [?|Hne]; [done|]. rewrite decide_False in Hdec by done. simplify_eq/=.
    destruct (WriteError_default cfg w r' b 422 ErrFingerprintMismatch wd1 He Hw)
      as (s & Hrun & Hrej); [done..|].
    eexists s, wd1. split; [exact Hrun|]. by split.
  - done.
Qed.

(** ** What the record of a request can become *)

(** The same for everything a handler does to the store. *)
Fixpoint handler_leaves_alone (key tok : bytes) (p : handler_prog) : Prop :=
  match p with
  | HReturn | HPanic _ => True
  | HHeader k => ∀ x, handler_leaves_alone key tok (k x)
  | HSetHeader _ k | HWriteHeader _ k | HSetError _ k | HMarkFinished k =>
      handler_leaves_alone key tok k
  | HWrite _ k => ∀ x, handler_leaves_alone key tok (k x)
  | HFlush k | HHijack k | HPush _ k => ∀ x, handler_leaves_alone key tok (k x)
  | HRead _ k => ∀ x, handler_leaves_alone key tok (k x)
  | HReservation k => ∀ x, handler_leaves_alone key tok (k x)
  | HCall q k => leaves_alone key tok q ∧ ∀ x, handler_leaves_alone key tok (k x)
  end.

Section reserved.
Variables (key tok fp : bytes).

Abbreviation RO_world := (RO_world key tok fp).

Lemma hrun_reserved_only {W} `{ResponseWriter W} ctx p (s s' : hstate W) how
    (w w' : world memstore.Store) :
  run (hrun ctx p s) w = ((s', how), w') → handler_leaves_alone key tok p →
  RO_world w → RO_world w'.
Proof.
  revert s w. induction p as [|v|k IH|h p IH|code p IH|b k IH|k IH|k IH|t k IH|n k IH|e p IH|p IH|k IH|X q k IH];
    intros s w; simpl; eauto; try (by intros [= _ _ <-]).
  - destruct (WriteHeader code _) as [w1 [v|]]; [by intros [= _ _ <-]|eauto].
  - destruct (Write b _) as [w1 [x|v]]; [eauto|by intros [= _ _ <-]].
  - destruct (Flush _). eauto.
  - destruct (Hijack _). eauto.
  - destruct (Push t _). eauto.
  - destruct (read_body n s) as [x s1]. eauto.
  - rewrite run_bind. destruct (run q w) as [x w1] eqn:Eq. intros Hrun [Hq Hk] Hw.
    eapply IH; [exact Hrun|apply Hk|]. by eapply run_reserved_only.
Qed.

(** What is handed to Finish: with Persist, the encoding of the capture. *)
Lemma finish_record_Finish {S} `{Store S} cfg scope rec o e k (w : world S) :
  ∃ w1 d payload,
    w_store w1 = w_store w ∧ w_now w1 = w_now w ∧ w_ticks w1 = w_ticks w ∧ w_rand w1 = w_rand w ∧
    match d with
    | Persist => policy cfg (Status rec) e = Persist ∧
        ∃ sr, rec_StoredResponse rec = Some sr ∧ MarshalBinary sr = inl payload
    | Discard => policy cfg (Status rec) e = Discard ∨ rec_StoredResponse rec = None
    | DecisionOther n => policy cfg (Status rec) e = DecisionOther n
    end ∧
    run (finish_response_record cfg scope k key tok o rec e) w =
    run ('(lost, err) ← Finish key tok d payload o;
         after_finish cfg scope k key tok o d lost err) w1.
Proof.
  unfold finish_response_record, capture_decision, encode_payload.
  destruct (policy cfg (Status rec) e) as [| |n] eqn:Ep.
  - rewrite (bool_decide_eq_true_2 (Persist = Persist)) by done. unfold rec_StoredResponse.
    destruct (rec_abandoned rec) eqn:Ea; [|destruct (rec_overflowed rec) eqn:Eo].
    + exists (add_log (mkLog LevelWarn
        (bs "httpidem: response was streamed (Flush/Hijack); discarding instead of persisting")
        (keyAttrs cfg scope k)) w), Discard, [].
      rewrite orb_true_r. split_and!; auto.
    + exists (add_log (mkLog LevelWarn
        (bs "httpidem: response exceeds MaxResponseBody; discarding instead of persisting")
        (keyAttrs cfg scope k)) w), Discard, [].
      split_and!; auto.
    + eexists w, Persist, _. cbn [orb]. split_and!; try done. eexists. by split.
  - exists w, Discard, []. split_and!; auto.
  - exists w, (DecisionOther n), []. split_and!; auto.
Qed.

(** The end of a request whose record is completed: it was persisted. *)
Lemma finish_record_completed cfg scope rec o e (w w' : world memstore.Store) x rc k :
  run (finish_response_record cfg scope k key tok o rec e) w = (x, w') → RO_world w →
  live (app_clock (w_now w')) (memstore.recs (w_store w')) key = Some rc →
  rec_State rc = StateCompleted →
  ∃ sr, rec_StoredResponse rec = Some sr ∧ rec_Fingerprint rc = fp ∧
    MarshalBinary sr = inl (rec_Payload rc).
Proof.
  intros Hrun Hw Hl Hst.
  destruct (finish_record_Finish cfg scope rec o e k w)
    as (w1 & d & payload & Hs1 & Hn1 & _ & _ & Hd & Heq).
  rewrite Heq, run_bind in Hrun. clear Heq.
  assert (RO_world w1) as Hw1 by (unfold RO_world; by rewrite Hs1, Hn1).
  destruct (run (Finish key tok d payload o) w1) as [[lost err] w2] eqn:Ef.
  assert (d = Persist ∨ d = Discard → err = None) as Herr by exact (mem_Finish_ok _ _ _ _ _ _ _ _ Ef).
  assert (live (app_clock (w_now w2)) (memstore.recs (w_store w2)) key = Some rc → d = Persist →
    ∃ sr, rec_StoredResponse rec = Some sr ∧ rec_Fingerprint rc = fp ∧
      MarshalBinary sr = inl (rec_Payload rc)) as Hpers.
  { intros Hl2 ->. destruct (Finish_persist_RO _ _ _ _ _ _ _ _ _ Ef Hw1 Hl2 Hst) as (_ & ? & ->).
    destruct Hd as (_ & sr & ? & ?). by exists sr. }
  destruct d as [| |n].
  - rewrite Herr in Hrun by auto. apply Hpers; [|done].
    destruct lost; simpl in Hrun; by simplify_eq.
  - rewrite Herr in Hrun by auto. apply (Finish_discard_RO key tok fp) in Ef as [Hw2 _]; [|done].
    exfalso. eapply (RO_not_completed key tok fp w2); [done| |done].
    destruct lost; simpl in Hrun; by simplify_eq.
  - simpl in Ef. simplify_eq. simpl in Hrun. simplify_eq. exfalso.
    by eapply (RO_not_completed key tok fp w2).
Qed.

(** The same for the whole of a request that proceeded. *)
Lemma proceed_completed {W} `{ResponseWriter W} cfg next (w : W) r b scope k o
    (wd wd' : world memstore.Store) (s : hstate W) rc :
  run (proceed cfg next w r b scope k key tok o) wd = ((s, Returned), wd') → RO_world wd →
  (∀ ctx, handler_leaves_alone key tok (next (WithContext r ctx))) →
  live (app_clock (w_now wd')) (memstore.recs (w_store wd')) key = Some rc →
  rec_State rc = StateCompleted →
  ∃ ctx b' s0 wd1 sr,
    run (hrun ctx (next (WithContext r ctx))
      (mkHState (mkCaptureWriter w (NewRecorder (maxResponseBody cfg) (storeHeaders cfg)) false)
         b' (r_Body r))) wd = ((s0, Returned), wd1) ∧
    rec_StoredResponse (cw_rec (finalize (hs_w s0))) = Some sr ∧
    hs_w s = cw_ResponseWriter (finalize (hs_w s0)) ∧
    rec_Fingerprint rc = fp ∧ MarshalBinary sr = inl (rec_Payload rc).
Proof.
  intros Hrun Hw Hn Hl Hst. unfold proceed in Hrun.
  destruct (proceed_context _ _ _) as [[[ctx b'] he] fin]. rewrite run_bind in Hrun.
  destruct (run (serve _ _ _ _) wd) as [[s0 [|v]] wd1] eqn:Es;
    [|rewrite run_bind in Hrun; by destruct (run _ wd1)].
  unfold serve in Es.
  pose proof (hrun_reserved_only (W:=captureWriter W) _ _ _ _ _ _ _ Es (Hn ctx) Hw) as Hw1.
  destruct (fin _).
  - exfalso. simpl in Hrun. simplify_eq. by eapply RO_not_completed.
  - rewrite run_bind in Hrun.
    destruct (run (finish_response_record _ _ _ _ _ _ _ _) wd1) as [x wd2] eqn:Ef.
    simpl in Hrun. simplify_eq.
    destruct (finish_record_completed _ _ _ _ _ _ _ _ _ _ Ef Hw1 Hl Hst) as (sr & Hsr & Hfp & Hm).
    exists ctx, b', s0, wd1, sr. by split_and!.
Qed.

End reserved.

(** ** Captured headers are encodable *)

Lemma size_add_allowed names acc :
  size (foldl add_allowed acc names) ≤ size acc + length names.
Proof.
  revert acc. induction names as [|n names IH]; intros acc; cbn [foldl length]; [lia|].
  etrans; [apply IH|]. unfold add_allowed. case_bool_decide; [lia|].
  pose proof (size_union_alt {[CanonicalMIMEHeaderKey n]} acc) as Hu. rewrite size_singleton in Hu.
  assert (size (acc ∖ {[CanonicalMIMEHeaderKey n]}) ≤ size acc)
    by (apply subseteq_size; set_solver). lia.
Qed.

Lemma snapshot_dom maxb names h : dom (snapshot (allow (NewRecorder maxb names)) h) ⊆ allow (NewRecorder maxb names).
Proof.
  intros k. rewrite elem_of_dom. intros [vs Hvs]. rewrite lookup_snapshot in Hvs.
  by case_decide as Hd; [destruct Hd|].
Qed.

Lemma snapshot_encodable maxb names h code body :
  (Z.of_nat (length names) ≤ maxHeaderNames)%Z → header_ok h → is_i64 code → fits body →
  encodable (mkStoredResponse code (snapshot (allow (NewRecorder maxb names)) h) body).
Proof.
  intros Hlen Hh Hc Hb. split; [done|]. split; [|split; [|done]]; cbn [sr_Header].
  - rewrite <-size_dom. pose proof (subseteq_size _ _ (snapshot_dom maxb names h)).
    pose proof (size_add_allowed names ∅) as Hs. rewrite size_empty in Hs.
    change (foldl add_allowed ∅ names) with (allow (NewRecorder maxb names)) in Hs. lia.
  - intros k vs Hk. rewrite lookup_snapshot in Hk. case_decide as Hd; [|done].
    destruct Hd as [Hin Hne]. simplify_eq. unfold Header.Values in *.
    apply NewRecorder_allow in Hin as (_ & n & _ & <-). rewrite Canonical_idem in *.
    destruct (h !! CanonicalMIMEHeaderKey n) as [vs|] eqn:E; [|done]. exact (Hh _ _ E).
Qed.

Lemma snapshot_nonempty allow h : map_Forall (λ _ vs, vs ≠ []) (snapshot allow h).
Proof. intros k vs Hk. rewrite lookup_snapshot in Hk. case_decide as Hd; [|done]. destruct Hd. by simplify_eq. Qed.

(** A captured payload decodes to the capture. *)
Lemma captured_decodes sr maxb names h payload :
  sr_Header sr = snapshot (allow (NewRecorder maxb names)) h →
  (Z.of_nat (length names) ≤ maxHeaderNames)%Z → header_ok h → (200 ≤ StatusCode sr ≤ 999)%Z →
  fits (sr_Body sr) → MarshalBinary sr = inl payload → UnmarshalBinary payload = inl sr.
Proof.
  intros Hsr Hlen Hh Hc Hb Hm. unfold MarshalBinary in Hm. injection Hm as <-.
  assert (encodable sr) as He.
  { destruct sr as [code hdr body]. simpl in *. subst hdr. apply (snapshot_encodable maxb names); try done.
    unfold is_i64, min_int64, max_int64, two63. lia. }
  pose proof (unmarshal_marshal (map_to_list (sr_Header sr)).*1 sr [] He
    ltac:(unfold range_order; reflexivity)) as H.
  rewrite app_nil_r, decide_True in H by done. rewrite H. f_equal.
  unfold drop_empty. rewrite map_filter_id; [by destruct sr|].
  intros k vs Hk. rewrite Hsr in Hk. exact (snapshot_nonempty _ _ _ _ Hk).
Qed.

(** ** Replays *)

Lemma run_writeReplay {S} `{Store S} cfg (w : response) r b scope key payload sr w' err (wd : world S) :
  (Z.of_nat (length payload) ≤ maxResponseBody cfg + maxStoredResponseOverhead ≤ max_int64)%Z →
  UnmarshalBinary payload = inl sr →
  WriteStored sr (if replayedHeader cfg
                  then set_rs_header (Header.Set' HeaderIdempotencyReplayed (bs "true") (rs_header w)) w
                  else w) = (w', inl err) →
  run (writeReplay cfg w r b scope key payload) wd = ((mkHState w' b (r_Body r), Returned), wd).
Proof.
  intros Hlen Hu Hw. unfold writeReplay.
  rewrite i64_small by (unfold is_i64, min_int64, two63 in *; lia).
  rewrite (proj2 (Z.ltb_ge _ _)) by lia. rewrite Hu. cbn [Header SetHeader response_writer].
  rewrite Hw. done.
Qed.

(** The headers a replay starts from. *)
Definition replay_header (cfg : config) (h : header) : header :=
  if replayedHeader cfg then Header.Set' HeaderIdempotencyReplayed (bs "true") h else h.

(** C3. Exactly-once over HTTP, end to end.  A first request finds its store
    key free; its handler runs - using the store meanwhile in any way that
    leaves its own reservation alone, which covers any requests of others in
    between - returns, and its response ends up stored.  Afterwards anything
    may run.  Then every request with the same store key and fingerprint,
    until the record expires, is answered without running its handler
    (it may be any handler, one that panics included) with the very status
    and body the first client got and, for each allowlisted header, the
    values the first client got, under the Idempotency-Replayed marker.
    (The capture limits - 1024 names, 1024 values, 64 KiB of overhead - and
    responses that switch protocols are the only exceptions.) *)
Theorem http_exactly_once {A} (cfg : config) (next next2 : Handler) (w1 w2 : response)
    (r1 r1' r2 r2' : Request) (b1 b2 : boxes) (key1 key2 body1 body2 : bytes) (others : prog A)
    (wd0 wd1 wd2 : world memstore.Store) (rnd1 rnd2 : bytes) (rest1 rest2 : list (bytes + error))
    (s1 : hstate response) (rc : Record) (x : A) :
  let K := skey cfg r1' key1 in
  let sent := finish_response (hs_w s1) in
  (* the first request *)
  ready cfg r1 r1' key1 body1 → fresh w1 → w_rand wd0 = inl rnd1 :: rest1 →
  live (app_clock (w_now wd0)) (memstore.recs (w_store wd0)) K = None →
  (∀ ctx, handler_leaves_alone K (EncodeToString (take 16 rnd1)) (next (WithContext r1' ctx))) →
  run (ServeHTTP cfg next w1 r1 b1) wd0 = ((s1, Returned), wd1) →
  live (app_clock (w_now wd1)) (memstore.recs (w_store wd1)) K = Some rc →
  rec_State rc = StateCompleted →
  (* within the capture limits *)
  (Z.of_nat (length (storeHeaders cfg)) ≤ maxHeaderNames)%Z →
  (∀ code h, rs_sent sent = Some (code, h) → code ≠ 101%Z ∧ header_ok h) →
  (Z.of_nat (length (rec_Payload rc)) ≤ maxResponseBody cfg + maxStoredResponseOverhead ≤ max_int64)%Z →
  (* anything in between, then the duplicate *)
  run others wd1 = (x, wd2) →
  ready cfg r2 r2' key2 body2 → skey cfg r2' key2 = K → fprint r2' body2 = fprint r1' body1 →
  fresh w2 → w_rand wd2 = inl rnd2 :: rest2 →
  (app_clock (w_now (advance (advance (advance wd2)))) < rec_RecordExpiresAt rc)%Z →
  ∃ s2 wd3 code h,
    run (ServeHTTP cfg next2 w2 r2 b2) wd2 = ((s2, Returned), wd3) ∧
    rs_sent sent = Some (code, h) ∧
    rs_sent (hs_w s2) =
      Some (code, snapshot (allow (NewRecorder (maxResponseBody cfg) (storeHeaders cfg))) h
                  ∪ replay_header cfg (rs_header w2)) ∧
    rs_body (hs_w s2) = rs_body sent.
Proof.
  intros K sent Hr1 Hw1 Hrnd1 Hl0 Hn Hrun1 Hl1 Hst Hnames Hsent Hlen Hrun Hr2 HK Hfp Hw2 Hrnd2 Hdl.
  (* the first request *)
  rewrite (ServeHTTP_ready _ _ _ _ _ _ _ _ Hr1) in Hrun1.
  destruct (run (Begin K (fprint r1' body1) (options cfg)) wd0) as [out wd0'] eqn:Eb.
  destruct (mem_first_Begin _ _ _ _ _ _ _ _ Hrnd1 Hl0 Eb) as [-> Hro].
  rewrite (run_begin_and_act _ _ _ _ _ _ _ _ _ _ Eb) in Hrun1. cbn [out_Action out_Token] in Hrun1.
  destruct (proceed_completed _ _ _ _ _ _ _ _ _ _ _ _ _ _ _ Hrun1 Hro Hn Hl1 Hst)
    as (ctx & b' & s0 & wdh & sr & Hh & Hsr & Hs1 & Hfp1 & Hmb).
  subst sent. rewrite Hs1 in *.
  (* its capture *)
  assert (fresh (set_rs_header (replay_header cfg (rs_header w2)) w2)) as Hw2' by done.
  destruct (capture_and_replay _ _ _ _ _ _ _ _ _ _ _ _ Hw1 Hw2' Hh Hsr) as
    (h & w' & err & Hsent1 & Hc & Hhdr & Hbl & Hws & Hfin & Hs' & Hb').
  { unfold sent_status. destruct (rs_sent _) as [[code h]|] eqn:E; [|done].
    by destruct (Hsent code h eq_refl). }
  destruct (Hsent _ _ Hsent1) as [_ Hok].
  assert (fits (sr_Body sr)) as Hfits.
  { unfold fits. destruct (decide (sr_Body sr = [])) as [->|Hne]; [done|].
    specialize (Hbl Hne). unfold max_int64, two63, two64, maxStoredResponseOverhead in *. lia. }
  pose proof (captured_decodes _ _ _ _ _ Hhdr Hnames Hok Hc Hfits Hmb) as Hdec.
  (* the record survives until the duplicate *)
  pose proof (advance_later wd2) as [? _]. pose proof (advance_later (advance wd2)) as [? _].
  pose proof (advance_later (advance (advance wd2))) as [? _].
  pose proof (mem_run_completed _ _ _ _ _ _ Hrun Hl1 Hst ltac:(lia)) as Hl2.
  (* the duplicate *)
  rewrite (ServeHTTP_ready _ _ _ _ _ _ _ _ Hr2).
  destruct (run (Begin K (fprint r1' body1) (options cfg)) wd2) as [res wd3] eqn:Eb2.
  pose proof (mem_Begin_completed _ _ _ _ _ _ _ _ _ Hrnd2 Eb2 Hl2 Hst Hdl) as Hres.
  rewrite decide_True in Hres by done. subst res. rewrite <-HK, <-Hfp in Eb2.
  exists (mkHState w' b2 (r_Body r2')), wd3, (StatusCode sr), h.
  rewrite (run_begin_and_act _ _ _ _ _ _ _ _ _ _ Eb2). cbn [out_Action out_Payload].
  rewrite (run_writeReplay cfg w2 r2' b2 _ _ _ sr w' err wd3 Hlen Hdec).
  - cbn [hs_w]. rewrite Hs', Hhdr. done.
  - rewrite <-Hws. unfold replay_header. destruct (replayedHeader cfg); [done|]. by destruct w2.
Qed.

(** ** A lease held to the end *)

Section held.
Variables (key tok : bytes) (r0 : Record).
Hypothesis Hr0 : rec_State r0 = StateReserved.
Hypothesis Htok : rec_Token r0 = tok.

Abbreviation held := (held key r0).

Lemma hrun_later {W S} `{ResponseWriter W} `{Store S} ctx p (s s' : hstate W) how (w w' : world S) :
  run (hrun ctx p s) w = ((s', how), w') → (app_clock (w_now w) ≤ app_clock (w_now w'))%Z.
Proof using. intros Hrun. pose proof (run_later (hrun ctx p s) w) as [Hle _]. by rewrite Hrun in Hle. Qed.

Lemma hrun_held {W} `{ResponseWriter W} ctx p (s s' : hstate W) how
    (w w' : world memstore.Store) :
  run (hrun ctx p s) w = ((s', how), w') → handler_leaves_alone key tok p →
  (app_clock (w_now w') < rec_LeaseExpiresAt r0)%Z → held w → held w'.
Proof using Hr0 Htok.
  intros Hrun Hn Hlt. revert s w Hrun Hn.
  induction p as [|v|k IH|h p IH|code p IH|b k IH|k IH|k IH|t k IH|n k IH|e p IH|p IH|k IH|X q k IH];
    intros s w; simpl; eauto; try (by intros [= _ _ <-]).
  - destruct (WriteHeader code _) as [w1 [v|]]; [by intros [= _ _ <-]|eauto].
  - destruct (Write b _) as [w1 [x|v]]; [eauto|by intros [= _ _ <-]].
  - destruct (Flush _). eauto.
  - destruct (Hijack _). eauto.
  - destruct (Push t _). eauto.
  - destruct (read_body n s) as [x s1]. eauto.
  - rewrite run_bind. destruct (run q w) as [x w1] eqn:Eq. intros Hrun [Hq Hk] Hw.
    pose proof (hrun_later _ _ _ _ _ _ _ Hrun).
    eapply IH; [exact Hrun|apply Hk|]. eapply (run_held key tok r0); [done|done|exact Eq|done|done|lia].
Qed.

(** What the key holds once the response record is settled. *)
Lemma finish_record_held cfg scope rec o e k (w w' : world memstore.Store) x :
  run (finish_response_record cfg scope k key tok o rec e) w = (x, w') → held w →
  (app_clock (w_now w') < rec_LeaseExpiresAt r0)%Z →
  let now := live (app_clock (w_now w')) (memstore.recs (w_store w')) key in
  match policy cfg (Status rec) e, rec_StoredResponse rec with
  | Persist, Some sr => ∃ payload expires,
      MarshalBinary sr = inl payload ∧ now = Some (completed r0 payload expires)
  | DecisionOther _, _ => True
  | _, _ => now = None
  end.
Proof using Hr0 Htok.
  intros Hrun Hw Hlt. cbv zeta.
  destruct (finish_record_Finish key tok cfg scope rec o e k w)
    as (w1 & d & payload & Hs1 & Hn1 & _ & _ & Hd & Heq).
  rewrite Heq, run_bind in Hrun. clear Heq.
  assert (held w1) as Hw1 by (unfold held; by rewrite Hs1, Hn1).
  destruct (run (Finish key tok d payload o) w1) as [[lost err] w2] eqn:Ef.
  pose proof (run_later (after_finish cfg scope k key tok o d lost err) w2) as [Hle _].
  rewrite Hrun in Hle. simpl in Hle.
  pose proof (Finish_held key tok r0 Hr0 Htok _ _ _ _ _ _ Ef Hw1 ltac:(lia)) as Ht.
  destruct d as [| |n].
  - destruct Ht as ([= -> ->] & expires & Hl). simpl in Hrun. simplify_eq.
    destruct Hd as (-> & sr & -> & Hm). by exists payload, expires.
  - destruct Ht as ([= -> ->] & Hl). simpl in Hrun. simplify_eq.
    destruct Hd as [->|Hsr]; [done|]. rewrite Hsr. by destruct (policy _ _ _).
  - by rewrite Hd.
Qed.
End held.

(** The status the policy sees is the one the client was sent. *)
Lemma agrees_status cw :
  agrees cw →
  let sent := finish_response (cw_ResponseWriter (finalize cw)) in
  rec_abandoned (cw_rec (finalize cw)) = true ∨ sent_status sent = 101%Z ∨
  Status (cw_rec (finalize cw)) = sent_status sent.
Proof.
  intros [_ Hag]. cbv zeta. unfold finish_response, response_WriteHeader.
  assert (cw_ResponseWriter (finalize cw) = cw_ResponseWriter cw) as ->
    by (unfold finalize; by destruct (cw_wroteHeader cw)).
  destruct Hag as [Hab|[Hh Hag]].
  { left. unfold finalize. destruct (cw_wroteHeader cw); [done|]. simpl.
    by rewrite RecordStatus_abandoned. }
  right. rewrite Hh. destruct (rs_sent (cw_ResponseWriter cw)) as [[code h]|] eqn:Es; cbn [fst].
  - unfold sent_status. rewrite Es. destruct Hag as [->|(Hwh & Hst & _ & Hc & _)]; [by left|right].
    unfold finalize. rewrite Hwh. simpl. unfold Status. rewrite Hst.
    by rewrite (proj2 (Z.eqb_neq code 0)) by lia.
  - right. destruct Hag as (Hwh & Hst & _). unfold finalize. rewrite Hwh. simpl.
    unfold RecordStatus. by rewrite Hst.
Qed.

Lemma proceed_finished ctx b rsv ctx' b' he fin h :
  proceed_context ctx b rsv = (ctx', b', he, fin) →
  finishedBoxes h !! length (finishedBoxes b) ≠ Some true → fin h = false.
Proof.
  unfold proceed_context. simpl. intros [= _ _ _ <-] Hn.
  destruct (finishedBoxes h !! length (finishedBoxes b)) as [[]|]; done.
Qed.

Lemma defaultDecide_table code e :
  defaultDecide code e = if decide (code = 429%Z ∨ (500 ≤ code)%Z) then Discard else Persist.
Proof.
  unfold defaultDecide, StatusTooManyRequests. case_decide as Hd.
  - destruct (Z.eqb_spec code 429); [done|]. by rewrite (proj2 (Z.leb_le 500 code)) by lia.
  - rewrite (proj2 (Z.eqb_neq code 429)), (proj2 (Z.leb_gt 500 code)) by lia. done.
Qed.

Section settled.
Variables (cfg : config) (next : Handler) (r : Request) (K tok fp : bytes) (t : Time).
Let r0 : Record := begin_record K fp tok (options cfg) t.
Hypothesis Hpol : policy cfg = DefaultPolicy.
Hypothesis Hn : ∀ ctx, handler_leaves_alone K tok (next (WithContext r ctx)).

(** A handler that returned: what its key holds, by the captured status. *)
Lemma proceed_returned w b scope k s (wd wd' : world memstore.Store) :
  run (proceed cfg next w r b scope k K tok (options cfg)) wd = ((s, Returned), wd') →
  fresh w → held K r0 wd → (app_clock (w_now wd') < rec_LeaseExpiresAt r0)%Z →
  finishedBoxes (hs_boxes s) !! length (finishedBoxes b) ≠ Some true →
  let now := live (app_clock (w_now wd')) (memstore.recs (w_store wd')) K in
  let sent := finish_response (hs_w s) in
  let code := sent_status sent in
  code ≠ 101%Z →
  if decide (code = 429%Z ∨ (500 ≤ code)%Z) then now = None
  else now = None ∨ ∃ rc sr,
    now = Some rc ∧ rec_State rc = StateCompleted ∧ rec_Fingerprint rc = fp ∧
    MarshalBinary sr = inl (rec_Payload rc) ∧
    StatusCode sr = code ∧ rs_body sent = body_sent code (sr_Body sr).
Proof using Hpol Hn.
  intros Hrun Hw Hheld Hlt Hfin. cbv zeta. unfold proceed in Hrun.
  destruct (proceed_context _ _ _) as [[[ctx b'] he] fin] eqn:Ec.
  destruct (run (serve next (mkCaptureWriter w
    (NewRecorder (maxResponseBody cfg) (storeHeaders cfg)) false) (WithContext r ctx) b') wd)
    as [[s0 how0] wd1] eqn:Es.
  destruct (run_bind_later _ _ _ _ _ _ _ Es Hrun) as [Hrun1 Hle1]. clear Hrun. unfold serve in Es.
  pose proof (hrun_held K tok r0 eq_refl eq_refl (W:=captureWriter response) _ _ _ _ _ _ _ Es (Hn ctx)
    ltac:(lia) Hheld) as Hheld1.
  destruct how0 as [|v]; [|rewrite run_bind in Hrun1; by destruct (run _ wd1)].
  destruct (fin (hs_boxes (set_w (finalize (hs_w s0)) s0))) eqn:Ef.
  { exfalso. simpl in Hrun1. simplify_eq. simpl in *.
    rewrite (proceed_finished _ _ _ _ _ _ _ _ Ec Hfin) in Ef. done. }
  rewrite run_bind in Hrun1.
  destruct (run (finish_response_record _ _ _ _ _ _ _ _) wd1) as [x wd2] eqn:Efr.
  simpl in Hrun1. simplify_eq. intros Hc. unfold strip in *. cbn [hs_w set_w] in *.
  pose proof (finish_record_held K tok r0 eq_refl eq_refl _ _ _ _ _ _ _ _ _ Efr Hheld1 Hlt) as Hf.
  cbv zeta in Hf. rewrite Hpol in Hf. unfold DefaultPolicy in Hf. rewrite defaultDecide_table in Hf.
  assert (agrees (hs_w s0)) as Hag by (eapply hrun_agrees; [|exact Es]; by apply agrees_initial).
  destruct (rec_StoredResponse (cw_rec (finalize (hs_w s0)))) as [sr|] eqn:Esr.
  - assert (rec_abandoned (cw_rec (finalize (hs_w s0))) = false) as Hab.
    { unfold rec_StoredResponse in Esr. destruct (rec_overflowed _); [done|].
      by destruct (rec_abandoned _). }
    destruct (agrees_status _ Hag) as [?|[?|Hst]]; [congruence|done|]. rewrite Hst in Hf.
    destruct (captured_faithful _ _ Hag Esr Hc) as (h & Hsent & _ & Hb & _).
    case_decide; [done|right]. destruct Hf as (payload & expires & Hm & Hlive).
    eexists _, sr. split; [exact Hlive|]. split_and!; try done; unfold sent_status; by rewrite Hsent.
  - assert (live (app_clock (w_now wd')) (memstore.recs (w_store wd')) K = None) as HN
      by (by destruct (decide (Status _ = _ ∨ _)) in Hf).
    clear Hf. case_decide; [done|by left].
Qed.

(** A handler that panicked: its key is free. *)
Lemma proceed_panicked w b scope k s v (wd wd' : world memstore.Store) :
  run (proceed cfg next w r b scope k K tok (options cfg)) wd = ((s, Panicked v), wd') →
  held K r0 wd → (app_clock (w_now wd') < rec_LeaseExpiresAt r0)%Z →
  finishedBoxes (hs_boxes s) !! length (finishedBoxes b) ≠ Some true →
  live (app_clock (w_now wd')) (memstore.recs (w_store wd')) K = None.
Proof using Hn.
  intros Hrun Hheld Hlt Hfin. unfold proceed in Hrun.
  destruct (proceed_context _ _ _) as [[[ctx b'] he] fin] eqn:Ec.
  destruct (run (serve next (mkCaptureWriter w
    (NewRecorder (maxResponseBody cfg) (storeHeaders cfg)) false) (WithContext r ctx) b') wd)
    as [[s0 how0] wd1] eqn:Es.
  destruct (run_bind_later _ _ _ _ _ _ _ Es Hrun) as [Hrun1 Hle1]. clear Hrun. unfold serve in Es.
  pose proof (hrun_held K tok r0 eq_refl eq_refl (W:=captureWriter response) _ _ _ _ _ _ _ Es (Hn ctx)
    ltac:(lia) Hheld) as Hheld1.
  destruct how0 as [|v0].
  { destruct (fin _); [done|]. rewrite run_bind in Hrun1. by destruct (run _ wd1). }
  assert (fin (hs_boxes s0) = false) as Ef.
  { rewrite run_bind in Hrun1. destruct (run _ wd1) as [x wd2] in Hrun1. simpl in Hrun1.
    simplify_eq. simpl in Hfin. exact (proceed_finished _ _ _ _ _ _ _ _ Ec Hfin). }
  rewrite Ef in Hrun1. unfold discard_logging in Hrun1.
  destruct (run (Finish K tok Discard [] (options cfg)) wd1) as [[lost err] wd2] eqn:Efin.
  rewrite !run_bind, Efin in Hrun1.
  assert (app_clock (w_now wd2) ≤ app_clock (w_now wd'))%Z as Hle2.
  { destruct (run _ wd2) as [y wd3] eqn:E3 in Hrun1. simpl in Hrun1. simplify_eq.
    match type of E3 with run ?p ?x = _ => pose proof (run_later p x) as [Hle _] end.
    by rewrite E3 in Hle. }
  pose proof (Finish_held K tok r0 eq_refl eq_refl _ _ _ _ _ _ Efin Hheld1 ltac:(lia)) as [[= -> ->] HN].
  simpl in Hrun1. by simplify_eq.
Qed.
End settled.

(** C4. No request leaves its key stuck.  Under the default policy a
    request that found its key free, kept its lease and did not finish its
    record itself leaves the key free again when its handler panicked or
    its client was sent 429 or a 5xx; otherwise the key is free - the
    capture was void - or holds the completed record whose payload is the
    response the client was sent. *)
Theorem http_outcome (cfg : config) (next : Handler) (w : response) (r r' : Request) (b : boxes)
    (key body : bytes) (wd wd' : world memstore.Store) (rnd : bytes) (rest : list (bytes + error))
    (s : hstate response) (how : outcome) :
  let K := skey cfg r' key in
  let sent := finish_response (hs_w s) in
  let code := sent_status sent in
  ready cfg r r' key body → fresh w → policy cfg = DefaultPolicy → w_rand wd = inl rnd :: rest →
  live (app_clock (w_now wd)) (memstore.recs (w_store wd)) K = None →
  (∀ ctx, handler_leaves_alone K (EncodeToString (take 16 rnd)) (next (WithContext r' ctx))) →
  run (ServeHTTP cfg next w r b) wd = ((s, how), wd') →
  (app_clock (w_now wd') < app_clock (w_now wd) + Core.leaseTTL (options cfg))%Z →
  finishedBoxes (hs_boxes s) !! length (finishedBoxes b) ≠ Some true →
  let now := live (app_clock (w_now wd')) (memstore.recs (w_store wd')) K in
  match how with
  | Panicked _ => now = None
  | Returned => code ≠ 101%Z →
      if decide (code = 429%Z ∨ (500 ≤ code)%Z) then now = None
      else now = None ∨ ∃ rc sr,
        now = Some rc ∧ rec_State rc = StateCompleted ∧ rec_Fingerprint rc = fprint r' body ∧
        MarshalBinary sr = inl (rec_Payload rc) ∧
        StatusCode sr = code ∧ rs_body sent = body_sent code (sr_Body sr)
  end.
Proof.
  intros K sent code Hr Hw Hpol Hrnd Hl Hn Hrun Hlease Hfin. cbv zeta.
  rewrite (ServeHTTP_ready _ _ _ _ _ _ _ _ Hr) in Hrun.
  destruct (run (Begin K (fprint r' body) (options cfg)) wd) as [out wd0] eqn:Eb.
  destruct (run_bind_later _ _ _ _ _ _ _ Eb Hrun) as [_ Hle0].
  destruct (mem_first_held _ _ _ _ _ _ _ _ Hrnd Hl Eb ltac:(lia)) as (-> & t & Ht & Hheld).
  rewrite (run_begin_and_act _ _ _ _ _ _ _ _ _ _ Eb) in Hrun. cbn [out_Action out_Token] in Hrun.
  assert (app_clock (w_now wd') < t + Core.leaseTTL (options cfg))%Z as Hlt by lia.
  destruct how as [|v].
  - intros Hc. eapply proceed_returned; eauto.
  - eapply proceed_panicked; eauto.
Qed.

(** ** Witnesses *)

Module ExampleFlow.

Definition cfg : config := default_config.
Definition handler : Handler := λ _,
  HHeader (λ h, HSetHeader (Header.Set' (bs "Content-Type") (bs "text/plain") h)
  (HWriteHeader 201 (HWrite (bs "ok") (λ _, HReturn)))).
Definition panicking : Handler := λ _, HPanic (bs "boom").
Definition w : response := new_response FlushWorks None.
Definition req : Request := ExampleRequest.req.
Definition req' : Request :=
  set_content_length (set_body (set_body req (mkReader [] None)) (mkReader (bs "{}") None)) 2.
Definition b0 : boxes := mkBoxes [] [].
Definition rnd (b : byte) : bytes + error := inl (replicate 16 b).
Definition wd0 : world memstore.Store :=
  mkWorld memstore.New (mkInstant 1000%Z 1000%Z) (replicate 40 (mkTick 1000000000 1000000000))
    [rnd x01; rnd x02; rnd x03] [].

Definition run1 := run (ServeHTTP cfg handler w req b0) wd0.
Definition s1 : hstate response := run1.1.1.
Definition wd1 : world memstore.Store := run1.2.
Definition rc : Record :=
  default (mkRecord [] [] StateReserved [] 0%Z 0%Z [])
    (live (app_clock (w_now wd1)) (memstore.recs (w_store wd1)) (bs "key-1")).
Definition others : prog (bool * option error) := Finish (bs "key-1") (bs "stale") Discard [] (options cfg).
Definition wd2 : world memstore.Store := (run others wd1).2.

(** The key while a request of another process holds it. *)
Definition held_world : world memstore.Store :=
  mkWorld (memstore.mkStore {[ bs "key-1" := mkRecord (bs "key-1") (bs "fp") StateReserved (bs "tok")
     (1000 + 30 * Second)%Z Time.zero [] ]}) (mkInstant 1000%Z 1000%Z) [] [rnd x01] [].

Lemma is_ready : ready cfg req req' (bs "key-1") (bs "{}").
Proof.
  split; [apply (bool_decide_unpack (ToUpper (r_Method req) ∈ methods cfg)); vm_compute; exact I|].
  split; [vm_compute; reflexivity|]. split; [done|].
  eexists. split; reflexivity.
Qed.

Lemma is_fresh : fresh w.
Proof. repeat split. discriminate. Qed.

Lemma run1_eq : run (ServeHTTP cfg handler w req b0) wd0 = ((s1, Returned), wd1).
Proof. apply pair_outcome. vm_compute. reflexivity. Qed.

Definition within_limits (x : option (Z * header)) : bool :=
  match x with
  | Some (code, h) => negb (code =? 101)%Z &&
      bool_decide (map_Forall (λ name vs, (Z.of_nat (length name) < two64)%Z ∧
        (Z.of_nat (length vs) ≤ maxHeaderValues)%Z ∧
        Forall (λ v, (Z.of_nat (length v) < two64)%Z) vs) h)
  | None => true
  end.

Lemma s1_within_limits code h :
  rs_sent (finish_response (hs_w s1)) = Some (code, h) → code ≠ 101%Z ∧ header_ok h.
Proof.
  assert (within_limits (rs_sent (finish_response (hs_w s1))) = true) as Hb by (vm_compute; reflexivity).
  intros Hs. rewrite Hs in Hb. unfold within_limits in Hb. apply andb_true_iff in Hb as [Hc Hh].
  apply bool_decide_eq_true in Hh. split; [|exact Hh].
  apply negb_true_iff, Z.eqb_neq in Hc. exact Hc.
Qed.

Definition panic_run := run (ServeHTTP cfg panicking w req b0) wd0.
Lemma panic_eq :
  run (ServeHTTP cfg panicking w req b0) wd0 = ((panic_run.1.1, Panicked (bs "boom")), panic_run.2).
Proof. apply pair_outcome. vm_compute. reflexivity. Qed.

End ExampleFlow.

Import ExampleFlow.

Lemma http_rejections_witness :
  ∃ s wd' h, run (ServeHTTP cfg panicking w req b0) held_world = ((s, Returned), wd') ∧
    rs_sent (hs_w s) = Some (409%Z, h) ∧ Header.Get h (bs "Retry-After") = bs "30".
Proof.
  destruct (http_rejections cfg panicking w req req' b0 (bs "key-1") (bs "{}") held_world
    (replicate 16 x01) [] (mkRecord (bs "key-1") (bs "fp") StateReserved (bs "tok")
     (1000 + 30 * Second)%Z Time.zero [])) as (s & wd' & Hrun & _ & Hrej & _).
  - exact is_ready.
  - reflexivity.
  - exact is_fresh.
  - reflexivity.
  - vm_compute. reflexivity.
  - vm_compute. reflexivity.
  - left. reflexivity.
  - eexists s, wd', _. split; [exact Hrun|]. split; [exact Hrej|]. vm_compute. reflexivity.
Defined.

Lemma http_exactly_once_witness :
  ∃ s2 wd3 code h,
    run (ServeHTTP cfg panicking w req b0) wd2 = ((s2, Returned), wd3) ∧
    rs_sent (finish_response (hs_w s1)) = Some (code, h) ∧
    rs_sent (hs_w s2) = Some (code,
      snapshot (allow (NewRecorder (maxResponseBody cfg) (storeHeaders cfg))) h
        ∪ replay_header cfg (rs_header w)) ∧
    rs_body (hs_w s2) = rs_body (finish_response (hs_w s1)).
Proof.
  apply (http_exactly_once cfg handler panicking w w req req' req req' b0 b0 (bs "key-1")
    (bs "key-1") (bs "{}") (bs "{}") others wd0 wd1 wd2 (replicate 16 x01) (replicate 16 x02)
    [rnd x02; rnd x03] [rnd x03] s1 rc (run others wd1).1).
  - exact is_ready.
  - exact is_fresh.
  - reflexivity.
  - reflexivity.
  - intros ctx. simpl. auto.
  - exact run1_eq.
  - vm_compute. reflexivity.
  - vm_compute. reflexivity.
  - vm_compute. discriminate.
  - exact s1_within_limits.
  - split; vm_compute; discriminate.
  - unfold wd2. apply surjective_pairing.
  - exact is_ready.
  - reflexivity.
  - reflexivity.
  - exact is_fresh.
  - vm_compute. reflexivity.
  - vm_compute. reflexivity.
Defined.

Lemma http_outcome_witness :
  live (app_clock (w_now panic_run.2)) (memstore.recs (w_store panic_run.2)) (bs "key-1") = None.
Proof.
  apply (http_outcome cfg panicking w req req' b0 (bs "key-1") (bs "{}") wd0 panic_run.2
    (replicate 16 x01) [rnd x02; rnd x03] panic_run.1.1 (Panicked (bs "boom"))).
  - exact is_ready.
  - exact is_fresh.
  - reflexivity.
  - reflexivity.
  - reflexivity.
  - intros ctx. exact I.
  - exact panic_eq.
  - vm_compute. reflexivity.
  - vm_compute. discriminate.
Defined.
