(* ===== verification/Journal.v ===== *)
(** * The store calls of one request

    A store that keeps a journal of the calls it receives, and what one
    request through the middleware leaves in it - on any store, however it
    answers or fails. *)
From S2P Require Import Prelude GoLib GoHttp Errors Record Store Effects Memstore Core Key.
From S2P Require Import Fingerprint StoredResponse Context Http Recorder Problem Config.
From S2P Require Import Middleware MiddlewareSpec.
Import Time httpidem middleware.

Inductive call :=
  | cReserve (key token : bytes)
  | cComplete (key token payload : bytes) (err : option error)
  | cRelease (key token : bytes) (err : option error)
  | cGet (key : bytes).

Definition journaled (S : Type) : Type := (S * list call)%type.

#[global] Instance journaled_store {S} `{Store S} : Store (journaled S) := {
  Reserve i r s := let '(s', x) := Reserve i r s.1 in
    ((s', s.2 ++ [cReserve (rec_Key r) (rec_Token r)]), x);
  Complete i key tok p ttl s := let '(s', x) := Complete i key tok p ttl s.1 in
    ((s', s.2 ++ [cComplete key tok p x]), x);
  Release i key tok s := let '(s', x) := Release i key tok s.1 in
    ((s', s.2 ++ [cRelease key tok x]), x);
  Get i key s := let '(s', x) := Get i key s.1 in ((s', s.2 ++ [cGet key]), x);
}.

Definition journal {S} (w : world (journaled S)) : list call := (w_store w).2.

Lemma journal_advance {S} (w : world (journaled S)) : journal (advance w) = journal w.
Proof. unfold journal, advance. by destruct (w_ticks w). Qed.

(** On every store the program appends to the journal a list of calls that
    [P] relates to its result. *)
Definition emits {A} (p : prog A) (P : A → list call → Prop) : Prop :=
  ∀ S (HS : Store S) (w : world (journaled S)),
    ∃ l, journal (run p w).2 = journal w ++ l ∧ P (run p w).1 l.

Lemma emits_ret {A} (a : A) (P : A → list call → Prop) : P a [] → emits (Ret a) P.
Proof. intros HP S HS w. exists []. by rewrite app_nil_r. Qed.

Lemma emits_bind {A B} (p : prog A) (f : A → prog B) P Q :
  emits p P → (∀ a, emits (f a) (Q a)) →
  emits (p ≫= f) (λ b l, ∃ a l1 l2, l = l1 ++ l2 ∧ P a l1 ∧ Q a b l2).
Proof.
  intros Hp Hf S HS w. rewrite run_bind. destruct (Hp S HS w) as (l1 & H1 & HP).
  destruct (run p w) as [a w1]. destruct (Hf a S HS w1) as (l2 & H2 & HQ). simpl in *.
  exists (l1 ++ l2). split; [by rewrite H2, H1, app_assoc|]. by exists a, l1, l2.
Qed.

Lemma emits_weaken {A} (p : prog A) (P Q : A → list call → Prop) :
  emits p P → (∀ a l, P a l → Q a l) → emits p Q.
Proof. intros Hp HPQ S HS w. destruct (Hp S HS w) as (l & ? & ?). exists l. auto. Qed.

(** Sequencing in one step. *)
Lemma emits_seq {A B} (p : prog A) (f : A → prog B) P Q R :
  emits p P → (∀ a, emits (f a) (Q a)) →
  (∀ a b l1 l2, P a l1 → Q a b l2 → R b (l1 ++ l2)) → emits (p ≫= f) R.
Proof.
  intros Hp Hf HR. eapply emits_weaken; [by apply emits_bind|].
  intros b l (a & l1 & l2 & -> & ? & ?). eauto.
Qed.

(** The calls one by one. *)
Lemma emits_now {A} k (P : A → list call → Prop) : (∀ t, emits (k t) P) → emits (CallNow k) P.
Proof. intros Hk S HS w. simpl. rewrite <-(journal_advance w). apply Hk. Qed.

Lemma emits_reserve {A} r k (P : A → list call → Prop) :
  (∀ x, emits (k x) (λ a l, P a (cReserve (rec_Key r) (rec_Token r) :: l))) →
  emits (CallReserve r k) P.
Proof.
  intros Hk S HS w. simpl. rewrite <-(journal_advance w).
  destruct (Reserve (w_now (advance w)) r (w_store (advance w)).1) as [s x].
  destruct (Hk x S HS (set_store (s, (w_store (advance w)).2 ++ [cReserve (rec_Key r) (rec_Token r)])
    (advance w))) as (l & Hl & HP).
  eexists. split; [|exact HP]. etrans; [exact Hl|]. unfold journal. simpl. by rewrite <-app_assoc.
Qed.

Lemma emits_complete {A} key tok p ttl k (P : A → list call → Prop) :
  (∀ x, emits (k x) (λ a l, P a (cComplete key tok p x :: l))) →
  emits (CallComplete key tok p ttl k) P.
Proof.
  intros Hk S HS w. simpl. rewrite <-(journal_advance w).
  destruct (Complete (w_now (advance w)) key tok p ttl (w_store (advance w)).1) as [s x].
  destruct (Hk x S HS (set_store (s, (w_store (advance w)).2 ++ [cComplete key tok p x])
    (advance w))) as (l & Hl & HP).
  eexists. split; [|exact HP]. etrans; [exact Hl|]. unfold journal. simpl. by rewrite <-app_assoc.
Qed.

Lemma emits_release {A} key tok k (P : A → list call → Prop) :
  (∀ x, emits (k x) (λ a l, P a (cRelease key tok x :: l))) →
  emits (CallRelease key tok k) P.
Proof.
  intros Hk S HS w. simpl. rewrite <-(journal_advance w).
  destruct (Release (w_now (advance w)) key tok (w_store (advance w)).1) as [s x].
  destruct (Hk x S HS (set_store (s, (w_store (advance w)).2 ++ [cRelease key tok x])
    (advance w))) as (l & Hl & HP).
  eexists. split; [|exact HP]. etrans; [exact Hl|]. unfold journal. simpl. by rewrite <-app_assoc.
Qed.

(** ** Programs without store calls *)

Fixpoint silent {A} (p : prog A) : Prop :=
  match p with
  | Ret _ => True
  | CallNow k => ∀ x, silent (k x)
  | CallRead _ k => ∀ x, silent (k x)
  | CallLog _ k => silent k
  | _ => False
  end.

Fixpoint hsilent (p : handler_prog) : Prop :=
  match p with
  | HReturn | HPanic _ => True
  | HHeader k => ∀ x, hsilent (k x)
  | HSetHeader _ k | HWriteHeader _ k | HSetError _ k | HMarkFinished k => hsilent k
  | HWrite _ k => ∀ x, hsilent (k x)
  | HFlush k | HHijack k | HPush _ k => ∀ x, hsilent (k x)
  | HRead _ k => ∀ x, hsilent (k x)
  | HReservation k => ∀ x, hsilent (k x)
  | HCall q k => silent q ∧ ∀ x, hsilent (k x)
  end.

Lemma silent_run {S A} `{Store S} (p : prog A) (w : world (journaled S)) :
  silent p → journal (run p w).2 = journal w.
Proof.
  revert w. induction p as [a|k IH|n k IH| | | | |l k IH]; intros w Hs; simpl in *; try done.
  - rewrite IH by done. apply journal_advance.
  - destruct (read_rand n w) as [b w1] eqn:E. rewrite IH by done.
    unfold read_rand in E. by destruct (w_rand w); simplify_eq/=.
  - by rewrite IH.
Qed.

Lemma emits_silent {A} (p : prog A) : silent p → emits p (λ _ l, l = []).
Proof. intros Hs S HS w. exists []. by rewrite app_nil_r, silent_run. Qed.

Lemma hrun_silent {W S} `{ResponseWriter W} `{Store S} ctx p (s : hstate W)
    (w : world (journaled S)) :
  hsilent p → journal (run (hrun ctx p s) w).2 = journal w.
Proof.
  revert s w. induction p as [|v|k IH|h p IH|code p IH|b k IH|k IH|k IH|t k IH|n k IH|e p IH|p IH|k IH|X q k IH];
    intros s w Hs; simpl in *; auto.
  - destruct (WriteHeader code _) as [w1 [v|]]; simpl; auto.
  - destruct (Write b _) as [w1 [x|v]]; simpl; auto.
  - destruct (Flush _). auto.
  - destruct (Hijack _). auto.
  - destruct (Push t _). auto.
  - destruct (read_body n s) as [x s1]. auto.
  - destruct Hs as [Hq Hk]. rewrite run_bind. pose proof (silent_run q w Hq) as Hj.
    destruct (run q w) as [x w1]. simpl in Hj. by rewrite IH.
Qed.

Lemma serve_silent {W} `{ResponseWriter W} h (w : W) r b :
  hsilent (h r) → emits (serve h w r b) (λ _ l, l = []).
Proof.
  intros Hs S HS wd. exists []. split; [|done]. rewrite app_nil_r. unfold serve. by apply hrun_silent.
Qed.

(** ** The core's calls *)

Definition begin_calls (key : bytes) (res : Outcome + error) (l : list call) : Prop :=
  ∃ n tok, l = replicate n (cReserve key tok) ∧ n ≤ 3 ∧
    ∀ out, res = inl out → out_Action out = Proceed → out_Token out = tok.

Lemma decide_existing_no_proceed existing fp now out :
  decide_existing existing fp now = inl out → out_Action out ≠ Proceed.
Proof. unfold decide_existing. repeat case_match; naive_solver. Qed.

(** At most [m] further Reserve calls, and the token of a Proceed. *)
Definition loop_calls (key tok : bytes) (m : nat) (res : Outcome + error) (l : list call) : Prop :=
  ∃ n, l = replicate n (cReserve key tok) ∧ n ≤ m ∧
    ∀ out, res = inl out → out_Action out = Proceed → out_Token out = tok.

Lemma loop_calls_end key tok m res :
  (∀ out, res = inl out → out_Action out = Proceed → out_Token out = tok) →
  loop_calls key tok (Datatypes.S m) res [cReserve key tok].
Proof. intros. exists 1. split_and!; [done|lia|done]. Qed.

Lemma begin_loop_calls more key fp tok o :
  emits (begin_loop more key fp tok o) (loop_calls key tok (Datatypes.S more)).
Proof.
  induction more as [|more IH]; simpl; apply emits_now; intros t; apply emits_reserve; simpl;
    intros [ex [err|]];
    try (destruct (negb (Is err ErrAlreadyExists)); [by apply emits_ret, loop_calls_end|];
         destruct ex as [ex|]; [|by apply emits_ret, loop_calls_end];
         apply emits_now; intros now; destruct (Expired ex now)).
  all: try by apply emits_ret, loop_calls_end; intros ? [= <-].
  all: try by apply emits_ret, loop_calls_end; intros out E Hp;
    exfalso; eapply decide_existing_no_proceed.
  eapply emits_weaken; [apply IH|]. intros res l (n & -> & Hn & Hout).
  exists (Datatypes.S n). split_and!; [done|lia|done].
Qed.

Lemma Begin_calls key fp o : emits (Begin key fp o) (begin_calls key).
Proof.
  unfold Begin. eapply (emits_seq _ _ _ (λ _, begin_calls key)).
  - apply emits_silent. simpl. intros [b|e]; done.
  - intros [tok|e].
    + eapply emits_weaken; [apply begin_loop_calls|]. intros res l (n & -> & Hn & Hout).
      by exists n, tok.
    + apply emits_ret. exists 0, []. split_and!; [done|lia|done].
  - by intros a b l1 l2 -> ?.
Qed.

(** What a Finish leaves, by its answer. *)
Definition finish_calls (key tok : bytes) (d : Decision) (payload : bytes)
    (res : bool * option error) (l : list call) : Prop :=
  match d with
  | Persist => ∃ e, l = [cComplete key tok payload e] ∧ res = normalize e
  | Discard => ∃ e, l = [cRelease key tok e] ∧ res = normalize e
  | DecisionOther _ => l = []
  end.

Lemma Finish_calls key tok d payload o :
  emits (Finish key tok d payload o) (finish_calls key tok d payload).
Proof.
  destruct d; simpl.
  - apply emits_complete. intros e. apply emits_ret. by exists e.
  - apply emits_release. intros e. apply emits_ret. by exists e.
  - by apply emits_ret.
Qed.

(** ** The middleware's calls *)

(** An error that is neither of the two that mean a lost lease. *)
Definition store_failed (e : option error) : Prop :=
  ∃ err, e = Some err ∧ lease_lost_error err = false.

(** The trailing calls of a request: none, one Complete, one Release, or -
    when the Complete failed with the lease not lost - both. *)
Definition trailing_calls (key tok : bytes) (l : list call) : Prop :=
  l = [] ∨ (∃ e, l = [cRelease key tok e]) ∨
  (∃ p e, l = [cComplete key tok p e] ∧ ¬ store_failed e) ∨
  (∃ p e e', l = [cComplete key tok p e; cRelease key tok e'] ∧ store_failed e).

Lemma normalize_error e lost err :
  normalize e = (lost, Some err) → store_failed e.
Proof.
  unfold normalize, store_failed. destruct e as [e|]; [|done].
  destruct (Is e ErrTokenMismatch || Is e ErrNotFound) eqn:E; [done|]. intros [= <- <-]. eauto.
Qed.

Lemma normalize_ok e lost : normalize e = (lost, None) → ¬ store_failed e.
Proof.
  unfold normalize, store_failed, lease_lost_error. intros H (err & -> & Hl). by rewrite Hl in H.
Qed.

Section calls.
Variable cfg : config.

Lemma discard_logging_calls scope key K tok o msg :
  emits (discard_logging cfg scope key K tok o msg) (λ _ l, ∃ e, l = [cRelease K tok e]).
Proof.
  eapply (emits_seq _ _ _ (λ _ _ l, l = [])); [apply Finish_calls| |].
  - intros [lost [e|]]; apply emits_silent; done.
  - intros a b l1 l2 (e & -> & _) ->. by exists e.
Qed.

(** What follows Finish: the release after a failed Persist. *)
Definition after_calls (K tok : bytes) (d : Decision) (err : option error) (l : list call) : Prop :=
  match err, d with
  | Some _, Persist => ∃ e', l = [cRelease K tok e']
  | _, _ => l = []
  end.

Lemma after_finish_calls scope key K tok o d lost err :
  emits (after_finish cfg scope key K tok o d lost err) (λ _, after_calls K tok d err).
Proof.
  unfold after_finish, after_calls. destruct err as [err|]; [|by apply emits_silent; destruct lost].
  destruct d; [rewrite bool_decide_eq_true_2 by done|
    rewrite bool_decide_eq_false_2 by done; by apply emits_silent..].
  apply (emits_seq _ _ (λ _ l, l = []) (λ _ _ l, ∃ e', l = [cRelease K tok e'])).
  - by apply emits_silent.
  - intros _. apply discard_logging_calls.
  - by intros a b l1 l2 -> ?.
Qed.

Lemma trailing_of K tok d payload res l1 l2 :
  finish_calls K tok d payload res l1 → after_calls K tok d res.2 l2 →
  trailing_calls K tok (l1 ++ l2).
Proof.
  unfold finish_calls, after_calls, trailing_calls. destruct res as [lost err]. simpl.
  destruct d; [intros (e & -> & Hn)|intros (e & -> & Hn)|intros ->].
  - destruct err as [err|].
    + intros (e' & ->). do 3 right. exists payload, e, e'. split; [done|].
      by eapply normalize_error.
    + intros ->. right; right; left. exists payload, e. split; [done|]. by eapply normalize_ok.
  - intros Hl. assert (l2 = []) as -> by (by destruct err). right; left. by exists e.
  - intros Hl. assert (l2 = []) as -> by (by destruct err). by left.
Qed.

Lemma finish_record_calls scope key K tok o rec e :
  emits (finish_response_record cfg scope key K tok o rec e) (λ _, trailing_calls K tok).
Proof.
  unfold finish_response_record.
  apply (emits_seq _ _ (λ _ l, l = []) (λ _ _, trailing_calls K tok)).
  { apply emits_silent. unfold capture_decision. by repeat case_match. }
  2: by intros a b l1 l2 -> ?.
  intros d. apply (emits_seq _ _ (λ _ l, l = []) (λ _ _, trailing_calls K tok)).
  { apply emits_silent. unfold encode_payload. by repeat case_match. }
  2: by intros a b l1 l2 -> ?.
  clear d. intros [d payload].
  apply (emits_seq _ _ (finish_calls K tok d payload) (λ res _, after_calls K tok d res.2)).
  - apply Finish_calls.
  - intros [lost err]. apply after_finish_calls.
  - intros res b l1 l2. apply trailing_of.
Qed.

(** The calls of a whole request. *)
Definition request_calls (l : list call) : Prop :=
  ∃ n K tok t, l = replicate n (cReserve K tok) ++ t ∧ n ≤ 3 ∧ trailing_calls K tok t.

Lemma request_calls_nil : request_calls [].
Proof. exists 0, [], [], []. split_and!; [done|lia|by left]. Qed.

Section writer.
Context {W : Type} `{ResponseWriter W}.
Hypothesis Hew : ∀ r status err, hsilent (errorWriter cfg r status (Some err)).
Variable next : Handler.
Hypothesis Hnext : ∀ r, hsilent (next r).

Lemma WriteError_calls (w : W) r b status err :
  emits (WriteError cfg w r b status err) (λ _ l, l = []).
Proof using Hew. apply serve_silent, Hew. Qed.

Lemma writeReplay_calls (w : W) r b scope key payload :
  emits (writeReplay cfg w r b scope key payload) (λ _ l, l = []).
Proof using Hew.
  unfold writeReplay. destruct (_ <? _)%Z; [|destruct (UnmarshalBinary payload) as [sr|err]].
  - apply (emits_seq _ _ (λ _ l, l = []) (λ _ _ l, l = [])); [by apply emits_silent| |by intros ? ? ? ? -> ->].
    intros _. apply WriteError_calls.
  - apply emits_silent. by destruct (WriteStored sr _).
  - apply (emits_seq _ _ (λ _ l, l = []) (λ _ _ l, l = [])); [by apply emits_silent| |by intros ? ? ? ? -> ->].
    intros _. apply WriteError_calls.
Qed.

Lemma proceed_calls (w : W) r b scope key K tok o :
  emits (proceed cfg next w r b scope key K tok o) (λ _, trailing_calls K tok).
Proof using Hnext.
  unfold proceed. destruct (proceed_context _ _ _) as [[[ctx b'] he] fin].
  apply (emits_seq _ _ (λ _ l, l = []) (λ _ _, trailing_calls K tok));
    [apply serve_silent, Hnext| |by intros a b0 l1 l2 -> ?].
  intros [s [|v]].
  - destruct (fin _); [by apply emits_ret; left|].
    apply (emits_seq _ _ (λ _, trailing_calls K tok) (λ _ _ l, l = []));
      [apply finish_record_calls|intros; by apply emits_ret|].
    intros a b0 l1 l2 Ht ->. by rewrite app_nil_r.
  - apply (emits_seq _ _ (λ _, trailing_calls K tok) (λ _ _ l, l = []));
      [|intros; by apply emits_ret|intros a b0 l1 l2 Ht ->; by rewrite app_nil_r].
    destruct (fin _); [by apply emits_ret; left|].
    eapply emits_weaken; [apply discard_logging_calls|]. intros a l ?. right. by left.
Qed.

Lemma begin_and_act_calls (w : W) r b key body :
  emits (begin_and_act cfg next w r b key body) (λ _, request_calls).
Proof using Hew Hnext.
  unfold begin_and_act. set (K := storeKey _ key).
  apply (emits_seq _ _ (begin_calls K) (λ res _ l, match res with
    | inl out => match out_Action out with Proceed => trailing_calls K (out_Token out) l | _ => l = [] end
    | inr _ => l = [] end)).
  - apply Begin_calls.
  - intros [out|err].
    + destruct (out_Action out).
      * apply proceed_calls.
      * apply writeReplay_calls.
      * apply WriteError_calls.
      * apply WriteError_calls.
    + destruct (failOpen cfg); [|apply WriteError_calls].
      apply (emits_seq _ _ (λ _ l, l = []) (λ _ _ l, l = [])); [by apply emits_silent| |by intros ? ? ? ? -> ->].
      intros _. apply serve_silent, Hnext.
  - intros res b0 l1 l2 (n & tok & -> & Hn & Hout) Hl.
    assert (∀ l, l = [] → request_calls (replicate n (cReserve K tok) ++ l)) as Hnil.
    { intros l ->. exists n, K, tok, []. split_and!; [done..|by left]. }
    destruct res as [out|err]; [|auto]. destruct (out_Action out) eqn:Ea; auto.
    rewrite (Hout out eq_refl Ea) in Hl. by exists n, K, tok, l2.
Qed.

Lemma ServeHTTP_calls (w : W) r b : emits (ServeHTTP cfg next w r b) (λ _, request_calls).
Proof using Hew Hnext.
  assert (∀ p : prog (hstate W * outcome), emits p (λ _ l, l = []) → emits p (λ _, request_calls)) as Hnil.
  { intros p Hp. eapply emits_weaken; [exact Hp|]. intros a l ->. apply request_calls_nil. }
  unfold ServeHTTP. destruct (negb (bool_decide _)); [by apply Hnil, serve_silent|].
  destruct (KeyFromHeader _) as [key|err].
  2: { destruct (_ && _); [by apply Hnil, serve_silent|apply Hnil, WriteError_calls]. }
  destruct (match keyValidator cfg with Some f => negb (f key) | None => false end);
    [apply Hnil, WriteError_calls|].
  destruct (readBody r _) as [[[body [|]]|err] r'];
    [|apply begin_and_act_calls|apply Hnil, WriteError_calls].
  destruct (negb _); [apply Hnil, WriteError_calls|]. apply Hnil.
  apply (emits_seq _ _ (λ _ l, l = []) (λ _ _ l, l = [])); [by apply emits_silent| |by intros ? ? ? ? -> ->].
  intros _. apply serve_silent, Hnext.
Qed.
End writer.
End calls.

(** C7. The store calls of one request, on any store: at most three
    Reserves of one key under one token, and then - with the same key and
    token - nothing, one Release, one Complete, or a Complete followed by a
    Release; the last exactly when the Complete failed for a reason other
    than a lost lease (a persist failure frees the key at once), never
    after one that succeeded.  The handler and the error writer are taken
    to make no store calls of their own. *)
Theorem http_store_calls {W S} `{ResponseWriter W} `{Store S} (cfg : config) (next : Handler)
    (w : W) (r : Request) (b : boxes) (wd : world (journaled S)) :
  (∀ r status err, hsilent (errorWriter cfg r status (Some err))) → (∀ r, hsilent (next r)) →
  ∃ n K tok t,
    journal (run (ServeHTTP cfg next w r b) wd).2 =
      journal wd ++ replicate n (cReserve K tok) ++ t ∧
    n ≤ 3 ∧
    (t = [] ∨ (∃ e, t = [cRelease K tok e]) ∨
     (∃ p e, t = [cComplete K tok p e] ∧ ¬ store_failed e) ∨
     (∃ p e e', t = [cComplete K tok p e; cRelease K tok e'] ∧ store_failed e)).
Proof.
  intros Hew Hnext. destruct (ServeHTTP_calls cfg Hew next Hnext w r b S _ wd)
    as (l & Hl & n & K & tok & t & -> & Hn & Ht).
  by exists n, K, tok, t.
Qed.

Lemma http_store_calls_witness :
  let wd : world (journaled memstore.Store) :=
    mkWorld (memstore.New, []) (mkInstant 5%Z 5%Z) [] [inl ExampleHTTP.block] [] in
  ∃ n K tok t,
    journal (run ExampleHTTP.request wd).2 = [] ++ replicate n (cReserve K tok) ++ t ∧ n ≤ 3 ∧
    (t = [] ∨ (∃ e, t = [cRelease K tok e]) ∨
     (∃ p e, t = [cComplete K tok p e] ∧ ¬ store_failed e) ∨
     (∃ p e e', t = [cComplete K tok p e; cRelease K tok e'] ∧ store_failed e)).
Proof.
  apply (http_store_calls default_config ExampleHTTP.handler ExampleHTTP.w ExampleRequest.req
    (mkBoxes [] []) (mkWorld (memstore.New, []) (mkInstant 5%Z 5%Z) [] [inl ExampleHTTP.block] [])).
  - intros. simpl. auto.
  - intros. simpl. auto.
Defined.
