(* ===== verification/Guards.v ===== *)
(** * Requests the middleware does not guard, and replays it refuses

    Pass-through, rejected keys, large bodies, and stored payloads that are
    not replayed. *)
From S2P Require Import Prelude GoLib GoHttp Errors Record Store Effects Memstore Core CoreSpec.
From S2P Require Import Key StoredResponse Context Http Recorder RecorderSpec Problem Config.
From S2P Require Import Middleware MiddlewareSpec HttpClaims.
Import Time httpidem middleware.

(** The request passes the method, key and validator guards. *)
Definition guarded (cfg : config) (r : Request) (key : bytes) : Prop :=
  ToUpper (r_Method r) ∈ methods cfg ∧ KeyFromHeader (r_Header r) = inl key ∧
  (∀ f, keyValidator cfg = Some f → f key = true).

Lemma ServeHTTP_guarded {W} `{ResponseWriter W} cfg next (w : W) r b key :
  guarded cfg r key →
  ServeHTTP cfg next w r b =
  let '(res, r) := readBody r (maxRequestBody cfg) in
  match res with
  | inr err => WriteError cfg w r b 400 (err_reading_body err)
  | inl (body, true) =>
      if negb (bypassLargeBody cfg) then WriteError cfg w r b 413 ErrRequestBodyTooLarge else
      _ ← Warn "httpidem: request body exceeds MaxRequestBody; bypassing idempotency"
            (keyAttrs cfg [] key);
      serve next w (set_body r (MultiReader body (default (mkReader [] None) (r_Body r)))) b
  | inl (body, false) =>
      begin_and_act cfg next w
        (set_content_length (set_body r (mkReader body None)) (Z.of_nat (length body))) b key body
  end.
Proof.
  intros (Hm & Hk & Hv). unfold ServeHTTP. rewrite bool_decide_eq_true_2 by done.
  cbn [negb]. rewrite Hk.
  assert (match keyValidator cfg with Some f => negb (f key) | None => false end = false) as ->.
  { destruct (keyValidator cfg) as [f|]; [|done]. by rewrite (Hv f eq_refl). }
  done.
Qed.

Lemma set_body_same r rd : r_Body r = Some rd → set_body r rd = r.
Proof. destruct r. simpl. by intros ->. Qed.

Lemma set_body_twice r rd rd' : set_body (set_body r rd) rd' = set_body r rd'.
Proof. done. Qed.

Lemma readBody_large r rd max :
  r_Body r = Some rd → (0 ≤ max < max_int64)%Z → (max < Z.of_nat (length (rd_data rd)))%Z →
  ∃ body rest, readBody r max = (inl (body, true), set_body r rest) ∧ MultiReader body rest = rd.
Proof.
  intros Hb Hm Hlen. unfold readBody. rewrite Hb. unfold ReadAllLimited.
  rewrite i64_small by (unfold is_i64, max_int64, min_int64, two63 in *; lia).
  rewrite (proj2 (Z.leb_gt (max + 1) 0)), (proj2 (Z.leb_le (max + 1) _)) by lia.
  rewrite length_take. rewrite (proj2 (Z.ltb_lt _ _)) by lia.
  eexists _, _. split; [done|]. unfold MultiReader. simpl. rewrite take_drop. by destruct rd.
Qed.

(** A body above the limit never costs the client its data.  With
    BypassLargeBody the handler is run on the bare writer with exactly the
    request that arrived - the prefix read for the check and the unread
    rest joined again - and the store is not touched, only a warning logged;
    without it the answer is 413. *)
Theorem large_body {W S} `{ResponseWriter W} `{Store S} (cfg : config) (next : Handler) (w : W)
    (r : Request) (b : boxes) (key : bytes) (rd : reader) (wd : world S) :
  guarded cfg r key → r_Body r = Some rd → (0 ≤ maxRequestBody cfg < max_int64)%Z →
  (maxRequestBody cfg < Z.of_nat (length (rd_data rd)))%Z →
  if bypassLargeBody cfg
  then run (ServeHTTP cfg next w r b) wd =
       run (serve next w r b) (add_log (mkLog LevelWarn
         (bs "httpidem: request body exceeds MaxRequestBody; bypassing idempotency")
         (keyAttrs cfg [] key)) wd)
  else ∃ rest, run (ServeHTTP cfg next w r b) wd =
       run (WriteError cfg w (set_body r rest) b 413 ErrRequestBodyTooLarge) wd.
Proof.
  intros Hg Hb Hm Hlen. rewrite (ServeHTTP_guarded _ _ _ _ _ _ Hg).
  destruct (readBody_large r rd (maxRequestBody cfg) Hb Hm Hlen) as (body & rest & -> & Hmr).
  destruct (bypassLargeBody cfg); cbn [negb]; [|by exists rest].
  assert (default (mkReader [] None) (r_Body (set_body r rest)) = rest) as -> by done.
  rewrite Hmr, set_body_twice, (set_body_same r rd) by done.
  rewrite run_bind. done.
Qed.

Lemma i64_overflow z : (max_int64 < z ≤ max_int64 + two63)%Z → (i64 z < 0)%Z.
Proof.
  intros Hz. unfold max_int64, two63 in Hz. unfold i64.
  replace (z + two63)%Z with ((z + two63 - two64) + 1 * two64)%Z by lia.
  rewrite Z.mod_add by done. unfold two63, two64 in *. rewrite Z.mod_small; lia.
Qed.

(** C40. A stored payload that is too large for the configured limits, or
    that does not decode, is never replayed: the answer is a 500 problem
    without detail, and the handler is not run.  When the configured limit
    leaves no room for the overhead in an int, the sum wraps around and
    every payload is refused, those the middleware stored itself included. *)
Theorem replay_refused {S} `{Store S} (cfg : config) (w : response) (r : Request) (b : boxes)
    (scope key payload : bytes) (wd : world S) :
  errorWriter cfg = DefaultErrorWriter → fresh w → is_i64 (maxResponseBody cfg) →
  (maxResponseBody cfg + maxStoredResponseOverhead < Z.of_nat (length payload))%Z ∨
  (max_int64 < maxResponseBody cfg + maxStoredResponseOverhead)%Z ∨
  (∃ e, UnmarshalBinary payload = inr e) →
  ∃ s wd', run (writeReplay cfg w r b scope key payload) wd = ((s, Returned), wd') ∧
    w_store wd' = w_store wd ∧ rejection w 500 [] (hs_w s).
Proof.
  intros He Hw Hcfg Hbad. unfold writeReplay. set (limit := (_ + maxStoredResponseOverhead)%Z) in *.
  assert (∀ l err wd1, w_store wd1 = w_store wd →
    ∃ s wd', run (_ ← log l; WriteError cfg w r b 500 err) wd1 = ((s, Returned), wd') ∧
      w_store wd' = w_store wd ∧ rejection w 500 [] (hs_w s)) as Herr.
  { intros l err wd1 Hwd. rewrite run_bind. cbn [run log].
    destruct (WriteError_default cfg w r b 500 err (add_log l wd1) He Hw) as (s & -> & Hrej);
      [done..|]. by eexists s, _. }
  destruct (Z.ltb_spec (i64 limit) (Z.of_nat (length payload))) as [|Hle]; [by apply Herr|].
  destruct Hbad as [Hlong|[Hover|[e ->]]]; [..|by apply Herr].
  - destruct (Z.le_gt_cases limit max_int64) as [Hsmall|Hover].
    + rewrite i64_small in Hle by (unfold is_i64, limit, maxStoredResponseOverhead in *; lia). lia.
    + pose proof (i64_overflow limit) as Hneg.
      unfold is_i64, limit, maxStoredResponseOverhead, max_int64, two63 in *. lia.
  - pose proof (i64_overflow limit) as Hneg.
    unfold is_i64, limit, maxStoredResponseOverhead, max_int64, two63 in *. lia.
Qed.

Module ExampleLarge.

Definition cfg : config := BypassLargeBody true (MaxRequestBody 1 default_config).
Definition huge : config := MaxResponseBody max_int64 default_config.
Definition wd : world memstore.Store := mkWorld memstore.New (mkInstant 5%Z 5%Z) [] [] [].

Lemma is_guarded : guarded cfg ExampleRequest.req (bs "key-1").
Proof.
  split; [apply (bool_decide_unpack (ToUpper (r_Method ExampleRequest.req) ∈ methods cfg)); vm_compute; exact I|].
  split; [vm_compute; reflexivity|done].
Qed.

End ExampleLarge.

Lemma large_body_witness :
  run (ServeHTTP ExampleLarge.cfg ExampleFlow.handler ExampleFlow.w ExampleRequest.req
    (mkBoxes [] [])) ExampleLarge.wd =
  run (serve ExampleFlow.handler ExampleFlow.w ExampleRequest.req (mkBoxes [] []))
    (add_log (mkLog LevelWarn
      (bs "httpidem: request body exceeds MaxRequestBody; bypassing idempotency")
      (keyAttrs ExampleLarge.cfg [] (bs "key-1"))) ExampleLarge.wd).
Proof.
  apply (large_body ExampleLarge.cfg ExampleFlow.handler ExampleFlow.w ExampleRequest.req
    (mkBoxes [] []) (bs "key-1") (mkReader (bs "{}") None) ExampleLarge.wd).
  - exact ExampleLarge.is_guarded.
  - reflexivity.
  - split; vm_compute; [discriminate|reflexivity].
  - vm_compute. reflexivity.
Defined.

(** The largest limit refuses even a payload that decodes. *)
Lemma replay_refused_witness :
  UnmarshalBinary (marshal_ranging [] (mkStoredResponse 201 ∅ (bs "ok")))
    = inl (mkStoredResponse 201 ∅ (bs "ok")) ∧
  ∃ s wd', run (writeReplay ExampleLarge.huge ExampleFlow.w ExampleRequest.req (mkBoxes [] [])
      [] (bs "key-1") (marshal_ranging [] (mkStoredResponse 201 ∅ (bs "ok")))) ExampleLarge.wd
      = ((s, Returned), wd') ∧ rejection ExampleFlow.w 500 [] (hs_w s).
Proof.
  split; [vm_compute; reflexivity|].
  destruct (replay_refused ExampleLarge.huge ExampleFlow.w ExampleRequest.req (mkBoxes [] [])
    [] (bs "key-1") (marshal_ranging [] (mkStoredResponse 201 ∅ (bs "ok"))) ExampleLarge.wd)
    as (s & wd' & Hrun & _ & Hrej).
  - reflexivity.
  - exact ExampleFlow.is_fresh.
  - split; vm_compute; discriminate.
  - right; left. vm_compute. reflexivity.
  - by exists s, wd'.
Defined.
