(* ===== verification/Redis.v ===== *)
(** * The Redis server and client, as an interface

    redistore talks to Redis through Lua scripts.  [Redis] names the seven
    commands the scripts call, [RedisLaws] states their documented effect
    on the hashes of a keyspace whose entries expire, and [Run] is a script
    execution over a network that delays, loses and repeats requests.  A
    concrete keyspace at the end satisfies the laws. *)
From S2P Require Import Prelude GoLib Strconv Errors Store.
Import Time.
Local Open Scope Z_scope.

(** ** The keyspace *)

Abbreviation hash := (gmap bytes bytes).

(** A hash and the instant, in milliseconds of the server clock, from which
    its key is gone. *)
Record entry := mkEntry { e_hash : hash; e_dead : option Z }.

Definition gone (now : Z) (e : entry) : bool :=
  match e_dead e with Some d => d <=? now | None => false end.

Abbreviation keyspace := (gmap bytes entry).

(** What a command sees under a key. *)
Definition look (now : Z) (m : keyspace) (k : bytes) : option entry :=
  match m !! k with
  | Some e => if gone now e then None else Some e
  | None => None
  end.

(** A key may vanish once it is gone. *)
Definition fades (now : Z) (o o' : option entry) : Prop :=
  o' = o ∨ (o' = None ∧ ∃ e, o = Some e ∧ gone now e = true).

Definition expires (now : Z) (m m' : keyspace) : Prop :=
  ∀ k, fades now (m !! k) (m' !! k).

(** A command that leaves [o] under [k]. *)
Definition writes (now : Z) (k : bytes) (o : option entry) (m m' : keyspace) : Prop :=
  m' !! k = o ∧ ∀ k', k' ≠ k → fades now (m !! k') (m' !! k').

Lemma fades_refl now o : fades now o o.
Proof. by left. Qed.

Lemma fades_trans now o1 o2 o3 : fades now o1 o2 → fades now o2 o3 → fades now o1 o3.
Proof. unfold fades. naive_solver. Qed.

#[global] Instance expires_preorder now : PreOrder (expires now).
Proof.
  split; [by intros m k; left|]. intros m1 m2 m3 H1 H2 k. by eapply fades_trans.
Qed.

Lemma writes_expires_l now k o m1 m2 m3 :
  expires now m1 m2 → writes now k o m2 m3 → writes now k o m1 m3.
Proof. intros He [Hk Hw]. split; [done|]. intros k' Hne. eapply fades_trans; eauto. Qed.

Lemma writes_writes now k o o' m1 m2 m3 :
  writes now k o m1 m2 → writes now k o' m2 m3 → writes now k o' m1 m3.
Proof.
  intros [_ H1] [Hk H2]. split; [done|]. intros k' Hne. eapply fades_trans; eauto.
Qed.

Lemma look_fades now m m' k : fades now (m !! k) (m' !! k) → look now m' k = look now m k.
Proof. unfold look. intros [->|(-> & e & -> & ->)]; done. Qed.

Lemma look_expires now m m' k : expires now m m' → look now m' k = look now m k.
Proof. intros H. apply look_fades, H. Qed.

Lemma look_Some now m k e : look now m k = Some e ↔ m !! k = Some e ∧ gone now e = false.
Proof. unfold look. split; [split_matches|]. by intros [-> ->]. Qed.

(** ** The commands *)

(** [HSET key f1 v1 f2 v2 ...]: the fields are set from left to right. *)
Definition hset (fvs : list (bytes * bytes)) (h : hash) : hash :=
  foldl (λ h fv, <[fv.1 := fv.2]> h) h fvs.

(** The flat list of names and values of a hash. *)
Definition flat (l : list (bytes * bytes)) : list bytes := l ≫= λ fv, [fv.1; fv.2].

(** The commands at an instant of the server clock, on a key. *)
Class Redis (D : Type) := {
  EXISTS : Z → bytes → D → D * Z;
  PTTL : Z → bytes → D → D * Z;
  HGET : Z → bytes → bytes → D → D * option bytes;
  HGETALL : Z → bytes → D → D * list bytes;
  HSET : Z → bytes → list (bytes * bytes) → D → D * Z;
  PEXPIRE : Z → bytes → bytes → D → D * Z;
  DEL : Z → bytes → D → D * Z;
}.

(** Their documentation: reads change nothing but what has expired anyway;
    HGETALL lists the fields in any order; HSET keeps the time to live;
    PEXPIRE sets it from a positive decimal number of milliseconds, and
    PTTL reports what is left of it, both accurate to the millisecond.
    The bound on PEXPIRE is the largest number of whole milliseconds in a
    Go duration. *)
Class RedisLaws (D : Type) `{Redis D} := {
  entries : D → keyspace;
  EXISTS_spec now k d d' n : EXISTS now k d = (d', n) →
    expires now (entries d) (entries d') ∧
    n = (if look now (entries d) k then 1 else 0);
  PTTL_spec now k d d' n : PTTL now k d = (d', n) →
    expires now (entries d) (entries d') ∧
    ∀ e dead, look now (entries d) k = Some e → e_dead e = Some dead →
      0 ≤ n ∧ n ≤ dead - now ≤ n + 1;
  HGET_spec now k f d d' v : HGET now k f d = (d', v) →
    expires now (entries d) (entries d') ∧
    v = (look now (entries d) k ≫= λ e, e_hash e !! f);
  HGETALL_spec now k d d' l : HGETALL now k d = (d', l) →
    expires now (entries d) (entries d') ∧
    ∀ e, look now (entries d) k = Some e → ∃ fvs, fvs ≡ₚ map_to_list (e_hash e) ∧ l = flat fvs;
  HSET_spec now k fvs d d' n : HSET now k fvs d = (d', n) →
    writes now k (Some (match look now (entries d) k with
                        | Some e => mkEntry (hset fvs (e_hash e)) (e_dead e)
                        | None => mkEntry (hset fvs ∅) None
                        end)) (entries d) (entries d');
  PEXPIRE_spec now k ms d d' n e : PEXPIRE now k (FormatInt ms) d = (d', n) →
    1 ≤ ms ≤ 9223372036854 → look now (entries d) k = Some e →
    ∃ dead, now + ms ≤ dead ≤ now + ms + 1 ∧
      writes now k (Some (mkEntry (e_hash e) (Some dead))) (entries d) (entries d');
  DEL_spec now k d d' n : DEL now k d = (d', n) →
    writes now k None (entries d) (entries d');
}.

(** ** Script executions *)

(** What a script returns, as go-redis hands it to Go: a string, an int64,
    a slice, or - for Lua's [false] - nothing. *)
Inductive reply :=
  | RNil
  | RInt (z : Z)
  | RStr (s : bytes)
  | RArr (l : list reply).

(** A script on one key: atomic, at one instant of the server clock. *)
Abbreviation script D := (Z → D → D * reply).

(** One round trip: how long before and after the execution on the server
    the client's clock is read, how often go-redis had to repeat the request
    because the answer was lost, and whether the last attempt failed as
    well - before or after the server ran it.  Repetitions run at the same
    instant as the last attempt. *)
Record trip := mkTrip {
  tr_before : N;
  tr_after : N;
  tr_repeats : nat;
  tr_fault : option (bool * bytes);
}.

Record client (D : Type) := mkClient { c_db : D; c_net : list trip }.
Arguments mkClient {D} _ _.
Arguments c_db {D} _.
Arguments c_net {D} _.

Section client.
Context {D : Type}.

Definition next_trip (c : client D) : trip :=
  match c_net c with t :: _ => t | [] => mkTrip 0 0 0 None end.

(** The client's clock when it sends the request and when it has the answer. *)
Definition sent_at (i : Instant) (c : client D) : Time :=
  app_clock i - Z.of_N (tr_before (next_trip c)).
Definition answered_at (i : Instant) (c : client D) : Time :=
  app_clock i + Z.of_N (tr_after (next_trip c)).

Definition server_ms (i : Instant) : Z := srv_clock i / Millisecond.

Fixpoint repeat_script (n : nat) (f : D → D * reply) (d : D) : D :=
  match n with O => d | S n => repeat_script n f (f d).1 end.

(** [script.Run(...).Result()]: a top-level nil is the error redis.Nil. *)
Definition Run (f : script D) (i : Instant) (c : client D) : client D * (reply + error) :=
  let now := server_ms i in
  let t := next_trip c in
  let d := repeat_script (tr_repeats t) (f now) (c_db c) in
  let net := tail (c_net c) in
  match tr_fault t with
  | Some (false, msg) => (mkClient d net, inr (errText msg))
  | Some (true, msg) => (mkClient (f now d).1 net, inr (errText msg))
  | None =>
      let '(d, r) := f now d in
      (mkClient d net, match r with RNil => inr (redis_Nil : error) | _ => inl r end)
  end.
End client.

(** A reflexive and transitive account of single executions holds of the
    repeated ones. *)
Lemma repeat_script_effect {D} (f : D → D * reply) (I : D → Prop) (E : D → D → Prop) n d :
  (∀ d, E d d) → (∀ d1 d2 d3, E d1 d2 → E d2 d3 → E d1 d3) →
  (∀ d, I d → I (f d).1 ∧ E d (f d).1) →
  I d → I (repeat_script n f d) ∧ E d (repeat_script n f d).
Proof.
  intros Hr Ht Hf. revert d. induction n as [|n IH]; intros d Hd; simpl; [done|].
  destruct (Hf d Hd) as [Hd' He]. destruct (IH _ Hd') as [? ?]. split; [done|]. by eapply Ht.
Qed.

(** ** A keyspace that satisfies the laws *)

Module keyspace.

Definition purge (now : Z) (k : bytes) (m : keyspace) : keyspace :=
  match look now m k with Some _ => m | None => delete k m end.

(** As in the server: a key lives through the millisecond of its deadline. *)
Definition pexpire (now : Z) (k ms : bytes) (m : keyspace) : keyspace * Z :=
  match ParseInt ms, look now m k with
  | Some n, Some e => (<[k := mkEntry (e_hash e) (Some (now + n + 1))]> m, 1)
  | _, _ => (m, 0)
  end.

#[global] Instance commands : Redis keyspace := {
  EXISTS now k m := (purge now k m, if look now m k then 1 else 0);
  PTTL now k m :=
    (purge now k m,
     match look now m k with
     | Some e => match e_dead e with Some d => d - 1 - now | None => -1 end
     | None => -2
     end);
  HGET now k f m := (purge now k m, look now m k ≫= λ e, e_hash e !! f);
  HGETALL now k m :=
    (purge now k m, match look now m k with Some e => flat (map_to_list (e_hash e)) | None => [] end);
  HSET now k fvs m :=
    (<[k := match look now m k with
            | Some e => mkEntry (hset fvs (e_hash e)) (e_dead e)
            | None => mkEntry (hset fvs ∅) None
            end]> m, 0);
  PEXPIRE := pexpire;
  DEL now k m := (delete k m, if look now m k then 1 else 0);
}.

Lemma expires_purge now k m : expires now m (purge now k m).
Proof.
  intros k'. unfold purge, look. destruct (m !! k) as [e|] eqn:E; [destruct (gone now e) eqn:Hg|].
  - destruct (decide (k' = k)) as [->|]; [right|left; by rewrite lookup_delete_ne].
    rewrite lookup_delete_eq. eauto.
  - by left.
  - left. destruct (decide (k' = k)) as [->|]; [by rewrite lookup_delete_eq|].
    by rewrite lookup_delete_ne.
Qed.

Lemma writes_insert now k e m : writes now k (Some e) m (<[k := e]> m).
Proof.
  split; [by rewrite lookup_insert_eq|]. intros k' ?. left. by rewrite lookup_insert_ne.
Qed.

#[global, refine] Instance laws : RedisLaws keyspace := { entries m := m }.
Proof.
  - intros now k m m' n [= <- <-]. split; [apply expires_purge|done].
  - intros now k m m' n [= <- <-]. split; [apply expires_purge|].
    intros e dead Hl Hd. rewrite Hl, Hd. apply look_Some in Hl as [_ Hg].
    unfold gone in Hg. rewrite Hd, Z.leb_gt in Hg. lia.
  - intros now k f m m' v [= <- <-]. split; [apply expires_purge|done].
  - intros now k m m' l [= <- <-]. split; [apply expires_purge|].
    intros e ->. by exists (map_to_list (e_hash e)).
  - intros now k fvs m m' n [= <- <-]. apply writes_insert.
  - intros now k ms m m' n e H Hms Hl. cbn in H. unfold pexpire in H.
    rewrite ParseInt_FormatInt, Hl in H
      by (unfold is_i64, min_int64, max_int64, two63; lia).
    injection H as <- <-. exists (now + ms + 1). split; [lia|]. apply writes_insert.
  - intros now k m m' n [= <- <-]. split; [apply lookup_delete_eq|].
    intros k' ?. left. by rewrite lookup_delete_ne.
Defined.

End keyspace.
