(* ===== verification/Redistore.v ===== *)
(** * The Redis store (redistore/redistore.go)

    The four Lua scripts as compositions of Redis commands, and the Go
    operations that run them and decode their replies.  What they
    guarantee is in RedistoreSpec. *)
From S2P Require Import Prelude GoLib Strconv Errors Record Store Redis.
Import Time.

Module redistore.

(** Hash field values for Record.State. *)
Definition stateReserved : bytes := bs "1".
Definition stateCompleted : bytes := bs "2".

(** ** The scripts *)

Section scripts.
Context {D : Type} `{Redis D}.
Local Open Scope Z_scope.

(** [{redis.call('PTTL', KEYS[1]), redis.call('HGETALL', KEYS[1])}] *)
Definition read_reply (key : bytes) : script D := λ now d,
  let '(d, ttl) := PTTL now key d in
  let '(d, fields) := HGETALL now key d in
  (d, RArr [RInt ttl; RArr (map RStr fields)]).

Definition reserveScript (key state token fp lease_exp_ms lease_ttl : bytes) : script D := λ now d,
  let '(d, n) := EXISTS now key d in
  if n =? 1 then read_reply key now d
  else
    let '(d, _) := HSET now key
      [(bs "state", state); (bs "token", token); (bs "fp", fp);
       (bs "lease_exp_ms", lease_exp_ms)] d in
    let '(d, _) := PEXPIRE now key lease_ttl d in
    (d, RStr (bs "OK")).

Definition getScript (key : bytes) : script D := λ now d,
  let '(d, n) := EXISTS now key d in
  if n =? 0 then (d, RNil) else read_reply key now d.

(** The compare-and-set completeScript and releaseScript begin with. *)
Definition cas_script (key token : bytes) (act : script D) : script D := λ now d,
  let '(d, held) := HGET now key (bs "token") d in
  match held with
  | None => (d, RStr (bs "NOT_FOUND"))
  | Some t =>
      if negb (bool_decide (t = token)) then (d, RStr (bs "TOKEN_MISMATCH"))
      else
        let '(d, state) := HGET now key (bs "state") d in
        if negb (bool_decide (state = Some stateReserved)) then (d, RStr (bs "NOT_FOUND"))
        else act now d
  end.

Definition complete_act (key payload rec_exp_ms record_ttl : bytes) : script D := λ now d,
  let '(d, _) := HSET now key
    [(bs "state", stateCompleted); (bs "payload", payload); (bs "rec_exp_ms", rec_exp_ms)] d in
  let '(d, _) := PEXPIRE now key record_ttl d in
  (d, RStr (bs "OK")).

Definition completeScript (key token payload rec_exp_ms record_ttl : bytes) : script D :=
  cas_script key token (complete_act key payload rec_exp_ms record_ttl).

Definition release_act (key : bytes) : script D := λ now d,
  let '(d, _) := DEL now key d in (d, RStr (bs "OK")).

Definition releaseScript (key token : bytes) : script D :=
  cas_script key token (release_act key).
End scripts.

(** ** Decoding replies *)

(** The verb [%T] of a reply. *)
Definition go_type (r : reply) : bytes :=
  match r with
  | RNil => bs "<nil>"
  | RInt _ => bs "int64"
  | RStr _ => bs "string"
  | RArr _ => bs "[]interface {}"
  end.

(** The verb [%v]: elements of a slice are separated by spaces. *)
Fixpoint go_value (r : reply) : bytes :=
  match r with
  | RNil => bs "<nil>"
  | RInt z => FormatInt z
  | RStr s => s
  | RArr l => bs "[" ++ tail (l ≫= λ r, bs " " ++ go_value r) ++ bs "]"
  end.

(** [v, _ := r.(string)] *)
Definition as_string (r : reply) : bytes := match r with RStr s => s | _ => [] end.

(** The loop over names and values; a name without a value is dropped. *)
Fixpoint fields_of (raw : list reply) (fields : hash) : hash :=
  match raw with
  | n :: v :: raw => fields_of raw (<[as_string n := as_string v]> fields)
  | _ => fields
  end.

(** The texts carry keys and values as they are, without the quoting of the
    verb [%q]. *)
Definition err_corrupted (key : bytes) (field value : bytes) : error :=
  errText (bs "redistore: corrupted record " ++ key ++ bs ": " ++ field ++ bs " " ++ value).

(** An optional field that must be a decimal int64. *)
Definition time_field (key name : bytes) (fields : hash) (t : Time) : Time + error :=
  match fields !! name with
  | Some v =>
      match ParseInt v with
      | Some ms => inl (of_UnixMilli ms)
      | None => inr (err_corrupted key name v)
      end
  | None => inl t
  end.

Definition recordFromFields (key : bytes) (fields : hash) : Record + error :=
  let field name := default [] (fields !! name) in
  let state := field (bs "state") in
  let decode (st : State) :=
    match time_field key (bs "lease_exp_ms") fields Time.zero with
    | inr e => inr e
    | inl lease =>
        match time_field key (bs "rec_exp_ms") fields Time.zero with
        | inr e => inr e
        | inl record =>
            inl (mkRecord key (field (bs "fp")) st (field (bs "token")) lease record
                   (field (bs "payload")))
        end
    end in
  if bool_decide (state = stateReserved) then decode StateReserved
  else if bool_decide (state = stateCompleted) then decode StateCompleted
  else inr (err_corrupted key (bs "state") state).

(** The switch that gives a record the deadline of its state. *)
Definition set_deadline (deadline : Time) (rec : Record) : Record :=
  match rec_State rec with
  | StateReserved =>
      mkRecord (rec_Key rec) (rec_Fingerprint rec) (rec_State rec) (rec_Token rec)
        deadline (rec_RecordExpiresAt rec) (rec_Payload rec)
  | StateCompleted =>
      mkRecord (rec_Key rec) (rec_Fingerprint rec) (rec_State rec) (rec_Token rec)
        (rec_LeaseExpiresAt rec) deadline (rec_Payload rec)
  | StateOther _ => rec
  end.

Definition err_malformed (what key detail : bytes) : error :=
  errText (bs "redistore: malformed " ++ what ++ bs " for " ++ key ++ bs ": " ++ detail).

(** [now] is what [time.Now()] answers while decoding. *)
Definition recordFromReply (now : Time) (key : bytes) (reply : list reply) : Record + error :=
  match reply with
  | [r0; r1] =>
      match r0 with
      | RInt pttlMs =>
          match r1 with
          | RArr rawFields =>
              match recordFromFields key (fields_of rawFields ∅) with
              | inr err => inr err
              | inl rec =>
                  if (pttlMs <? 0)%Z
                  then inr (errText (bs "redistore: record " ++ key ++ bs " has no TTL"))
                  else inl (set_deadline (Add now (millis pttlMs)) rec)
              end
          | r => inr (err_malformed (bs "field list") key (go_type r))
          end
      | r => inr (err_malformed (bs "PTTL") key (go_type r))
      end
  | _ =>
      inr (err_malformed (bs "script reply") key
             (FormatInt (Z.of_nat (length reply)) ++ bs " elements"))
  end.

Definition err_unexpected (op detail : bytes) : error :=
  errText (bs "redistore: " ++ op ++ bs ": unexpected script result " ++ detail).

Definition statusToErr (res : reply) (op : bytes) : option error :=
  let status := as_string res in
  if bool_decide (status = bs "OK") then None
  else if bool_decide (status = bs "NOT_FOUND") then Some (ErrNotFound : error)
  else if bool_decide (status = bs "TOKEN_MISMATCH") then Some (ErrTokenMismatch : error)
  else Some (err_unexpected op (go_value res)).

(** ** The store *)

Record Store (D : Type) := mkStore { s_client : client D; s_prefix : bytes }.
Arguments mkStore {D} _ _.
Arguments s_client {D} _.
Arguments s_prefix {D} _.

Section store.
Context {D : Type} `{Redis D}.

Definition Option : Type := Store D → Store D.

Definition KeyPrefix (p : bytes) : Option := λ s, mkStore (s_client s) p.

Definition New (c : client D) (opts : list Option) : Store D :=
  foldl (λ s o, o s) (mkStore c (bs "idemlease:")) opts.

Definition redisKey (s : Store D) (key : bytes) : bytes := s_prefix s ++ key.

Definition pxUntil (now deadline : Time) : Z :=
  let ms := Milliseconds (Until now deadline) in
  if (ms <? 1)%Z then 1%Z else ms.

Definition Reserve (i : Instant) (rec : Record) (s : Store D)
    : Store D * (option Record * option error) :=
  let c := s_client s in
  let '(c', res) := Run
    (reserveScript (redisKey s (rec_Key rec)) stateReserved (rec_Token rec) (rec_Fingerprint rec)
       (FormatInt (UnixMilli (rec_LeaseExpiresAt rec)))
       (FormatInt (pxUntil (sent_at i c) (rec_LeaseExpiresAt rec)))) i c in
  (mkStore c' (s_prefix s),
   match res with
   | inr err => (None, Some (Errorf_prefix_w (bs "redistore: reserve: ") err))
   | inl (RStr _) => (None, None)
   | inl (RArr v) =>
       match recordFromReply (answered_at i c) (rec_Key rec) v with
       | inr err => (None, Some err)
       | inl existing => (Some existing, Some (ErrAlreadyExists : error))
       end
   | inl r => (None, Some (err_unexpected (bs "reserve") (go_type r)))
   end).

(** [recordTTL] is an int64. *)
Definition Complete (i : Instant) (key token payload : bytes) (recordTTL : Duration) (s : Store D)
    : Store D * option error :=
  let c := s_client s in
  let ms := Milliseconds (i64 recordTTL) in
  let pxMs := if (ms <? 1)%Z then 1%Z else ms in
  let '(c', res) := Run
    (completeScript (redisKey s key) token payload
       (FormatInt (UnixMilli (Add (sent_at i c) recordTTL))) (FormatInt pxMs)) i c in
  (mkStore c' (s_prefix s),
   match res with
   | inr err => Some (Errorf_prefix_w (bs "redistore: complete: ") err)
   | inl res => statusToErr res (bs "complete")
   end).

Definition Release (i : Instant) (key token : bytes) (s : Store D) : Store D * option error :=
  let '(c', res) := Run (releaseScript (redisKey s key) token) i (s_client s) in
  (mkStore c' (s_prefix s),
   match res with
   | inr err => Some (Errorf_prefix_w (bs "redistore: release: ") err)
   | inl res => statusToErr res (bs "release")
   end).

Definition Get (i : Instant) (key : bytes) (s : Store D)
    : Store D * (option Record * option error) :=
  let c := s_client s in
  let '(c', res) := Run (getScript (redisKey s key)) i c in
  (mkStore c' (s_prefix s),
   match res with
   | inr err =>
       if Is err redis_Nil then (None, None)
       else (None, Some (Errorf_prefix_w (bs "redistore: get: ") err))
   | inl (RArr reply) =>
       match recordFromReply (answered_at i c) key reply with
       | inl rec => (Some rec, None)
       | inr err => (None, Some err)
       end
   | inl r => (None, Some (err_unexpected (bs "get") (go_type r)))
   end).
End store.

End redistore.
