(* ===== verification/RedistoreSpec.v ===== *)
(** * The Redis store executes the operations of store.go

    On every keyspace that satisfies the documented laws of Redis, a script
    is the operation store.go promises, answer included, at the server's
    millisecond clock; over a network that delays, loses and repeats
    requests an operation of redistore is as many of them as requests
    arrived ([executed]), which keeps the contract.  The keys under the store's
    prefix must have been written by it ([wf]); it keeps them so. *)
From S2P Require Import Prelude GoLib Strconv Errors Record Store Redis Redistore.
Import Time redistore.
Local Open Scope Z_scope.

(** ** What the store writes *)

Record wf_entry (e : entry) : Prop := {
  wf_dead : ∃ dead, e_dead e = Some dead;
  wf_token : ∃ tok, e_hash e !! bs "token" = Some tok;
  wf_state : e_hash e !! bs "state" = Some stateReserved ∧ e_hash e !! bs "payload" = None ∨
             e_hash e !! bs "state" = Some stateCompleted;
  wf_lease v : e_hash e !! bs "lease_exp_ms" = Some v → is_Some (ParseInt v);
  wf_record v : e_hash e !! bs "rec_exp_ms" = Some v → is_Some (ParseInt v);
}.

Definition wf_keys (p : bytes) (m : keyspace) : Prop :=
  ∀ k e, m !! (p ++ k) = Some e → wf_entry e.

Lemma time_field_ok key name h t :
  (∀ v, h !! name = Some v → is_Some (ParseInt v)) → ∃ t', time_field key name h t = inl t'.
Proof.
  unfold time_field. intros H. destruct (h !! name) as [v|]; [|by eexists].
  destruct (H v eq_refl) as [ms ->]. by eexists.
Qed.

(** The state a well-formed entry is in. *)
Definition entry_state (e : entry) : State :=
  if decide (e_hash e !! bs "state" = Some stateReserved) then StateReserved else StateCompleted.

Lemma wf_decode key e :
  wf_entry e → ∃ lease record, recordFromFields key (e_hash e) =
    inl (mkRecord key (default [] (e_hash e !! bs "fp")) (entry_state e)
           (default [] (e_hash e !! bs "token")) lease record
           (default [] (e_hash e !! bs "payload"))).
Proof.
  intros [_ _ Hs Hl Hr]. unfold recordFromFields, entry_state.
  destruct (time_field_ok key (bs "lease_exp_ms") _ Time.zero Hl) as [tl ->].
  destruct (time_field_ok key (bs "rec_exp_ms") _ Time.zero Hr) as [tr ->].
  exists tl, tr. destruct Hs as [[-> _]| ->]; reflexivity.
Qed.

(** ** The records a keyspace stands for *)

Definition stored (k : bytes) (e : entry) : option Record :=
  match e_dead e, recordFromFields k (e_hash e) with
  | Some dead, inl r => Some (set_deadline dead r)
  | _, _ => None
  end.

Lemma stored_deadline k e r :
  stored k e = Some r → deadline r = e_dead e ∧ rec_Key r = k.
Proof.
  unfold stored, recordFromFields, set_deadline, deadline.
  intros H. repeat (case_match; simplify_eq/=); done.
Qed.

Lemma wf_stored k e : wf_entry e → ∃ r, stored k e = Some r.
Proof.
  intros Hw. destruct (wf_dead _ Hw) as [dead Hd]. destruct (wf_decode k e Hw) as (l & t & Hr).
  unfold stored. rewrite Hd, Hr. eauto.
Qed.

(** The keys under a prefix, stripped of it. *)
Definition strip (p k : bytes) : option bytes :=
  if decide (take (length p) k = p) then Some (drop (length p) k) else None.

Lemma strip_Some p k k' : strip p k = Some k' ↔ k = p ++ k'.
Proof.
  unfold strip. split.
  - case_decide as H; [|done]. intros [= <-]. rewrite <-(take_drop (length p) k) at 1. by rewrite H.
  - intros ->. rewrite take_app_exact, drop_app_exact by done. by rewrite decide_True.
Qed.

Definition content_of (p : bytes) (m : keyspace) : content :=
  omap id (set_to_map (C:=gset bytes) (λ k, (k, m !! (p ++ k) ≫= stored k))
             (list_to_set (omap (strip p) (elements (dom m))))).

Lemma content_of_lookup p m k : content_of p m !! k = (m !! (p ++ k) ≫= stored k).
Proof.
  unfold content_of. rewrite lookup_omap.
  destruct (m !! (p ++ k)) as [e|] eqn:E; simpl.
  - assert ((set_to_map (M:=gmap bytes (option Record)) (C:=gset bytes) (λ k, (k, m !! (p ++ k) ≫= stored k))
       (list_to_set (omap (strip p) (elements (dom m))))) !! k = Some (stored k e)) as ->; [|done].
    apply lookup_set_to_map; [naive_solver|]. exists k. rewrite E. simpl. split; [|done].
    apply elem_of_list_to_set, list_elem_of_omap. exists (p ++ k).
    split; [|by apply strip_Some]. apply elem_of_elements, elem_of_dom. eauto.
  - destruct (set_to_map _ _ !! k) as [o|] eqn:Hk; [|done].
    apply lookup_set_to_map in Hk as (k' & _ & Hk'); [|naive_solver]. simplify_eq/=.
    by rewrite E.
Qed.

(** The logical content shows an entry for as long as the server does. *)
Lemma live_content now p m k :
  live now (content_of p m) k = (look now m (p ++ k) ≫= stored k).
Proof.
  unfold live, look. rewrite content_of_lookup.
  destruct (m !! (p ++ k)) as [e|]; simpl; [|done].
  destruct (stored k e) as [r|] eqn:Hr; simpl; [|by destruct (gone now e); simpl].
  apply stored_deadline in Hr as Hd. destruct Hd as [Hd _]. unfold gone.
  destruct (e_dead e) as [dead|] eqn:He; [|unfold stored in Hr; by rewrite He in Hr].
  rewrite (Expired_deadline r now dead Hd). destruct (dead <=? now); simpl; [done|]. by rewrite Hr.
Qed.

Lemma gone_mono now t e : now ≤ t → gone now e = true → gone t e = true.
Proof. unfold gone. destruct (e_dead e); [|done]. rewrite !Z.leb_le. lia. Qed.

Lemma fades_mono now t o o' : now ≤ t → fades now o o' → fades t o o'.
Proof. unfold fades. naive_solver eauto using gone_mono. Qed.

Lemma content_expires now p m m' : expires now m m' → content_of p m' ≡{now}≡ content_of p m.
Proof.
  intros H t k Ht. rewrite !live_content. f_equal. apply look_fades.
  by eapply fades_mono.
Qed.

Lemma content_writes now p k o m m' :
  writes now (p ++ k) o m m' →
  content_of p m' ≡{now}≡
    match o ≫= stored k with
    | Some r => <[k := r]> (content_of p m)
    | None => delete k (content_of p m)
    end.
Proof.
  intros [Hk Hother] t k' Ht. rewrite live_content. destruct (decide (k = k')) as [<-|Hne].
  - unfold look. rewrite Hk. destruct o as [e|]; simpl; [|by rewrite live_delete_eq].
    destruct (stored k e) as [r|] eqn:Hr; simpl.
    + rewrite live_insert_eq. apply stored_deadline in Hr as Hd. destruct Hd as [Hd _].
      unfold live_rec, gone. destruct (e_dead e) as [d|] eqn:E;
        [|unfold stored in Hr; by rewrite E in Hr].
      rewrite (Expired_deadline r t d Hd). by destruct (d <=? t).
    + rewrite live_delete_eq. by destruct (gone t e).
  - assert (look t m' (p ++ k') = look t m (p ++ k')) as ->.
    { apply look_fades. eapply fades_mono; [done|]. apply Hother.
      intros ?%app_inj_2; naive_solver. }
    destruct (o ≫= stored k); [rewrite live_insert_ne by done|rewrite live_delete_ne by done];
      by rewrite live_content.
Qed.

(** ** Decoding *)

Lemma fields_of_flat (l : list (bytes * bytes)) (m : hash) :
  NoDup l.*1 → fields_of (map RStr (flat l)) m = list_to_map l ∪ m.
Proof.
  revert m. induction l as [|[n v] l IH]; intros m; simpl; [intros _; by rewrite (left_id_L ∅ (∪))|].
  intros [Hn Hl]%NoDup_cons. change (flat ((n, v) :: l)) with (n :: v :: flat l). simpl.
  rewrite IH by done. rewrite <-insert_union_r by (by apply not_elem_of_list_to_map_1).
  by rewrite insert_union_l.
Qed.

Lemma fields_of_hgetall (fvs : list (bytes * bytes)) (h : hash) :
  fvs ≡ₚ map_to_list h → fields_of (map RStr (flat fvs)) ∅ = h.
Proof.
  intros Hp. assert (NoDup fvs.*1) as Hnd by (rewrite Hp; apply NoDup_fst_map_to_list).
  rewrite fields_of_flat by done. rewrite (right_id_L ∅ (∪)).
  rewrite <-(list_to_map_to_list h). by apply list_to_map_proper.
Qed.

(** A script's account of an entry, decoded: the entry's record, with what
    is left of its time to live on the caller's clock. *)
Lemma decode_reply t key e raw n :
  wf_entry e → fields_of raw ∅ = e_hash e → 0 ≤ n →
  ∃ old old', stored key e = Some old ∧ same_identity old old' ∧
    recordFromReply t key [RInt n; RArr raw] = inl old' ∧
    deadline old' = Some (Add t (millis n)).
Proof.
  intros Hw Hf Hn. destruct (wf_dead _ Hw) as [dead Hd].
  destruct (wf_decode key e Hw) as (l & r & Hr). unfold stored, recordFromReply.
  rewrite Hd, Hf, Hr, (proj2 (Z.ltb_ge n 0)) by done.
  refine (ex_intro _ _ (ex_intro _ _ (conj eq_refl (conj _ (conj eq_refl _))))).
  - unfold entry_state, set_deadline. by case_decide; repeat split.
  - unfold entry_state, set_deadline, deadline. by case_decide.
Qed.

(** ** The scripts *)

Section scripts.
Context {D : Type} `{RedisLaws D}.

(** What a read of a live key answers. *)
Definition read_answer (now : Z) (e : entry) (r : reply) : Prop :=
  ∃ n raw dead, r = RArr [RInt n; RArr raw] ∧ fields_of raw ∅ = e_hash e ∧
    e_dead e = Some dead ∧ 0 ≤ n ∧ n ≤ dead - now ≤ n + 1.

Lemma read_reply_spec now key d d' r e :
  read_reply key now d = (d', r) → look now (entries d) key = Some e → wf_entry e →
  expires now (entries d) (entries d') ∧ read_answer now e r.
Proof.
  unfold read_reply. intros Hs Hl Hw. destruct (wf_dead _ Hw) as [dead Hd].
  destruct (PTTL now key d) as [d1 n] eqn:E1. apply PTTL_spec in E1 as [X1 Hn].
  destruct (HGETALL now key d1) as [d2 l] eqn:E2. apply HGETALL_spec in E2 as [X2 Hf].
  simplify_eq. split; [by etrans|].
  destruct (Hn _ _ Hl Hd). rewrite <-(look_expires _ _ _ _ X1) in Hl.
  destruct (Hf _ Hl) as (fvs & Hp & ->).
  exists n, (map RStr (flat fvs)), dead. split_and!; try done; [|lia..].
  by apply fields_of_hgetall.
Qed.

Definition reserved_entry (tok fp lease_exp : bytes) (dead : Z) : entry :=
  mkEntry (hset [(bs "state", stateReserved); (bs "token", tok); (bs "fp", fp);
                 (bs "lease_exp_ms", lease_exp)] ∅) (Some dead).

Lemma reserveScript_spec now key tok fp lease_exp px d d' r :
  reserveScript key stateReserved tok fp lease_exp (FormatInt px) now d = (d', r) →
  1 ≤ px ≤ 9223372036854 →
  match look now (entries d) key with
  | Some e => wf_entry e → expires now (entries d) (entries d') ∧ read_answer now e r
  | None =>
      r = RStr (bs "OK") ∧ ∃ dead, now + px ≤ dead ≤ now + px + 1 ∧
        writes now key (Some (reserved_entry tok fp lease_exp dead)) (entries d) (entries d')
  end.
Proof.
  unfold reserveScript. intros Hs Hpx.
  destruct (EXISTS now key d) as [d1 n] eqn:E1. apply EXISTS_spec in E1 as [X1 ->].
  destruct (look now (entries d) key) as [e|] eqn:Hl; simpl in Hs.
  - intros Hw. rewrite <-(look_expires _ _ _ _ X1) in Hl.
    destruct (read_reply_spec _ _ _ _ _ _ Hs Hl Hw) as [X2 ?]. split; [by etrans|done].
  - destruct (HSET now key _ d1) as [d2 n2] eqn:E2. apply HSET_spec in E2.
    rewrite (look_expires _ _ _ _ X1), Hl in E2.
    destruct (PEXPIRE now key (FormatInt px) d2) as [d3 n3] eqn:E3.
    eapply PEXPIRE_spec in E3 as (dead & Hdead & W); [|done|apply look_Some; split; [apply E2|done]].
    simplify_eq. split; [done|]. exists dead. split; [done|].
    eapply writes_expires_l; [done|]. by eapply writes_writes.
Qed.

(** What the compare-and-set finds. *)
Definition held_under (tok : bytes) (e : entry) : Prop :=
  e_hash e !! bs "token" = Some tok ∧ e_hash e !! bs "state" = Some stateReserved.

Lemma cas_script_spec (now : Z) (key tok : bytes) (act : script D) (d d' : D) (r : reply) :
  cas_script key tok act now d = (d', r) →
  (∃ d1 e, expires now (entries d) (entries d1) ∧ look now (entries d) key = Some e ∧
     held_under tok e ∧ act now d1 = (d', r)) ∨
  (expires now (entries d) (entries d') ∧
     (r = RStr (bs "NOT_FOUND") ∨ r = RStr (bs "TOKEN_MISMATCH")) ∧
     ∀ e, look now (entries d) key = Some e → ¬ held_under tok e).
Proof.
  unfold cas_script, held_under. intros Hs.
  destruct (HGET now key (bs "token") d) as [d1 v] eqn:E1. apply HGET_spec in E1 as [X1 ->].
  destruct (look now (entries d) key) as [e|] eqn:Hl; simpl in Hs.
  2: { simplify_eq. right. split; [done|]. split; [by left|]. done. }
  destruct (e_hash e !! bs "token") as [t|] eqn:Ht.
  2: { simplify_eq. right. split; [done|]. split; [by left|]. naive_solver congruence. }
  case_bool_decide as Htok; simpl in Hs.
  2: { simplify_eq. right. split; [done|]. split; [by right|]. naive_solver congruence. }
  destruct (HGET now key (bs "state") d1) as [d2 v2] eqn:E2. apply HGET_spec in E2 as [X2 ->].
  rewrite (look_expires _ _ _ _ X1), Hl in Hs. simpl in Hs.
  assert (expires now (entries d) (entries d2)) as X by by etrans.
  case_bool_decide as Hst; simpl in Hs; simplify_eq.
  - left. eauto 10.
  - right. split; [done|]. split; [by left|]. naive_solver congruence.
Qed.

Definition completed_entry (e : entry) (payload rec_exp : bytes) (dead : Z) : entry :=
  mkEntry (hset [(bs "state", stateCompleted); (bs "payload", payload); (bs "rec_exp_ms", rec_exp)]
             (e_hash e)) (Some dead).

Lemma complete_act_spec now key payload rec_exp px d d' r e :
  complete_act key payload rec_exp (FormatInt px) now d = (d', r) →
  1 ≤ px ≤ 9223372036854 → look now (entries d) key = Some e →
  r = RStr (bs "OK") ∧ ∃ dead, now + px ≤ dead ≤ now + px + 1 ∧
    writes now key (Some (completed_entry e payload rec_exp dead)) (entries d) (entries d').
Proof.
  unfold complete_act. intros Hs Hpx Hl.
  destruct (HSET now key _ d) as [d2 n2] eqn:E2. apply HSET_spec in E2. rewrite Hl in E2.
  destruct (PEXPIRE now key (FormatInt px) d2) as [d3 n3] eqn:E3.
  eapply PEXPIRE_spec in E3 as (dead & Hdead & W);
    [|done|apply look_Some; split; [apply E2|by apply look_Some in Hl as [_ ?]]].
  simplify_eq. split; [done|]. exists dead. split; [done|]. by eapply writes_writes.
Qed.

Lemma release_act_spec now key d d' r :
  release_act key now d = (d', r) →
  r = RStr (bs "OK") ∧ writes now key None (entries d) (entries d').
Proof.
  unfold release_act. intros Hs. destruct (DEL now key d) as [d1 n] eqn:E.
  apply DEL_spec in E. by simplify_eq.
Qed.
End scripts.

(** ** What the scripts do to the content *)

(** The identity of the record an entry stands for. *)
Lemma stored_fields key e :
  wf_entry e → ∃ r, stored key e = Some r ∧
    same_identity r (mkRecord key (default [] (e_hash e !! bs "fp")) (entry_state e)
      (default [] (e_hash e !! bs "token")) Time.zero Time.zero
      (default [] (e_hash e !! bs "payload"))).
Proof.
  intros Hw. destruct (wf_dead _ Hw) as [dead Hd]. destruct (wf_decode key e Hw) as (l & t & Hr).
  unfold stored. rewrite Hd, Hr. eexists. split; [reflexivity|].
  unfold set_deadline, entry_state. by case_decide; repeat split.
Qed.

(** Lookups in the hashes the scripts write. *)
Ltac hset_lookup :=
  cbn [hset foldl fst snd e_hash e_dead reserved_entry completed_entry] in *;
  repeat first [rewrite lookup_insert_eq in * | rewrite lookup_insert_ne in * by done].

Lemma ParseInt_UnixMilli t : is_Some (ParseInt (FormatInt (UnixMilli t))).
Proof. rewrite ParseInt_FormatInt by apply i64_range. eauto. Qed.

Lemma reserved_entry_wf tok fp t dead : wf_entry (reserved_entry tok fp (FormatInt (UnixMilli t)) dead).
Proof.
  split.
  - by eexists.
  - by eexists.
  - by left.
  - intros v. hset_lookup. intros [= <-]. apply ParseInt_UnixMilli.
  - intros v. hset_lookup. done.
Qed.

Lemma reserved_entry_stored rec t dead :
  reservation rec →
  ∃ r, stored (rec_Key rec) (reserved_entry (rec_Token rec) (rec_Fingerprint rec)
                               (FormatInt (UnixMilli t)) dead) = Some r ∧ same_identity rec r.
Proof.
  intros [Hs Hp].
  destruct (stored_fields (rec_Key rec) _
    (reserved_entry_wf (rec_Token rec) (rec_Fingerprint rec) t dead)) as (r & Hr & Hid).
  exists r. split; [done|]. rewrite Hid. repeat split; simpl; [|done]. by rewrite Hs.
Qed.

Lemma completed_entry_wf e payload t dead :
  wf_entry e → wf_entry (completed_entry e payload (FormatInt (UnixMilli t)) dead).
Proof.
  intros [_ Ht _ Hl _]. split.
  - by eexists.
  - hset_lookup. done.
  - right. hset_lookup. done.
  - intros v. hset_lookup. apply Hl.
  - intros v. hset_lookup. intros [= <-]. apply ParseInt_UnixMilli.
Qed.

Lemma completed_entry_stored key e r payload t dead x :
  wf_entry e → stored key e = Some r →
  ∃ r', stored key (completed_entry e payload (FormatInt (UnixMilli t)) dead) = Some r' ∧
    same_identity (completed r payload x) r'.
Proof.
  intros Hw Hr.
  destruct (stored_fields key _ Hw) as (r0 & Hr0 & (Hk & Hf & Hs & Ht & Hp)).
  rewrite Hr in Hr0. injection Hr0 as <-.
  destruct (stored_fields key _ (completed_entry_wf e payload t dead Hw)) as (r' & Hr' & Hid).
  exists r'. split; [done|]. rewrite Hid. unfold entry_state. hset_lookup.
  rewrite decide_False by done. by repeat split.
Qed.

Lemma held_under_stored key tok e r :
  wf_entry e → stored key e = Some r →
  held_under tok e ↔ rec_Token r = tok ∧ rec_State r = StateReserved.
Proof.
  intros Hw Hr. destruct (stored_fields key _ Hw) as (r0 & Hr0 & (_ & _ & Hs & Ht & _)).
  rewrite Hr in Hr0. injection Hr0 as <-. rewrite Hs, Ht. unfold held_under, entry_state.
  destruct (wf_token _ Hw) as [tok' ->]. simpl. case_decide; naive_solver.
Qed.

Lemma repeat_script_S {E : Type} n (f : E → E * reply) d :
  repeat_script (S n) f d = (f (repeat_script n f d)).1.
Proof. revert d. induction n as [|n IH]; intros d; [done|]. simpl in *. by rewrite IH. Qed.

Section effects.
Context {D : Type} `{RedisLaws D}.
Variable p : bytes.

Abbreviation wf d := (wf_keys p (entries d)).
Abbreviation shows d := (content_of p (entries d)).

Lemma wf_expires now m m' : wf_keys p m → expires now m m' → wf_keys p m'.
Proof. intros Hw Hx k e Hk. destruct (Hx (p ++ k)) as [E|[E _]]; rewrite E in Hk; [by eapply Hw|done]. Qed.

Lemma wf_writes now k o m m' :
  wf_keys p m → (∀ e, o = Some e → wf_entry e) → writes now k o m m' → wf_keys p m'.
Proof.
  intros Hw Ho [Hk Hx] k' e He. destruct (decide (p ++ k' = k)) as [<-|Hne].
  - apply Ho. congruence.
  - destruct (Hx _ Hne) as [E|[E _]]; rewrite E in He; [by eapply Hw|done].
Qed.

Lemma look_wf now k (d : D) e : wf d → look now (entries d) (p ++ k) = Some e → wf_entry e.
Proof. intros Hw [Hk _]%look_Some. by eapply Hw. Qed.

Definition reserve_script (rec : Record) (t : Time) (px : Z) : script D :=
  reserveScript (p ++ rec_Key rec) stateReserved (rec_Token rec) (rec_Fingerprint rec)
    (FormatInt (UnixMilli t)) (FormatInt px).

(** A deadline the server sets for [px] milliseconds from [now], and what a
    client that has the answer at [t0] makes of one. *)
Definition lasts (now px d : Z) : Prop := now + px ≤ d ≤ now + px + 1.
Definition left_at (now : Z) (t0 : Time) (d : Z) (t : Time) : Prop :=
  ∃ n, 0 ≤ n ∧ n ≤ d - now ≤ n + 1 ∧ t = Add t0 (millis n).

(** What go-redis makes of a reply. *)
Definition result (r : reply) : reply + error :=
  match r with RNil => inr (redis_Nil : error) | _ => inl r end.

Lemma read_tells (now : Z) (t0 : Time) key e old r :
  wf_entry e → stored key e = Some old → read_answer now e r →
  ∃ v ex, r = RArr v ∧ recordFromReply t0 key v = inl ex ∧ tells (left_at now t0) old ex.
Proof.
  intros Hw Ho (n & raw & dead & -> & Hraw & Hd & Hn & Hb).
  destruct (decode_reply t0 key e raw n Hw Hraw Hn) as (old0 & ex & Ho0 & Hid & Hdec & Hdl).
  simplify_eq. destruct (stored_deadline key e old Ho) as [Hdead _].
  exists [RInt n; RArr raw], ex. do 2 (split; [done|]). split; [done|].
  exists dead, (Add t0 (millis n)). split; [by rewrite Hdead|]. split; [done|]. by exists n.
Qed.

(** How Reserve reads the result of its script, and Get of its. *)
Definition reserve_answer (t0 : Time) (key : bytes) (res : reply + error)
    : option Record * option error :=
  match res with
  | inr err => (None, Some (Errorf_prefix_w (bs "redistore: reserve: ") err))
  | inl (RStr _) => (None, None)
  | inl (RArr v) =>
      match recordFromReply t0 key v with
      | inr err => (None, Some err)
      | inl existing => (Some existing, Some (ErrAlreadyExists : error))
      end
  | inl r => (None, Some (err_unexpected (bs "reserve") (go_type r)))
  end.

Definition get_answer (t0 : Time) (key : bytes) (res : reply + error)
    : option Record * option error :=
  match res with
  | inr err =>
      if Is err redis_Nil then (None, None)
      else (None, Some (Errorf_prefix_w (bs "redistore: get: ") err))
  | inl (RArr reply) =>
      match recordFromReply t0 key reply with
      | inl rec => (Some rec, None)
      | inr err => (None, Some err)
      end
  | inl r => (None, Some (err_unexpected (bs "get") (go_type r)))
  end.

Lemma reserve_script_does (now t0 : Z) (rec : Record) (t : Time) (px : Z) (d d' : D) (r : reply) :
  1 ≤ px ≤ 9223372036854 → wf d → reserve_script rec t px now d = (d', r) →
  wf d' ∧ (reservation rec →
    reserve_does (lasts now px) (left_at now t0) now rec (shows d) (shows d')
      (reserve_answer t0 (rec_Key rec) (result r))).
Proof.
  intros Hpx Hw Hs. apply reserveScript_spec in Hs; [|done]. unfold reserve_does.
  rewrite live_content. destruct (look now (entries d) (p ++ rec_Key rec)) as [e|] eqn:Hl; simpl.
  - pose proof (look_wf _ _ _ _ Hw Hl) as Hwe. destruct (Hs Hwe) as [Hx Ha].
    destruct (wf_stored (rec_Key rec) e Hwe) as [old Ho]. rewrite Ho.
    destruct (read_tells now t0 _ e old r Hwe Ho Ha) as (v & ex & -> & Hdec & Ht).
    split; [by eapply wf_expires|]. intros _. simpl. rewrite Hdec.
    split; [by exists ex|by apply content_expires].
  - destruct Hs as (-> & dead & Hd & Hwr).
    split; [eapply wf_writes, Hwr; [done|]; intros ? [= <-]; apply reserved_entry_wf|].
    intros Hres. split; [done|].
    destruct (reserved_entry_stored rec t dead Hres) as (r' & Hr' & Hid).
    destruct (stored_deadline _ _ _ Hr') as [Hdl _].
    apply content_writes in Hwr. simpl in Hwr. rewrite Hr' in Hwr. by exists r', dead.
Qed.

(** The compare-and-set finds what the specification does. *)
Lemma cas_script_exact (now : Z) (key tok op : bytes) (act : script D) (d d' : D) (r : reply) :
  wf d → cas_script (p ++ key) tok act now d = (d', r) →
  match cas now key tok (shows d) with
  | inl old => ∃ d1 e, expires now (entries d) (entries d1) ∧
      look now (entries d1) (p ++ key) = Some e ∧ wf_entry e ∧ stored key e = Some old ∧
      act now d1 = (d', r)
  | inr e => expires now (entries d) (entries d') ∧
      r ≠ RNil ∧ statusToErr r op = Some e
  end.
Proof.
  unfold cas_script, cas. intros Hw Hs. rewrite live_content.
  destruct (HGET now (p ++ key) (bs "token") d) as [d1 v] eqn:E1. apply HGET_spec in E1 as [X1 ->].
  destruct (look now (entries d) (p ++ key)) as [e|] eqn:Hl; simpl in *.
  2: { simplify_eq. done. }
  pose proof (look_wf _ _ _ _ Hw Hl) as Hwe. destruct (wf_stored key e Hwe) as [old Ho].
  pose proof (held_under_stored key tok e old Hwe Ho) as Hh. unfold held_under in Hh.
  destruct (stored_fields key e Hwe) as (old' & Ho' & (_ & _ & _ & Ht & _)).
  rewrite Ho in Ho' |- *. simplify_eq. destruct (wf_token _ Hwe) as [t Htok].
  rewrite Htok in Hs, Hh, Ht. simpl in Ht. rewrite Ht in *.
  case_bool_decide as Heq; simpl in Hs; [|rewrite decide_False by done].
  2: { simplify_eq. done. }
  rewrite decide_True by done.
  destruct (HGET now (p ++ key) (bs "state") d1) as [d2 v2] eqn:E2. apply HGET_spec in E2 as [X2 ->].
  rewrite (look_expires _ _ _ _ X1), Hl in Hs. simpl in Hs.
  assert (expires now (entries d) (entries d2)) as X by by etrans.
  subst. case_bool_decide as Hst; simpl in Hs.
  - rewrite decide_True by (by apply (proj1 Hh (conj eq_refl Hst))). exists d2, e.
    by rewrite (look_expires _ _ _ _ X).
  - rewrite decide_False by (intros Hr; by apply Hst, (proj2 Hh (conj eq_refl Hr))).
    simplify_eq. done.
Qed.

(** How Complete and Release read the result of their scripts. *)
Definition cas_result (msg op : bytes) (res : reply + error) : option error :=
  match res with
  | inr err => Some (Errorf_prefix_w msg err)
  | inl res => statusToErr res op
  end.

Lemma complete_script_does (now : Z) (key tok payload msg : bytes) (t : Time) (px : Z) (d d' : D)
    (r : reply) :
  1 ≤ px ≤ 9223372036854 → wf d →
  completeScript (p ++ key) tok payload (FormatInt (UnixMilli t)) (FormatInt px) now d = (d', r) →
  wf d' ∧ complete_does (lasts now px) now key tok payload (shows d) (shows d')
            (cas_result msg (bs "complete") (result r)).
Proof.
  intros Hpx Hw Hs. unfold complete_does.
  apply (cas_script_exact _ _ _ (bs "complete")) in Hs; [|done].
  destruct (cas _ _ _ _) as [old|e].
  - destruct Hs as (d1 & e & Hx & Hl & Hwe & Ho & Ha).
    apply (complete_act_spec _ _ _ _ _ _ _ _ e) in Ha as (-> & dead & Hd & Hwr); [|done..].
    destruct (completed_entry_stored key e old payload t dead Time.zero Hwe Ho) as (r' & Hr' & Hid).
    destruct (stored_deadline _ _ _ Hr') as [Hdl _].
    eapply writes_expires_l in Hwr; [|exact Hx]. split.
    { eapply wf_writes, Hwr; [done|]. intros ? [= <-]. by apply completed_entry_wf. }
    split; [done|]. apply content_writes in Hwr. simpl in Hwr. rewrite Hr' in Hwr.
    by exists r', dead.
  - destruct Hs as (Hx & Hr & He). split; [by eapply wf_expires|].
    split; [by destruct r|by apply content_expires].
Qed.

Lemma release_script_does (now : Z) (key tok msg : bytes) (d d' : D) (r : reply) :
  wf d → releaseScript (p ++ key) tok now d = (d', r) →
  wf d' ∧ release_does now key tok (shows d) (shows d') (cas_result msg (bs "release") (result r)).
Proof.
  intros Hw Hs. unfold release_does.
  apply (cas_script_exact _ _ _ (bs "release")) in Hs; [|done].
  destruct (cas _ _ _ _) as [old|e].
  - destruct Hs as (d1 & e & Hx & _ & _ & _ & Ha).
    apply release_act_spec in Ha as [-> Hwr]. eapply writes_expires_l in Hwr; [|exact Hx].
    split; [by eapply wf_writes, Hwr|]. split; [done|]. by apply content_writes in Hwr.
  - destruct Hs as (Hx & Hr & He). split; [by eapply wf_expires|].
    split; [by destruct r|by apply content_expires].
Qed.

Lemma get_script_does (now t0 : Z) (key : bytes) (d d' : D) (r : reply) :
  wf d → getScript (p ++ key) now d = (d', r) →
  wf d' ∧ get_does (left_at now t0) now key (shows d) (shows d') (get_answer t0 key (result r)).
Proof.
  unfold getScript, get_does. intros Hw Hs. rewrite live_content.
  destruct (EXISTS now (p ++ key) d) as [d1 n] eqn:E1. apply EXISTS_spec in E1 as [X1 ->].
  destruct (look now (entries d) (p ++ key)) as [e|] eqn:Hl; simpl in *.
  - pose proof (look_wf _ _ _ _ Hw Hl) as Hwe. destruct (wf_stored key e Hwe) as [old Ho].
    rewrite <-(look_expires _ _ _ _ X1) in Hl.
    destruct (read_reply_spec _ _ _ _ _ _ Hs Hl Hwe) as [X2 Ha].
    assert (expires now (entries d) (entries d')) as X by by etrans.
    split; [by eapply wf_expires|]. split; [by apply content_expires|]. rewrite Ho.
    destruct (read_tells now t0 _ e old r Hwe Ho Ha) as (v & ex & -> & Hdec & Ht).
    exists ex. simpl. by rewrite Hdec.
  - simplify_eq. split; [by eapply wf_expires|]. split; [by apply content_expires|done].
Qed.

(** ** Executions over the network *)

(** A request over the trip [t]: the operation [E] is executed as often as
    the request reached the server, the last execution answers, and a failed
    trip answers [fail]. *)
Definition executed {A} (t : trip) (E : content → content → A → Prop) (fail : bytes → A)
    (m m' : content) (a : A) : Prop :=
  let E_any m m' := ∃ a, E m m' a in
  match tr_fault t with
  | None => ∃ m1, nsteps E_any (tr_repeats t) m m1 ∧ E m1 m' a
  | Some (ran, msg) =>
      nsteps E_any (if ran : bool then S (tr_repeats t) else tr_repeats t) m m' ∧ a = fail msg
  end.

Lemma executed_once {A} (t : trip) (E : content → content → A → Prop) (fail : bytes → A) m m' a :
  tr_repeats t = O → tr_fault t = None → executed t E fail m m' a → E m m' a.
Proof. unfold executed. intros -> -> (m1 & Hs & Ha). by inversion Hs; subst. Qed.

Lemma Run_executed {A} (f : script D) (E : content → content → A → Prop) (g : reply + error → A)
    (i : Instant) (c c' : client D) res :
  (∀ d d' r, wf d → f (server_ms i) d = (d', r) → wf d' ∧ E (shows d) (shows d') (g (result r))) →
  wf (c_db c) → Run f i c = (c', res) →
  wf (c_db c') ∧
  executed (next_trip c) E (λ msg, g (inr (errText msg))) (shows (c_db c)) (shows (c_db c')) (g res).
Proof.
  intros Hf Hw. unfold Run, executed. set (F := f (server_ms i)) in *.
  assert (∀ n d, wf d → wf (repeat_script n F d) ∧
    nsteps (λ m m', ∃ a, E m m' a) n (shows d) (shows (repeat_script n F d))) as Hn.
  { intros n. induction n as [|n IH]; intros d Hd; simpl; [by split; [|constructor]|].
    destruct (F d) as [d1 r] eqn:E1. destruct (Hf _ _ _ Hd E1) as [Hd1 HE].
    destruct (IH d1 Hd1) as [? ?]. split; [done|]. econstructor; [by eexists|done]. }
  destruct (Hn (tr_repeats (next_trip c)) (c_db c) Hw) as [Hw1 Hs1].
  pose proof (Hn (S (tr_repeats (next_trip c))) (c_db c) Hw) as [Hw2 Hs2].
  rewrite repeat_script_S in Hw2, Hs2.
  destruct (tr_fault (next_trip c)) as [[[|] msg]|].
  - by intros [= <- <-].
  - by intros [= <- <-].
  - destruct (F _) as [d r] eqn:E1. destruct (Hf _ _ _ Hw1 E1) as [Hd HE].
    intros [= <- <-]. split; [done|]. eexists. split; [exact Hs1|]. by destruct r.
Qed.
End effects.

(** ** The operations *)

Section contract.
Context {D : Type} `{RedisLaws D}.

Definition database (s : redistore.Store D) : D := c_db (s_client s).

(** The keys under the store's prefix were written by the store. *)
Definition wf (s : redistore.Store D) : Prop := wf_keys (s_prefix s) (entries (database s)).

Definition contents (s : redistore.Store D) : content :=
  content_of (s_prefix s) (entries (database s)).

(** The milliseconds Complete asks for. *)
Definition pxFor (ttl : Duration) : Z :=
  let ms := Milliseconds (i64 ttl) in if ms <? 1 then 1 else ms.

Lemma pxUntil_bounds now t : 1 ≤ pxUntil now t ≤ 9223372036854.
Proof.
  unfold pxUntil. pose proof (Milliseconds_range _ (Sub_range t now)). unfold Until.
  case_match; lia.
Qed.

Lemma px_bounds ttl : 1 ≤ pxFor ttl ≤ 9223372036854.
Proof. unfold pxFor. pose proof (Milliseconds_range _ (i64_range ttl)). case_match; lia. Qed.

Lemma errText_infra msg op : is_infra (Errorf_prefix_w op (errText msg)) = true.
Proof. done. Qed.

(** The trip of the next request, and when its answer is there. *)
Abbreviation trip_of s := (next_trip (s_client s)).

Lemma Reserve_executed (i : Instant) (r : Record) (s s' : redistore.Store D) a :
  wf s → redistore.Reserve i r s = (s', a) →
  wf s' ∧ (reservation r →
    executed (trip_of s)
      (reserve_does (lasts (server_ms i) (pxUntil (sent_at i (s_client s)) (rec_LeaseExpiresAt r)))
         (left_at (server_ms i) (answered_at i (s_client s))) (server_ms i) r)
      (λ msg, (None, Some (Errorf_prefix_w (bs "redistore: reserve: ") (errText msg))))
      (contents s) (contents s') a).
Proof.
  unfold wf, contents, database, redistore.Reserve. intros Hw.
  destruct (Run _ i (s_client s)) as [c res] eqn:E. intros [= <- <-]. simpl.
  set (g := reserve_answer (answered_at i (s_client s)) (rec_Key r)).
  pose proof (λ d d' rep, reserve_script_does (s_prefix s) (server_ms i)
    (answered_at i (s_client s)) r (rec_LeaseExpiresAt r)
    (pxUntil (sent_at i (s_client s)) (rec_LeaseExpiresAt r)) d d' rep (pxUntil_bounds _ _)) as Hdoes.
  split.
  - eapply (Run_executed (s_prefix s) _ (λ _ _ _, True) g) in E as [Hw' _]; [done| |done].
    intros d d' rep Hd Hs. by destruct (Hdoes _ _ _ Hd Hs).
  - intros Hr. eapply (Run_executed (s_prefix s) _ _ g) in E as [_ He]; [exact He| |done].
    intros d d' rep Hd Hs. destruct (Hdoes _ _ _ Hd Hs) as [? HE]. split; [done|by apply HE].
Qed.

Lemma Complete_executed (i : Instant) (key tok payload : bytes) (ttl : Duration)
    (s s' : redistore.Store D) err :
  wf s → redistore.Complete i key tok payload ttl s = (s', err) →
  wf s' ∧ executed (trip_of s)
    (complete_does (lasts (server_ms i) (pxFor ttl)) (server_ms i) key tok payload)
    (λ msg, Some (Errorf_prefix_w (bs "redistore: complete: ") (errText msg)))
    (contents s) (contents s') err.
Proof.
  unfold wf, contents, database, redistore.Complete. intros Hw.
  destruct (Run _ i (s_client s)) as [c res] eqn:E. intros [= <- <-]. simpl.
  eapply (Run_executed (s_prefix s) _ _ (cas_result (bs "redistore: complete: ") (bs "complete"))) in E;
    [exact E| |done].
  intros d d' rep Hd. apply complete_script_does; [apply px_bounds|done].
Qed.

Lemma Release_executed (i : Instant) (key tok : bytes) (s s' : redistore.Store D) err :
  wf s → redistore.Release i key tok s = (s', err) →
  wf s' ∧ executed (trip_of s) (release_does (server_ms i) key tok)
    (λ msg, Some (Errorf_prefix_w (bs "redistore: release: ") (errText msg)))
    (contents s) (contents s') err.
Proof.
  unfold wf, contents, database, redistore.Release. intros Hw.
  destruct (Run _ i (s_client s)) as [c res] eqn:E. intros [= <- <-]. simpl.
  eapply (Run_executed (s_prefix s) _ _ (cas_result (bs "redistore: release: ") (bs "release"))) in E;
    [exact E| |done].
  intros d d' rep Hd. by apply release_script_does.
Qed.

Lemma Get_executed (i : Instant) (key : bytes) (s s' : redistore.Store D) a :
  wf s → redistore.Get i key s = (s', a) →
  wf s' ∧ executed (trip_of s)
    (get_does (left_at (server_ms i) (answered_at i (s_client s))) (server_ms i) key)
    (λ msg, (None, Some (Errorf_prefix_w (bs "redistore: get: ") (errText msg))))
    (contents s) (contents s') a.
Proof.
  unfold wf, contents, database, redistore.Get. intros Hw.
  destruct (Run _ i (s_client s)) as [c res] eqn:E. intros [= <- <-]. simpl.
  eapply (Run_executed (s_prefix s) _ _ (get_answer (answered_at i (s_client s)) key)) in E;
    [exact E| |done].
  intros d d' rep Hd. by apply get_script_does.
Qed.

(** ** The contract *)

(** Of executions that each have the effect [R] or none, so has the whole. *)
Lemma executed_maybe {A} (t : trip) (E : content → content → A → Prop) (fail : bytes → A) (now : Time)
    (R : content → content → Prop) m m' a :
  Proper (live_equiv now ==> live_equiv now ==> iff) R →
  (∀ m1 m2 m3, R m1 m2 → R m2 m3 → R m1 m3) → (∀ m m' a, E m m' a → maybe now R m m') →
  executed t E fail m m' a →
  (∃ m1, maybe now R m m1 ∧ E m1 m' a) ∨ (maybe now R m m' ∧ ∃ msg, a = fail msg).
Proof.
  intros HR Ht HE Hx.
  assert (∀ n m m', nsteps (λ m m', ∃ a, E m m' a) n m m' → maybe now R m m') as Hn.
  { induction 1 as [|n m1 m2 m3 [a1 H1] _ IH]; [by left|].
    eapply maybe_trans; [done|apply Ht|by eapply HE|done]. }
  unfold executed in Hx. destruct (tr_fault t) as [[ran msg]|].
  - right. destruct Hx as [Hx ->]. split; [by eapply Hn|by exists msg].
  - left. destruct Hx as (m1 & Hx & Ha). exists m1. split; [by eapply Hn|done].
Qed.

Lemma reserve_does_maybe until told (now : Time) r m m' a :
  reserve_does until told now r m m' a → maybe now (claims now r) m m'.
Proof.
  unfold reserve_does. destruct (live _ _ _) as [old|] eqn:Hl; [by intros [_ ?]; left|].
  intros [_ (r' & d & ? & ? & ? & ?)]. right. by exists r'.
Qed.

Lemma cas_completes until (now : Time) (key tok payload : bytes) m m' old :
  cas now key tok m = inl old → completes_until until now key payload old m m' →
  completes now key tok payload m m'.
Proof. intros (? & ? & ?)%cas_inl (r' & d & ? & ? & ? & ?). by exists old, Time.zero, r'. Qed.

Lemma Reserve_contract (i : Instant) (r : Record) (s s' : redistore.Store D) ex err :
  wf s → redistore.Reserve i r s = (s', (ex, err)) →
  wf s' ∧ (reservation r → reserve_post (server_ms i) r (contents s) (contents s') ex err).
Proof.
  intros Hw E. apply Reserve_executed in E as [Hw' E]; [|done]. split; [done|]. intros Hr.
  specialize (E Hr). eapply (executed_maybe _ _ _ (server_ms i) (claims (server_ms i) r)) in E;
    [|apply _|by intros *; apply claims_claims|intros *; apply reserve_does_maybe].
  destruct E as [(m1 & Hm & Ha)|[Hm (msg & [= -> ->])]]; [|by right].
  unfold reserve_does in Ha. destruct (live _ m1 _) as [old|] eqn:Hl.
  - destruct Ha as [(ex' & [= -> ->] & Hid & _) Hsame]. left. split; [done|]. exists ex'.
    split; [done|]. destruct Hm as [Hm|Hm].
    + left. split; [by rewrite Hsame|]. exists old. by rewrite <-(Hm (server_ms i)).
    + right. split; [by rewrite Hsame|]. destruct Hm as (r' & Hrr & _ & Hm).
      rewrite (Hm (server_ms i)), live_insert_eq in Hl by done. unfold live_rec in Hl.
      case_match; simplify_eq. by etrans.
  - destruct Ha as [[= -> ->] (r' & d & ? & _ & _ & Hm')]. split; [done|].
    assert (claims (server_ms i) r m1 (contents s')) as Hc by by exists r'.
    destruct Hm as [Hm|Hm]; [by rewrite <-Hm|by eapply claims_claims].
Qed.

(** Complete and Release: a compare-and-set that happens at most once. *)
Lemma cas_contract (t : trip) (now : Time) (key tok : bytes)
    (E : content → content → option error → Prop) (fail : bytes → option error)
    (R : content → content → Prop) m m' err :
  Proper (live_equiv now ==> live_equiv now ==> iff) R → (∀ m1 m2 m3, R m1 m2 → ¬ R m2 m3) →
  (∀ m m' err, E m m' err → match cas now key tok m with
     | inl _ => err = None ∧ R m m'
     | inr e => err = Some e ∧ m' ≡{now}≡ m
     end) →
  (∀ msg, ∃ e, fail msg = Some e ∧ is_infra e = true) →
  executed t E fail m m' err →
  match err with
  | None => R m m'
  | Some e =>
      (lease_lost_error e = true ∧
         ((m' ≡{now}≡ m ∧ ∀ r, cas now key tok m ≠ inl r) ∨ R m m'))
      ∨ (is_infra e = true ∧ (m' ≡{now}≡ m ∨ R m m'))
  end.
Proof.
  intros HR Honce HE Hfail Hx. eapply (executed_maybe _ _ _ now R) in Hx; [|done|..].
  - destruct Hx as [(m1 & Hm & Ha)|[Hm (msg & ->)]].
    + specialize (HE _ _ _ Ha). destruct (cas now key tok m1) as [r|e] eqn:Hc.
      * destruct HE as [-> Hr]. destruct Hm as [Hm|Hm]; [by rewrite <-Hm|by destruct (Honce _ _ _ Hm Hr)].
      * destruct HE as [-> Hs]. left. split; [by eapply cas_inr_lost|]. destruct Hm as [Hm|Hm].
        -- left. split; [by rewrite Hs|]. intros r. by rewrite <-Hm, Hc.
        -- right. by rewrite Hs.
    + destruct (Hfail msg) as (e & -> & He). by right.
  - intros m1 m2 m3 H1 H2. by destruct (Honce _ _ _ H1 H2).
  - intros m1 m2 a Ha. specialize (HE _ _ _ Ha). destruct (cas _ _ _ _).
    + right. by destruct HE.
    + left. by destruct HE.
Qed.

Lemma Complete_contract (i : Instant) (key tok payload : bytes) (ttl : Duration)
    (s s' : redistore.Store D) err :
  wf s → redistore.Complete i key tok payload ttl s = (s', err) →
  wf s' ∧ complete_post (server_ms i) key tok payload (contents s) (contents s') err.
Proof.
  intros Hw E. apply Complete_executed in E as [Hw' E]; [|done]. split; [done|].
  eapply (cas_contract _ _ key tok _ _ (completes (server_ms i) key tok payload)) in E;
    [exact E|apply _|intros *; apply completes_once| |by intros; eexists].
  intros m m' e. unfold complete_does. destruct (cas _ _ _ _) as [old|] eqn:Hc; [|done].
  intros [-> ?]. split; [done|]. by eapply cas_completes.
Qed.

Lemma Release_contract (i : Instant) (key tok : bytes) (s s' : redistore.Store D) err :
  wf s → redistore.Release i key tok s = (s', err) →
  wf s' ∧ release_post (server_ms i) key tok (contents s) (contents s') err.
Proof.
  intros Hw E. apply Release_executed in E as [Hw' E]; [|done]. split; [done|].
  eapply (cas_contract _ _ key tok _ _ (releases (server_ms i) key tok)) in E;
    [exact E|apply _|intros *; apply releases_once| |by intros; eexists].
  intros m m' e. unfold release_does. destruct (cas _ _ _ _) as [old|] eqn:Hc; [|done].
  intros [-> ?]. split; [done|]. apply cas_inl in Hc as (? & ? & ?). by exists old.
Qed.

Lemma Get_contract (i : Instant) (key : bytes) (s s' : redistore.Store D) ex err :
  wf s → redistore.Get i key s = (s', (ex, err)) →
  wf s' ∧ get_post (server_ms i) key (contents s) (contents s') ex err.
Proof.
  intros Hw E. apply Get_executed in E as [Hw' E]; [|done]. split; [done|]. unfold get_post.
  eapply (executed_maybe _ _ _ (server_ms i) (λ _ _, False)) in E;
    [|intros ? ? ? ? ? ?; done|done|by intros m m' a [? _]; left].
  destruct E as [(m1 & [Hm|[]] & [Hs Ha])|[[Hm|[]] (msg & [= -> ->])]]; [|done].
  split; [by rewrite Hs|]. rewrite (Hm (server_ms i)) in Ha by done.
  destruct (live _ _ _) as [old|]; [|by injection Ha as -> ->].
  destruct Ha as (ex' & [= -> ->] & Hid & _). by exists old.
Qed.
End contract.
