(* ===== verification/RedisClaims.v ===== *)
(** * The guarantees of the Redis store

    Stores whose keys are well formed, as a store of the contract, so that
    every theorem about the contract holds of Redis; and what is particular
    to it: how far the deadlines it reports can be from the server's, and
    what a repeated request meets. *)
From S2P Require Import Prelude GoLib Strconv Errors Record Store Effects Core CoreSpec.
From S2P Require Import ContractClaims Redis Redistore RedistoreSpec.
Import Time.
Import redistore(mkStore, s_prefix, s_client, pxUntil, redisKey, reserveScript, getScript,
  read_reply, stateReserved).
Local Open Scope Z_scope.

(** ** Redis as a contract store *)

Section owned.
Context {D : Type} `{RedisLaws D}.

(** A store that owns its prefix. *)
Record owned := mkOwned { o_store : redistore.Store D; o_wf : wf o_store }.

Lemma Reserve_wf i r s : wf s → wf (redistore.Reserve i r s).1.
Proof.
  intros Hw. destruct (redistore.Reserve i r s) as [s' [ex err]] eqn:E.
  by destruct (Reserve_contract _ _ _ _ _ _ Hw E).
Qed.

Lemma Complete_wf i key tok payload ttl s :
  wf s → wf (redistore.Complete i key tok payload ttl s).1.
Proof.
  intros Hw. destruct (redistore.Complete i key tok payload ttl s) as [s' err] eqn:E.
  by destruct (Complete_contract _ _ _ _ _ _ _ _ Hw E).
Qed.

Lemma Release_wf i key tok s : wf s → wf (redistore.Release i key tok s).1.
Proof.
  intros Hw. destruct (redistore.Release i key tok s) as [s' err] eqn:E.
  by destruct (Release_contract _ _ _ _ _ _ Hw E).
Qed.

Lemma Get_wf i key s : wf s → wf (redistore.Get i key s).1.
Proof.
  intros Hw. destruct (redistore.Get i key s) as [s' [ex err]] eqn:E.
  by destruct (Get_contract _ _ _ _ _ _ Hw E).
Qed.

#[global] Instance owned_Store : Store owned := {
  Reserve i r s :=
    (mkOwned (redistore.Reserve i r (o_store s)).1 (Reserve_wf i r _ (o_wf s)),
     (redistore.Reserve i r (o_store s)).2);
  Complete i key tok payload ttl s :=
    (mkOwned (redistore.Complete i key tok payload ttl (o_store s)).1
       (Complete_wf i key tok payload ttl _ (o_wf s)),
     (redistore.Complete i key tok payload ttl (o_store s)).2);
  Release i key tok s :=
    (mkOwned (redistore.Release i key tok (o_store s)).1 (Release_wf i key tok _ (o_wf s)),
     (redistore.Release i key tok (o_store s)).2);
  Get i key s :=
    (mkOwned (redistore.Get i key (o_store s)).1 (Get_wf i key _ (o_wf s)),
     (redistore.Get i key (o_store s)).2);
}.

#[global, refine] Instance owned_contract : StoreContract owned := {
  authority := server_ms;
  abs s := contents (o_store s);
}.
Proof.
  - intros i i' _ Hs. unfold server_ms. by apply Z.div_le_mono.
  - intros i r s s' ex err Hr [= <- E]. simpl.
    destruct (redistore.Reserve i r (o_store s)) as [s1 x] eqn:E1. simpl in *. subst x.
    by apply (Reserve_contract i r (o_store s) s1 ex err (o_wf s) E1).
  - intros i key tok payload ttl s s' err [= <- E]. simpl.
    destruct (redistore.Complete i key tok payload ttl (o_store s)) as [s1 x] eqn:E1.
    simpl in *. subst x.
    by apply (Complete_contract i key tok payload ttl (o_store s) s1 err (o_wf s) E1).
  - intros i key tok s s' err [= <- E]. simpl.
    destruct (redistore.Release i key tok (o_store s)) as [s1 x] eqn:E1. simpl in *. subst x.
    by apply (Release_contract i key tok (o_store s) s1 err (o_wf s) E1).
  - intros i key s s' ex err [= <- E]. simpl.
    destruct (redistore.Get i key (o_store s)) as [s1 x] eqn:E1. simpl in *. subst x.
    by apply (Get_contract i key (o_store s) s1 ex err (o_wf s) E1).
Defined.
End owned.
Arguments owned D {_ _}.
Arguments mkOwned {D _ _} _ _.
Arguments o_store {D _ _} _.

(** C15. redistore executes the operations store.go specifies.  On every
    keyspace that satisfies the documented laws of the commands: each time
    a request reaches the server, its script is exactly the promised
    operation at the server's millisecond clock - Reserve claims the key
    when no live record is there and reports the live one when there is;
    Complete and Release take effect under the token of the live
    reservation, and otherwise change nothing and say which of
    ErrTokenMismatch and ErrNotFound it is; Get reports the live record;
    deadlines last the whole milliseconds asked for, and one more at most.
    A request that is answered the first time is one execution; one that
    was repeated is as many, of which the last answers; one whose last
    attempt fails is reported as that failure, and was executed as often as
    it arrived. *)
Theorem redistore_executes {D} `{RedisLaws D} (i : Instant) (s : redistore.Store D) :
  wf s →
  let now := server_ms i in
  let t := next_trip (s_client s) in
  let told := left_at now (answered_at i (s_client s)) in
  (∀ r s' a, redistore.Reserve i r s = (s', a) → wf s' ∧ (reservation r →
     let px := pxUntil (sent_at i (s_client s)) (rec_LeaseExpiresAt r) in
     executed t (reserve_does (lasts now px) told now r)
       (λ msg, (None, Some (Errorf_prefix_w (bs "redistore: reserve: ") (errText msg))))
       (contents s) (contents s') a)) ∧
  (∀ key tok payload ttl s' err, redistore.Complete i key tok payload ttl s = (s', err) → wf s' ∧
     executed t (complete_does (lasts now (pxFor ttl)) now key tok payload)
       (λ msg, Some (Errorf_prefix_w (bs "redistore: complete: ") (errText msg)))
       (contents s) (contents s') err) ∧
  (∀ key tok s' err, redistore.Release i key tok s = (s', err) → wf s' ∧
     executed t (release_does now key tok)
       (λ msg, Some (Errorf_prefix_w (bs "redistore: release: ") (errText msg)))
       (contents s) (contents s') err) ∧
  (∀ key s' a, redistore.Get i key s = (s', a) → wf s' ∧
     executed t (get_does told now key)
       (λ msg, (None, Some (Errorf_prefix_w (bs "redistore: get: ") (errText msg))))
       (contents s) (contents s') a).
Proof.
  intros Hw. split_and!; intros *.
  - by apply Reserve_executed.
  - by apply Complete_executed.
  - by apply Release_executed.
  - by apply Get_executed.
Qed.

(** ** Deadlines and repeated requests *)

Section deadlines.
Context {D : Type} `{RedisLaws D}.

(** The entry of a key, as the server sees it. *)
Definition server_entry (i : Instant) (s : redistore.Store D) (key : bytes) : option entry :=
  look (server_ms i) (entries (database s)) (s_prefix s ++ key).

(** An answer that came back is that of the last execution. *)
Lemma Run_answered (f : script D) (i : Instant) (c c' : client D) r :
  Run f i c = (c', inl r) →
  f (server_ms i) (repeat_script (tr_repeats (next_trip c)) (f (server_ms i)) (c_db c)) =
    (c_db c', r).
Proof.
  unfold Run. destruct (tr_fault _) as [[[|] msg]|]; [done..|].
  destruct (f _ _) as [d r']. by destruct r'; intros [= <- <-].
Qed.

Lemma repeat_reserve_wf p (i : Instant) rec t px n (d : D) :
  1 ≤ px ≤ 9223372036854 → wf_keys p (entries d) →
  wf_keys p (entries (repeat_script n (reserve_script p rec t px (server_ms i)) d)).
Proof.
  intros Hpx Hw.
  apply (repeat_script_effect _ (λ d, wf_keys p (entries d)) (λ _ _, True)); [done..| |done].
  intros d1 Hd1. destruct (reserve_script _ _ _ _ _ d1) as [d2 r] eqn:E.
  by destruct (reserve_script_does p _ 0 _ _ _ _ _ _ Hpx Hd1 E).
Qed.

Lemma reserve_claimed_entry (i : Instant) (r : Record) (s s' : redistore.Store D) ex :
  wf s → redistore.Reserve i r s = (s', (ex, None)) →
  ∃ e dead, server_entry i s' (rec_Key r) = Some e ∧ e_dead e = Some dead ∧
    let px := pxUntil (sent_at i (s_client s)) (rec_LeaseExpiresAt r) in
    server_ms i + px ≤ dead ≤ server_ms i + px + 1.
Proof.
  unfold redistore.Reserve, server_entry, database. intros Hw.
  set (px := pxUntil (sent_at i (s_client s)) (rec_LeaseExpiresAt r)).
  assert (1 ≤ px ≤ 9223372036854) as Hpx by apply pxUntil_bounds.
  destruct (Run _ i (s_client s)) as [c res] eqn:E. intros [= <- Hans].
  destruct res as [rep|err]; [|done]. apply Run_answered in E. simpl.
  change (reserveScript _ _ _ _ _ _) with
    (reserve_script (s_prefix s) r (rec_LeaseExpiresAt r) px (D:=D)) in E.
  pose proof (repeat_reserve_wf (s_prefix s) i r (rec_LeaseExpiresAt r) px
    (tr_repeats (next_trip (s_client s))) _ Hpx Hw) as Hw1.
  set (d1 := repeat_script _ _ _) in *. clearbody d1.
  apply reserveScript_spec in E; [|done]. destruct (look _ (entries d1) _) as [e|] eqn:Hl.
  - destruct (E (look_wf _ _ _ _ _ Hw1 Hl)) as [_ (n & raw & dead & -> & _)].
    by case_match.
  - destruct E as (_ & dead & Hdead & [Hk _]).
    eexists _, dead. split; [apply look_Some; split; [exact Hk|]|split; [done|lia]].
    unfold gone. simpl. apply Z.leb_gt. lia.
Qed.

Lemma get_reported (i : Instant) (key : bytes) (s s' : redistore.Store D) rec :
  wf s → redistore.Get i key s = (s', (Some rec, None)) →
  ∃ e dead n, server_entry i s key = Some e ∧ e_dead e = Some dead ∧
    0 ≤ n ∧ n ≤ dead - server_ms i ≤ n + 1 ∧
    deadline rec = Some (Add (answered_at i (s_client s)) (millis n)).
Proof.
  unfold redistore.Get, server_entry, database, wf, database. intros Hw.
  destruct (Run _ i (s_client s)) as [c res] eqn:E. intros [= <- Hans].
  destruct res as [rep|err]; [|by destruct (Is err redis_Nil)]. apply Run_answered in E.
  set (f := getScript (redisKey s key)) in *.
  destruct (repeat_script_effect (f (server_ms i)) (λ d, wf_keys (s_prefix s) (entries d))
    (λ d d', expires (server_ms i) (entries d) (entries d'))
    (tr_repeats (next_trip (s_client s))) (c_db (s_client s))) as [Hw1 Hx];
    [done|intros *; apply transitivity| |done|].
  { intros d Hd. subst f. unfold getScript, redisKey. simpl.
    destruct (EXISTS _ _ d) as [d1 n] eqn:E1. apply EXISTS_spec in E1 as [X1 ->].
    destruct (look _ _ _) as [e|] eqn:Hl; simpl; [|split; [by eapply wf_expires|done]].
    pose proof Hl as Hl1. rewrite <-(look_expires _ _ _ _ X1) in Hl1.
    destruct (read_reply _ _ d1) as [d2 r] eqn:E2.
    destruct (read_reply_spec _ _ _ _ _ _ E2 Hl1 (look_wf _ _ _ _ _ Hd Hl)) as [X2 _].
    assert (expires (server_ms i) (entries d) (entries d2)) as X by by etrans.
    split; [by eapply wf_expires|done]. }
  set (d1 := repeat_script _ _ _) in *. clearbody d1. subst f. unfold getScript, redisKey in E.
  rewrite <-(look_expires _ _ _ _ Hx).
  destruct (EXISTS _ _ d1) as [d2 m] eqn:E1. apply EXISTS_spec in E1 as [X1 ->].
  destruct (look _ _ _) as [e|] eqn:Hl; simpl in E; [|by simplify_eq].
  pose proof (look_wf _ _ _ _ _ Hw1 Hl) as Hwe. rewrite <-(look_expires _ _ _ _ X1) in Hl.
  destruct (read_reply_spec _ _ _ _ _ _ E Hl Hwe) as [_ (n & raw & dead & -> & Hraw & Hdead & Hn & Hr)].
  destruct (decode_reply (answered_at i (s_client s)) key e raw n Hwe Hraw Hn)
    as (old & old' & _ & _ & Hdec & Hdl). rewrite Hdec in Hans. injection Hans as <-.
  exists e, dead, n. split_and!; try done; lia.
Qed.

(** The first execution of a repeated Reserve leaves a live key, which the
    repetitions keep. *)
Lemma reserve_script_live p (i : Instant) rec t px (d : D) :
  1 ≤ px ≤ 9223372036854 → wf_keys p (entries d) →
  is_Some (look (server_ms i)
             (entries (reserve_script p rec t px (server_ms i) d).1) (p ++ rec_Key rec)).
Proof.
  intros Hpx Hw. destruct (reserve_script _ _ _ _ _ d) as [d' r] eqn:E. simpl.
  apply reserveScript_spec in E; [|done]. destruct (look _ (entries d) _) as [e|] eqn:Hl.
  - destruct (E (look_wf _ _ _ _ _ Hw Hl)) as [Hx _]. rewrite (look_expires _ _ _ _ Hx). eauto.
  - destruct E as (_ & dead & Hdead & [Hk _]). eexists. apply look_Some. split; [exact Hk|].
    unfold gone. simpl. apply Z.leb_gt. lia.
Qed.

Lemma reserve_repeated (i : Instant) (r : Record) (s s' : redistore.Store D) n ex err :
  wf s → tr_repeats (next_trip (s_client s)) = S n → tr_fault (next_trip (s_client s)) = None →
  redistore.Reserve i r s = (s', (ex, err)) → err = Some (ErrAlreadyExists : error).
Proof.
  unfold redistore.Reserve. intros Hw Hn Hf.
  set (px := pxUntil (sent_at i (s_client s)) (rec_LeaseExpiresAt r)).
  assert (1 ≤ px ≤ 9223372036854) as Hpx by apply pxUntil_bounds.
  destruct (Run _ i (s_client s)) as [c res] eqn:E. intros [= _ Hans]. revert E Hans. unfold Run.
  rewrite Hf, Hn. change (reserveScript _ _ _ _ _ _) with
    (reserve_script (s_prefix s) r (rec_LeaseExpiresAt r) px (D:=D)).
  pose proof (repeat_reserve_wf (s_prefix s) i r (rec_LeaseExpiresAt r) px n _ Hpx Hw) as Hw0.
  pose proof (repeat_reserve_wf (s_prefix s) i r (rec_LeaseExpiresAt r) px (S n) _ Hpx Hw) as Hw1.
  pose proof (reserve_script_live (s_prefix s) i r (rec_LeaseExpiresAt r) px _ Hpx Hw0) as [e Hl].
  rewrite <-repeat_script_S in Hl. set (d1 := repeat_script (S n) _ _) in *. clearbody d1.
  destruct (reserve_script _ _ _ _ _ d1) as [d2 rep] eqn:E.
  apply reserveScript_spec in E; [|done]. rewrite Hl in E.
  pose proof (look_wf _ _ _ _ _ Hw1 Hl) as Hwe.
  destruct (E Hwe) as [_ (m & raw & dead & -> & Hraw & _ & Hm & _)].
  intros [= <- <-].
  destruct (decode_reply (answered_at i (s_client s)) (rec_Key r) e raw m Hwe Hraw Hm)
    as (old & old' & _ & _ & -> & _). naive_solver.
Qed.
End deadlines.

Lemma pxUntil_rounds now t :
  let left := Z.max (Until now t) Millisecond in
  pxUntil now t * Millisecond ≤ left < (pxUntil now t + 1) * Millisecond.
Proof.
  cbv zeta. unfold pxUntil. pose proof (Sub_range t now) as Hr. unfold Until in *.
  destruct (Z.le_gt_cases 0 (Sub t now)) as [H0|H0].
  - pose proof (Milliseconds_bounds _ H0) as Hb. unfold Millisecond in *. case_match; lia.
  - assert (Milliseconds (Sub t now) ≤ 0) as Hn.
    { unfold Milliseconds. apply Z.quot_le_upper_bound; unfold Millisecond; lia. }
    rewrite (proj2 (Z.ltb_lt _ _)) by lia. unfold Millisecond in *. lia.
Qed.

(** C24. Deadlines on the two clocks.  A granted reservation lives on the
    server, counted from its execution there, for what was left of the lease
    when the request was sent, rounded down to whole milliseconds but at
    least one, and at most one millisecond longer.  A deadline reported back
    is counted from the arrival of the answer: what the server has left of
    the record, short by at most one millisecond - so that a record in its
    last millisecond is reported as expiring at once. *)
Theorem redis_deadlines {D} `{RedisLaws D} (i : Instant) (s : redistore.Store D) :
  wf s →
  (∀ r s' ex, redistore.Reserve i r s = (s', (ex, None)) →
     ∃ e dead px, server_entry i s' (rec_Key r) = Some e ∧ e_dead e = Some dead ∧
       server_ms i + px ≤ dead ≤ server_ms i + px + 1 ∧
       let left := Z.max (Until (sent_at i (s_client s)) (rec_LeaseExpiresAt r)) Millisecond in
       px * Millisecond ≤ left < (px + 1) * Millisecond) ∧
  (∀ key s' rec, redistore.Get i key s = (s', (Some rec, None)) →
     ∃ e dead, server_entry i s key = Some e ∧ e_dead e = Some dead ∧
       let left := dead - server_ms i in
       (left ≤ 9223372036854 →
        ∃ d, deadline rec = Some d ∧
          answered_at i (s_client s) + (left - 1) * Millisecond ≤ d ∧
          d ≤ answered_at i (s_client s) + left * Millisecond)).
Proof.
  intros Hw. split.
  - intros r s' ex E. destruct (reserve_claimed_entry _ _ _ _ _ Hw E) as (e & dead & ? & ? & ?).
    exists e, dead, (pxUntil (sent_at i (s_client s)) (rec_LeaseExpiresAt r)).
    do 3 (split; [done|]). apply pxUntil_rounds.
  - intros key s' rec E.
    destruct (get_reported _ _ _ _ _ Hw E) as (e & dead & n & ? & ? & Hn & Hleft & Hd).
    exists e, dead. split_and!; try done. intros Hmax. eexists. split; [exact Hd|].
    unfold Add. rewrite millis_small by lia. unfold Millisecond. lia.
Qed.

(** C25. What a lost answer costs.  When the answer to a Reserve that took
    effect is lost and go-redis repeats the request, the repetition finds
    the caller's own reservation and reports it as another's: the caller is
    told ErrAlreadyExists with the record it has just written, and the key
    stays reserved under a token nobody will complete or release. *)
Theorem redis_repeated_reserve {D} `{RedisLaws D} (i : Instant) (r : Record)
    (s s' : redistore.Store D) (n : nat) (ex : option Record) (err : option error) :
  wf s → reservation r → live (server_ms i) (contents s) (rec_Key r) = None →
  tr_repeats (next_trip (s_client s)) = S n → tr_fault (next_trip (s_client s)) = None →
  redistore.Reserve i r s = (s', (ex, err)) →
  err = Some (ErrAlreadyExists : error) ∧
  (∃ own, ex = Some own ∧ same_identity r own) ∧ claims (server_ms i) r (contents s) (contents s').
Proof.
  intros Hw Hr Hl Hn Hf E. pose proof (reserve_repeated _ _ _ _ _ _ _ Hw Hn Hf E) as ->.
  split; [done|]. destruct (Reserve_contract _ _ _ _ _ _ Hw E) as [_ Hpost].
  destruct (Hpost Hr) as [(_ & old & -> & [(_ & r0 & Hr0 & _)|[Hc Hid]])|[Hi _]].
  - congruence.
  - split; [by exists old|done].
  - apply is_infra_spec in Hi as (Hi & _). done.
Qed.

(** ** Witnesses: the concrete keyspace *)

Module ExampleRedis.
Definition key : bytes := bs "k".
Definition at0 : Instant := mkInstant 7000000000 5000000000.
(** The answer to the first attempt is lost. *)
Definition lossy : trip := mkTrip 1000 2000 1 None.
Definition fine : trip := mkTrip 1000 2000 0 None.
Definition store (net : list trip) : redistore.Store keyspace :=
  redistore.New (mkClient ∅ net) [redistore.KeyPrefix (bs "p:")].
Definition rec : Record :=
  mkRecord key (bs "fp") StateReserved (bs "tok") 37000000000 Time.zero [].
Definition held : redistore.Store keyspace := (redistore.Reserve at0 rec (store [fine; fine])).1.

Lemma store_wf net : wf (store net).
Proof. intros k e. done. Qed.

Lemma held_wf : wf held.
Proof. apply Reserve_wf, store_wf. Qed.

Definition shared : owned keyspace := mkOwned held held_wf.
Definition w : world (owned keyspace) :=
  mkWorld shared at0 [] [inl (bs "0123456789abcdef")] [].
End ExampleRedis.

(** A Complete under another token, answered at once. *)
Lemma redistore_executes_witness :
  wf ExampleRedis.held ∧
  complete_does (lasts 5000 1000) 5000 ExampleRedis.key (bs "other") []
    (contents ExampleRedis.held)
    (contents (redistore.Complete ExampleRedis.at0 ExampleRedis.key (bs "other") [] Second
                 ExampleRedis.held).1) (Some (ErrTokenMismatch : error)).
Proof.
  split; [exact ExampleRedis.held_wf|].
  destruct (redistore_executes ExampleRedis.at0 ExampleRedis.held ExampleRedis.held_wf)
    as (_ & H & _).
  destruct (H ExampleRedis.key (bs "other") [] Second _ (Some (ErrTokenMismatch : error))
    (pair_snd _ _ eq_refl)) as [_ He].
  refine (executed_once (next_trip (s_client ExampleRedis.held)) _ _ _ _ _ _ _ He); by vm_compute.
Defined.

(** Two seconds after the reservation, 28 of its 30 seconds are left; the
    reported deadline is 28 seconds after the answer, less what the server
    rounds away. *)
Definition example_later : Instant := mkInstant 9000000000 7000000000.

Lemma redis_deadlines_witness :
  ∃ d, (redistore.Get example_later ExampleRedis.key ExampleRedis.held).2 =
         (Some (mkRecord ExampleRedis.key (bs "fp") StateReserved (bs "tok") d Time.zero []), None) ∧
    d ≤ 9000002000 + 28001 * Millisecond.
Proof.
  eexists. split; [reflexivity|].
  destruct (redis_deadlines example_later ExampleRedis.held ExampleRedis.held_wf) as [_ H].
  destruct (H ExampleRedis.key _ _ (pair_snd _ _ eq_refl)) as (e & dead & He & Hd & Hb).
  assert (e_dead e = Some 35001) as Hdead.
  { apply (f_equal (option_map e_dead)) in He. simpl in He. rewrite Hd in *.
    vm_compute in He. congruence. }
  assert (dead = 35001) as -> by congruence.
  destruct Hb as (d & Hdl & _ & Hup); [vm_compute; discriminate|].
  vm_compute in Hdl. injection Hdl as <-. vm_compute. discriminate.
Defined.

Lemma redis_repeated_reserve_witness :
  ∃ own, redistore.Reserve ExampleRedis.at0 ExampleRedis.rec
           (ExampleRedis.store [ExampleRedis.lossy]) =
         ((redistore.Reserve ExampleRedis.at0 ExampleRedis.rec
             (ExampleRedis.store [ExampleRedis.lossy])).1,
          (Some own, Some (ErrAlreadyExists : error))) ∧ rec_Token own = bs "tok".
Proof.
  eexists. split; [apply pair_snd; reflexivity|].
  destruct (redis_repeated_reserve ExampleRedis.at0 ExampleRedis.rec
    (ExampleRedis.store [ExampleRedis.lossy]) _ 0 _ _ (ExampleRedis.store_wf _)
    (conj eq_refl eq_refl) eq_refl eq_refl eq_refl (pair_snd _ _ eq_refl))
    as (_ & (own & [= <-] & (_ & _ & _ & Ht & _)) & _).
  symmetry. exact Ht.
Defined.

(** A duplicate arriving at Redis while the reservation is held. *)
Lemma Begin_on_live_record_witness :
  out_Action <$> (match (run (Begin ExampleRedis.key (bs "other") (mkOptions 0 0)) ExampleRedis.w).1 with
                  | inl out => Some out | inr _ => None end) = Some RejectInFlight.
Proof.
  destruct (run (Begin ExampleRedis.key (bs "other") (mkOptions 0 0)) ExampleRedis.w)
    as [res w'] eqn:E.
  assert ((run (Begin ExampleRedis.key (bs "other") (mkOptions 0 0)) ExampleRedis.w).1 = res) as Hres
    by (by rewrite E).
  destruct (Begin_on_live_record ExampleRedis.key (bs "other") (mkOptions 0 0) ExampleRedis.w w' res
    (mkRecord ExampleRedis.key (bs "fp") StateReserved (bs "tok") 35001 Time.zero []) 35001)
    as [_ Ha].
  - reflexivity.
  - reflexivity.
  - exact E.
  - apply (f_equal snd) in E. simpl in E. subst w'. vm_compute. reflexivity.
  - destruct res as [out|e]; [|vm_compute in Hres; discriminate].
    simpl in *. by destruct Ha as [-> _].
Defined.
