(* ===== verification/Pgstore.v ===== *)
(** * The PostgreSQL store (pgstore/pgstore.go)

    The records table, the statements as functions on it at the server's
    now(), and the Go operations as programs that issue statements one at a
    time.  [prun] executes such a program under any scheduler: between two
    of its statements other clients may do anything to the table, and each
    statement may fail before or after it was executed.  A statement on one
    key is atomic, its whole condition being evaluated on the row it locks;
    the DELETE of Sweep is not.  Times of the table are microseconds of the server clock. *)
From S2P Require Import Prelude GoLib Strconv Errors Record Store.
Import Time.

Module pgstore.

(** ** Table names *)

Definition DefaultTable : bytes := bs "idemlease_records".

Definition is_letter (b : byte) : bool := is_lower b || is_upper b || bool_decide (b = x5f).
Definition is_digit (b : byte) : bool := (48 <=? byte_Z b)%Z && (byte_Z b <=? 57)%Z.

(** [[A-Za-z_][A-Za-z0-9_]*] *)
Definition is_word (s : bytes) : bool :=
  match s with
  | b :: s => is_letter b && forallb (λ b, is_letter b || is_digit b) s
  | [] => false
  end.

(** The text before the first dot and, if there is one, the text after it. *)
Fixpoint split_dot (s : bytes) : bytes * option bytes :=
  match s with
  | [] => ([], None)
  | b :: s =>
      if bool_decide (b = x2e) then ([], Some s)
      else let '(l, r) := split_dot s in (b :: l, r)
  end.

(** [identifierRE.MatchString]: one word, or two joined by a dot. *)
Definition identifierRE (s : bytes) : bool :=
  match split_dot s with
  | (l, None) => is_word l
  | (l, Some r) => is_word l && is_word r
  end.

(** The panic of mustValidIdentifier, or nothing. *)
Definition mustValidIdentifier (table : bytes) : option bytes :=
  if identifierRE table then None
  else Some (bs "pgstore: invalid table name " ++ table).

(** type Store struct; the query texts differ only in the table's name. *)
Record Store := mkStore { s_table : bytes }.
Definition Option : Type := Store → Store.
Definition Table (name : bytes) : Option := λ _, mkStore name.

(** The store, or the panic. *)
Definition New (opts : list Option) : Store + bytes :=
  let s := foldl (λ s o, o s) (mkStore DefaultTable) opts in
  match mustValidIdentifier (s_table s) with
  | Some msg => inr msg
  | None => inl s
  end.

(** ** The records table (Schema) *)

Record row := mkRow {
  r_state : Z;
  r_token : bytes;
  r_fingerprint : bytes;
  r_payload : option bytes;
  r_lease_expires_at : Z;
  r_record_expires_at : option Z;
  r_created_at : Z;
}.

#[global] Instance row_eq_dec : EqDecision row.
Proof. solve_decision. Defined.

(** [key] is the primary key. *)
Abbreviation table := (gmap bytes row).

Definition stateReserved : Z := 1.
Definition stateCompleted : Z := 2.

Section predicates.
Local Open Scope Z_scope.

(** A comparison with NULL is not true. *)
Definition after_now (now : Z) (t : option Z) : bool :=
  match t with Some t => now <? t | None => false end.
Definition not_after_now (now : Z) (t : option Z) : bool :=
  match t with Some t => t <=? now | None => false end.

Definition live_row (now : Z) (r : row) : bool :=
  ((r_state r =? stateReserved) && after_now now (Some (r_lease_expires_at r))) ||
  ((r_state r =? stateCompleted) && after_now now (r_record_expires_at r)).

Definition expired_row (now : Z) (r : row) : bool :=
  ((r_state r =? stateReserved) && not_after_now now (Some (r_lease_expires_at r))) ||
  ((r_state r =? stateCompleted) && not_after_now now (r_record_expires_at r)).

(** The cast of a number of milliseconds to [bigint] rounds to the nearest,
    halves away from zero; the argument is in microseconds. *)
Definition bigint_ms (us : Z) : Z :=
  if 0 <=? us then (us + 500) / 1000 else - ((- us + 500) / 1000).

(** [leaseMs] and [recordMs]. *)
Definition leaseMs (now : Z) (r : row) : Z := bigint_ms (r_lease_expires_at r - now).
Definition recordMs (now : Z) (r : row) : option Z :=
  (λ t, bigint_ms (t - now)) <$> r_record_expires_at r.

(** [now() + interval '1 millisecond' * $4] *)
Definition now_plus_ms (now ms : Z) : Z := now + ms * 1000.
End predicates.

(** ** Statements *)

Inductive stmt :=
  | qReserve (key token fp : bytes) (ms : Z)
  | qReserveExists (key : bytes)
  | qComplete (key token payload : bytes) (ms : Z)
  | qClassify (key : bytes)
  | qClassifyTx (key : bytes)
  | qRelease (key token : bytes)
  | qGet (key : bytes)
  | qSweep (limit : Z).

(** The row a query answers, or the number of rows a command affected. *)
Inductive answer :=
  | aLease (ms : Z)
  | aRecord (state : Z) (token fp : bytes) (payload : option bytes) (leaseMs : Z)
      (recordMs : option Z)
  | aToken (token : bytes)
  | aState (state : Z) (token : bytes)
  | aAffected (n : Z).

(** How one execution of Sweep's statement goes: the order in which its
    sub-select meets the keys, what other clients commit between the
    sub-select and the deletion, and which rows they changed pass the
    recheck. *)
Record plan := mkPlan {
  pl_scan : list bytes;
  pl_meanwhile : table → table;
  pl_rechecks : bytes → bool;
}.

Section statements.
Variable now : Z.
Local Open Scope Z_scope.

Definition sql_reserve (key token fp : bytes) (ms : Z) (t : table) : table * (answer + error) :=
  let new := mkRow stateReserved token fp None (now_plus_ms now ms) None now in
  let claimed := (<[key := new]> t, inl (aLease (leaseMs now new))) in
  match t !! key with
  | None => claimed
  | Some old => if expired_row now old then claimed else (t, inr (sql_ErrNoRows : error))
  end.

(** qReserveExists and qGet are the same text. *)
Definition sql_get (key : bytes) (t : table) : table * (answer + error) :=
  (t, match t !! key with
      | Some r =>
          if live_row now r
          then inl (aRecord (r_state r) (r_token r) (r_fingerprint r) (r_payload r)
                      (leaseMs now r) (recordMs now r))
          else inr (sql_ErrNoRows : error)
      | None => inr (sql_ErrNoRows : error)
      end).

(** The WHERE clause of qComplete and qRelease. *)
Definition held_row (token : bytes) (r : row) : bool :=
  bool_decide (r_token r = token) && (r_state r =? stateReserved) &&
  (now <? r_lease_expires_at r).

Definition sql_complete (key token payload : bytes) (ms : Z) (t : table)
    : table * (answer + error) :=
  match t !! key with
  | Some r =>
      if held_row token r then
        (<[key := mkRow stateCompleted (r_token r) (r_fingerprint r) (Some payload)
                    (r_lease_expires_at r) (Some (now_plus_ms now ms)) (r_created_at r)]> t,
         inl (aAffected 1))
      else (t, inl (aAffected 0))
  | None => (t, inl (aAffected 0))
  end.

Definition sql_release (key token : bytes) (t : table) : table * (answer + error) :=
  match t !! key with
  | Some r => if held_row token r then (delete key t, inl (aAffected 1))
              else (t, inl (aAffected 0))
  | None => (t, inl (aAffected 0))
  end.

Definition sql_classify (key : bytes) (t : table) : table * (answer + error) :=
  (t, match t !! key with
      | Some r =>
          if (r_state r =? stateReserved) && (now <? r_lease_expires_at r)
          then inl (aToken (r_token r)) else inr (sql_ErrNoRows : error)
      | None => inr (sql_ErrNoRows : error)
      end).

Definition sql_classify_tx (key : bytes) (t : table) : table * (answer + error) :=
  (t, match t !! key with
      | Some r => if live_row now r then inl (aState (r_state r) (r_token r))
                  else inr (sql_ErrNoRows : error)
      | None => inr (sql_ErrNoRows : error)
      end).

(** The DELETE of Sweep is two steps.  The sub-select takes, without ORDER
    BY, the first expired rows of the server's own scan.  Then the rows of
    the keys it found are deleted from the table as it is by then, others
    having committed in between (READ COMMITTED): a row that is gone is
    passed over, one that is as the sub-select saw it is deleted, and for one
    that was changed the condition, that its key is among those found, is
    evaluated again, with the outcome the plan says. *)
Definition sql_sweep (p : plan) (limit : Z) (t : table) : table * (answer + error) :=
  let expired k := match t !! k with Some r => expired_row now r | None => false end in
  let found := take (Z.to_nat limit) (filter (λ k, expired k = true) (remove_dups (pl_scan p))) in
  let t' := pl_meanwhile p t in
  let deleted k := match t' !! k with
                   | Some r => bool_decide (t !! k = Some r) || pl_rechecks p k
                   | None => false
                   end in
  let doomed := filter (λ k, deleted k = true) found in
  if limit <? 0 then (t, inr (errText (bs "LIMIT must not be negative")))
  else (foldr delete t' doomed, inl (aAffected (Z.of_nat (length doomed)))).

Definition exec (p : plan) (s : stmt) : table → table * (answer + error) :=
  match s with
  | qReserve key token fp ms => sql_reserve key token fp ms
  | qReserveExists key | qGet key => sql_get key
  | qComplete key token payload ms => sql_complete key token payload ms
  | qClassify key => sql_classify key
  | qClassifyTx key => sql_classify_tx key
  | qRelease key token => sql_release key token
  | qSweep limit => sql_sweep p limit
  end.
End statements.

(** ** Programs of statements *)

Inductive pg_prog (A : Type) :=
  | PRet (a : A)
  | PNow (k : Time → pg_prog A)
  | PStmt (s : stmt) (k : answer + error → pg_prog A).
Arguments PRet {A} _.
Arguments PNow {A} _.
Arguments PStmt {A} _ _.

Fixpoint pg_bind {A B} (f : A → pg_prog B) (p : pg_prog A) : pg_prog B :=
  match p with
  | PRet a => f a
  | PNow k => PNow (λ t, pg_bind f (k t))
  | PStmt s k => PStmt s (λ x, pg_bind f (k x))
  end.
#[global] Instance pg_mret : MRet pg_prog := @PRet.
#[global] Instance pg_mbind : MBind pg_prog := @pg_bind.

Definition time_Now : pg_prog Time := PNow PRet.
Definition query (s : stmt) : pg_prog (answer + error) := PStmt s PRet.

(** What the scheduler decides about one statement: what others do to the
    table before it, the server's now(), Sweep's plan, and whether it fails
    - before or after it was executed.  A parameter the server rejects
    is a failure before. *)
Record slot := mkSlot {
  sl_env : table → table;
  sl_now : Z;
  sl_plan : plan;
  sl_fault : option (bool * bytes);
}.

(** One statement of ours in the history of the table. *)
Record event := mkEvent {
  ev_slot : slot;
  ev_stmt : stmt;
  ev_before : table;
  ev_after : table;
  ev_answer : answer + error;
}.

Definition run_stmt (sl : slot) (s : stmt) (t : table) : table * (answer + error) :=
  let t := sl_env sl t in
  match sl_fault sl with
  | None => exec (sl_now sl) (sl_plan sl) s t
  | Some (executed, msg) =>
      ((if executed : bool then (exec (sl_now sl) (sl_plan sl) s t).1 else t), inr (errText msg))
  end.

Section prun.
Context {Σ : Type} (next : Σ → slot * Σ) (clock : Σ → Time * Σ).

Fixpoint prun {A} (p : pg_prog A) (σ : Σ) (t : table) : A * (Σ * table) * list event :=
  match p with
  | PRet a => (a, (σ, t), [])
  | PNow k => let '(now, σ) := clock σ in prun (k now) σ t
  | PStmt s k =>
      let '(sl, σ) := next σ in
      let '(t', x) := run_stmt sl s t in
      let '(r, tr) := prun (k x) σ t' in
      (r, mkEvent sl s (sl_env sl t) t' x :: tr)
  end.
End prun.

(** ** The operations *)

Section operations.
Local Open Scope Z_scope.

Definition leaseTTLMillis (now : Time) (rec : Record) : Z :=
  let ms := Milliseconds (Until now (rec_LeaseExpiresAt rec)) in
  if ms <? 1 then 1 else ms.

(** [d] is an int64. *)
Definition recordTTLMillis (d : Duration) : Z :=
  let ms := Milliseconds (i64 d) in if ms <? 1 then 1 else ms.

(** The texts carry keys as they are, without the quoting of [%q]. *)
Definition err_state (key : bytes) (state : Z) : error :=
  errText (bs "pgstore: record " ++ key ++ bs " has invalid state " ++ FormatInt state).

(** A row whose columns are not those scanned is an error of Scan. *)
Definition err_scan : error := errText (bs "sql: Scan error").

(** The switch on the state, with the clock read before it. *)
Definition decode_row (key : bytes) (now : Time) (state : Z) (token fp : bytes)
    (payload : option bytes) (leaseMs : Z) (recMs : option Z) : Record + error :=
  let payload := default [] payload in
  if state =? stateReserved then
    inl (mkRecord key fp StateReserved token (Add now (millis leaseMs)) Time.zero payload)
  else if state =? stateCompleted then
    inl (mkRecord key fp StateCompleted token Time.zero
           (match recMs with Some ms => Add now (millis ms) | None => Time.zero end) payload)
  else inr (err_state key state).

Definition scanRecord (row : answer + error) (key : bytes) : pg_prog (Record + error) :=
  match row with
  | inr err => mret (inr err)
  | inl (aRecord state token fp payload leaseMs recMs) =>
      now ← time_Now;
      mret (decode_row key now state token fp payload leaseMs recMs)
  | inl _ => mret (inr err_scan)
  end.

Definition err_vanishing : error :=
  errText (bs "pgstore: reserve: claim kept losing to a vanishing record").

(** The loop over the attempts; [more] attempts follow. *)
Fixpoint reserve_loop (more : nat) (rec : Record) : pg_prog (option Record * option error) :=
  now ← time_Now;
  claimed ← query (qReserve (rec_Key rec) (rec_Token rec) (rec_Fingerprint rec)
                     (leaseTTLMillis now rec));
  match claimed with
  | inl _ => mret (None, None)
  | inr err =>
      if negb (Is err sql_ErrNoRows)
      then mret (None, Some (Errorf_prefix_w (bs "pgstore: reserve: ") err))
      else
        row ← query (qReserveExists (rec_Key rec));
        existing ← scanRecord row (rec_Key rec);
        match existing with
        | inl existing => mret (Some existing, Some (ErrAlreadyExists : error))
        | inr err =>
            if Is err sql_ErrNoRows then
              match more with
              | S more => reserve_loop more rec
              | O => mret (None, Some err_vanishing)
              end
            else mret (None, Some (Errorf_prefix_w (bs "pgstore: reserve read existing: ") err))
        end
  end.

Definition Reserve (rec : Record) : pg_prog (option Record * option error) := reserve_loop 2 rec.

Definition classifyFailure (key token op : bytes) : pg_prog (option error) :=
  row ← query (qClassify key);
  mret (match row with
        | inr err =>
            if Is err sql_ErrNoRows then Some (ErrNotFound : error)
            else Some (Errorf_prefix_w (bs "pgstore: " ++ op ++ bs " classify: ") err)
        | inl (aToken current) =>
            if negb (bool_decide (current = token)) then Some (ErrTokenMismatch : error)
            else Some (ErrNotFound : error)
        | inl _ => Some (Errorf_prefix_w (bs "pgstore: " ++ op ++ bs " classify: ") err_scan)
        end).

(** [n, _ := res.RowsAffected()] *)
Definition RowsAffected (res : answer) : Z := match res with aAffected n => n | _ => 0 end.

Definition Complete (key token payload : bytes) (recordTTL : Duration) : pg_prog (option error) :=
  res ← query (qComplete key token payload (recordTTLMillis recordTTL));
  match res with
  | inr err => mret (Some (Errorf_prefix_w (bs "pgstore: complete: ") err))
  | inl res =>
      if RowsAffected res =? 1 then mret None
      else classifyFailure key token (bs "complete")
  end.

Definition Release (key token : bytes) : pg_prog (option error) :=
  res ← query (qRelease key token);
  match res with
  | inr err => mret (Some (Errorf_prefix_w (bs "pgstore: release: ") err))
  | inl res =>
      if RowsAffected res =? 1 then mret None
      else classifyFailure key token (bs "release")
  end.

Definition Get (key : bytes) : pg_prog (option Record * option error) :=
  row ← query (qGet key);
  rec ← scanRecord row key;
  mret (match rec with
        | inl rec => (Some rec, None)
        | inr err =>
            if Is err sql_ErrNoRows then (None, None)
            else (None, Some (Errorf_prefix_w (bs "pgstore: get: ") err))
        end).

(** On the caller's transaction, whose now() is the instant it began. *)
Definition CompleteTx (key token payload : bytes) (recordTTL : Duration)
    : pg_prog (bool * option error) :=
  res ← query (qComplete key token payload (recordTTLMillis recordTTL));
  match res with
  | inr err => mret (false, Some (Errorf_prefix_w (bs "pgstore: complete tx: ") err))
  | inl res =>
      if RowsAffected res =? 1 then mret (false, None)
      else
        row ← query (qClassifyTx key);
        mret (match row with
              | inr err =>
                  if Is err sql_ErrNoRows then (true, None)
                  else (false, Some (Errorf_prefix_w (bs "pgstore: complete tx classify: ") err))
              | inl (aState state current) =>
                  if (state =? stateCompleted) && bool_decide (current = token)
                  then (false, Some (ErrAlreadyCompleted : error))
                  else (true, None)
              | inl _ =>
                  (false, Some (Errorf_prefix_w (bs "pgstore: complete tx classify: ") err_scan))
              end)
  end.

Definition Sweep (limit : Z) : pg_prog (Z * option error) :=
  res ← query (qSweep limit);
  mret (match res with
        | inr err => (0, Some (Errorf_prefix_w (bs "pgstore: sweep: ") err))
        | inl res => (RowsAffected res, None)
        end).
End operations.

End pgstore.
