(* ===== verification/PgSpec.v ===== *)
(** * What the operations of the PostgreSQL store come to

    The effect and the answer of every statement, and the outcome of every
    operation in terms of its statements, run under any scheduler - other
    clients changing the table between them, statements failing before or
    after they were executed: which one had the effect, which one the answer
    comes from and what it saw, and that the others change nothing.  The
    operation then does what the contract says at that statement. *)
From S2P Require Import Prelude GoLib Strconv Errors Record Store Pgstore.
Import Time pgstore.
Local Open Scope Z_scope.

(** ** The content of a table *)

Definition record_of (key : bytes) (r : row) : Record :=
  mkRecord key (r_fingerprint r)
    (if r_state r =? stateReserved then StateReserved
     else if r_state r =? stateCompleted then
       match r_record_expires_at r with Some _ => StateCompleted | None => StateOther 2 end
     else StateOther (r_state r))
    (r_token r) (r_lease_expires_at r) (default 0 (r_record_expires_at r))
    (default [] (r_payload r)).

Definition records (t : table) : content := map_imap (λ k r, Some (record_of k r)) t.

Lemma records_lookup t k : records t !! k = record_of k <$> t !! k.
Proof. unfold records. rewrite map_lookup_imap. by destruct (t !! k). Qed.

Lemma Expired_row key r now : Expired (record_of key r) now = negb (live_row now r).
Proof.
  unfold Expired, record_of, live_row, after_now, Before, stateReserved, stateCompleted.
  cbn [rec_State rec_LeaseExpiresAt rec_RecordExpiresAt].
  destruct (Z.eqb_spec (r_state r) 1) as [->|]; [by rewrite orb_false_r|].
  destruct (r_state r =? 2); [|done].
  by destruct (r_record_expires_at r).
Qed.

Lemma live_records now t key :
  live now (records t) key =
  match t !! key with
  | Some r => if live_row now r then Some (record_of key r) else None
  | None => None
  end.
Proof.
  unfold live. rewrite records_lookup. destruct (t !! key) as [r|]; simpl; [|done].
  rewrite Expired_row. by destruct (live_row now r).
Qed.

Lemma records_insert t k r : records (<[k := r]> t) = <[k := record_of k r]> (records t).
Proof.
  apply map_eq. intros k'. rewrite records_lookup. destruct (decide (k = k')) as [<-|].
  - by rewrite !lookup_insert_eq.
  - by rewrite !lookup_insert_ne, records_lookup.
Qed.

Lemma records_delete t k : records (delete k t) = delete k (records t).
Proof.
  apply map_eq. intros k'. rewrite records_lookup. destruct (decide (k = k')) as [<-|].
  - by rewrite !lookup_delete_eq.
  - by rewrite !lookup_delete_ne, records_lookup.
Qed.

Lemma expired_not_live now r : expired_row now r = true → live_row now r = false.
Proof.
  unfold expired_row, live_row, not_after_now, after_now, stateReserved, stateCompleted.
  destruct (Z.eqb_spec (r_state r) 1) as [->|].
  - change (1 =? 2) with false. rewrite !orb_false_r, !andb_true_l, Z.leb_le, Z.ltb_ge. done.
  - rewrite !andb_false_l, !orb_false_l.
    destruct (r_state r =? 2); [|done]. rewrite !andb_true_l. destruct (r_record_expires_at r); [|done].
    by rewrite Z.leb_le, Z.ltb_ge.
Qed.

(** The row the compare-and-set looks for is the held reservation. *)
Lemma held_row_cas now key token t :
  match t !! key with Some r => held_row now token r | None => false end = true ↔
  ∃ r, cas now key token (records t) = inl r.
Proof.
  setoid_rewrite cas_inl. rewrite live_records. destruct (t !! key) as [r|]; [|naive_solver].
  unfold held_row, live_row, stateReserved, stateCompleted, after_now.
  rewrite !andb_true_iff, bool_decide_eq_true, Z.eqb_eq, Z.ltb_lt. split.
  - intros [[Ht Hs] Hl]. rewrite Hs, (proj2 (Z.ltb_lt _ _) Hl). simpl.
    eexists. split; [done|]. unfold record_of. simpl. by rewrite Hs.
  - intros (r' & Hl & Ht & Hs).
    destruct (_ || _) eqn:E; simplify_eq. unfold record_of in *. simpl in *.
    unfold stateReserved, stateCompleted in *.
    destruct (Z.eqb_spec (r_state r) 1) as [Hst|Hst].
    + rewrite Hst in E. simpl in E. rewrite orb_false_r, Z.ltb_lt in E. done.
    + destruct (r_state r =? 2); [|done]. by destruct (r_record_expires_at r).
Qed.

(** ** One statement *)

Definition quiet (e : event) : Prop := ev_after e = ev_before e.

Abbreviation before_of e := (records (ev_before e)).
Abbreviation after_of e := (records (ev_after e)).
Abbreviation now_of e := (sl_now (ev_slot e)).

(** The event a statement leaves. *)
Definition stmt_event (sl : slot) (s : stmt) (t : table) : event :=
  mkEvent sl s (sl_env sl t) (run_stmt sl s t).1 (run_stmt sl s t).2.

(** A failed statement: its error is none the code compares with, and it
    left the table alone or had its effect. *)
Definition failed (e : event) (err : error) : Prop :=
  (∃ msg, err = errText msg) ∧
  (quiet e ∨ ev_after e = (exec (now_of e) (sl_plan (ev_slot e)) (ev_stmt e) (ev_before e)).1).

Lemma stmt_event_cases sl s t :
  let e := stmt_event sl s t in
  (∃ err, ev_answer e = inr err ∧ failed e err) ∨
  exec (now_of e) (sl_plan sl) s (ev_before e) = (ev_after e, ev_answer e).
Proof.
  unfold stmt_event, run_stmt, failed, quiet. destruct (sl_fault sl) as [[[|] msg]|]; simpl.
  - left. eexists. split; [done|]. split; [by eexists|]. by right.
  - left. eexists. split; [done|]. split; [by eexists|]. by left.
  - right. by destruct (exec _ _ _ _).
Qed.

Lemma errText_wrapped op msg : is_infra (Errorf_prefix_w op (errText msg)) = true.
Proof. done. Qed.

(** The effects of the commands, deadlines included. *)
Definition claimed (ms now : Z) (rec : Record) (m m' : content) : Prop :=
  live now m (rec_Key rec) = None ∧ claims_until (eq (now_plus_ms now ms)) now rec m m'.

Definition completed_by (ms now : Z) (key tok payload : bytes) (m m' : content) : Prop :=
  ∃ old, cas now key tok m = inl old ∧
    completes_until (eq (now_plus_ms now ms)) now key payload old m m'.

Definition released (now : Z) (key tok : bytes) (m m' : content) : Prop :=
  (∃ old, cas now key tok m = inl old) ∧ m' ≡{now}≡ delete key m.

(** No reservation is held under the token. *)
Definition not_held (now : Z) (key tok : bytes) (m : content) : Prop :=
  ∀ old, cas now key tok m ≠ inl old.

Lemma sql_reserve_claimed now key tok fp ms t rec :
  reservation rec → rec_Key rec = key → rec_Token rec = tok → rec_Fingerprint rec = fp →
  (sql_reserve now key tok fp ms t).1 = t ∧
    (sql_reserve now key tok fp ms t).2 = inr (sql_ErrNoRows : error) ∨
  claimed ms now rec (records t) (records (sql_reserve now key tok fp ms t).1) ∧
    ∃ a, (sql_reserve now key tok fp ms t).2 = inl a.
Proof.
  intros [Hs Hp] <- <- <-. unfold sql_reserve.
  set (new := mkRow _ _ _ _ _ _ _).
  assert (live now (records t) (rec_Key rec) = None →
    claimed ms now rec (records t) (records (<[rec_Key rec := new]> t))) as Hclaim.
  { intros Hl. split; [done|]. exists (record_of (rec_Key rec) new), (now_plus_ms now ms).
    split; [by repeat split|]. do 2 (split; [done|]). by rewrite records_insert. }
  rewrite live_records in Hclaim. destruct (t !! rec_Key rec) as [old|]; simpl.
  - destruct (expired_row now old) eqn:E; simpl; [|by left].
    right. split; [|by eexists]. apply Hclaim. by rewrite expired_not_live.
  - right. split; [|by eexists]. by apply Hclaim.
Qed.

(** The command of Complete or of Release, on the row of its key. *)
Lemma held_row_found now key tok t :
  match t !! key with
  | Some r => if held_row now tok r then cas now key tok (records t) = inl (record_of key r)
              else not_held now key tok (records t)
  | None => not_held now key tok (records t)
  end.
Proof.
  pose proof (held_row_cas now key tok t) as Hc.
  destruct (t !! key) as [r|] eqn:Hr; [destruct (held_row now tok r)|].
  - destruct (proj1 Hc eq_refl) as [old Ho]. rewrite Ho. f_equal.
    apply cas_inl in Ho as (Hl & _). rewrite live_records, Hr in Hl. by case_match; simplify_eq.
  - intros old Ho. by pose proof (proj2 Hc (ex_intro _ _ Ho)).
  - intros old Ho. by pose proof (proj2 Hc (ex_intro _ _ Ho)).
Qed.

Lemma sql_complete_completed now key tok payload ms t :
  (sql_complete now key tok payload ms t).1 = t ∧
    (sql_complete now key tok payload ms t).2 = inl (aAffected 0) ∧ not_held now key tok (records t) ∨
  completed_by ms now key tok payload (records t)
    (records (sql_complete now key tok payload ms t).1) ∧
    (sql_complete now key tok payload ms t).2 = inl (aAffected 1).
Proof.
  unfold sql_complete. pose proof (held_row_found now key tok t) as Hc.
  destruct (t !! key) as [r|]; [destruct (held_row now tok r)|]; simpl; [right|by left..].
  split; [|done]. exists (record_of key r). split; [done|]. eexists _, (now_plus_ms now ms).
  split; [|split; [|split; [done|by rewrite records_insert]]]; [by repeat split|done].
Qed.

Lemma sql_release_released now key tok t :
  (sql_release now key tok t).1 = t ∧ (sql_release now key tok t).2 = inl (aAffected 0) ∧
    not_held now key tok (records t) ∨
  released now key tok (records t) (records (sql_release now key tok t).1) ∧
    (sql_release now key tok t).2 = inl (aAffected 1).
Proof.
  unfold sql_release. pose proof (held_row_found now key tok t) as Hc.
  destruct (t !! key) as [r|]; [destruct (held_row now tok r)|]; simpl; [right|by left..].
  split; [|done]. split; [by eexists|]. by rewrite records_delete.
Qed.

(** ** The events of the operations *)

Lemma claim_event sl rec ms t :
  reservation rec →
  let e := stmt_event sl (qReserve (rec_Key rec) (rec_Token rec) (rec_Fingerprint rec) ms) t in
  (∃ a, ev_answer e = inl a ∧ claimed ms (now_of e) rec (before_of e) (after_of e)) ∨
  (ev_answer e = inr (sql_ErrNoRows : error) ∧ quiet e) ∨
  (∃ msg, ev_answer e = inr (errText msg) ∧
     (quiet e ∨ claimed ms (now_of e) rec (before_of e) (after_of e))).
Proof.
  intros Hr e. pose proof (sql_reserve_claimed (now_of e) (rec_Key rec) (rec_Token rec)
    (rec_Fingerprint rec) ms (ev_before e) rec Hr eq_refl eq_refl eq_refl) as Hc.
  destruct (stmt_event_cases sl (ev_stmt e) t) as [(err & He & [msg ->] & Hq)|He].
  - right; right. exists msg. split; [exact He|]. destruct Hq as [Hq|Hq]; [by left|].
    change (ev_after e = (sql_reserve (now_of e) (rec_Key rec) (rec_Token rec) (rec_Fingerprint rec)
      ms (ev_before e)).1) in Hq. rewrite <-Hq in Hc.
    destruct Hc as [[Hs _]|[Hc _]]; [by left|by right].
  - change (sql_reserve (now_of e) (rec_Key rec) (rec_Token rec) (rec_Fingerprint rec)
      ms (ev_before e) = (ev_after e, ev_answer e)) in He. rewrite He in Hc. destruct Hc as [[Hs Ha]|[Hc [a Ha]]].
    + right; left. by split.
    + left. exists a. by split.
Qed.

(** What a row's deadline is reported as by a client whose clock shows [t0]. *)
Definition rounded (now : Z) (t0 : Time) (d : Z) (t : Time) : Prop :=
  t = Add t0 (millis (bigint_ms (d - now))).

Lemma decode_row_live key now t r :
  live_row now r = true →
  ∃ ex, decode_row key t (r_state r) (r_token r) (r_fingerprint r) (r_payload r)
           (leaseMs now r) (recordMs now r) = inl ex ∧ tells (rounded now t) (record_of key r) ex.
Proof.
  unfold live_row, decode_row, tells, deadline, record_of, leaseMs, recordMs. intros Hl.
  destruct (r_state r =? stateReserved).
  { eexists. split; [done|]. split; [by repeat split|]. by do 2 eexists. }
  destruct (r_state r =? stateCompleted); [|done].
  destruct (r_record_expires_at r) as [d|]; [|done]. eexists. split; [done|].
  split; [by repeat split|]. by do 2 eexists.
Qed.

(** A read: quiet, and answers with the live record. *)
Definition reads (key : bytes) (e : event) : Prop :=
  quiet e ∧
  match ev_answer e with
  | inl (aRecord st tok fp pl lm rm) => ∃ old, live (now_of e) (before_of e) key = Some old ∧
      ∀ t, ∃ ex, decode_row key t st tok fp pl lm rm = inl ex ∧ tells (rounded (now_of e) t) old ex
  | inl _ => False
  | inr err => err = (sql_ErrNoRows : error) ∧ live (now_of e) (before_of e) key = None ∨
      ∃ msg, err = errText msg
  end.

Lemma read_event sl key t s :
  s = qReserveExists key ∨ s = qGet key → reads key (stmt_event sl s t).
Proof.
  intros Hs.
  assert (∀ now p t, exec now p s t = sql_get now key t) as Hex by by destruct Hs as [-> | ->].
  pose proof (stmt_event_cases sl s t) as Hc. cbv zeta in Hc.
  assert (ev_slot (stmt_event sl s t) = sl ∧ ev_stmt (stmt_event sl s t) = s) as [Hsl Hst] by done.
  set (e := stmt_event sl s t) in *. clearbody e. unfold reads, failed in *.
  destruct Hc as [(err & -> & [msg ->] & Hq)|He].
  - split; [|by right; exists msg]. destruct Hq as [Hq|Hq]; [done|].
    unfold quiet. by rewrite Hq, Hst, Hex.
  - rewrite Hex in He. unfold sql_get in He. injection He as Hq Ha. split; [by unfold quiet|].
    rewrite <-Ha, live_records. destruct (ev_before e !! key) as [r|]; [|by left].
    destruct (live_row (now_of e) r) eqn:Hl; [|by left].
    exists (record_of key r). split; [done|]. intros now'. by apply decode_row_live.
Qed.

(** A compare-and-set command, which has the effect [R] or finds no
    reservation that is held. *)
Definition cas_answer (R : Z → content → content → Prop) (key tok : bytes) (e : event) : Prop :=
  (ev_answer e = inl (aAffected 1) ∧ R (now_of e) (before_of e) (after_of e)) ∨
  (ev_answer e = inl (aAffected 0) ∧ quiet e ∧ not_held (now_of e) key tok (before_of e)) ∨
  (∃ msg, ev_answer e = inr (errText msg) ∧
     (quiet e ∨ R (now_of e) (before_of e) (after_of e))).

Lemma cas_event (sl : slot) (s : stmt) (t : table) (f : Z → table → table * (answer + error))
    (R : Z → content → content → Prop) (key tok : bytes) :
  (∀ now p t, exec now p s t = f now t) →
  (∀ now t, (f now t).1 = t ∧ (f now t).2 = inl (aAffected 0) ∧ not_held now key tok (records t) ∨
     R now (records t) (records (f now t).1) ∧ (f now t).2 = inl (aAffected 1)) →
  cas_answer R key tok (stmt_event sl s t).
Proof.
  intros Hex Hf. pose proof (stmt_event_cases sl s t) as Hc. cbv zeta in Hc.
  assert (ev_slot (stmt_event sl s t) = sl ∧ ev_stmt (stmt_event sl s t) = s) as [Hsl Hst] by done.
  set (e := stmt_event sl s t) in *. clearbody e. unfold cas_answer, failed, quiet in *.
  specialize (Hf (now_of e) (ev_before e)).
  destruct Hc as [(err & He & [msg ->] & Hq)|He].
  - right; right. exists msg. split; [done|]. destruct Hq as [Hq|Hq]; [by left|].
    rewrite Hst, Hex in Hq. rewrite Hq. destruct Hf as [[Hs _]|[Hr _]]; auto.
  - rewrite Hex in He. rewrite He in Hf. simpl in Hf. naive_solver.
Qed.

Lemma complete_event (sl : slot) (key tok payload : bytes) (ms : Z) (t : table) :
  cas_answer (λ now, completed_by ms now key tok payload) key tok
    (stmt_event sl (qComplete key tok payload ms) t).
Proof.
  apply (cas_event _ _ _ (λ now, sql_complete now key tok payload ms)); [done|].
  intros. apply sql_complete_completed.
Qed.

Lemma release_event (sl : slot) (key tok : bytes) (t : table) :
  cas_answer (λ now, released now key tok) key tok (stmt_event sl (qRelease key tok) t).
Proof.
  apply (cas_event _ _ _ (λ now, sql_release now key tok)); [done|].
  intros. apply sql_release_released.
Qed.

(** The classifying reads change nothing. *)
Lemma classify_event sl s t :
  (∃ key, s = qClassify key ∨ s = qClassifyTx key) → quiet (stmt_event sl s t).
Proof.
  intros [key Hs].
  destruct (stmt_event_cases sl s t) as [(err & _ & _ & [Hq|Hq])|He]; [done| |];
    unfold quiet; destruct Hs as [-> | ->]; simpl in *;
    [exact Hq|exact Hq|by injection He|by injection He].
Qed.

(** The classifying read of Complete and Release. *)
Lemma classify_answer sl key t :
  let e := stmt_event sl (qClassify key) t in
  let shown := live (now_of e) (before_of e) key in
  quiet e ∧
  match ev_answer e with
  | inl (aToken current) => ∃ r, shown = Some r ∧ rec_State r = StateReserved ∧ rec_Token r = current
  | inl _ => False
  | inr err => err = (sql_ErrNoRows : error) ∧ (∀ r, shown = Some r → rec_State r ≠ StateReserved) ∨
      ∃ msg, err = errText msg
  end.
Proof.
  cbv zeta. split; [apply classify_event; eauto|].
  pose proof (stmt_event_cases sl (qClassify key) t) as Hc. cbv zeta in Hc.
  assert (ev_slot (stmt_event sl (qClassify key) t) = sl) as Hsl by done.
  set (e := stmt_event sl _ t) in *. clearbody e.
  destruct Hc as [(err & -> & [msg ->] & _)|Hc]; [by right; exists msg|].
  simpl in Hc. unfold sql_classify in Hc. injection Hc as _ <-. rewrite live_records.
  destruct (ev_before e !! key) as [r|]; [|by left].
  unfold live_row, after_now, record_of, stateReserved, stateCompleted.
  destruct (Z.eqb_spec (r_state r) 1) as [Hs|Hs]; simpl.
  - rewrite Hs. simpl. rewrite orb_false_r. destruct (_ <? _); [by eexists|].
    left. split; [done|]. by intros ? [=].
  - left. split; [done|]. intros r'. destruct (r_state r =? 2); simpl; [|done].
    destruct (r_record_expires_at r); [|done]. destruct (_ <? _); [|done]. by intros [= <-].
Qed.

(** ** What the operations come to

    The outcome of an operation in terms of its events: which one had the
    effect, what the table showed to the one the answer comes from, and that
    the others changed nothing. *)

(** One event satisfies [post], the others change nothing. *)
Definition linearizes (tr : list event) (post : event → Prop) : Prop :=
  ∃ tr1 e tr2, tr = tr1 ++ e :: tr2 ∧ Forall quiet tr1 ∧ Forall quiet tr2 ∧ post e.

Lemma linearizes_last tr e (post : event → Prop) :
  Forall quiet tr → post e → linearizes (tr ++ [e]) post.
Proof. intros Hq H. by exists tr, e, []. Qed.

Lemma linearizes_first e1 e2 (post : event → Prop) :
  post e1 → quiet e2 → linearizes [e1; e2] post.
Proof. intros H Hq. exists [], e1, [e2]. split_and!; try done. by constructor. Qed.

Section outcomes.
Context {Σ : Type} (clock : Σ → Time * Σ).

(** A reading of the process's clock. *)
Definition clock_reads (t : Time) : Prop := ∃ σ, (clock σ).1 = t.

(** The statement failed. *)
Definition fails (e : event) : Prop := ∃ msg, ev_answer e = inr (errText msg).

(** Reserve with [more] attempts after the first: the statements before the
    last change nothing.  Success: the last one claimed the key, for what
    was left of the lease when the clock was read.  ErrAlreadyExists: none
    had an effect, and the last one read the live record that is reported.
    Any other error: every attempt was refused by a record that was gone
    when it was read, or a statement failed. *)
Definition reserve_outcome (more : nat) (rec : Record) (tr : list event)
    (a : option Record * option error) : Prop :=
  ∃ tr0 e, tr = tr0 ++ [e] ∧ Forall quiet tr0 ∧ (length tr ≤ 2 * S more)%nat ∧
  match a with
  | (None, None) => ∃ t, clock_reads t ∧
      claimed (leaseTTLMillis t rec) (now_of e) rec (before_of e) (after_of e)
  | (Some ex, Some err) => err = (ErrAlreadyExists : error) ∧ quiet e ∧
      ∃ old t, live (now_of e) (before_of e) (rec_Key rec) = Some old ∧ clock_reads t ∧
        tells (rounded (now_of e) t) old ex
  | (None, Some err) => is_infra err = true ∧
      (err = err_vanishing ∧ length tr = (2 * S more)%nat ∧ quiet e ∧
         live (now_of e) (before_of e) (rec_Key rec) = None ∨
       fails e ∧ (quiet e ∨ ∃ t, clock_reads t ∧
         claimed (leaseTTLMillis t rec) (now_of e) rec (before_of e) (after_of e)))
  | (Some _, None) => False
  end.

(** Complete and Release, whose command has the effect [R].  Success: the
    command was the only statement and had it.  Otherwise the command found
    no held reservation and changed nothing, and the answer is what the
    second statement read: ErrTokenMismatch for a live reservation under
    another token, ErrNotFound when there is none - or a statement
    failed. *)
Definition cas_outcome (R : Z → content → content → Prop) (key tok : bytes) (tr : list event)
    (err : option error) : Prop :=
  match err with
  | None => ∃ e, tr = [e] ∧ R (now_of e) (before_of e) (after_of e)
  | Some err =>
      (∃ e1 e2, tr = [e1; e2] ∧ quiet e1 ∧ quiet e2 ∧ not_held (now_of e1) key tok (before_of e1) ∧
         let other r := live (now_of e2) (before_of e2) key = Some r ∧
                        rec_State r = StateReserved ∧ rec_Token r ≠ tok in
         (err = (ErrTokenMismatch : error) ∧ (∃ r, other r) ∨
          err = (ErrNotFound : error) ∧ (¬ ∃ r, other r) ∨
          is_infra err = true ∧ fails e2)) ∨
      (∃ e, tr = [e] ∧ is_infra err = true ∧ fails e ∧
         (quiet e ∨ R (now_of e) (before_of e) (after_of e)))
  end.

(** Get is one statement that changes nothing and reads the live record. *)
Definition get_outcome (key : bytes) (tr : list event) (a : option Record * option error) : Prop :=
  ∃ e, tr = [e] ∧ quiet e ∧
  match a with
  | (Some ex, None) => ∃ old t, live (now_of e) (before_of e) key = Some old ∧ clock_reads t ∧
      tells (rounded (now_of e) t) old ex
  | (None, None) => live (now_of e) (before_of e) key = None
  | (None, Some err) => is_infra err = true ∧ fails e
  | (Some _, Some _) => False
  end.
End outcomes.

Section histories.
Context {Σ : Type} (next : Σ → slot * Σ) (clock : Σ → Time * Σ).
Abbreviation prun := (prun next clock).

Lemma prun_stmt {A} s (k : answer + error → pg_prog A) σ t :
  prun (PStmt s k) σ t =
  let '(sl, σ) := next σ in
  let e := stmt_event sl s t in
  let '(r, tr) := prun (k (ev_answer e)) σ (ev_after e) in (r, e :: tr).
Proof.
  simpl. destruct (next σ) as [sl σ']. unfold stmt_event.
  by destruct (run_stmt sl s t) as [t' x].
Qed.

Lemma prun_now {A} (k : Time → pg_prog A) σ t :
  prun (PNow k) σ t = let '(now, σ) := clock σ in prun (k now) σ t.
Proof. done. Qed.

Lemma clock_reads_at σ t σ' : clock σ = (t, σ') → clock_reads clock t.
Proof. intros E. exists σ. by rewrite E. Qed.

(** A round that was lost to a record that vanished. *)
Lemma reserve_outcome_retry more rec e1 e2 tr a :
  quiet e1 → quiet e2 → reserve_outcome clock more rec tr a →
  reserve_outcome clock (S more) rec (e1 :: e2 :: tr) a.
Proof.
  intros H1 H2 (tr0 & e & -> & Hq & Hlen & Ha). exists (e1 :: e2 :: tr0), e.
  split; [done|]. split; [by repeat constructor|]. split; [simpl in *; lia|].
  destruct a as [[ex|] [err|]]; try done.
  destruct Ha as [Hi [(-> & Hl & ?)|?]]; split; try done; [left|by right].
  split; [done|]. split; [simpl in *; lia|done].
Qed.

Lemma reserve_outcomes rec more σ t :
  reservation rec →
  let '(res, _, tr) := prun (reserve_loop more rec) σ t in reserve_outcome clock more rec tr res.
Proof.
  intros Hr. revert σ t. induction more as [|more IH]; intros σ t;
    cbn [reserve_loop]; unfold time_Now, query, mbind, pg_mbind; cbn [pg_bind];
    rewrite prun_now; destruct (clock σ) as [now1 σ1] eqn:Ek; apply clock_reads_at in Ek;
    rewrite prun_stmt; destruct (next σ1) as [sl1 σ2];
    pose proof (claim_event sl1 rec (leaseTTLMillis now1 rec) t Hr) as He1; cbv zeta in He1;
    set (e1 := stmt_event sl1 _ t) in *; clearbody e1; cbv zeta;
    (destruct He1 as [(a & -> & Hc)|[[-> Hq1]|(msg & Ha & Hc)]];
     [simpl; exists [], e1; split_and!; [done..|simpl; lia|by exists now1]| |
      rewrite Ha; simpl; exists [], e1; split_and!; [done..|simpl; lia|done|];
      right; split; [by exists msg|]; destruct Hc; [by left|right; by exists now1]]);
    change (negb (Is (sql_ErrNoRows : error) sql_ErrNoRows)) with false; cbn [pg_bind];
    rewrite prun_stmt; destruct (next σ2) as [sl2 σ3];
    pose proof (read_event sl2 (rec_Key rec) (ev_after e1) (qReserveExists (rec_Key rec))
      (or_introl eq_refl)) as [Hq2 He2];
    set (e2 := stmt_event sl2 _ (ev_after e1)) in *; clearbody e2; cbv zeta;
    destruct (ev_answer e2) as [[|st tok fp pl lm rm| | |]|err] eqn:Ha2; try done; simpl.
  all: try (destruct He2 as (old & Hl & He2); destruct (clock σ3) as [now2 σ4] eqn:Ek2;
    apply clock_reads_at in Ek2; destruct (He2 now2) as (ex & -> & Htell); simpl;
    exists [e1], e2; split_and!; [done|by constructor|simpl; lia|done|done|by exists old, now2]).
  all: destruct He2 as [[-> Hl]|[msg ->]];
    [|simpl; exists [e1], e2; split_and!; [done|by constructor|simpl; lia|done|];
      right; split; [by exists msg|by left]].
  - simpl. exists [e1], e2. split_and!; [done|by constructor|simpl; lia|done|]. left. by split_and!.
  - change (Is (sql_ErrNoRows : error) sql_ErrNoRows) with true. cbv iota.
    specialize (IH σ3 (ev_after e2)).
    destruct (prun (reserve_loop more rec) σ3 (ev_after e2)) as [[res σ5] tr].
    by apply reserve_outcome_retry.
Qed.

(** A compare-and-set operation: the command, and a classifying read when it
    affected no row. *)
Lemma cas_outcomes (s : stmt) (R : Z → content → content → Prop) (key tok op msg : bytes) (σ : Σ)
    (t : table) :
  (∀ sl t, cas_answer R key tok (stmt_event sl s t)) →
  let '(res, _, tr) := prun (res ← query s;
    match res with
    | inr err => mret (Some (Errorf_prefix_w msg err))
    | inl res => if RowsAffected res =? 1 then mret None else classifyFailure key tok op
    end) σ t in
  cas_outcome R key tok tr res.
Proof.
  intros Hs. unfold query, mbind, pg_mbind. cbn [pg_bind]. rewrite prun_stmt.
  destruct (next σ) as [sl σ1]. cbv zeta. specialize (Hs sl t).
  set (e := stmt_event sl s t) in *. clearbody e.
  destruct Hs as [[-> HR]|[(-> & Hq & Hn)|(txt & Ha & Hc)]].
  - simpl. by exists e.
  - change (RowsAffected (aAffected 0) =? 1) with false. cbv iota.
    unfold classifyFailure, query, mbind, pg_mbind. cbn [pg_bind]. rewrite prun_stmt.
    destruct (next σ1) as [sl2 σ2]. cbv zeta.
    pose proof (classify_answer sl2 key (ev_after e)) as [Hq2 He2].
    set (e2 := stmt_event sl2 _ _) in *. clearbody e2. cbv zeta in He2.
    destruct (ev_answer e2) as [[| |current| |]|err] eqn:Ha2; try done; simpl.
    + destruct He2 as (r & Hl & Hst & Ht). case_bool_decide as Hcur; simpl.
      * left. exists e, e2. split_and!; try done. right; left. split; [done|].
        intros (r' & Hl' & _ & Ht'). naive_solver.
      * left. exists e, e2. split_and!; try done. left. split; [done|]. exists r. naive_solver.
    + destruct He2 as [[-> Hno]|[txt ->]]; simpl; left; exists e, e2; split_and!; try done.
      * right; left. split; [done|]. intros (r & Hl & Hst & _). by eapply Hno.
      * right; right. split; [done|by exists txt].
  - rewrite Ha. simpl. right. exists e. split_and!; try done. by exists txt.
Qed.

Lemma get_outcomes key σ t :
  let '(res, _, tr) := prun (Get key) σ t in get_outcome clock key tr res.
Proof.
  unfold Get, query, mbind, pg_mbind. cbn [pg_bind]. rewrite prun_stmt.
  destruct (next σ) as [sl σ1]. cbv zeta.
  pose proof (read_event sl key t (qGet key) (or_intror eq_refl)) as [Hq He].
  set (e := stmt_event sl _ t) in *. clearbody e.
  destruct (ev_answer e) as [[|st tok fp pl lm rm| | |]|err] eqn:Ha; try done; simpl.
  - destruct He as (old & Hl & He). destruct (clock σ1) as [now1 σ2] eqn:Ek.
    apply clock_reads_at in Ek. destruct (He now1) as (ex & -> & Htell). simpl.
    exists e. split_and!; try done. by exists old, now1.
  - destruct He as [[-> Hl]|[msg ->]]; simpl; exists e; split_and!; try done. by exists msg.
Qed.
End histories.

(** ** The contract at one of the events *)

Lemma quiet_same (e : event) now : quiet e → after_of e ≡{now}≡ before_of e.
Proof. by unfold quiet; intros ->. Qed.

Lemma claimed_claims ms now rec m m' : claimed ms now rec m m' → claims now rec m m'.
Proof. intros [Hl (r' & d & ? & _ & _ & ?)]. by exists r'. Qed.

Lemma completed_completes ms now key tok payload m m' :
  completed_by ms now key tok payload m m' → completes now key tok payload m m'.
Proof.
  intros (old & (? & ? & ?)%cas_inl & r' & d & ? & _ & _ & ?). by exists old, Time.zero, r'.
Qed.

Lemma released_releases now key tok m m' : released now key tok m m' → releases now key tok m m'.
Proof. intros [[old (? & ? & ?)%cas_inl] ?]. by exists old. Qed.

Lemma reserve_linearizes {Σ} (clock : Σ → Time * Σ) more rec tr a :
  reserve_outcome clock more rec tr a →
  linearizes tr (λ e, reserve_post (now_of e) rec (before_of e) (after_of e) a.1 a.2).
Proof.
  intros (tr0 & e & -> & Hq & _ & Ha). apply linearizes_last; [done|]. unfold reserve_post.
  destruct a as [[ex|] [err|]]; simpl; try done.
  - destruct Ha as (-> & He & old & t & Hl & _ & Hid & _). left. split; [done|]. exists ex.
    split; [done|]. left. split; [by apply quiet_same|]. by exists old.
  - destruct Ha as [Hi Ha]. right. split; [done|].
    destruct Ha as [(_ & _ & He & _)|[_ [He|(t & _ & Hc)]]];
      [left; by apply quiet_same..|right; by eapply claimed_claims].
  - destruct Ha as (t & _ & Hc). split; [done|]. by eapply claimed_claims.
Qed.

(** The common shape of [complete_post] and [release_post]. *)
Lemma cas_linearizes (R R' : Z → content → content → Prop) key tok tr res :
  (∀ now m m', R now m m' → R' now m m') → cas_outcome R key tok tr res →
  linearizes tr (λ e, let now := now_of e in
    match res with
    | None => R' now (before_of e) (after_of e)
    | Some err =>
        (lease_lost_error err = true ∧
           ((after_of e ≡{now}≡ before_of e ∧ ∀ r, cas now key tok (before_of e) ≠ inl r) ∨
            R' now (before_of e) (after_of e)))
        ∨ (is_infra err = true ∧
             (after_of e ≡{now}≡ before_of e ∨ R' now (before_of e) (after_of e)))
    end).
Proof.
  intros HR. unfold cas_outcome. destruct res as [err|].
  - intros [(e1 & e2 & -> & H1 & H2 & Hn & Herr)|(e & -> & Hi & _ & He)].
    + apply linearizes_first; [|done].
      destruct Herr as [[-> _]|[[-> _]|[Hi _]]]; [left|left|right]; (split; [done|]); left;
        try (split; [|done]); by apply quiet_same.
    + apply (linearizes_last [] e); [done|]. right. split; [done|].
      destruct He; [left; by apply quiet_same|right; by apply HR].
  - intros (e & -> & He). apply (linearizes_last [] e); [done|]. by apply HR.
Qed.

Lemma get_linearizes {Σ} (clock : Σ → Time * Σ) key tr a :
  get_outcome clock key tr a →
  linearizes tr (λ e, get_post (now_of e) key (before_of e) (after_of e) a.1 a.2).
Proof.
  intros (e & -> & Hq & Ha). apply (linearizes_last [] e); [done|].
  split; [by apply quiet_same|]. destruct a as [[ex|] [err|]]; simpl; try done.
  destruct Ha as (old & t & Hl & _ & Hid & _). by exists old.
Qed.
