(* ===== verification/PgClaims.v ===== *)
(** * The guarantees of the PostgreSQL store

    The outcomes of the operations, the instance of the Store interface
    when no other client runs between the statements of one operation, the
    outcomes of CompleteTx, and Sweep. *)
From S2P Require Import Prelude GoLib Strconv Errors Record Store Effects Core Pgstore PgSpec.
Import Time.
Local Open Scope Z_scope.

Abbreviation before_of e := (records (pgstore.ev_before e)).
Abbreviation after_of e := (records (pgstore.ev_after e)).
Abbreviation now_of e := (pgstore.sl_now (pgstore.ev_slot e)).

(** C16. What every operation of pgstore comes to, statement by statement,
    whatever other clients do to the table between its statements, whatever
    the clocks say and whichever statements fail, before or after they were
    executed.  The claim of Reserve, the command of Complete and that of
    Release, each one statement, are the only statements that change the
    table, and an operation reports success exactly when its own had its
    effect: the key was free and now holds the caller's record until what was
    left of its lease when the clock was read; the caller's reservation, live
    under its token, is completed with the payload until the record TTL; or
    is gone.  ErrAlreadyExists comes with the live record read by the last
    statement, none having changed anything.  ErrTokenMismatch and
    ErrNotFound come from the second statement of Complete and Release, the
    first having changed nothing and found no reservation held under the
    token: the first sentinel exactly when the second statement saw a live
    reservation under another token, so that a key without a record, an
    expired one and a completed one, under whatever token, are all
    ErrNotFound.  Any other error is none of the package's sentinels, and is
    a failed statement or a claim lost three times to a record that was gone
    when it was read. *)
Theorem pg_operation_outcomes {Σ} (next : Σ → pgstore.slot * Σ) (clock : Σ → Time * Σ)
    (σ : Σ) (t : pgstore.table) :
  (∀ rec, reservation rec →
     let '(res, _, tr) := pgstore.prun next clock (pgstore.Reserve rec) σ t in
     reserve_outcome clock 2 rec tr res) ∧
  (∀ key tok payload ttl,
     let '(res, _, tr) := pgstore.prun next clock (pgstore.Complete key tok payload ttl) σ t in
     cas_outcome (λ now, completed_by (pgstore.recordTTLMillis ttl) now key tok payload)
       key tok tr res) ∧
  (∀ key tok,
     let '(res, _, tr) := pgstore.prun next clock (pgstore.Release key tok) σ t in
     cas_outcome (λ now, released now key tok) key tok tr res) ∧
  (∀ key,
     let '(res, _, tr) := pgstore.prun next clock (pgstore.Get key) σ t in
     get_outcome clock key tr res).
Proof.
  split_and!.
  - intros rec. apply (reserve_outcomes next clock rec 2).
  - intros *. apply (cas_outcomes next clock). intros *. apply complete_event.
  - intros *. apply (cas_outcomes next clock). intros *. apply release_event.
  - intros *. apply get_outcomes.
Qed.

(** ** One client at a time *)

(** The table and what is still to come: failures of statements and skews
    of the clock readings. *)
Record conn := mkConn {
  c_table : pgstore.table;
  c_faults : list (option (bool * bytes));
  c_skews : list Z;
}.

Definition server_us (i : Instant) : Z := srv_clock i / 1000.

Abbreviation schedule := (list (option (bool * bytes)) * list Z)%type.

(** No operation of the Store interface sweeps. *)
Definition plan_alone : pgstore.plan := pgstore.mkPlan [] id (λ _, true).

(** No one between the statements, all of them at one server instant. *)
Definition next_alone (i : Instant) (σ : schedule) : pgstore.slot * schedule :=
  (pgstore.mkSlot id (server_us i) plan_alone (match σ.1 with f :: _ => f | [] => None end),
   (tail σ.1, σ.2)).

Definition clock_alone (i : Instant) (σ : schedule) : Time * schedule :=
  (app_clock i + match σ.2 with d :: _ => d | [] => 0 end, (σ.1, tail σ.2)).

Definition run_alone {A} (i : Instant) (p : pgstore.pg_prog A) (c : conn) : conn * A :=
  let '(a, (σ, t), _) := pgstore.prun (next_alone i) (clock_alone i) p (c_faults c, c_skews c) (c_table c) in
  (mkConn t σ.1 σ.2, a).

#[global] Instance pg_Store : Store conn := {
  Reserve i r := run_alone i (pgstore.Reserve r);
  Complete i key tok payload ttl := run_alone i (pgstore.Complete key tok payload ttl);
  Release i key tok := run_alone i (pgstore.Release key tok);
  Get i key := run_alone i (pgstore.Get key);
}.

(** The events of an undisturbed run join the table before to the one after. *)
Fixpoint linked (now : Z) (t : pgstore.table) (tr : list pgstore.event) (t' : pgstore.table) : Prop :=
  match tr with
  | [] => t = t'
  | e :: tr => pgstore.ev_before e = t ∧ now_of e = now ∧ linked now (pgstore.ev_after e) tr t'
  end.

Lemma prun_linked {A} i (p : pgstore.pg_prog A) σ t :
  let '(_, (_, t'), tr) := pgstore.prun (next_alone i) (clock_alone i) p σ t in
  linked (server_us i) t tr t'.
Proof.
  revert σ t. induction p as [a|k IH|s k IH]; intros σ t; simpl; [done|apply IH|].
  destruct (pgstore.run_stmt _ s t) as [t1 x].
  specialize (IH x (tail σ.1, σ.2) t1).
  destruct (pgstore.prun _ _ (k x) _ t1) as [[a [σ' t']] tr]. simpl. by split_and!.
Qed.

Lemma linked_quiet (now : Z) (t : pgstore.table) (tr : list pgstore.event) (t' : pgstore.table) : linked now t tr t' → Forall quiet tr → t = t'.
Proof.
  intros Hl Hq. revert t Hl. induction Hq as [|e tr He Htr IH]; intros t; simpl; [done|].
  intros (<- & _ & Hl). rewrite <-He. by apply IH.
Qed.

Lemma linked_linearizes (now : Z) (t : pgstore.table) (tr : list pgstore.event) (t' : pgstore.table) (post : Z → content → content → Prop) :
  linked now t tr t' →
  linearizes tr (λ e, post (now_of e) (before_of e) (after_of e)) →
  post now (records t) (records t').
Proof.
  intros Hl (tr1 & e & tr2 & -> & H1 & H2 & Hp). revert t Hl. induction H1 as [|e1 tr1 He1 _ IH].
  - intros t (<- & <- & Hl). by rewrite <-(linked_quiet _ _ _ _ Hl H2).
  - intros t (<- & _ & Hl). rewrite <-He1. by apply IH.
Qed.

Lemma run_alone_post {A} (i : Instant) (p : pgstore.pg_prog A) (c c' : conn) (a : A)
    (post : A → Z → content → content → Prop) :
  (let '(res, _, tr) := pgstore.prun (next_alone i) (clock_alone i) p (c_faults c, c_skews c)
                          (c_table c) in
   linearizes tr (λ e, post res (now_of e) (before_of e) (after_of e))) →
  run_alone i p c = (c', a) →
  post a (server_us i) (records (c_table c)) (records (c_table c')).
Proof.
  unfold run_alone. pose proof (prun_linked i p (c_faults c, c_skews c) (c_table c)) as Hl.
  destruct (pgstore.prun _ _ p _ _) as [[res [σ t']] tr]. intros Hp [= <- <-]. simpl.
  exact (linked_linearizes _ _ _ _ (post res) Hl Hp).
Qed.

Lemma outcome_impl {A} i (p : pgstore.pg_prog A) σ t (P Q : A → list pgstore.event → Prop) :
  (let '(res, _, tr) := pgstore.prun (next_alone i) (clock_alone i) p σ t in P res tr) →
  (∀ res tr, P res tr → Q res tr) →
  let '(res, _, tr) := pgstore.prun (next_alone i) (clock_alone i) p σ t in Q res tr.
Proof. destruct (pgstore.prun _ _ _ _ _) as [[res σ'] tr]. auto. Qed.

#[global, refine] Instance pg_contract : StoreContract conn := {
  authority := server_us;
  abs c := records (c_table c);
}.
Proof.
  - intros i i' _ Hs. unfold server_us. by apply Z.div_le_mono.
  - intros i r c c' ex err Hr.
    apply (run_alone_post i _ c c' (ex, err)
      (λ res now m m', reserve_post now r m m' res.1 res.2)).
    eapply outcome_impl; [by apply (reserve_outcomes _ _ r 2)|].
    intros res tr. apply reserve_linearizes.
  - intros i key tok payload ttl c c' err.
    apply (run_alone_post i _ c c' err
      (λ res now m m', complete_post now key tok payload m m' res)).
    eapply outcome_impl.
    { apply (cas_outcomes _ _ _
        (λ now, completed_by (pgstore.recordTTLMillis ttl) now key tok payload) key tok).
      intros *. apply complete_event. }
    intros res tr. apply (cas_linearizes _ (λ now, completes now key tok payload)).
    intros *. apply completed_completes.
  - intros i key tok c c' err.
    apply (run_alone_post i _ c c' err (λ res now m m', release_post now key tok m m' res)).
    eapply outcome_impl.
    { apply (cas_outcomes _ _ _ (λ now, released now key tok) key tok).
      intros *. apply release_event. }
    intros res tr. apply (cas_linearizes _ (λ now, releases now key tok)).
    intros *. apply released_releases.
  - intros i key c c' ex err.
    apply (run_alone_post i _ c c' (ex, err)
      (λ res now m m', get_post now key m m' res.1 res.2)).
    eapply outcome_impl; [apply get_outcomes|]. intros res tr. apply get_linearizes.
Defined.

(** ** CompleteTx *)

Lemma classify_tx_event (sl : pgstore.slot) (key tok : bytes) (t : pgstore.table) :
  let e := stmt_event sl (pgstore.qClassifyTx key) t in
  quiet e ∧
  match pgstore.ev_answer e with
  | inl (pgstore.aState st current) =>
      ∃ r, live (now_of e) (before_of e) key = Some r ∧
        ((st =? pgstore.stateCompleted) && bool_decide (current = tok) = true ↔
         rec_State r = StateCompleted ∧ rec_Token r = tok)
  | inl _ => False
  | inr err => err = (sql_ErrNoRows : error) ∧ live (now_of e) (before_of e) key = None ∨
      ∃ msg, err = errText msg
  end.
Proof.
  cbv zeta. split; [apply classify_event; eauto|].
  pose proof (stmt_event_cases sl (pgstore.qClassifyTx key) t) as Hc. cbv zeta in Hc.
  assert (pgstore.ev_slot (stmt_event sl (pgstore.qClassifyTx key) t) = sl) as Hsl by done.
  set (e := stmt_event sl _ t) in *. clearbody e.
  destruct Hc as [(err & -> & [msg ->] & _)|Hc]; [by right; exists msg|].
  simpl in Hc. unfold pgstore.sql_classify_tx in Hc. injection Hc as _ <-.
  rewrite live_records. destruct (pgstore.ev_before e !! key) as [r|]; [|by left].
  destruct (pgstore.live_row (now_of e) r) eqn:Hl; [|by left].
  eexists. split; [done|]. rewrite andb_true_iff, bool_decide_eq_true, Z.eqb_eq.
  unfold pgstore.live_row, pgstore.after_now, record_of, pgstore.stateReserved,
    pgstore.stateCompleted in *. cbn [rec_State rec_Token].
  destruct (Z.eqb_spec (r.(pgstore.r_state)) 1) as [Hs|Hs].
  { rewrite Hs. naive_solver. }
  destruct (Z.eqb_spec (r.(pgstore.r_state)) 2) as [Hs2|Hs2]; [|done].
  destruct (pgstore.r_record_expires_at r); naive_solver.
Qed.

(** C21. CompleteTx, under any scheduler.  (false, nil): one command, which
    completed the caller's own live reservation.  (true, nil): nothing was
    changed, the reservation was not held when the command ran, and the key
    does not show a record completed under the caller's token.
    (false, ErrAlreadyCompleted): nothing was changed by this call, and the
    key shows the record completed under the caller's token.  Any other
    error is a failure of the database; a lost lease never comes with an
    error. *)
Theorem complete_tx_outcomes {Σ} (next : Σ → pgstore.slot * Σ) (clock : Σ → Time * Σ)
    (key tok payload : bytes) (ttl : Duration) (σ : Σ) (t : pgstore.table) :
  let '((lost, err), _, tr) := pgstore.prun next clock (pgstore.CompleteTx key tok payload ttl) σ t in
  let not_held e := ∀ r, cas (now_of e) key tok (before_of e) ≠ inl r in
  let own r := rec_State r = StateCompleted ∧ rec_Token r = tok in
  match lost, err with
  | false, None => ∃ e, tr = [e] ∧ completes (now_of e) key tok payload (before_of e) (after_of e)
  | true, None => ∃ e1 e2, tr = [e1; e2] ∧ quiet e1 ∧ quiet e2 ∧ not_held e1 ∧
      ∀ r, live (now_of e2) (before_of e2) key = Some r → ¬ own r
  | false, Some err =>
      err = (ErrAlreadyCompleted : error) ∧
        (∃ e1 e2, tr = [e1; e2] ∧ quiet e1 ∧ quiet e2 ∧ not_held e1 ∧
           ∃ r, live (now_of e2) (before_of e2) key = Some r ∧ own r) ∨
      is_infra err = true ∧ Is err ErrAlreadyCompleted = false
  | true, Some _ => False
  end.
Proof.
  unfold pgstore.CompleteTx, pgstore.query, mbind, pgstore.pg_mbind. cbn [pgstore.pg_bind].
  rewrite prun_stmt. destruct (next σ) as [sl1 σ1]. cbv zeta.
  pose proof (complete_event sl1 key tok payload (pgstore.recordTTLMillis ttl) t) as He1.
  set (e1 := stmt_event sl1 _ t) in *. clearbody e1.
  destruct He1 as [[-> HR]|[(-> & Hq1 & Hn)|(txt & -> & Hc)]];
    [exists e1; split; [done|by eapply completed_completes]| |by right].
  change (pgstore.RowsAffected (pgstore.aAffected 0) =? 1) with false. cbv iota.
  rewrite prun_stmt. destruct (next σ1) as [sl2 σ2]. cbv zeta.
  pose proof (classify_tx_event sl2 key tok (pgstore.ev_after e1)) as [Hq2 He2].
  set (e2 := stmt_event sl2 _ _) in *. clearbody e2.
  destruct (pgstore.ev_answer e2) as [[| | |st current|]|err]; try done; simpl.
  - destruct He2 as (r & Hl & Hown). destruct (_ && _).
    + left. split; [done|]. exists e1, e2. naive_solver.
    + exists e1, e2. naive_solver congruence.
  - destruct He2 as [[-> Hl]|[msg ->]]; simpl; [|by right].
    exists e1, e2. naive_solver congruence.
Qed.

(** ** Sweep *)

Lemma foldr_delete_records (now : Z) (t : pgstore.table) (l : list bytes) :
  Forall (λ k, live now (records t) k = None) l → records (foldr delete t l) ≡{now}≡ records t.
Proof.
  induction 1 as [|k l Hk _ IH]; simpl; [done|]. rewrite records_delete, delete_expired; [done|].
  by rewrite (IH now).
Qed.

Lemma foldr_delete_other (t : pgstore.table) (l : list bytes) k :
  k ∉ l → foldr delete t l !! k = t !! k.
Proof.
  induction l as [|k' l IH]; simpl; [done|]. intros [? ?]%not_elem_of_cons.
  rewrite lookup_delete_ne by done. by apply IH.
Qed.

Lemma take_all_or_limit {A} n (l : list A) : (length (take n l) < n)%nat → take n l = l.
Proof. rewrite length_take. intros. apply take_ge. lia. Qed.

Lemma filter_all {A} (P : A → Prop) `{∀ x, base.Decision (P x)} (l : list A) :
  Forall P l → filter P l = l.
Proof. induction 1 as [|x l Hx _ IH]; [done|]. by rewrite filter_cons_True, IH. Qed.

(** What the deletion did, [b] being the table of the sub-select: each key
    that is gone held a row that had expired then, and was deleted from the
    table [m] the deletion met, as the sub-select saw it or rechecked.  When
    nothing was changed in between, a count below the limit means that every
    expired row of the scan is gone. *)
Definition swept (now limit : Z) (p : pgstore.plan) (b after : pgstore.table)
    (gone : list bytes) : Prop :=
  let m := pgstore.pl_meanwhile p b in
  after = foldr delete m gone ∧ NoDup gone ∧ Z.of_nat (length gone) ≤ limit ∧
  (∀ k, k ∈ gone → ∃ old cur, b !! k = Some old ∧ pgstore.expired_row now old = true ∧
     m !! k = Some cur ∧ (cur = old ∨ pgstore.pl_rechecks p k = true)) ∧
  (m = b → Z.of_nat (length gone) < limit → ∀ k r, k ∈ pgstore.pl_scan p →
     b !! k = Some r → pgstore.expired_row now r = true → k ∈ gone).

Lemma sql_sweep_swept now p limit b :
  pgstore.sql_sweep now p limit b = (b, inr (errText (bs "LIMIT must not be negative"))) ∨
  ∃ gone, swept now limit p b (pgstore.sql_sweep now p limit b).1 gone ∧
    (pgstore.sql_sweep now p limit b).2 = inl (pgstore.aAffected (Z.of_nat (length gone))).
Proof.
  unfold pgstore.sql_sweep. destruct (Z.ltb_spec limit 0) as [|Hlim]; [by left|]. right.
  set (expired := λ k, match b !! k with Some r => pgstore.expired_row now r | None => false end).
  set (m := pgstore.pl_meanwhile p b).
  set (deleted := λ k, match m !! k with
    | Some r => bool_decide (b !! k = Some r) || pgstore.pl_rechecks p k | None => false end).
  set (all := filter (λ k, expired k = true) (remove_dups (pgstore.pl_scan p))).
  exists (filter (λ k, deleted k = true) (take (Z.to_nat limit) all)). split; [|done].
  assert (∀ k, k ∈ take (Z.to_nat limit) all →
    ∃ old, b !! k = Some old ∧ pgstore.expired_row now old = true) as Hall.
  { intros k Hk. eapply elem_of_sublist in Hk; [|apply sublist_take].
    apply list_elem_of_filter in Hk as [Hk _]. unfold expired in Hk.
    destruct (b !! k) as [r|]; [by exists r|done]. }
  pose proof (length_take all (Z.to_nat limit)).
  pose proof (length_filter (λ k, deleted k = true) (take (Z.to_nat limit) all)).
  split; [done|]. split; [|split; [lia|split]].
  - apply NoDup_filter. eapply sublist_NoDup; [|apply sublist_take].
    apply NoDup_filter, NoDup_remove_dups.
  - intros k [Hd Hk]%list_elem_of_filter. destruct (Hall k Hk) as (old & Hold & Hx).
    unfold deleted in Hd. fold m. destruct (m !! k) as [cur|]; [|done]. exists old, cur.
    split_and!; try done. apply orb_true_iff in Hd as [Hd|Hd]; [left|by right].
    apply bool_decide_eq_true in Hd. congruence.
  - fold m. intros Hm Hlen k r Hk Hr Hx.
    assert (filter (λ k, deleted k = true) (take (Z.to_nat limit) all) = take (Z.to_nat limit) all)
      as Hkept.
    { apply filter_all, Forall_forall. intros k' Hk'. destruct (Hall k' Hk') as (old & Ho & _).
      unfold deleted. by rewrite Hm, Ho, bool_decide_eq_true_2. }
    rewrite Hkept in *. rewrite (take_all_or_limit (Z.to_nat limit) all) by lia. apply list_elem_of_filter. unfold expired. rewrite Hr.
    split; [done|]. by apply elem_of_remove_dups.
Qed.

(** A live record is lost only if its row was changed between the sub-select
    and the deletion. *)
Lemma swept_live now limit p b after gone :
  swept now limit p b after gone →
  let m := pgstore.pl_meanwhile p b in
  (∀ k r, live now (records m) k = Some r →
     live now (records after) k = Some r ∨
     k ∈ gone ∧ m !! k ≠ b !! k ∧ pgstore.pl_rechecks p k = true) ∧
  (m = b → records after ≡{now}≡ records b).
Proof.
  intros (-> & _ & _ & Hg & _) m. fold m. split.
  - intros k r Hl. destruct (decide (k ∈ gone)) as [Hk|Hk].
    + right. split; [done|]. destruct (Hg k Hk) as (old & cur & Hb & Hx & Hm & Hc).
      fold m in Hm. rewrite live_records, Hm in Hl.
      destruct (pgstore.live_row now cur) eqn:Hlc; [|done]. apply expired_not_live in Hx.
      destruct Hc as [->|?]; [congruence|]. split; [|done]. rewrite Hm, Hb. congruence.
    + left. rewrite live_records, foldr_delete_other by done. by rewrite <-live_records.
  - intros Hm. rewrite Hm. apply foldr_delete_records, Forall_forall. intros k Hk.
    destruct (Hg k Hk) as (old & _ & Hb & Hx & _). rewrite live_records, Hb.
    by rewrite expired_not_live.
Qed.

(** C26. Sweep, under any scheduler, fault and scan order.  It is one
    command, whose sub-select and deletion see two tables, others committing
    in between.  Either it failed and changed nothing, or it deleted, from
    the table its deletion met, distinct keys that had an expired row when
    the sub-select ran, no more than the limit, and no other: that many rows
    are reported unless the answer was lost.  A record that is live when the
    deletion runs is lost only if its row was changed since the sub-select
    saw it and passed the recheck; so nothing live is lost when no one wrote
    in between, and then a count below the limit means that every expired
    row of the scan is gone. *)
Theorem sweep_outcome {Σ} (next : Σ → pgstore.slot * Σ) (clock : Σ → Time * Σ)
    (limit : Z) (σ : Σ) (t : pgstore.table) :
  let '((n, err), _, tr) := pgstore.prun next clock (pgstore.Sweep limit) σ t in
  ∃ e, tr = [e] ∧
    let p := pgstore.sl_plan (pgstore.ev_slot e) in
    let b := pgstore.ev_before e in
    let m := pgstore.pl_meanwhile p b in
    (err ≠ None ∧ n = 0 ∧ quiet e) ∨
    ∃ gone, swept (now_of e) limit p b (pgstore.ev_after e) gone ∧
      n = match err with Some _ => 0 | None => Z.of_nat (length gone) end ∧
      (∀ k r, live (now_of e) (records m) k = Some r →
         live (now_of e) (after_of e) k = Some r ∨
         k ∈ gone ∧ m !! k ≠ b !! k ∧ pgstore.pl_rechecks p k = true) ∧
      (m = b → after_of e ≡{now_of e}≡ before_of e).
Proof.
  unfold pgstore.Sweep, pgstore.query, mbind, pgstore.pg_mbind. cbn [pgstore.pg_bind].
  rewrite prun_stmt. destruct (next σ) as [sl σ1]. cbv zeta.
  pose proof (stmt_event_cases sl (pgstore.qSweep limit) t) as Hc. cbv zeta in Hc.
  assert (pgstore.ev_slot (stmt_event sl (pgstore.qSweep limit) t) = sl ∧
          pgstore.ev_stmt (stmt_event sl (pgstore.qSweep limit) t) = pgstore.qSweep limit)
    as [Hsl Hst] by done.
  set (e := stmt_event sl _ t) in *. clearbody e. subst sl. unfold failed, quiet in *.
  rewrite Hst in Hc. cbn [pgstore.exec] in Hc.
  pose proof (sql_sweep_swept (now_of e) (pgstore.sl_plan (pgstore.ev_slot e)) limit
    (pgstore.ev_before e)) as Hs.
  destruct Hc as [(err & -> & [msg ->] & Hq)|Hc].
  - simpl. exists e. split; [done|]. destruct Hq as [Hq|Hq]; [by left|].
    destruct Hs as [Hs|(gone & Hs & _)]; [left; by rewrite Hs in Hq|].
    right. exists gone. rewrite <-Hq in Hs. by destruct (swept_live _ _ _ _ _ _ Hs).
  - rewrite Hc in Hs. simpl in Hs.
    destruct Hs as [[= Hq ->]|(gone & Hs & ->)]; simpl; exists e; (split; [done|]); [by left|].
    right. exists gone. by destruct (swept_live _ _ _ _ _ _ Hs).
Qed.

(** The live record may be lost: a key whose reservation expired is claimed
    again between Sweep's sub-select and its deletion, and the new
    reservation is deleted, so that the next request runs as well. *)
Example sweep_may_delete_live :
  let key := bs "k" in
  let stale := pgstore.mkRow 1 (bs "old") [] None 5 None 0 in
  let other t := (pgstore.sql_reserve 10 key (bs "new") [] 60000 t).1 in
  let p := pgstore.mkPlan [key] other (λ _, true) in
  let next (σ : unit) := (pgstore.mkSlot id 10 p None, σ) in
  let t := <[key := stale]> ∅ in
  let '(res, (_, t'), _) := pgstore.prun next (λ σ, (0, σ)) (pgstore.Sweep 100) () t in
  (rec_Token <$> live 10 (records (other t)) key) = Some (bs "new") ∧
  res = (1, None) ∧ live 10 (records t') key = None.
Proof. by vm_compute. Qed.
