(* ===== verification/Grpc.v ===== *)
(** * The gRPC and protobuf runtimes

    google.golang.org/grpc and google.golang.org/protobuf are not part of
    the repository: they are interfaces here, with the documented behaviour
    the sources rely on as laws.  A concrete instance for the examples is
    at the end. *)
From S2P Require Import Prelude GoLib Errors Effects.

(** ** protobuf *)

(** What is called on a [proto.Message] and on the global type registry:
    [ProtoReflect().Descriptor().FullName()], [ProtoReflect().IsValid()],
    [MarshalOptions{Deterministic: true}.Marshal],
    [protoregistry.GlobalTypes.FindMessageByName], [mt.New().Interface()]
    and [proto.Unmarshal] into a given message. *)
Class Proto (M : Type) := {
  MessageType : Type;
  FullName : M → bytes;
  IsValid : M → bool;
  Marshal : M → bytes + error;
  FindMessageByName : bytes → MessageType + error;
  New : MessageType → M;
  Unmarshal : bytes → M → M + error;
}.

(** Marshaling a valid message and unmarshaling the bytes into a fresh
    message of its type gives an equal message ([proto.Equal]). *)
Class ProtoLaws (M : Type) `{Proto M} := {
  proto_Equal : M → M → Prop;
  Unmarshal_Marshal m b mt :
    IsValid m = true → Marshal m = inl b → FindMessageByName (FullName m) = inl mt →
    ∃ m', Unmarshal b (New mt) = inl m' ∧ proto_Equal m' m;
}.

(** A value of type [any]: nil, a value that implements [proto.Message]
    (a typed nil pointer included), or one of another type, of which only
    the name matters. *)
Inductive any (M : Type) := any_nil | any_msg (m : M) | any_other (type_name : bytes).
Arguments any_nil {M}.
Arguments any_msg {M} _.
Arguments any_other {M} _.

(** ** Status errors and calls *)

(** [codes.Code]. *)
Definition Code : Set := Z.
Definition InvalidArgument : Code := 3%Z.
Definition FailedPrecondition : Code := 9%Z.
Definition Aborted : Code := 10%Z.
Definition Internal : Code := 13%Z.
Definition Unavailable : Code := 14%Z.

(** An error a call returns: a status, or any other error. *)
Inductive rpc_error := StatusError (code : Code) (msg : bytes) | OtherError (e : error).

(** How a unary handler ends. *)
Inductive result (M : Type) := Return (resp : any M) (err : option rpc_error) | Panic (v : bytes).
Arguments Return {M} _ _.
Arguments Panic {M} _.

(** The context of a call: the incoming metadata with its case-insensitive
    lookup ([metadata.FromIncomingContext], [md.Get]), and
    [grpc.SetHeader], which writes to the server transport stream [T]. *)
Class GrpcContext (C T : Type) := {
  MD : Type;
  FromIncomingContext : C → option MD;
  MD_Get : bytes → MD → list bytes;
  SetHeader : C → list (bytes * bytes) → T → T * option error;
}.

(** [grpc.UnaryHandler]: arbitrary code that may use the store and the
    stream. *)
Definition UnaryHandler (M C T : Type) : Type := C → any M → T → prog (T * result M).

(** ** An instance

    Messages of three registered string-valued types. *)
Module ExampleGrpc.

Record msg := mkMsg { msg_type : bytes; msg_valid : bool; msg_value : bytes }.

Definition registry : list bytes := [bs "pay.v1.Charge"; bs "pay.v1.Receipt"].

#[export] Instance msg_proto : Proto msg := {
  MessageType := bytes;
  FullName := msg_type;
  IsValid := msg_valid;
  Marshal m := inl (msg_value m);
  FindMessageByName n :=
    if bool_decide (n ∈ registry) then inl n else inr (errText (bs "proto: not found"));
  New t := mkMsg t true [];
  Unmarshal b m := inl (mkMsg (msg_type m) (msg_valid m) b);
}.

#[export] Program Instance msg_laws : ProtoLaws msg := {
  proto_Equal := eq;
}.
Next Obligation.
  intros m b mt Hv [= <-] Hf. simpl in *. case_bool_decide; simplify_eq.
  eexists. split; [done|]. destruct m; simpl in *. by subst.
Qed.

(** Contexts are their metadata, streams the header pairs sent. *)
Abbreviation ctx := (option (gmap bytes (list bytes))).
Abbreviation stream := (list (bytes * bytes)).

#[export] Instance example_context : GrpcContext ctx stream := {
  MD := gmap bytes (list bytes);
  FromIncomingContext c := c;
  MD_Get k md := default [] (md !! map lower_byte k);
  SetHeader _ kvs t := (t ++ kvs, None);
}.

End ExampleGrpc.
