(* ===== verification/Grpcidem.v ===== *)
(** * The gRPC interceptor (grpcidem/grpcidem.go, grpcidem/policy.go)

    The interceptor as a program over the store: the key from the metadata,
    the fingerprint of the marshaled request, Begin, the handler, Finish,
    and the encoding of a response message with its type name. *)
From S2P Require Import Prelude GoLib Strconv Errors Record Store Effects Core Fingerprint.
From S2P Require Import Varint Key Grpc.
Import Time.

Module grpcidem.

Definition MetadataKey : bytes := bs "idempotency-key".
Definition ReplayedMetadataKey : bytes := bs "idempotency-replayed".
Definition payloadVersion : byte := x01.

(** type ReplayPolicy *)
Definition ReplayPolicy : Type := option rpc_error → Decision.

Definition defaultDecide : ReplayPolicy := λ err,
  match err with None => Persist | Some _ => Discard end.
Definition DefaultPolicy : ReplayPolicy := defaultDecide.

(** type config; the logger is the log of the world. *)
Record config (C : Type) := mkConfig {
  require : bool;
  leaseTTL : Duration;
  recordTTL : Duration;
  policy : ReplayPolicy;
  failOpen : bool;
  keyScope : option (C → bytes);
  keyValid : option (bytes → bool);
}.
Arguments mkConfig {C} _ _ _ _ _ _ _.
Arguments require {C} _.
Arguments leaseTTL {C} _.
Arguments recordTTL {C} _.
Arguments policy {C} _.
Arguments failOpen {C} _.
Arguments keyScope {C} _.
Arguments keyValid {C} _.

Section options.
Context {C : Type}.

(** type Option *)
Definition Option : Type := config C → config C.

Definition Require (v : bool) : Option := λ c,
  mkConfig v (leaseTTL c) (recordTTL c) (policy c) (failOpen c) (keyScope c) (keyValid c).
Definition LeaseTTL (d : Duration) : Option := λ c,
  mkConfig (require c) d (recordTTL c) (policy c) (failOpen c) (keyScope c) (keyValid c).
Definition RecordTTL (d : Duration) : Option := λ c,
  mkConfig (require c) (leaseTTL c) d (policy c) (failOpen c) (keyScope c) (keyValid c).
Definition Policy (p : ReplayPolicy) : Option := λ c,
  mkConfig (require c) (leaseTTL c) (recordTTL c) p (failOpen c) (keyScope c) (keyValid c).
Definition FailOpen (v : bool) : Option := λ c,
  mkConfig (require c) (leaseTTL c) (recordTTL c) (policy c) v (keyScope c) (keyValid c).
Definition KeyScope (fn : C → bytes) : Option := λ c,
  mkConfig (require c) (leaseTTL c) (recordTTL c) (policy c) (failOpen c) (Some fn) (keyValid c).
Definition KeyValidator (fn : bytes → bool) : Option := λ c,
  mkConfig (require c) (leaseTTL c) (recordTTL c) (policy c) (failOpen c) (keyScope c) (Some fn).

Definition default_config : config C := mkConfig false 0%Z 0%Z DefaultPolicy false None None.

(** The configuration UnaryServerInterceptor builds from its options. *)
Definition configure (opts : list Option) : config C := foldl (λ c o, o c) default_config opts.
End options.

(** ** Keys and fingerprints *)

Definition err_key_length (n : nat) : error :=
  errText (bs "grpcidem: idempotency key is " ++ FormatInt (Z.of_nat n) ++ bs " bytes, want 1-255").
Definition err_key_control (c : byte) : error :=
  errText (bs "grpcidem: idempotency key has control byte 0x" ++ HEX_byte c).
Definition err_many_keys (n : nat) : error :=
  errText (bs "grpcidem: " ++ FormatInt (Z.of_nat n) ++ bs " idempotency-key entries, want exactly 1").

Definition validateKey (k : bytes) : bytes + error :=
  if bool_decide (length k = 0) || (255 <? Z.of_nat (length k))%Z then inr (err_key_length (length k))
  else match find is_control k with
       | Some c => inr (err_key_control c)
       | None => inl k
       end.

Definition fingerprint (fullMethod reqBytes : bytes) : bytes :=
  let h := sha256_New in
  let h := hash_Write h fullMethod in
  let h := hash_Write h [x0a] in
  let h := hash_Write h reqBytes in
  hash_Sum h.

Definition retryAfter (d : Duration) : Duration :=
  if (d <? Second)%Z then Second else Round d Second.

(** ** Payloads *)

Definition err_version : error := errText (bs "grpcidem: unsupported stored payload version").
Definition err_corrupted : error := errText (bs "grpcidem: corrupted stored payload").
(** The name is shown as it is, without the quoting of [%q]. *)
Definition err_not_registered (name : bytes) (e : error) : error :=
  Errorf_prefix_w (bs "grpcidem: response type " ++ name ++ bs " not found in the proto registry: ") e.
Definition err_unmarshaling (e : error) : error :=
  Errorf_prefix_w (bs "grpcidem: unmarshaling stored response: ") e.

Section payload.
Context {M : Type} `{Proto M}.

Definition encodePayload (msg : M) : bytes + error :=
  let name := FullName msg in
  match Marshal msg with
  | inr err => inr err
  | inl body =>
      let buf := [payloadVersion] in
      let buf := AppendUvarint buf (u64 (Z.of_nat (length name))) in
      let buf := buf ++ name in
      inl (buf ++ body)
  end.

Definition decodePayload (data : bytes) : M + error :=
  match data with
  | [] => inr err_version
  | v :: rest =>
      if negb (bool_decide (v = payloadVersion)) then inr err_version else
      let '(n, adv) := Uvarint rest in
      if (adv <=? 0)%Z || (u64 (Z.of_nat (length rest) - adv) <? n)%Z then inr err_corrupted else
      let adv := Z.to_nat adv in
      let name := take (Z.to_nat n) (drop adv rest) in
      let body := drop (adv + Z.to_nat n) rest in
      match FindMessageByName name with
      | inr err => inr (err_not_registered name err)
      | inl mt =>
          match Unmarshal body (New mt) with
          | inr err => inr (err_unmarshaling err)
          | inl msg => inl msg
          end
      end
  end.
End payload.

(** ** The interceptor *)

Section interceptor.
Context {M C T : Type} `{Proto M, GrpcContext C T}.

Definition keyFromContext (ctx : C) : bytes + error :=
  match FromIncomingContext (T:=T) ctx with
  | None => inr (grpcidem_errKeyMissing : error)
  | Some md =>
      match MD_Get MetadataKey md with
      | [] => inr (grpcidem_errKeyMissing : error)
      | [v] => validateKey v
      | vals => inr (err_many_keys (length vals))
      end
  end.

Definition keyAttrs (scope key : bytes) : list (bytes * bytes) :=
  (bs "idempotency_key", key) ::
  (if negb (bool_decide (scope = [])) then [(bs "idempotency_scope", scope)] else []).

(** [if ferr != nil { cfg.logger.Warn(msg, ..., error) }]. *)
Definition warn_if (scope key : bytes) (msg : string) (ferr : option error) : prog () :=
  match ferr with
  | Some ferr => Warn msg (keyAttrs scope key ++ error_attr ferr)
  | None => mret ()
  end.

Definition replay (ctx : C) (scope key payload : bytes) (t : T) : prog (T * result M) :=
  match decodePayload payload with
  | inr err =>
      _ ← LogError "grpcidem: stored response payload is corrupted"
            (keyAttrs scope key ++ error_attr err);
      mret (t, Return any_nil (Some (StatusError Internal (bs "grpcidem: corrupted stored response"))))
  | inl msg =>
      let '(t, _) := SetHeader ctx [(ReplayedMetadataKey, bs "true")] t in
      mret (t, Return (any_msg msg) None)
  end.

Definition payloadToPersist (cfg : config C) (resp : any M) (herr : option rpc_error)
    (scope key : bytes) : prog (option bytes) :=
  if negb (bool_decide (herr = None)) || negb (bool_decide (policy cfg herr = Persist))
  then mret None else
  match resp with
  | any_msg respMsg =>
      if negb (IsValid respMsg) then mret None else
      match encodePayload respMsg with
      | inr err =>
          _ ← Warn "grpcidem: encoding response failed; discarding"
                (keyAttrs scope key ++ error_attr err);
          mret None
      | inl payload => mret (Some payload)
      end
  | _ => mret None
  end.

Definition reportFinish (scope key : bytes) (leaseLost : bool) (ferr : option error)
    (storeKey token : bytes) (o : Options) : prog () :=
  match ferr with
  | Some ferr =>
      _ ← Warn "grpcidem: persisting response failed; idempotency temporarily weakened"
            (keyAttrs scope key ++ error_attr ferr);
      '(_, rerr) ← Finish storeKey token Discard [] o;
      warn_if scope key "grpcidem: best-effort release failed; key stays reserved until lease expiry" rerr
  | None =>
      if leaseLost then
        Warn "grpcidem: lease lost during execution; response returned but not stored for replay"
          (keyAttrs scope key ++ [(bs "event", bs "lease_lost")])
      else mret ()
  end.

(** The deferred recovery is the [Panic] branch. *)
Definition runHandler (cfg : config C) (ctx : C) (req : any M) (storeKey token : bytes)
    (o : Options) (scope key : bytes) (handler : UnaryHandler M C T) (t : T)
    : prog (T * result M) :=
  '(t, res) ← handler ctx req t;
  match res with
  | Panic p =>
      '(_, ferr) ← Finish storeKey token Discard [] o;
      _ ← warn_if scope key "grpcidem: releasing reservation after handler panic failed" ferr;
      mret (t, Panic p)
  | Return resp herr =>
      payload ← payloadToPersist cfg resp herr scope key;
      match payload with
      | Some payload =>
          '(leaseLost, ferr) ← Finish storeKey token Persist payload o;
          _ ← reportFinish scope key leaseLost ferr storeKey token o;
          mret (t, Return resp herr)
      | None =>
          '(_, ferr) ← Finish storeKey token Discard [] o;
          _ ← warn_if scope key
                "grpcidem: releasing reservation failed; key stays reserved until lease expiry" ferr;
          mret (t, Return resp herr)
      end
  end.

(** The name [%T] prints for a request that is no message. *)
Definition type_name (req : any M) : bytes :=
  match req with any_other n => n | _ => bs "<nil>" end.

(** [return nil, status.Error(code, msg)]. *)
Definition refuse (t : T) (code : Code) (msg : bytes) : prog (T * result M) :=
  mret (t, Return any_nil (Some (StatusError code msg))).

(** The part from Begin on. *)
Definition begin_and_act (cfg : config C) (ctx : C) (req : any M) (fingerprint scope key : bytes)
    (handler : UnaryHandler M C T) (t : T) : prog (T * result M) :=
  let storeKey := storeKey scope key in
  let o := mkOptions (leaseTTL cfg) (recordTTL cfg) in
  out ← Begin storeKey fingerprint o;
  match out with
  | inr err =>
      if failOpen cfg then
        _ ← Warn "grpcidem: store unavailable; proceeding without idempotency (FailOpen)"
              (keyAttrs scope key ++ error_attr err);
        handler ctx req t
      else refuse t Unavailable (bs "grpcidem: idempotency store is unavailable")
  | inl out =>
      match out_Action out with
      | Replay => replay ctx scope key (out_Payload out) t
      | RejectInFlight =>
          refuse t Aborted
            (bs "grpcidem: a request with this idempotency key is in flight; retry after " ++
             Duration_String (retryAfter (out_RetryAfter out)))
      | RejectFingerprintMismatch =>
          refuse t FailedPrecondition
            (bs "grpcidem: idempotency key was already used with a different request")
      | Proceed => runHandler cfg ctx req storeKey (out_Token out) o scope key handler t
      end
  end.

Definition intercept (cfg : config C) (ctx : C) (req : any M) (fullMethod : bytes)
    (handler : UnaryHandler M C T) (t : T) : prog (T * result M) :=
  match keyFromContext ctx with
  | inr err =>
      if Is err grpcidem_errKeyMissing && negb (require cfg) then handler ctx req t
      else refuse t InvalidArgument (Error err)
  | inl key =>
      if match keyValid cfg with Some f => negb (f key) | None => false end
      then refuse t InvalidArgument (bs "grpcidem: idempotency key rejected by validator") else
      match req with
      | any_msg reqMsg =>
          match Marshal reqMsg with
          | inr err => refuse t Internal (bs "grpcidem: marshaling request: " ++ Error err)
          | inl reqBytes =>
              let fingerprint := fingerprint fullMethod reqBytes in
              let scope := match keyScope cfg with Some f => f ctx | None => [] end in
              begin_and_act cfg ctx req fingerprint scope key handler t
          end
      | _ => refuse t Internal
               (bs "grpcidem: request is not a proto.Message (" ++ type_name req ++ bs ")")
      end
  end.

Definition UnaryServerInterceptor (opts : list (@Option C))
    : C → any M → bytes → UnaryHandler M C T → T → prog (T * result M) :=
  intercept (configure opts).

End interceptor.

End grpcidem.
