(* ===== verification/GrpcClaims.v ===== *)
(** * The interceptor on the in-memory store

    Payloads read back what they were made from, and whole calls: what a
    call leaves under its key, and what the duplicates of it are answered. *)
From S2P Require Import Prelude GoLib Strconv Errors Record Store Effects Memstore Core CoreSpec.
From S2P Require Import Quiet CoreClaims Custody Fingerprint Varint Key Grpc Grpcidem.
Import Time grpcidem.

(** ** Payloads *)

(** A varint cut short reads as "buffer too small". *)
Lemma uvarint_loop_cut fuel x k i acc s :
  i + fuel ≤ MaxVarintLen64 → (0 ≤ x)%Z → k < length (put_uvarint fuel x) →
  uvarint_loop (take k (put_uvarint fuel x)) i acc s = (0, 0)%Z.
Proof.
  revert x k i acc s. induction fuel as [|fuel IH]; intros x k i acc s Hi Hx Hk; [simpl in Hk; lia|].
  simpl put_uvarint in *. destruct (Z.leb_spec 128 x); simpl in Hk.
  - destruct k as [|k]; [done|]. simpl. rewrite bool_decide_eq_false_2 by (unfold MaxVarintLen64 in *; lia).
    rewrite high_bit by done. apply IH; [lia| |lia]. by apply Z.shiftr_nonneg.
  - assert (k = 0) as -> by lia. done.
Qed.

Section payload.
Context {M : Type} `{ProtoLaws M}.

(** The type of the response is in the registry. *)
Definition registered (m : M) : Prop := ∃ mt, FindMessageByName (FullName m) = inl mt.
Definition name_fits (m : M) : Prop := is_u64 (Z.of_nat (length (FullName m))).

(** 0x01 | uvarint(len(name)) | name | body *)
Definition wire (name b : bytes) : bytes :=
  payloadVersion :: (put_uvarint MaxVarintLen64 (Z.of_nat (length name)) ++ name ++ b).

Lemma encodePayload_ok (m : M) (b : bytes) :
  Marshal m = inl b → name_fits m → encodePayload m = inl (wire (FullName m) b).
Proof using.
  intros Hb Hn. unfold encodePayload, AppendUvarint, wire. rewrite Hb, u64_small by exact Hn.
  cbv zeta. by rewrite <-!app_assoc.
Qed.

(** What follows the version byte of a payload, as decodePayload reads it. *)
Lemma decodePayload_put (name rest : bytes) :
  is_u64 (Z.of_nat (length name)) → (Z.of_nat (length rest) < two64)%Z →
  decodePayload (M:=M) (payloadVersion :: (put_uvarint MaxVarintLen64 (Z.of_nat (length name)) ++ rest)) =
    if (length rest <? length name)%nat then inr err_corrupted else
    match FindMessageByName (take (length name) rest) with
    | inr err => inr (err_not_registered (take (length name) rest) err)
    | inl mt => match Unmarshal (drop (length name) rest) (New mt) with
                | inr err => inr (err_unmarshaling err)
                | inl m => inl m
                end
    end.
Proof using.
  intros Hn Hr. unfold decodePayload. rewrite bool_decide_eq_true_2 by done. cbn [negb].
  pose proof (put_uvarint_nonempty (Z.of_nat (length name))) as Hne.
  rewrite Uvarint_put by done. set (p := put_uvarint _ _) in *. clearbody p.
  assert (0 < length p) by (destruct p; simpl in *; [done|lia]).
  rewrite (proj2 (Z.leb_gt _ _)) by lia. rewrite length_app, Nat2Z.inj_add, orb_false_l.
  replace (Z.of_nat (length p) + Z.of_nat (length rest) - Z.of_nat (length p))%Z
    with (Z.of_nat (length rest)) by lia.
  rewrite u64_small by lia.
  rewrite !Nat2Z.id, drop_app_length.
  rewrite drop_app_ge by lia. replace (length p + length name - length p) with (length name) by lia.
  destruct (Nat.ltb_spec (length rest) (length name)).
  - by rewrite (proj2 (Z.ltb_lt _ _)) by lia.
  - by rewrite (proj2 (Z.ltb_ge _ _)) by lia.
Qed.

Lemma decode_encode (m : M) (payload : bytes) :
  IsValid m = true → registered m → name_fits m →
  encodePayload m = inl payload → (Z.of_nat (length payload) < two64)%Z →
  ∃ m', decodePayload payload = inl m' ∧ proto_Equal m' m.
Proof.
  intros Hv [mt Hmt] Hn Hp Hlen.
  destruct (Marshal m) as [b|e] eqn:Hb; [|unfold encodePayload in Hp; by rewrite Hb in Hp].
  rewrite (encodePayload_ok m b Hb Hn) in Hp.
  assert (payload = wire (FullName m) b) as -> by congruence. clear Hp. unfold wire in *.
  cbn [length] in Hlen. rewrite !length_app in Hlen.
  rewrite decodePayload_put by (rewrite ?length_app; lia || exact Hn).
  rewrite (proj2 (Nat.ltb_ge _ _)) by (rewrite length_app; lia).
  rewrite take_app_length, drop_app_length, Hmt.
  destruct (Unmarshal_Marshal _ _ _ Hv Hb Hmt) as (m' & -> & ?). by exists m'.
Qed.

(** C34. Payloads round-trip: what encodePayload makes of a valid message of
    a registered type decodes to an equal message.  And they are
    self-delimiting up to the body: a payload cut anywhere before the end
    of the type name, or of another version, is refused as unsupported or
    corrupted before any type is looked up. *)
Theorem payload_roundtrip (m : M) (b payload : bytes) :
  IsValid m = true → registered m → name_fits m → Marshal m = inl b →
  encodePayload m = inl payload → (Z.of_nat (length payload) < two64)%Z →
  (∃ m', decodePayload payload = inl m' ∧ proto_Equal m' m) ∧
  (∀ k, k < length payload - length b →
     decodePayload (M:=M) (take k payload) = inr (if decide (k = 0) then err_version else err_corrupted)) ∧
  (∀ v rest, v ≠ payloadVersion → decodePayload (M:=M) (v :: rest) = inr err_version).
Proof.
  intros Hv Hreg Hn Hb Hp Hlen. split_and!; [by apply decode_encode| |].
  - rewrite (encodePayload_ok m b Hb Hn) in Hp.
    assert (payload = wire (FullName m) b) as -> by congruence. clear Hp. unfold wire in *.
    cbn [length] in *. rewrite !length_app in *.
    intros k Hk.
    destruct k as [|k]; [done|]. rewrite decide_False by done. cbn [take firstn].
    destruct (Nat.lt_ge_cases k (length (put_uvarint MaxVarintLen64
      (Z.of_nat (length (FullName m)))))) as [Hc|Hc].
    + change (firstn k ?l) with (take k l). rewrite take_app_le by lia. unfold decodePayload.
      rewrite bool_decide_eq_true_2 by done. cbn [negb]. unfold Uvarint.
      rewrite uvarint_loop_cut; [done|done|lia|done].
    + change (firstn k ?l) with (take k l). rewrite take_app_ge by done.
      rewrite decodePayload_put by (exact Hn || rewrite length_take, length_app; lia).
      rewrite (proj2 (Nat.ltb_lt _ _)); [done|]. rewrite length_take, length_app. lia.
  - intros v rest Hne. unfold decodePayload. by rewrite bool_decide_eq_false_2.
Qed.
End payload.

(** ** Whole calls *)

Section calls.
Context {M C T : Type} `{Proto M, GrpcContext C T}.
Implicit Types (cfg : config C) (ctx : C) (handler : UnaryHandler M C T) (t : T).

(** The call passes the guards with this key and these request bytes. *)
Definition call_ready (cfg : config C) (ctx : C) (m : M) (key reqBytes : bytes) : Prop :=
  keyFromContext (T:=T) ctx = inl key ∧ (∀ f, keyValid cfg = Some f → f key = true) ∧
  Marshal m = inl reqBytes.

Definition scope_of (cfg : config C) (ctx : C) : bytes :=
  match keyScope cfg with Some f => f ctx | None => [] end.
Definition skey (cfg : config C) (ctx : C) (key : bytes) : bytes := storeKey (scope_of cfg ctx) key.
Definition options (cfg : config C) : Options := mkOptions (leaseTTL cfg) (recordTTL cfg).

(** What runHandler persists: the encoding of a valid response message,
    when there is no error and the policy says so. *)
Definition persisted (cfg : config C) (resp : any M) (herr : option rpc_error) : option bytes :=
  match herr, resp with
  | None, any_msg m =>
      if bool_decide (policy cfg None = Persist) && IsValid m then
        match encodePayload m with inl payload => Some payload | inr _ => None end
      else None
  | _, _ => None
  end.

Definition persisted_result (cfg : config C) (out : result M) : option bytes :=
  match out with Return resp herr => persisted cfg resp herr | Panic _ => None end.

Lemma intercept_ready cfg ctx m info handler t key reqBytes :
  call_ready cfg ctx m key reqBytes →
  intercept cfg ctx (any_msg m) info handler t =
  begin_and_act cfg ctx (any_msg m) (fingerprint info reqBytes) (scope_of cfg ctx) key handler t.
Proof.
  intros (Hk & Hv & Hm). unfold intercept. rewrite Hk.
  assert (match keyValid cfg with Some f => negb (f key) | None => false end = false) as ->.
  { destruct (keyValid cfg) as [f|]; [|done]. by rewrite (Hv f eq_refl). }
  by rewrite Hm.
Qed.

Lemma run_grpc_begin_and_act {S} `{Store S} cfg ctx req fp key handler t (wd wd1 : world S) out :
  run (Begin (skey cfg ctx key) fp (options cfg)) wd = (inl out, wd1) →
  run (begin_and_act cfg ctx req fp (scope_of cfg ctx) key handler t) wd =
  run (match out_Action out with
       | Replay => replay ctx (scope_of cfg ctx) key (out_Payload out) t
       | RejectInFlight =>
           refuse t Aborted
             (bs "grpcidem: a request with this idempotency key is in flight; retry after " ++
              Duration_String (retryAfter (out_RetryAfter out)))
       | RejectFingerprintMismatch =>
           refuse t FailedPrecondition
             (bs "grpcidem: idempotency key was already used with a different request")
       | Proceed => runHandler cfg ctx req (skey cfg ctx key) (out_Token out) (options cfg)
                      (scope_of cfg ctx) key handler t
       end) wd1.
Proof. intros Hb. unfold begin_and_act. rewrite run_bind. unfold skey, options in Hb. by rewrite Hb. Qed.

Lemma run_payloadToPersist {S} `{Store S} cfg resp herr scope key (w : world S) :
  ∃ w1, run (payloadToPersist cfg resp herr scope key) w = (persisted cfg resp herr, w1) ∧
    same_but_log w w1.
Proof.
  unfold payloadToPersist, persisted. destruct herr as [e|].
  { by exists w. }
  cbn [negb bool_decide orb]. rewrite (bool_decide_eq_true_2 (None = None)) by done.
  destruct (bool_decide (policy cfg None = Persist)); cbn [negb orb andb];
    [|exists w; by destruct resp].
  destruct resp as [|m|]; [by exists w| |by exists w].
  destruct (IsValid m); cbn [negb]; [|by exists w].
  destruct (encodePayload m); [by exists w|]. by eexists.
Qed.

Lemma run_warn_if {S} `{Store S} scope key msg ferr (w : world S) :
  ∃ w1, run (warn_if scope key msg ferr) w = ((), w1) ∧ same_but_log w w1.
Proof. unfold warn_if. destruct ferr; by eexists. Qed.

(** How runHandler ends on the in-memory store: one Finish, then at most a
    log line. *)
Definition finish_of (cfg : config C) (out : result M) (key tok : bytes) (o : Options)
    : prog (bool * option error) :=
  match persisted_result cfg out with
  | Some payload => Finish key tok Persist payload o
  | None => Finish key tok Discard [] o
  end.

Lemma run_runHandler cfg ctx req K tok o scope key handler t t' out
    (wd wd' : world memstore.Store) :
  run (runHandler cfg ctx req K tok o scope key handler t) wd = ((t', out), wd') →
  ∃ wa wb x wc,
    run (handler ctx req t) wd = ((t', out), wa) ∧ same_but_log wa wb ∧
    run (finish_of cfg out K tok o) wb = (x, wc) ∧ same_but_log wc wd'.
Proof.
  unfold runHandler. rewrite run_bind.
  destruct (run (handler ctx req t) wd) as [[t1 [resp herr|v]] wa] eqn:Eh; rewrite run_bind.
  - destruct (run_payloadToPersist cfg resp herr scope key wa) as (wb & -> & Hb).
    assert (persisted_result cfg (Return resp herr) = persisted cfg resp herr) as Hp by done.
    destruct (persisted cfg resp herr) as [payload|]; rewrite run_bind.
    + destruct (run (Finish K tok Persist payload o) wb) as [[lost err] wc] eqn:Ef.
      pose proof (mem_Finish_ok _ _ _ _ _ _ _ _ Ef (or_introl eq_refl)) as He. simpl in He. subst err.
      intros Hrun. exists wa, wb, (lost, None), wc. unfold finish_of. 
      destruct lost; simpl in Hrun; simplify_eq; by rewrite Hp.
    + destruct (run (Finish K tok Discard [] o) wb) as [[lost err] wc] eqn:Ef.
      pose proof (mem_Finish_ok _ _ _ _ _ _ _ _ Ef (or_intror eq_refl)) as He. simpl in He. subst err.
      intros Hrun. exists wa, wb, (lost, None), wc. unfold finish_of. simpl in Hrun. simplify_eq.
      by rewrite Hp.
  - destruct (run (Finish K tok Discard [] o) wa) as [[lost err] wc] eqn:Ef.
    pose proof (mem_Finish_ok _ _ _ _ _ _ _ _ Ef (or_intror eq_refl)) as He. simpl in He. subst err.
    intros Hrun. exists wa, wa, (lost, None), wc. simpl in Hrun. by simplify_eq.
Qed.

Lemma same_but_log_live (wa wb : world memstore.Store) key :
  same_but_log wa wb →
  live (app_clock (w_now wb)) (memstore.recs (w_store wb)) key =
  live (app_clock (w_now wa)) (memstore.recs (w_store wa)) key.
Proof. by intros (-> & -> & _). Qed.

(** The record after a call whose lease lasted. *)
Lemma runHandler_held cfg ctx req K tok r0 o scope key handler t t' out
    (wd wd' : world memstore.Store) :
  rec_State r0 = StateReserved → rec_Token r0 = tok →
  run (runHandler cfg ctx req K tok o scope key handler t) wd = ((t', out), wd') →
  leaves_alone K tok (handler ctx req t) → held K r0 wd →
  (app_clock (w_now wd') < rec_LeaseExpiresAt r0)%Z →
  (∃ wa, run (handler ctx req t) wd = ((t', out), wa)) ∧
  let now := live (app_clock (w_now wd')) (memstore.recs (w_store wd')) K in
  match persisted_result cfg out with
  | Some payload => ∃ expires, now = Some (completed r0 payload expires)
  | None => now = None
  end.
Proof.
  intros Hr0 Htok Hrun Hn Hheld Hlt.
  destruct (run_runHandler _ _ _ _ _ _ _ _ _ _ _ _ _ _ Hrun) as (wa & wb & x & wc & Hh & Hb & Hf & Hc).
  split; [by exists wa|]. cbv zeta. rewrite (same_but_log_live _ _ K Hc).
  destruct Hc as (_ & Hnow & _). rewrite Hnow in Hlt.
  pose proof (run_later (finish_of cfg out K tok o) wb) as [Hle _]. rewrite Hf in Hle. simpl in Hle.
  assert (held K r0 wb) as Hhb.
  { unfold held. rewrite (same_but_log_live _ _ K Hb). destruct Hb as (_ & Hnb & _).
    rewrite Hnb in *. eapply (run_held K tok r0); eauto. lia. }
  unfold finish_of in Hf. destruct (persisted_result cfg out) as [payload|].
  - by destruct (Finish_held K tok r0 Hr0 Htok _ _ _ _ _ _ Hf Hhb Hlt) as [_ ?].
  - by destruct (Finish_held K tok r0 Hr0 Htok _ _ _ _ _ _ Hf Hhb Hlt) as [_ ?].
Qed.

(** A call that ends with a completed record persisted its response. *)
Lemma runHandler_completed cfg ctx req K tok fp o scope key handler t t' out
    (wd wd' : world memstore.Store) rc :
  run (runHandler cfg ctx req K tok o scope key handler t) wd = ((t', out), wd') →
  leaves_alone K tok (handler ctx req t) → RO_world K tok fp wd →
  live (app_clock (w_now wd')) (memstore.recs (w_store wd')) K = Some rc →
  rec_State rc = StateCompleted →
  persisted_result cfg out = Some (rec_Payload rc) ∧ rec_Fingerprint rc = fp.
Proof.
  intros Hrun Hn Hw Hl Hst.
  destruct (run_runHandler _ _ _ _ _ _ _ _ _ _ _ _ _ _ Hrun) as (wa & wb & x & wc & Hh & Hb & Hf & Hc).
  rewrite (same_but_log_live _ _ K Hc) in Hl.
  assert (RO_world K tok fp wb) as Hwb.
  { destruct Hb as (Hs & Hnb & _). unfold RO_world. rewrite Hs, Hnb.
    by eapply run_reserved_only. }
  unfold finish_of in Hf. destruct (persisted_result cfg out) as [payload|].
  - by destruct (Finish_persist_RO _ _ _ _ _ _ _ _ _ Hf Hwb Hl Hst) as (_ & ? & ->).
  - exfalso. apply (Finish_discard_RO K tok fp) in Hf as [Hwc _]; [|done].
    exact (RO_not_completed K tok fp wc rc Hwc Hl Hst).
Qed.
End calls.

(** What was persisted decodes to the response. *)
Lemma persisted_decodes {M C : Type} `{ProtoLaws M} (cfg : config C) (out : result M) (payload : bytes) :
  persisted_result cfg out = Some payload →
  (∀ resp err, out = Return (any_msg resp) err →
     registered resp ∧ name_fits resp ∧ (Z.of_nat (length payload) < two64)%Z) →
  ∃ resp resp', out = Return (any_msg resp) None ∧ decodePayload payload = inl resp' ∧
    proto_Equal resp' resp.
Proof.
  destruct out as [resp err|v]; simpl; [|done]. unfold persisted.
  destruct err; [done|]. destruct resp as [|m|]; [done| |done].
  destruct (bool_decide _ && _) eqn:Hb; [|done]. apply andb_true_iff in Hb as [_ Hv].
  destruct (encodePayload m) as [p|] eqn:Ep; [|done]. intros [= <-] Hreg.
  destruct (Hreg m None eq_refl) as (Hr & Hn & Hlen).
  destruct (decode_encode m p Hv Hr Hn Ep Hlen) as (m' & ? & ?). by exists m, m'.
Qed.

(** C9. What a call leaves behind.  A call that finds its key free, whose
    handler leaves its reservation alone and whose lease lasts returns what
    its handler returned (or panics with what it panicked with), and its
    key then holds: the completed record with the encoded response, when
    the handler succeeded with a valid message the policy persists; nothing
    at all otherwise - an error, a panic, a nil or foreign response, a
    policy that discards - so that a retry runs the handler again. *)
Theorem grpc_outcome {M C T : Type} `{Proto M, GrpcContext C T} (cfg : config C) (ctx : C) (m : M)
    (info key reqBytes : bytes) (handler : UnaryHandler M C T) (t t' : T)
    (wd wd' : world memstore.Store) (rnd : bytes) (rest : list (bytes + error)) (out : result M) :
  let K := skey cfg ctx key in
  call_ready (T:=T) cfg ctx m key reqBytes → w_rand wd = inl rnd :: rest →
  live (app_clock (w_now wd)) (memstore.recs (w_store wd)) K = None →
  leaves_alone K (EncodeToString (take 16 rnd)) (handler ctx (any_msg m) t) →
  run (intercept cfg ctx (any_msg m) info handler t) wd = ((t', out), wd') →
  (app_clock (w_now wd') < app_clock (w_now wd) + Core.leaseTTL (options cfg))%Z →
  (∃ w1 w2, run (handler ctx (any_msg m) t) w1 = ((t', out), w2)) ∧
  let now := live (app_clock (w_now wd')) (memstore.recs (w_store wd')) K in
  match persisted_result cfg out with
  | Some payload => ∃ rc,
      now = Some rc ∧ rec_State rc = StateCompleted ∧
      rec_Fingerprint rc = fingerprint info reqBytes ∧ rec_Payload rc = payload
  | None => now = None
  end.
Proof.
  intros K Hr Hrnd Hl Hn Hrun Hlease. rewrite (intercept_ready _ _ _ _ _ _ _ _ Hr) in Hrun.
  destruct (run (Begin K (fingerprint info reqBytes) (options cfg)) wd) as [o wd0] eqn:Eb.
  destruct (run_bind_later _ _ _ _ _ _ _ Eb Hrun) as [_ Hle0].
  destruct (mem_first_held _ _ _ _ _ _ _ _ Hrnd Hl Eb ltac:(lia)) as (-> & t0 & Ht & Hheld).
  rewrite (run_grpc_begin_and_act _ _ _ _ _ _ _ _ _ _ Eb) in Hrun. cbn [out_Action out_Token] in Hrun.
  destruct (runHandler_held _ _ _ K (EncodeToString (take 16 rnd))
    (begin_record K (fingerprint info reqBytes) (EncodeToString (take 16 rnd)) (options cfg) t0)
    _ _ _ _ _ _ _ _ _ eq_refl eq_refl Hrun Hn Hheld
    ltac:(simpl; unfold Add; lia)) as [(wa & Hh) Hout].
  split; [by exists wd0, wa|]. destruct (persisted_result cfg out); [|done].
  destruct Hout as (expires & ->). by eexists.
Qed.

(** C8. Exactly-once over gRPC, end to end.  A first call finds its key
    free and ends with the completed record, having run its handler with
    anything else happening on the store meanwhile.  Afterwards anything
    may run.  Then, until the record expires, every call with that key is
    answered without running its handler (it may be any handler, one that
    panics included): with the first response, under the
    idempotency-replayed header, when method and request bytes are the
    same (the type of the response being in the registry), and with
    FailedPrecondition when their fingerprint differs. *)
Theorem grpc_exactly_once {M C T A : Type} `{ProtoLaws M, GrpcContext C T} (cfg : config C)
    (ctx1 ctx2 : C) (m1 m2 : M) (info1 info2 key1 key2 body1 body2 : bytes)
    (handler handler2 : UnaryHandler M C T) (t1 t1' t2 : T) (others : prog A)
    (wd0 wd1 wd2 : world memstore.Store) (rnd1 rnd2 : bytes) (rest1 rest2 : list (bytes + error))
    (out1 : result M) (rc : Record) (x : A) :
  let K := skey cfg ctx1 key1 in
  (* the first call *)
  call_ready (T:=T) cfg ctx1 m1 key1 body1 → w_rand wd0 = inl rnd1 :: rest1 →
  live (app_clock (w_now wd0)) (memstore.recs (w_store wd0)) K = None →
  leaves_alone K (EncodeToString (take 16 rnd1)) (handler ctx1 (any_msg m1) t1) →
  run (intercept cfg ctx1 (any_msg m1) info1 handler t1) wd0 = ((t1', out1), wd1) →
  live (app_clock (w_now wd1)) (memstore.recs (w_store wd1)) K = Some rc →
  rec_State rc = StateCompleted →
  (∀ resp err, out1 = Return (any_msg resp) err →
     registered resp ∧ name_fits resp ∧ (Z.of_nat (length (rec_Payload rc)) < two64)%Z) →
  (* anything in between, then the duplicate *)
  run others wd1 = (x, wd2) →
  call_ready (T:=T) cfg ctx2 m2 key2 body2 → skey cfg ctx2 key2 = K →
  w_rand wd2 = inl rnd2 :: rest2 →
  (app_clock (w_now (advance (advance (advance wd2)))) < rec_RecordExpiresAt rc)%Z →
  ∃ t2' out2 wd3,
    run (intercept cfg ctx2 (any_msg m2) info2 handler2 t2) wd2 = ((t2', out2), wd3) ∧
    if decide (fingerprint info1 body1 = fingerprint info2 body2) then
      ∃ resp resp', out1 = Return (any_msg resp) None ∧ out2 = Return (any_msg resp') None ∧
        proto_Equal resp' resp ∧ t2' = (SetHeader ctx2 [(ReplayedMetadataKey, bs "true")] t2).1
    else t2' = t2 ∧ out2 = Return any_nil (Some (StatusError FailedPrecondition
           (bs "grpcidem: idempotency key was already used with a different request"))).
Proof.
  intros K Hr1 Hrnd1 Hl0 Hn Hrun1 Hl1 Hst Hreg Hrun Hr2 HK Hrnd2 Hdl.
  (* the first call *)
  rewrite (intercept_ready _ _ _ _ _ _ _ _ Hr1) in Hrun1.
  destruct (run (Begin K (fingerprint info1 body1) (options cfg)) wd0) as [out wd0'] eqn:Eb.
  destruct (mem_first_Begin _ _ _ _ _ _ _ _ Hrnd1 Hl0 Eb) as [-> Hro].
  rewrite (run_grpc_begin_and_act _ _ _ _ _ _ _ _ _ _ Eb) in Hrun1. cbn [out_Action out_Token] in Hrun1.
  destruct (runHandler_completed _ _ _ _ _ _ _ _ _ _ _ _ _ _ _ _ Hrun1 Hn Hro Hl1 Hst) as [Hp Hfp].
  destruct (persisted_decodes cfg out1 (rec_Payload rc) Hp Hreg) as (resp & resp' & -> & Hd & Heq).
  (* the record survives until the duplicate *)
  pose proof (advance_later wd2) as [? _]. pose proof (advance_later (advance wd2)) as [? _].
  pose proof (advance_later (advance (advance wd2))) as [? _].
  pose proof (mem_run_completed _ _ _ _ _ _ Hrun Hl1 Hst ltac:(lia)) as Hl2.
  (* the duplicate *)
  rewrite (intercept_ready _ _ _ _ _ _ _ _ Hr2).
  destruct (run (Begin K (fingerprint info2 body2) (options cfg)) wd2) as [res wd3] eqn:Eb2.
  pose proof (mem_Begin_completed _ _ _ _ _ _ _ _ _ Hrnd2 Eb2 Hl2 Hst Hdl) as ->.
  rewrite Hfp, <-HK in Eb2. rewrite (run_grpc_begin_and_act _ _ _ _ _ _ _ _ _ (if decide _ then _ else _) Eb2).
  destruct (decide _); cbn [out_Action out_Payload].
  - unfold replay. rewrite Hd. destruct (SetHeader ctx2 _ t2) as [t2' e']. simpl.
    eexists _, _, wd3. split; [done|]. by exists resp, resp'.
  - eexists _, _, wd3. by split.
Qed.

(** ** Witnesses *)

Module ExampleCalls.
Import ExampleGrpc.

Definition cfg : config ctx := configure [Require true; KeyScope (λ _, bs "tenant")].
Definition call_ctx : ctx := Some {[ MetadataKey := [bs "key-1"] ]}.
Definition charge (amount : bytes) : msg := mkMsg (bs "pay.v1.Charge") true amount.
Definition receipt : msg := mkMsg (bs "pay.v1.Receipt") true (bs "paid").
Definition info : bytes := bs "/pay.v1.Payments/Charge".
Definition handler : UnaryHandler msg ctx stream := λ _ _ t, Ret (t, Return (any_msg receipt) None).
Definition panicking : UnaryHandler msg ctx stream := λ _ _ t, Ret (t, Panic (bs "boom")).
Definition rnd (b : byte) : bytes + error := inl (replicate 16 b).
Definition wd0 : world memstore.Store :=
  mkWorld memstore.New (mkInstant 1000%Z 1000%Z) (replicate 40 (mkTick 1000000000 1000000000))
    [rnd x01; rnd x02; rnd x03] [].
Definition K : bytes := skey cfg call_ctx (bs "key-1").

Definition call (h : UnaryHandler msg ctx stream) (amount : bytes)
    : world memstore.Store → (stream * result msg) * world memstore.Store :=
  run (intercept cfg call_ctx (any_msg (charge amount)) info h []).
Definition wd1 : world memstore.Store := (call handler (bs "100") wd0).2.
Definition rc : Record :=
  default (mkRecord [] [] StateReserved [] 0%Z 0%Z [])
    (live (app_clock (w_now wd1)) (memstore.recs (w_store wd1)) K).
Definition others : prog (bool * option error) := Finish K (bs "stale") Discard [] (options cfg).
Definition wd2 : world memstore.Store := (run others wd1).2.

Lemma grpc_is_ready amount : call_ready (T:=stream) cfg call_ctx (charge amount) (bs "key-1") amount.
Proof. split; [vm_compute; reflexivity|]. split; [done|reflexivity]. Qed.

Lemma receipt_registered : registered receipt ∧ name_fits receipt.
Proof. split; [eexists; vm_compute; reflexivity|split; [discriminate|reflexivity]]. Qed.

Lemma call1_eq : call handler (bs "100") wd0 = (([], Return (any_msg receipt) None), wd1).
Proof. apply pair_fst. vm_compute. reflexivity. Qed.

Definition panic_world : world memstore.Store := (call panicking (bs "100") wd0).2.
Lemma grpc_panic_eq : call panicking (bs "100") wd0 = (([], Panic (bs "boom")), panic_world).
Proof. apply pair_fst. vm_compute. reflexivity. Qed.

End ExampleCalls.

Import ExampleGrpc ExampleCalls.

Lemma payload_roundtrip_witness :
  ∃ payload m', encodePayload receipt = inl payload ∧ decodePayload payload = inl m' ∧
    proto_Equal m' receipt.
Proof.
  destruct (payload_roundtrip receipt (bs "paid") (wire (bs "pay.v1.Receipt") (bs "paid")))
    as [(m' & Hd & He) _].
  - reflexivity.
  - apply receipt_registered.
  - apply receipt_registered.
  - reflexivity.
  - vm_compute. reflexivity.
  - vm_compute. reflexivity.
  - eexists _, m'. split; [vm_compute; reflexivity|]. split; [exact Hd|exact He].
Defined.

Lemma grpc_outcome_witness :
  live (app_clock (w_now panic_world)) (memstore.recs (w_store panic_world)) K = None.
Proof.
  apply (grpc_outcome cfg call_ctx (charge (bs "100")) info (bs "key-1") (bs "100") panicking
    [] [] wd0 panic_world (replicate 16 x01) [rnd x02; rnd x03] (Panic (bs "boom"))).
  - exact (grpc_is_ready (bs "100")).
  - reflexivity.
  - reflexivity.
  - exact I.
  - exact grpc_panic_eq.
  - vm_compute. reflexivity.
Defined.

(** The same request is answered from the record, another one refused. *)
Lemma grpc_exactly_once_witness :
  (∃ t wd3, call panicking (bs "100") wd2 = ((t, Return (any_msg receipt) None), wd3)) ∧
  (∃ wd3 msg, call panicking (bs "200") wd2 =
     (([], Return any_nil (Some (StatusError FailedPrecondition msg))), wd3)).
Proof.
  assert (∀ amount, ∃ t2' out2 wd3, call panicking amount wd2 = ((t2', out2), wd3) ∧
    if decide (fingerprint info (bs "100") = fingerprint info amount) then
      ∃ resp resp', Return (any_msg receipt) None = Return (any_msg resp) None ∧
        out2 = Return (any_msg resp') None ∧
        proto_Equal resp' resp ∧ t2' = (SetHeader call_ctx [(ReplayedMetadataKey, bs "true")] ([] : stream)).1
    else t2' = [] ∧ out2 = Return any_nil (Some (StatusError FailedPrecondition
           (bs "grpcidem: idempotency key was already used with a different request")))) as H.
  { intros amount.
    apply (grpc_exactly_once cfg call_ctx call_ctx (charge (bs "100")) (charge amount) info info
      (bs "key-1") (bs "key-1") (bs "100") amount handler panicking [] [] [] others
      wd0 wd1 wd2 (replicate 16 x01) (replicate 16 x02) [rnd x02; rnd x03] [rnd x03]
      (Return (any_msg receipt) None) rc (run others wd1).1).
    - exact (grpc_is_ready (bs "100")).
    - reflexivity.
    - reflexivity.
    - exact I.
    - exact call1_eq.
    - vm_compute. reflexivity.
    - vm_compute. reflexivity.
    - intros resp err Heq. injection Heq as <- _.
      split; [apply receipt_registered|]. split; [apply receipt_registered|vm_compute; reflexivity].
    - unfold wd2. apply surjective_pairing.
    - exact (grpc_is_ready amount).
    - reflexivity.
    - vm_compute. reflexivity.
    - vm_compute. reflexivity. }
  split.
  - destruct (H (bs "100")) as (t & out2 & wd3 & Hrun & Hd). rewrite decide_True in Hd by reflexivity.
    destruct Hd as (resp & resp' & Hresp & Hout & He & _). change (resp' = resp) in He.
    assert (resp = receipt) as Hr by congruence. exists t, wd3. by rewrite <-Hr, <-He, <-Hout.
  - destruct (H (bs "200")) as (t & out2 & wd3 & Hrun & Hd).
    rewrite decide_False in Hd by (vm_compute; discriminate).
    destruct Hd as [-> ->]. by eexists wd3, _.
Defined.
