(* ===== verification/Gin.v ===== *)
(** * The Gin framework

    github.com/gin-gonic/gin is not part of the repository: its
    ResponseWriter is an interface here, with the documented behaviour the
    adapter relies on as laws (headers are sent at the first write or by
    WriteHeaderNow, not by WriteHeader).  The rest of a handler chain is a
    tree of the calls it can make, as for net/http. *)
From S2P Require Import Prelude GoLib GoHttp Errors Record Store Effects Core Context Http.

(** [gin.ResponseWriter]: what the adapter and the handlers call on it.
    Writing can panic; flushing and hijacking are taken on a connection
    that supports them or reports an error. *)
Class GinWriter (W : Type) := {
  gin_Header : W → header;
  gin_SetHeader : header → W → W;
  gin_WriteHeader : Z → W → W;
  gin_Write : bytes → W → W * (Z * option error + bytes);
  gin_WriteString : bytes → W → W * (Z * option error + bytes);
  gin_WriteHeaderNow : W → W * option bytes;
  gin_Status : W → Z;
  gin_Written : W → bool;
  gin_Size : W → Z;
  gin_Flush : W → W;
  gin_Hijack : W → W * option error;
}.

(** A Gin writer seen as an [http.ResponseWriter]. *)
Definition gin_http {W} `{GinWriter W} : ResponseWriter W := {|
  Header := gin_Header;
  SetHeader := gin_SetHeader;
  WriteHeader code w := (gin_WriteHeader code w, None);
  Write := gin_Write;
  Flush w := (gin_Flush w, None);
  Hijack := gin_Hijack;
  Push _ w := (w, Some (http_ErrNotSupported : error));
|}.

(** ** Handler chains *)

Inductive chain_prog : Type :=
  | GReturn
  | GPanic (v : bytes)
  | GHeader (k : header → chain_prog)
  | GSetHeader (h : header) (k : chain_prog)
  | GWriteHeader (code : Z) (k : chain_prog)
  | GWrite (p : bytes) (k : Z * option error → chain_prog)
  | GWriteString (p : bytes) (k : Z * option error → chain_prog)
  | GWriteHeaderNow (k : chain_prog)
  | GStatus (k : Z → chain_prog)
  | GWritten (k : bool → chain_prog)
  | GSize (k : Z → chain_prog)
  | GFlush (k : chain_prog)
  | GHijack (k : option error → chain_prog)
  | GRead (n : nat) (k : bytes * option (option error) → chain_prog)
  | GSetError (err : option error) (k : chain_prog)
  | GMarkFinished (k : chain_prog)
  | GReservation (k : option Reservation → chain_prog)
  | GCall {X : Type} (p : prog X) (k : X → chain_prog).

(** What [c.Next()] runs for a given [c.Request]. *)
Definition Chain : Type := Request → chain_prog.

Fixpoint grun {W} `{GinWriter W} (ctx : context) (p : chain_prog) (s : hstate W)
    : prog (hstate W * outcome) :=
  match p with
  | GReturn => mret (s, Returned)
  | GPanic v => mret (s, Panicked v)
  | GHeader k => grun ctx (k (gin_Header (hs_w s))) s
  | GSetHeader h k => grun ctx k (set_w (gin_SetHeader h (hs_w s)) s)
  | GWriteHeader code k => grun ctx k (set_w (gin_WriteHeader code (hs_w s)) s)
  | GWrite b k =>
      let '(w, res) := gin_Write b (hs_w s) in
      match res with
      | inr v => mret (set_w w s, Panicked v)
      | inl x => grun ctx (k x) (set_w w s)
      end
  | GWriteString b k =>
      let '(w, res) := gin_WriteString b (hs_w s) in
      match res with
      | inr v => mret (set_w w s, Panicked v)
      | inl x => grun ctx (k x) (set_w w s)
      end
  | GWriteHeaderNow k =>
      let '(w, panicked) := gin_WriteHeaderNow (hs_w s) in
      match panicked with
      | Some v => mret (set_w w s, Panicked v)
      | None => grun ctx k (set_w w s)
      end
  | GStatus k => grun ctx (k (gin_Status (hs_w s))) s
  | GWritten k => grun ctx (k (gin_Written (hs_w s))) s
  | GSize k => grun ctx (k (gin_Size (hs_w s))) s
  | GFlush k => grun ctx k (set_w (gin_Flush (hs_w s)) s)
  | GHijack k => let '(w, e) := gin_Hijack (hs_w s) in grun ctx (k e) (set_w w s)
  | GRead n k => let '(x, s) := read_body n s in grun ctx (k x) s
  | GSetError e k => grun ctx k (set_boxes (SetError ctx e (hs_boxes s)) s)
  | GMarkFinished k => grun ctx k (set_boxes (MarkFinished ctx (hs_boxes s)) s)
  | GReservation k => grun ctx (k (ReservationFromContext ctx)) s
  | GCall p k => x ← p; grun ctx (k x) s
  end.

(** [c.Next()] with the writer and the boxes of the state. *)
Definition Next {W} `{GinWriter W} (chain : Chain) (r : Request) (s : hstate W)
    : prog (hstate W * outcome) := grun (r_ctx r) (chain r) s.

(** ** The documented behaviour of the writer

    [sent] and [body] are what the client has been sent so far; a writer is
    [intact] until it is hijacked. *)
Definition append_body (code : Z) (p : bytes) : bytes := if bodyAllowed code then p else [].

Class GinLaws (W : Type) `{GinWriter W} := {
  intact : W → Prop;
  sent : W → option (Z * header);
  body : W → bytes;
  (* the header map is the caller's to change *)
  Header_SetHeader h w : gin_Header (gin_SetHeader h w) = h;
  SetHeader_SetHeader h h' w : gin_SetHeader h (gin_SetHeader h' w) = gin_SetHeader h w;
  SetHeader_law h w : intact w →
    let w' := gin_SetHeader h w in
    intact w' ∧ gin_Status w' = gin_Status w ∧ sent w' = sent w ∧ body w' = body w;
  (* WriteHeader only notes a positive status, and only until one is sent *)
  WriteHeader_law code w : intact w →
    let w' := gin_WriteHeader code w in
    intact w' ∧ gin_Header w' = gin_Header w ∧ sent w' = sent w ∧ body w' = body w ∧
    gin_Status w' = match sent w with
                    | None => if (0 <? code)%Z then code else gin_Status w
                    | Some _ => gin_Status w
                    end;
  (* WriteHeaderNow sends the noted status and the headers, once *)
  WriteHeaderNow_law w : intact w → (200 ≤ gin_Status w ≤ 999)%Z →
    ∃ w', gin_WriteHeaderNow w = (w', None) ∧
    intact w' ∧ gin_Header w' = gin_Header w ∧ gin_Status w' = gin_Status w ∧ body w' = body w ∧
    sent w' = Some (default (gin_Status w, gin_Header w) (sent w));
  (* so does writing, which then appends what the status allows *)
  Write_law p w : intact w → (200 ≤ gin_Status w ≤ 999)%Z →
    ∃ w' x code h, gin_Write p w = (w', inl x) ∧
    intact w' ∧ gin_Header w' = gin_Header w ∧ gin_Status w' = gin_Status w ∧
    default (gin_Status w, gin_Header w) (sent w) = (code, h) ∧ sent w' = Some (code, h) ∧
    body w' = body w ++ append_body code p;
  WriteString_law p w : gin_WriteString p w = gin_Write p w;
  (* a status net/http does not accept panics when it is sent *)
  status_panics w : intact w → sent w = None → (999 < gin_Status w)%Z →
    (∃ w' v, gin_WriteHeaderNow w = (w', Some v)) ∧ (∀ p, ∃ w' v, gin_Write p w = (w', inr v));
}.
