(* ===== verification/Ginadapter.v ===== *)
(** * The Gin adapter (ginadapter/ginadapter.go)

    The flow of the middleware over a Gin context: rejections abort the
    chain, the rest of the chain runs under a capturing Gin writer that
    snapshots the headers at the first write. *)
From S2P Require Import Prelude GoLib GoHttp Errors Record Store Effects Core Key Sha256.
From S2P Require Import Fingerprint StoredResponse Context Http Recorder Problem Config Gin.
Import Time.

Module ginadapter.

Definition maxStoredResponseOverhead : Z := 64 * 2 ^ 10.

(** type config; [C] is what a [*gin.Context] holds besides the request and
    the writer. *)
Record config (C : Type) := mkConfig {
  require : bool;
  leaseTTL : Duration;
  recordTTL : Duration;
  maxRequestBody : Z;
  maxResponseBody : Z;
  bypassLargeBody : bool;
  policy : ReplayPolicy;
  errorWriter : ErrorWriter;
  failOpen : bool;
  methods : gset bytes;
  storeHeaders : list bytes;
  keyScope : option (C → Request → bytes);
  keyValidator : option (bytes → bool);
  hashKeysInLogs : bool;
  replayedHeader : bool;
}.
Arguments mkConfig {C} _ _ _ _ _ _ _ _ _ _ _ _ _ _ _.
Arguments require {C} _.
Arguments leaseTTL {C} _.
Arguments recordTTL {C} _.
Arguments maxRequestBody {C} _.
Arguments maxResponseBody {C} _.
Arguments bypassLargeBody {C} _.
Arguments policy {C} _.
Arguments errorWriter {C} _.
Arguments failOpen {C} _.
Arguments methods {C} _.
Arguments storeHeaders {C} _.
Arguments keyScope {C} _.
Arguments keyValidator {C} _.
Arguments hashKeysInLogs {C} _.
Arguments replayedHeader {C} _.

Section options.
Context {C : Type}.

(** type Option *)
Definition Option : Type := config C → config C.

Definition Require (v : bool) : Option := λ c,
  mkConfig v (leaseTTL c) (recordTTL c) (maxRequestBody c) (maxResponseBody c)
    (bypassLargeBody c) (policy c) (errorWriter c) (failOpen c) (methods c)
    (storeHeaders c) (keyScope c) (keyValidator c) (hashKeysInLogs c) (replayedHeader c).
Definition LeaseTTL (d : Duration) : Option := λ c,
  mkConfig (require c) d (recordTTL c) (maxRequestBody c) (maxResponseBody c)
    (bypassLargeBody c) (policy c) (errorWriter c) (failOpen c) (methods c)
    (storeHeaders c) (keyScope c) (keyValidator c) (hashKeysInLogs c) (replayedHeader c).
Definition RecordTTL (d : Duration) : Option := λ c,
  mkConfig (require c) (leaseTTL c) d (maxRequestBody c) (maxResponseBody c)
    (bypassLargeBody c) (policy c) (errorWriter c) (failOpen c) (methods c)
    (storeHeaders c) (keyScope c) (keyValidator c) (hashKeysInLogs c) (replayedHeader c).
Definition MaxRequestBody (n : Z) : Option := λ c,
  mkConfig (require c) (leaseTTL c) (recordTTL c) n (maxResponseBody c)
    (bypassLargeBody c) (policy c) (errorWriter c) (failOpen c) (methods c)
    (storeHeaders c) (keyScope c) (keyValidator c) (hashKeysInLogs c) (replayedHeader c).
Definition MaxResponseBody (n : Z) : Option := λ c,
  mkConfig (require c) (leaseTTL c) (recordTTL c) (maxRequestBody c) n
    (bypassLargeBody c) (policy c) (errorWriter c) (failOpen c) (methods c)
    (storeHeaders c) (keyScope c) (keyValidator c) (hashKeysInLogs c) (replayedHeader c).
Definition BypassLargeBody (v : bool) : Option := λ c,
  mkConfig (require c) (leaseTTL c) (recordTTL c) (maxRequestBody c) (maxResponseBody
    c) v (policy c) (errorWriter c) (failOpen c) (methods c) (storeHeaders c) (keyScope
    c) (keyValidator c) (hashKeysInLogs c) (replayedHeader c).
Definition Policy (p : ReplayPolicy) : Option := λ c,
  mkConfig (require c) (leaseTTL c) (recordTTL c) (maxRequestBody c) (maxResponseBody
    c) (bypassLargeBody c) p (errorWriter c) (failOpen c) (methods c) (storeHeaders c)
    (keyScope c) (keyValidator c) (hashKeysInLogs c) (replayedHeader c).
Definition Errors (ew : ErrorWriter) : Option := λ c,
  mkConfig (require c) (leaseTTL c) (recordTTL c) (maxRequestBody c) (maxResponseBody
    c) (bypassLargeBody c) (policy c) ew (failOpen c) (methods c) (storeHeaders c)
    (keyScope c) (keyValidator c) (hashKeysInLogs c) (replayedHeader c).
Definition FailOpen (v : bool) : Option := λ c,
  mkConfig (require c) (leaseTTL c) (recordTTL c) (maxRequestBody c) (maxResponseBody
    c) (bypassLargeBody c) (policy c) (errorWriter c) v (methods c) (storeHeaders c)
    (keyScope c) (keyValidator c) (hashKeysInLogs c) (replayedHeader c).
Definition Methods (ms : list bytes) : Option := λ c,
  mkConfig (require c) (leaseTTL c) (recordTTL c) (maxRequestBody c) (maxResponseBody
    c) (bypassLargeBody c) (policy c) (errorWriter c) (failOpen c) (list_to_set (ToUpper
    <$> ms)) (storeHeaders c) (keyScope c) (keyValidator c) (hashKeysInLogs c)
    (replayedHeader c).
Definition StoreHeaders (names : list bytes) : Option := λ c,
  mkConfig (require c) (leaseTTL c) (recordTTL c) (maxRequestBody c) (maxResponseBody
    c) (bypassLargeBody c) (policy c) (errorWriter c) (failOpen c) (methods c) names
    (keyScope c) (keyValidator c) (hashKeysInLogs c) (replayedHeader c).
Definition KeyScope (fn : C → Request → bytes) : Option := λ c,
  mkConfig (require c) (leaseTTL c) (recordTTL c) (maxRequestBody c) (maxResponseBody
    c) (bypassLargeBody c) (policy c) (errorWriter c) (failOpen c) (methods c)
    (storeHeaders c) (Some fn) (keyValidator c) (hashKeysInLogs c) (replayedHeader c).
Definition KeyValidator (fn : bytes → bool) : Option := λ c,
  mkConfig (require c) (leaseTTL c) (recordTTL c) (maxRequestBody c) (maxResponseBody
    c) (bypassLargeBody c) (policy c) (errorWriter c) (failOpen c) (methods c)
    (storeHeaders c) (keyScope c) (Some fn) (hashKeysInLogs c) (replayedHeader c).
Definition HashKeysInLogs (v : bool) : Option := λ c,
  mkConfig (require c) (leaseTTL c) (recordTTL c) (maxRequestBody c) (maxResponseBody
    c) (bypassLargeBody c) (policy c) (errorWriter c) (failOpen c) (methods c)
    (storeHeaders c) (keyScope c) (keyValidator c) v (replayedHeader c).
Definition ReplayedHeader (v : bool) : Option := λ c,
  mkConfig (require c) (leaseTTL c) (recordTTL c) (maxRequestBody c) (maxResponseBody
    c) (bypassLargeBody c) (policy c) (errorWriter c) (failOpen c) (methods c)
    (storeHeaders c) (keyScope c) (keyValidator c) (hashKeysInLogs c) v.

Definition default_config : config C :=
  mkConfig false 0%Z 0%Z httpidem.DefaultMaxRequestBody httpidem.DefaultMaxResponseBody false DefaultPolicy
    DefaultErrorWriter false {[bs "POST"; bs "PATCH"]}
    [bs "Content-Type"; bs "Content-Language"; bs "Content-Encoding"; bs "Content-Disposition";
     bs "Location"]
    None None false true.

(** The configuration New builds from its options, applied in order. *)
Definition New_config (opts : list Option) : config C := foldl (λ c o, o c) default_config opts.
End options.

(** ** The capturing writer *)

Record captureWriter (W : Type) := mkCaptureWriter {
  cw_ResponseWriter : W;
  cw_rec : Recorder;
  cw_pending : Z;
  cw_snapshotted : bool;
}.
Arguments mkCaptureWriter {W} _ _ _ _.
Arguments cw_ResponseWriter {W} _.
Arguments cw_rec {W} _.
Arguments cw_pending {W} _.
Arguments cw_snapshotted {W} _.

Section capture_writer.
Context {W : Type} `{GinWriter W}.

Definition set_rw (w : W) (cw : captureWriter W) : captureWriter W :=
  mkCaptureWriter w (cw_rec cw) (cw_pending cw) (cw_snapshotted cw).
Definition set_rec (rec : Recorder) (cw : captureWriter W) : captureWriter W :=
  mkCaptureWriter (cw_ResponseWriter cw) rec (cw_pending cw) (cw_snapshotted cw).

Definition cw_WriteHeader (code : Z) (cw : captureWriter W) : captureWriter W :=
  let cw :=
    if negb (cw_snapshotted cw) && (200 <=? code)%Z
    then mkCaptureWriter (cw_ResponseWriter cw) (cw_rec cw) code (cw_snapshotted cw)
    else cw in
  set_rw (gin_WriteHeader code (cw_ResponseWriter cw)) cw.

(** [w.snapshot()]: freezes status and headers. *)
Definition cw_snapshot (cw : captureWriter W) : captureWriter W :=
  if cw_snapshotted cw then cw else
  let code := cw_pending cw in
  let code := if (code =? 0)%Z then 200%Z else code in
  mkCaptureWriter (cw_ResponseWriter cw)
    (RecordStatus code (gin_Header (cw_ResponseWriter cw)) (cw_rec cw)) (cw_pending cw) true.

Definition cw_Write (p : bytes) (cw : captureWriter W)
    : captureWriter W * (Z * option error + bytes) :=
  let cw := cw_snapshot cw in
  let cw := set_rec (RecordBody p (cw_rec cw)) cw in
  let '(w, x) := gin_Write p (cw_ResponseWriter cw) in
  (set_rw w cw, x).

Definition cw_WriteString (s : bytes) (cw : captureWriter W)
    : captureWriter W * (Z * option error + bytes) :=
  let cw := cw_snapshot cw in
  let cw := set_rec (RecordBody s (cw_rec cw)) cw in
  let '(w, x) := gin_WriteString s (cw_ResponseWriter cw) in
  (set_rw w cw, x).

Definition cw_WriteHeaderNow (cw : captureWriter W) : captureWriter W * option bytes :=
  let cw := cw_snapshot cw in
  let '(w, panicked) := gin_WriteHeaderNow (cw_ResponseWriter cw) in
  (set_rw w cw, panicked).

Definition cw_Flush (cw : captureWriter W) : captureWriter W :=
  let cw := set_rec (Abandon (cw_rec cw)) cw in
  set_rw (gin_Flush (cw_ResponseWriter cw)) cw.

Definition cw_Hijack (cw : captureWriter W) : captureWriter W * option error :=
  let '(w, err) := gin_Hijack (cw_ResponseWriter cw) in
  let cw := set_rw w cw in
  match err with
  | None => (set_rec (Abandon (cw_rec cw)) cw, err)
  | Some _ => (cw, err)
  end.

Definition finalize (cw : captureWriter W) : captureWriter W := cw_snapshot cw.

#[global] Instance gin_capture_writer : GinWriter (captureWriter W) := {
  gin_Header cw := gin_Header (cw_ResponseWriter cw);
  gin_SetHeader h cw := set_rw (gin_SetHeader h (cw_ResponseWriter cw)) cw;
  gin_WriteHeader := cw_WriteHeader;
  gin_Write := cw_Write;
  gin_WriteString := cw_WriteString;
  gin_WriteHeaderNow := cw_WriteHeaderNow;
  gin_Status cw := gin_Status (cw_ResponseWriter cw);
  gin_Written cw := gin_Written (cw_ResponseWriter cw);
  gin_Size cw := gin_Size (cw_ResponseWriter cw);
  gin_Flush := cw_Flush;
  gin_Hijack := cw_Hijack;
}.
End capture_writer.

(** ** The adapter *)

(** What the adapter leaves in the context: it called [c.Next()], called
    [c.Abort()], or neither, with the original writer in [c.Writer]; or
    [c.Next()] panicked and the capturing writer, with this capture, is
    still there. *)
Inductive ctl :=
  | NextCalled
  | Aborted
  | Neither
  | CaptureLeft (rec : Recorder) (pending : Z) (snapshotted : bool).

(** [retryAfterSeconds]: int64 arithmetic, rounding up, at least 1. *)
Definition retryAfterSeconds (d : Duration) : bytes :=
  let secs := Z.quot (i64 (i64 (d + Second) - 1)) Second in
  let secs := if (secs <? 1)%Z then 1%Z else secs in
  FormatInt secs.

Definition hashForLog (s : bytes) : bytes :=
  bs "sha256:" ++ EncodeToString (take 8 (sha256.Sum256 s)).

(** [readBody]; [max+1] is int64 arithmetic. *)
Definition readBody (r : Request) (max : Z) : (bytes * bool + error) * Request :=
  match r_Body r with
  | None => (inl ([], false), r)
  | Some rd =>
      let '(x, rd) := ReadAllLimited (i64 (max + 1)) rd in
      let r := set_body r rd in
      match x with
      | inr err => (inr err, r)
      | inl body => (inl (body, (max <? Z.of_nat (length body))%Z), r)
      end
  end.

Definition err_key_validator : error :=
  Errorf_w_suffix ErrKeyInvalid (bs ": rejected by KeyValidator").
Definition err_reading_body (e : error) : error :=
  Errorf_prefix_w (bs "ginadapter: reading request body: ") e.
Definition err_corrupted : error := errText (bs "ginadapter: corrupted stored response payload").

Section adapter.
Context {W C : Type} `{GinWriter W}.
Implicit Types (cfg : config C) (w : W) (r : Request) (b : boxes).

Definition keyAttrs (cfg : config C) (scope key : bytes) : list (bytes * bytes) :=
  let hashed := hashKeysInLogs cfg in
  let key := if hashed then hashForLog key else key in
  let scope := if hashed && negb (bool_decide (scope = [])) then hashForLog scope else scope in
  (bs "idempotency_key", key) ::
  (if negb (bool_decide (scope = [])) then [(bs "idempotency_scope", scope)] else []).

(** [reject]: the error response, then [c.Abort()] unless writing panicked. *)
Definition reject cfg w r b (status : Z) (err : error) : prog (hstate W * outcome * ctl) :=
  '(s, how) ← @hrun W gin_http (r_ctx r) (errorWriter cfg r status (Some err))
               (mkHState w b (r_Body r));
  mret (s, how, match how with Returned => Aborted | Panicked _ => Neither end).

(** [c.Next(); return]. *)
Definition pass (chain : Chain) w r b : prog (hstate W * outcome * ctl) :=
  '(s, how) ← Next chain r (mkHState w b (r_Body r));
  mret (s, how, NextCalled).

Definition writeReplay cfg w r b (scope key payload : bytes) : prog (hstate W * outcome * ctl) :=
  if (i64 (maxResponseBody cfg + maxStoredResponseOverhead) <? Z.of_nat (length payload))%Z then
    _ ← LogError "ginadapter: stored payload exceeds the configured response limits; refusing to replay"
          (keyAttrs cfg scope key ++ [(bs "payload_bytes", FormatInt (Z.of_nat (length payload)))]);
    reject cfg w r b 500 err_corrupted
  else
    match UnmarshalBinary payload with
    | inr err =>
        _ ← LogError "ginadapter: stored response payload is corrupted"
              (keyAttrs cfg scope key ++ error_attr err);
        reject cfg w r b 500 err
    | inl sr =>
        let header := assign_headers (sr_Header sr) (gin_Header w) in
        let header :=
          if replayedHeader cfg
          then Header.Set' HeaderIdempotencyReplayed (bs "true") header else header in
        let w := gin_SetHeader header w in
        let w := gin_WriteHeader (StatusCode sr) w in
        let '(w, x) := gin_Write (sr_Body sr) w in
        match x with
        | inl _ => mret (mkHState w b (r_Body r), Returned, Aborted)
        | inr v => mret (mkHState w b (r_Body r), Panicked v, Neither)
        end
    end.

(** Finish with Discard, logging [msg] when the store fails. *)
Definition discard_logging cfg (scope key storeKey token : bytes) (o : Options) (msg : string)
    : prog () :=
  '(_, ferr) ← Finish storeKey token Discard [] o;
  match ferr with
  | Some ferr => Warn msg (keyAttrs cfg scope key ++ error_attr ferr)
  | None => mret ()
  end.

(** Streamed and overflowed captures are discarded, with a log line. *)
Definition capture_decision cfg (scope key : bytes) (rec : Recorder) (d : Decision)
    : prog Decision :=
  if bool_decide (d = Persist) then
    if rec_abandoned rec then
      _ ← Warn "ginadapter: response was streamed (Flush/Hijack); discarding instead of persisting"
            (keyAttrs cfg scope key);
      mret Discard
    else if rec_overflowed rec then
      _ ← Warn "ginadapter: response exceeds MaxResponseBody; discarding instead of persisting"
            (keyAttrs cfg scope key);
      mret Discard
    else mret d
  else mret d.

(** The payload of a persisting decision; a failed encoding discards. *)
Definition encode_payload cfg (scope key : bytes) (rec : Recorder) (d : Decision)
    : prog (Decision * bytes) :=
  if bool_decide (d = Persist) then
    match MarshalBinary (default (mkStoredResponse 0 ∅ []) (rec_StoredResponse rec)) with
    | inl payload => mret (d, payload)
    | inr err =>
        _ ← Warn "ginadapter: encoding stored response failed; discarding"
              (keyAttrs cfg scope key ++ error_attr err);
        mret (Discard, [])
    end
  else mret (d, []).

(** The switch on the result of Finish. *)
Definition after_finish cfg (scope key storeKey token : bytes) (o : Options)
    (decision : Decision) (leaseLost : bool) (err : option error) : prog () :=
  match err with
  | Some err =>
      if bool_decide (decision = Persist) then
        _ ← Warn "ginadapter: persisting response failed; idempotency temporarily weakened"
              (keyAttrs cfg scope key ++ error_attr err);
        discard_logging cfg scope key storeKey token o
          "ginadapter: best-effort release failed; key stays reserved until lease expiry"
      else
        Warn "ginadapter: releasing reservation failed; key stays reserved until lease expiry"
          (keyAttrs cfg scope key ++ error_attr err)
  | None =>
      if leaseLost then
        Warn "ginadapter: lease lost during execution; response returned but not stored for replay"
          (keyAttrs cfg scope key ++ [(bs "event", bs "lease_lost")])
      else mret ()
  end.

(** From the policy on, once the chain returned without having finished. *)
Definition finish_response_record cfg (scope key storeKey token : bytes) (o : Options)
    (rec : Recorder) (handlerErr : option error) : prog () :=
  let decision := policy cfg (Status rec) handlerErr in
  decision ← capture_decision cfg scope key rec decision;
  '(decision, payload) ← encode_payload cfg scope key rec decision;
  '(leaseLost, err) ← Finish storeKey token decision payload o;
  after_finish cfg scope key storeKey token o decision leaseLost err.

(** [c.Writer = orig]; after a panic, the writer under the capturing one. *)
Definition restore (s : hstate (captureWriter W)) : hstate W :=
  set_w (cw_ResponseWriter (hs_w s)) s.

(** Proceed: the rest of the chain under capture, then Finish; the deferred
    recovery is the [Panicked] branch, which does not put the original writer
    back: what a recovery outside writes to [c.Writer] goes through the
    capture that is left. *)
Definition proceed cfg (chain : Chain) w r b (scope key storeKey token : bytes) (o : Options)
    : prog (hstate W * outcome * ctl) :=
  let cw := mkCaptureWriter w (NewRecorder (maxResponseBody cfg) (storeHeaders cfg)) 0 false in
  let '(ctx, b, handlerErr) := ErrorChannel (r_ctx r) b in
  let ctx := ContextWithReservation ctx (mkReservation storeKey token (Effective o)) in
  let '(ctx, b, finished) := FinishChannel ctx b in
  '(s, how) ← Next chain (WithContext r ctx) (mkHState cw b (r_Body r));
  match how with
  | Panicked v =>
      _ ← (if finished (hs_boxes s) then mret ()
           else discard_logging cfg scope key storeKey token o
                  "ginadapter: releasing reservation after handler panic failed");
      let cw := hs_w s in
      mret (restore s, Panicked v, CaptureLeft (cw_rec cw) (cw_pending cw) (cw_snapshotted cw))
  | Returned =>
      let s := set_w (finalize (hs_w s)) s in
      if finished (hs_boxes s) then mret (restore s, Returned, NextCalled) else
      _ ← finish_response_record cfg scope key storeKey token o (cw_rec (hs_w s))
            (handlerErr (hs_boxes s));
      mret (restore s, Returned, NextCalled)
  end.

(** From Begin on; [r] holds the buffered body. *)
Definition begin_and_act cfg (chain : Chain) (c : C) w r b (key body : bytes)
    : prog (hstate W * outcome * ctl) :=
  let fingerprint := Fingerprint (r_Method r) (r_URL r) body in
  let scope := match keyScope cfg with Some f => f c r | None => [] end in
  let storeKey := storeKey scope key in
  let o := mkOptions (leaseTTL cfg) (recordTTL cfg) in
  out ← Begin storeKey fingerprint o;
  match out with
  | inr err =>
      if failOpen cfg then
        _ ← Warn "ginadapter: store unavailable; proceeding without idempotency (FailOpen)"
              (keyAttrs cfg scope key ++ error_attr err);
        pass chain w r b
      else reject cfg w r b 503 (Errorf_w_w ErrStoreUnavailable err)
  | inl out =>
      match out_Action out with
      | Replay => writeReplay cfg w r b scope key (out_Payload out)
      | RejectInFlight =>
          let w := gin_SetHeader (Header.Set' (bs "Retry-After")
                     (retryAfterSeconds (out_RetryAfter out)) (gin_Header w)) w in
          reject cfg w r b 409 ErrInFlight
      | RejectFingerprintMismatch => reject cfg w r b 422 ErrFingerprintMismatch
      | Proceed => proceed cfg chain w r b scope key storeKey (out_Token out) o
      end
  end.

Definition handle cfg (chain : Chain) (c : C) w r b : prog (hstate W * outcome * ctl) :=
  if negb (bool_decide (ToUpper (r_Method r) ∈ methods cfg)) then pass chain w r b else
  match KeyFromHeader (r_Header r) with
  | inr err =>
      if Is err ErrKeyMissing && negb (require cfg) then pass chain w r b
      else reject cfg w r b 400 err
  | inl key =>
      if match keyValidator cfg with Some f => negb (f key) | None => false end
      then reject cfg w r b 400 err_key_validator else
      let '(res, r) := readBody r (maxRequestBody cfg) in
      match res with
      | inr err => reject cfg w r b 400 (err_reading_body err)
      | inl (body, true) =>
          if negb (bypassLargeBody cfg) then reject cfg w r b 413 ErrRequestBodyTooLarge else
          _ ← Warn "ginadapter: request body exceeds MaxRequestBody; bypassing idempotency"
                (keyAttrs cfg [] key);
          let rest := default (mkReader [] None) (r_Body r) in
          pass chain w (set_body r (MultiReader body rest)) b
      | inl (body, false) =>
          let r := set_body r (mkReader body None) in
          let r := set_content_length r (Z.of_nat (length body)) in
          begin_and_act cfg chain c w r b key body
      end
  end.

(** Gin's loop over the chain around the adapter: a handler that returns
    having called neither [c.Next()] nor [c.Abort()] is followed by the
    rest of the chain. *)
Definition serve cfg (chain : Chain) (c : C) w r b : prog (hstate W * outcome) :=
  '(s, how, ctl) ← handle cfg chain c w r b;
  match how, ctl with
  | Returned, Neither => Next chain r s
  | _, _ => mret (s, how)
  end.

End adapter.

End ginadapter.
