(* ===== verification/GinClaims.v ===== *)
(** * What the Gin adapter captures and replays

    Under the documented behaviour of Gin's writer: the capture of a chain
    agrees with what its client was sent, and so does the replay. *)
From S2P Require Import Prelude GoLib GoHttp Errors Record Store Effects Core Key.
From S2P Require Import StoredResponse Context Http Recorder RecorderSpec Problem HttpClaims Gin.
From S2P Require Import Ginadapter Memstore MiddlewareSpec.
Import ginadapter.

(** A chain that does not hijack and sets no status outside [ok]. *)
Fixpoint codes_in (ok : Z → Prop) (p : chain_prog) : Prop :=
  match p with
  | GReturn | GPanic _ => True
  | GHeader k => ∀ x, codes_in ok (k x)
  | GWriteHeader code k => ok code ∧ codes_in ok k
  | GSetHeader _ k | GWriteHeaderNow k | GFlush k | GSetError _ k | GMarkFinished k => codes_in ok k
  | GWrite _ k | GWriteString _ k => ∀ x, codes_in ok (k x)
  | GStatus k | GSize k => ∀ x, codes_in ok (k x)
  | GWritten k => ∀ x, codes_in ok (k x)
  | GHijack _ => False
  | GRead _ k => ∀ x, codes_in ok (k x)
  | GReservation k => ∀ x, codes_in ok (k x)
  | GCall _ k => ∀ x, codes_in ok (k x)
  end.

(** Informational statuses are left out. *)
Definition final_code (code : Z) : Prop := ¬ (1 ≤ code ≤ 199)%Z.
Abbreviation plain := (codes_in final_code).

(** What every operation of a chain preserves holds at its end. *)
Lemma grun_inv {V S} `{GinWriter V, Store S} (P : V → Prop) (ok : Z → Prop) :
  (∀ h w, P w → P (gin_SetHeader h w)) →
  (∀ code w, ok code → P w → P (gin_WriteHeader code w)) →
  (∀ p w w' x, gin_Write p w = (w', inl x) → P w → P w') →
  (∀ p w w' x, gin_WriteString p w = (w', inl x) → P w → P w') →
  (∀ w w', gin_WriteHeaderNow w = (w', None) → P w → P w') →
  (∀ w, P w → P (gin_Flush w)) →
  ∀ ctx p (s s' : hstate V) (wd wd' : world S),
    codes_in ok p → P (hs_w s) → run (grun ctx p s) wd = ((s', Returned), wd') → P (hs_w s').
Proof.
  intros Hh Hc Hw Hws Hn Hf ctx p.
  induction p as [|v|k IH|h p IH|code p IH|b k IH|b k IH|p IH|k IH|k IH|k IH|p IH|k IH|n k IH|e p IH|p IH|k IH|X q k IH];
    intros s s' wd wd'; simpl; intros Hp Hs Hrun; try done;
    try (eapply IH; [apply Hp| |exact Hrun]; simpl; by auto).
  - by injection Hrun as <- _.
  - destruct Hp as [? Hp]. eapply IH; [exact Hp| |exact Hrun]. simpl. auto.
  - destruct (gin_Write b _) as [w [x|v]] eqn:E; [|done].
    eapply IH; [apply Hp| |exact Hrun]. simpl. eauto.
  - destruct (gin_WriteString b _) as [w [x|v]] eqn:E; [|done].
    eapply IH; [apply Hp| |exact Hrun]. simpl. eauto.
  - destruct (gin_WriteHeaderNow _) as [w [v|]] eqn:E; [done|].
    eapply IH; [apply Hp| |exact Hrun]. simpl. eauto.
  - unfold read_body in Hrun.
    destruct (hs_body s) as [r|]; [destruct (rd_Read n r) as [x r']|]; (eapply IH; [apply Hp| |exact Hrun]; done).
  - rewrite run_bind in Hrun. destruct (run q wd) as [x wd1].
    eapply IH; [apply Hp|exact Hs|exact Hrun].
Qed.

Section capture.
Context {W : Type} `{GinLaws W} (s0 : Z).
Hypothesis Hs0 : (200 ≤ s0 ≤ 999)%Z.

(** The status the Recorder holds for a sent one: itself, unless the chain
    set none and the writer came with another status than 200. *)
Definition recorded_as (status code : Z) : Prop := status = code ∨ (status = 200%Z ∧ code = s0).

(** Nothing sent, nothing recorded. *)
Definition unsent (cw : captureWriter W) : Prop :=
  let w := cw_ResponseWriter cw in
  let rec := cw_rec cw in
  cw_snapshotted cw = false ∧ sent w = None ∧ body w = [] ∧
  rec_status rec = 0%Z ∧ rec_body rec = [] ∧ rec_overflowed rec = false ∧
  ((cw_pending cw = 0 ∧ gin_Status w = s0) ∨ (200 ≤ cw_pending cw ∧ gin_Status w = cw_pending cw))%Z.

(** The head sent and recorded, the body [bo] recorded. *)
Definition started_at (bo : bytes) (cw : captureWriter W) : Prop :=
  let w := cw_ResponseWriter cw in
  let rec := cw_rec cw in
  cw_snapshotted cw = true ∧ ∃ code h,
    sent w = Some (code, h) ∧ gin_Status w = code ∧ (200 ≤ code ≤ 999)%Z ∧
    recorded_as (rec_status rec) code ∧ (200 ≤ rec_status rec ≤ 999)%Z ∧
    rec_header rec = Some (snapshot (allow rec) h) ∧
    (rec_overflowed rec = true ∨ bo = append_body code (rec_body rec)).
Definition started (cw : captureWriter W) : Prop := started_at (body (cw_ResponseWriter cw)) cw.

Definition agrees (cw : captureWriter W) : Prop :=
  rec_abandoned (cw_rec cw) = true ∨
  (rec_abandoned (cw_rec cw) = false ∧ intact (cw_ResponseWriter cw) ∧ (unsent cw ∨ started cw)).

Lemma gin_agrees_SetHeader h cw : agrees cw → agrees (gin_SetHeader h cw).
Proof.
  intros [Hab|(Hab & Hi & Hag)]; [by left|right]. simpl.
  destruct (SetHeader_law h _ Hi) as (Hi' & Hst & Hse & Hb).
  split; [done|]. split; [done|]. unfold unsent, started, started_at in *. simpl. by rewrite Hst, Hse, Hb.
Qed.

Lemma gin_agrees_WriteHeader code cw :
  final_code code → agrees cw → agrees (cw_WriteHeader code cw).
Proof.
  unfold final_code.
  intros Hc Hag. unfold cw_WriteHeader.
  assert (∀ b : bool, cw_ResponseWriter (if b
    then mkCaptureWriter (cw_ResponseWriter cw) (cw_rec cw) code (cw_snapshotted cw) else cw)
    = cw_ResponseWriter cw) as -> by (by intros []).
  destruct Hag as [Hab|(Hab & Hi & Hag)]; [left; by destruct (_ && _)|right].
  destruct (WriteHeader_law code _ Hi) as (Hi' & _ & Hse & Hb & Hst).
  destruct Hag as [(Hsn & Hs & Hbo & Hr & Hrb & Ho & Hp)|(Hsn & code0 & h & Hs & Hstat & Hrest)].
  - rewrite Hs in Hst. destruct (Z.leb_spec 200 code) as [Hge|Hlt]; rewrite Hsn; simpl.
    + rewrite (proj2 (Z.ltb_lt 0 code)) in Hst by lia.
      split; [done|]. split; [done|]. left. unfold unsent. simpl. rewrite Hse, Hb, Hst.
      split_and!; auto.
    + rewrite (proj2 (Z.ltb_ge 0 code)) in Hst by lia.
      split; [done|]. split; [done|]. left. unfold unsent. simpl. by rewrite Hse, Hb, Hst.
  - rewrite Hs in Hst. rewrite Hsn. simpl. split; [done|]. split; [done|]. right. unfold started, started_at.
    simpl. rewrite Hse, Hb, Hst. split; [done|]. by exists code0, h.
Qed.

Lemma snapshot_same cw :
  cw_ResponseWriter (cw_snapshot cw) = cw_ResponseWriter cw ∧
  rec_abandoned (cw_rec (cw_snapshot cw)) = rec_abandoned (cw_rec cw) ∧
  allow (cw_rec (cw_snapshot cw)) = allow (cw_rec cw).
Proof using.
  unfold cw_snapshot. destruct (cw_snapshotted cw); [done|]. simpl.
  rewrite RecordStatus_abandoned. unfold RecordStatus. by destruct (_ || _).
Qed.

(** A snapshot before anything is sent: the noted status, or 200. *)
Lemma snapshot_unsent cw :
  unsent cw →
  let cw' := cw_snapshot cw in
  let status := gin_Status (cw_ResponseWriter cw) in
  cw_snapshotted cw' = true ∧ recorded_as (rec_status (cw_rec cw')) status ∧
  (200 ≤ status)%Z ∧ (200 ≤ rec_status (cw_rec cw'))%Z ∧
  (status ≤ 999 → rec_status (cw_rec cw') ≤ 999)%Z ∧
  rec_header (cw_rec cw') =
    Some (snapshot (allow (cw_rec cw')) (gin_Header (cw_ResponseWriter cw))) ∧
  rec_body (cw_rec cw') = [] ∧ rec_overflowed (cw_rec cw') = false.
Proof.
  intros (Hsn & _ & _ & Hr & Hrb & Ho & Hp). cbv zeta.
  unfold cw_snapshot, RecordStatus. rewrite Hsn. cbn [cw_rec cw_snapshotted cw_ResponseWriter].
  rewrite Hr. unfold recorded_as. destruct Hp as [[-> Hst]|[Hge Hst]]; rewrite Hst.
  - simpl. rewrite Hrb, Ho. split_and!; auto; lia.
  - rewrite (proj2 (Z.eqb_neq (cw_pending cw) 0)) by lia.
    rewrite (proj2 (Z.ltb_ge (cw_pending cw) 200)), andb_false_r by lia. simpl.
    rewrite Hrb, Ho. split_and!; auto; lia.
Qed.

(** Sending the head after a snapshot. *)
Lemma started_snapshot cw w' :
  unsent cw ∨ started cw →
  (gin_Status (cw_ResponseWriter cw) ≤ 999)%Z →
  gin_Status w' = gin_Status (cw_ResponseWriter cw) →
  sent w' = Some (default (gin_Status (cw_ResponseWriter cw), gin_Header (cw_ResponseWriter cw))
    (sent (cw_ResponseWriter cw))) →
  started_at (body (cw_ResponseWriter cw)) (set_rw w' (cw_snapshot cw)).
Proof.
  intros Hag Hle Hst Hse. unfold started_at. simpl. destruct Hag as [Hun|Hs].
  - destruct (snapshot_unsent cw Hun) as (Hsn & Hra & Hge & Hr200 & Hr999 & Hh & Hrb & Ho).
    destruct Hun as (_ & Hns & Hbo & _). rewrite Hns in Hse. simpl in Hse.
    split; [done|]. eexists _, _. rewrite Hse, Hst, Hbo, Hrb. split_and!; auto. right.
    unfold append_body. by destruct (bodyAllowed _).
  - destruct Hs as (Hsn & code & h & Hs & Hstat & Hrest). rewrite Hs in Hse. simpl in Hse.
    unfold cw_snapshot. rewrite Hsn. split; [done|]. exists code, h. rewrite Hse, Hst. auto.
Qed.

(** Recording what is appended to the body. *)
Lemma started_body bo cw code h p :
  started_at bo cw → rec_abandoned (cw_rec cw) = false → sent (cw_ResponseWriter cw) = Some (code, h) →
  started_at (bo ++ append_body code p) (set_rec (RecordBody p (cw_rec cw)) cw).
Proof.
  intros (Hsn & code0 & h0 & Hs & Hst & Hc & Hra & Hr & Hh & Hb) Hab Hs'.
  rewrite Hs in Hs'. injection Hs' as -> ->. unfold started_at. simpl. split; [done|]. exists code, h.
  unfold RecordBody. rewrite Hab. destruct (rec_overflowed (cw_rec cw)) eqn:Eo; cbn [orb].
  - rewrite Eo. split_and!; auto; apply Hr || apply Hc.
  - destruct Hb as [?| ->]; [done|].
    destruct (_ <? _)%Z; simpl; split_and!; auto; try (apply Hr || apply Hc). right.
    unfold append_body. by destruct (bodyAllowed _).
Qed.

Lemma gin_agrees_Write p cw cw' x : cw_Write p cw = (cw', inl x) → agrees cw → agrees cw'.
Proof.
  unfold cw_Write. intros Hcw Hag. destruct (snapshot_same cw) as (Hw & Hab' & _).
  cbn [cw_ResponseWriter set_rec] in Hcw. rewrite Hw in Hcw.
  destruct (gin_Write p (cw_ResponseWriter cw)) as [w' y] eqn:Ew. simplify_eq/=.
  destruct Hag as [Hab|(Hab & Hi & Hag)]; [left; simpl; by rewrite RecordBody_abandoned, Hab'|right].
  cbn [cw_rec set_rw set_rec cw_ResponseWriter]. rewrite RecordBody_abandoned, Hab'. split; [done|].
  assert (200 ≤ gin_Status (cw_ResponseWriter cw) ≤ 999)%Z as Hst.
  { destruct Hag as [Hun|(_ & code & h & _ & -> & ? & _)]; [|done].
    destruct (snapshot_unsent cw Hun) as (_ & _ & Hge & _). split; [done|].
    destruct (Z.le_gt_cases (gin_Status (cw_ResponseWriter cw)) 999); [done|].
    destruct Hun as (_ & Hns & _).
    destruct (status_panics _ Hi Hns ltac:(lia)) as [_ Hp]. destruct (Hp p) as (? & ? & ?). congruence. }
  destruct (Write_law p _ Hi Hst) as (w1 & x1 & code & h & Hw1 & Hi' & _ & Hst' & Hd & Hs' & Hb').
  rewrite Hw1 in Ew. simplify_eq. split; [done|]. right.
  assert (started_at (body (cw_ResponseWriter cw)) (set_rw w' (cw_snapshot cw))) as Hstart.
  { apply started_snapshot; [done|lia|done|by rewrite Hd]. }
  apply (started_body _ _ code h p) in Hstart; [|simpl; by rewrite Hab'|done].
  unfold started. simpl. rewrite Hb'. exact Hstart.
Qed.

Lemma cw_WriteString_Write p cw : cw_WriteString p cw = cw_Write p cw.
Proof. unfold cw_WriteString, cw_Write. by rewrite WriteString_law. Qed.

Lemma agrees_WriteHeaderNow cw cw' : cw_WriteHeaderNow cw = (cw', None) → agrees cw → agrees cw'.
Proof.
  unfold cw_WriteHeaderNow. intros Hcw Hag. destruct (snapshot_same cw) as (Hw & Hab' & _).
  rewrite Hw in Hcw. destruct (gin_WriteHeaderNow (cw_ResponseWriter cw)) as [w' y] eqn:Ew.
  simplify_eq/=. destruct Hag as [Hab|(Hab & Hi & Hag)]; [left; simpl; by rewrite Hab'|right].
  simpl. rewrite Hab'. split; [done|].
  assert (200 ≤ gin_Status (cw_ResponseWriter cw) ≤ 999)%Z as Hst.
  { destruct Hag as [Hun|(_ & code & h & _ & -> & ? & _)]; [|done].
    destruct (snapshot_unsent cw Hun) as (_ & _ & Hge & _). split; [done|].
    destruct (Z.le_gt_cases (gin_Status (cw_ResponseWriter cw)) 999); [done|].
    destruct Hun as (_ & Hns & _).
    destruct (status_panics _ Hi Hns ltac:(lia)) as [(? & ? & ?) _]. congruence. }
  destruct (WriteHeaderNow_law _ Hi Hst) as (w1 & Hw1 & Hi' & _ & Hst' & Hb' & Hs').
  rewrite Hw1 in Ew. simplify_eq. split; [done|]. right. unfold started. simpl. rewrite Hb'.
  apply started_snapshot; [done|lia|done|done].
Qed.

Lemma gin_agrees_Flush cw : agrees (cw_Flush cw).
Proof. by left. Qed.

Lemma gin_agrees_initial w maxb names :
  intact w → sent w = None → body w = [] → gin_Status w = s0 →
  agrees (mkCaptureWriter w (NewRecorder maxb names) 0 false).
Proof. intros Hi Hs Hb Hst. right. split; [done|]. split; [done|]. left. by split_and!; auto. Qed.

Lemma grun_agrees {S} `{Store S} ctx p (s s' : hstate (captureWriter W)) (wd wd' : world S) :
  plain p → agrees (hs_w s) → run (grun ctx p s) wd = ((s', Returned), wd') → agrees (hs_w s').
Proof.
  apply (grun_inv agrees final_code).
  - apply gin_agrees_SetHeader.
  - apply gin_agrees_WriteHeader.
  - apply gin_agrees_Write.
  - intros q w w' x E. apply (gin_agrees_Write q w w' x). rewrite <-cw_WriteString_Write. exact E.
  - apply agrees_WriteHeaderNow.
  - intros w _. apply gin_agrees_Flush.
Qed.

(** The configuration of the Recorder stays. *)
Definition records_for (maxb : Z) (names : list bytes) (cw : captureWriter W) : Prop :=
  recorded maxb names (cw_rec cw).

Lemma snapshot_records maxb names cw : records_for maxb names cw → records_for maxb names (cw_snapshot cw).
Proof using. unfold records_for, cw_snapshot. destruct (cw_snapshotted cw); [done|]. by constructor. Qed.

Lemma grun_records {S} `{Store S} ok maxb names ctx p (s s' : hstate (captureWriter W)) (wd wd' : world S) :
  codes_in ok p → records_for maxb names (hs_w s) → run (grun ctx p s) wd = ((s', Returned), wd') →
  records_for maxb names (hs_w s').
Proof using.
  apply (grun_inv (records_for maxb names) ok).
  - done.
  - intros code cw _ Hr. unfold records_for in *. simpl. unfold cw_WriteHeader. by destruct (_ && _).
  - intros q cw cw' x E Hr%snapshot_records. simpl in E. unfold cw_Write in E.
    destruct (gin_Write _ _). simplify_eq. by constructor.
  - intros q cw cw' x E Hr%snapshot_records. simpl in E. unfold cw_WriteString in E.
    destruct (gin_WriteString _ _). simplify_eq. by constructor.
  - intros cw cw' E Hr%snapshot_records. simpl in E. unfold cw_WriteHeaderNow in E.
    destruct (gin_WriteHeaderNow _). by simplify_eq.
  - intros cw Hr. by constructor.
Qed.

(** A usable capture against what is sent once the chain is done. *)
Lemma captured_sent cw sr w1 :
  agrees cw → rec_StoredResponse (cw_rec (finalize cw)) = Some sr →
  gin_WriteHeaderNow (cw_ResponseWriter (finalize cw)) = (w1, None) →
  ∃ code h, sent w1 = Some (code, h) ∧ recorded_as (StatusCode sr) code ∧
    (200 ≤ StatusCode sr ≤ 999)%Z ∧
    sr_Header sr = snapshot (allow (cw_rec (finalize cw))) h ∧
    body w1 = append_body code (sr_Body sr).
Proof.
  intros Hag Hsr Hnow. unfold finalize in *. destruct (snapshot_same cw) as (Hw & Hab' & _).
  rewrite Hw in Hnow. unfold rec_StoredResponse in Hsr.
  destruct (rec_overflowed (cw_rec (cw_snapshot cw))) eqn:Eo; [done|]. rewrite Hab' in Hsr.
  destruct Hag as [Hab|(Hab & Hi & Hag)]; [by rewrite Hab in Hsr|]. rewrite Hab in Hsr. simplify_eq/=.
  assert (agrees (set_rw w1 (cw_snapshot cw))) as Hag'.
  { eapply agrees_WriteHeaderNow; [|right; exact (conj Hab (conj Hi Hag))].
    unfold cw_WriteHeaderNow. by rewrite Hw, Hnow. }
  destruct Hag' as [Hab1|(_ & _ & Hag')]; [simpl in Hab1; congruence|].
  destruct Hag' as [(Hsn & _)|(_ & code & h & Hs & Hst & Hc & Hra & Hr & Hh & Hb)].
  { exfalso. unfold cw_snapshot in Hsn. destruct (cw_snapshotted cw) eqn:E; simpl in Hsn; congruence. }
  simpl in *. exists code, h. rewrite Hh. unfold Status.
  rewrite (proj2 (Z.eqb_neq (rec_status _) 0)) by lia. split_and!; try done; try apply Hr.
  destruct Hb; [congruence|done].
Qed.

(** A chain that sets no status is captured as 200, whatever status the
    writer came with. *)
Lemma captured_unset {S} `{Store S} w maxb names ctx p b bd (s : hstate (captureWriter W))
    (wd wd' : world S) sr :
  codes_in (λ _, False) p →
  run (grun ctx p (mkHState (mkCaptureWriter w (NewRecorder maxb names) 0 false) b bd)) wd
    = ((s, Returned), wd') →
  rec_StoredResponse (cw_rec (finalize (hs_w s))) = Some sr → StatusCode sr = 200%Z.
Proof using.
  intros Hp Hrun Hsr.
  set (P := λ cw : captureWriter W, cw_pending cw = 0%Z ∧
    rec_status (cw_rec cw) = if cw_snapshotted cw then 200%Z else 0%Z).
  assert (∀ cw, P cw → P (cw_snapshot cw)) as Hsnap.
  { intros cw [Hpe Hst]. unfold P, cw_snapshot. destruct (cw_snapshotted cw) eqn:E; [by rewrite E|].
    simpl. rewrite Hpe. simpl. unfold RecordStatus. by rewrite Hst. }
  assert (∀ q cw, P cw → P (set_rec (RecordBody q (cw_rec cw)) cw)) as Hbody.
  { intros q cw [Hpe Hst]. split; [done|]. simpl. rewrite <-Hst. unfold RecordBody.
    destruct (_ || _); [done|]. by destruct (_ <? _)%Z. }
  assert (P (hs_w s)) as Hs.
  { eapply (grun_inv P (λ _, False)); [..|exact Hp| |exact Hrun]; try done.
    - intros q cw cw' x E Hcw%Hsnap%(Hbody q). simpl in E. unfold cw_Write in E.
      destruct (gin_Write _ _). by simplify_eq.
    - intros q cw cw' x E Hcw%Hsnap%(Hbody q). simpl in E. unfold cw_WriteString in E.
      destruct (gin_WriteString _ _). by simplify_eq.
    - intros cw cw' E Hcw%Hsnap. simpl in E. unfold cw_WriteHeaderNow in E.
      destruct (gin_WriteHeaderNow _). by simplify_eq. }
  apply Hsnap in Hs as [_ Hst]. fold (finalize (hs_w s)) in Hst.
  assert (cw_snapshotted (finalize (hs_w s)) = true) as Hsn.
  { unfold finalize, cw_snapshot. by destruct (cw_snapshotted (hs_w s)) eqn:E. }
  rewrite Hsn in Hst. unfold rec_StoredResponse, Status in Hsr.
  destruct (_ || _); [done|]. simplify_eq/=. by rewrite Hst.
Qed.
End capture.

(** ** Replays *)

Definition marked {C} (cfg : config C) (h : header) : header :=
  if replayedHeader cfg then Header.Set' HeaderIdempotencyReplayed (bs "true") h else h.

Lemma run_gin_writeReplay {W S C} `{GinLaws W, Store S} (cfg : config C) (w : W) r b scope key payload sr
    (wd : world S) :
  (Z.of_nat (length payload) ≤ maxResponseBody cfg + maxStoredResponseOverhead ≤ max_int64)%Z →
  UnmarshalBinary payload = inl sr → (200 ≤ StatusCode sr ≤ 999)%Z →
  intact w → sent w = None → body w = [] →
  ∃ w', run (writeReplay cfg w r b scope key payload) wd
          = ((mkHState w' b (r_Body r), Returned, Aborted), wd) ∧
    sent w' = Some (StatusCode sr, marked cfg (sr_Header sr ∪ gin_Header w)) ∧
    body w' = append_body (StatusCode sr) (sr_Body sr).
Proof.
  intros Hlen Hu Hc Hi Hs Hb. unfold writeReplay.
  rewrite i64_small by (unfold is_i64, min_int64, two63 in *; lia).
  rewrite (proj2 (Z.ltb_ge _ _)) by lia. rewrite Hu.
  unfold assign_headers. fold (marked cfg (sr_Header sr ∪ gin_Header w)).
  set (h := marked _ _).
  destruct (SetHeader_law h w Hi) as (Hi1 & _ & Hs1 & Hb1). pose proof (Header_SetHeader h w) as Hh1.
  set (w1 := gin_SetHeader h w) in *. clearbody w1.
  destruct (WriteHeader_law (StatusCode sr) w1 Hi1) as (Hi2 & Hh2 & Hs2 & Hb2 & Hst2).
  rewrite Hs1, Hs, (proj2 (Z.ltb_lt 0 (StatusCode sr))) in Hst2 by lia.
  set (w2 := gin_WriteHeader (StatusCode sr) w1) in *. clearbody w2.
  destruct (Write_law (sr_Body sr) w2 Hi2 ltac:(lia)) as (w' & x & code & h' & -> & _ & _ & _ & Hd & Hs' & Hb').
  exists w'. split; [done|]. rewrite Hs2, Hs1, Hs, Hst2, Hh2, Hh1 in Hd. simpl in Hd. simplify_eq.
  split; [done|]. by rewrite Hb', Hb2, Hb1, Hb.
Qed.

(** C30. The Gin adapter replays what was sent.  A chain that neither
    hijacks nor sets an informational status runs under capture on an
    untouched Gin writer - setting headers, statuses and body in any order
    Gin allows - and returns with a usable capture.  Once Gin has sent the
    response, replaying the stored payload on another untouched writer
    aborts the chain there and sends the same status and the same body,
    and for each allowlisted header the values the first client got, under
    the Idempotency-Replayed marker. *)
Theorem gin_replay_faithful {W S C : Type} `{GinLaws W, Store S} (cfg : config C) (ctx : context)
    (p : chain_prog) (w w1 w2 : W) (b b2 : boxes) (bd : option reader) (r2 : Request)
    (scope key payload : bytes) (wd wd' wd2 : world S) (s : hstate (captureWriter W))
    (sr : StoredResponse) :
  let rec := NewRecorder (maxResponseBody cfg) (storeHeaders cfg) in
  (* the first response *)
  plain p → intact w → sent w = None → body w = [] → gin_Status w = 200%Z →
  run (grun ctx p (mkHState (mkCaptureWriter w rec 0 false) b bd)) wd = ((s, Returned), wd') →
  rec_StoredResponse (cw_rec (finalize (hs_w s))) = Some sr →
  gin_WriteHeaderNow (cw_ResponseWriter (finalize (hs_w s))) = (w1, None) →
  (* its payload, within the limits *)
  MarshalBinary sr = inl payload → (Z.of_nat (length (storeHeaders cfg)) ≤ maxHeaderNames)%Z →
  (∀ code h, sent w1 = Some (code, h) → header_ok h) → fits (sr_Body sr) →
  (Z.of_nat (length payload) ≤ maxResponseBody cfg + maxStoredResponseOverhead ≤ max_int64)%Z →
  (* the replay *)
  intact w2 → sent w2 = None → body w2 = [] →
  ∃ code h w2', sent w1 = Some (code, h) ∧
    run (writeReplay cfg w2 r2 b2 scope key payload) wd2
      = ((mkHState w2' b2 (r_Body r2), Returned, Aborted), wd2) ∧
    sent w2' = Some (code, marked cfg (snapshot (allow rec) h ∪ gin_Header w2)) ∧
    body w2' = body w1.
Proof.
  intros rec Hp Hi Hs Hb Hst Hrun Hsr Hnow Hmb Hnames Hok Hfits Hlen Hi2 Hs2 Hb2.
  assert (200 ≤ 200 ≤ 999)%Z as Hs0 by lia.
  assert (agrees 200 (hs_w s)) as Hag.
  { eapply (grun_agrees 200 Hs0); [exact Hp| |exact Hrun]. by apply gin_agrees_initial. }
  assert (recorded (maxResponseBody cfg) (storeHeaders cfg) (cw_rec (finalize (hs_w s)))) as Hrec.
  { apply snapshot_records. eapply grun_records; [exact Hp| |exact Hrun]. apply recorded_new. }
  destruct (captured_sent 200 Hs0 _ _ _ Hag Hsr Hnow) as (code & h & Hsent & Hra & Hc & Hh & Hbody).
  assert (StatusCode sr = code) as <- by (destruct Hra as [?|[? ?]]; congruence).
  destruct (recorded_inv _ _ _ Hrec) as [_ Ha _ _ _]. rewrite Ha in Hh.
  pose proof (captured_decodes _ _ _ _ _ Hh Hnames (Hok _ _ Hsent) Hc Hfits Hmb) as Hd.
  destruct (run_gin_writeReplay cfg w2 r2 b2 scope key payload sr wd2 Hlen Hd Hc Hi2 Hs2 Hb2)
    as (w2' & Hrep & Hs2' & Hb2').
  exists (StatusCode sr), h, w2'. by rewrite Hs2', Hb2', Hbody, Hh.
Qed.

(** ** A writer that keeps the laws *)

Module ExampleGin.

Record gw := mkGw {
  gw_header : header; gw_status : Z; gw_sent : option (Z * header); gw_body : bytes;
  gw_hijacked : bool }.

Definition gw_now (w : gw) : gw * option bytes :=
  match gw_sent w with
  | Some _ => (w, None)
  | None =>
      if (gw_status w <? 200)%Z || (999 <? gw_status w)%Z then (w, Some (panic_code (gw_status w)))
      else (mkGw (gw_header w) (gw_status w) (Some (gw_status w, gw_header w)) (gw_body w) (gw_hijacked w),
            None)
  end.

Definition gw_write (p : bytes) (w : gw) : gw * (Z * option error + bytes) :=
  let '(w, panicked) := gw_now w in
  match panicked, gw_sent w with
  | Some v, _ => (w, inr v)
  | None, None => (w, inl (0%Z, None))
  | None, Some (code, _) =>
      (mkGw (gw_header w) (gw_status w) (gw_sent w) (gw_body w ++ append_body code p) (gw_hijacked w),
       inl (Z.of_nat (length p), None))
  end.

#[export] Instance gw_writer : GinWriter gw := {
  gin_Header := gw_header;
  gin_SetHeader h w := mkGw h (gw_status w) (gw_sent w) (gw_body w) (gw_hijacked w);
  gin_WriteHeader code w :=
    match gw_sent w with
    | None => if (0 <? code)%Z then mkGw (gw_header w) code None (gw_body w) (gw_hijacked w) else w
    | Some _ => w
    end;
  gin_Write := gw_write;
  gin_WriteString := gw_write;
  gin_WriteHeaderNow := gw_now;
  gin_Status := gw_status;
  gin_Written w := bool_decide (gw_sent w ≠ None);
  gin_Size w := Z.of_nat (length (gw_body w));
  gin_Flush w := (gw_now w).1;
  gin_Hijack w := (mkGw (gw_header w) (gw_status w) (gw_sent w) (gw_body w) true, None);
}.

#[export] Program Instance gw_laws : GinLaws gw := {
  intact w := gw_hijacked w = false;
  sent := gw_sent;
  body := gw_body;
}.
Next Obligation. done. Qed.
Next Obligation. done. Qed.
Next Obligation. done. Qed.
Next Obligation. intros code w Hi. simpl. by destruct (gw_sent w) eqn:E, (0 <? code)%Z. Qed.
Next Obligation.
  intros w Hi [H1 H2]. simpl in *. unfold gw_now. destruct (gw_sent w) as [x|] eqn:E.
  - exists w. by rewrite E.
  - rewrite (proj2 (Z.ltb_ge _ 200)), (proj2 (Z.ltb_ge 999 _)) by done. by eexists.
Qed.
Next Obligation.
  intros p w Hi [H1 H2]. simpl in *. unfold gw_write, gw_now. destruct (gw_sent w) as [[code h]|] eqn:E.
  - rewrite E. by eexists _, _, code, h.
  - rewrite (proj2 (Z.ltb_ge _ 200)), (proj2 (Z.ltb_ge 999 _)) by done. simpl. by eexists _, _, _, _.
Qed.
Next Obligation. done. Qed.
Next Obligation.
  intros w Hi Hs Hlt. simpl in *. unfold gw_write, gw_now. rewrite Hs.
  rewrite (proj2 (Z.ltb_lt 999 _)), orb_true_r by done. split; [by eexists _, _|]. intros p. by eexists _, _.
Qed.

Definition untouched (status : Z) : gw := mkGw ∅ status None [] false.
Definition cfg : config () := New_config [].
Definition rec : Recorder := NewRecorder (maxResponseBody cfg) (storeHeaders cfg).
Definition wd : world memstore.Store := mkWorld memstore.New (mkInstant 1000%Z 1000%Z) [] [] [].
Definition b0 : boxes := mkBoxes [] [].

(** The status first, the headers later, as [c.Status] and [c.JSON] do. *)
Definition chain : chain_prog :=
  GWriteHeader 201 (GHeader (λ h, GSetHeader (Header.Set' (bs "Content-Type") (bs "text/plain") h)
  (GWrite (bs "ok") (λ _, GReturn)))).
Definition run1 := run (grun Background chain
  (mkHState (mkCaptureWriter (untouched 200) rec 0 false) b0 None)) wd.
Definition s1 : hstate (captureWriter gw) := run1.1.1.
Definition sr1 : StoredResponse :=
  default (mkStoredResponse 0 ∅ []) (rec_StoredResponse (cw_rec (finalize (hs_w s1)))).
Definition payload : bytes := match MarshalBinary sr1 with inl p => p | inr _ => [] end.
Definition sent1 : gw := (gw_now (cw_ResponseWriter (finalize (hs_w s1)))).1.

Lemma gin_run1_eq : run (grun Background chain
  (mkHState (mkCaptureWriter (untouched 200) rec 0 false) b0 None)) wd = ((s1, Returned), run1.2).
Proof. apply pair_outcome. reflexivity. Qed.

Definition sent1_ok (x : option (Z * header)) : bool :=
  match x with
  | Some (code, h) => bool_decide (map_Forall (λ name vs, (Z.of_nat (length name) < two64)%Z ∧
        (Z.of_nat (length vs) ≤ maxHeaderValues)%Z ∧
        Forall (λ v, (Z.of_nat (length v) < two64)%Z) vs) h)
  | None => true
  end.
Lemma sent1_header_ok code h : gw_sent sent1 = Some (code, h) → header_ok h.
Proof.
  assert (sent1_ok (gw_sent sent1) = true) as Hb by (vm_compute; reflexivity).
  intros Hs. rewrite Hs in Hb. unfold sent1_ok in Hb. by apply bool_decide_eq_true in Hb.
Qed.

End ExampleGin.

Import ExampleGin.

Lemma gin_replay_faithful_witness :
  ∃ code h w2', gw_sent sent1 = Some (code, h) ∧
    run (writeReplay cfg (untouched 404) ExampleRequest.req b0 [] (bs "k") payload) wd
      = ((mkHState w2' b0 (r_Body ExampleRequest.req), Returned, Aborted), wd) ∧
    gw_body w2' = gw_body sent1.
Proof.
  destruct (gin_replay_faithful cfg Background chain (untouched 200) sent1 (untouched 404) b0 b0 None
    ExampleRequest.req [] (bs "k") payload wd run1.2 wd s1 sr1) as (code & h & w2' & Hs & Hr & _ & Hb).
  - split; [vm_compute; intros [_ Hc]; by apply Hc|]. intros h. simpl. auto.
  - reflexivity.
  - reflexivity.
  - reflexivity.
  - reflexivity.
  - exact gin_run1_eq.
  - reflexivity.
  - reflexivity.
  - reflexivity.
  - vm_compute. discriminate.
  - exact sent1_header_ok.
  - vm_compute. reflexivity.
  - vm_compute. split; discriminate.
  - reflexivity.
  - reflexivity.
  - reflexivity.
  - exists code, h, w2'. split; [exact Hs|]. split; [exact Hr|exact Hb].
Defined.

(** A middleware registered with [engine.Use] also runs for unmatched
    routes, where Gin notes 404 on its writer before the chain: the client
    is sent 404, the capture says 200. *)
Example gin_unmatched_route :
  let s := (run (grun Background GReturn
    (mkHState (mkCaptureWriter (untouched 404) rec 0 false) b0 None)) wd).1.1 in
  (StatusCode <$> rec_StoredResponse (cw_rec (finalize (hs_w s)))) = Some 200%Z ∧
  fst <$> gw_sent (gw_now (cw_ResponseWriter (finalize (hs_w s)))).1 = Some 404%Z.
Proof. split; reflexivity. Qed.
