(* ===== verification/GinMatch.v ===== *)
(** * The Gin adapter against the net/http middleware

    The package promises the client-observable behaviour of httpidem.  On a
    Gin writer seen as an [http.ResponseWriter], the two run the same calls
    of the store and write the same responses, log lines aside. *)
From S2P Require Import Prelude GoLib GoHttp Errors Record Store Effects Quiet Core Key.
From S2P Require Import Fingerprint StoredResponse Context Http Recorder Problem Config Middleware.
From S2P Require Import MiddlewareSpec Memstore HttpClaims Gin Ginadapter GinClaims.

(** An [http.Handler] at the end of a Gin chain ([gin.WrapH]). *)
Fixpoint embed (p : handler_prog) : chain_prog :=
  match p with
  | HReturn => GReturn
  | HPanic v => GPanic v
  | HHeader k => GHeader (λ x, embed (k x))
  | HSetHeader h k => GSetHeader h (embed k)
  | HWriteHeader code k => GWriteHeader code (embed k)
  | HWrite b k => GWrite b (λ x, embed (k x))
  | HFlush k => GFlush (embed (k None))
  | HHijack k => GHijack (λ x, embed (k x))
  | HPush _ k => embed (k (Some (http_ErrNotSupported : error)))
  | HRead n k => GRead n (λ x, embed (k x))
  | HSetError e k => GSetError e (embed k)
  | HMarkFinished k => GMarkFinished (embed k)
  | HReservation k => GReservation (λ x, embed (k x))
  | HCall p k => GCall p (λ x, embed (k x))
  end.

(** The options of the adapter as options of httpidem. *)
Definition to_http {C} (cfg : ginadapter.config C) (c : C) : httpidem.config :=
  httpidem.mkConfig (ginadapter.require cfg) (ginadapter.leaseTTL cfg) (ginadapter.recordTTL cfg)
    (ginadapter.maxRequestBody cfg) (ginadapter.maxResponseBody cfg) (ginadapter.bypassLargeBody cfg)
    (ginadapter.policy cfg) (ginadapter.errorWriter cfg) (ginadapter.failOpen cfg)
    (ginadapter.methods cfg) (ginadapter.storeHeaders cfg)
    (match ginadapter.keyScope cfg with Some f => Some (f c) | None => None end)
    (ginadapter.keyValidator cfg) (ginadapter.hashKeysInLogs cfg) (ginadapter.replayedHeader cfg).

Section match_.
Context {W S C : Type} `{GinWriter W, Store S}.
#[local] Existing Instance gin_http.
Abbreviation quiet := (quiet_eq (S:=S)).

Lemma grun_embed ctx p (s : hstate W) : quiet (grun ctx (embed p) s) (hrun ctx p s).
Proof.
  revert s. induction p as [|v|k IH|h p IH|code p IH|b k IH|k IH|k IH|t k IH|n k IH|e p IH|p IH|k IH|X q k IH];
    intros s; cbn [embed grun hrun]; try done; try apply IH.
  - cbn [Write gin_http]. destruct (gin_Write b (hs_w s)) as [w [x|v]]; [apply IH|done].
  - cbn [Hijack gin_http]. destruct (gin_Hijack (hs_w s)). apply IH.
  - destruct s as [w b bd]. apply IH.
  - destruct (read_body n s). apply IH.
  - apply quiet_bind; [done|]. intros x. apply IH.
Qed.

Section config.
Variables (cfg : ginadapter.config C) (c : C) (next : Handler).
Abbreviation hcfg := (to_http cfg c).
Abbreviation chain := (λ r, embed (next r)).

(** What follows the adapter in Gin's loop. *)
Definition conclude (r : Request) (x : hstate W * outcome * ginadapter.ctl) : prog (hstate W * outcome) :=
  let '(s, how, ctl) := x in
  match how, ctl with
  | Returned, ginadapter.Neither => Next chain r s
  | _, _ => mret (s, how)
  end.

Lemma pass_match r0 w r b :
  quiet (ginadapter.pass chain w r b ≫= conclude r0) (serve next w r b).
Proof.
  unfold ginadapter.pass. etrans; [apply quiet_assoc|]. etrans; [|apply quiet_ret_r].
  apply quiet_bind; [apply grun_embed|]. intros [s []]; done.
Qed.

Lemma reject_match r0 w r b status err :
  quiet (ginadapter.reject cfg w r b status err ≫= conclude r0)
        (middleware.WriteError hcfg w r b status err).
Proof.
  unfold ginadapter.reject, middleware.WriteError, serve. etrans; [apply quiet_assoc|].
  etrans; [|apply quiet_ret_r]. apply quiet_bind; [by destruct cfg|]. intros [s []]; done.
Qed.

Lemma discard_logging_match scope key K tok o msg msg' :
  quiet (ginadapter.discard_logging cfg scope key K tok o msg)
        (middleware.discard_logging hcfg scope key K tok o msg').
Proof.
  apply quiet_bind; [done|]. intros [lost [err|]]; [|done].
  etrans; [apply quiet_Warn|]. symmetry. apply quiet_Warn.
Qed.

(** From the policy on. *)
Lemma capture_decision_match scope key rec d :
  quiet (ginadapter.capture_decision cfg scope key rec d)
        (middleware.capture_decision hcfg scope key rec d).
Proof.
  unfold ginadapter.capture_decision, middleware.capture_decision.
  destruct (bool_decide _), (rec_abandoned rec), (rec_overflowed rec); try done;
    (etrans; [apply quiet_log_then, quiet_Warn|]; symmetry; apply quiet_log_then, quiet_Warn).
Qed.

Lemma encode_payload_match scope key rec d :
  quiet (ginadapter.encode_payload cfg scope key rec d)
        (middleware.encode_payload hcfg scope key rec d).
Proof. done. Qed.

Lemma after_finish_match scope key K tok o d lost err :
  quiet (ginadapter.after_finish cfg scope key K tok o d lost err)
        (middleware.after_finish hcfg scope key K tok o d lost err).
Proof.
  unfold ginadapter.after_finish, middleware.after_finish.
  destruct err as [err|]; [destruct (bool_decide _)|destruct lost].
  - etrans; [apply quiet_log_then, quiet_Warn|]. etrans; [apply discard_logging_match|].
    symmetry. apply quiet_log_then, quiet_Warn.
  - etrans; [apply quiet_Warn|]. symmetry. apply quiet_Warn.
  - etrans; [apply quiet_Warn|]. symmetry. apply quiet_Warn.
  - done.
Qed.

Lemma finish_record_match scope key K tok o rec e :
  quiet (ginadapter.finish_response_record cfg scope key K tok o rec e)
        (middleware.finish_response_record hcfg scope key K tok o rec e).
Proof.
  unfold ginadapter.finish_response_record, middleware.finish_response_record.
  apply quiet_bind; [apply capture_decision_match|]. intros d.
  apply quiet_bind; [apply encode_payload_match|]. intros [d' payload].
  apply quiet_bind; [done|]. intros [lost err]. apply after_finish_match.
Qed.

(** Server errors look the same whatever the cause, as with the default
    error writer. *)
Definition opaque_500 (ew : ErrorWriter) : Prop := ∀ r e1 e2, ew r 500%Z e1 = ew r 500%Z e2.

Lemma WriteError_500 (w : W) r b e1 e2 :
  opaque_500 (ginadapter.errorWriter cfg) →
  middleware.WriteError hcfg w r b 500 e1 = middleware.WriteError hcfg w r b 500 e2.
Proof using. intros Ho. unfold middleware.WriteError, serve. simpl. by rewrite (Ho r (Some e1) (Some e2)). Qed.

(** Replays: the same head and body, when the stored headers do not hold
    the marker. *)
Lemma writeReplay_match `{!GinLaws W} r0 w r b scope key payload :
  opaque_500 (ginadapter.errorWriter cfg) →
  (∀ sr, UnmarshalBinary payload = inl sr → sr_Header sr !! HeaderIdempotencyReplayed = None) →
  quiet (ginadapter.writeReplay cfg w r b scope key payload ≫= conclude r0)
        (middleware.writeReplay hcfg w r b scope key payload).
Proof.
  intros Ho Hm. unfold ginadapter.writeReplay, middleware.writeReplay.
  cbn [httpidem.maxResponseBody httpidem.replayedHeader to_http].
  change ginadapter.maxStoredResponseOverhead with httpidem.maxStoredResponseOverhead.
  destruct (_ <? _)%Z.
  - etrans; [apply quiet_assoc|]. etrans; [apply quiet_log_then, quiet_log|].
    etrans; [apply reject_match|]. symmetry. etrans; [apply quiet_log_then, quiet_log|].
    by rewrite (WriteError_500 w r b _ ginadapter.err_corrupted Ho).
  - destruct (UnmarshalBinary payload) as [sr|err] eqn:Eu.
    + specialize (Hm sr eq_refl). unfold WriteStored, assign_headers.
      cbn [Header SetHeader WriteHeader Write gin_http].
      assert (∀ h : header, Header.Set' HeaderIdempotencyReplayed (bs "true") (sr_Header sr ∪ h) =
        sr_Header sr ∪ Header.Set' HeaderIdempotencyReplayed (bs "true") h) as Hset.
      { intros h. unfold Header.Set'. by apply insert_union_r. }
      destruct (ginadapter.replayedHeader cfg).
      * rewrite Header_SetHeader, SetHeader_SetHeader, Hset.
        destruct (gin_Write _ _) as [w' [[n err]|v]]; done.
      * destruct (gin_Write _ _) as [w' [[n err]|v]]; done.
    + etrans; [apply quiet_assoc|]. etrans; [apply quiet_log_then, quiet_log|].
      etrans; [apply reject_match|]. symmetry. apply quiet_log_then, quiet_log.
Qed.

(** From one world. *)
Definition alike {A} (wd : world S) (p q : prog A) : Prop :=
  (run p wd).1 = (run q wd).1 ∧ same_but_log (run p wd).2 (run q wd).2.

Lemma quiet_alike {A} wd (p q : prog A) : quiet p q → alike wd p q.
Proof using. intros Hpq. by apply Hpq. Qed.

Lemma alike_bind {A B D} wd (p : prog A) (f : A → prog B) (g : B → prog D) (h : A → prog D) :
  (∀ a wd1, run p wd = (a, wd1) → alike wd1 (f a ≫= g) (h a)) → alike wd ((p ≫= f) ≫= g) (p ≫= h).
Proof using.
  intros Hf. unfold alike. rewrite !run_bind. destruct (run p wd) as [a wd1] eqn:E.
  specialize (Hf a wd1 eq_refl). unfold alike in Hf. by rewrite run_bind in Hf.
Qed.

(** Begin does not let the request proceed, and replays no marker. *)
Definition duplicate (wd : world S) (r : Request) (key body : bytes) : Prop :=
  ∀ out wd1,
    run (Begin (skey hcfg r key) (fprint r body) (options hcfg)) wd = (inl out, wd1) →
    out_Action out ≠ Proceed ∧
    ∀ sr, UnmarshalBinary (out_Payload out) = inl sr → sr_Header sr !! HeaderIdempotencyReplayed = None.

Lemma begin_and_act_match `{!GinLaws W} r0 w r b key body (wd : world S) :
  opaque_500 (ginadapter.errorWriter cfg) → duplicate wd r key body →
  alike wd (ginadapter.begin_and_act cfg chain c w r b key body ≫= conclude r0)
           (middleware.begin_and_act hcfg next w r b key body).
Proof.
  intros Ho Hdup. unfold ginadapter.begin_and_act, middleware.begin_and_act.
  assert ((match httpidem.keyScope hcfg with Some f => f r | None => [] end) =
    (match ginadapter.keyScope cfg with Some f => f c r | None => [] end)) as Hsc
    by (simpl; by destruct (ginadapter.keyScope cfg)).
  unfold duplicate, skey, scope_of in Hdup. rewrite Hsc in *.
  set (scope := match ginadapter.keyScope cfg with Some f => f c r | None => [] end) in *.
  apply alike_bind. intros [out|err] wd1 Eb; apply quiet_alike.
  - destruct (Hdup out wd1 Eb) as [Hnp Hm]. destruct (out_Action out); [done| | |].
    + by apply writeReplay_match.
    + apply reject_match.
    + apply reject_match.
  - cbn [httpidem.failOpen to_http]. destruct (ginadapter.failOpen cfg); [|apply reject_match].
    etrans; [apply quiet_assoc|]. etrans; [apply quiet_log_then, quiet_Warn|].
    etrans; [apply pass_match|]. symmetry. apply quiet_log_then, quiet_Warn.
Qed.

(** The whole of the guards. *)
Lemma handle_match `{!GinLaws W} r0 w r b (wd : world S) :
  opaque_500 (ginadapter.errorWriter cfg) →
  (∀ err, (ginadapter.readBody r (ginadapter.maxRequestBody cfg)).1 ≠ inr err) →
  (∀ r' key body, ready hcfg r r' key body → duplicate wd r' key body) →
  alike wd (ginadapter.handle cfg chain c w r b ≫= conclude r0) (middleware.ServeHTTP hcfg next w r b).
Proof.
  intros Ho Hread Hdup. unfold ginadapter.handle, middleware.ServeHTTP.
  cbn [httpidem.methods httpidem.require httpidem.keyValidator httpidem.maxRequestBody
       httpidem.bypassLargeBody to_http].
  destruct (bool_decide (ToUpper (r_Method r) ∈ ginadapter.methods cfg)) eqn:Em; cbn [negb];
    [|apply quiet_alike, pass_match].
  destruct (KeyFromHeader (r_Header r)) as [key|err] eqn:Ek.
  2: { destruct (_ && _); apply quiet_alike; [apply pass_match|apply reject_match]. }
  destruct (match ginadapter.keyValidator cfg with Some f => negb (f key) | None => false end) eqn:Ev;
    [apply quiet_alike, reject_match|].
  change (middleware.readBody r (ginadapter.maxRequestBody cfg))
    with (ginadapter.readBody r (ginadapter.maxRequestBody cfg)).
  destruct (ginadapter.readBody r (ginadapter.maxRequestBody cfg)) as [[[body []]|err] r1] eqn:Er.
  - apply quiet_alike. destruct (ginadapter.bypassLargeBody cfg); cbn [negb]; [|apply reject_match].
    etrans; [apply quiet_assoc|]. etrans; [apply quiet_log_then, quiet_Warn|].
    etrans; [apply pass_match|]. symmetry. apply quiet_log_then, quiet_Warn.
  - apply begin_and_act_match; [done|]. apply Hdup. split; [by apply bool_decide_eq_true in Em|].
    split; [done|]. split.
    + intros f Hf. simpl in Hf. rewrite Hf in Ev. by apply negb_false_iff.
    + by exists r1.
  - by destruct (Hread err).
Qed.
End config.
End match_.


(** C10. The Gin adapter does what the net/http middleware does.  On a Gin
    writer with a handler wrapped at the end of the chain: every request
    that Begin does not let proceed - passed through, rejected, replayed,
    or served without idempotency - leaves the same response, the same
    result and the same store as httpidem under the corresponding options,
    log lines aside; in particular the rest of the chain does not run after
    a rejection or a replay.  And for a request that proceeded, from the
    policy on, the same capture is settled with the same calls.  (Errors of
    reading the body, whose text names the package, are left out, and
    stored headers that hold the marker itself.) *)
Theorem gin_matches_httpidem {W S C : Type} `{GinLaws W, Store S} (cfg : ginadapter.config C) (c : C)
    (next : Handler) (w : W) (r : Request) (b : boxes) (wd : world S) :
  opaque_500 (ginadapter.errorWriter cfg) →
  (∀ err, (ginadapter.readBody r (ginadapter.maxRequestBody cfg)).1 ≠ inr err) →
  (∀ r' key body, ready (to_http cfg c) r r' key body → duplicate cfg c wd r' key body) →
  alike wd (ginadapter.serve cfg (λ r, embed (next r)) c w r b)
           (@middleware.ServeHTTP W gin_http (to_http cfg c) next w r b) ∧
  ∀ scope key K tok o rec e,
    alike wd (ginadapter.finish_response_record cfg scope key K tok o rec e)
             (middleware.finish_response_record (to_http cfg c) scope key K tok o rec e).
Proof.
  intros Ho Hread Hdup. split.
  - exact (handle_match cfg c next r w r b wd Ho Hread Hdup).
  - intros. apply quiet_alike, finish_record_match.
Qed.

Import GinClaims.ExampleGin.

(** A duplicate in flight, with a handler that would panic. *)
Lemma gin_matches_httpidem_witness :
  let cfg : ginadapter.config () := ginadapter.New_config [] in
  let gin := ginadapter.serve cfg (λ r, embed (ExampleFlow.panicking r)) ()
               (untouched 200) ExampleFlow.req ExampleFlow.b0 in
  alike ExampleFlow.held_world gin
    (@middleware.ServeHTTP _ gin_http (to_http cfg ()) ExampleFlow.panicking
       (untouched 200) ExampleFlow.req ExampleFlow.b0) ∧
  (run gin ExampleFlow.held_world).1.2 = Returned.
Proof.
  intros cfg gin. split; [|vm_compute; reflexivity].
  apply (gin_matches_httpidem cfg () ExampleFlow.panicking (untouched 200)
    ExampleFlow.req ExampleFlow.b0 ExampleFlow.held_world).
  - intros r e1 e2. by destruct e1, e2.
  - intros err. vm_compute. discriminate.
  - intros r' key body (_ & Hk & _ & r1 & Hb & ->) out wd1.
    assert (key = bs "key-1") as -> by (vm_compute in Hk; injection Hk as <-; reflexivity).
    assert (r1 = set_body ExampleFlow.req (mkReader [] None)) as ->
      by (apply (f_equal snd) in Hb; symmetry; exact Hb).
    assert (body = bs "{}") as ->
      by (apply (f_equal fst) in Hb; vm_compute in Hb; injection Hb as <-; reflexivity).
    intros Hrun.
    assert ((run (Begin (skey (to_http cfg ()) ExampleFlow.req' (bs "key-1"))
      (fprint ExampleFlow.req' (bs "{}")) (options (to_http cfg ()))) ExampleFlow.held_world).1 =
      inl (mkOutcome RejectInFlight [] [] (30 * Time.Second)%Z)) as Hb1 by (vm_compute; reflexivity).
    change (run (Begin (skey (to_http cfg ()) ExampleFlow.req' (bs "key-1"))
      (fprint ExampleFlow.req' (bs "{}")) (options (to_http cfg ()))) ExampleFlow.held_world
      = (inl out, wd1)) in Hrun.
    rewrite Hrun in Hb1. simpl in Hb1. injection Hb1 as ->. split; [discriminate|].
    intros sr Hu. vm_compute in Hu. discriminate.
Defined.
