(* ===== verification/Errtrailadapter.v ===== *)
(** * The errtrail adapter (errtrailadapter/errtrailadapter.go)

    github.com/repenguin22/errtrail is another repository: its codes, its
    registry and problem.Write are an interface here.  On top of it, the
    codes the adapter registers, its ErrorWriter and its ReplayPolicy. *)
From S2P Require Import Prelude GoLib Strconv Errors Record Store Effects Core Context Http.
From S2P Require Import Problem Config Middleware Recorder RecorderSpec Memstore MiddlewareSpec.
From S2P Require Import GoHttp Key HttpClaims.

(** ** errtrail *)

(** Codes are integers; an error carries one ([CodeOf], [Unknown] when it
    does not); the registry gives a code its HTTP status and says whether
    it is retryable. *)
Class Errtrail := {
  Registry : Type;
  builtin : Registry;
  Unknown : Z;
  InvalidArgument : Z;
  Aborted : Z;
  FailedPrecondition : Z;
  ResourceExhausted : Z;
  Unavailable : Z;
  Register : Z → bytes → Z → Z → bool → Registry → Registry;
  HTTPStatus : Registry → Z → Z;
  GRPCCode : Registry → Z → Z;
  Retryable : Registry → Z → bool;
  errtrail_New : Z → bytes → error;
  WithPublic : bytes → error → error;
  Wrap : error → bytes → error;
  CodeOf : error → Z;
  problem_Write : Registry → error → handler_prog;
}.

(** The documented behaviour: an error keeps its code, registering a code
    changes that code alone, the built-in codes have their statuses, and
    problem.Write derives the status from the code. *)
Class ErrtrailLaws `{Errtrail} := {
  CodeOf_New code msg : is_i64 code → CodeOf (errtrail_New code msg) = code;
  CodeOf_WithPublic p e : CodeOf (WithPublic p e) = CodeOf e;
  CodeOf_Wrap e msg : CodeOf (Wrap e msg) = CodeOf e;
  HTTPStatus_Register c name http grpc retry reg c' :
    HTTPStatus (Register c name http grpc retry reg) c' =
      if decide (c' = c) then http else HTTPStatus reg c';
  Retryable_Register c name http grpc retry reg c' :
    Retryable (Register c name http grpc retry reg) c' =
      if decide (c' = c) then retry else Retryable reg c';
  builtin_codes : (Unknown < 100 ∧ InvalidArgument < 100 ∧ Unavailable < 100)%Z ∧
    (0 ≤ Unknown ∧ 0 ≤ InvalidArgument ∧ 0 ≤ Unavailable)%Z;
  builtin_statuses : HTTPStatus builtin Unknown = 500%Z ∧
    HTTPStatus builtin InvalidArgument = 400%Z ∧ HTTPStatus builtin Unavailable = 503%Z;
  problem_Write_status {S} `{Store S} reg e ctx w b bd (wd : world S) :
    fresh w → (200 ≤ HTTPStatus reg (CodeOf e) ≤ 999)%Z →
    ∃ s h, run (hrun ctx (problem_Write reg e) (mkHState w b bd)) wd = ((s, Returned), wd) ∧
      rs_sent (hs_w s) = Some (HTTPStatus reg (CodeOf e), h);
}.

(** ** The adapter *)

Module errtrailadapter.
Section adapter.
Context `{Errtrail}.

Definition CodeKeyMissing : Z := 1100.
Definition CodeKeyInvalid : Z := 1101.
Definition CodeInFlight : Z := 1102.
Definition CodePayloadMismatch : Z := 1103.
Definition CodeBodyTooLarge : Z := 1104.

(** [init()]: the five registrations, in order. *)
Definition init (reg : Registry) : Registry :=
  let reg := Register CodeKeyMissing (bs "IDEMPOTENCY_KEY_MISSING") 400
               (GRPCCode reg InvalidArgument) false reg in
  let reg := Register CodeKeyInvalid (bs "IDEMPOTENCY_KEY_INVALID") 400
               (GRPCCode reg InvalidArgument) false reg in
  let reg := Register CodeInFlight (bs "IDEMPOTENCY_IN_FLIGHT") 409
               (GRPCCode reg Aborted) true reg in
  let reg := Register CodePayloadMismatch (bs "IDEMPOTENCY_PAYLOAD_MISMATCH") 422
               (GRPCCode reg FailedPrecondition) false reg in
  let reg := Register CodeBodyTooLarge (bs "IDEMPOTENCY_BODY_TOO_LARGE") 413
               (GRPCCode reg ResourceExhausted) false reg in
  reg.

Definition errors_Is (err : option error) (target : sentinel) : bool :=
  match err with Some e => Is e target | None => false end.

Definition classify (status : Z) (err : option error) : error :=
  if errors_Is err ErrKeyMissing then
    WithPublic (bs "The Idempotency-Key header is required.")
      (errtrail_New CodeKeyMissing (bs "idempotency key missing"))
  else if errors_Is err ErrKeyInvalid then
    WithPublic (bs "The Idempotency-Key header is malformed.")
      (errtrail_New CodeKeyInvalid (bs "idempotency key invalid"))
  else if errors_Is err ErrInFlight then
    WithPublic (bs "A request with this Idempotency-Key is being processed. Retry later.")
      (errtrail_New CodeInFlight (bs "duplicate request in flight"))
  else if errors_Is err ErrFingerprintMismatch then
    WithPublic (bs "This Idempotency-Key was already used with a different request.")
      (errtrail_New CodePayloadMismatch (bs "idempotency payload mismatch"))
  else if errors_Is err ErrRequestBodyTooLarge then
    WithPublic (bs "The request body is too large.")
      (errtrail_New CodeBodyTooLarge (bs "request body too large for idempotency"))
  else if errors_Is err ErrStoreUnavailable then
    WithPublic (bs "The service is temporarily unavailable. Retry later.")
      (errtrail_New Unavailable (bs "idempotency store unavailable"))
  else
    let code := if (400 <=? status)%Z && (status <? 500)%Z then InvalidArgument else Unknown in
    let e := errtrail_New code (bs "idempotency rejection") in
    match err with
    | Some err => Wrap e (Error err)
    | None => e
    end.

(** [errorWriter.WriteError] and [Errors]; the result of problem.Write is
    dropped. *)
Definition Errors : ErrorWriter := λ _ status err,
  problem_Write (init builtin) (classify status err).

Definition Policy : ReplayPolicy := λ status err,
  match err with
  | None => DefaultPolicy status None
  | Some e =>
      let code := CodeOf e in
      if (code =? Unknown)%Z then DefaultPolicy status err
      else if Retryable (init builtin) code then Discard
      else Persist
  end.

Definition Options : list httpidem.Option := [httpidem.Errors Errors; httpidem.Policy Policy].

End adapter.
End errtrailadapter.

Import errtrailadapter.

(** ** Rejections keep their status *)

(** An error of a store or of a body that is none of httpidem's. *)
Definition foreign (e : error) : Prop :=
  Is e ErrKeyMissing = false ∧ Is e ErrKeyInvalid = false ∧ Is e ErrInFlight = false ∧
  Is e ErrFingerprintMismatch = false ∧ Is e ErrRequestBodyTooLarge = false ∧
  Is e ErrStoreUnavailable = false.

(** What the middleware hands to its ErrorWriter: the calls of WriteError
    in ServeHTTP, begin_and_act and writeReplay. *)
Inductive rejects : Z → error → Prop :=
  | rejects_key h e : KeyFromHeader h = inr e → rejects 400 e
  | rejects_validator : rejects 400 middleware.err_key_validator
  | rejects_body e : foreign e → rejects 400 (middleware.err_reading_body e)
  | rejects_large : rejects 413 ErrRequestBodyTooLarge
  | rejects_store e : foreign e → rejects 503 (Errorf_w_w ErrStoreUnavailable e)
  | rejects_in_flight : rejects 409 ErrInFlight
  | rejects_mismatch : rejects 422 ErrFingerprintMismatch
  | rejects_stored e : foreign e → rejects 500 e.

Lemma KeyFromHeader_error h e :
  KeyFromHeader h = inr e →
  e = ErrKeyMissing ∨ (Is e ErrKeyInvalid = true ∧ Is e ErrKeyMissing = false).
Proof.
  unfold KeyFromHeader. destruct (Header.Values h HeaderIdempotencyKey) as [|v [|v' vs]].
  - intros [= <-]. by left.
  - intros He. right. by apply key_invalid_Is, (ParseKey_error v).
  - intros [= <-]. by right.
Qed.

Section classify.
Context `{ErrtrailLaws}.

(** The registry after init: the codes of the adapter, and the others. *)
Lemma init_status c :
  HTTPStatus (init builtin) c =
    if decide (c = CodeBodyTooLarge) then 413%Z else if decide (c = CodePayloadMismatch) then 422%Z
    else if decide (c = CodeInFlight) then 409%Z
    else if decide (c = CodeKeyInvalid ∨ c = CodeKeyMissing) then 400%Z else HTTPStatus builtin c.
Proof.
  unfold init. rewrite !HTTPStatus_Register. repeat (case_decide; try done); intuition congruence.
Qed.

Lemma small_code c : (0 ≤ c < 2000)%Z → is_i64 c.
Proof using. unfold is_i64, min_int64, max_int64, two63. lia. Qed.

Lemma new_status c msg p : (0 ≤ c < 2000)%Z →
  HTTPStatus (init builtin) (CodeOf (WithPublic p (errtrail_New c msg))) = HTTPStatus (init builtin) c.
Proof. intros Hc. by rewrite CodeOf_WithPublic, CodeOf_New by by apply small_code. Qed.

Lemma builtin_status c : (0 ≤ c < 100)%Z → HTTPStatus (init builtin) c = HTTPStatus builtin c.
Proof.
  intros Hc. rewrite init_status.
  unfold CodeKeyMissing, CodeKeyInvalid, CodeInFlight, CodePayloadMismatch, CodeBodyTooLarge.
  by rewrite !decide_False by lia.
Qed.

Lemma default_status status e cause : foreign cause → (∀ t, Is e t = Is cause t) →
  (status = 400 ∨ status = 500)%Z →
  HTTPStatus (init builtin) (CodeOf (classify status (Some e))) = status.
Proof.
  intros (K1 & K2 & K3 & K4 & K5 & K6) He Hs.
  destruct builtin_codes as ((? & ? & ?) & ? & ? & ?). destruct builtin_statuses as (HU & HI & HV).
  unfold classify. simpl. rewrite !He, K1, K2, K3, K4, K5, K6, CodeOf_Wrap, CodeOf_New;
    destruct Hs as [-> | ->]; simpl; rewrite ?builtin_status by lia; auto; apply small_code; lia.
Qed.

Lemma classify_status status err :
  rejects status err → HTTPStatus (init builtin) (CodeOf (classify status (Some err))) = status.
Proof.
  destruct builtin_codes as ((? & ? & ?) & ? & ? & ?). destruct builtin_statuses as (HU & HI & HV).
  destruct 1 as [h e Hk| |e He| |e He| | |e He].
  - apply KeyFromHeader_error in Hk as [-> | [Hinv Hmiss]]; unfold classify; simpl.
    + by rewrite new_status, init_status.
    + rewrite Hinv, Hmiss. by rewrite new_status, init_status.
  - unfold classify. simpl. by rewrite new_status, init_status.
  - by apply (default_status 400 _ e); [|intros; done|left].
  - unfold classify. simpl. by rewrite new_status, init_status.
  - destruct He as (K1 & K2 & K3 & K4 & K5 & K6). unfold classify. simpl.
    rewrite K1, K2, K3, K4, K5. simpl. by rewrite new_status, builtin_status by lia.
  - unfold classify. simpl. by rewrite new_status, init_status.
  - unfold classify. simpl. by rewrite new_status, init_status.
  - by apply (default_status 500 e e); [|intros; done|right].
Qed.
End classify.

(** C36. The errtrail options keep the middleware's contract.  Added to any
    configuration: every rejection of the middleware, whatever foreign
    error a store or a body reader gave, is sent with the very status the
    middleware chose; and a handler's reported error decides by its code -
    retryable codes are discarded, other known codes persisted, and without
    a code the status decides as by default.  Of the registered codes the
    one for requests in flight is the retryable one. *)
Theorem errtrail_options `{ErrtrailLaws} {S} `{Store S} (cfg0 : httpidem.config) (w : response)
    (r : Request) (b : boxes) (status : Z) (err : error) (wd : world S) :
  let cfg := foldl (λ c o, o c) cfg0 Options in
  rejects status err → fresh w →
  (∃ s h, run (middleware.WriteError cfg w r b status err) wd = ((s, Returned), wd) ∧
     rs_sent (hs_w s) = Some (status, h)) ∧
  (∀ code e, httpidem.policy cfg code e =
     match e with
     | Some e =>
         if decide (CodeOf e = Unknown) then DefaultPolicy code (Some e)
         else if Retryable (init builtin) (CodeOf e) then Discard else Persist
     | None => DefaultPolicy code None
     end) ∧
  (∀ c, c ∈ [CodeKeyMissing; CodeKeyInvalid; CodeInFlight; CodePayloadMismatch; CodeBodyTooLarge] →
     Retryable (init builtin) c = bool_decide (c = CodeInFlight)).
Proof.
  intros cfg Hr Hw. split_and!.
  - pose proof (classify_status _ _ Hr) as Hst. subst cfg. simpl.
    unfold middleware.WriteError, serve. simpl. unfold errtrailadapter.Errors.
    assert (200 ≤ status ≤ 999)%Z by (destruct Hr; lia).
    destruct (problem_Write_status (init builtin) (classify status (Some err)) (r_ctx r) w b (r_Body r) wd)
      as (s & h & Hrun & Hs); [done|by rewrite Hst|].
    rewrite Hst in Hs. by exists s, h.
  - intros code [e|]; [|done]. simpl. unfold Policy.
    destruct (Z.eqb_spec (CodeOf e) Unknown); [by rewrite decide_True|by rewrite decide_False].
  - intros c Hc. unfold init. rewrite !Retryable_Register.
    repeat (apply elem_of_cons in Hc as [-> | Hc]; [done|]). by apply not_elem_of_nil in Hc.
Qed.

(** ** An instance *)

Module ExampleErrtrail.

(** An error's code is its decimal text; a registry is a table. *)
#[export] Instance example_errtrail : Errtrail := {
  Registry := Z → Z * bool;
  builtin c := if (c =? 3)%Z then (400%Z, false) else if (c =? 14)%Z then (503%Z, true) else (500%Z, false);
  Unknown := 2; InvalidArgument := 3; FailedPrecondition := 9; Aborted := 10;
  ResourceExhausted := 8; Unavailable := 14;
  Register c _ http _ retry reg := λ c', if decide (c' = c) then (http, retry) else reg c';
  HTTPStatus reg c := (reg c).1;
  GRPCCode _ c := c;
  Retryable reg c := (reg c).2;
  errtrail_New c msg := errWrap (FormatInt c) (errText msg);
  WithPublic _ e := e;
  Wrap e msg := match e with errWrap c _ => errWrap c (errText msg) | e => e end;
  CodeOf e := match e with errWrap c _ => default 2%Z (ParseInt c) | _ => 2%Z end;
  problem_Write reg e :=
    HWriteHeader (reg match e with errWrap c _ => default 2%Z (ParseInt c) | _ => 2%Z end).1 HReturn;
}.

#[export] Program Instance example_laws : ErrtrailLaws.
Next Obligation. intros code msg Hc. simpl. by rewrite ParseInt_FormatInt. Qed.
Next Obligation. done. Qed.
Next Obligation. by intros []. Qed.
Next Obligation. intros. simpl. by case_decide. Qed.
Next Obligation. intros. simpl. by case_decide. Qed.
Next Obligation. by repeat split. Qed.
Next Obligation. by repeat split. Qed.
Next Obligation.
  intros S HS reg e ctx w b bd wd (Hs & Hh & _) Hc. simpl in *.
  rewrite WriteHeader_final by done. by eexists _, _.
Qed.

End ExampleErrtrail.

Import ExampleErrtrail.

(** A store that fails with its own error: 503, by errtrail's code. *)
Lemma errtrail_options_witness :
  let cfg := foldl (λ c o, o c) httpidem.default_config Options in
  ∃ s h, run (middleware.WriteError cfg ExampleFlow.w ExampleFlow.req ExampleFlow.b0 503
      (Errorf_w_w ErrStoreUnavailable (errText (bs "connection refused")))) ExampleFlow.wd0
    = ((s, Returned), ExampleFlow.wd0) ∧ rs_sent (hs_w s) = Some (503%Z, h).
Proof.
  apply (errtrail_options httpidem.default_config ExampleFlow.w ExampleFlow.req ExampleFlow.b0 503
    (Errorf_w_w ErrStoreUnavailable (errText (bs "connection refused"))) ExampleFlow.wd0).
  - apply rejects_store. by split_and!.
  - exact ExampleFlow.is_fresh.
Defined.
