(* ===== verification/Testing.v ===== *)
(** * Test suites (testing, sync)

    A test drives programs against a store whose clock it can only wait
    for: [test] is a computation on worlds that reports failures and may
    stop early.  Goroutines are programs run one call at a time in the order
    of a schedule; [interleave_inv] is the rule for them, [wp] the
    weakest precondition of a test that passes. *)
From S2P Require Import Prelude GoLib Errors Record Store Effects.
Import Time.
Local Open Scope Z_scope.

(** ** Tests

    The reports of a test and its result, none after [FailNow]. *)
Definition test (S A : Type) : Type := world S → (list bytes * option A) * world S.

#[global] Instance test_ret S : MRet (test S) := λ A a w, (([], Some a), w).
#[global] Instance test_bind S : MBind (test S) := λ A B f t w,
  let '((fs, o), w) := t w in
  match o with
  | None => ((fs, None), w)
  | Some a => let '((fs', o'), w) := f a w in ((fs ++ fs', o'), w)
  end.

Section tests.
Context {S : Type} `{Store S}.

(** [t.Errorf] reports and goes on, [t.Fatalf] stops the test; the report
    is the format, without its arguments and remarks. *)
Definition Errorf (msg : string) : test S () := λ w, (([bs msg], Some ()), w).
Definition Fatalf {A} (msg : string) : test S A := λ w, (([bs msg], None), w).

Definition errorf_if (b : bool) (msg : string) : test S () :=
  if b then Errorf msg else mret ().
Definition fatalf_if (b : bool) (msg : string) : test S () :=
  if b then Fatalf msg else mret ().

(** Code of the library, run by the test's own goroutine. *)
Definition call {A} (p : prog A) : test S A := λ w,
  let '(a, w) := run p w in (([], Some a), w).

(** [time.Sleep(d)]: at least [d] passes, on both clocks. *)
Definition Sleep (d : Duration) : test S () := λ w,
  let w := advance w in
  let w := advance (mkWorld (w_store w)
    (advance_instant (w_now w) (mkTick (Z.to_N d) (Z.to_N d))) (w_ticks w) (w_rand w) (w_log w)) in
  (([], Some ()), w).

(** [t.Run(name, f)]: the subtest's failures are its parent's, and its
    end is not its parent's. *)
Definition Run (name : string) (f : test S ()) : test S () := λ w,
  let '((fs, _), w) := f w in ((map (λ m, bs name ++ bs ": " ++ m) fs, Some ()), w).

(** ** Goroutines *)

(** One call of a program. *)
Definition step_prog {A} (p : prog A) (w : world S) : prog A * world S :=
  match p with
  | Ret a => (Ret a, w)
  | CallNow k => let w := advance w in (k (app_clock (w_now w)), w)
  | CallRead n k => let '(b, w) := read_rand n w in (k b, w)
  | CallReserve r k =>
      let w := advance w in
      let '(s, x) := Reserve (w_now w) r (w_store w) in (k x, set_store s w)
  | CallComplete key tok p ttl k =>
      let w := advance w in
      let '(s, x) := Complete (w_now w) key tok p ttl (w_store w) in (k x, set_store s w)
  | CallRelease key tok k =>
      let w := advance w in
      let '(s, x) := Release (w_now w) key tok (w_store w) in (k x, set_store s w)
  | CallGet key k =>
      let w := advance w in
      let '(s, x) := Get (w_now w) key (w_store w) in (k x, set_store s w)
  | CallLog l k => (k, add_log l w)
  end.

Lemma run_step {A} (p : prog A) (w : world S) :
  run p w = run (step_prog p w).1 (step_prog p w).2.
Proof.
  destruct p; simpl; try done;
    by match goal with |- context [let '(_, _) := ?e in _] => destruct e end.
Qed.

(** The goroutines make the calls the schedule says. *)
Fixpoint interleave {A} (sched : list nat) (ps : list (prog A)) (w : world S)
    : list (prog A) * world S :=
  match sched with
  | [] => (ps, w)
  | n :: sched =>
      match ps !! n with
      | None => interleave sched ps w
      | Some p => let '(p, w) := step_prog p w in interleave sched (<[n := p]> ps) w
      end
  end.

Fixpoint run_all {A} (ps : list (prog A)) (w : world S) : list A * world S :=
  match ps with
  | [] => ([], w)
  | p :: ps =>
      let '(a, w) := run p w in let '(l, w) := run_all ps w in (a :: l, w)
  end.

(** Start the goroutines and wait for all of them ([sync.WaitGroup]): those
    the schedule leaves unfinished end one after the other. *)
Definition Go {A} (sched : list nat) (ps : list (prog A)) : test S (list A) := λ w,
  let '(ps, w) := interleave sched ps w in
  let '(l, w) := run_all ps w in (([], Some l), w).

(** *** Invariants of goroutines *)

Section inv.
Context {A : Type} (I : list (prog A) → world S → Prop).
Hypothesis I_step : ∀ ps w n p, I ps w → ps !! n = Some p →
  I (<[n := (step_prog p w).1]> ps) (step_prog p w).2.

Lemma interleave_inv sched ps w :
  I ps w → I (interleave sched ps w).1 (interleave sched ps w).2.
Proof using I_step.
  revert ps w. induction sched as [|n sched IH]; intros ps w HI; simpl; [done|].
  destruct (ps !! n) as [p|] eqn:E; [|by apply IH].
  pose proof (I_step _ _ _ _ HI E) as HI'. destruct (step_prog p w). by apply IH.
Qed.

Lemma run_inv pre p post w :
  I (pre ++ p :: post) w → I (pre ++ Ret (run p w).1 :: post) (run p w).2.
Proof using I_step.
  assert (∀ q w, I (pre ++ q :: post) w →
    I (pre ++ (step_prog q w).1 :: post) (step_prog q w).2) as Hs.
  { intros q v HI. pose proof (I_step _ v (length pre) q HI) as HI'.
    rewrite list_lookup_middle in HI' by done. specialize (HI' eq_refl).
    by rewrite insert_app_r_alt, Nat.sub_diag in HI' by done. }
  revert w. induction p; intros w HI; [done|..]; rewrite run_step; specialize (Hs _ _ HI);
    simpl in Hs |- *;
    repeat match type of Hs with context [let '(_, _) := ?e in _] => destruct e; simpl in Hs |- * end;
    auto.
Qed.

Lemma run_all_inv pre ps w :
  I ((Ret <$> pre) ++ ps) w → I (Ret <$> (pre ++ (run_all ps w).1)) (run_all ps w).2.
Proof using I_step.
  revert pre w. induction ps as [|p ps IH]; intros pre w HI; simpl.
  - by rewrite app_nil_r in *.
  - apply run_inv in HI. destruct (run p w) as [a w1]. simpl in HI.
    specialize (IH (pre ++ [a]) w1). rewrite fmap_app, <-!app_assoc in IH.
    specialize (IH HI). destruct (run_all ps w1). done.
Qed.

(** An invariant of every call holds when all goroutines have returned. *)
Lemma Go_inv sched ps w :
  I ps w → ∃ l w', Go sched ps w = (([], Some l), w') ∧ I (Ret <$> l) w'.
Proof using I_step.
  intros HI%(interleave_inv sched). unfold Go.
  destruct (interleave sched ps w) as [ps' w1]. simpl in HI. apply (run_all_inv []) in HI.
  destruct (run_all ps' w1) as [l w2]. by exists l, w2.
Qed.
End inv.

(** What [run] says of one call, said of the goroutine that makes it. *)
Lemma step_Reserve {A} r (k : option Record * option error → prog A) (w : world S) :
  step_prog (CallReserve r k) w = let '(x, w') := run (s_Reserve r) w in (k x, w').
Proof. simpl. by destruct (Reserve _ _ _). Qed.

(** ** Passing *)

(** The test reports nothing, does not stop early, and ends in [Q]. *)
Definition wp {A} (t : test S A) (Q : A → world S → Prop) (w : world S) : Prop :=
  ∃ a w', t w = (([], Some a), w') ∧ Q a w'.

Lemma wp_ret {A} (a : A) Q w : Q a w → wp (mret a) Q w.
Proof. unfold wp. eauto. Qed.

Lemma wp_bind {A B} (t : test S A) (f : A → test S B) Q w :
  wp t (λ a w', wp (f a) Q w') w → wp (t ≫= f) Q w.
Proof.
  intros (a & w1 & Ht & b & w2 & Hf & HQ). exists b, w2. split; [|done].
  unfold mbind, test_bind. rewrite Ht. by rewrite Hf.
Qed.

Lemma wp_mono {A} (t : test S A) (P Q : A → world S → Prop) w :
  wp t P w → (∀ a w', P a w' → Q a w') → wp t Q w.
Proof. intros (a & w1 & Ht & HP) HPQ. exists a, w1. auto. Qed.

Lemma wp_errorf_if b msg (Q : () → world S → Prop) w : b = false → Q () w → wp (errorf_if b msg) Q w.
Proof. intros ->. apply wp_ret. Qed.

Lemma wp_fatalf_if b msg (Q : () → world S → Prop) w : b = false → Q () w → wp (fatalf_if b msg) Q w.
Proof. intros ->. apply wp_ret. Qed.

Lemma wp_call {A} (p : prog A) Q w : Q (run p w).1 (run p w).2 → wp (call p) Q w.
Proof. intros HQ. unfold wp, call. destruct (run p w) as [a w']. eauto. Qed.

Lemma wp_call_bind {A B} (p : prog A) (f : A → prog B) Q w :
  wp (call p) (λ a w', wp (call (f a)) Q w') w → wp (call (p ≫= f)) Q w.
Proof.
  intros (a & w1 & Hp & b & w2 & Hf & HQ). unfold call in Hp, Hf.
  exists b, w2. split; [|done]. unfold call. rewrite run_bind.
  destruct (run p w) as [a' w1']. injection Hp as -> ->.
  destruct (run (f a) w1) as [b' w2']. by injection Hf as -> ->.
Qed.

Lemma wp_Run name t Q (w : world S) : wp t (λ _, Q ()) w → wp (Run name t) Q w.
Proof.
  intros ([] & w1 & Ht & HQ). exists (), w1. split; [|done]. unfold Run. by rewrite Ht.
Qed.
End tests.

(** A step of a test that passes: its checks do not fire. *)
Ltac passes :=
  repeat first
    [ apply wp_bind
    | apply wp_errorf_if; [done|]
    | apply wp_fatalf_if; [done|]
    | apply wp_ret ].
