(* ===== verification/Conforming.v ===== *)
(** * Stores a test can rely on

    The contract of the Store interface allows infrastructure failures and
    deadlines re-expressed on another clock.  [Conforming] is the contract
    of a store that is up: no failure while it is [ready], and deadlines
    that are right within a skew.  [state] is what a test knows of one key
    at a moment; the [wp_] lemmas are the operations in these terms. *)
From S2P Require Import Prelude GoLib Errors Record Store Effects Testing.
Import Time.
Local Open Scope Z_scope.

(** const block of idemleasetest.go. *)
Definition validTTL : Duration := Minute.
Definition shortTTL : Duration := 100 * Millisecond.
Definition timeTolerance : Duration := Second.

(** How far the two clocks drift apart during a test. *)
Definition max_drift : Duration := 50 * Millisecond.

(** When a store is up, and how its authority keeps time: the nanoseconds
    of one tick, the error of a re-expressed deadline, and the time a test
    may take besides its waits. *)
Class Clocked (S : Type) `{StoreContract S} := {
  ready : Instant → S → Prop;
  unit_ns : Z;
  skew : Z;
  pace : Z;
  remote : bool;   (* it has a clock of its own *)
}.

Section clocked.
Context {S : Type} `{Clocked S}.

(** How far the clocks have drifted, where that matters. *)
Definition drift (i i' : Instant) : Z :=
  if remote then (app_clock i' - app_clock i) - (srv_clock i' - srv_clock i) else 0.

(** The error of a deadline, and that of a reported one. *)
Definition imprecision : Z := 2 * skew + (if remote then max_drift else 0).
Definition tolerance : Z := skew + imprecision.

(** The authority's deadline [d] is the process's [D]. *)
Definition close (i : Instant) (d : Z) (D : Time) : Prop :=
  Z.abs ((d - authority i) * unit_ns - (D - app_clock i)) ≤ skew.

(** The lifetimes the tests ask for, up to the default of a record. *)
Definition longest : Duration := 24 * Hour.
Definition usual (d : Duration) : Prop := shortTTL - pace ≤ d ≤ longest.

(** The record [r] as it is reported. *)
Definition reports (i : Instant) (r ex : Record) : Prop :=
  same_identity r ex ∧ ∃ d D, deadline r = Some d ∧ deadline ex = Some D ∧ close i d D.

(** How Complete and Release refuse: a key that shows nothing is not found,
    a reservation under another token is told from it; what a completed
    record is reported as, the stores do not agree on. *)
Definition refuses (i : Instant) (key tok : bytes) (s : S) (err : option error) : Prop :=
  ∃ e', err = Some e' ∧ lease_lost_error e' = true ∧
    (live (authority i) (abs s) key = None → Is e' ErrNotFound = true) ∧
    (∀ r, live (authority i) (abs s) key = Some r → rec_State r = StateReserved →
       rec_Token r ≠ tok → Is e' ErrTokenMismatch = true).
End clocked.

Class Conforming (S : Type) `{Clocked S} : Prop := {
  unit_pos : 0 < unit_ns;
  skew_small : 0 ≤ skew ≤ 20 * Millisecond;
  pace_small : 0 ≤ pace ≤ 500 * Millisecond;
  ready_later i i' s : later i i' → ready i s → ready i' s;
  authority_rate i i' : later i i' →
    Z.abs ((authority i' - authority i) * unit_ns - (app_clock i' - app_clock i))
      ≤ Z.abs (drift i i') + skew;
  reserve_conforms i r s s' ex err :
    ready i s → reservation r → usual (rec_LeaseExpiresAt r - app_clock i) →
    Reserve i r s = (s', (ex, err)) →
    ready i s' ∧
    match live (authority i) (abs s) (rec_Key r) with
    | Some old => (∃ e, err = Some e ∧ Is e ErrAlreadyExists = true) ∧
        (∃ r', ex = Some r' ∧ reports i old r') ∧ abs s' ≡{authority i}≡ abs s
    | None => ex = None ∧ err = None ∧ ∃ r' d, same_identity r r' ∧ deadline r' = Some d ∧
        close i d (rec_LeaseExpiresAt r) ∧ abs s' ≡{authority i}≡ <[rec_Key r := r']> (abs s)
    end;
  complete_conforms i key tok payload ttl s s' err :
    ready i s → usual ttl → Complete i key tok payload ttl s = (s', err) →
    ready i s' ∧
    match cas (authority i) key tok (abs s) with
    | inl r => err = None ∧ ∃ r' d, same_identity (completed r payload 0) r' ∧
        deadline r' = Some d ∧ close i d (Add (app_clock i) ttl) ∧
        abs s' ≡{authority i}≡ <[key := r']> (abs s)
    | inr _ => refuses i key tok s err ∧ abs s' ≡{authority i}≡ abs s
    end;
  release_conforms i key tok s s' err :
    ready i s → Release i key tok s = (s', err) →
    ready i s' ∧
    match cas (authority i) key tok (abs s) with
    | inl _ => err = None ∧ abs s' ≡{authority i}≡ delete key (abs s)
    | inr _ => refuses i key tok s err ∧ abs s' ≡{authority i}≡ abs s
    end;
  get_conforms i key s s' ex err :
    ready i s → Get i key s = (s', (ex, err)) →
    ready i s' ∧ err = None ∧ abs s' ≡{authority i}≡ abs s ∧
    match live (authority i) (abs s) key with
    | Some r => ∃ r', ex = Some r' ∧ reports i r r'
    | None => ex = None
    end;
}.

(** ** Towards conforming stores *)

(** A compare-and-set that answers as the specification does. *)
Lemma cas_refuses {S} `{StoreContract S} (i : Instant) key tok (s : S) e :
  cas (authority i) key tok (abs s) = inr e → refuses i key tok s (Some e).
Proof.
  intros E. exists e. split; [done|]. split; [by eapply cas_inr_lost|]. split.
  - intros Hl. unfold cas in E. rewrite Hl in E. by injection E as <-.
  - intros r Hl _ Ht. unfold cas in E. rewrite Hl, decide_False in E by done. by injection E as <-.
Qed.

(** A server clock that counts in units. *)
Lemma unit_rate unit (i i' : Instant) :
  0 < unit →
  Z.abs ((srv_clock i' / unit - srv_clock i / unit) * unit - (app_clock i' - app_clock i))
    ≤ Z.abs ((app_clock i' - app_clock i) - (srv_clock i' - srv_clock i)) + unit.
Proof.
  intros Hu.
  pose proof (Z.div_mod (srv_clock i) unit ltac:(lia)).
  pose proof (Z.div_mod (srv_clock i') unit ltac:(lia)).
  pose proof (Z.mod_pos_bound (srv_clock i) unit Hu).
  pose proof (Z.mod_pos_bound (srv_clock i') unit Hu). nia.
Qed.

(** The largest number of whole milliseconds in a Go duration. *)
Definition max_ms : Z := 9223372036854.

(** Arithmetic on the constants of the clocks. *)
Ltac clocks := unfold is_i64, min_int64, max_int64, two63, max_ms, longest, Hour, Minute, Second,
  Millisecond in *; lia.

(** No live record lives longer than [span]. *)
Definition near (span now : Z) (m : content) : Prop :=
  ∀ k r d, live now m k = Some r → deadline r = Some d → d ≤ now + span.

#[global] Instance near_proper span now : Proper (live_equiv now ==> iff) (near span now).
Proof.
  intros m1 m2 Hm. unfold near. split; intros Hn k r d Hl; apply (Hn k);
    [by rewrite Hm|by rewrite <-Hm].
Qed.

Lemma near_later span now now' m : now ≤ now' → near span now m → near span now' m.
Proof. intros Hle Hn k r d Hl Hd. specialize (Hn k r d (live_mono _ _ _ _ _ Hle Hl) Hd). lia. Qed.

Lemma near_insert span now k r d m :
  deadline r = Some d → d ≤ now + span → near span now m → near span now (<[k := r]> m).
Proof.
  intros Hd Hle Hn k' r' d'. destruct (decide (k = k')) as [<-|].
  - rewrite live_insert_eq. unfold live_rec. case_match; [done|]. intros [= <-]. congruence.
  - rewrite live_insert_ne by done. apply Hn.
Qed.

Lemma near_delete span now k m : near span now m → near span now (delete k m).
Proof.
  intros Hn k' r' d'. destruct (decide (k = k')) as [<-|]; [by rewrite live_delete_eq|].
  rewrite live_delete_ne by done. apply Hn.
Qed.

Lemma near_empty span now : near span now ∅.
Proof. intros k r d. unfold live. by rewrite lookup_empty. Qed.

(** ** Time in a test *)

(** The time the calls of a test still take, and the drift they bring. *)
Definition time_of (ds : list tick) : Z := foldr (λ d z, Z.of_N (d_app d) + z) 0 ds.
Definition drift_of (remote : bool) (ds : list tick) : Z :=
  foldr (λ d z, (if remote then Z.abs (Z.of_N (d_app d) - Z.of_N (d_srv d)) else 0) + z) 0 ds.

Lemma time_of_nonneg ds : 0 ≤ time_of ds.
Proof. induction ds as [|d ds]; simpl; lia. Qed.
Lemma drift_of_nonneg b ds : 0 ≤ drift_of b ds.
Proof. induction ds as [|d ds]; simpl; [done|]. destruct b; lia. Qed.

Section time.
Context {S : Type} `{Clocked S}.
Implicit Types w : world S.

Definition time_left w : Z := time_of (w_ticks w).
Definition drift_left w : Z := drift_of remote (w_ticks w).

Lemma time_left_nonneg w : 0 ≤ time_left w.
Proof. apply time_of_nonneg. Qed.
Lemma drift_left_nonneg w : 0 ≤ drift_left w.
Proof. apply drift_of_nonneg. Qed.

(** From [w] to [w'] a test waited for [d] at most, and made calls. *)
Record onward (d : Duration) (w w' : world S) : Prop := {
  on_later : later (w_now w) (w_now w');
  on_time : app_clock (w_now w') + time_left w' ≤ app_clock (w_now w) + time_left w + d;
  on_left : time_left w' ≤ time_left w;
  on_drift : Z.abs (drift (w_now w) (w_now w')) + drift_left w' ≤ drift_left w;
}.

Lemma onward_refl w : onward 0 w w.
Proof. split; [done|lia|lia|]. unfold drift. destruct remote; lia. Qed.

Lemma onward_trans d d' w1 w2 w3 : onward d w1 w2 → onward d' w2 w3 → onward (d + d') w1 w3.
Proof.
  intros [L1 T1 F1 D1] [L2 T2 F2 D2]. split; [by etrans|lia|lia|].
  unfold drift in *. destruct remote; lia.
Qed.

Lemma onward_advance w : onward 0 w (advance w).
Proof.
  split; [apply advance_later|..]; unfold time_left, drift_left, drift, advance;
    destruct (w_ticks w) as [|t ts] eqn:E; simpl; rewrite ?E; simpl; destruct remote; lia.
Qed.

(** The store and the log do not matter. *)
Lemma onward_set d w w' s : onward d w w' → onward d w (set_store s w').
Proof. by intros []. Qed.
End time.

(** ** What a test knows *)

Section state.
Context {S : Type} `{Conforming S}.
Implicit Types w : world S.

(** The deadline of [r] stands for the process's instant [D]. *)
Definition dated w (r : Record) (D : Time) : Prop :=
  ∃ i0 d, deadline r = Some d ∧ close i0 d D ∧ later i0 (w_now w) ∧
    Z.abs (drift i0 (w_now w)) + drift_left w ≤ max_drift.

(** The key shows [r] until it expires, or nothing from now on. *)
Definition shows w (k : bytes) (o : option Record) : Prop :=
  ∀ t, authority (w_now w) ≤ t →
    live t (abs (w_store w)) k = match o with Some r => live_rec t r | None => None end.

(** [state T rnd k o w]: the store is up, the test will make its remaining
    calls before [T] (its waits aside), the random source holds [rnd], and
    the key [k] shows [o], a record with its deadline. *)
Record state (T : Time) (rnd : list (bytes + error)) (k : bytes) (o : option (Record * Time)) w : Prop := {
  st_ready : ready (w_now w) (w_store w);
  st_pace : time_left w ≤ pace;
  st_drift : drift_left w ≤ max_drift;
  st_until : app_clock (w_now w) + time_left w ≤ T;
  st_rand : w_rand w = rnd;
  st_shows : shows w k (fst <$> o);
  st_dated : match o with Some (r, D) => dated w r D | None => True end;
}.

Lemma state_now T rnd k o w : state T rnd k o w → app_clock (w_now w) ≤ T.
Proof. intros []. pose proof (time_left_nonneg w). lia. Qed.

Lemma dated_onward d w w' r D : onward d w w' → dated w r D → dated w' r D.
Proof.
  intros [L _ _ Hd] (i0 & x & Hx & Hc & Hl & Hdr). exists i0, x. split_and!; try done.
  - by etrans.
  - unfold drift in *. destruct remote; lia.
Qed.

(** What the skew, the drift and the authority's tick add up to. *)
Lemma dated_now w r D :
  dated w r D → ∃ d, deadline r = Some d ∧
    Z.abs ((d - authority (w_now w)) * unit_ns - (D - app_clock (w_now w)))
      ≤ imprecision.
Proof.
  intros (i0 & d & Hd & Hc & Hl & Hdr). exists d. split; [done|].
  pose proof (authority_rate _ _ Hl) as Hr. unfold close in Hc. pose proof (drift_left_nonneg w).
  revert Hc Hr Hdr. unfold imprecision, drift. rewrite !Z.mul_sub_distr_r. destruct remote; lia.
Qed.

Lemma imprecision_small : 0 ≤ imprecision ≤ 90 * Millisecond.
Proof.
  pose proof skew_small. unfold imprecision, max_drift, Millisecond in *. destruct remote; lia.
Qed.

Lemma tolerance_small : 0 ≤ tolerance ≤ 110 * Millisecond.
Proof.
  pose proof imprecision_small. pose proof skew_small. unfold tolerance, Millisecond in *. lia.
Qed.

Lemma dated_live w r D :
  dated w r D → app_clock (w_now w) + 100 * Millisecond ≤ D →
  live_rec (authority (w_now w)) r = Some r.
Proof.
  intros (d & Hd & Hc)%dated_now HD. unfold live_rec. rewrite (Expired_deadline _ _ _ Hd).
  rewrite (proj2 (Z.leb_gt _ _)); [done|]. pose proof unit_pos.
  pose proof imprecision_small. unfold Millisecond in *. nia.
Qed.

Lemma dated_expired w r D :
  dated w r D → D + 100 * Millisecond ≤ app_clock (w_now w) →
  Expired r (authority (w_now w)) = true.
Proof.
  intros (d & Hd & Hc)%dated_now HD. rewrite (Expired_deadline _ _ _ Hd).
  apply Z.leb_le. pose proof unit_pos.
  pose proof imprecision_small. unfold Millisecond in *. nia.
Qed.

(** A reported deadline is right within the tolerance of the tests. *)
Lemma dated_reported w r D ex :
  dated w r D → reports (w_now w) r ex →
  same_identity r ex ∧ ∃ D', deadline ex = Some D' ∧ Z.abs (D' - D) ≤ tolerance.
Proof.
  intros (d & Hd & Hc)%dated_now (Hs & d' & D' & Hd' & HD' & Hc'). split; [done|].
  exists D'. split; [done|]. rewrite Hd in Hd'. injection Hd' as <-.
  unfold close, tolerance in *. lia.
Qed.

(** *** Time passes *)

Lemma shows_later w w' k o :
  authority (w_now w) ≤ authority (w_now w') → abs (w_store w') = abs (w_store w) →
  shows w k o → shows w' k o.
Proof. intros Ha Hs Hsh t Ht. rewrite Hs. apply Hsh. lia. Qed.

Lemma authority_later i i' : later i i' → authority i ≤ authority i'.
Proof. intros [? ?]. by apply authority_mono. Qed.

Lemma state_onward d T rnd k o w w' :
  onward d w w' → w_store w' = w_store w → w_rand w' = w_rand w →
  state T rnd k o w → state (T + d) rnd k o w'.
Proof.
  intros Ho Hs Hr [? ? ? ? ? Hsh Hd]. pose proof Ho as [Hl Ht Hf Hdr].
  split; rewrite ?Hs, ?Hr; try done; try lia; [by eapply ready_later|..].
  - eapply shows_later; [by apply authority_later|by rewrite Hs|done].
  - destruct o as [[r D]|]; [|done]. by eapply dated_onward.
Qed.

Lemma state_advance T rnd k o w : state T rnd k o w → state T rnd k o (advance w).
Proof.
  intros Hs. rewrite <-(Z.add_0_r T).
  eapply state_onward; [apply onward_advance|apply advance_store|apply advance_rand|done].
Qed.

(** A record past its deadline is not there. *)
Lemma state_expire T rnd k r D w :
  state T rnd k (Some (r, D)) w → D + 100 * Millisecond ≤ app_clock (w_now w) →
  state T rnd k None w.
Proof.
  intros [? ? ? ? ? Hsh Hd] HD. split; try done. intros t Ht. rewrite Hsh by done. simpl.
  unfold live_rec. by rewrite (Expired_mono _ _ _ Ht (dated_expired _ _ _ Hd HD)).
Qed.

Lemma state_live T rnd k r D w :
  state T rnd k (Some (r, D)) w → T + 100 * Millisecond ≤ D →
  live (authority (w_now w)) (abs (w_store w)) k = Some r.
Proof.
  intros Hs HT. pose proof (state_now _ _ _ _ _ Hs). destruct Hs as [_ _ _ _ _ Hsh Hd].
  rewrite Hsh by done. simpl. eapply dated_live; [done|lia].
Qed.

Lemma state_none T rnd k w :
  state T rnd k None w → live (authority (w_now w)) (abs (w_store w)) k = None.
Proof. intros [_ _ _ _ _ Hsh _]. by rewrite Hsh. Qed.

(** A call that leaves the store as it was. *)
Lemma state_same T rnd k o w s :
  state T rnd k o w → ready (w_now w) s → abs s ≡{authority (w_now w)}≡ abs (w_store w) →
  state T rnd k o (set_store s w).
Proof.
  intros [? ? ? ? ? Hsh Hd] Hr Hm. split; try done. intros t Ht. simpl in *.
  rewrite (Hm t k) by done. by apply Hsh.
Qed.

(** A call that writes the key. *)
Lemma state_put T rnd k o w s r d D :
  state T rnd k o w → ready (w_now w) s → abs s ≡{authority (w_now w)}≡ <[k := r]> (abs (w_store w)) →
  deadline r = Some d → close (w_now w) d D → state T rnd k (Some (r, D)) (set_store s w).
Proof.
  intros [? ? Hdl ? ? Hsh _] Hr Hm Hd Hc. split; try done.
  - intros t Ht. simpl in *. rewrite (Hm t k) by done. by rewrite live_insert_eq.
  - exists (w_now w), d. split_and!; try done. simpl. unfold drift_left, drift in *. simpl.
    destruct remote; lia.
Qed.

Lemma state_delete T rnd k o w s :
  state T rnd k o w → ready (w_now w) s → abs s ≡{authority (w_now w)}≡ delete k (abs (w_store w)) →
  state T rnd k None (set_store s w).
Proof.
  intros [? ? ? ? ? Hsh _] Hr Hm. split; try done. intros t Ht. simpl in *.
  rewrite (Hm t k) by done. by rewrite live_delete_eq.
Qed.

(** What is known of the other keys stays known. *)
Definition elsewhere k w w' : Prop :=
  ∀ T rnd k' o', k' ≠ k → state T rnd k' o' w → state T (w_rand w') k' o' w'.

Lemma elsewhere_trans k w1 w2 w3 : elsewhere k w1 w2 → elsewhere k w2 w3 → elsewhere k w1 w3.
Proof. intros H12 H23 T rnd k' o' Hk Hs. eapply H23; [done|]. by eapply H12. Qed.

Lemma elsewhere_advance k w : elsewhere k w (advance w).
Proof.
  intros T rnd k' o' _ Hs. apply state_advance in Hs as Hs'.
  by rewrite (st_rand _ _ _ _ _ Hs') in *.
Qed.

Lemma elsewhere_put k w s r :
  ready (w_now w) s → abs s ≡{authority (w_now w)}≡ <[k := r]> (abs (w_store w)) →
  elsewhere k w (set_store s w).
Proof.
  intros Hr Hm T rnd k' o' Hk [? ? ? ? ? Hsh ?]. split; try done. intros t Ht. simpl in *.
  rewrite (Hm t k') by done. rewrite live_insert_ne by done. by apply Hsh.
Qed.
End state.

(** ** The calls of a test *)

Section rules.
Context {S : Type} `{Conforming S}.
Implicit Types (w : world S) (k tok : bytes) (r : Record).

Lemma advance_le w : app_clock (w_now w) ≤ app_clock (w_now (advance w)).
Proof. by destruct (advance_later w). Qed.

Lemma wp_Now_else T rnd k o w (Q : Time → world S → Prop) :
  state T rnd k o w →
  (∀ w', state T rnd k o w' → app_clock (w_now w) ≤ app_clock (w_now w') → elsewhere k w w' →
     Q (app_clock (w_now w')) w') →
  wp (call time_Now) Q w.
Proof.
  intros Hs HQ. apply wp_call. simpl.
  apply HQ; [by apply state_advance|apply advance_le|apply elsewhere_advance].
Qed.

Lemma wp_Now T rnd k o w (Q : Time → world S → Prop) :
  state T rnd k o w →
  (∀ w', state T rnd k o w' → app_clock (w_now w) ≤ app_clock (w_now w') →
     Q (app_clock (w_now w')) w') →
  wp (call time_Now) Q w.
Proof. intros Hs HQ. eapply wp_Now_else; [done|]. eauto. Qed.

Lemma wp_Sleep T rnd k o w d (Q : () → world S → Prop) :
  state T rnd k o w →
  (∀ w', state (T + Z.max 0 d) rnd k o w' →
     app_clock (w_now w) + Z.max 0 d ≤ app_clock (w_now w') → Q () w') →
  wp (Sleep d) Q w.
Proof.
  intros Hs HQ. eexists _, _. split; [done|].
  set (w1 := advance w).
  set (w2 := mkWorld (w_store w1) (advance_instant (w_now w1) (mkTick (Z.to_N d) (Z.to_N d)))
    (w_ticks w1) (w_rand w1) (w_log w1)).
  assert (onward (Z.max 0 d) w1 w2) as Ho.
  { split; unfold later, time_left, drift_left, drift; subst w2; simpl; try destruct remote; lia. }
  apply HQ.
  - apply state_advance. eapply state_onward; [exact Ho|done..|by apply state_advance].
  - pose proof (advance_le w). pose proof (advance_le w2). subst w2 w1. simpl in *. lia.
Qed.

Lemma wp_Read T rnd k o w n b (Q : bytes + error → world S → Prop) :
  state T (inl b :: rnd) k o w →
  (∀ w', state T rnd k o w' → w_now w' = w_now w → Q (inl (take n b)) w') →
  wp (call (rand_Read n)) Q w.
Proof.
  intros Hs HQ. apply wp_call. simpl. unfold read_rand. rewrite (st_rand _ _ _ _ _ Hs). simpl.
  apply HQ; [|done]. by destruct Hs.
Qed.

(** *** Reserve *)

Lemma wp_Reserve_free_else T rnd k w r (Q : option Record * option error → world S → Prop) :
  state T rnd k None w → rec_Key r = k → reservation r →
  T + (shortTTL - pace) ≤ rec_LeaseExpiresAt r ≤ app_clock (w_now w) + longest →
  (∀ w' r', state T rnd k (Some (r', rec_LeaseExpiresAt r)) w' → same_identity r r' →
     app_clock (w_now w) ≤ app_clock (w_now w') → elsewhere k w w' → Q (None, None) w') →
  wp (call (s_Reserve r)) Q w.
Proof.
  intros Hs%state_advance <- Hr HD HQ. apply wp_call. simpl.
  pose proof (advance_le w). pose proof (state_now _ _ _ _ _ Hs).
  destruct (Reserve _ _ _) as [s [ex err]] eqn:E. simpl.
  apply reserve_conforms in E as [Hrd E]; [|apply Hs|done|unfold usual; lia].
  rewrite (state_none _ _ _ _ Hs) in E. destruct E as (-> & -> & r' & d & Hi & Hd & Hc & Hm).
  apply (HQ _ r'); [|done|done|].
  - by eapply state_put.
  - eapply elsewhere_trans; [apply elsewhere_advance|by eapply elsewhere_put].
Qed.

Lemma wp_Reserve_free T rnd k w r (Q : option Record * option error → world S → Prop) :
  state T rnd k None w → rec_Key r = k → reservation r →
  T + (shortTTL - pace) ≤ rec_LeaseExpiresAt r ≤ app_clock (w_now w) + longest →
  (∀ w' r', state T rnd k (Some (r', rec_LeaseExpiresAt r)) w' → same_identity r r' →
     app_clock (w_now w) ≤ app_clock (w_now w') → Q (None, None) w') →
  wp (call (s_Reserve r)) Q w.
Proof. intros Hs Hk Hr HD HQ. eapply wp_Reserve_free_else; [done..|]. eauto. Qed.

Lemma wp_Reserve_live T rnd k r0 D w r (Q : option Record * option error → world S → Prop) :
  state T rnd k (Some (r0, D)) w → rec_Key r = k → reservation r →
  T + 100 * Millisecond ≤ D →
  T + (shortTTL - pace) ≤ rec_LeaseExpiresAt r ≤ app_clock (w_now w) + longest →
  (∀ w' ex e D', state T rnd k (Some (r0, D)) w' → app_clock (w_now w) ≤ app_clock (w_now w') →
     Is e ErrAlreadyExists = true → same_identity r0 ex → deadline ex = Some D' →
     Z.abs (D' - D) ≤ tolerance → Q (Some ex, Some e) w') →
  wp (call (s_Reserve r)) Q w.
Proof.
  intros Hs%state_advance <- Hr HT HD HQ. apply wp_call. simpl.
  pose proof (advance_le w). pose proof (state_now _ _ _ _ _ Hs).
  destruct (Reserve _ _ _) as [s [ex err]] eqn:E. simpl.
  apply reserve_conforms in E as [Hrd E]; [|apply Hs|done|unfold usual; lia].
  rewrite (state_live _ _ _ _ _ _ Hs HT) in E.
  destruct E as ((e & -> & He) & (r' & -> & Hrep) & Hm).
  destruct (dated_reported _ _ _ _ (st_dated _ _ _ _ _ Hs) Hrep) as (Hi & D' & HD' & Hc).
  eapply HQ; try done. by apply state_same.
Qed.

(** *** Complete and Release *)

Lemma state_cas T rnd k r D w tok :
  state T rnd k (Some (r, D)) w → T + 100 * Millisecond ≤ D → rec_State r = StateReserved →
  cas (authority (w_now w)) k tok (abs (w_store w)) =
    if decide (rec_Token r = tok) then inl r else inr (ErrTokenMismatch : error).
Proof. intros Hs HT Hr. unfold cas. by rewrite (state_live _ _ _ _ _ _ Hs HT), Hr. Qed.

Lemma wp_Complete_held_else T rnd k r D w tok p ttl (Q : option error → world S → Prop) :
  state T rnd k (Some (r, D)) w → T + 100 * Millisecond ≤ D → rec_State r = StateReserved →
  rec_Token r = tok → usual ttl →
  (∀ w' r', state T rnd k (Some (r', app_clock (w_now w') + ttl)) w' →
     same_identity (completed r p 0) r' → app_clock (w_now w) ≤ app_clock (w_now w') →
     elsewhere k w w' → Q None w') →
  wp (call (s_Complete k tok p ttl)) Q w.
Proof.
  intros Hs%state_advance HT Hr <- Hu HQ. apply wp_call. simpl. pose proof (advance_le w).
  destruct (Complete _ _ _ _ _ _) as [s err] eqn:E. simpl.
  apply complete_conforms in E as [Hrd E]; [|apply Hs|done].
  rewrite (state_cas _ _ _ _ _ _ _ Hs HT Hr), decide_True in E by done.
  destruct E as (-> & r' & d & Hi & Hd & Hc & Hm).
  apply (HQ _ r'); [|done|done|].
  - by eapply state_put.
  - eapply elsewhere_trans; [apply elsewhere_advance|by eapply elsewhere_put].
Qed.

Lemma wp_Complete_held T rnd k r D w tok p ttl (Q : option error → world S → Prop) :
  state T rnd k (Some (r, D)) w → T + 100 * Millisecond ≤ D → rec_State r = StateReserved →
  rec_Token r = tok → usual ttl →
  (∀ w' r', state T rnd k (Some (r', app_clock (w_now w') + ttl)) w' →
     same_identity (completed r p 0) r' → app_clock (w_now w) ≤ app_clock (w_now w') →
     Q None w') →
  wp (call (s_Complete k tok p ttl)) Q w.
Proof. intros Hs HT Hr Ht Hu HQ. eapply wp_Complete_held_else; [done..|]. eauto. Qed.

(** Once the key is completed, no token holds it. *)
Lemma wp_Complete_over T rnd k r D w tok p ttl (Q : option error → world S → Prop) :
  state T rnd k (Some (r, D)) w → T + 100 * Millisecond ≤ D → rec_State r ≠ StateReserved →
  usual ttl →
  (∀ w' e, state T rnd k (Some (r, D)) w' → lease_lost_error e = true →
     app_clock (w_now w) ≤ app_clock (w_now w') → Q (Some e) w') →
  wp (call (s_Complete k tok p ttl)) Q w.
Proof.
  intros Hs%state_advance HT Hr Hu HQ. apply wp_call. simpl. pose proof (advance_le w).
  destruct (Complete _ _ _ _ _ _) as [s err] eqn:E. simpl.
  apply complete_conforms in E as [Hrd E]; [|apply Hs|done].
  destruct (cas _ _ _ _) as [r'|e'] eqn:Hc.
  - apply cas_inl in Hc as (Hl & _ & Hr'). rewrite (state_live _ _ _ _ _ _ Hs HT) in Hl. congruence.
  - destruct E as ((e & -> & He & _) & Hm). apply HQ; [|done|done]. by apply state_same.
Qed.

Lemma wp_Complete_refused T rnd k r D w tok p ttl (Q : option error → world S → Prop) :
  state T rnd k (Some (r, D)) w → T + 100 * Millisecond ≤ D → rec_State r = StateReserved →
  rec_Token r ≠ tok → usual ttl →
  (∀ w' e, state T rnd k (Some (r, D)) w' → Is e ErrTokenMismatch = true →
     app_clock (w_now w) ≤ app_clock (w_now w') → Q (Some e) w') →
  wp (call (s_Complete k tok p ttl)) Q w.
Proof.
  intros Hs%state_advance HT Hr Ht Hu HQ. apply wp_call. simpl. pose proof (advance_le w).
  destruct (Complete _ _ _ _ _ _) as [s err] eqn:E. simpl.
  apply complete_conforms in E as [Hrd E]; [|apply Hs|done].
  rewrite (state_cas _ _ _ _ _ _ _ Hs HT Hr), decide_False in E by done.
  destruct E as ((e & -> & _ & _ & He) & Hm). apply HQ; [|eapply He; [by eapply state_live|done..]|done].
  by apply state_same.
Qed.

Lemma wp_Complete_absent T rnd k w tok p ttl (Q : option error → world S → Prop) :
  state T rnd k None w → usual ttl →
  (∀ w' e, state T rnd k None w' → Is e ErrNotFound = true →
     app_clock (w_now w) ≤ app_clock (w_now w') → Q (Some e) w') →
  wp (call (s_Complete k tok p ttl)) Q w.
Proof.
  intros Hs%state_advance Hu HQ. apply wp_call. simpl. pose proof (advance_le w).
  destruct (Complete _ _ _ _ _ _) as [s err] eqn:E. simpl.
  apply complete_conforms in E as [Hrd E]; [|apply Hs|done].
  pose proof (state_none _ _ _ _ Hs) as Hn. unfold cas in E. rewrite Hn in E.
  destruct E as ((e & -> & _ & He & _) & Hm). apply HQ; [|by apply He|done]. by apply state_same.
Qed.

Lemma wp_Release_held T rnd k r D w tok (Q : option error → world S → Prop) :
  state T rnd k (Some (r, D)) w → T + 100 * Millisecond ≤ D → rec_State r = StateReserved →
  rec_Token r = tok →
  (∀ w', state T rnd k None w' → app_clock (w_now w) ≤ app_clock (w_now w') → Q None w') →
  wp (call (s_Release k tok)) Q w.
Proof.
  intros Hs%state_advance HT Hr <- HQ. apply wp_call. simpl. pose proof (advance_le w).
  destruct (Release _ _ _ _) as [s err] eqn:E. simpl.
  apply release_conforms in E as [Hrd E]; [|apply Hs].
  rewrite (state_cas _ _ _ _ _ _ _ Hs HT Hr), decide_True in E by done.
  destruct E as (-> & Hm). apply HQ; [|done]. by eapply state_delete.
Qed.

Lemma wp_Release_refused T rnd k r D w tok (Q : option error → world S → Prop) :
  state T rnd k (Some (r, D)) w → T + 100 * Millisecond ≤ D → rec_State r = StateReserved →
  rec_Token r ≠ tok →
  (∀ w' e, state T rnd k (Some (r, D)) w' → Is e ErrTokenMismatch = true →
     app_clock (w_now w) ≤ app_clock (w_now w') → Q (Some e) w') →
  wp (call (s_Release k tok)) Q w.
Proof.
  intros Hs%state_advance HT Hr Ht HQ. apply wp_call. simpl. pose proof (advance_le w).
  destruct (Release _ _ _ _) as [s err] eqn:E. simpl.
  apply release_conforms in E as [Hrd E]; [|apply Hs].
  rewrite (state_cas _ _ _ _ _ _ _ Hs HT Hr), decide_False in E by done.
  destruct E as ((e & -> & _ & _ & He) & Hm). apply HQ; [|eapply He; [by eapply state_live|done..]|done].
  by apply state_same.
Qed.

Lemma wp_Release_absent T rnd k w tok (Q : option error → world S → Prop) :
  state T rnd k None w →
  (∀ w' e, state T rnd k None w' → Is e ErrNotFound = true →
     app_clock (w_now w) ≤ app_clock (w_now w') → Q (Some e) w') →
  wp (call (s_Release k tok)) Q w.
Proof.
  intros Hs%state_advance HQ. apply wp_call. simpl. pose proof (advance_le w).
  destruct (Release _ _ _ _) as [s err] eqn:E. simpl.
  apply release_conforms in E as [Hrd E]; [|apply Hs].
  pose proof (state_none _ _ _ _ Hs) as Hn. unfold cas in E. rewrite Hn in E.
  destruct E as ((e & -> & _ & He & _) & Hm). apply HQ; [|by apply He|done]. by apply state_same.
Qed.

(** *** Get *)

Lemma wp_Get_live T rnd k r D w (Q : option Record * option error → world S → Prop) :
  state T rnd k (Some (r, D)) w → T + 100 * Millisecond ≤ D →
  (∀ w' ex D', state T rnd k (Some (r, D)) w' → app_clock (w_now w) ≤ app_clock (w_now w') →
     same_identity r ex → deadline ex = Some D' → Z.abs (D' - D) ≤ tolerance →
     Q (Some ex, None) w') →
  wp (call (s_Get k)) Q w.
Proof.
  intros Hs%state_advance HT HQ. apply wp_call. simpl. pose proof (advance_le w).
  destruct (Get _ _ _) as [s [ex err]] eqn:E. simpl.
  apply get_conforms in E as (Hrd & -> & Hm & E); [|apply Hs].
  rewrite (state_live _ _ _ _ _ _ Hs HT) in E. destruct E as (r' & -> & Hrep).
  destruct (dated_reported _ _ _ _ (st_dated _ _ _ _ _ Hs) Hrep) as (Hi & D' & HD' & Hc).
  eapply HQ; try done. by apply state_same.
Qed.

Lemma wp_Get_absent T rnd k w (Q : option Record * option error → world S → Prop) :
  state T rnd k None w →
  (∀ w', state T rnd k None w' → app_clock (w_now w) ≤ app_clock (w_now w') → Q (None, None) w') →
  wp (call (s_Get k)) Q w.
Proof.
  intros Hs%state_advance HQ. apply wp_call. simpl. pose proof (advance_le w).
  destruct (Get _ _ _) as [s [ex err]] eqn:E. simpl.
  apply get_conforms in E as (Hrd & -> & Hm & E); [|apply Hs].
  rewrite (state_none _ _ _ _ Hs) in E. subst ex. apply HQ; [|done]. by apply state_same.
Qed.
End rules.
