(* ===== verification/Idemleasetest.v ===== *)
(** * The conformance suite for stores (idemleasetest/)

    [RunStoreTests] drives the operations of a Store, [RunStateMachineTests]
    drives Begin and Finish over it.  A subtest is a [test] on a store the
    factory gives; the reports are the formats of the source.  What
    the suites establish, and which stores pass them, is in SuiteClaims. *)
From S2P Require Import Prelude GoLib Errors Record Store Effects Core Testing Conforming.
Import Time.
Local Open Scope Z_scope.

Module idemleasetest.

(** [errors.Is(err, target)], of an error that may be nil. *)
Definition errors_Is (err : option error) (target : sentinel) : bool :=
  match err with Some e => Is e target | None => false end.

Definition isNil {A} (o : option A) : bool := match o with None => true | Some _ => false end.
Definition ne {A} `{EqDecision A} (a b : A) : bool := negb (bool_decide (a = b)).

(** ** Helpers *)

Definition reservedRecord (key token fingerprint : bytes) (ttl : Duration) : prog Record :=
  now ← time_Now;
  mret (mkRecord key fingerprint StateReserved token (Add now ttl) Time.zero []).

(** The payload {result: ok}, as JSON. *)
Definition json_ok : bytes :=
  bs "{" ++ x22 :: bs "result" ++ x22 :: bs ":" ++ x22 :: bs "ok" ++ x22 :: bs "}".

Section suite.
Context {S : Type} `{Store S}.
(** The factory: an empty store, given the one in use. *)
Variable newStore : S → S.
(** How the goroutines of a subtest are scheduled. *)
Variable sched : string → list nat.

Definition NewStore : test S () := λ w,
  (([], Some ()), set_store (newStore (w_store w)) w).

Definition mustReserveNew (rec : Record) : test S () :=
  '(existing, err) ← call (s_Reserve rec);
  fatalf_if (negb (isNil err) || negb (isNil existing)) "Reserve(%q) = (%+v, %v), want (nil, nil)".

Definition waitUntilExpired (deadline : Time) : test S () :=
  now ← call time_Now;
  Sleep (i64 (Sub deadline now + 150 * Millisecond)).

Definition assertTimeClose (got want : Time) : test S () :=
  let d := Sub got want in
  let d := if d <? 0 then i64 (- d) else d in
  errorf_if (timeTolerance <? d) "%s = %v, want within %v of %v".

Definition assertStaleRejected (err : option error) : test S () :=
  fatalf_if (negb (errors_Is err ErrTokenMismatch) && negb (errors_Is err ErrNotFound))
    "err = %v, want ErrTokenMismatch or ErrNotFound".

(** [if err != nil || got == nil || !p(got) { t.Fatalf(msg) }], with the
    record for what follows. *)
Definition got_where (p : Record → bool) (x : option Record * option error) (msg : string)
    : test S Record :=
  match x with
  | (Some got, None) => if p got then mret got else Fatalf msg
  | _ => Fatalf msg
  end.
Definition any (_ : Record) : bool := true.

(** The same for a Reserve that must meet an existing record. *)
Definition conflict_where (p : Record → bool) (x : option Record * option error) (msg : string)
    : test S Record :=
  match x with
  | (Some existing, Some e) =>
      if Is e ErrAlreadyExists && p existing then mret existing else Fatalf msg
  | _ => Fatalf msg
  end.

Definition token_is (token : bytes) (r : Record) : bool := bool_decide (rec_Token r = token).
Definition state_is (st : State) (r : Record) : bool := bool_decide (rec_State r = st).
Definition payload_is (p : bytes) (r : Record) : bool := bool_decide (rec_Payload r = p).

(** ** RunStoreTests *)

Definition ReserveOnEmpty : test S () :=
  _ ← NewStore;
  let fp := bs "fp" in
  rec ← call (reservedRecord (bs "k") (bs "tok-first") fp validTTL);
  _ ← mustReserveNew rec;
  x ← call (s_Get (bs "k"));
  got ← got_where any x "Get = (%+v, %v), want the reserved record";
  _ ← errorf_if (ne (rec_Key got) (bs "k")) "Key = %q, want %q";
  _ ← errorf_if (ne (rec_State got) StateReserved) "State = %v, want StateReserved";
  _ ← errorf_if (ne (rec_Token got) (bs "tok-first"))
        "Token = %q, want %q (stores must persist tokens verbatim)";
  _ ← errorf_if (ne (rec_Fingerprint got) fp) "Fingerprint = %q, want %q";
  assertTimeClose (rec_LeaseExpiresAt got) (rec_LeaseExpiresAt rec).

Definition ReserveConflictReturnsExisting : test S () :=
  _ ← NewStore;
  first ← call (reservedRecord (bs "k") (bs "tok-first") (bs "fp-first") validTTL);
  _ ← mustReserveNew first;
  rec ← call (reservedRecord (bs "k") (bs "tok-second") (bs "fp-second") validTTL);
  '(existing, err) ← call (s_Reserve rec);
  _ ← fatalf_if (negb (errors_Is err ErrAlreadyExists)) "err = %v, want ErrAlreadyExists";
  existing ← match existing with
             | Some existing => mret existing
             | None => Fatalf "existing = nil, want the first record"
             end;
  _ ← errorf_if (ne (rec_Token existing) (bs "tok-first"))
        "existing.Token = %q, want %q (verbatim persistence)";
  _ ← errorf_if (ne (rec_State existing) StateReserved) "existing.State = %v, want StateReserved";
  _ ← errorf_if (ne (rec_Fingerprint existing) (bs "fp-first"))
        "existing.Fingerprint = %q, want %q";
  _ ← assertTimeClose (rec_LeaseExpiresAt existing) (rec_LeaseExpiresAt first);
  now ← call time_Now;
  _ ← errorf_if (Expired existing now)
        "existing must be a live record: expired records are never returned";
  x ← call (s_Get (bs "k"));
  _ ← got_where (token_is (bs "tok-first")) x "a losing Reserve must not modify the stored record";
  mret ().

Definition ReserveConflictOnCompleted : test S () :=
  _ ← NewStore;
  let fp := bs "fp" in
  let payload := bs "payload-1" in
  rec ← call (reservedRecord (bs "k") (bs "tok-1") fp validTTL);
  _ ← mustReserveNew rec;
  err ← call (s_Complete (bs "k") (bs "tok-1") payload validTTL);
  _ ← fatalf_if (negb (isNil err)) "Complete: %v";
  rec ← call (reservedRecord (bs "k") (bs "tok-2") fp validTTL);
  x ← call (s_Reserve rec);
  existing ← conflict_where any x "Reserve = (%+v, %v), want (completed record, ErrAlreadyExists)";
  _ ← errorf_if (ne (rec_State existing) StateCompleted) "existing.State = %v, want StateCompleted";
  _ ← errorf_if (ne (rec_Payload existing) payload) "existing.Payload = %q, want %q";
  _ ← errorf_if (ne (rec_Fingerprint existing) fp) "existing.Fingerprint = %q, want %q";
  now ← call time_Now;
  errorf_if (Expired existing now)
    "existing must be a live record: expired records are never returned".

(** The token of goroutine [i], and what it does. *)
Definition racer_token (i : nat) : bytes := bs "tok-" ++ FormatInt (Z.of_nat i).
Definition racer (i : nat) : prog (option Record * option error) :=
  rec ← reservedRecord (bs "k") (racer_token i) (bs "fp") validTTL;
  s_Reserve rec.

(** The loop over the results; [over] is the token that must not be seen. *)
Fixpoint find_winner (over : option bytes) (i : nat) (winner : option nat)
    (results : list (option Record * option error)) : test S (option nat) :=
  match results with
  | [] => mret winner
  | (existing, err) :: results =>
      match err with
      | None =>
          _ ← fatalf_if (negb (isNil winner)) "multiple winners: #%d and #%d";
          find_winner over (i + 1) (Some i) results
      | Some e =>
          if Is e ErrAlreadyExists then
            match existing with
            | None => Fatalf "#%d: ErrAlreadyExists without the existing record"
            | Some existing =>
                _ ← fatalf_if (bool_decide (Some (rec_Token existing) = over))
                      "#%d: observed the expired record as existing";
                find_winner over (i + 1) winner results
            end
          else Fatalf "#%d: unexpected error %v"
      end
  end.

Fixpoint check_tokens (winnerToken : bytes) (results : list (option Record * option error))
    : test S () :=
  match results with
  | [] => mret ()
  | (existing, _) :: results =>
      _ ← match existing with
          | Some ex => fatalf_if (ne (rec_Token ex) winnerToken) "#%d observed token %q, want the winner's %q"
          | None => mret ()
          end;
      check_tokens winnerToken results
  end.

Definition racers : nat := 100.

Definition ConcurrentReserveSingleWinner : test S () :=
  _ ← NewStore;
  results ← Go (sched "ConcurrentReserveSingleWinner") (racer <$> seq 0 racers);
  winner ← find_winner None 0 None results;
  match winner with
  | None => Fatalf "no Reserve succeeded"
  | Some winner =>
      let winnerToken := racer_token winner in
      _ ← check_tokens winnerToken results;
      x ← call (s_Get (bs "k"));
      _ ← got_where (token_is winnerToken) x "Get = (%+v, %v), want the winner's record";
      mret ()
  end.

Definition OpaqueBinaryKey : test S () :=
  _ ← NewStore;
  let key := bs "tenant-A" ++ [x00] ++ bs "order-" ++ [xff; x01] ++ bs "key" in
  rec ← call (reservedRecord key (bs "tok-bin") (bs "fp") validTTL);
  _ ← mustReserveNew rec;
  x ← call (s_Get key);
  got ← got_where any x "Get(%q) = (%+v, %v), want the reserved record";
  _ ← errorf_if (ne (rec_Token got) (bs "tok-bin")) "Token = %q, want %q";
  err ← call (s_Complete key (bs "tok-bin") (bs "payload") validTTL);
  _ ← fatalf_if (negb (isNil err)) "Complete on a binary key: %v";
  x ← call (s_Get key);
  _ ← got_where (state_is StateCompleted) x "Get after Complete = (%+v, %v), want a completed record";
  mret ().

Definition TokenPersistedVerbatim : test S () :=
  _ ← NewStore;
  let token := bs "tok-α/β+γ=0123456789abcdef" in
  rec ← call (reservedRecord (bs "k") token [] validTTL);
  _ ← mustReserveNew rec;
  x ← call (s_Get (bs "k"));
  _ ← got_where (token_is token) x "Get token = (%+v, %v), want %q verbatim";
  rec ← call (reservedRecord (bs "k") (bs "tok-other") [] validTTL);
  x ← call (s_Reserve rec);
  _ ← conflict_where (token_is token) x "existing token = (%+v, %v), want %q verbatim";
  mret ().

Definition ReserveAfterLeaseExpiry : test S () :=
  _ ← NewStore;
  old ← call (reservedRecord (bs "k") (bs "tok-old") (bs "fp-old") shortTTL);
  _ ← mustReserveNew old;
  _ ← waitUntilExpired (rec_LeaseExpiresAt old);
  rec ← call (reservedRecord (bs "k") (bs "tok-new") (bs "fp-new") validTTL);
  '(existing, err) ← call (s_Reserve rec);
  _ ← fatalf_if (negb (isNil err)) "Reserve over an expired lease = %v, want success";
  _ ← fatalf_if (negb (isNil existing)) "existing = %+v, want nil";
  x ← call (s_Get (bs "k"));
  _ ← got_where (λ got, token_is (bs "tok-new") got && state_is StateReserved got) x
        "Get = (%+v, %v), want the fresh reservation";
  mret ().

Definition ReserveAfterRecordTTLExpiry : test S () :=
  _ ← NewStore;
  rec ← call (reservedRecord (bs "k") (bs "tok-1") (bs "fp") validTTL);
  _ ← mustReserveNew rec;
  err ← call (s_Complete (bs "k") (bs "tok-1") (bs "payload") shortTTL);
  _ ← fatalf_if (negb (isNil err)) "Complete: %v";
  now ← call time_Now;
  _ ← waitUntilExpired (Add now shortTTL);
  rec ← call (reservedRecord (bs "k") (bs "tok-2") (bs "fp") validTTL);
  '(existing, err) ← call (s_Reserve rec);
  _ ← fatalf_if (negb (isNil err) || negb (isNil existing))
        "Reserve over an expired record = (%+v, %v), want (nil, nil)";
  x ← call (s_Get (bs "k"));
  _ ← got_where (λ got, token_is (bs "tok-2") got && state_is StateReserved got) x
        "Get = (%+v, %v), want the fresh reservation";
  mret ().

Definition ConcurrentReserveOverExpired : test S () :=
  _ ← NewStore;
  old ← call (reservedRecord (bs "k") (bs "tok-old") (bs "fp") shortTTL);
  _ ← mustReserveNew old;
  _ ← waitUntilExpired (rec_LeaseExpiresAt old);
  results ← Go (sched "ConcurrentReserveOverExpired") (racer <$> seq 0 racers);
  winner ← find_winner (Some (bs "tok-old")) 0 None results;
  fatalf_if (isNil winner) "no Reserve succeeded over the expired record".

Definition CompleteStoresPayload : test S () :=
  _ ← NewStore;
  let payload := json_ok in
  rec ← call (reservedRecord (bs "k") (bs "tok-1") (bs "fp") validTTL);
  _ ← mustReserveNew rec;
  before ← call time_Now;
  err ← call (s_Complete (bs "k") (bs "tok-1") payload validTTL);
  _ ← fatalf_if (negb (isNil err)) "Complete: %v";
  x ← call (s_Get (bs "k"));
  got ← got_where any x "Get = (%+v, %v), want the completed record";
  _ ← errorf_if (ne (rec_State got) StateCompleted) "State = %v, want StateCompleted";
  _ ← errorf_if (ne (rec_Payload got) payload) "Payload = %q, want %q";
  assertTimeClose (rec_RecordExpiresAt got) (Add before validTTL).

Definition CompleteWrongToken : test S () :=
  _ ← NewStore;
  rec ← call (reservedRecord (bs "k") (bs "tok-1") (bs "fp") validTTL);
  _ ← mustReserveNew rec;
  err ← call (s_Complete (bs "k") (bs "tok-evil") (bs "payload") validTTL);
  _ ← fatalf_if (negb (errors_Is err ErrTokenMismatch)) "err = %v, want ErrTokenMismatch";
  x ← call (s_Get (bs "k"));
  _ ← got_where (λ got, state_is StateReserved got && token_is (bs "tok-1") got) x
        "a rejected Complete must not modify the record: Get = (%+v, %v)";
  mret ().

Definition CompleteMissingKey : test S () :=
  _ ← NewStore;
  err ← call (s_Complete (bs "absent") (bs "tok-1") (bs "payload") validTTL);
  fatalf_if (negb (errors_Is err ErrNotFound)) "err = %v, want ErrNotFound".

Definition CompleteStaleTokenAfterExpiry : test S () :=
  _ ← NewStore;
  old ← call (reservedRecord (bs "k") (bs "tok-old") (bs "fp") shortTTL);
  _ ← mustReserveNew old;
  _ ← waitUntilExpired (rec_LeaseExpiresAt old);
  err ← call (s_Complete (bs "k") (bs "tok-old") (bs "payload") validTTL);
  _ ← assertStaleRejected err;
  rec ← call (reservedRecord (bs "k") (bs "tok-new") (bs "fp") validTTL);
  '(existing, err) ← call (s_Reserve rec);
  fatalf_if (negb (isNil err) || negb (isNil existing))
    "Reserve after stale Complete = (%+v, %v), want (nil, nil)".

Definition CompleteStaleTokenAfterReclaim : test S () :=
  _ ← NewStore;
  old ← call (reservedRecord (bs "k") (bs "tok-a") (bs "fp") shortTTL);
  _ ← mustReserveNew old;
  _ ← waitUntilExpired (rec_LeaseExpiresAt old);
  rec ← call (reservedRecord (bs "k") (bs "tok-b") (bs "fp") validTTL);
  _ ← mustReserveNew rec;
  err ← call (s_Complete (bs "k") (bs "tok-a") (bs "payload-a") validTTL);
  _ ← assertStaleRejected err;
  x ← call (s_Get (bs "k"));
  _ ← got_where (λ got, state_is StateReserved got && token_is (bs "tok-b") got) x
        "the stale Complete must not disturb the new owner: Get = (%+v, %v)";
  err ← call (s_Complete (bs "k") (bs "tok-b") (bs "payload-b") validTTL);
  _ ← fatalf_if (negb (isNil err)) "the new owner's Complete must succeed: %v";
  x ← call (s_Get (bs "k"));
  _ ← got_where (payload_is (bs "payload-b")) x "Get = (%+v, %v), want the new owner's payload";
  mret ().

Definition ReleaseDeletesReservation : test S () :=
  _ ← NewStore;
  rec ← call (reservedRecord (bs "k") (bs "tok-1") (bs "fp") validTTL);
  _ ← mustReserveNew rec;
  err ← call (s_Release (bs "k") (bs "tok-1"));
  _ ← fatalf_if (negb (isNil err)) "Release: %v";
  '(got, err) ← call (s_Get (bs "k"));
  _ ← fatalf_if (negb (isNil err) || negb (isNil got))
        "Get after Release = (%+v, %v), want (nil, nil)";
  rec ← call (reservedRecord (bs "k") (bs "tok-2") (bs "fp") validTTL);
  mustReserveNew rec.

Definition ReleaseWrongToken : test S () :=
  _ ← NewStore;
  rec ← call (reservedRecord (bs "k") (bs "tok-1") (bs "fp") validTTL);
  _ ← mustReserveNew rec;
  err ← call (s_Release (bs "k") (bs "tok-evil"));
  _ ← fatalf_if (negb (errors_Is err ErrTokenMismatch)) "err = %v, want ErrTokenMismatch";
  x ← call (s_Get (bs "k"));
  _ ← got_where (token_is (bs "tok-1")) x
        "a rejected Release must not modify the record: Get = (%+v, %v)";
  mret ().

Definition ReleaseMissingKey : test S () :=
  _ ← NewStore;
  err ← call (s_Release (bs "absent") (bs "tok-1"));
  fatalf_if (negb (errors_Is err ErrNotFound)) "err = %v, want ErrNotFound".

Definition ReleaseStaleTokenAfterReclaim : test S () :=
  _ ← NewStore;
  old ← call (reservedRecord (bs "k") (bs "tok-a") (bs "fp") shortTTL);
  _ ← mustReserveNew old;
  _ ← waitUntilExpired (rec_LeaseExpiresAt old);
  rec ← call (reservedRecord (bs "k") (bs "tok-b") (bs "fp") validTTL);
  _ ← mustReserveNew rec;
  err ← call (s_Release (bs "k") (bs "tok-a"));
  _ ← assertStaleRejected err;
  x ← call (s_Get (bs "k"));
  _ ← got_where (token_is (bs "tok-b")) x
        "the stale Release must not disturb the new owner: Get = (%+v, %v)";
  mret ().

Definition GetMissingKey : test S () :=
  _ ← NewStore;
  '(got, err) ← call (s_Get (bs "absent"));
  fatalf_if (negb (isNil err) || negb (isNil got)) "Get = (%+v, %v), want (nil, nil)".

Definition GetExpiredRecord : test S () :=
  _ ← NewStore;
  old ← call (reservedRecord (bs "k") (bs "tok-old") (bs "fp") shortTTL);
  _ ← mustReserveNew old;
  _ ← waitUntilExpired (rec_LeaseExpiresAt old);
  '(got, err) ← call (s_Get (bs "k"));
  _ ← fatalf_if (negb (isNil err)) "Get: %v";
  match got with
  | None => mret ()
  | Some got =>
      now ← call time_Now;
      fatalf_if (negb (Expired got now))
        "Get returned a live record %+v, want nil or an expired record"
  end.

Definition RunStoreTests : test S () :=
  _ ← Run "ReserveOnEmpty" ReserveOnEmpty;
  _ ← Run "ReserveConflictReturnsExisting" ReserveConflictReturnsExisting;
  _ ← Run "ReserveConflictOnCompleted" ReserveConflictOnCompleted;
  _ ← Run "ConcurrentReserveSingleWinner" ConcurrentReserveSingleWinner;
  _ ← Run "OpaqueBinaryKey" OpaqueBinaryKey;
  _ ← Run "TokenPersistedVerbatim" TokenPersistedVerbatim;
  _ ← Run "ReserveAfterLeaseExpiry" ReserveAfterLeaseExpiry;
  _ ← Run "ReserveAfterRecordTTLExpiry" ReserveAfterRecordTTLExpiry;
  _ ← Run "ConcurrentReserveOverExpired" ConcurrentReserveOverExpired;
  _ ← Run "CompleteStoresPayload" CompleteStoresPayload;
  _ ← Run "CompleteWrongToken" CompleteWrongToken;
  _ ← Run "CompleteMissingKey" CompleteMissingKey;
  _ ← Run "CompleteStaleTokenAfterExpiry" CompleteStaleTokenAfterExpiry;
  _ ← Run "CompleteStaleTokenAfterReclaim" CompleteStaleTokenAfterReclaim;
  _ ← Run "ReleaseDeletesReservation" ReleaseDeletesReservation;
  _ ← Run "ReleaseWrongToken" ReleaseWrongToken;
  _ ← Run "ReleaseMissingKey" ReleaseMissingKey;
  _ ← Run "ReleaseStaleTokenAfterReclaim" ReleaseStaleTokenAfterReclaim;
  _ ← Run "GetMissingKey" GetMissingKey;
  Run "GetExpiredRecord" GetExpiredRecord.

(** ** RunStateMachineTests *)

Definition opts : Options := mkOptions validTTL validTTL.
Definition shortLease : Options := mkOptions shortTTL validTTL.
Definition shortRecord : Options := mkOptions validTTL shortTTL.

(** [if err != nil || out.Action != a { t.Fatalf(msg) }]. *)
Definition outcome_where (a : Action) (p : Outcome → bool) (x : Outcome + error) (msg : string)
    : test S Outcome :=
  match x with
  | inl out => if bool_decide (out_Action out = a) && p out then mret out else Fatalf msg
  | inr _ => Fatalf msg
  end.
Definition whatever (_ : Outcome) : bool := true.

Definition mustProceed (key fingerprint : bytes) (o : Options) : test S Outcome :=
  x ← call (Begin key fingerprint o);
  outcome_where Proceed whatever x "Begin(%q) = (%+v, %v), want Proceed".

(** [if err != nil || leaseLost != lost { t.Fatalf(msg) }]. *)
Definition finish_where (lost : bool) (x : bool * option error) (msg : string) : test S () :=
  fatalf_if (negb (isNil x.2) || ne x.1 lost) msg.

Definition ProceedPersistReplay : test S () :=
  _ ← NewStore;
  let fp := bs "fp" in
  let payload := json_ok in
  out ← mustProceed (bs "k") fp opts;
  x ← call (Finish (bs "k") (out_Token out) Persist payload opts);
  _ ← finish_where false x "Finish = (%v, %v), want (false, nil)";
  x ← call (Begin (bs "k") fp opts);
  replay ← outcome_where Replay whatever x "Begin after Persist = (%+v, %v), want Replay";
  _ ← errorf_if (ne (out_Payload replay) payload) "replayed payload = %q, want %q";
  x ← call (Begin (bs "k") (bs "other-fp") opts);
  _ ← outcome_where RejectFingerprintMismatch whatever x
        "Begin with another fingerprint = (%+v, %v), want RejectFingerprintMismatch";
  mret ().

Definition InFlightRejection : test S () :=
  _ ← NewStore;
  let fp := bs "fp" in
  _ ← mustProceed (bs "k") fp opts;
  x ← call (Begin (bs "k") fp opts);
  same ← outcome_where RejectInFlight whatever x
           "Begin during lease = (%+v, %v), want RejectInFlight";
  _ ← errorf_if ((out_RetryAfter same <=? 0) || (validTTL <? out_RetryAfter same))
        "RetryAfter = %v, want within (0, %v]";
  x ← call (Begin (bs "k") (bs "other-fp") opts);
  _ ← outcome_where RejectInFlight whatever x
        "Begin with another fingerprint = (%+v, %v), want RejectInFlight";
  mret ().

Definition DiscardAllowsReexecution : test S () :=
  _ ← NewStore;
  let fp := bs "fp" in
  out ← mustProceed (bs "k") fp opts;
  x ← call (Finish (bs "k") (out_Token out) Discard [] opts);
  _ ← finish_where false x "Finish(Discard) = (%v, %v), want (false, nil)";
  again ← mustProceed (bs "k") fp opts;
  errorf_if (bool_decide (out_Token again = out_Token out))
    "re-execution must hold a fresh token".

Definition ProceedWithoutFinish : test S () :=
  _ ← NewStore;
  let fp := bs "fp" in
  first ← mustProceed (bs "k") fp shortLease;
  now ← call time_Now;
  _ ← waitUntilExpired (Add now shortTTL);
  again ← mustProceed (bs "k") fp opts;
  errorf_if (bool_decide (out_Token again = out_Token first))
    "re-execution after lease expiry must hold a fresh token".

Definition LeaseExpirySurvivor : test S () :=
  _ ← NewStore;
  let fp := bs "fp" in
  let payloadA := bs "result-of-A" in
  let payloadB := bs "result-of-B" in
  a ← mustProceed (bs "k") fp shortLease;
  now ← call time_Now;
  _ ← waitUntilExpired (Add now shortTTL);
  b ← mustProceed (bs "k") fp opts;
  _ ← fatalf_if (bool_decide (out_Token b = out_Token a)) "B must hold a distinct token";
  x ← call (Finish (bs "k") (out_Token a) Persist payloadA opts);
  _ ← finish_where true x "Finish(A, %v) = (%v, %v), want (true, nil)";
  x ← call (Finish (bs "k") (out_Token a) Discard payloadA opts);
  _ ← finish_where true x "Finish(A, %v) = (%v, %v), want (true, nil)";
  x ← call (Finish (bs "k") (out_Token b) Persist payloadB opts);
  _ ← finish_where false x "Finish(B) = (%v, %v), want (false, nil)";
  x ← call (Begin (bs "k") fp opts);
  _ ← outcome_where Replay (λ replay, bool_decide (out_Payload replay = payloadB)) x
        "Begin after B = (%+v, %v), want Replay with B's payload only";
  mret ().

Definition RecordTTLExpiryAllowsReexecution : test S () :=
  _ ← NewStore;
  let fp := bs "fp" in
  out ← mustProceed (bs "k") fp shortRecord;
  x ← call (Finish (bs "k") (out_Token out) Persist (bs "v1") shortRecord);
  _ ← fatalf_if (negb (isNil x.2)) "Finish: %v";
  now ← call time_Now;
  _ ← waitUntilExpired (Add now shortTTL);
  _ ← mustProceed (bs "k") fp opts;
  mret ().

(** The loop that counts what the goroutines were told. *)
Fixpoint count_actions (proceeds inflights : nat) (results : list (Outcome + error))
    : test S (nat * nat) :=
  match results with
  | [] => mret (proceeds, inflights)
  | inr _ :: _ => Fatalf "Begin #%d: %v"
  | inl out :: results =>
      match out_Action out with
      | Proceed => count_actions (proceeds + 1) inflights results
      | RejectInFlight => count_actions proceeds (inflights + 1) results
      | _ => Fatalf "Begin #%d: unexpected action %v"
      end
  end.

Definition ConcurrentBeginSingleWinner : test S () :=
  _ ← NewStore;
  let fp := bs "fp" in
  results ← Go (sched "ConcurrentBeginSingleWinner") (replicate racers (Begin (bs "k") fp opts));
  '(proceeds, inflights) ← count_actions 0 0 results;
  fatalf_if (ne proceeds 1%nat || ne inflights (racers - 1)%nat)
    "proceeds = %d, inflights = %d; want 1 and %d".

Definition RunStateMachineTests : test S () :=
  _ ← Run "ProceedPersistReplay" ProceedPersistReplay;
  _ ← Run "InFlightRejection" InFlightRejection;
  _ ← Run "DiscardAllowsReexecution" DiscardAllowsReexecution;
  _ ← Run "ProceedWithoutFinish" ProceedWithoutFinish;
  _ ← Run "LeaseExpirySurvivor" LeaseExpirySurvivor;
  _ ← Run "RecordTTLExpiryAllowsReexecution" RecordTTLExpiryAllowsReexecution;
  Run "ConcurrentBeginSingleWinner" ConcurrentBeginSingleWinner.

End suite.
End idemleasetest.
