(* ===== verification/SuiteStore.v ===== *)
(** * The store suite, subtest by subtest

    Every conforming store passes each subtest of RunStoreTests.  The
    tactics step through a test: [new] gives it an empty store, [next]
    applies the rule of a call, [passed] a check that does not fire. *)
From S2P Require Import Prelude GoLib Errors Record Store Effects.
From S2P Require Import Testing Conforming Idemleasetest.
Import Time idemleasetest.
Local Open Scope Z_scope.

Create HintDb suite discriminated.
#[export] Hint Constants Opaque : suite.

(** ** The helpers of the suite *)

Section suite.
Context {S : Type} `{Conforming S}.
Variable newStore : S → S.
Variable sched : string → list nat.
Hypothesis newStore_empty : ∀ i s, ready i s → ready i (newStore s) ∧ abs (newStore s) = ∅.
Implicit Types (w : world S) (r : Record).

(** The store is up, and what remains of the test is quick. *)
Definition idle (rnd : list (bytes + error)) w : Prop :=
  ready (w_now w) (w_store w) ∧ time_left w ≤ pace ∧ drift_left w ≤ max_drift ∧ w_rand w = rnd.

Lemma state_idle T rnd k o w : state T rnd k o w → idle rnd w.
Proof. by intros []. Qed.

Lemma wp_NewStore k rnd w (Q : () → world S → Prop) :
  idle rnd w →
  (∀ w', state (app_clock (w_now w') + pace) rnd k None w' → Q () w') →
  wp (NewStore newStore) Q w.
Proof.
  intros (Hr & Hp & Hd & Hrnd) HQ. eexists _, _. split; [done|].
  destruct (newStore_empty _ _ Hr) as [Hr' He]. apply HQ. split; try done; simpl.
  - by apply Zplus_le_compat_l.
  - intros t _. simpl. rewrite He. done.
Qed.

Lemma wp_reservedRecord T rnd k o w key tok fp ttl (Q : Record → world S → Prop) :
  state T rnd k o w →
  (∀ w' t, state T rnd k o w' → app_clock (w_now w) ≤ t ≤ app_clock (w_now w') →
     Q (mkRecord key fp StateReserved tok (Add t ttl) Time.zero []) w') →
  wp (call (reservedRecord key tok fp ttl)) Q w.
Proof.
  intros Hs HQ. apply wp_call_bind. eapply wp_Now; [exact Hs|]. intros w' Hs' Hle.
  apply wp_call. simpl. apply HQ; [done|lia].
Qed.

Lemma wp_mustReserveNew T rnd k w r (Q : () → world S → Prop) :
  state T rnd k None w → rec_Key r = k → reservation r →
  T + (shortTTL - pace) ≤ rec_LeaseExpiresAt r ≤ app_clock (w_now w) + longest →
  (∀ w' r', state T rnd k (Some (r', rec_LeaseExpiresAt r)) w' → same_identity r r' →
     app_clock (w_now w) ≤ app_clock (w_now w') → Q () w') →
  wp (mustReserveNew r) Q w.
Proof.
  intros Hs Hk Hr HD HQ. apply wp_bind. eapply wp_Reserve_free; [done..|].
  intros w' r' Hs' Hi Hle. apply wp_fatalf_if; [done|]. by eapply HQ.
Qed.

Lemma state_weaken T T' rnd k o w : state T rnd k o w → T ≤ T' → state T' rnd k o w.
Proof. intros [] HT. split; try done. lia. Qed.

Lemma wp_wait T rnd k o w D (Q : () → world S → Prop) :
  state T rnd k o w → D ≤ app_clock (w_now w) + shortTTL → T ≤ D + Second →
  (∀ w', state (T + 250 * Millisecond) rnd k o w' →
     app_clock (w_now w) ≤ app_clock (w_now w') →
     D + 150 * Millisecond ≤ app_clock (w_now w') → Q () w') →
  wp (waitUntilExpired D) Q w.
Proof.
  intros Hs HD HT HQ. apply wp_bind. eapply wp_Now; [exact Hs|]. intros w1 Hs1 L1.
  pose proof (state_now _ _ _ _ _ Hs1) as Hn.
  unfold shortTTL, Second, Millisecond in *.
  rewrite Sub_exact by (unfold is_i64, min_int64, max_int64, two63; lia).
  rewrite i64_small by (unfold is_i64, min_int64, max_int64, two63; lia).
  eapply wp_Sleep; [exact Hs1|]. intros w2 Hs2 L2. apply HQ; [|lia..].
  eapply state_weaken; [exact Hs2|lia].
Qed.

(** Finding a live record. *)
Lemma wp_got_where (p : Record → bool) x msg (Q : Record → world S → Prop) w :
  p x = true → Q x w → wp (got_where p (Some x, None) msg) Q w.
Proof. intros Hp HQ. unfold got_where. rewrite Hp. by apply wp_ret. Qed.

Lemma wp_conflict_where (p : Record → bool) x e msg (Q : Record → world S → Prop) w :
  Is e ErrAlreadyExists = true → p x = true → Q x w →
  wp (conflict_where p (Some x, Some e) msg) Q w.
Proof. intros He Hp HQ. unfold conflict_where. rewrite He, Hp. by apply wp_ret. Qed.

Lemma wp_assertTimeClose got want (Q : () → world S → Prop) w :
  Z.abs (got - want) ≤ timeTolerance → Q () w → wp (assertTimeClose got want) Q w.
Proof.
  unfold timeTolerance, Second in *. intros Hc HQ. apply wp_errorf_if; [|done].
  rewrite Sub_exact by (unfold is_i64, min_int64, max_int64, two63; lia).
  apply Z.ltb_ge. unfold timeTolerance, Second. case_match; [|lia].
  rewrite i64_small; [lia|]. unfold is_i64, min_int64, max_int64, two63. lia.
Qed.
End suite.

(** ** Goroutines that compete

    One goroutine may have won; each of the others is still waiting, or was
    told of the winner. *)
Section others.
Context {A : Type} (waiting : Time → nat → prog A → Prop) (told : nat → prog A → Prop).
Hypothesis waiting_mono : ∀ now now' i p, now ≤ now' → waiting now i p → waiting now' i p.

Definition others (now : Time) (won : option nat) (ps : list (prog A)) : Prop :=
  ∀ i p, won ≠ Some i → ps !! i = Some p → waiting now i p ∨ ∃ j, won = Some j ∧ told j p.

Lemma others_insert now now' won won' n q ps :
  now ≤ now' →
  won' = won ∨ (won = None ∧ won' = Some n) →
  won' = Some n ∨ waiting now' n q ∨ (∃ j, won' = Some j ∧ told j q) →
  others now won ps → others now' won' (<[n := q]> ps).
Proof using waiting_mono.
  intros Hle Hwon Hq Ho i p Hi Hp. destruct (decide (i = n)) as [->|Hne].
  - rewrite list_lookup_insert_eq in Hp.
    + injection Hp as <-. by destruct Hq.
    + apply lookup_lt_Some in Hp. by rewrite length_insert in Hp.
  - rewrite list_lookup_insert_ne in Hp by done.
    assert (won ≠ Some i) as Hi' by (destruct Hwon as [->|[-> _]]; done).
    destruct (Ho _ _ Hi' Hp) as [?|(j & Hj & ?)]; [left; by eapply waiting_mono|].
    right. exists j. split; [|done]. destruct Hwon as [->|[-> _]]; done.
Qed.
End others.

(** ** Tactics for tests *)

Ltac timing :=
  pose proof pace_small; pose proof tolerance_small;
  repeat match goal with Hs : state _ _ _ _ _ |- _ => apply state_now in Hs end;
  simpl in *; unfold longest, shortTTL, validTTL, timeTolerance, Hour, Minute, Second, Millisecond, Add in *;
  simpl in *; lia.

(** What is known of the records a test has seen. *)
Ltac identities :=
  repeat match goal with
  | Hs : same_identity _ _ |- _ => destruct Hs as (? & ? & ? & ? & ?)
  | x := _ |- _ => subst x
  end; simpl in *.

(** A check that does not fire. *)
Ltac check :=
  identities; unfold any, ne, token_is, state_is, payload_is, errors_Is, isNil in *; simpl;
  repeat match goal with Hi : Is _ _ = true |- _ => rewrite Hi; clear Hi end;
  rewrite ?bool_decide_eq_true_2 by congruence; done.

(** Two tokens of the suite differ. *)
Ltac distinct :=
  identities; let E := fresh in intros E;
  match goal with Ht : _ = rec_Token _ |- _ => rewrite <-Ht in E end; discriminate E.

(** The next call or check of the test. *)
Ltac side := first [done | timing | distinct | by unfold usual; timing | by identities; congruence | check].
Tactic Notation "next" uconstr(lem) :=
  apply wp_bind; eapply lem; [eassumption|side..|intros].
Tactic Notation "passed" uconstr(lem) := apply wp_bind; apply lem; [check..|].
Ltac new k := apply wp_bind; eapply (wp_NewStore _ ltac:(eassumption) k); [eassumption|intros].
Ltac record_ := apply wp_bind; eapply wp_reservedRecord; [eassumption|intros].
Ltac ends := eapply state_idle; eassumption.

(** The deadline of a reservation that is reported. *)
Lemma lease_reported r0 r ex D :
  rec_State r0 = StateReserved → same_identity r0 r → same_identity r ex →
  deadline ex = Some D → rec_LeaseExpiresAt ex = D.
Proof.
  intros Hr (_&_&Hs&_) (_&_&Hs'&_). unfold deadline. rewrite <-Hs', <-Hs, Hr. by intros [= ->].
Qed.

Lemma record_reported r0 r ex D :
  rec_State r0 = StateCompleted → same_identity r0 r → same_identity r ex →
  deadline ex = Some D → rec_RecordExpiresAt ex = D.
Proof.
  intros Hr (_&_&Hs&_) (_&_&Hs'&_). unfold deadline. rewrite <-Hs', <-Hs, Hr. by intros [= ->].
Qed.

Ltac reported :=
  match goal with
  | H1 : same_identity ?r0 ?r, H2 : same_identity ?r ?ex, HD : deadline ?ex = Some _ |- _ =>
      first [ rewrite (lease_reported r0 r ex _ eq_refl H1 H2 HD)
            | rewrite (record_reported r0 r ex _ eq_refl H1 H2 HD) ]
  end.

(** A record reported with a deadline to come reads as live. *)
Lemma reported_live ex D now : deadline ex = Some D → now < D → Expired ex now = false.
Proof. intros. apply Expired_false. eauto. Qed.

(** After the wait the short-lived record is gone. *)
Ltac expire :=
  match goal with Hs : state _ _ _ (Some _) ?w |- wp _ _ ?w =>
    apply state_expire in Hs; [|timing] end.

(** ** The subtests of RunStoreTests *)

Section subtests.
Context {S : Type} `{Conforming S}.
Variable newStore : S → S.
Variable sched : string → list nat.
Hypothesis newStore_empty : ∀ i s, ready i s → ready i (newStore s) ∧ abs (newStore s) = ∅.
Implicit Types (w : world S) (r : Record).

Lemma ReserveOnEmpty_passes rnd w :
  idle rnd w → wp (ReserveOnEmpty newStore) (λ _, idle rnd) w.
Proof.
  intros Hw. new (bs "k"). record_. next wp_mustReserveNew. next wp_Get_live.
  passed wp_got_where. do 4 passed wp_errorf_if.
  reported.
  apply wp_assertTimeClose; [timing|ends].
Qed.

Lemma ReserveConflictReturnsExisting_passes rnd w :
  idle rnd w → wp (ReserveConflictReturnsExisting newStore) (λ _, idle rnd) w.
Proof.
  intros Hw. new (bs "k"). record_. next wp_mustReserveNew. record_. next wp_Reserve_live.
  passed wp_fatalf_if. apply wp_bind, wp_ret. do 3 passed wp_errorf_if.
  reported.
  apply wp_bind, wp_assertTimeClose; [timing|]. next wp_Now.
  apply wp_bind, wp_errorf_if; [eapply reported_live; [done|timing]|].
  next wp_Get_live. passed wp_got_where. apply wp_ret. ends.
Qed.
Lemma ReserveConflictOnCompleted_passes rnd w :
  idle rnd w → wp (ReserveConflictOnCompleted newStore) (λ _, idle rnd) w.
Proof.
  intros Hw. new (bs "k"). record_. next wp_mustReserveNew. next wp_Complete_held.
  passed wp_fatalf_if. record_. next wp_Reserve_live. passed wp_conflict_where.
  do 3 passed wp_errorf_if. next wp_Now.
  apply wp_errorf_if; [eapply reported_live; [done|timing]|ends].
Qed.

Lemma OpaqueBinaryKey_passes rnd w :
  idle rnd w → wp (OpaqueBinaryKey newStore) (λ _, idle rnd) w.
Proof.
  intros Hw. new (bs "tenant-A" ++ [x00] ++ bs "order-" ++ [xff; x01] ++ bs "key"). record_.
  next wp_mustReserveNew. next wp_Get_live. passed wp_got_where. passed wp_errorf_if.
  next wp_Complete_held. passed wp_fatalf_if. next wp_Get_live. passed wp_got_where.
  apply wp_ret. ends.
Qed.

Lemma TokenPersistedVerbatim_passes rnd w :
  idle rnd w → wp (TokenPersistedVerbatim newStore) (λ _, idle rnd) w.
Proof.
  intros Hw. new (bs "k"). record_. next wp_mustReserveNew. next wp_Get_live.
  passed wp_got_where. record_. next wp_Reserve_live. passed wp_conflict_where.
  apply wp_ret. ends.
Qed.

Lemma ReserveAfterLeaseExpiry_passes rnd w :
  idle rnd w → wp (ReserveAfterLeaseExpiry newStore) (λ _, idle rnd) w.
Proof.
  intros Hw. new (bs "k"). record_. next wp_mustReserveNew. next wp_wait. expire.
  record_. next wp_Reserve_free. do 2 passed wp_fatalf_if. next wp_Get_live.
  passed wp_got_where. apply wp_ret. ends.
Qed.

Lemma ReserveAfterRecordTTLExpiry_passes rnd w :
  idle rnd w → wp (ReserveAfterRecordTTLExpiry newStore) (λ _, idle rnd) w.
Proof.
  intros Hw. new (bs "k"). record_. next wp_mustReserveNew. next wp_Complete_held.
  passed wp_fatalf_if. next wp_Now. next wp_wait. expire.
  record_. next wp_Reserve_free. passed wp_fatalf_if. next wp_Get_live.
  passed wp_got_where. apply wp_ret. ends.
Qed.

Lemma CompleteStoresPayload_passes rnd w :
  idle rnd w → wp (CompleteStoresPayload newStore) (λ _, idle rnd) w.
Proof.
  intros Hw. new (bs "k"). record_. next wp_mustReserveNew. next wp_Now. next wp_Complete_held.
  passed wp_fatalf_if. next wp_Get_live. passed wp_got_where. do 2 passed wp_errorf_if.
  reported. apply wp_assertTimeClose; [timing|ends].
Qed.

Lemma CompleteWrongToken_passes rnd w :
  idle rnd w → wp (CompleteWrongToken newStore) (λ _, idle rnd) w.
Proof.
  intros Hw. new (bs "k"). record_. next wp_mustReserveNew. next wp_Complete_refused.
  passed wp_fatalf_if. next wp_Get_live. passed wp_got_where. apply wp_ret. ends.
Qed.

Lemma CompleteMissingKey_passes rnd w :
  idle rnd w → wp (CompleteMissingKey newStore) (λ _, idle rnd) w.
Proof.
  intros Hw. new (bs "absent"). next wp_Complete_absent. apply wp_fatalf_if; [check|ends].
Qed.

Lemma wp_stale e (Q : () → world S → Prop) w :
  Is e ErrTokenMismatch = true ∨ Is e ErrNotFound = true → Q () w →
  wp (assertStaleRejected (Some e)) Q w.
Proof. intros He HQ. apply wp_fatalf_if; [|done]. simpl. destruct He as [-> | ->]; [done|]. apply andb_false_r. Qed.

Lemma CompleteStaleTokenAfterExpiry_passes rnd w :
  idle rnd w → wp (CompleteStaleTokenAfterExpiry newStore) (λ _, idle rnd) w.
Proof.
  intros Hw. new (bs "k"). record_. next wp_mustReserveNew. next wp_wait. expire.
  next wp_Complete_absent. apply wp_bind, wp_stale; [by right|]. record_.
  next wp_Reserve_free. apply wp_fatalf_if; [check|ends].
Qed.

Lemma CompleteStaleTokenAfterReclaim_passes rnd w :
  idle rnd w → wp (CompleteStaleTokenAfterReclaim newStore) (λ _, idle rnd) w.
Proof.
  intros Hw. new (bs "k"). record_. next wp_mustReserveNew. next wp_wait. expire.
  record_. next wp_mustReserveNew. next wp_Complete_refused.
  apply wp_bind, wp_stale; [by left|]. next wp_Get_live. passed wp_got_where.
  next wp_Complete_held. passed wp_fatalf_if. next wp_Get_live. passed wp_got_where.
  apply wp_ret. ends.
Qed.

Lemma ReleaseDeletesReservation_passes rnd w :
  idle rnd w → wp (ReleaseDeletesReservation newStore) (λ _, idle rnd) w.
Proof.
  intros Hw. new (bs "k"). record_. next wp_mustReserveNew. next wp_Release_held.
  passed wp_fatalf_if. next wp_Get_absent. passed wp_fatalf_if. record_.
  eapply wp_mustReserveNew; [eassumption|side..|intros]. ends.
Qed.

Lemma ReleaseWrongToken_passes rnd w :
  idle rnd w → wp (ReleaseWrongToken newStore) (λ _, idle rnd) w.
Proof.
  intros Hw. new (bs "k"). record_. next wp_mustReserveNew. next wp_Release_refused.
  passed wp_fatalf_if. next wp_Get_live. passed wp_got_where. apply wp_ret. ends.
Qed.

Lemma ReleaseMissingKey_passes rnd w :
  idle rnd w → wp (ReleaseMissingKey newStore) (λ _, idle rnd) w.
Proof.
  intros Hw. new (bs "absent"). next wp_Release_absent. apply wp_fatalf_if; [check|ends].
Qed.

Lemma ReleaseStaleTokenAfterReclaim_passes rnd w :
  idle rnd w → wp (ReleaseStaleTokenAfterReclaim newStore) (λ _, idle rnd) w.
Proof.
  intros Hw. new (bs "k"). record_. next wp_mustReserveNew. next wp_wait. expire.
  record_. next wp_mustReserveNew. next wp_Release_refused.
  apply wp_bind, wp_stale; [by left|]. next wp_Get_live. passed wp_got_where.
  apply wp_ret. ends.
Qed.

Lemma GetMissingKey_passes rnd w :
  idle rnd w → wp (GetMissingKey newStore) (λ _, idle rnd) w.
Proof.
  intros Hw. new (bs "absent"). next wp_Get_absent. apply wp_fatalf_if; [check|ends].
Qed.

Lemma GetExpiredRecord_passes rnd w :
  idle rnd w → wp (GetExpiredRecord newStore) (λ _, idle rnd) w.
Proof.
  intros Hw. new (bs "k"). record_. next wp_mustReserveNew. next wp_wait. expire.
  next wp_Get_absent. passed wp_fatalf_if. apply wp_ret. ends.
Qed.

(** ** Goroutines that reserve one key *)

Definition racer_record (i : nat) (t : Time) : Record :=
  mkRecord (bs "k") (bs "fp") StateReserved (racer_token i) (Add t validTTL) Time.zero [].

Lemma racer_eq i : racer i = CallNow (λ t, CallReserve (racer_record i t) Ret).
Proof. done. Qed.

Abbreviation result := (option Record * option error)%type.

(** A racer that has not reserved yet, and one that lost to [tok]. *)
Definition pending (A now : Time) (i : nat) (p : prog result) : Prop :=
  p = racer i ∨ ∃ t, A ≤ t ≤ now ∧ p = CallReserve (racer_record i t) Ret.
Definition lost (tok : bytes) (x : result) : Prop :=
  ∃ ex e, x = (Some ex, Some e) ∧ Is e ErrAlreadyExists = true ∧ rec_Token ex = tok.
Definition lost_to (j : nat) (p : prog result) : Prop :=
  ∃ x, p = Ret x ∧ lost (racer_token j) x.

Lemma pending_mono A now now' i p : now ≤ now' → pending A now i p → pending A now' i p.
Proof. intros Hle [->|(t & ? & ->)]; [by left|]. right. exists t. split; [lia|done]. Qed.

(** Nobody has reserved, or one has and the others lose to it. *)
Definition race (A T : Time) rnd (ps : list (prog result)) w : Prop :=
  A ≤ app_clock (w_now w) ∧ ∃ won o, state T rnd (bs "k") o w ∧
    others (pending A) lost_to (app_clock (w_now w)) won ps ∧
    match won, o with
    | None, None => True
    | Some j, Some (r, D) =>
        T + 100 * Millisecond ≤ D ∧ rec_Token r = racer_token j ∧ ps !! j = Some (Ret (None, None))
    | _, _ => False
    end.

(** The two calls of a racer. *)
Lemma race_now A T rnd ps w n :
  race A T rnd ps w → ps !! n = Some (racer n) →
  race A T rnd (<[n := (step_prog (racer n) w).1]> ps) (step_prog (racer n) w).2.
Proof.
  intros (HA & won & o & Hs & Ho & Hw) Hn. rewrite racer_eq. cbn [step_prog fst snd].
  pose proof (advance_le w). split; [lia|]. exists won, o. split; [by apply state_advance|]. split.
  - eapply (others_insert _ _ (pending_mono A)); [done|by left| |exact Ho].
    right. left. right. eexists. split; [|done]. lia.
  - destruct won as [j|], o as [[r D]|]; try done. destruct Hw as (? & ? & Hj).
    do 2 (split; [done|]). rewrite list_lookup_insert_ne; [done|]. intros ->.
    rewrite racer_eq in Hn. congruence.
Qed.

Lemma race_reserve A T rnd ps w n t :
  T ≤ A + Second → A ≤ t ≤ app_clock (w_now w) →
  race A T rnd ps w → ps !! n = Some (CallReserve (racer_record n t) Ret) →
  race A T rnd (<[n := (step_prog (CallReserve (racer_record n t) Ret) w).1]> ps)
    (step_prog (CallReserve (racer_record n t) Ret) w).2.
Proof.
  intros HT Ht (HA & won & o & Hs & Ho & Hw) Hn. rewrite step_Reserve.
  destruct won as [j|], o as [[r D]|]; try done.
  - destruct Hw as (HD & Hr & Hj).
    destruct (wp_Reserve_live T rnd (bs "k") r D w (racer_record n t)
      (λ x w', lost (racer_token j) x ∧ app_clock (w_now w) ≤ app_clock (w_now w') ∧
         state T rnd (bs "k") (Some (r, D)) w')) as (x & w' & E & Hx & Hle & Hs');
      [done..|timing| |].
    { intros w' ex e D' Hs' Hle He Hi _ _. split; [|done]. exists ex, e.
      do 2 (split; [done|]). by destruct Hi as (_ & _ & _ & <- & _). }
    unfold call in E. destruct (run _ w) as [x1 w1]. injection E as -> ->. simpl.
    split; [lia|]. exists (Some j), (Some (r, D)). split; [done|]. split.
    + eapply (others_insert _ _ (pending_mono A)); [done|by left| |exact Ho].
      right. right. exists j. split; [done|]. by exists x.
    + do 2 (split; [done|]). rewrite list_lookup_insert_ne; [done|]. intros ->. congruence.
  - destruct (wp_Reserve_free T rnd (bs "k") w (racer_record n t)
      (λ x w', x = (None, None) ∧ app_clock (w_now w) ≤ app_clock (w_now w') ∧
         ∃ r', state T rnd (bs "k") (Some (r', Add t validTTL)) w' ∧
           rec_Token r' = racer_token n)) as (x & w' & E & -> & Hle & r' & Hs' & Hr');
      [done..|timing| |].
    { intros w' r' Hs' Hi Hle. do 2 (split; [done|]). exists r'. split; [done|].
      by destruct Hi as (_ & _ & _ & <- & _). }
    unfold call in E. destruct (run _ w) as [x1 w1]. injection E as -> ->. simpl.
    split; [lia|]. exists (Some n), (Some (r', Add t validTTL)). split; [done|]. split.
    + eapply (others_insert _ _ (pending_mono A)); [done|by right| |exact Ho]. by left.
    + split; [timing|]. split; [done|].
      by rewrite list_lookup_insert_eq by by eapply lookup_lt_Some.
Qed.

Lemma race_step A T rnd ps w n p :
  T ≤ A + Second → race A T rnd ps w → ps !! n = Some p →
  race A T rnd (<[n := (step_prog p w).1]> ps) (step_prog p w).2.
Proof.
  intros HT Hrace Hn. pose proof Hrace as (HA & won & o & Hs & Ho & Hw).
  assert (pending A (app_clock (w_now w)) n p ∨ ∃ x, p = Ret x) as [[->|(t & Ht & ->)]|[x ->]].
  { destruct (decide (won = Some n)) as [->|Hne].
    - destruct o as [[r D]|]; [|done]. destruct Hw as (_ & _ & Hj). right. naive_solver.
    - destruct (Ho _ _ Hne Hn) as [?|(j & _ & x & ? & _)]; eauto. }
  - by apply race_now.
  - by apply race_reserve.
  - simpl. by rewrite list_insert_id.
Qed.

(** When all have returned, one has won and the others have lost to it. *)
Definition raced (l : list result) (j : nat) : Prop :=
  l !! j = Some (None, None) ∧ ∀ i x, i ≠ j → l !! i = Some x → lost (racer_token j) x.

Lemma race_over A T rnd l w :
  race A T rnd (Ret <$> l) w → l ≠ [] →
  ∃ j r D, raced l j ∧ state T rnd (bs "k") (Some (r, D)) w ∧
    T + 100 * Millisecond ≤ D ∧ rec_Token r = racer_token j.
Proof.
  intros (HA & won & o & Hs & Ho & Hw) Hl.
  assert (∀ i x, won ≠ Some i → l !! i = Some x →
    ∃ j, won = Some j ∧ lost (racer_token j) x) as Hlost.
  { intros i x Hi Hx. destruct (Ho i (Ret x) Hi) as [[?|(t & _ & ?)]|(j & ? & y & [= <-] & ?)]; try done.
    - by rewrite list_lookup_fmap, Hx.
    - eauto. }
  destruct won as [j|].
  - destruct o as [[r D]|]; [|done]. destruct Hw as (HD & Hr & Hj).
    rewrite list_lookup_fmap in Hj. destruct (l !! j) as [x|] eqn:Hx; [|done]. injection Hj as ->.
    exists j, r, D. split; [|done]. split; [done|]. intros i x Hi Hix.
    destruct (Hlost i x) as (j' & Hj' & ?); [congruence|done|]. by injection Hj' as <-.
  - destruct l as [|x l]; [done|]. by destruct (Hlost 0%nat x) as (j & ? & _).
Qed.

(** *** The loops over the results *)

Lemma find_winner_lost over tok i won l (Q : option nat → world S → Prop) w :
  Forall (lost tok) l → Some tok ≠ over → Q won w → wp (find_winner over i won l) Q w.
Proof.
  intros Hl Hover. revert i. induction Hl as [|x l (ex & e & -> & He & Ht) Hl IH]; intros i HQ; simpl.
  - by apply wp_ret.
  - rewrite He. apply wp_bind, wp_fatalf_if; [|by apply IH].
    apply bool_decide_eq_false_2. by rewrite Ht.
Qed.

Lemma find_winner_raced over l j (Q : option nat → world S → Prop) w :
  raced l j → Some (racer_token j) ≠ over → Q (Some j) w → wp (find_winner over 0 None l) Q w.
Proof.
  intros [Hj Hl] Hover HQ.
  assert (∀ i pre post, Forall (lost (racer_token j)) pre → Forall (lost (racer_token j)) post →
    j = (i + length pre)%nat → wp (find_winner over i None (pre ++ (None, None) :: post)) Q w) as Hgen.
  { intros i pre post Hpre Hpost. revert i.
    induction Hpre as [|x pre (ex & e & -> & He & Ht) Hpre IH]; intros i Hij; simpl in *.
    - apply wp_bind, wp_ret.
      eapply find_winner_lost; [exact Hpost|done|]. by rewrite Nat.add_0_r in Hij; subst.
    - rewrite He. apply wp_bind, wp_fatalf_if; [|apply IH; lia].
      apply bool_decide_eq_false_2. by rewrite Ht. }
  rewrite <-(take_drop_middle _ _ _ Hj). apply Hgen.
  - apply Forall_lookup. intros i x [Hx Hi]%lookup_take_Some. apply (Hl i); [lia|done].
  - apply Forall_lookup. intros i x Hx. rewrite lookup_drop in Hx. eapply (Hl _); [|exact Hx]. lia.
  - apply lookup_lt_Some in Hj. rewrite length_take. lia.
Qed.

Lemma check_tokens_raced l j (Q : () → world S → Prop) w :
  raced l j → Q () w → wp (check_tokens (racer_token j) l) Q w.
Proof.
  intros [Hj Hl] HQ.
  assert (Forall (λ x : result, match x.1 with Some ex => rec_Token ex = racer_token j | None => True end) l)
    as Hall.
  { apply Forall_lookup. intros i [ex err] Hx. destruct (decide (i = j)) as [->|Hne].
    - by rewrite Hj in Hx; injection Hx as <- <-.
    - by destruct (Hl _ _ Hne Hx) as (ex' & e & [= -> ->] & _ & Ht). }
  clear Hj Hl. induction Hall as [|[[ex|] err] l Hx Hall IH]; simpl in *; [by apply wp_ret|..].
  - apply wp_bind, wp_fatalf_if; [|done]. unfold ne. by rewrite bool_decide_eq_true_2.
  - by apply wp_bind, wp_ret.
Qed.

(** The goroutines of both subtests, whatever the schedule. *)
Lemma wp_racers T rnd w sch (Q : list result → world S → Prop) :
  state T rnd (bs "k") None w → T ≤ app_clock (w_now w) + Second →
  (∀ w' l j r D, raced l j → (j < racers)%nat → state T rnd (bs "k") (Some (r, D)) w' →
     T + 100 * Millisecond ≤ D → rec_Token r = racer_token j → Q l w') →
  wp (Go sch (racer <$> seq 0 racers)) Q w.
Proof.
  intros Hs HT HQ. set (A := app_clock (w_now w)) in *.
  set (I := λ ps w, length ps = racers ∧ race A T rnd ps w).
  destruct (Go_inv I) with (sched := sch) (ps := racer <$> seq 0 racers) (w := w)
    as (l & w' & E & Hlen & Hrace).
  - intros ps v n p [Hl Hr] Hn. split; [by rewrite length_insert|]. by apply race_step.
  - split; [done|]. split; [done|]. exists None, None. split; [done|]. split; [|done].
    intros i p _ Hp. left. left. rewrite list_lookup_fmap in Hp.
    destruct (seq 0 racers !! i) as [n|] eqn:Hn; [|done]. apply lookup_seq in Hn as [-> _].
    by injection Hp as <-.
  - apply race_over in Hrace as (j & r & D & Hraced & ? & ? & ?); [|by intros ->].
    exists l, w'. split; [done|]. eapply HQ; try done. destruct Hraced as [Hj%lookup_lt_Some _].
    by rewrite length_fmap in Hlen; rewrite <-Hlen.
Qed.

Lemma ConcurrentReserveSingleWinner_passes rnd w :
  idle rnd w → wp (ConcurrentReserveSingleWinner newStore sched) (λ _, idle rnd) w.
Proof.
  intros Hw. new (bs "k"). apply wp_bind. eapply wp_racers; [eassumption|timing|].
  intros w2 l j r D Hl _ S2 HD Hr. apply wp_bind. eapply find_winner_raced; [exact Hl|done|].
  apply wp_bind. eapply check_tokens_raced; [exact Hl|]. next wp_Get_live.
  apply wp_bind, wp_got_where; [|apply wp_ret; ends].
  identities. apply bool_decide_eq_true_2. congruence.
Qed.

Lemma racer_token_old j : (j < racers)%nat → Some (racer_token j) ≠ Some (bs "tok-old").
Proof.
  intros Hj.
  assert (Forall (λ i, racer_token i ≠ bs "tok-old") (seq 0 racers)) as Hall
    by (apply (bool_decide_unpack _); vm_compute; exact I).
  intros E. apply (proj1 (Forall_forall _ _) Hall j); [apply elem_of_seq; lia|congruence].
Qed.

Lemma ConcurrentReserveOverExpired_passes rnd w :
  idle rnd w → wp (ConcurrentReserveOverExpired newStore sched) (λ _, idle rnd) w.
Proof.
  intros Hw. new (bs "k"). record_. next wp_mustReserveNew. next wp_wait. expire.
  apply wp_bind. eapply wp_racers; [eassumption|timing|].
  intros w2 l j r2 D Hl Hj S2 HD Hr. apply wp_bind.
  eapply find_winner_raced; [exact Hl|by apply racer_token_old|].
  apply wp_fatalf_if; [done|ends].
Qed.

(** A subtest passes and leaves the store to the next. *)
Lemma Run_passes name t rnd w (Q : () → world S → Prop) :
  (∀ w, idle rnd w → wp t (λ _, idle rnd) w) → idle rnd w → (∀ w', idle rnd w' → Q () w') →
  wp (Run name t) Q w.
Proof. intros Ht Hw HQ. apply wp_Run. eapply wp_mono; [by apply Ht|]. intros []. exact HQ. Qed.

#[local] Hint Resolve ReserveOnEmpty_passes ReserveConflictReturnsExisting_passes
  ReserveConflictOnCompleted_passes ConcurrentReserveSingleWinner_passes OpaqueBinaryKey_passes
  TokenPersistedVerbatim_passes ReserveAfterLeaseExpiry_passes ReserveAfterRecordTTLExpiry_passes
  ConcurrentReserveOverExpired_passes CompleteStoresPayload_passes CompleteWrongToken_passes
  CompleteMissingKey_passes CompleteStaleTokenAfterExpiry_passes
  CompleteStaleTokenAfterReclaim_passes ReleaseDeletesReservation_passes ReleaseWrongToken_passes
  ReleaseMissingKey_passes ReleaseStaleTokenAfterReclaim_passes GetMissingKey_passes
  GetExpiredRecord_passes : suite.

Lemma RunStoreTests_passes rnd w :
  idle rnd w → wp (RunStoreTests newStore sched) (λ _, idle rnd) w.
Proof.
  intros Hw. unfold RunStoreTests.
  do 19 (apply wp_bind; eapply (Run_passes _ _ rnd); [auto with suite|eassumption|intros ? ?]).
  eapply (Run_passes _ _ rnd); [auto with suite|eassumption|done].
Qed.
End subtests.
