(* ===== verification/SuiteMachine.v ===== *)
(** * The state machine suite, subtest by subtest

    Begin and Finish on a conforming store, in the terms a test knows the
    store by, and the subtests of RunStateMachineTests.  Tokens come from a
    source that does not repeat itself. *)
From S2P Require Import Prelude GoLib Errors Record Store Effects Core CoreSpec.
From S2P Require Import Testing Conforming Idemleasetest SuiteStore.
Import Time idemleasetest.
Local Open Scope Z_scope.

(** The token Begin makes of a random block. *)
Definition token_of (b : bytes) : bytes := EncodeToString (take 16 b).

(** ** Begin and Finish *)

Section machine.
Context {S : Type} `{Conforming S}.
Implicit Types (w : world S) (r : Record).

Lemma wp_newToken_else T b rnd k o w (Q : bytes + error → world S → Prop) :
  state T (inl b :: rnd) k o w →
  (∀ w', state T rnd k o w' → w_now w' = w_now w → elsewhere k w w' →
     Q (inl (token_of b)) w') →
  wp (call newToken) Q w.
Proof.
  intros Hs HQ. apply wp_call_bind, wp_call. simpl. unfold read_rand.
  rewrite (st_rand _ _ _ _ _ Hs). apply wp_call. simpl. apply HQ; [by destruct Hs|done|].
  intros ? ? k' o' _ []. by split.
Qed.

Lemma wp_newToken T b rnd k o w (Q : bytes + error → world S → Prop) :
  state T (inl b :: rnd) k o w →
  (∀ w', state T rnd k o w' → w_now w' = w_now w → Q (inl (token_of b)) w') →
  wp (call newToken) Q w.
Proof. intros Hs HQ. eapply wp_newToken_else; [done|]. eauto. Qed.

(** The lease a test asks for. *)
Definition leases T w (o : Options) : Prop :=
  T + (shortTTL - pace) ≤ app_clock (w_now w) + leaseTTL o ∧ leaseTTL o ≤ longest.

Lemma wp_Begin_free_else T b rnd k w fp o (Q : Outcome + error → world S → Prop) :
  state T (inl b :: rnd) k None w → leases T w o →
  (∀ w' r' D, state T rnd k (Some (r', D)) w' → app_clock (w_now w) ≤ app_clock (w_now w') →
     app_clock (w_now w) + leaseTTL o ≤ D ≤ app_clock (w_now w') + leaseTTL o →
     same_identity (begin_record k fp (token_of b) o 0) r' → elsewhere k w w' →
     Q (inl (mkOutcome Proceed (token_of b) [] 0)) w') →
  wp (call (Begin k fp o)) Q w.
Proof.
  intros Hs [HT Ho] HQ. apply wp_call_bind. eapply wp_newToken_else; [exact Hs|].
  intros w1 S1 N1 E1. apply wp_call_bind. eapply wp_Now_else; [exact S1|]. intros w2 S2 L2 E2.
  rewrite N1 in L2.
  apply wp_call_bind. eapply wp_Reserve_free_else; [exact S2|done|done|simpl in *; unfold Add; lia|].
  intros w3 r' S3 Hi L3 E3. apply wp_call. simpl in *. unfold Add in *.
  eapply HQ; [exact S3|lia|lia|exact Hi|]. eauto using elsewhere_trans.
Qed.

Lemma wp_Begin_free T b rnd k w fp o (Q : Outcome + error → world S → Prop) :
  state T (inl b :: rnd) k None w → leases T w o →
  (∀ w' r' D, state T rnd k (Some (r', D)) w' → app_clock (w_now w) ≤ app_clock (w_now w') →
     app_clock (w_now w) + leaseTTL o ≤ D ≤ app_clock (w_now w') + leaseTTL o →
     same_identity (begin_record k fp (token_of b) o 0) r' →
     Q (inl (mkOutcome Proceed (token_of b) [] 0)) w') →
  wp (call (Begin k fp o)) Q w.
Proof. intros Hs Ho HQ. eapply wp_Begin_free_else; [done..|]. eauto. Qed.

Lemma wp_Begin_live T b rnd k r0 D w fp o (Q : Outcome + error → world S → Prop) :
  state T (inl b :: rnd) k (Some (r0, D)) w → T + 200 * Millisecond ≤ D → leases T w o →
  (∀ w' ex D' now, state T rnd k (Some (r0, D)) w' →
     app_clock (w_now w) ≤ now ≤ app_clock (w_now w') →
     same_identity r0 ex → deadline ex = Some D' → Z.abs (D' - D) ≤ tolerance →
     Q (decide_existing ex fp now) w') →
  wp (call (Begin k fp o)) Q w.
Proof.
  intros Hs HD [HT Ho] HQ. pose proof tolerance_small as Htol. unfold Millisecond in *.
  apply wp_call_bind. eapply wp_newToken; [exact Hs|]. intros w1 S1 N1.
  apply wp_call_bind. eapply wp_Now; [exact S1|]. intros w2 S2 L2. rewrite N1 in L2.
  apply wp_call_bind. eapply wp_Reserve_live; [exact S2|done|done|unfold Millisecond; lia|simpl; unfold Add; lia|].
  intros w3 ex e D' S3 L3 He Hi HD' Hc. rewrite He. cbn [negb].
  apply wp_call_bind. eapply wp_Now; [exact S3|]. intros w4 S4 L4.
  pose proof (state_now _ _ _ _ _ S4). rewrite (reported_live _ _ _ HD') by lia.
  apply wp_call. simpl. eapply HQ; [exact S4|lia|exact Hi|exact HD'|exact Hc].
Qed.

Lemma wp_Finish_persist_else T rnd k r D w tok p o (Q : bool * option error → world S → Prop) :
  state T rnd k (Some (r, D)) w → T + 100 * Millisecond ≤ D → rec_State r = StateReserved →
  rec_Token r = tok → usual (recordTTL o) →
  (∀ w' r', state T rnd k (Some (r', app_clock (w_now w') + recordTTL o)) w' →
     same_identity (completed r p 0) r' → app_clock (w_now w) ≤ app_clock (w_now w') →
     elsewhere k w w' → Q (false, None) w') →
  wp (call (Finish k tok Persist p o)) Q w.
Proof.
  intros Hs HD Hr Ht Hu HQ. apply wp_call_bind. eapply wp_Complete_held_else; [exact Hs|done..|].
  intros w' r' S' Hi L' E'. apply wp_call. by apply (HQ w' r').
Qed.

Lemma wp_Finish_persist T rnd k r D w tok p o (Q : bool * option error → world S → Prop) :
  state T rnd k (Some (r, D)) w → T + 100 * Millisecond ≤ D → rec_State r = StateReserved →
  rec_Token r = tok → usual (recordTTL o) →
  (∀ w' r', state T rnd k (Some (r', app_clock (w_now w') + recordTTL o)) w' →
     same_identity (completed r p 0) r' → app_clock (w_now w) ≤ app_clock (w_now w') →
     Q (false, None) w') →
  wp (call (Finish k tok Persist p o)) Q w.
Proof. intros Hs HD Hr Ht Hu HQ. eapply wp_Finish_persist_else; [done..|]. eauto. Qed.

(** Persist on a key that is completed: the lease was lost. *)
Lemma wp_Finish_over T rnd k r D w tok p o (Q : bool * option error → world S → Prop) :
  state T rnd k (Some (r, D)) w → T + 100 * Millisecond ≤ D → rec_State r ≠ StateReserved →
  usual (recordTTL o) →
  (∀ w', state T rnd k (Some (r, D)) w' → app_clock (w_now w) ≤ app_clock (w_now w') →
     Q (true, None) w') →
  wp (call (Finish k tok Persist p o)) Q w.
Proof.
  intros Hs HD Hr Hu HQ. apply wp_call_bind. eapply wp_Complete_over; [exact Hs|done..|].
  intros w' e S' He L'. apply wp_call. change (Q (normalize (Some e)) w').
  rewrite (normalize_lost _ He). by apply HQ.
Qed.

Lemma wp_Finish_discard T rnd k r D w tok p o (Q : bool * option error → world S → Prop) :
  state T rnd k (Some (r, D)) w → T + 100 * Millisecond ≤ D → rec_State r = StateReserved →
  rec_Token r = tok →
  (∀ w', state T rnd k None w' → app_clock (w_now w) ≤ app_clock (w_now w') → Q (false, None) w') →
  wp (call (Finish k tok Discard p o)) Q w.
Proof.
  intros Hs HD Hr Ht HQ. apply wp_call_bind. eapply wp_Release_held; [exact Hs|done..|].
  intros w' S' L'. apply wp_call. by apply HQ.
Qed.

(** Under a token that no longer holds the key, the lease is lost. *)
Lemma wp_Finish_lost T rnd k r D w tok d p o (Q : bool * option error → world S → Prop) :
  state T rnd k (Some (r, D)) w → T + 100 * Millisecond ≤ D → rec_State r = StateReserved →
  rec_Token r ≠ tok → usual (recordTTL o) → d = Persist ∨ d = Discard →
  (∀ w', state T rnd k (Some (r, D)) w' → app_clock (w_now w) ≤ app_clock (w_now w') →
     Q (true, None) w') →
  wp (call (Finish k tok d p o)) Q w.
Proof.
  intros Hs HD Hr Ht Hu Hd HQ. destruct Hd as [-> | ->]; apply wp_call_bind.
  - eapply wp_Complete_refused; [exact Hs|done..|].
    intros w' e S' He L'. apply wp_call. simpl. rewrite He. by apply HQ.
  - eapply wp_Release_refused; [exact Hs|done..|].
    intros w' e S' He L'. apply wp_call. simpl. rewrite He. by apply HQ.
Qed.

(** What Begin makes of the record it finds. *)
Lemma decide_reserved r0 ex fp now D :
  same_identity r0 ex → rec_State r0 = StateReserved → deadline ex = Some D →
  decide_existing ex fp now = inl (mkOutcome RejectInFlight [] [] (Sub D now)).
Proof.
  intros (_ & _ & Hst & _) Hr. unfold decide_existing, deadline. rewrite <-Hst, Hr.
  by intros [= ->].
Qed.

Lemma decide_replay r0 ex fp now p :
  same_identity r0 ex → rec_State r0 = StateCompleted → rec_Fingerprint r0 = fp →
  rec_Payload r0 = p → decide_existing ex fp now = inl (mkOutcome Replay [] p 0).
Proof.
  intros (_ & Hf & Hst & _ & Hp) Hr <- <-. unfold decide_existing. rewrite <-Hst, Hr, <-Hf, <-Hp.
  by rewrite bool_decide_eq_true_2.
Qed.

Lemma decide_mismatch r0 ex fp now :
  same_identity r0 ex → rec_State r0 = StateCompleted → rec_Fingerprint r0 ≠ fp →
  decide_existing ex fp now = inl (mkOutcome RejectFingerprintMismatch [] [] 0).
Proof.
  intros (_ & Hf & Hst & _ & _) Hr Hne. unfold decide_existing. rewrite <-Hst, Hr, <-Hf.
  by rewrite bool_decide_eq_false_2.
Qed.
End machine.

(** ** The subtests of RunStateMachineTests *)

Section subtests.
Context {S : Type} `{Conforming S}.
Variable newStore : S → S.
Variable sched : string → list nat.
Hypothesis newStore_empty : ∀ i s, ready i s → ready i (newStore s) ∧ abs (newStore s) = ∅.
Implicit Types (w : world S) (r : Record).

Lemma wp_outcome_where a p out msg (Q : Outcome → world S → Prop) w :
  out_Action out = a → p out = true → Q out w → wp (outcome_where a p (inl out) msg) Q w.
Proof.
  intros Ha Hp HQ. unfold outcome_where. rewrite bool_decide_eq_true_2, Hp by done. by apply wp_ret.
Qed.

Lemma wp_mustProceed T b rnd k w fp o (Q : Outcome → world S → Prop) :
  state T (inl b :: rnd) k None w → leases T w o →
  (∀ w' r' D, state T rnd k (Some (r', D)) w' → app_clock (w_now w) ≤ app_clock (w_now w') →
     app_clock (w_now w) + leaseTTL o ≤ D ≤ app_clock (w_now w') + leaseTTL o →
     same_identity (begin_record k fp (token_of b) o 0) r' →
     Q (mkOutcome Proceed (token_of b) [] 0) w') →
  wp (mustProceed k fp o) Q w.
Proof.
  intros Hs Ho HQ. apply wp_bind. eapply wp_Begin_free; [exact Hs|exact Ho|].
  intros w' r' D S' L' HD Hi. apply wp_outcome_where; [done..|]. by eapply HQ.
Qed.

Lemma wp_finish_where lost (Q : () → world S → Prop) msg w :
  Q () w → wp (finish_where lost (lost, None) msg) Q w.
Proof.
  intros HQ. apply wp_fatalf_if; [|done]. unfold ne. simpl. by rewrite bool_decide_eq_true_2.
Qed.

(** The times of the suite's options. *)
Local Ltac ttls :=
  change (leaseTTL opts) with validTTL in *; change (recordTTL opts) with validTTL in *;
  change (leaseTTL shortLease) with shortTTL in *; change (recordTTL shortLease) with validTTL in *;
  change (leaseTTL shortRecord) with validTTL in *; change (recordTTL shortRecord) with shortTTL in *.
Local Ltac mside :=
  ttls; first [ done | timing | by unfold leases; ttls; split; timing | by unfold usual; ttls; timing
              | by identities; congruence | by identities; intros ?; congruence | by left | by right ].
Local Tactic Notation "mnext" uconstr(lem) :=
  apply wp_bind; eapply lem; [eassumption|mside..|intros]; ttls.
(** The record the last Begin has found. *)
Local Ltac found lem :=
  match goal with Hi : same_identity ?r ?ex |- wp (outcome_where _ _ (decide_existing ?ex _ _) _ ≫= _) _ _ =>
    rewrite lem by (first [exact Hi | eassumption | by identities; congruence
                          | identities; intros Hx; assert (bs "fp" = bs "other-fp") as Hd by congruence;
                            discriminate Hd]);
    apply wp_bind, wp_outcome_where; [done|first [done|check]|]
  end.

Lemma ProceedPersistReplay_passes b1 b2 b3 rnd w :
  idle (inl b1 :: inl b2 :: inl b3 :: rnd) w →
  wp (ProceedPersistReplay newStore) (λ _, idle rnd) w.
Proof.
  intros Hw. new (bs "k"). mnext wp_mustProceed. mnext wp_Finish_persist.
  apply wp_bind, wp_finish_where. mnext wp_Begin_live.
  found (decide_replay r'0 ex (bs "fp") now json_ok). passed wp_errorf_if.
  mnext wp_Begin_live. found (decide_mismatch r'0 ex0 (bs "other-fp") now0).
  apply wp_ret. ends.
Qed.

(** The advice of a rejection in flight is within the lease, when deadlines
    are exact. *)
Lemma InFlightRejection_passes b1 b2 b3 rnd w :
  tolerance = 0 → idle (inl b1 :: inl b2 :: inl b3 :: rnd) w →
  wp (InFlightRejection newStore) (λ _, idle rnd) w.
Proof.
  intros Hexact Hw. new (bs "k"). mnext wp_mustProceed. mnext wp_Begin_live.
  found (decide_reserved r' ex (bs "fp") now D').
  apply wp_bind, wp_errorf_if.
  { simpl. assert (0 < D' - now ≤ validTTL) as Hra by timing.
    rewrite Sub_exact; [|unfold is_i64, min_int64, max_int64, two63; timing].
    apply orb_false_iff. rewrite Z.leb_gt, Z.ltb_ge. lia. }
  mnext wp_Begin_live. found (decide_reserved r' ex0 (bs "other-fp") now0 D'0).
  apply wp_ret. ends.
Qed.

Lemma fresh_token b1 b2 :
  token_of b1 ≠ token_of b2 → bool_decide (token_of b2 = token_of b1) = false.
Proof. intros. by apply bool_decide_eq_false_2. Qed.

Lemma DiscardAllowsReexecution_passes b1 b2 rnd w :
  token_of b1 ≠ token_of b2 → idle (inl b1 :: inl b2 :: rnd) w →
  wp (DiscardAllowsReexecution newStore) (λ _, idle rnd) w.
Proof.
  intros Hne Hw. new (bs "k"). mnext wp_mustProceed. mnext wp_Finish_discard.
  apply wp_bind, wp_finish_where. mnext wp_mustProceed.
  apply wp_errorf_if; [by apply fresh_token|ends].
Qed.

Lemma ProceedWithoutFinish_passes b1 b2 rnd w :
  token_of b1 ≠ token_of b2 → idle (inl b1 :: inl b2 :: rnd) w →
  wp (ProceedWithoutFinish newStore) (λ _, idle rnd) w.
Proof.
  intros Hne Hw. new (bs "k"). mnext wp_mustProceed. mnext wp_Now. mnext wp_wait. expire.
  mnext wp_mustProceed. apply wp_errorf_if; [by apply fresh_token|ends].
Qed.

Lemma LeaseExpirySurvivor_passes b1 b2 b3 rnd w :
  token_of b1 ≠ token_of b2 → idle (inl b1 :: inl b2 :: inl b3 :: rnd) w →
  wp (LeaseExpirySurvivor newStore) (λ _, idle rnd) w.
Proof.
  intros Hne Hw. new (bs "k"). mnext wp_mustProceed. mnext wp_Now. mnext wp_wait. expire.
  mnext wp_mustProceed. apply wp_bind, wp_fatalf_if; [by apply fresh_token|].
  do 2 (mnext wp_Finish_lost; apply wp_bind, wp_finish_where).
  mnext wp_Finish_persist. apply wp_bind, wp_finish_where. mnext wp_Begin_live.
  found (decide_replay r'1 ex (bs "fp") now (bs "result-of-B")).
  apply wp_ret. ends.
Qed.

Lemma RecordTTLExpiryAllowsReexecution_passes b1 b2 rnd w :
  idle (inl b1 :: inl b2 :: rnd) w →
  wp (RecordTTLExpiryAllowsReexecution newStore) (λ _, idle rnd) w.
Proof.
  intros Hw. new (bs "k"). mnext wp_mustProceed. mnext wp_Finish_persist. passed wp_fatalf_if.
  mnext wp_Now. mnext wp_wait. expire. mnext wp_mustProceed. apply wp_ret. ends.
Qed.
End subtests.

(** ** Goroutines that begin under one key *)

Abbreviation answer := (Outcome + error)%type.

(** The points Begin passes: drawing its token, reading the clock,
    reserving, and looking at the record it met. *)
Section points.
Variables (key fp : bytes) (o : Options).

Definition begins : prog answer := Begin key fp o.
Definition loops (tok : bytes) : prog answer := begin_loop 2 key fp tok o.
Definition looks (tok : bytes) (ex : Record) : prog answer :=
  now ← time_Now;
  if Expired ex now then begin_loop 1 key fp tok o else mret (decide_existing ex fp now).
Definition reserved_then (tok : bytes) (x : option Record * option error) : prog answer :=
  match x with
  | (_, None) => mret (inl (mkOutcome Proceed tok [] 0))
  | (existing, Some err) =>
      if negb (Is err ErrAlreadyExists) then mret (inr err) else
      match existing with
      | None => mret (inr err_no_existing)
      | Some ex => looks tok ex
      end
  end.
Definition reserves (tok : bytes) (t : Time) : prog answer :=
  CallReserve (begin_record key fp tok o t) (reserved_then tok).

Context {S : Type} `{Store S}.
Implicit Types w : world S.

Lemma step_begins b rnd w :
  w_rand w = inl b :: rnd →
  step_prog begins w = (loops (token_of b), mkWorld (w_store w) (w_now w) (w_ticks w) rnd (w_log w)).
Proof. intros Hr. unfold begins, Begin, newToken. cbn -[begin_loop]. unfold read_rand. by rewrite Hr. Qed.

Lemma step_loops tok w :
  step_prog (loops tok) w = (reserves tok (app_clock (w_now (advance w))), advance w).
Proof. done. Qed.

Lemma step_looks tok ex w :
  Expired ex (app_clock (w_now (advance w))) = false →
  step_prog (looks tok ex) w =
    (Ret (decide_existing ex fp (app_clock (w_now (advance w)))), advance w).
Proof.
  intros Hex. unfold looks, time_Now. cbn -[begin_loop advance]. by rewrite Hex.
Qed.
End points.

(** The goroutines that have not drawn their token. *)
Definition drawing {A} (p : prog A) : nat := match p with CallRead _ _ => 1 | _ => 0 end.
Definition draws {A} (ps : list (prog A)) : nat := sum_list_with drawing ps.

Lemma draws_insert {A} (ps : list (prog A)) n p q :
  ps !! n = Some p → (draws (<[n := q]> ps) + drawing p = draws ps + drawing q)%nat.
Proof.
  revert n. induction ps as [|p' ps IH]; intros [|n] Hn; simplify_eq/=; [lia|].
  unfold draws in *. simpl. specialize (IH n Hn). lia.
Qed.

Lemma draws_le {A} (ps : list (prog A)) n p : ps !! n = Some p → (drawing p ≤ draws ps)%nat.
Proof.
  revert n. induction ps as [|p' ps IH]; intros [|n] Hn; simplify_eq/=; unfold draws in *; simpl; [lia|].
  specialize (IH n Hn). lia.
Qed.

Section contest.
Context {S : Type} `{Conforming S}.
Implicit Types (w : world S) (r : Record) (bl : list bytes).

Abbreviation beginner := (begins (bs "k") (bs "fp") opts).
Abbreviation looping := (loops (bs "k") (bs "fp") opts).
Abbreviation looking := (looks (bs "k") (bs "fp") opts).
Abbreviation reserving := (reserves (bs "k") (bs "fp") opts).

Definition waits (A now : Time) (i : nat) (p : prog answer) : Prop :=
  p = beginner ∨ ∃ tok, p = looping tok ∨ ∃ t, A ≤ t ≤ now ∧ p = reserving tok t.
Definition in_flight (x : answer) : Prop := ∃ out, x = inl out ∧ out_Action out = RejectInFlight.
Definition told (T : Time) (j : nat) (p : prog answer) : Prop :=
  (∃ tok ex D, p = looking tok ex ∧ rec_State ex = StateReserved ∧ deadline ex = Some D ∧ T < D) ∨
  ∃ x, p = Ret x ∧ in_flight x.

Lemma waits_mono A now now' i p : now ≤ now' → waits A now i p → waits A now' i p.
Proof.
  intros Hle [->|(tok & [->|(t & ? & ->)])]; [by left|right..].
  - exists tok. by left.
  - exists tok. right. exists t. split; [lia|done].
Qed.

Definition proceeds (p : prog answer) : Prop :=
  ∃ out, p = Ret (inl out) ∧ out_Action out = Proceed.

Definition contest (A T : Time) (ps : list (prog answer)) w : Prop :=
  A ≤ app_clock (w_now w) ∧ ∃ won o bl rest,
    (draws ps ≤ length bl)%nat ∧ state T ((inl <$> bl) ++ rest) (bs "k") o w ∧
    others (waits A) (told T) (app_clock (w_now w)) won ps ∧
    match won, o with
    | None, None => True
    | Some j, Some (r, D) =>
        T + 200 * Millisecond ≤ D ∧ rec_State r = StateReserved ∧ ∃ p, ps !! j = Some p ∧ proceeds p
    | _, _ => False
    end.

(** One goroutine moves on, and the key stays as it is. *)
Lemma contest_move A T w w' won o bl bl' rest ps n p q :
  A ≤ app_clock (w_now w) ≤ app_clock (w_now w') →
  (draws ps ≤ length bl)%nat → (length bl + drawing q ≤ length bl' + drawing p)%nat →
  state T ((inl <$> bl') ++ rest) (bs "k") o w' →
  others (waits A) (told T) (app_clock (w_now w)) won ps →
  match won, o with
  | None, None => True
  | Some j, Some (r, D) =>
      T + 200 * Millisecond ≤ D ∧ rec_State r = StateReserved ∧ ∃ p, ps !! j = Some p ∧ proceeds p
  | _, _ => False
  end →
  ps !! n = Some p → ¬ proceeds p →
  waits A (app_clock (w_now w')) n q ∨ (∃ j, won = Some j ∧ told T j q) →
  contest A T (<[n := q]> ps) w'.
Proof.
  intros HA Hd Hbl Hs Ho Hw Hn Hp Hq. split; [lia|]. exists won, o, bl', rest.
  pose proof (draws_insert _ _ _ q Hn). split; [lia|]. split; [done|]. split.
  - eapply (others_insert _ _ (waits_mono A)); [|by left| |exact Ho]; [lia|by right].
  - destruct won as [j|], o as [[r D]|]; try done. destruct Hw as (? & ? & p' & Hj & Hp').
    do 2 (split; [done|]). exists p'. split; [|done].
    rewrite list_lookup_insert_ne; [done|]. intros ->. congruence.
Qed.

Lemma contest_reserve A T ps w n tok t :
  T ≤ A + Second → A ≤ t ≤ app_clock (w_now w) →
  contest A T ps w → ps !! n = Some (reserving tok t) →
  contest A T (<[n := (step_prog (reserving tok t) w).1]> ps) (step_prog (reserving tok t) w).2.
Proof.
  intros HT Ht (HA & won & o & bl & rest & Hd & Hs & Ho & Hw) Hn. unfold reserves. rewrite step_Reserve.
  assert (rec_LeaseExpiresAt (begin_record (bs "k") (bs "fp") tok opts t) = t + validTTL) as Hlease by done.
  destruct won as [j|], o as [[r D]|]; try done.
  - pose proof Hw as (HD & Hr & _).
    destruct (wp_Reserve_live T _ (bs "k") r D w (begin_record (bs "k") (bs "fp") tok opts t)
      (λ x w', state T ((inl <$> bl) ++ rest) (bs "k") (Some (r, D)) w' ∧
         app_clock (w_now w) ≤ app_clock (w_now w') ∧
         ∃ ex e D', x = (Some ex, Some e) ∧ Is e ErrAlreadyExists = true ∧
           rec_State ex = StateReserved ∧ deadline ex = Some D' ∧ T < D') Hs)
      as (x & w' & E & Hs' & Hle & ex & e & D' & -> & He & Hst & HD' & Hlt);
      [done..|timing|rewrite Hlease; timing| |].
    { intros w' ex e D' Hs' Hle He (_ & _ & Hst & _) HD' Hc. do 2 (split; [done|]).
      exists ex, e, D'. split_and!; try done; [congruence|]. pose proof tolerance_small.
      unfold Millisecond in *. lia. }
    unfold call in E. destruct (run _ w) as [x1 w1]. injection E as -> ->. simpl. rewrite He. simpl.
    apply (contest_move A T w w' (Some j) (Some (r, D)) bl bl rest ps n (reserving tok t));
      [lia|done|simpl; lia|exact Hs'|exact Ho|exact Hw|exact Hn|by intros (out & ? & _)|].
    right. exists j. split; [done|]. left. by exists tok, ex, D'.
  - destruct (wp_Reserve_free T _ (bs "k") w (begin_record (bs "k") (bs "fp") tok opts t)
      (λ x w', x = (None, None) ∧ app_clock (w_now w) ≤ app_clock (w_now w') ∧
         ∃ r', state T ((inl <$> bl) ++ rest) (bs "k") (Some (r', t + validTTL)) w' ∧
           rec_State r' = StateReserved) Hs)
      as (x & w' & E & -> & Hle & r' & Hs' & Hst); [done..|rewrite Hlease; timing| |].
    { intros w' r' Hs' (_ & _ & Hst & _) Hle. do 2 (split; [done|]). by exists r'. }
    unfold call in E. destruct (run _ w) as [x1 w1]. injection E as -> ->. cbn [fst snd].
    split; [lia|]. exists (Some n), (Some (r', t + validTTL)), bl, rest.
    pose proof (draws_insert _ _ _ (reserved_then (bs "k") (bs "fp") opts tok (None, None)) Hn) as Hdr.
    change (drawing (reserving tok t)) with 0%nat in Hdr.
    change (drawing (reserved_then (bs "k") (bs "fp") opts tok (None, None))) with 0%nat in Hdr.
    split; [lia|]. split; [done|]. split.
    + eapply (others_insert _ _ (waits_mono A)); [done|by right|by left|exact Ho].
    + split; [timing|]. split; [done|].
      eexists. split; [by rewrite list_lookup_insert_eq by by eapply lookup_lt_Some|].
      by eexists.
Qed.

Lemma contest_begin A T ps w n :
  contest A T ps w → ps !! n = Some beginner →
  contest A T (<[n := (step_prog beginner w).1]> ps) (step_prog beginner w).2.
Proof.
  intros (HA & won & o & bl & rest & Hd & Hs & Ho & Hw) Hn. pose proof (draws_le _ _ _ Hn) as H1'.
  change (drawing beginner) with 1%nat in H1'. destruct bl as [|b bl]; [simpl in *; lia|].
  rewrite (step_begins _ _ _ b ((inl <$> bl) ++ rest)) by by rewrite (st_rand _ _ _ _ _ Hs).
  eapply (contest_move A T w _ won o (b :: bl) bl rest ps n beginner);
    [simpl; lia|done|by simpl; lia| |exact Ho|exact Hw|exact Hn|by intros (? & ? & _)|].
  - by destruct Hs.
  - left. right. exists (token_of b). by left.
Qed.

Lemma contest_loop A T ps w n tok :
  contest A T ps w → ps !! n = Some (looping tok) →
  contest A T (<[n := (step_prog (looping tok) w).1]> ps) (step_prog (looping tok) w).2.
Proof.
  intros (HA & won & o & bl & rest & Hd & Hs & Ho & Hw) Hn. rewrite step_loops. cbn [fst snd].
  pose proof (advance_le w). eapply (contest_move A T w _ won o bl bl rest ps n (looping tok));
    [lia|done|done| |exact Ho|exact Hw|exact Hn|by intros (? & ? & _)|].
  - by apply state_advance.
  - left. right. exists tok. right. eexists. split; [|done]. lia.
Qed.

Lemma looking_not_waiting A now i tok ex : ¬ waits A now i (looking tok ex).
Proof.
  intros [E|(t & [E|(u & _ & E)])]; [discriminate E| |discriminate E].
  apply (f_equal (λ p, match p with CallNow k => k 0 | _ => p end)) in E.
  cbn -[begin_loop] in E. destruct (Expired ex 0); discriminate E.
Qed.

Lemma contest_look A T ps w n tok ex D :
  rec_State ex = StateReserved → deadline ex = Some D → T < D →
  contest A T ps w → ps !! n = Some (looking tok ex) →
  contest A T (<[n := (step_prog (looking tok ex) w).1]> ps) (step_prog (looking tok ex) w).2.
Proof.
  intros Hst HD HT Hc Hn. pose proof Hc as (HA & won & o & bl & rest & Hd & Hs & Ho & Hw).
  pose proof (state_advance _ _ _ _ _ Hs) as Hs1. pose proof (state_now _ _ _ _ _ Hs1) as Hnow.
  rewrite step_looks by (eapply reported_live; [exact HD|lia]). cbn [fst snd].
  assert (∃ j, won = Some j) as [j ->].
  { destruct won as [j|]; [by eexists|]. destruct (Ho n _ ltac:(done) Hn) as [[]%looking_not_waiting|(j & ? & _)]. by exists j. }
  pose proof (advance_le w).
  eapply (contest_move A T w _ (Some j) o bl bl rest ps n (looking tok ex));
    [lia|done|done|exact Hs1|exact Ho|exact Hw|exact Hn|by intros (? & ? & _)|].
  right. exists j. split; [done|]. right. eexists. split; [done|].
  unfold decide_existing. rewrite Hst. by eexists.
Qed.

Lemma contest_step A T ps w n p :
  T ≤ A + Second → contest A T ps w → ps !! n = Some p →
  contest A T (<[n := (step_prog p w).1]> ps) (step_prog p w).2.
Proof.
  intros HT Hc Hn. pose proof Hc as (HA & won & o & bl & rest & Hd & Hs & Ho & Hw).
  assert (waits A (app_clock (w_now w)) n p ∨ (∃ j, told T j p) ∨ ∃ x, p = Ret x)
    as [[->|(tok & [->|(t & Ht & ->)])]|[(j & [(tok & ex & D & -> & Hst & HD & Hlt)|(x & -> & _)])|[x ->]]].
  { destruct (decide (won = Some n)) as [->|Hne].
    - destruct o as [[r D]|]; [|done]. destruct Hw as (_ & _ & p' & Hj & out & -> & _).
      right. right. naive_solver.
    - destruct (Ho _ _ Hne Hn) as [?|(j & _ & ?)]; eauto. }
  - by apply contest_begin.
  - by apply contest_loop.
  - by apply contest_reserve.
  - by eapply contest_look.
  - simpl. by rewrite list_insert_id.
  - simpl. by rewrite list_insert_id.
Qed.

(** When all have returned, one proceeds and the others are in flight. *)
Definition contested (l : list answer) (j : nat) : Prop :=
  (∃ out, l !! j = Some (inl out) ∧ out_Action out = Proceed) ∧
  ∀ i x, i ≠ j → l !! i = Some x → in_flight x.

Lemma contest_over A T l w :
  contest A T (Ret <$> l) w → l ≠ [] →
  ∃ j rnd o, contested l j ∧ state T rnd (bs "k") o w.
Proof.
  intros (HA & won & o & bl & rest & _ & Hs & Ho & Hw) Hl.
  assert (∀ i x, won ≠ Some i → l !! i = Some x → is_Some won ∧ in_flight x) as Hin.
  { intros i x Hi Hx.
    destruct (Ho i (Ret x) Hi) as [[?|(tok & [?|(t & _ & ?)])]|(j & -> & [(tok & ex & D & ? & _)|(y & [= <-] & ?)])];
      try done.
    by rewrite list_lookup_fmap, Hx. }
  destruct won as [j|].
  - destruct o as [[r D]|]; [|done]. destruct Hw as (_ & _ & p & Hj & out & -> & Ha).
    rewrite list_lookup_fmap in Hj. destruct (l !! j) as [x|] eqn:Hx; [|done]. injection Hj as ->.
    exists j, ((inl <$> bl) ++ rest), (Some (r, D)). split; [|exact Hs]. split; [by exists out|].
    intros i y Hi Hy. apply (Hin i y); [congruence|done].
  - destruct l as [|x l]; [done|]. by destruct (Hin 0%nat x) as [[? ?] _].
Qed.

Lemma wp_beginners T bl rest w sch n (Q : list answer → world S → Prop) :
  state T ((inl <$> bl) ++ rest) (bs "k") None w → T ≤ app_clock (w_now w) + Second →
  (0 < n ≤ length bl)%nat →
  (∀ w' l j rnd o, contested l j → length l = n → state T rnd (bs "k") o w' → Q l w') →
  wp (Go sch (replicate n beginner)) Q w.
Proof.
  intros Hs HT Hn HQ. set (A := app_clock (w_now w)) in *.
  set (I := λ ps w, length ps = n ∧ contest A T ps w).
  destruct (Go_inv I) with (sched := sch) (ps := replicate n beginner) (w := w)
    as (l & w' & E & Hlen & Hc).
  - intros ps v m p [Hl Hc] Hm. split; [by rewrite length_insert|]. by apply contest_step.
  - split; [by rewrite length_replicate|]. split; [done|]. exists None, None, bl, rest.
    split.
    { assert (draws (replicate n beginner) = n) as ->; [|lia].
      clear. unfold draws. induction n as [|n IH]; [done|]. cbn [replicate sum_list_with].
      rewrite IH. done. }
    split; [done|]. split; [|done].
    intros i p _ Hp. left. left. by apply lookup_replicate in Hp as [-> _].
  - rewrite length_fmap in Hlen. apply contest_over in Hc as (j & rnd & o & Hcd & Hs').
    + exists l, w'. split; [done|]. by eapply HQ.
    + intros ->. simpl in Hlen. lia.
Qed.

(** The loop that counts. *)
Lemma count_in_flight p i l (Q : nat * nat → world S → Prop) w :
  Forall in_flight l → Q (p, i + length l)%nat w → wp (count_actions p i l) Q w.
Proof.
  intros Hl. revert i. induction Hl as [|x l (out & -> & Ha) Hl IH]; intros i HQ; simpl in *.
  - rewrite Nat.add_0_r in HQ. by apply wp_ret.
  - rewrite Ha. apply IH. by replace (i + 1 + length l)%nat with (i + Datatypes.S (length l))%nat by lia.
Qed.

Lemma count_contested l j (Q : nat * nat → world S → Prop) w :
  contested l j → Q (1, length l - 1)%nat w → wp (count_actions 0 0 l) Q w.
Proof.
  intros [(out & Hj & Ha) Hl] HQ.
  assert (∀ i pre post, Forall in_flight pre → Forall in_flight post →
    Q (1, i + length pre + length post)%nat w →
    wp (count_actions 0 i (pre ++ inl out :: post)) Q w) as Hgen.
  { intros i pre post Hpre Hpost. revert i.
    induction Hpre as [|x pre (out' & -> & Ha') Hpre IH]; intros i HQ'; simpl in *.
    - rewrite Ha. apply count_in_flight; [done|]. by rewrite Nat.add_0_r in HQ'.
    - rewrite Ha'. apply IH.
      by replace (i + 1 + length pre + length post)%nat with (i + Datatypes.S (length pre) + length post)%nat by lia. }
  pose proof (lookup_lt_Some _ _ _ Hj).
  rewrite <-(take_drop_middle _ _ _ Hj). apply Hgen.
  - apply Forall_lookup. intros i x [Hx Hi]%lookup_take_Some. apply (Hl i); [lia|done].
  - apply Forall_lookup. intros i x Hx. rewrite lookup_drop in Hx. eapply Hl; [|exact Hx]. lia.
  - rewrite length_take, length_drop.
    by replace (0 + j `min` length l + (length l - Datatypes.S j))%nat with (length l - 1)%nat by lia.
Qed.
End contest.

(** ** The whole suite *)

Section machine_suite.
Context {S : Type} `{Conforming S}.
Variable newStore : S → S.
Variable sched : string → list nat.
Hypothesis newStore_empty : ∀ i s, ready i s → ready i (newStore s) ∧ abs (newStore s) = ∅.
Hypothesis exact_deadlines : tolerance = 0.
Implicit Types (w : world S).

Lemma ConcurrentBeginSingleWinner_passes (bl : list bytes) rest w :
  (racers ≤ length bl)%nat → idle ((inl <$> bl) ++ rest) w →
  wp (ConcurrentBeginSingleWinner newStore sched) (λ _ w', ∃ rnd, idle rnd w') w.
Proof.
  intros Hbl Hw. new (bs "k"). apply wp_bind.
  eapply (wp_beginners _ bl rest); [eassumption|timing|unfold racers in *; lia|].
  intros w2 l j rnd o Hl Hlen S2. apply wp_bind. eapply count_contested; [exact Hl|].
  rewrite Hlen. apply wp_fatalf_if; [by vm_compute|]. exists rnd. ends.
Qed.

(** A source of distinct tokens, and what is left of it after two or three
    executions have begun. *)
Definition supplied (bl : list bytes) rest w : Prop :=
  NoDup (token_of <$> bl) ∧ idle ((inl <$> bl) ++ rest) w.

Lemma Run_draws2 name t bl rest w (Q : () → world S → Prop) :
  (∀ b1 b2 rnd w, token_of b1 ≠ token_of b2 → idle (inl b1 :: inl b2 :: rnd) w →
     wp t (λ _, idle rnd) w) →
  supplied bl rest w → (2 ≤ length bl)%nat →
  (∀ w', supplied (drop 2 bl) rest w' → Q () w') → wp (Run name t) Q w.
Proof.
  intros Ht [Hnd Hw] Hl HQ. destruct bl as [|b1 [|b2 bl]]; [simpl in Hl; lia..|].
  rewrite !fmap_cons, !NoDup_cons in Hnd. destruct Hnd as (Hn & _ & Hnd).
  apply wp_Run. eapply wp_mono; [eapply Ht; [|exact Hw]|].
  - intros E. apply Hn. rewrite E. by left.
  - intros [] w' Hw'. apply HQ. by split.
Qed.

Lemma Run_draws3 name t bl rest w (Q : () → world S → Prop) :
  (∀ b1 b2 b3 rnd w, token_of b1 ≠ token_of b2 → idle (inl b1 :: inl b2 :: inl b3 :: rnd) w →
     wp t (λ _, idle rnd) w) →
  supplied bl rest w → (3 ≤ length bl)%nat →
  (∀ w', supplied (drop 3 bl) rest w' → Q () w') → wp (Run name t) Q w.
Proof.
  intros Ht [Hnd Hw] Hl HQ. destruct bl as [|b1 [|b2 [|b3 bl]]]; [simpl in Hl; lia..|].
  rewrite !fmap_cons, !NoDup_cons in Hnd. destruct Hnd as (Hn & _ & _ & Hnd).
  apply wp_Run. eapply wp_mono; [eapply Ht; [|exact Hw]|].
  - intros E. apply Hn. rewrite E. by left.
  - intros [] w' Hw'. apply HQ. by split.
Qed.

#[local] Hint Resolve ProceedPersistReplay_passes InFlightRejection_passes
  DiscardAllowsReexecution_passes ProceedWithoutFinish_passes LeaseExpirySurvivor_passes
  RecordTTLExpiryAllowsReexecution_passes : suite.

(** The suite draws 15 tokens one after the other and 100 in the last
    subtest. *)
Lemma RunStateMachineTests_passes (bl : list bytes) rest w :
  (115 ≤ length bl)%nat → supplied bl rest w →
  wp (RunStateMachineTests newStore sched) (λ _ w', ∃ rnd, idle rnd w') w.
Proof.
  intros Hlen Hw. unfold RunStateMachineTests.
  do 2 (apply wp_bind; eapply (Run_draws3 _ _ _ rest);
    [intros; eauto with suite|eassumption|rewrite ?length_drop; lia|intros ? ?]).
  do 2 (apply wp_bind; eapply (Run_draws2 _ _ _ rest);
    [intros; eauto with suite|eassumption|rewrite ?length_drop; lia|intros ? ?]).
  apply wp_bind; eapply (Run_draws3 _ _ _ rest);
    [intros; eauto with suite|eassumption|rewrite ?length_drop; lia|intros ? ?].
  apply wp_bind; eapply (Run_draws2 _ _ _ rest);
    [intros; eauto with suite|eassumption|rewrite ?length_drop; lia|intros ? [_ Hi]].
  apply wp_Run. eapply wp_mono; [eapply (ConcurrentBeginSingleWinner_passes _ rest); [|exact Hi]|].
  - rewrite !length_drop. unfold racers. lia.
  - intros [] ? Hend. exact Hend.
Qed.
End machine_suite.
