(* ===== verification/Httpidemtest.v ===== *)
(** * The conformance suite over HTTP (httpidem/httpidemtest/)

    Requests through the middleware, on a store whose failures can be
    injected.  The counter of handler executions and the log buffer of a
    subtest are the log of the world: a counting handler writes the line
    [ran].  A handler that signals [entered] and waits for [release] writes
    the line [entered] where its goroutine stops until it is resumed. *)
From S2P Require Import Prelude GoLib Strconv GoHttp Errors Record Store Effects Core Key.
From S2P Require Import StoredResponse Context Http Config Middleware Testing Idemleasetest.
Import Time httpidem middleware.
Import idemleasetest(errors_Is, isNil, ne, got_where, state_is).
Local Open Scope Z_scope.

(** ** Goroutines that block *)

(** The goroutine runs until it writes the line [l], and what is left of
    it; a goroutine that ends without leaves nothing. *)
Fixpoint run_to {S A} `{Store S} (l : logline) (p : prog A) (w : world S)
    : option (prog A) * world S :=
  match p with
  | Ret a => (None, w)
  | CallNow k => let w := advance w in run_to l (k (app_clock (w_now w))) w
  | CallRead n k => let '(b, w) := read_rand n w in run_to l (k b) w
  | CallReserve r k =>
      let w := advance w in
      let '(s, x) := Reserve (w_now w) r (w_store w) in run_to l (k x) (set_store s w)
  | CallComplete key tok p ttl k =>
      let w := advance w in
      let '(s, x) := Complete (w_now w) key tok p ttl (w_store w) in run_to l (k x) (set_store s w)
  | CallRelease key tok k =>
      let w := advance w in
      let '(s, x) := Release (w_now w) key tok (w_store w) in run_to l (k x) (set_store s w)
  | CallGet key k =>
      let w := advance w in
      let '(s, x) := Get (w_now w) key (w_store w) in run_to l (k x) (set_store s w)
  | CallLog l' k =>
      let w := add_log l' w in
      if bool_decide (l' = l) then (Some k, w) else run_to l k w
  end.

Module httpidemtest.

(** ** The flaky store *)

Record flakyStore (S : Type) := mkFlakyStore {
  inner : S;
  reserveErr : option error;
  completeErr : option error;
  releaseErr : option error;
}.
Arguments mkFlakyStore {S} _ _ _ _.
Arguments inner {S} _.
Arguments reserveErr {S} _.
Arguments completeErr {S} _.
Arguments releaseErr {S} _.

Definition setErrs {S} (reserve complete release : option error) (s : flakyStore S) : flakyStore S :=
  mkFlakyStore (inner s) reserve complete release.
Definition set_inner {S} (i : S) (s : flakyStore S) : flakyStore S :=
  mkFlakyStore i (reserveErr s) (completeErr s) (releaseErr s).

Section flaky.
Context {S : Type} `{Store S}.

Definition Reserve (i : Instant) (rec : Record) (s : flakyStore S)
    : flakyStore S * (option Record * option error) :=
  match reserveErr s with
  | Some e => (s, (None, Some e))
  | None => let '(i', x) := Store.Reserve i rec (inner s) in (set_inner i' s, x)
  end.

Definition Complete (i : Instant) (key token payload : bytes) (recordTTL : Duration)
    (s : flakyStore S) : flakyStore S * option error :=
  match completeErr s with
  | Some e => (s, Some e)
  | None => let '(i', x) := Store.Complete i key token payload recordTTL (inner s) in (set_inner i' s, x)
  end.

Definition Release (i : Instant) (key token : bytes) (s : flakyStore S)
    : flakyStore S * option error :=
  match releaseErr s with
  | Some e => (s, Some e)
  | None => let '(i', x) := Store.Release i key token (inner s) in (set_inner i' s, x)
  end.

Definition Get (i : Instant) (key : bytes) (s : flakyStore S)
    : flakyStore S * (option Record * option error) :=
  let '(i', x) := Store.Get i key (inner s) in (set_inner i' s, x).

#[global] Instance flaky_Store : Store (flakyStore S) := {
  Store.Reserve := Reserve;
  Store.Complete := Complete;
  Store.Release := Release;
  Store.Get := Get;
}.
End flaky.

(** ** Requests *)

(** [httptest.NewRequest] on a path. *)
Definition NewRequest (method target body : bytes) : Request :=
  mkRequest method (url.mkURL target [] []) ∅
    (if bool_decide (body = []) then None else Some (mkReader body None))
    (Z.of_nat (length body)) Background.

Definition set_header (k v : bytes) (r : Request) : Request :=
  mkRequest (r_Method r) (r_URL r) (Header.Set' k v (r_Header r)) (r_Body r) (r_ContentLength r) (r_ctx r).

(** [httptest.NewRecorder]: it can be flushed, not hijacked. *)
Definition NewResponseRecorder : response := new_response FlushWorks (Some err_not_supported).

(** The request [do] makes. *)
Definition request (method target key body : bytes) (mutate : list (Request → Request)) : Request :=
  let req := NewRequest method target body in
  let req := if bool_decide (key = []) then req else set_header HeaderIdempotencyKey key req in
  foldl (λ r m, m r) req mutate.

(** [do], up to the panic a handler may end with. *)
Definition do_request (cfg : config) (h : Handler) (method target key body : bytes)
    (mutate : list (Request → Request)) : prog (response * outcome) :=
  '(s, how) ← ServeHTTP cfg h NewResponseRecorder (request method target key body mutate)
                (mkBoxes [] []);
  mret (finish_response (hs_w s), how).

(** The recorder's Code, Header().Get and Body. *)
Definition Code (rr : response) : Z := sent_status rr.
Definition header_of (k : string) (rr : response) : bytes := Header.Get (rs_header rr) (bs k).
Definition replayed (rr : response) : bytes := Header.Get (rs_header rr) HeaderIdempotencyReplayed.

(** ** Handlers *)

Definition ran : logline := mkLog LevelWarn (bs "count.Add(1)") [].
Definition entered : logline := mkLog LevelWarn (bs "close(entered); <-release") [].

Definition counting (k : handler_prog) : handler_prog := HCall (log ran) (λ _, k).
Definition stalling (k : handler_prog) : handler_prog := HCall (log entered) (λ _, k).
Definition respond (code : Z) (body : bytes) : handler_prog :=
  HWriteHeader code (if bool_decide (body = []) then HReturn else HWrite body (λ _, HReturn)).

(** The payload {id: 1}, as JSON. *)
Definition json_id : bytes := bs "{" ++ x22 :: bs "id" ++ x22 :: bs ":1}".
Definition json_n (n : string) : bytes := bs "{" ++ x22 :: bs "n" ++ x22 :: bs ":" ++ bs n ++ bs "}".

(** ** The subtests *)

Section tests.
Context {S : Type} `{Store S}.

(** A subtest's counter starts at zero and its log buffer is empty. *)
Definition fresh_log : test S () := λ w,
  (([], Some ()), mkWorld (w_store w) (w_now w) (w_ticks w) (w_rand w) []).
Definition Load : test S nat := λ w,
  (([], Some (length (filter (λ l, l = ran) (w_log w)))), w).
Definition log_contains (attr : bytes * bytes) : test S bool := λ w,
  (([], Some (existsb (λ l, bool_decide (attr ∈ log_attrs l)) (w_log w))), w).

Definition returned (x : response * outcome) : test S response :=
  match x.2 with Returned => mret x.1 | Panicked _ => Fatalf "panic" end.

Definition do_ (cfg : config) (h : Handler) (method target key body : bytes)
    (mutate : list (Request → Request)) : test S response :=
  x ← call (do_request cfg h method target key body mutate);
  returned x.

(** [go func() { done <- do(...) }(); <-entered]. *)
Definition start (p : prog (response * outcome)) : test S (prog (response * outcome)) := λ w,
  match run_to entered p w with
  | (Some k, w) => (([], Some k), w)
  | (None, w) => (([bs "deadlock"], None), w)
  end.
(** [close(release); <-done]. *)
Definition resume (p : prog (response * outcome)) : test S response :=
  x ← call p; returned x.

Definition check_count (want : nat) : test S () :=
  n ← Load; fatalf_if (ne n want) "handler ran %d times, want %d".
End tests.

Section suite.
Context {S : Type} `{Store S}.
Variable newStore : S → S.
Variable sched : string → list nat.

Definition NewStore : test S () := idemleasetest.NewStore newStore.

Definition ReplayScenario : test S () :=
  _ ← NewStore; _ ← fresh_log;
  let cfg := New_config [] in
  let h : Handler := λ _, counting
    (HHeader (λ hd, HSetHeader (Header.Set' (bs "Content-Type") (bs "application/json") hd)
      (respond 201 json_id))) in
  first ← do_ cfg h (bs "POST") (bs "/orders") (bs "k") (json_n "1") [];
  _ ← fatalf_if (ne (Code first) 201 || ne (replayed first) [])
        "first request = %d (replayed=%q), want a fresh 201";
  replay ← do_ cfg h (bs "POST") (bs "/orders") (bs "k") (json_n "1") [];
  _ ← fatalf_if (ne (Code replay) 201 || ne (rs_body replay) json_id)
        "replay = (%d, %q), want the stored 201 body";
  _ ← fatalf_if (ne (replayed replay) (bs "true")) "replay must carry Idempotency-Replayed: true";
  _ ← fatalf_if (ne (header_of "Content-Type" replay) (bs "application/json"))
        "allowlisted headers must be replayed";
  check_count 1.

Definition CompletedFingerprintMismatch422 : test S () :=
  _ ← NewStore; _ ← fresh_log;
  let cfg := New_config [] in
  let h : Handler := λ _, counting (respond 201 []) in
  rr ← do_ cfg h (bs "POST") (bs "/orders") (bs "k") (json_n "1") [];
  _ ← fatalf_if (ne (Code rr) 201) "first request = %d, want 201";
  rr ← do_ cfg h (bs "POST") (bs "/orders") (bs "k") (json_n "2") [];
  _ ← fatalf_if (ne (Code rr) 422) "same key with a different payload = %d, want 422";
  check_count 1.

Definition InFlight409 : test S () :=
  _ ← NewStore; _ ← fresh_log;
  let cfg := New_config [] in
  let h : Handler := λ _, counting (stalling (respond 201 [])) in
  first ← start (do_request cfg h (bs "POST") (bs "/x") (bs "k") (bs "body") []);
  same ← do_ cfg h (bs "POST") (bs "/x") (bs "k") (bs "body") [];
  _ ← fatalf_if (ne (Code same) 409) "in-flight same fingerprint = %d, want 409";
  _ ← fatalf_if
        (match ParseInt (header_of "Retry-After" same) with Some ra => ra <? 1 | None => true end)
        "Retry-After = %q, want an integer >= 1";
  diff ← do_ cfg h (bs "POST") (bs "/x") (bs "k") (bs "OTHER-BODY") [];
  _ ← fatalf_if (ne (Code diff) 409) "in-flight different fingerprint = %d, want 409";
  first ← resume first;
  _ ← fatalf_if (ne (Code first) 201) "first request = %d, want 201";
  replay ← do_ cfg h (bs "POST") (bs "/x") (bs "k") (bs "body") [];
  _ ← fatalf_if (ne (replayed replay) (bs "true")) "after completion the key must replay";
  check_count 1.

Definition tenant (id : string) : Request → Request := set_header (bs "X-Tenant") (bs id).

Definition KeyScopeIsolation : test S () :=
  _ ← NewStore; _ ← fresh_log;
  let cfg := New_config [KeyScope (λ r, Header.Get (r_Header r) (bs "X-Tenant"))] in
  let h : Handler := λ _, counting (respond 201 []) in
  rr ← do_ cfg h (bs "POST") (bs "/x") (bs "k") (bs "same-body") [tenant "A"];
  _ ← fatalf_if (ne (Code rr) 201) "tenant A first request = %d, want 201";
  rr ← do_ cfg h (bs "POST") (bs "/x") (bs "k") (bs "same-body") [tenant "B"];
  _ ← fatalf_if (ne (Code rr) 201 || ne (replayed rr) [])
        "tenant B must execute independently with the same key and fingerprint, got %d";
  _ ← check_count 2;
  rr ← do_ cfg h (bs "POST") (bs "/x") (bs "k") (bs "same-body") [tenant "A"];
  _ ← fatalf_if (ne (replayed rr) (bs "true")) "within one scope the key must replay normally";
  check_count 2.

(** [fs := &flakyStore{inner: newStore(t)}]: the subtest runs on the flaky
    store over a new one. *)
Definition with_flaky (t : test (flakyStore S) ()) : test S () := λ w,
  let to := mkWorld (mkFlakyStore (newStore (w_store w)) None None None)
              (w_now w) (w_ticks w) (w_rand w) (w_log w) in
  let '(x, w) := t to in
  (x, mkWorld (inner (w_store w)) (w_now w) (w_ticks w) (w_rand w) (w_log w)).

Definition set_errs (reserve complete release : option error) : test (flakyStore S) () := λ w,
  (([], Some ()), set_store (setErrs reserve complete release (w_store w)) w).

Definition err_down : error := errText (bs "store down").
Definition err_boom : error := errText (bs "boom").
Definition err_boom2 : error := errText (bs "boom2").

(** The request of the failure subtests. *)
Definition post (cfg : config) (h : Handler) : test (flakyStore S) response :=
  do_ cfg h (bs "POST") (bs "/x") (bs "k") (bs "b") [].

Definition FailClosed503 : test S () := with_flaky (
  _ ← set_errs (Some err_down) None None; _ ← fresh_log;
  let h : Handler := λ _, counting HReturn in
  rr ← post (New_config []) h;
  n ← Load;
  fatalf_if (ne (Code rr) 503 || ne n 0%nat) "code=%d handler=%d, want 503 and no execution").

Definition FailOpenPassesThrough : test S () := with_flaky (
  _ ← set_errs (Some err_down) None None; _ ← fresh_log;
  let cfg := New_config [FailOpen true] in
  let h : Handler := λ _, counting (respond 201 []) in
  rr ← post cfg h;
  n ← Load;
  _ ← fatalf_if (ne (Code rr) 201 || ne n 1%nat)
        "code=%d handler=%d, want the handler to run without idempotency";
  _ ← set_errs None None None;
  _ ← post cfg h;
  check_count 2).

Definition StoreFailureOnBegin : test S () :=
  _ ← Testing.Run "FailClosed503" FailClosed503;
  Testing.Run "FailOpenPassesThrough" FailOpenPassesThrough.

Definition ResponseReturnedAndReleased : test S () := with_flaky (
  _ ← set_errs None (Some err_boom) None; _ ← fresh_log;
  let cfg := New_config [] in
  let h : Handler := λ _, counting (respond 201 (bs "work-done")) in
  rr ← post cfg h;
  _ ← fatalf_if (ne (Code rr) 201 || ne (rs_body rr) (bs "work-done"))
        "the captured response must reach the client despite the Complete failure";
  _ ← set_errs None None None;
  _ ← post cfg h;
  check_count 2).

Definition ReleaseAlsoFailsKeepsReservation : test S () := with_flaky (
  _ ← set_errs None (Some err_boom) (Some err_boom2); _ ← fresh_log;
  let cfg := New_config [] in
  let h : Handler := λ _, counting (respond 201 []) in
  rr ← post cfg h;
  _ ← fatalf_if (ne (Code rr) 201) "code = %d, want 201";
  rr ← post cfg h;
  fatalf_if (ne (Code rr) 409) "retry while still reserved = %d, want 409 until lease expiry").

Definition StoreFailureOnComplete : test S () :=
  _ ← Testing.Run "ResponseReturnedAndReleased" ResponseReturnedAndReleased;
  Testing.Run "ReleaseAlsoFailsKeepsReservation" ReleaseAlsoFailsKeepsReservation.

Definition StoreFailureOnRelease : test S () := with_flaky (
  _ ← set_errs None None (Some err_boom); _ ← fresh_log;
  let cfg := New_config [] in
  let h : Handler := λ _, counting (respond 500 []) in
  rr ← post cfg h;
  _ ← fatalf_if (ne (Code rr) 500) "code = %d, want the handler's 500";
  rr ← post cfg h;
  fatalf_if (ne (Code rr) 409) "retry while still reserved = %d, want 409 until lease expiry").

Definition lease_500ms : Duration := 500 * Millisecond.

(** The handler of the subtest in its [n]th run: the first outlives its
    lease. *)
Definition survivor (n : nat) : Handler := λ _,
  counting (if bool_decide (n = 1%nat) then stalling (respond 201 (bs "result-of-A"))
            else respond 201 (bs "result-of-B")).

Definition LeaseExpirySurvivor : test S () :=
  _ ← NewStore; _ ← fresh_log;
  let cfg := New_config [LeaseTTL lease_500ms] in
  let req h := do_request cfg h (bs "POST") (bs "/x") (bs "k") (bs "body") [] in
  t0 ← call time_Now;
  n ← Load;
  a ← start (req (survivor (n + 1)));
  now ← call time_Now;
  _ ← Sleep (Sub (Add t0 (lease_500ms + 150 * Millisecond)) now);
  n ← Load;
  b ← resume (req (survivor (n + 1)));
  _ ← fatalf_if (ne (Code b) 201 || ne (rs_body b) (bs "result-of-B"))
        "B = (%d, %q), want a fresh execution";
  _ ← fatalf_if (ne (replayed b) []) "B must be a fresh execution, not a replay";
  a ← resume a;
  _ ← fatalf_if (ne (Code a) 201 || ne (rs_body a) (bs "result-of-A"))
        "A = (%d, %q), want A's own completed work returned";
  lost ← log_contains (bs "event", bs "lease_lost");
  _ ← fatalf_if (negb lost) "expected a lease_lost warning in the logs";
  n ← Load;
  replay ← resume (req (survivor (n + 1)));
  _ ← fatalf_if (ne (replayed replay) (bs "true") || ne (rs_body replay) (bs "result-of-B"))
        "replay = (%q, replayed=%q), want only B's result stored";
  x ← call (s_Get (bs "k"));
  rec ← got_where (state_is StateCompleted) x "Get = (%+v, %v), want a completed record";
  _ ← match UnmarshalBinary (rec_Payload rec) with
      | inr _ => Fatalf "decoding stored payload: %v"
      | inl sr => fatalf_if (ne (sr_Body sr) (bs "result-of-B")) "stored body = %q, want B's result only"
      end;
  check_count 2.

(** The loop over the results of the goroutines: fresh, replayed, 409. *)
Fixpoint classify (fresh replays conflicts : nat) (results : list (response * outcome))
    : test S (nat * nat * nat) :=
  match results with
  | [] => mret (fresh, replays, conflicts)
  | x :: results =>
      rr ← returned x;
      if bool_decide (Code rr = 201) && bool_decide (replayed rr = bs "true")
      then classify fresh (replays + 1) conflicts results
      else if bool_decide (Code rr = 201) then classify (fresh + 1) replays conflicts results
      else if bool_decide (Code rr = 409) then classify fresh replays (conflicts + 1) results
      else Fatalf "#%d: unexpected status %d"
  end.

Definition ConcurrentSingleExecution : test S () :=
  _ ← NewStore; _ ← fresh_log;
  let h : Handler := λ _, counting (respond 201 (bs "winner")) in
  results ← Go (sched "ConcurrentSingleExecution")
    (replicate 100 (do_request (New_config []) h (bs "POST") (bs "/x") (bs "same-key") (bs "same-body") []));
  _ ← check_count 1;
  '(fresh, _, _) ← classify 0 0 0 results;
  fatalf_if (ne fresh 1%nat) "fresh executions = %d (replayed=%d conflicts=%d), want exactly 1".

Definition RunHTTPTests : test S () :=
  _ ← Testing.Run "ReplayScenario" ReplayScenario;
  _ ← Testing.Run "CompletedFingerprintMismatch422" CompletedFingerprintMismatch422;
  _ ← Testing.Run "InFlight409" InFlight409;
  _ ← Testing.Run "KeyScopeIsolation" KeyScopeIsolation;
  _ ← Testing.Run "StoreFailureOnBegin" StoreFailureOnBegin;
  _ ← Testing.Run "StoreFailureOnComplete" StoreFailureOnComplete;
  _ ← Testing.Run "StoreFailureOnRelease" StoreFailureOnRelease;
  _ ← Testing.Run "LeaseExpirySurvivor" LeaseExpirySurvivor;
  Testing.Run "ConcurrentSingleExecution" ConcurrentSingleExecution.

End suite.
End httpidemtest.
