(* ===== verification/HttpRules.v ===== *)
(** * Requests in a test

    The rules for the requests of the suite over HTTP: what a program can
    do to a flaky store or to the log is read off its calls; a request is
    Begin, then what the middleware makes of the outcome, which is computed
    wherever no store call is left. *)
From S2P Require Import Prelude GoLib GoHttp Errors Record Store Effects Core CoreSpec Key.
From S2P Require Import StoredResponse Context Http Recorder RecorderSpec Problem Config.
From S2P Require Import Middleware MiddlewareSpec HttpClaims.
From S2P Require Import Testing Conforming Idemleasetest SuiteStore SuiteMachine Httpidemtest.
Import Time httpidem middleware httpidemtest.
Import Conforming(ready).
Import idemleasetest(errors_Is, isNil, ne, got_where, state_is).
Local Open Scope Z_scope.

(** ** Programs by their calls *)

Record allowed := mkAllowed {
  may_reserve : bool; may_complete : bool; may_release : bool; may_log : bool
}.

(** The program makes no call it is not allowed. *)
Fixpoint within {A} (o : allowed) (p : prog A) : Prop :=
  match p with
  | Ret _ => True
  | CallNow k => ∀ x, within o (k x)
  | CallRead _ k => ∀ x, within o (k x)
  | CallReserve _ k => may_reserve o = true ∧ ∀ x, within o (k x)
  | CallComplete _ _ _ _ k => may_complete o = true ∧ ∀ x, within o (k x)
  | CallRelease _ _ k => may_release o = true ∧ ∀ x, within o (k x)
  | CallGet _ k => ∀ x, within o (k x)
  | CallLog _ k => may_log o = true ∧ within o k
  end.

Lemma within_bind {A B} o (p : prog A) (f : A → prog B) :
  within o p → (∀ a, within o (f a)) → within o (p ≫= f).
Proof. intros Hp Hf. unfold mbind, prog_mbind. induction p; simpl in *; naive_solver. Qed.

Lemma within_begin_loop o more key fp tok opts :
  may_reserve o = true → within o (begin_loop more key fp tok opts).
Proof.
  intros Ho. induction more as [|more IH]; simpl; intros t; (split; [done|]);
    intros [[ex|] [e|]]; simpl; try done; destruct (negb _); simpl; try done;
    intros now; by destruct (Expired _ _).
Qed.

Lemma within_Begin o key fp opts : may_reserve o = true → within o (Begin key fp opts).
Proof.
  intros Ho. apply within_bind; [by intros [b|e]|]. intros [tok|e]; [|done].
  by apply within_begin_loop.
Qed.

Lemma within_Finish o key tok d p opts :
  (d = Persist → may_complete o = true) → (d = Discard → may_release o = true) →
  within o (Finish key tok d p opts).
Proof. intros Hc Hr. destruct d; simpl; auto. Qed.

Definition silent : allowed := mkAllowed true true true false.

Section rules.
Context {S : Type} `{Store S}.
Implicit Types w : world S.

Lemma log_advance w : w_log (advance w) = w_log w.
Proof. unfold advance. by destruct (w_ticks w). Qed.

Lemma run_silent {A} (p : prog A) w : within silent p → w_log (run p w).2 = w_log w.
Proof.
  revert w. induction p as [a|k IH|n k IH|r k IH|key tok p ttl k IH|key tok k IH|key k IH|l k IH];
    intros w Hp; simpl in *; [done|..]; try destruct Hp as [Hal Hp]; try done.
  2: { unfold read_rand. destruct (w_rand w); by rewrite IH. }
  all: try (by rewrite IH, log_advance by apply Hp);
    match goal with |- context [let '(_, _) := ?e in _] => destruct e end;
    rewrite IH by apply Hp; simpl; by rewrite log_advance.
Qed.

(** A silent program leaves the log. *)
Lemma wp_silent {A} (p : prog A) (Q : A → world S → Prop) w :
  within silent p → wp (call p) (λ a w', w_log w' = w_log w → Q a w') w → wp (call p) Q w.
Proof.
  intros Hp (a & w' & E & HQ). exists a, w'. split; [done|]. apply HQ.
  unfold call in E. pose proof (run_silent p w Hp) as Hl. destruct (run p w). by injection E as -> ->.
Qed.

(** *** Programs without store calls *)

Fixpoint settled {A} (p : prog A) : option (list logline * A) :=
  match p with
  | Ret a => Some ([], a)
  | CallLog l k => '(ls, a) ← settled k; Some (l :: ls, a)
  | _ => None
  end.

Definition add_logs (ls : list logline) w : world S :=
  mkWorld (w_store w) (w_now w) (w_ticks w) (w_rand w) (w_log w ++ ls).

Lemma run_settled {A} (p : prog A) ls a w :
  settled p = Some (ls, a) → run p w = (a, add_logs ls w).
Proof.
  revert ls w. induction p as [a'| | | | | | |l p IH]; intros ls w Hs; simplify_eq/=.
  - unfold add_logs. rewrite app_nil_r. by destruct w.
  - apply bind_Some in Hs as ([ls' a'] & Hp & [= <- ->]). rewrite (IH _ _ Hp).
    unfold add_logs. simpl. by rewrite <-app_assoc.
Qed.

Lemma wp_settled {A} (p : prog A) ls a (Q : A → world S → Prop) w :
  settled p = Some (ls, a) → Q a (add_logs ls w) → wp (call p) Q w.
Proof. intros Hs HQ. apply wp_call. by rewrite (run_settled _ _ _ _ Hs). Qed.

Lemma settled_eq {A} (p : prog A) ls a : settled p = Some (ls, a) → p = foldr CallLog (Ret a) ls.
Proof.
  revert ls. induction p as [a'| | | | | | |l p IH]; intros ls Hs; simplify_eq/=; [done|].
  apply bind_Some in Hs as ([ls' a'] & Hp & [= <- ->]). simpl. f_equal. by apply IH.
Qed.

Lemma settled_bind {A B} (p : prog A) (f : A → prog B) ls a :
  settled p = Some (ls, a) → p ≫= f = foldr CallLog (f a) ls.
Proof.
  revert ls. induction p as [a'| | | | | | |l p IH]; intros ls Hs; simplify_eq/=; [done|].
  apply bind_Some in Hs as ([ls' a'] & Hp & [= <- ->]). simpl. f_equal. by apply IH.
Qed.

(** *** Goroutines that stop at a line *)

Definition wp_to {A} (l : logline) (p : prog A) (Q : prog A → world S → Prop) w : Prop :=
  ∃ k w', run_to l p w = (Some k, w') ∧ Q k w'.

Lemma run_to_bind_silent {A B} l (p : prog A) (f : A → prog B) w :
  within silent p → run_to l (p ≫= f) w = let '(a, w') := run p w in run_to l (f a) w'.
Proof.
  unfold mbind, prog_mbind. revert w.
  induction p as [a|k IH|n k IH|r k IH|key tok p ttl k IH|key tok k IH|key k IH|l' k IH];
    intros w Hp; simpl in *; [done|..]; try (destruct Hp as [Hal Hp]; try done);
    try by apply IH, Hp.
  all: match goal with |- context [let '(_, _) := ?e in _] => destruct e end; apply IH, Hp.
Qed.

Lemma run_to_bind {A B} l (p : prog A) (f : A → prog B) w k w' :
  run_to l p w = (Some k, w') → run_to l (p ≫= f) w = (Some (k ≫= f), w').
Proof.
  unfold mbind, prog_mbind. revert w.
  induction p as [a|k0 IH|n k0 IH|r k0 IH|key tok p ttl k0 IH|key tok k0 IH|key k0 IH|l' k0 IH];
    intros w Hp; simpl in *; [done|..]; try by apply IH.
  all: try (case_bool_decide; [by simplify_eq|by apply IH]).
  all: match goal with H : context [let '(_, _) := ?e in _] |- _ => destruct e end; by apply IH.
Qed.

Lemma wp_to_bind_silent {A B} l (p : prog A) (f : A → prog B) (Q : prog B → world S → Prop) w :
  within silent p → wp (call p) (λ a w', wp_to l (f a) Q w') w → wp_to l (p ≫= f) Q w.
Proof.
  intros Hp (a & w1 & E & k & w2 & Ek & HQ). exists k, w2. split; [|done].
  rewrite run_to_bind_silent by done. unfold call in E. destruct (run p w). by injection E as -> ->.
Qed.

Lemma wp_to_bind {A B} l (p : prog A) (f : A → prog B) (Q : prog B → world S → Prop) w :
  wp_to l p (λ k w', Q (k ≫= f) w') w → wp_to l (p ≫= f) Q w.
Proof. intros (k & w' & E & HQ). eexists _, _. split; [by apply run_to_bind|done]. Qed.

Lemma wp_start p (Q : prog (response * outcome) → world S → Prop) w :
  wp_to entered p Q w → wp (start p) Q w.
Proof. intros (k & w' & E & HQ). exists k, w'. split; [|done]. unfold start. by rewrite E. Qed.

(** *** The counter *)

Lemma wp_Load (Q : nat → world S → Prop) w :
  Q (length (filter (λ l, l = ran) (w_log w))) w → wp Load Q w.
Proof. intros HQ. by eexists _, _. Qed.

Lemma wp_check_count n (Q : () → world S → Prop) w :
  length (filter (λ l, l = ran) (w_log w)) = n → Q () w → wp (check_count n) Q w.
Proof.
  intros Hn HQ. apply wp_bind, wp_Load, wp_fatalf_if; [|done].
  unfold ne. by rewrite bool_decide_eq_true_2.
Qed.
End rules.

(** ** The flaky store *)

Section flaky.
Context {S : Type} `{Store S}.
Implicit Types w : world S.

Record errs := mkErrs { on_reserve : option error; on_complete : option error; on_release : option error }.
Definition no_errs : errs := mkErrs None None None.

(** The world whose store is the flaky one over that of [w]. *)
Definition flaky (e : errs) w : world (flakyStore S) :=
  mkWorld (mkFlakyStore (w_store w) (on_reserve e) (on_complete e) (on_release e))
    (w_now w) (w_ticks w) (w_rand w) (w_log w).

Lemma flaky_advance e w : advance (flaky e w) = flaky e (advance w).
Proof. unfold advance. simpl. by destruct (w_ticks w). Qed.

(** Programs that make none of the calls that fail. *)
Definition sparing (e : errs) : allowed :=
  mkAllowed (isNil (on_reserve e)) (isNil (on_complete e)) (isNil (on_release e)) true.

Lemma run_flaky {A} (p : prog A) e w :
  within (sparing e) p → run p (flaky e w) = let '(a, w') := run p w in (a, flaky e w').
Proof.
  revert w. induction p as [a|k IH|n k IH|r k IH|key tok p ttl k IH|key tok k IH|key k IH|l k IH];
    intros w Hp; cbn [within run] in *; [done|..].
  2: { unfold read_rand. simpl. destruct (w_rand w) as [|b rnd]; [by apply (IH _ w)|].
       by apply (IH _ (mkWorld (w_store w) (w_now w) (w_ticks w) rnd (w_log w))). }
  6: { by apply (IH (add_log l w)), Hp. }
  all: cbv zeta; rewrite flaky_advance.
  1: by apply (IH _ (advance w)).
  all: try (destruct Hp as [Hal Hp]; destruct e as [[] [] []]; try done); generalize (advance w); intros v;
    simpl; unfold Reserve, Complete, Release, Get; simpl;
    match goal with |- context [let '(_, _) := (let '(_, _) := ?x in _) in _] => destruct x as [s y] end;
    apply (IH _ (set_store s v)), Hp.
Qed.

Lemma wp_flaky {A} (p : prog A) e (Q : A → world (flakyStore S) → Prop) w :
  within (sparing e) p → wp (call p) (λ a w', Q a (flaky e w')) w → wp (call p) Q (flaky e w).
Proof.
  intros Hp (a & w' & E & HQ). exists a, (flaky e w'). split; [|done].
  unfold call in *. rewrite run_flaky by done. destruct (run p w). by injection E as -> ->.
Qed.

(** Without injected errors the flaky store is the one it wraps. *)
Lemma within_no_errs {A} (p : prog A) : within (sparing no_errs) p.
Proof. induction p; simpl; auto. Qed.

Lemma wp_set_errs a b c e (Q : () → world (flakyStore S) → Prop) w :
  Q () (flaky (mkErrs a b c) w) → wp (set_errs a b c) Q (flaky e w).
Proof. intros HQ. by eexists _, _. Qed.

(** *** Calls that fail *)

Lemma wp_Reserve_fails r e err (Q : option Record * option error → world (flakyStore S) → Prop) w :
  on_reserve e = Some err → Q (None, Some err) (flaky e (advance w)) →
  wp (call (s_Reserve r)) Q (flaky e w).
Proof.
  intros He HQ. destruct e as [er ec el]. simpl in He. subst er. apply wp_call.
  cbn [run s_Reserve]. cbv zeta. by rewrite flaky_advance.
Qed.

Lemma wp_Complete_fails k tok p ttl e err (Q : option error → world (flakyStore S) → Prop) w :
  on_complete e = Some err → Q (Some err) (flaky e (advance w)) →
  wp (call (s_Complete k tok p ttl)) Q (flaky e w).
Proof.
  intros He HQ. destruct e as [er ec el]. simpl in He. subst ec. apply wp_call.
  cbn [run s_Complete]. cbv zeta. by rewrite flaky_advance.
Qed.

Lemma wp_Release_fails k tok e err (Q : option error → world (flakyStore S) → Prop) w :
  on_release e = Some err → Q (Some err) (flaky e (advance w)) →
  wp (call (s_Release k tok)) Q (flaky e w).
Proof.
  intros He HQ. destruct e as [er ec el]. simpl in He. subst el. apply wp_call.
  cbn [run s_Release]. cbv zeta. by rewrite flaky_advance.
Qed.
End flaky.

(** ** Requests *)

Section requests.
Variables (cfg : config) (h : Handler).

(** The request with its body buffered, as the handler sees it. *)
Definition buffered (method target key body : bytes) (mutate : list (Request → Request)) : Request :=
  let r := (readBody (request method target key body mutate) (maxRequestBody cfg)).2 in
  set_content_length (set_body r (mkReader body None)) (Z.of_nat (length body)).

Definition b0 : boxes := mkBoxes [] [].

(** What the middleware does after Begin. *)
Definition act (r : Request) (key : bytes) (out : Outcome + error) : prog (hstate response * outcome) :=
  let scope := scope_of cfg r in
  match out with
  | inr err =>
      if failOpen cfg then
        _ ← Warn "httpidem: store unavailable; proceeding without idempotency (FailOpen)"
              (keyAttrs cfg scope key ++ error_attr err);
        serve h NewResponseRecorder r b0
      else WriteError cfg NewResponseRecorder r b0 503 (Errorf_w_w ErrStoreUnavailable err)
  | inl out =>
      match out_Action out with
      | Replay => writeReplay cfg NewResponseRecorder r b0 scope key (out_Payload out)
      | RejectInFlight =>
          WriteError cfg (SetHeader (Header.Set' (bs "Retry-After")
            (retryAfterSeconds (out_RetryAfter out)) (Header NewResponseRecorder)) NewResponseRecorder)
            r b0 409 ErrInFlight
      | RejectFingerprintMismatch => WriteError cfg NewResponseRecorder r b0 422 ErrFingerprintMismatch
      | Proceed => proceed cfg h NewResponseRecorder r b0 scope key (skey cfg r key) (out_Token out)
                     (options cfg)
      end
  end.

(** The handler's part of a request that proceeds. *)
Definition context_of (r : Request) (K tok : bytes) :=
  proceed_context (r_ctx r) b0 (mkReservation K tok (Effective (options cfg))).
Definition served (r : Request) (K tok : bytes) : prog (hstate (captureWriter response) * outcome) :=
  let '(ctx, b, _, _) := context_of r K tok in
  serve h (mkCaptureWriter NewResponseRecorder (NewRecorder (maxResponseBody cfg) (storeHeaders cfg)) false)
    (WithContext r ctx) b.

(** What follows once it has returned. *)
Definition returning (r : Request) (key K tok : bytes) (x : hstate (captureWriter response) * outcome)
    : prog (hstate response * outcome) :=
  let '(_, _, handlerErr, finished) := context_of r K tok in
  let scope := scope_of cfg r in
  let '(s, how) := x in
  match how with
  | Panicked v =>
      _ ← (if finished (hs_boxes s) then mret ()
           else discard_logging cfg scope key K tok (options cfg)
                  "httpidem: releasing reservation after handler panic failed");
      mret (strip s, Panicked v)
  | Returned =>
      let s := set_w (finalize (hs_w s)) s in
      if finished (hs_boxes s) then mret (strip s, Returned) else
      _ ← finish_response_record cfg scope key K tok (options cfg) (cw_rec (hs_w s))
            (handlerErr (hs_boxes s));
      mret (strip s, Returned)
  end.

Lemma act_proceed r key tok :
  act r key (inl (mkOutcome Proceed tok [] 0)) =
    served r (skey cfg r key) tok ≫= returning r key (skey cfg r key) tok.
Proof.
  unfold act, proceed, served, returning, context_of. cbn [out_Action out_Token].
  by destruct (proceed_context _ _ _) as [[[ctx b] he] fin].
Qed.

(** The decision, the payload and the response of a handler that has
    returned with nothing to log. *)
Definition result (r : Request) (key K tok : bytes) (s : hstate (captureWriter response))
    : option (Decision * bytes * response) :=
  let '(_, _, handlerErr, finished) := context_of r K tok in
  let scope := scope_of cfg r in
  let s := set_w (finalize (hs_w s)) s in
  let rec := cw_rec (hs_w s) in
  if finished (hs_boxes s) then None else
  match settled (capture_decision cfg scope key rec (policy cfg (Status rec) (handlerErr (hs_boxes s)))) with
  | Some ([], d) =>
      match settled (encode_payload cfg scope key rec d) with
      | Some ([], (d, p)) => Some (d, p, finish_response (cw_ResponseWriter (hs_w s)))
      | _ => None
      end
  | _ => None
  end.

(** The whole of it, when the handler stores nothing itself: the lines it
    logs, the decision, the payload and the response. *)
Record script := mkScript {
  sc_logs : list logline; sc_decision : Decision; sc_payload : bytes; sc_reply : response
}.
Definition performance (r : Request) (key tok : bytes) : option script :=
  match settled (served r (skey cfg r key) tok) with
  | Some (ls, (s, Returned)) =>
      '(d, p, rr) ← result r key (skey cfg r key) tok s; Some (mkScript ls d p rr)
  | _ => None
  end.
Definition script_of (r : Request) (key : bytes) : script :=
  default (mkScript [] Discard [] NewResponseRecorder) (performance r key []).

(** A part of a request that makes no store call and logs nothing. *)
Definition settles (p : prog (hstate response * outcome)) : bool :=
  match settled p with Some ([], (_, Returned)) => true | _ => false end.
Definition returns (p : prog (hstate response * outcome)) : bool :=
  match settled p with Some (_, (_, Returned)) => true | _ => false end.
Definition logs_of (p : prog (hstate response * outcome)) : list logline :=
  match settled p with Some (ls, _) => ls | None => [] end.
Definition reply_of (p : prog (hstate response * outcome)) : response :=
  match settled p with Some (_, (s, _)) => finish_response (hs_w s) | None => NewResponseRecorder end.

(** The recorder as the test sees it. *)
Definition recorded (x : hstate response * outcome) : response * outcome :=
  (finish_response (hs_w x.1), x.2).

(** The guards a request of the suite passes. *)
Definition passes_guards (method target key body : bytes) (mutate : list (Request → Request)) : bool :=
  let r := request method target key body mutate in
  bool_decide (ToUpper (r_Method r) ∈ methods cfg) &&
  match KeyFromHeader (r_Header r) with inl k => bool_decide (k = key) | inr _ => false end &&
  match keyValidator cfg with Some f => f key | None => true end &&
  match (readBody r (maxRequestBody cfg)).1 with inl (b, false) => bool_decide (b = body) | _ => false end.

Lemma passes_guards_ready method target key body mutate :
  passes_guards method target key body mutate = true →
  HttpClaims.ready cfg (request method target key body mutate)
    (buffered method target key body mutate) key body.
Proof.
  unfold passes_guards, buffered. cbv zeta.
  intros [[[Hm%bool_decide_eq_true Hk]%andb_true_iff Hv]%andb_true_iff Hb]%andb_true_iff.
  split; [done|]. split.
  { destruct (KeyFromHeader _) as [k|]; [|done]. by apply bool_decide_eq_true in Hk as ->. }
  split; [by intros f Hf; rewrite Hf in Hv|].
  destruct (readBody _ _) as [[[b []]|] r1]; simpl in *; try done.
  apply bool_decide_eq_true in Hb as ->. by exists r1.
Qed.

Section steps.
Context {S : Type} `{Store S}.
Implicit Types w : world S.

Lemma wp_do_request method target key body mutate (Q : response * outcome → world S → Prop) w :
  let r := buffered method target key body mutate in
  HttpClaims.ready cfg (request method target key body mutate) r key body →
  wp (call (Begin (skey cfg r key) (fprint r body) (options cfg)))
    (λ out w', wp (call (act r key out)) (λ x w'', Q (recorded x) w'') w') w →
  wp (call (do_request cfg h method target key body mutate)) Q w.
Proof.
  intros r Hr HQ. apply wp_call_bind. rewrite (ServeHTTP_ready _ _ _ _ _ _ _ _ Hr).
  apply wp_call_bind. eapply wp_mono; [exact HQ|]. intros out w' Hout. cbv beta.
  eapply wp_mono; [exact Hout|]. intros [s how] w'' HQ'. by apply wp_call.
Qed.

Lemma settles_eq p :
  settles p = true → ∃ x, p = Ret x ∧ x.2 = Returned ∧ finish_response (hs_w x.1) = reply_of p.
Proof.
  unfold settles, reply_of. destruct (settled p) as [[[|] [s []]]|] eqn:E; try done. intros _.
  exists (s, Returned). by rewrite (settled_eq _ _ _ E).
Qed.

Lemma wp_settles p (R : hstate response * outcome → world S → Prop) w :
  settles p = true → (∀ x, x.2 = Returned → finish_response (hs_w x.1) = reply_of p → R x w) →
  wp (call p) R w.
Proof.
  unfold settles, reply_of. destruct (settled p) as [[[|] [s []]]|] eqn:E; try done. intros _ HR.
  eapply wp_settled; [exact E|]. unfold add_logs. rewrite app_nil_r. destruct w. by apply HR.
Qed.

Lemma wp_returns p (R : hstate response * outcome → world S → Prop) w :
  returns p = true →
  (∀ x, x.2 = Returned → finish_response (hs_w x.1) = reply_of p → R x (add_logs (logs_of p) w)) →
  wp (call p) R w.
Proof.
  unfold returns, reply_of, logs_of. destruct (settled p) as [[ls [s []]]|] eqn:E; try done.
  intros _ HR. eapply wp_settled; [exact E|]. by apply HR.
Qed.

Lemma wp_returning r key K tok s d p rr (Q : hstate response * outcome → world S → Prop) w :
  result r key K tok s = Some (d, p, rr) →
  wp (call (Finish K tok d p (options cfg))) (λ x w',
    wp (call (after_finish cfg (scope_of cfg r) key K tok (options cfg) d x.1 x.2))
      (λ _ w'', ∀ x, recorded x = (rr, Returned) → Q x w'') w') w →
  wp (call (returning r key K tok (s, Returned))) Q w.
Proof.
  unfold result, returning. destruct (context_of r K tok) as [[[ctx b] he] fin].
  destruct (fin _); [done|]. cbv zeta.
  destruct (settled (capture_decision _ _ _ _ _)) as [[[|] d0]|] eqn:Hd; [|done..].
  destruct (settled (encode_payload _ _ _ _ d0)) as [[[|] [d1 p1]]|] eqn:Hp; [|done..].
  intros [= -> -> <-] HQ. apply wp_call_bind. unfold finish_response_record.
  rewrite (settled_bind _ _ _ _ Hd). cbn [foldr]. rewrite (settled_bind _ _ _ _ Hp). cbn [foldr].
  apply wp_call_bind. eapply wp_mono; [exact HQ|]. intros [lost err] w' HQ1. cbn [fst snd] in HQ1.
  eapply wp_mono; [exact HQ1|]. intros [] w'' HQ2. apply wp_call.
  by apply HQ2.
Qed.

Lemma performance_inv r key tok sc :
  performance r key tok = Some sc →
  ∃ s, settled (served r (skey cfg r key) tok) = Some (sc_logs sc, (s, Returned)) ∧
    result r key (skey cfg r key) tok s = Some (sc_decision sc, sc_payload sc, sc_reply sc).
Proof.
  unfold performance. destruct (settled (served _ _ _)) as [[ls [s []]]|] eqn:Hs; [|done..].
  destruct (result _ _ _ _ _) as [[[d p] rr]|] eqn:Hr; [|done]. intros [= <-]. eauto.
Qed.

Lemma wp_perform r key tok sc (Q : hstate response * outcome → world S → Prop) w :
  performance r key tok = Some sc →
  wp (call (Finish (skey cfg r key) tok (sc_decision sc) (sc_payload sc) (options cfg))) (λ x w',
    wp (call (after_finish cfg (scope_of cfg r) key (skey cfg r key) tok (options cfg)
                (sc_decision sc) x.1 x.2))
      (λ _ w'', ∀ x, recorded x = (sc_reply sc, Returned) → Q x w'') w') (add_logs (sc_logs sc) w) →
  wp (call (act r key (inl (mkOutcome Proceed tok [] 0)))) Q w.
Proof.
  intros (s & Hs & Hr)%performance_inv HQ. rewrite act_proceed. apply wp_call_bind.
  eapply wp_settled; [exact Hs|]. by eapply wp_returning.
Qed.

Lemma wp_do method target key body mutate (Q : response → world S → Prop) w :
  wp (call (do_request cfg h method target key body mutate))
    (λ x w', x.2 = Returned ∧ Q x.1 w') w →
  wp (do_ cfg h method target key body mutate) Q w.
Proof.
  intros HQ. apply wp_bind. eapply wp_mono; [exact HQ|]. intros [rr how] w' [Hhow HQ'].
  simpl in *. subst how. by apply wp_ret.
Qed.
End steps.
End requests.

(** The answer to a request in flight. *)
Definition conflict (rr : response) : Prop :=
  Code rr = 409 ∧ ∃ d, header_of "Retry-After" rr = retryAfterSeconds d.

Definition in_flight_answer (v : bytes) (r : Request) : prog (hstate response * outcome) :=
  serve (λ r, DefaultErrorWriter r 409 (Some (ErrInFlight : error)))
    (set_rs_header (Header.Set' (bs "Retry-After") v ∅) NewResponseRecorder) r b0.

Lemma in_flight_answer_settled v r :
  let p := in_flight_answer v r in
  settles p = true ∧ Code (reply_of p) = 409 ∧ header_of "Retry-After" (reply_of p) = v.
Proof. vm_compute. done. Qed.

Lemma act_in_flight cfg h r key d :
  errorWriter cfg = DefaultErrorWriter →
  let p := act cfg h r key (inl (mkOutcome RejectInFlight [] [] d)) in
  settles p = true ∧ conflict (reply_of p).
Proof.
  intros He. unfold act, WriteError. cbn [out_Action out_RetryAfter]. rewrite He.
  destruct (in_flight_answer_settled (retryAfterSeconds d) r) as (Hs & Hc & Hra).
  split; [exact Hs|]. split; [exact Hc|]. by exists d.
Qed.

(** ** Requests on a conforming store

    The same rules serve the store and the flaky one over it: [up] takes a
    world of the former to one of the latter, and [o] says which calls it
    passes on. *)
Class Carries {S S' : Type} `{Store S, Store S'} (up : world S → world S') (o : allowed) : Prop := {
  carries {A} (p : prog A) (Q : A → world S' → Prop) w :
    within o p → wp (call p) (λ a w', Q a (up w')) w → wp (call p) Q (up w);
  carries_logs ls w : add_logs ls (up w) = up (add_logs ls w);
}.

Definition everything : allowed := mkAllowed true true true true.

#[global] Instance carries_flaky {S} `{Store S} e : Carries (flaky (S:=S) e) (sparing e).
Proof. split; [|done]. intros. by apply wp_flaky. Qed.

#[global] Instance carries_id {S} `{Store S} : Carries (λ w : world S, w) everything.
Proof. by split. Qed.

(** With no error to inject, everything is passed on. *)
#[global] Instance carries_no_errs {S} `{Store S} : Carries (flaky (S:=S) no_errs) everything.
Proof. split; [|done]. intros. apply wp_flaky; [apply within_no_errs|done]. Qed.

Section exchanges.
Context {S S' : Type} `{Conforming S} `{Store S'} (up : world S → world S') (o : allowed) `{!Carries up o}.
Hypothesis Hres : may_reserve o = true.
Variables (cfg : config) (h : Handler) (method target key body : bytes) (mutate : list (Request → Request)).
Implicit Types (w : world S) (l : list logline).

Variables (r : Request) (K fp : bytes).

(** The request passes the guards and is about the key [K]. *)
Record asks : Prop := {
  as_ready : HttpClaims.ready cfg (request method target key body mutate) r key body;
  as_request : r = buffered cfg method target key body mutate;
  as_key : skey cfg r key = K;
  as_fingerprint : fprint r body = fp;
}.
Hypothesis Hasks : asks.

(** Up to Begin, on a store that takes reservations. *)
Lemma do_begin (Q : response → world S' → Prop) w :
  wp (call (Begin K fp (options cfg))) (λ out w', w_log w' = w_log w →
    wp (call (act cfg h r key out))
      (λ x v, x.2 = Returned ∧ Q (finish_response (hs_w x.1)) v) (up w')) w →
  wp (do_ cfg h method target key body mutate) Q (up w).
Proof.
  destruct Hasks as [Hr Hreq <- <-]. intros HQ. apply wp_do, wp_do_request; [by rewrite <-Hreq|].
  rewrite <-Hreq. apply (carries (up:=up)); [by apply within_Begin|].
  apply wp_silent; [by apply within_Begin|]. exact HQ.
Qed.

Lemma state_logs T rnd k x ls w : state T rnd k x w → state T rnd k x (add_logs ls w).
Proof. by intros []. Qed.

Lemma elsewhere_logs k ls w : elsewhere k w (add_logs ls w).
Proof. intros T rnd k' x _ Hs. apply (state_logs _ _ _ _ ls) in Hs as Hs'. by destruct Hs'; subst. Qed.

(** What is known of a key that a request has completed. *)
Record holds_result (p : bytes) (rc : Record) : Prop := {
  hr_state : rec_State rc = StateCompleted;
  hr_fingerprint : rec_Fingerprint rc = fp;
  hr_payload : rec_Payload rc = p;
}.

(** The first request under a key runs the handler; its response is stored. *)
Lemma do_first T b rnd (Q : response → world S' → Prop) w :
  may_complete o = true →
  (∀ tok, performance cfg h r key tok = Some (script_of cfg h r key)) →
  let sc := script_of cfg h r key in
  sc_decision sc = Persist →
  state T (inl b :: rnd) K None w → leases T w (options cfg) →
  T + 100 * Millisecond ≤ app_clock (w_now w) + Core.leaseTTL (options cfg) →
  usual (Core.recordTTL (options cfg)) →
  (∀ w' rc D, state T rnd K (Some (rc, D)) w' → holds_result (sc_payload sc) rc →
     w_log w' = w_log w ++ sc_logs sc →
     app_clock (w_now w) + Core.recordTTL (options cfg) ≤ D →
     app_clock (w_now w) ≤ app_clock (w_now w') → elsewhere K w w' → Q (sc_reply sc) (up w')) →
  wp (do_ cfg h method target key body mutate) Q (up w).
Proof.
  intros Hcom Hperf sc Hdec Hs Hl HT Hu HQ. apply do_begin. eapply wp_Begin_free_else; [exact Hs|exact Hl|].
  intros w1 r1 D1 S1 L1 HD1 Hi1 E1 Hlog1. eapply wp_perform; [apply Hperf|].
  fold sc. rewrite Hdec, (as_key Hasks),  carries_logs. apply (carries (up:=up)); [by apply within_Finish|].
  apply wp_silent; [by apply within_Finish|].
  destruct Hi1 as (_ & Hfp & Hst & Htok & _). simpl in *.
  eapply wp_Finish_persist_else; [apply state_logs, S1|lia|done|done|done|].
  intros w2 r2 S2 Hi2 L2 E2 Hlog2. cbn [fst snd]. apply wp_call. intros x Hx.
  change (finish_response (hs_w x.1)) with (recorded x).1. change x.2 with (recorded x).2.
  rewrite Hx. split; [done|]. simpl in *.
  destruct Hi2 as (_ & Hfp2 & Hst2 & _ & Hp2). simpl in *.
  eapply HQ; [exact S2|split; congruence|by rewrite Hlog2, Hlog1|lia|lia|].
  eauto using elsewhere_trans, elsewhere_logs.
Qed.

(** A later request meets the record. *)
Lemma do_again T b rnd rc D (Q : response → world S' → Prop) w :
  state T (inl b :: rnd) K (Some (rc, D)) w → T + 200 * Millisecond ≤ D → leases T w (options cfg) →
  (∀ w' ex D' now, state T rnd K (Some (rc, D)) w' → w_log w' = w_log w →
     same_identity rc ex → deadline ex = Some D' → app_clock (w_now w) ≤ app_clock (w_now w') →
     wp (call (act cfg h r key (decide_existing ex fp now)))
       (λ x v, x.2 = Returned ∧ Q (finish_response (hs_w x.1)) v) (up w')) →
  wp (do_ cfg h method target key body mutate) Q (up w).
Proof.
  intros Hs HD Hl HQ. apply do_begin. eapply wp_Begin_live; [exact Hs|exact HD|exact Hl|].
  intros w1 ex D' now S1 Hnow Hi HD' _ Hlog1. eapply HQ; [exact S1|exact Hlog1|exact Hi|exact HD'|lia].
Qed.

Lemma do_replay T b rnd rc D p (Q : response → world S' → Prop) w :
  state T (inl b :: rnd) K (Some (rc, D)) w → holds_result p rc →
  let again := act cfg h r key (inl (mkOutcome Replay [] p 0)) in
  settles again = true →
  T + 200 * Millisecond ≤ D → leases T w (options cfg) →
  (∀ w', state T rnd K (Some (rc, D)) w' → w_log w' = w_log w →
     app_clock (w_now w) ≤ app_clock (w_now w') → Q (reply_of again) (up w')) →
  wp (do_ cfg h method target key body mutate) Q (up w).
Proof.
  intros Hs [Hst Hfp Hp] again Hact HD Hl HQ. eapply do_again; [exact Hs|exact HD|exact Hl|].
  intros w1 ex D' now S1 Hlog Hi _ L1. rewrite (decide_replay rc ex fp now p Hi) by done.
  apply wp_settles; [exact Hact|]. intros x Hx ->. split; [done|]. by apply HQ.
Qed.

Lemma do_mismatch T b rnd rc D (Q : response → world S' → Prop) w :
  state T (inl b :: rnd) K (Some (rc, D)) w →
  let refused := act cfg h r key (inl (mkOutcome RejectFingerprintMismatch [] [] 0)) in
  settles refused = true →
  T + 200 * Millisecond ≤ D → leases T w (options cfg) →
  rec_State rc = StateCompleted → rec_Fingerprint rc ≠ fp →
  (∀ w', state T rnd K (Some (rc, D)) w' → w_log w' = w_log w →
     app_clock (w_now w) ≤ app_clock (w_now w') → Q (reply_of refused) (up w')) →
  wp (do_ cfg h method target key body mutate) Q (up w).
Proof.
  intros Hs refused Hact HD Hl Hst Hfp HQ. eapply do_again; [exact Hs|exact HD|exact Hl|].
  intros w1 ex D' now S1 Hlog Hi _ L1. rewrite (decide_mismatch rc ex fp now Hi) by done.
  apply wp_settles; [exact Hact|]. intros x Hx ->. split; [done|]. by apply HQ.
Qed.

Lemma do_conflict T b rnd rc D (Q : response → world S' → Prop) w :
  errorWriter cfg = DefaultErrorWriter →
  state T (inl b :: rnd) K (Some (rc, D)) w → T + 200 * Millisecond ≤ D → leases T w (options cfg) →
  rec_State rc = StateReserved →
  (∀ w' rr, state T rnd K (Some (rc, D)) w' → w_log w' = w_log w →
     app_clock (w_now w) ≤ app_clock (w_now w') → conflict rr → Q rr (up w')) →
  wp (do_ cfg h method target key body mutate) Q (up w).
Proof.
  intros He Hs HD Hl Hst HQ. eapply do_again; [exact Hs|exact HD|exact Hl|].
  intros w1 ex D' now S1 Hlog Hi HD' L1. rewrite (decide_reserved rc ex fp now D' Hi) by done.
  destruct (act_in_flight cfg h r key (Sub D' now) He) as [Hact Hc].
  apply wp_settles; [exact Hact|]. intros x Hx ->. split; [done|]. by apply HQ.
Qed.
End exchanges.

(** *** Requests that stop in their handler *)

Section stalls.
Context {S : Type} `{Conforming S}.
Variables (cfg : config) (h : Handler) (method target key body : bytes) (mutate : list (Request → Request)).
Variables (r : Request) (K fp : bytes).
Hypothesis Hasks : asks cfg method target key body mutate r K fp.
Implicit Types w : world S.
Let sc : script := script_of cfg h r key.

(** What is left of a request whose handler was resumed and has returned. *)
Definition stalled (tok : bytes) (k : prog (response * outcome)) : Prop :=
  ∃ s, result cfg r key K tok s = Some (sc_decision sc, sc_payload sc, sc_reply sc) ∧
    k = ('(s, how) ← returning cfg r key K tok (s, Returned); mret (finish_response (hs_w s), how)).

Lemma do_start T b rnd (Q : prog (response * outcome) → world S → Prop) w :
  (∀ tok, performance cfg h r key tok = Some sc) → sc_logs sc = [ran; entered] →
  state T (inl b :: rnd) K None w → leases T w (options cfg) →
  (∀ w' rc D k, state T rnd K (Some (rc, D)) w' → w_log w' = w_log w ++ [ran; entered] →
     rec_State rc = StateReserved → rec_Token rc = token_of b → rec_Fingerprint rc = fp →
     app_clock (w_now w) + Core.leaseTTL (options cfg) ≤ D
       ≤ app_clock (w_now w') + Core.leaseTTL (options cfg) →
     app_clock (w_now w) ≤ app_clock (w_now w') →
     stalled (token_of b) k → Q k w') →
  wp (start (do_request cfg h method target key body mutate)) Q w.
Proof.
  intros Hperf Hls Hs Hl HQ. destruct Hasks as [Hr Hreq HK <-]. rewrite <-HK in Hs. apply wp_start.
  apply wp_to_bind. rewrite (ServeHTTP_ready _ _ _ _ _ _ _ _ Hr).
  apply wp_to_bind_silent; [by apply within_Begin|]. apply wp_silent; [by apply within_Begin|].
  eapply wp_Begin_free; [exact Hs|exact Hl|]. intros w1 rc D S1 L1 HD Hi Hl1. cbv beta.
  change (wp_to entered (act cfg h r key (inl (mkOutcome Proceed (token_of b) [] 0)))
    (λ k w', Q ('(s, how) ← k; mret (finish_response (hs_w s), how)) w') w1).
  rewrite act_proceed. destruct (performance_inv _ _ _ _ _ _ (Hperf (token_of b))) as (s & Hse & Hres).
  rewrite (settled_eq _ _ _ Hse), Hls. destruct Hi as (_ & Hfp & Hst & Htok & _). simpl in Hfp, Hst, Htok.
  eexists _, _. split; [done|].
  apply (HQ _ rc D); [rewrite <-HK; apply (state_logs _ _ _ _ [entered]), (state_logs _ _ _ _ [ran]), S1| |done|done|done|exact HD|done|].
  - simpl. by rewrite Hl1, <-app_assoc.
  - exists s. by rewrite <-HK.
Qed.

Lemma resume_persist T rnd rc D tok k (Q : response → world S → Prop) w :
  stalled tok k → sc_decision sc = Persist →
  state T rnd K (Some (rc, D)) w → T + 100 * Millisecond ≤ D → rec_State rc = StateReserved →
  rec_Token rc = tok → rec_Fingerprint rc = fp → usual (Core.recordTTL (options cfg)) →
  (∀ w' rc D, state T rnd K (Some (rc, D)) w' → holds_result fp (sc_payload sc) rc →
     w_log w' = w_log w → app_clock (w_now w) + Core.recordTTL (options cfg) ≤ D →
     app_clock (w_now w) ≤ app_clock (w_now w') → Q (sc_reply sc) w') →
  wp (resume k) Q w.
Proof.
  intros (s & Hres & ->) Hdec Hs HD Hst Htok Hfp Hu HQ. rewrite Hdec in Hres.
  apply wp_bind, wp_call_bind. eapply wp_returning; [exact Hres|].
  apply wp_silent; [by apply within_Finish|]. eapply wp_Finish_persist; [exact Hs|done..|].
  intros w1 r1 S1 Hi L1 Hl1. apply wp_call. intros [s1 how] [= Hs1 ->]. apply wp_call, wp_ret.
  simpl in *. rewrite Hs1. destruct Hi as (_ & Hfp1 & Hst1 & _ & Hp1). simpl in *.
  eapply HQ; [exact S1|split; congruence|done|lia|done].
Qed.

(** The line a lost lease leaves. *)
Definition lost_line : logline :=
  mkLog LevelWarn (bs "httpidem: lease lost during execution; response returned but not stored for replay")
    (keyAttrs cfg (scope_of cfg r) key ++ [(bs "event", bs "lease_lost")]).

Lemma resume_over T rnd rc D tok k (Q : response → world S → Prop) w :
  stalled tok k → sc_decision sc = Persist →
  state T rnd K (Some (rc, D)) w → T + 100 * Millisecond ≤ D → rec_State rc = StateCompleted →
  usual (Core.recordTTL (options cfg)) →
  (∀ w', state T rnd K (Some (rc, D)) w' → w_log w' = w_log w ++ [lost_line] →
     app_clock (w_now w) ≤ app_clock (w_now w') → Q (sc_reply sc) w') →
  wp (resume k) Q w.
Proof.
  intros (s & Hres & ->) Hdec Hs HD Hst Hu HQ. rewrite Hdec in Hres.
  apply wp_bind, wp_call_bind. eapply wp_returning; [exact Hres|].
  apply wp_silent; [by apply within_Finish|]. eapply wp_Finish_over; [exact Hs|done|by rewrite Hst|done|].
  intros w1 S1 L1 Hl1. apply wp_call. intros [s1 how] [= Hs1 ->]. apply wp_call, wp_ret.
  simpl in *. rewrite Hs1. apply HQ; [by apply (state_logs _ _ _ _ [lost_line])|simpl; by rewrite Hl1|done].
Qed.
End stalls.

(** *** Requests whose store calls fail *)

Section failures.
Context {S : Type} `{Conforming S}.
Implicit Types w : world S.

Lemma wp_Begin_down T b rnd k x key fp opts e err (Q : Outcome + error → world (flakyStore S) → Prop) w :
  on_reserve e = Some err → Is err ErrAlreadyExists = false → state T (inl b :: rnd) k x w →
  (∀ w', state T rnd k x w' → w_log w' = w_log w → app_clock (w_now w) ≤ app_clock (w_now w') →
     Q (inr err) (flaky e w')) →
  wp (call (Begin key fp opts)) Q (flaky e w).
Proof.
  intros He Herr Hs HQ.
  apply wp_call_bind, wp_flaky; [by intros [?|?]|]. apply wp_silent; [by intros [?|?]|].
  eapply wp_newToken; [exact Hs|]. intros w1 S1 N1 Hl1.
  apply wp_call_bind, wp_flaky; [done|]. apply wp_silent; [done|].
  eapply wp_Now; [exact S1|]. intros w2 S2 L2 Hl2.
  apply wp_call_bind. eapply wp_Reserve_fails; [exact He|]. apply wp_call. rewrite Herr.
  rewrite N1 in L2. pose proof (advance_le w2).
  apply HQ; [by apply state_advance|by rewrite log_advance, Hl2|lia].
Qed.

Lemma wp_Finish_persist_fails key tok p opts e err (Q : bool * option error → world (flakyStore S) → Prop) w :
  on_complete e = Some err → lease_lost_error err = false →
  Q (false, Some err) (flaky e (advance w)) →
  wp (call (Finish key tok Persist p opts)) Q (flaky e w).
Proof.
  intros He Herr HQ. apply wp_call_bind. eapply wp_Complete_fails; [exact He|]. apply wp_call.
  change (Q (normalize (Some err)) (flaky e (advance w))). unfold normalize.
  unfold lease_lost_error in Herr. by rewrite Herr.
Qed.

Lemma wp_Finish_discard_fails key tok p opts e err (Q : bool * option error → world (flakyStore S) → Prop) w :
  on_release e = Some err → lease_lost_error err = false →
  Q (false, Some err) (flaky e (advance w)) →
  wp (call (Finish key tok Discard p opts)) Q (flaky e w).
Proof.
  intros He Herr HQ. apply wp_call_bind. eapply wp_Release_fails; [exact He|]. apply wp_call.
  change (Q (normalize (Some err)) (flaky e (advance w))). unfold normalize.
  unfold lease_lost_error in Herr. by rewrite Herr.
Qed.
End failures.

Section failing_requests.
Context {S : Type} `{Conforming S}.
Variables (cfg : config) (h : Handler) (method target key body : bytes) (mutate : list (Request → Request)).
Variables (r : Request) (K fp : bytes).
Hypothesis Hasks : asks cfg method target key body mutate r K fp.
Implicit Types w : world S.
Let sc : script := script_of cfg h r key.

(** Begin fails. *)
Lemma do_down T b rnd k x e err (Q : response → world (flakyStore S) → Prop) w :
  on_reserve e = Some err → Is err ErrAlreadyExists = false → state T (inl b :: rnd) k x w →
  let p := act cfg h r key (inr err) in
  returns p = true →
  (∀ w', state T rnd k x w' → w_log w' = w_log w ++ logs_of p →
     app_clock (w_now w) ≤ app_clock (w_now w') → Q (reply_of p) (flaky e w')) →
  wp (do_ cfg h method target key body mutate) Q (flaky e w).
Proof.
  intros He Herr Hs p Hp HQ. destruct Hasks as [Hr Hreq _ _]. apply wp_do, wp_do_request; [by rewrite <-Hreq|].
  rewrite <-Hreq. eapply wp_Begin_down; [exact He|exact Herr|exact Hs|]. intros w1 S1 Hl1 L1.
  apply wp_returns; [exact Hp|]. intros [s how] Hx Hrr. split; [done|]. simpl in Hrr. simpl. rewrite Hrr.
  apply (HQ (add_logs (logs_of p) w1)); [by apply state_logs|simpl; by rewrite Hl1|done].
Qed.

(** The lines a failed Finish leaves. *)
Definition persist_line (err : error) : logline :=
  mkLog LevelWarn (bs "httpidem: persisting response failed; idempotency temporarily weakened")
    (keyAttrs cfg (scope_of cfg r) key ++ error_attr err).
Definition best_effort_line (err : error) : logline :=
  mkLog LevelWarn (bs "httpidem: best-effort release failed; key stays reserved until lease expiry")
    (keyAttrs cfg (scope_of cfg r) key ++ error_attr err).
Definition release_line (err : error) : logline :=
  mkLog LevelWarn (bs "httpidem: releasing reservation failed; key stays reserved until lease expiry")
    (keyAttrs cfg (scope_of cfg r) key ++ error_attr err).

(** The first part of a request that finds its key free. *)
Lemma do_proceed T b rnd e (Q : response → world (flakyStore S) → Prop) w :
  on_reserve e = None → (∀ tok, performance cfg h r key tok = Some sc) →
  state T (inl b :: rnd) K None w → leases T w (options cfg) →
  (∀ w' rc D, state T rnd K (Some (rc, D)) w' → w_log w' = w_log w ++ sc_logs sc →
     rec_State rc = StateReserved → rec_Token rc = token_of b →
     app_clock (w_now w) + Core.leaseTTL (options cfg) ≤ D →
     app_clock (w_now w) ≤ app_clock (w_now w') →
     wp (call (Finish K (token_of b) (sc_decision sc) (sc_payload sc) (options cfg))) (λ x v,
       wp (call (after_finish cfg (scope_of cfg r) key K (token_of b) (options cfg) (sc_decision sc) x.1 x.2))
         (λ _ v', Q (sc_reply sc) v') v) (flaky e w')) →
  wp (do_ cfg h method target key body mutate) Q (flaky e w).
Proof.
  intros He Hperf Hs Hl HQ.
  eapply (do_begin (flaky e) (sparing e)); [by destruct e as [[] ? ?]|exact Hasks|].
  eapply wp_Begin_free; [exact Hs|exact Hl|]. intros w1 rc D S1 L1 HD Hi Hl1.
  eapply wp_perform; [apply Hperf|]. rewrite (as_key _ _ _ _ _ _ _ _ _ Hasks).
  destruct Hi as (_ & _ & Hst & Htok & _). simpl in Hst, Htok.
  eapply wp_mono; [eapply (HQ (add_logs (sc_logs sc) w1) rc D)|];
    [by apply state_logs|simpl; by rewrite Hl1|done|done|lia|done|].
  intros x v Hx. eapply wp_mono; [exact Hx|]. intros ? v' HQ' [s how] [= Hrr ->].
  split; [done|]. simpl in *. by rewrite Hrr.
Qed.

(** Complete fails: the key is released, or stays reserved when that fails
    as well. *)
Lemma do_persist_fails T b rnd e err (Q : response → world (flakyStore S) → Prop) w :
  on_reserve e = None → on_complete e = Some err → lease_lost_error err = false →
  (∀ err', on_release e = Some err' → lease_lost_error err' = false) →
  (∀ tok, performance cfg h r key tok = Some sc) → sc_decision sc = Persist →
  state T (inl b :: rnd) K None w → leases T w (options cfg) →
  T + 100 * Millisecond ≤ app_clock (w_now w) + Core.leaseTTL (options cfg) →
  (∀ w' x, state T rnd K x w' →
     match on_release e with
     | None => x = None ∧ w_log w' = w_log w ++ sc_logs sc ++ [persist_line err]
     | Some err' => w_log w' = w_log w ++ sc_logs sc ++ [persist_line err; best_effort_line err'] ∧
         ∃ rc D, x = Some (rc, D) ∧ rec_State rc = StateReserved ∧
           app_clock (w_now w) + Core.leaseTTL (options cfg) ≤ D
     end → app_clock (w_now w) ≤ app_clock (w_now w') → Q (sc_reply sc) (flaky e w')) →
  wp (do_ cfg h method target key body mutate) Q (flaky e w).
Proof.
  intros Hr Hc Herr Herr' Hperf Hdec Hs Hl HT HQ. eapply do_proceed; [done|done|exact Hs|exact Hl|].
  intros w1 rc D S1 Hl1 Hst Htok HD L1. rewrite Hdec. pose proof (advance_le w1).
  eapply wp_Finish_persist_fails; [exact Hc|exact Herr|]. apply wp_call_bind.
  eapply wp_settled; [done|]. apply wp_call_bind.
  set (w2 := add_logs [persist_line err] (advance w1)).
  assert (state T rnd K (Some (rc, D)) w2) as S2 by by apply state_logs, state_advance.
  assert (w_log w2 = w_log w ++ sc_logs sc ++ [persist_line err]) as Hl2
    by (simpl; by rewrite log_advance, Hl1, <-app_assoc).
  change (add_logs _ (flaky e (advance w1))) with (flaky e w2).
  destruct (on_release e) as [err'|] eqn:Hrel.
  - eapply wp_Finish_discard_fails; [exact Hrel|by apply Herr'|]. eapply wp_settled; [done|].
    pose proof (advance_le w2).
    apply (HQ (add_logs [best_effort_line err'] (advance w2)) (Some (rc, D)));
      [by apply state_logs, state_advance| |simpl in *; lia].
    split; [cbn [w_log add_logs]; by rewrite log_advance, Hl2, <-!app_assoc|]. by exists rc, D.
  - apply (carries (up:=flaky e) (o:=sparing e)).
    { apply within_Finish; [done|]. intros _. by destruct e as [? ? []]. }
    apply wp_silent; [by apply within_Finish|].
    eapply wp_Finish_discard; [exact S2|lia|done|done|]. intros w3 S3 L3 Hl3. apply wp_call.
    apply (HQ w3 None); [done| |simpl in *; lia]. split; [done|]. by rewrite Hl3, Hl2.
Qed.

(** Release fails: the key stays reserved. *)
Lemma do_discard_fails T b rnd e err (Q : response → world (flakyStore S) → Prop) w :
  on_reserve e = None → on_release e = Some err → lease_lost_error err = false →
  (∀ tok, performance cfg h r key tok = Some sc) → sc_decision sc = Discard →
  state T (inl b :: rnd) K None w → leases T w (options cfg) →
  (∀ w' rc D, state T rnd K (Some (rc, D)) w' → rec_State rc = StateReserved →
     app_clock (w_now w) + Core.leaseTTL (options cfg) ≤ D →
     w_log w' = w_log w ++ sc_logs sc ++ [release_line err] →
     app_clock (w_now w) ≤ app_clock (w_now w') → Q (sc_reply sc) (flaky e w')) →
  wp (do_ cfg h method target key body mutate) Q (flaky e w).
Proof.
  intros Hr Hc Herr Hperf Hdec Hs Hl HQ. eapply do_proceed; [done|done|exact Hs|exact Hl|].
  intros w1 rc D S1 Hl1 Hst Htok HD L1. rewrite Hdec. pose proof (advance_le w1).
  eapply wp_Finish_discard_fails; [exact Hc|exact Herr|]. eapply wp_settled; [done|].
  apply (HQ (add_logs [release_line err] (advance w1)) rc D);
    [by apply state_logs, state_advance|done|done| |simpl; lia].
  simpl. by rewrite log_advance, Hl1, <-app_assoc.
Qed.
End failing_requests.
