(* ===== verification/SuiteRace.v ===== *)
(** * Goroutines that send the same request

    One of them finds the key free, runs the handler and completes the
    record; the others are told of the reservation or are given the stored
    response, whatever the order of all their calls. *)
From S2P Require Import Prelude GoLib GoHttp Errors Record Store Effects Core CoreSpec Key.
From S2P Require Import StoredResponse Context Http Recorder Problem Config.
From S2P Require Import Middleware MiddlewareSpec HttpClaims.
From S2P Require Import Testing Conforming Idemleasetest SuiteStore SuiteMachine Httpidemtest HttpRules.
Import Time httpidem middleware httpidemtest.
Import Conforming(ready).
Import idemleasetest(errors_Is, isNil, ne, got_where, state_is).
Local Open Scope Z_scope.

Abbreviation reply := (response * outcome)%type.

(** ** The points a request passes *)

Section points.
Context {S : Type} `{HC : Conforming S}.
Variables (cfg : config) (h : Handler) (method target key body : bytes).
Variables (r : Request) (K fp : bytes).
Hypothesis Hasks : asks cfg method target key body [] r K fp.
Implicit Types w : world S.
Let o : Options := options cfg.
Let sc : script := script_of cfg h r key.

(** The request is the default one: its lease and its record last. *)
Hypothesis lasting : 30 * Second ≤ Core.leaseTTL o ≤ longest ∧ usual (Core.recordTTL o) ∧
  30 * Second ≤ Core.recordTTL o.
Hypothesis default_errors : errorWriter cfg = DefaultErrorWriter.
Hypothesis plays : ∀ tok, performance cfg h r key tok = Some sc.
Hypothesis persists : sc_decision sc = Persist.
Hypothesis runs_once : sc_logs sc = [ran].
Let again := act cfg h r key (inl (mkOutcome Replay [] (sc_payload sc) 0)).
Hypothesis replays : settles again = true ∧ Code (reply_of again) = 201 ∧ replayed (reply_of again) = bs "true".

(** A request whose Begin has come to [p]. *)
Definition at_ (p : prog answer) : prog reply :=
  '(s, how) ← (p ≫= act cfg h r key); mret (finish_response (hs_w s), how).

Lemma at_begins : do_request cfg h method target key body [] = at_ (begins K fp o).
Proof.
  destruct Hasks as [Hr _ <- <-]. unfold do_request. by rewrite (ServeHTTP_ready _ _ _ _ _ _ _ _ Hr).
Qed.

Lemma step_at p q w w' :
  step_prog p w = (q, w') → match p with Ret _ => False | _ => True end →
  step_prog (at_ p) w = (at_ q, w').
Proof.
  intros Hs Hp. destruct p; try done; unfold at_, mbind, prog_mbind; simpl in *;
    try match goal with H : context [let '(_, _) := ?e in _] |- _ => destruct e end; by simplify_eq.
Qed.

(** What the others can meet under the key, and what they answer. *)
Definition met (ex : Record) : Prop :=
  rec_State ex = StateReserved ∨ holds_result fp (sc_payload sc) ex.
Definition repeated (x : reply) : Prop :=
  x.2 = Returned ∧ (Code x.1 = 409 ∨ Code x.1 = 201 ∧ replayed x.1 = bs "true").

Lemma met_reported rc ex : same_identity rc ex → met rc → met ex.
Proof.
  intros (_ & Hf & Hs & _ & Hp) [Hr|[Hr Hfp Hpay]]; [left; congruence|].
  right. split; congruence.
Qed.

Lemma at_settled out :
  settles (act cfg h r key out) = true →
  ∃ x, at_ (Ret out) = Ret x ∧ x.2 = Returned ∧ x.1 = reply_of (act cfg h r key out).
Proof.
  intros ([s how] & Hact & Hhow & Hrr)%settles_eq. exists (finish_response (hs_w s), how).
  split; [|by split]. unfold at_.
  change (Ret out ≫= act cfg h r key) with (act cfg h r key out). by rewrite Hact.
Qed.

Lemma at_decided ex now D :
  met ex → deadline ex = Some D →
  ∃ x, at_ (Ret (decide_existing ex fp now)) = Ret x ∧ repeated x.
Proof using HC default_errors replays.
  intros [Hr|[Hr Hfp Hpay]] HD.
  - rewrite (decide_reserved ex ex fp now D) by done.
    destruct (act_in_flight cfg h r key (Sub D now) default_errors) as [Hs [Hc _]].
    destruct (at_settled _ Hs) as (x & Hx & Hret & Hrr). exists x. split; [done|].
    split; [done|]. left. by rewrite Hrr.
  - rewrite (decide_replay ex ex fp now (sc_payload sc)) by done.
    destruct replays as (Hs & Hc & Hrep). destruct (at_settled _ Hs) as (x & Hx & Hret & Hrr).
    exists x. split; [done|]. split; [done|]. right. by rewrite Hrr.
Qed.

(** The winner runs its handler, then completes the record. *)
Abbreviation stalled := (stalled cfg h key r K).

Lemma at_proceed tok :
  ∃ k, at_ (Ret (inl (mkOutcome Proceed tok [] 0))) = CallLog ran k ∧ stalled tok k.
Proof using HC Hasks plays runs_once.
  unfold at_. change (Ret ?a ≫= act cfg h r key) with (act cfg h r key a). rewrite act_proceed.
  rewrite (as_key _ _ _ _ _ _ _ _ _ Hasks).
  destruct (performance_inv _ _ _ _ _ _ (plays tok)) as (s & Hse & Hres).
  rewrite (as_key _ _ _ _ _ _ _ _ _ Hasks) in Hse, Hres.
  rewrite (settled_eq _ _ _ Hse), runs_once. eexists. split; [done|]. by exists s.
Qed.

Lemma stalled_complete tok k :
  stalled tok k →
  ∃ f, k = CallComplete K tok (sc_payload sc) (Core.recordTTL o) f ∧
    f None = Ret (sc_reply sc, Returned).
Proof using HC persists.
  intros (s & Hres & ->). unfold result in Hres. unfold returning.
  destruct (context_of cfg r K tok) as [[[ctx b] he] fin]. destruct (fin _); [done|].
  cbv zeta in *. unfold finish_response_record.
  destruct (settled (capture_decision _ _ _ _ _)) as [[[|] d0]|] eqn:Hd; [|done..].
  destruct (settled (encode_payload _ _ _ _ d0)) as [[[|] [d1 p1]]|] eqn:Hp; [|done..].
  injection Hres as Hdec Hpay Hrr.
  rewrite (settled_bind _ _ _ _ Hd). cbn [foldr]. rewrite (settled_bind _ _ _ _ Hp). cbn [foldr].
  subst d1 p1. fold sc. rewrite persists. eexists. split; [done|]. simpl. by rewrite Hrr.
Qed.

Lemma step_stalled T rnd rc D k w :
  stalled (rec_Token rc) k → state T rnd K (Some (rc, D)) w → T + 100 * Millisecond ≤ D →
  rec_State rc = StateReserved → rec_Fingerprint rc = fp →
  ∃ w' rc', step_prog k w = (Ret (sc_reply sc, Returned), w') ∧
    state T rnd K (Some (rc', app_clock (w_now w') + Core.recordTTL o)) w' ∧
    holds_result fp (sc_payload sc) rc' ∧
    w_log w' = w_log w ∧ app_clock (w_now w) ≤ app_clock (w_now w').
Proof using HC lasting persists.
  intros (f & -> & Hf)%stalled_complete Hs HD Hst Hfp.
  destruct (wp_Complete_held T rnd K rc D w (rec_Token rc) (sc_payload sc) (Core.recordTTL o)
    (λ x w', x = None ∧ ∃ rc', state T rnd K (Some (rc', app_clock (w_now w') + Core.recordTTL o)) w' ∧
       holds_result fp (sc_payload sc) rc' ∧ app_clock (w_now w) ≤ app_clock (w_now w')) Hs)
    as (x & w' & E & -> & rc' & Hs' & Hr' & Hle); [done..|by destruct lasting as (_ & ? & _)| |].
  { intros w' rc' Hs' (_ & Hfp' & Hst' & _ & Hp') Hle. simpl in *. split; [done|]. exists rc'.
    split; [done|]. split; [split; congruence|done]. }
  unfold call in E. pose proof (run_silent (s_Complete K (rec_Token rc) (sc_payload sc) (Core.recordTTL o)) w
    ltac:(done)) as Hlog.
  exists w', rc'. simpl in E, Hlog |- *. destruct (Store.Complete _ _ _ _ _ _) as [st y]. simpl in Hlog.
  injection E as -> <-. rewrite Hf. by split_and!.
Qed.

(** ** The goroutines *)

Definition waits (A now : Time) (i : nat) (p : prog reply) : Prop :=
  p = at_ (begins K fp o) ∨ ∃ tok, p = at_ (loops K fp o tok) ∨
    ∃ t, A ≤ t ≤ now ∧ p = at_ (reserves K fp o tok t).
Definition told (T : Time) (j : nat) (p : prog reply) : Prop :=
  (∃ tok ex D, p = at_ (looks K fp o tok ex) ∧ met ex ∧ deadline ex = Some D ∧ T < D) ∨
  ∃ x, p = Ret x ∧ repeated x.

Lemma racing_mono A now now' i p : now ≤ now' → waits A now i p → waits A now' i p.
Proof.
  intros Hle [->|(tok & [->|(t & ? & ->)])]; [by left|right..].
  - exists tok. by left.
  - exists tok. right. exists t. split; [lia|done].
Qed.

(** How often the handler has run. *)
Definition runs w : nat := length (filter (λ l, l = ran) (w_log w)).

(** The winner and the record, in the order of its calls. *)
Definition winning (p : prog reply) (rc : Record) (n : nat) : Prop :=
  (rec_State rc = StateReserved ∧ rec_Fingerprint rc = fp ∧
    ((n = 0%nat ∧ ∃ k, p = CallLog ran k ∧ stalled (rec_Token rc) k) ∨
     (n = 1%nat ∧ stalled (rec_Token rc) p))) ∨
  (holds_result fp (sc_payload sc) rc ∧ n = 1%nat ∧ p = Ret (sc_reply sc, Returned)).

Definition standing (T : Time) (won : option nat) (x : option (Record * Time)) (ps : list (prog reply))
    (n : nat) : Prop :=
  match won, x with
  | None, None => n = 0%nat
  | Some j, Some (rc, D) =>
      T + 200 * Millisecond ≤ D ∧ ∃ p, ps !! j = Some p ∧ winning p rc n
  | _, _ => False
  end.

Record racing (A T : Time) (won : option nat) (x : option (Record * Time)) (bl : list bytes)
    (rest : list (bytes + error)) (ps : list (prog reply)) w : Prop := {
  rc_since : A ≤ app_clock (w_now w);
  rc_draws : (draws ps ≤ length bl)%nat;
  rc_state : state T ((inl <$> bl) ++ rest) K x w;
  rc_others : others (waits A) (told T) (app_clock (w_now w)) won ps;
  rc_standing : standing T won x ps (runs w);
}.
Definition race (A T : Time) (ps : list (prog reply)) w : Prop :=
  ∃ won x bl rest, racing A T won x bl rest ps w.

Lemma winning_met p rc n : winning p rc n → met rc.
Proof. intros [(Hr & _)|(Hr & _)]; [by left|by right]. Qed.

(** A goroutine that has not won moves on. *)
Lemma race_move A T won x bl bl' rest ps w w' n p q :
  racing A T won x bl rest ps w → ps !! n = Some p → won ≠ Some n →
  (length bl + drawing q ≤ length bl' + drawing p)%nat →
  state T ((inl <$> bl') ++ rest) K x w' → w_log w' = w_log w →
  app_clock (w_now w) ≤ app_clock (w_now w') →
  waits A (app_clock (w_now w')) n q ∨ (∃ j, won = Some j ∧ told T j q) →
  race A T (<[n := q]> ps) w'.
Proof.
  intros [HA Hd _ Ho Hst] Hn Hwon Hbl Hs Hl Hle Hq. exists won, x, bl', rest.
  pose proof (draws_insert _ _ _ q Hn). split; [lia|lia|done|..].
  - eapply (others_insert _ _ (racing_mono A)); [exact Hle|by left|by right|exact Ho].
  - unfold runs. rewrite Hl. unfold standing in *. destruct won as [j|], x as [[rc D]|]; try done.
    destruct Hst as (HD & p' & Hj & Hw). split; [done|]. exists p'. split; [|done].
    rewrite list_lookup_insert_ne; [done|]. intros ->. done.
Qed.

Lemma race_begin A T won x bl rest ps w n :
  racing A T won x bl rest ps w → ps !! n = Some (at_ (begins K fp o)) → won ≠ Some n →
  race A T (<[n := (step_prog (at_ (begins K fp o)) w).1]> ps) (step_prog (at_ (begins K fp o)) w).2.
Proof.
  intros Hr Hn Hwon. pose proof (draws_le _ _ _ Hn) as Hdr. change (drawing (at_ (begins K fp o))) with 1%nat in Hdr.
  pose proof (rc_draws _ _ _ _ _ _ _ _ Hr). pose proof (rc_state _ _ _ _ _ _ _ _ Hr) as Hs.
  destruct bl as [|b bl]; [simpl in *; lia|].
  erewrite (step_at (begins K fp o)); [|apply (step_begins _ _ _ b ((inl <$> bl) ++ rest));
    by rewrite (st_rand _ _ _ _ _ Hs)|done]. cbn [fst snd].
  eapply (race_move _ _ _ _ _ bl); [exact Hr|exact Hn|exact Hwon|simpl; lia| |done|done|].
  - by destruct Hs.
  - left. right. exists (token_of b). by left.
Qed.

Lemma race_loop A T won x bl rest ps w n tok :
  racing A T won x bl rest ps w → ps !! n = Some (at_ (loops K fp o tok)) → won ≠ Some n →
  race A T (<[n := (step_prog (at_ (loops K fp o tok)) w).1]> ps)
    (step_prog (at_ (loops K fp o tok)) w).2.
Proof.
  intros Hr Hn Hwon. pose proof (rc_since _ _ _ _ _ _ _ _ Hr). pose proof (advance_le w).
  erewrite (step_at (loops K fp o tok)); [|apply step_loops|done]. cbn [fst snd].
  eapply (race_move _ _ _ _ _ bl); [exact Hr|exact Hn|exact Hwon|done| |apply log_advance|done|].
  - apply state_advance, (rc_state _ _ _ _ _ _ _ _ Hr).
  - left. right. exists tok. right. eexists. split; [|done]. lia.
Qed.

Lemma race_look A T won x bl rest ps w n tok ex D :
  racing A T won x bl rest ps w → ps !! n = Some (at_ (looks K fp o tok ex)) → won ≠ Some n →
  is_Some won → met ex → deadline ex = Some D → T < D →
  race A T (<[n := (step_prog (at_ (looks K fp o tok ex)) w).1]> ps)
    (step_prog (at_ (looks K fp o tok ex)) w).2.
Proof using HC default_errors replays.
  intros Hr Hn Hwon [j Hj] Hmet HD HT. pose proof (advance_le w).
  pose proof (state_advance _ _ _ _ _ (rc_state _ _ _ _ _ _ _ _ Hr)) as S1.
  pose proof (state_now _ _ _ _ _ S1).
  erewrite (step_at (looks K fp o tok ex)); [|apply step_looks; eapply reported_live; [exact HD|lia]|done].
  cbn [fst snd].
  destruct (at_decided ex (app_clock (w_now (advance w))) D Hmet HD) as (y & Hy & Hrep).
  eapply (race_move _ _ _ _ _ bl); [exact Hr|exact Hn|exact Hwon| |exact S1|apply log_advance|done|].
  - rewrite Hy. simpl. lia.
  - right. exists j. split; [done|]. right. by exists y.
Qed.

Lemma step_at_reserves tok t w :
  step_prog (at_ (reserves K fp o tok t)) w =
    let '(x, w') := run (s_Reserve (begin_record K fp tok o t)) w in (at_ (reserved_then K fp o tok x), w').
Proof.
  pose proof (step_Reserve (begin_record K fp tok o t) (reserved_then K fp o tok) w) as Hs.
  destruct (run _ w) as [x w'] eqn:E. by apply (step_at (reserves K fp o tok t)).
Qed.

(** One goroutine finds the key free: it has won. *)
Lemma race_claim A T bl rest ps w n tok t :
  T ≤ A + Second → A ≤ t ≤ app_clock (w_now w) →
  racing A T None None bl rest ps w → ps !! n = Some (at_ (reserves K fp o tok t)) →
  race A T (<[n := (step_prog (at_ (reserves K fp o tok t)) w).1]> ps)
    (step_prog (at_ (reserves K fp o tok t)) w).2.
Proof using HC Hasks lasting plays runs_once.
  intros HT Ht [HA Hd Hs Ho Hst] Hn. rewrite step_at_reserves.
  destruct (wp_silent (s_Reserve (begin_record K fp tok o t))
    (λ y w', y = (None, None) ∧ w_log w' = w_log w ∧ app_clock (w_now w) ≤ app_clock (w_now w') ∧
       ∃ rc, state T ((inl <$> bl) ++ rest) K (Some (rc, t + Core.leaseTTL o)) w' ∧
         rec_State rc = StateReserved ∧ rec_Token rc = tok ∧ rec_Fingerprint rc = fp) w)
    as (y & w' & E & -> & Hl & Hle & rc & Hs' & Hrs & Htok & Hfp); [done| |].
  { eapply wp_Reserve_free; [exact Hs|done|done| |].
    - destruct lasting as ([? ?] & _). pose proof pace_small. simpl. unfold Add.
      unfold shortTTL, Second, Millisecond in *. lia.
    - intros w' rc Hs' (_ & Hfp & Hrs & Htok & _) Hle Hl. do 3 (split; [done|]). by exists rc. }
  unfold call in E. destruct (run _ w) as [y1 w1]. injection E as -> ->. cbn [fst snd].
  destruct (at_proceed tok) as (k & Hk & Hstalled).
  change (at_ (reserved_then K fp o tok (None, None)))
    with (at_ (Ret (inl (mkOutcome Proceed tok [] 0)))). rewrite Hk.
  exists (Some n), (Some (rc, t + Core.leaseTTL o)), bl, rest.
  pose proof (draws_insert _ _ _ (CallLog ran k) Hn) as Hdr. simpl in Hdr. split; [lia|lia|done|..].
  - eapply (others_insert _ _ (racing_mono A)); [exact Hle|by right|by left|exact Ho].
  - split; [destruct lasting as ([? ?] & _); unfold Second, Millisecond in *; lia|].
    exists (CallLog ran k). split; [by rewrite list_lookup_insert_eq by by eapply lookup_lt_Some|].
    left. do 2 (split; [done|]). left. simpl in Hst. split; [by unfold runs; rewrite Hl|].
    exists k. by rewrite Htok.
Qed.

(** The others are told of the record. *)
Lemma race_refused A T j rc D bl rest ps w n tok t :
  T ≤ A + Second → A ≤ t ≤ app_clock (w_now w) →
  racing A T (Some j) (Some (rc, D)) bl rest ps w → ps !! n = Some (at_ (reserves K fp o tok t)) →
  j ≠ n →
  race A T (<[n := (step_prog (at_ (reserves K fp o tok t)) w).1]> ps)
    (step_prog (at_ (reserves K fp o tok t)) w).2.
Proof using HC lasting.
  intros HT Ht Hr Hn Hj. rewrite step_at_reserves.
  pose proof (rc_state _ _ _ _ _ _ _ _ Hr) as Hs.
  destruct (rc_standing _ _ _ _ _ _ _ _ Hr) as (HD & p & Hp & Hw).
  destruct (wp_silent (s_Reserve (begin_record K fp tok o t))
    (λ y w', state T ((inl <$> bl) ++ rest) K (Some (rc, D)) w' ∧ w_log w' = w_log w ∧
       app_clock (w_now w) ≤ app_clock (w_now w') ∧
       ∃ ex e D', y = (Some ex, Some e) ∧ Is e ErrAlreadyExists = true ∧ met ex ∧
         deadline ex = Some D' ∧ T < D') w)
    as (y & w' & E & Hs' & Hl & Hle & ex & e & D' & -> & He & Hmet & HD' & Hlt); [done| |].
  { eapply wp_Reserve_live; [exact Hs|done|done|unfold Millisecond in *; lia| |].
    - destruct lasting as ([? ?] & _). pose proof pace_small. simpl. unfold Add.
      unfold shortTTL, Second, Millisecond in *. lia.
    - intros w' ex e D' Hs' Hle He Hi HD' Hc Hl. do 3 (split; [done|]). exists ex, e, D'.
      pose proof tolerance_small. split_and!; try done; [|unfold Millisecond in *; lia].
      eapply met_reported; [exact Hi|]. by eapply winning_met. }
  unfold call in E. destruct (run _ w) as [y1 w1]. injection E as -> ->. cbn [fst snd].
  assert (reserved_then K fp o tok (Some ex, Some e) = looks K fp o tok ex) as ->
    by (simpl; by rewrite He).
  eapply (race_move _ _ _ _ _ bl); [exact Hr|exact Hn|congruence|simpl; lia|done|done|done|].
  right. exists j. split; [done|]. left. by exists tok, ex, D'.
Qed.

(** The winner moves on. *)
Lemma race_win A T n x bl rest ps w p :
  T ≤ A + Second → racing A T (Some n) x bl rest ps w → ps !! n = Some p →
  race A T (<[n := (step_prog p w).1]> ps) (step_prog p w).2.
Proof using HC lasting persists.
  intros HT [HA Hd Hs Ho Hst] Hn. destruct x as [[rc D]|]; [|done].
  destruct Hst as (HD & p' & Hp' & Hw). rewrite Hn in Hp'. injection Hp' as <-.
  destruct Hw as [(Hrs & Hfp & [[Hruns (k & -> & Hk)]|[Hruns Hk]])|(Hres & Hruns & ->)].
  - exists (Some n), (Some (rc, D)), bl, rest. cbn [step_prog fst snd].
    pose proof (draws_insert _ _ _ k Hn) as Hdr.
    assert (drawing k = 0%nat) as Hk0 by (by destruct (stalled_complete _ _ Hk) as (f & -> & _)).
    simpl in Hdr. split; [done|lia|by apply (state_logs _ _ _ _ [ran])|..].
    + eapply (others_insert _ _ (racing_mono A)); [apply Z.le_refl|by left|by left|exact Ho].
    + split; [done|]. exists k. split; [by rewrite list_lookup_insert_eq by by eapply lookup_lt_Some|].
      left. do 2 (split; [done|]). right. split; [|done]. unfold runs in *. simpl.
      rewrite filter_app, length_app, Hruns. done.
  - destruct (step_stalled T _ rc D p w Hk Hs) as (w' & rc' & Hstep & Hs' & Hres' & Hl & Hle);
      [unfold Millisecond in *; lia|done|done|].
    rewrite Hstep. cbn [fst snd].
    exists (Some n), (Some (rc', app_clock (w_now w') + Core.recordTTL o)), bl, rest.
    pose proof (draws_insert _ _ _ (Ret (sc_reply sc, Returned)) Hn) as Hdr. simpl in Hdr.
    pose proof (state_now _ _ _ _ _ Hs').
    split; [lia|lia|done|..].
    + eapply (others_insert _ _ (racing_mono A)); [exact Hle|by left|by left|exact Ho].
    + split; [destruct lasting as (_ & _ & ?); unfold Second, Millisecond in *; lia|].
      eexists. split; [by rewrite list_lookup_insert_eq by by eapply lookup_lt_Some|].
      right. split; [done|]. split; [by unfold runs in *; rewrite Hl|done].
  - simpl. rewrite list_insert_id by done. exists (Some n), (Some (rc, D)), bl, rest.
    split; [done..|]. split; [done|]. eexists. split; [done|]. by right.
Qed.

Lemma racing_step A T ps w n p :
  T ≤ A + Second → race A T ps w → ps !! n = Some p →
  race A T (<[n := (step_prog p w).1]> ps) (step_prog p w).2.
Proof using HC Hasks lasting default_errors plays persists runs_once replays.
  intros HT (won & x & bl & rest & Hr) Hn. destruct (decide (won = Some n)) as [->|Hwon].
  { by eapply race_win. }
  destruct (rc_others _ _ _ _ _ _ _ _ Hr n p Hwon Hn)
    as [[->|(tok & [->|(t & Ht & ->)])]|(j & -> & [(tok & ex & D & -> & Hmet & HD & Hlt)|(y & -> & Hy)])].
  - by eapply race_begin.
  - by eapply race_loop.
  - pose proof (rc_standing _ _ _ _ _ _ _ _ Hr). destruct won as [j|], x as [[rc D]|]; try done.
    + eapply race_refused; [done|done|exact Hr|done|congruence].
    + by eapply race_claim.
  - by eapply race_look.
  - simpl. rewrite list_insert_id by done. by exists (Some j), x, bl, rest.
Qed.

(** When all have returned, one has run the handler, and the others repeat
    its answer or are in conflict with it. *)
Definition settled_race (l : list reply) (j : nat) : Prop :=
  l !! j = Some (sc_reply sc, Returned) ∧ ∀ i y, i ≠ j → l !! i = Some y → repeated y.

Lemma racing_over A T l w :
  race A T (Ret <$> l) w → l ≠ [] →
  ∃ j rnd x, settled_race l j ∧ state T rnd K x w ∧ runs w = 1%nat.
Proof using HC persists.
  intros (won & x & bl & rest & [HA Hd Hs Ho Hst]) Hl.
  assert (∀ i y, won ≠ Some i → l !! i = Some y → is_Some won ∧ repeated y) as Hrep.
  { intros i y Hi Hy. assert ((Ret <$> l) !! i = Some (Ret y : prog reply)) as Hi'
      by by rewrite list_lookup_fmap, Hy.
    destruct (Ho _ _ Hi Hi')
      as [[?|(tok & [?|(t & _ & ?)])]|(j & -> & [(tok & ex & D & ? & _)|(z & [= <-] & ?)])]; done. }
  destruct won as [j|].
  - destruct x as [[rc D]|]; [|done]. destruct Hst as (HD & p & Hj & Hw).
    rewrite list_lookup_fmap in Hj. destruct (l !! j) as [y|] eqn:Hy; [|done]. injection Hj as <-.
    destruct Hw as [(_ & _ & [[_ (k & ? & _)]|[_ Hk]])|(_ & Hruns & [= ->])]; [done|..].
    { by apply stalled_complete in Hk as (f & ? & _). }
    exists j, ((inl <$> bl) ++ rest), (Some (rc, D)). split; [|done]. split; [done|].
    intros i z Hi Hz. apply (Hrep i z); [congruence|done].
  - destruct l as [|y l]; [done|]. by destruct (Hrep 0%nat y) as [[? ?] _].
Qed.

Lemma wp_posts T bl rest w sch n (Q : list reply → world S → Prop) :
  state T ((inl <$> bl) ++ rest) K None w → T ≤ app_clock (w_now w) + Second →
  (0 < n ≤ length bl)%nat → runs w = 0%nat →
  (∀ w' l j rnd x, settled_race l j → state T rnd K x w' → runs w' = 1%nat →
     app_clock (w_now w) ≤ app_clock (w_now w') → Q l w') →
  wp (Go sch (replicate n (do_request cfg h method target key body []))) Q w.
Proof using HC Hasks lasting default_errors plays persists runs_once replays.
  intros Hs HT Hn Hruns HQ. rewrite at_begins. set (A := app_clock (w_now w)) in *.
  destruct (Go_inv (λ ps v, length ps = n ∧ A ≤ app_clock (w_now v) ∧ race A T ps v))
    with (sched := sch) (ps := replicate n (at_ (begins K fp o))) (w := w)
    as (l & w' & E & Hlen & Hle & Hc).
  - intros ps v m p (Hl & Hle & Hc) Hm. split; [by rewrite length_insert|].
    pose proof (racing_step _ _ _ _ _ _ HT Hc Hm) as Hc'. split; [|done].
    destruct Hc' as (won & x & bl' & rest' & Hr). exact (rc_since _ _ _ _ _ _ _ _ Hr).
  - split; [by rewrite length_replicate|]. split; [done|]. exists None, None, bl, rest.
    split; [done| |done| |done].
    + assert (∀ m, draws (replicate m (at_ (begins K fp o))) = m) as ->; [|lia].
      clear. intros m. unfold draws. induction m as [|m IH]; [done|]. cbn [replicate sum_list_with].
      by rewrite IH.
    + intros i p _ Hp. left. left. by apply lookup_replicate in Hp as [-> _].
  - rewrite length_fmap in Hlen. apply racing_over in Hc as (j & rnd & x & Hcd & Hs' & Hr').
    + exists l, w'. split; [done|]. by eapply HQ.
    + intros ->. simpl in Hlen. lia.
Qed.

(** The loop that counts. *)
Lemma classify_repeated f m c l (Q : nat * nat * nat → world S → Prop) w :
  Forall repeated l → (∀ m' c', Q (f, m', c') w) → wp (classify f m c l) Q w.
Proof.
  intros Hl HQ. revert m c. induction Hl as [|[rr how] l [Hret Hc] Hl IH]; intros m c; cbn [fst snd classify] in *.
  - by apply wp_ret.
  - subst how. apply wp_bind, wp_ret. cbn [fst]. destruct Hc as [Hc|[Hc Hr]].
    + rewrite Hc. simpl. apply IH.
    + rewrite Hc, Hr. simpl. apply IH.
Qed.

Lemma classify_race l j (Q : nat * nat * nat → world S → Prop) w :
  Code (sc_reply sc) = 201 → replayed (sc_reply sc) ≠ bs "true" →
  settled_race l j → (∀ m c, Q (1%nat, m, c) w) → wp (classify 0 0 0 l) Q w.
Proof.
  intros Hc Hr [Hj Hl] HQ.
  assert (∀ m c pre post, Forall repeated pre → Forall repeated post →
    wp (classify 0 m c (pre ++ (sc_reply sc, Returned) :: post)) Q w) as Hgen.
  { intros m c pre post Hpre Hpost. revert m c.
    induction Hpre as [|[rr how] pre [Hret Hrep] Hpre IH]; intros m c; cbn [fst snd classify app] in *.
    - apply wp_bind, wp_ret. cbn [fst]. rewrite Hc, (bool_decide_eq_false_2 (replayed _ = _)) by done. simpl.
      by apply classify_repeated.
    - subst how. apply wp_bind, wp_ret. cbn [fst]. destruct Hrep as [Hc'|[Hc' Hr']].
      + rewrite Hc'. simpl. apply IH.
      + rewrite Hc', Hr'. simpl. apply IH. }
  rewrite <-(take_drop_middle _ _ _ Hj). apply Hgen.
  - apply Forall_lookup. intros i x [Hx Hi]%lookup_take_Some. apply (Hl i); [lia|done].
  - apply Forall_lookup. intros i x Hx. rewrite lookup_drop in Hx. eapply Hl; [|exact Hx]. lia.
Qed.
End points.
