(* ===== verification/SuiteHttp.v ===== *)
(** * The suite over HTTP, subtest by subtest

    Every conforming store passes each subtest of RunHTTPTests when the
    requests are brisk: the subtest that outlives a lease leaves 50ms for
    the calls on either side of its waits. *)
From S2P Require Import Prelude GoLib Strconv GoHttp Errors Record Store Effects Core CoreSpec Key.
From S2P Require Import StoredResponse Context Http Recorder Problem Config.
From S2P Require Import Middleware MiddlewareSpec HttpClaims.
From S2P Require Import Testing Conforming Idemleasetest SuiteStore SuiteMachine Httpidemtest HttpRules SuiteRace.
Import Time httpidem middleware httpidemtest.
Import Conforming(ready).
Import idemleasetest(errors_Is, isNil, ne, got_where, state_is).
Local Open Scope Z_scope.

Definition brisk : Duration := 50 * Millisecond.

Section subtests.
Context {S : Type} `{Conforming S}.
Variable newStore : S → S.
Variable sched : string → list nat.
Hypothesis newStore_empty : ∀ i s, ready i s → ready i (newStore s) ∧ abs (newStore s) = ∅.
Implicit Types (w : world S) (rnd : list (bytes + error)).

(** ** Between the subtests *)

Definition calm rnd w : Prop := idle rnd w ∧ time_left w ≤ brisk.

Lemma state_calm T rnd k o w : state T rnd k o w → T ≤ app_clock (w_now w) + brisk → calm rnd w.
Proof. intros Hs HT. split; [by eapply state_idle|]. destruct Hs. lia. Qed.

Lemma wp_fresh (t : test S ()) rnd w (Q : () → world S → Prop) :
  calm rnd w →
  (∀ w', (∀ k, state (app_clock (w_now w') + brisk) rnd k None w') → w_log w' = [] → wp t Q w') →
  wp (_ ← NewStore newStore; _ ← fresh_log; t) Q w.
Proof.
  intros [(Hr & Hp & Hd & Hrnd) Hb] HQ. apply wp_bind. eexists _, _. split; [done|].
  apply wp_bind. eexists _, _. split; [done|]. simpl.
  destruct (newStore_empty _ _ Hr) as [Hr' He]. apply HQ; [|done]. intros k. split; try done; simpl.
  - by apply Zplus_le_compat_l.
  - intros t' _. simpl. by rewrite He.
Qed.

(** ** Tactics *)

Ltac ttls :=
  unfold brisk in *;
  repeat match goal with
  | |- context [Core.leaseTTL (options ?c)] =>
      let d := eval vm_compute in (Core.leaseTTL (options c)) in change (Core.leaseTTL (options c)) with d
  | |- context [Core.recordTTL (options ?c)] =>
      let d := eval vm_compute in (Core.recordTTL (options c)) in change (Core.recordTTL (options c)) with d
  | H : context [Core.leaseTTL (options ?c)] |- _ =>
      let d := eval vm_compute in (Core.leaseTTL (options c)) in change (Core.leaseTTL (options c)) with d in H
  | H : context [Core.recordTTL (options ?c)] |- _ =>
      let d := eval vm_compute in (Core.recordTTL (options c)) in change (Core.recordTTL (options c)) with d in H
  end.
Ltac htiming :=
  pose proof pace_small;
  repeat match goal with Hs : state _ _ _ _ _ |- _ => apply state_now in Hs end;
  unfold leases, usual; ttls;
  unfold longest, shortTTL, Hour, Minute, Second, Millisecond in *; lia.
Ltac computes := vm_compute; reflexivity.

Lemma asks_buffered cfg method target key body mutate K :
  passes_guards cfg method target key body mutate = true →
  skey cfg (buffered cfg method target key body mutate) key = K →
  asks cfg method target key body mutate (buffered cfg method target key body mutate) K
    (fprint (buffered cfg method target key body mutate) body).
Proof. intros Hg HK. by split; [apply passes_guards_ready|..]. Qed.

Ltac asks_ := apply asks_buffered; computes.
(** The requests of a test, by what they find. *)
Ltac first_ :=
  apply wp_bind; eapply (do_first (λ w, w) everything);
    [done|asks_|done|intros; computes|computes|eassumption|htiming|htiming|htiming|intros].
Ltac replay_ :=
  apply wp_bind; eapply (do_replay (λ w, w) everything);
    [done|asks_|eassumption|eassumption|computes|htiming|htiming|intros].
Ltac mismatch_ :=
  apply wp_bind; eapply (do_mismatch (λ w, w) everything);
    [done|asks_|eassumption|computes|htiming|htiming|by eapply hr_state| |intros];
  [match goal with Hr : holds_result _ _ ?rc |- rec_Fingerprint ?rc ≠ _ =>
     rewrite (hr_fingerprint _ _ _ Hr); apply (bool_decide_unpack _); vm_compute; exact I end|].
Ltac conflict_ :=
  apply wp_bind; eapply (do_conflict (λ w, w) everything);
    [done|asks_|done|eassumption|htiming|htiming|done|intros].
Ltac fine := apply wp_bind, wp_fatalf_if; [computes|].
Ltac logs :=
  repeat match goal with Hl : w_log _ = _ |- _ => rewrite Hl; clear Hl end; computes.
Ltac counts := apply wp_check_count; [logs|].
Ltac calms := eapply state_calm; [eassumption|htiming].

(** ** The subtests *)

Lemma ReplayScenario_passes b1 b2 rnd w :
  calm (inl b1 :: inl b2 :: rnd) w → wp (ReplayScenario newStore) (λ _, calm rnd) w.
Proof.
  intros Hw. eapply wp_fresh; [exact Hw|]. intros w1 S1 Hl1. specialize (S1 (bs "k")).
  first_. fine. replay_. do 3 fine. counts. calms.
Qed.

Lemma CompletedFingerprintMismatch422_passes b1 b2 rnd w :
  calm (inl b1 :: inl b2 :: rnd) w → wp (CompletedFingerprintMismatch422 newStore) (λ _, calm rnd) w.
Proof.
  intros Hw. eapply wp_fresh; [exact Hw|]. intros w1 S1 Hl1. specialize (S1 (bs "k")).
  first_. fine. mismatch_. fine. counts. calms.
Qed.

(** The advice of a conflict is a positive number of seconds. *)
Lemma conflict_advice rr :
  conflict rr →
  match ParseInt (header_of "Retry-After" rr) with Some ra => ra <? 1 | None => true end = false.
Proof.
  intros [_ [d ->]]. unfold retryAfterSeconds. set (x := i64 (i64 (d + Second) - 1)).
  assert (is_i64 x) as Hx by apply i64_range. set (q := Z.quot x Second).
  assert (x = Second * q + Z.rem x Second) as Hq by apply Z.quot_rem'.
  pose proof (Z.rem_bound_abs x Second ltac:(done)) as Hrem.
  rewrite ParseInt_FormatInt.
  - apply Z.ltb_ge. destruct (q <? 1) eqn:E; lia.
  - unfold is_i64, min_int64, max_int64, two63, Second in *. destruct (q <? 1); lia.
Qed.

Ltac start_ :=
  apply wp_bind; eapply do_start;
    [asks_|intros; computes|computes|eassumption|htiming|intros].

Ltac resume_persist_ :=
  apply wp_bind; eapply resume_persist;
    [eassumption|computes|eassumption|htiming|done|done|done|htiming|intros].
Ltac resume_over_ :=
  apply wp_bind; eapply resume_over;
    [eassumption|computes|eassumption|htiming|by eapply hr_state|htiming|intros].

Lemma InFlight409_passes b1 b2 b3 b4 rnd w :
  calm (inl b1 :: inl b2 :: inl b3 :: inl b4 :: rnd) w →
  wp (InFlight409 newStore) (λ _, calm rnd) w.
Proof.
  intros Hw. eapply wp_fresh; [exact Hw|]. intros w1 S1 Hl1. specialize (S1 (bs "k")). cbv zeta.
  start_. conflict_.
  match goal with Hc : conflict rr |- _ => pose proof Hc as [Hcode _] end.
  apply wp_bind, wp_fatalf_if; [by rewrite Hcode|].
  apply wp_bind, wp_fatalf_if; [by apply conflict_advice|]. clear Hcode.
  conflict_.
  match goal with Hc : conflict rr0 |- _ => destruct Hc as [Hcode _] end.
  apply wp_bind, wp_fatalf_if; [by rewrite Hcode|].
  resume_persist_. fine. replay_. fine. counts. calms.
Qed.

Lemma KeyScopeIsolation_passes b1 b2 b3 rnd w :
  calm (inl b1 :: inl b2 :: inl b3 :: rnd) w →
  wp (KeyScopeIsolation newStore) (λ _, calm rnd) w.
Proof.
  intros Hw. eapply wp_fresh; [exact Hw|]. intros w1 Hs1 Hl1. cbv zeta.
  pose proof (Hs1 (storeKey (bs "A") (bs "k"))) as SA1.
  pose proof (Hs1 (storeKey (bs "B") (bs "k"))) as SB1. clear Hs1.
  assert (storeKey (bs "A") (bs "k") ≠ storeKey (bs "B") (bs "k")) as Hne
    by (apply (bool_decide_unpack _); vm_compute; exact I).
  set (KA := storeKey (bs "A") (bs "k")) in *. set (KB := storeKey (bs "B") (bs "k")) in *.
  apply wp_bind. eapply (do_first (λ w, w) everything);
    [done|asks_|done|intros; computes|computes|exact SA1|htiming..|].
  intros w2 rA DA SA2 HrA Hl2 HDA L2 E2. fine.
  apply (E2 _ _ KB) in SB1; [|done]. rewrite (st_rand _ _ _ _ _ SA2) in SB1.
  apply wp_bind. eapply (do_first (λ w, w) everything);
    [done|asks_|done|intros; computes|computes|exact SB1|htiming..|].
  intros w3 rB DB SB3 HrB Hl3 HDB L3 E3. fine.
  apply (E3 _ _ KA) in SA2; [|done]. rewrite (st_rand _ _ _ _ _ SB3) in SA2.
  apply wp_bind, wp_check_count; [rewrite Hl3, Hl2, Hl1; computes|].
  replay_. fine. counts. calms.
Qed.

(** *** On a flaky store *)

Definition on_flaky (Q : () → world S → Prop) : () → world (flakyStore S) → Prop :=
  λ x v, ∃ e w, v = flaky e w ∧ Q x w.

Lemma wp_with_flaky a b c (t : test (flakyStore S) ()) rnd w (Q : () → world S → Prop) :
  calm rnd w →
  (∀ w', state (app_clock (w_now w') + brisk) rnd (bs "k") None w' → w_log w' = [] →
     wp t (on_flaky Q) (flaky (mkErrs a b c) w')) →
  wp (with_flaky newStore (_ ← set_errs a b c; _ ← fresh_log; t)) Q w.
Proof.
  intros [(Hr & Hp & Hd & Hrnd) Hb] HQ. destruct (newStore_empty _ _ Hr) as [Hr' He].
  set (w1 := mkWorld (newStore (w_store w)) (w_now w) (w_ticks w) (w_rand w) []).
  destruct (HQ w1) as ([] & v & E & e & w2 & -> & HQ2); [|done|].
  { split; try done; simpl; [by apply Zplus_le_compat_l|]. intros t' _. simpl. by rewrite He. }
  exists (), w2. split; [|done]. unfold with_flaky. cbv zeta.
  set (v0 := mkWorld (mkFlakyStore _ _ _ _) _ _ _ _).
  assert ((_ ← set_errs a b c; _ ← fresh_log; t) v0 = t (flaky (mkErrs a b c) w1)) as ->.
  { unfold mbind, test_bind, set_errs, fresh_log. simpl.
    by destruct (t _) as [[fs [[]|]] ?]. }
  rewrite E. simpl. by destruct w2.
Qed.

Lemma wp_on_flaky e (Q : () → world S → Prop) w : Q () w → on_flaky Q () (flaky e w).
Proof. intros. by exists e, w. Qed.

Ltac flaky_calms := apply wp_on_flaky; calms.
Ltac first_flaky :=
  apply wp_bind; eapply (do_first (flaky no_errs) everything);
    [done|asks_|done|intros; computes|computes|eassumption|htiming|htiming|htiming|intros].
Ltac down_ :=
  apply wp_bind; eapply do_down; [asks_|done|done|eassumption|computes|intros].

Lemma FailClosed503_passes b rnd w :
  calm (inl b :: rnd) w → wp (FailClosed503 newStore) (λ _, calm rnd) w.
Proof.
  intros Hw. eapply wp_with_flaky; [exact Hw|]. intros w1 S1 Hl1. down_.
  apply wp_bind, wp_Load, wp_fatalf_if; [simpl; logs|flaky_calms].
Qed.

Lemma FailOpenPassesThrough_passes b1 b2 rnd w :
  calm (inl b1 :: inl b2 :: rnd) w → wp (FailOpenPassesThrough newStore) (λ _, calm rnd) w.
Proof.
  intros Hw. eapply wp_with_flaky; [exact Hw|]. intros w1 S1 Hl1. cbv zeta. down_.
  apply wp_bind, wp_Load, wp_bind, wp_fatalf_if; [simpl; logs|].
  apply wp_bind, wp_set_errs. first_flaky. apply wp_check_count; [simpl; logs|flaky_calms].
Qed.

Ltac persist_fails_ :=
  apply wp_bind; eapply do_persist_fails;
    [asks_|done|done|done|first [by intros ? [= <-]|done]|intros; computes|computes|eassumption|htiming|htiming|intros].

Lemma ResponseReturnedAndReleased_passes b1 b2 rnd w :
  calm (inl b1 :: inl b2 :: rnd) w → wp (ResponseReturnedAndReleased newStore) (λ _, calm rnd) w.
Proof.
  intros Hw. eapply wp_with_flaky; [exact Hw|]. intros w1 S1 Hl1. cbv zeta. persist_fails_.
  match goal with Hx : match on_release _ with _ => _ end |- _ => destruct Hx as [-> Hl2] end. fine.
  apply wp_bind, wp_set_errs. first_flaky. apply wp_check_count; [simpl; logs|flaky_calms].
Qed.

(** The retry meets the reservation that could not be released. *)
Ltac conflict_flaky e :=
  apply wp_bind; eapply (do_conflict (flaky e) (sparing e));
    [done|asks_|done|eassumption|htiming|htiming|done|intros ? ? ? ? ? [Hcode _]].

Lemma ReleaseAlsoFailsKeepsReservation_passes b1 b2 rnd w :
  calm (inl b1 :: inl b2 :: rnd) w → wp (ReleaseAlsoFailsKeepsReservation newStore) (λ _, calm rnd) w.
Proof.
  intros Hw. eapply wp_with_flaky; [exact Hw|]. intros w1 S1 Hl1. cbv zeta. persist_fails_.
  match goal with Hx : match on_release _ with _ => _ end |- _ =>
    destruct Hx as (Hl2 & rc & D & -> & Hst & HD) end. fine.
  conflict_flaky (mkErrs None (Some err_boom) (Some err_boom2)).
  apply wp_fatalf_if; [by rewrite Hcode|flaky_calms].
Qed.

Lemma StoreFailureOnRelease_passes b1 b2 rnd w :
  calm (inl b1 :: inl b2 :: rnd) w → wp (StoreFailureOnRelease newStore) (λ _, calm rnd) w.
Proof.
  intros Hw. eapply wp_with_flaky; [exact Hw|]. intros w1 S1 Hl1. cbv zeta.
  apply wp_bind; eapply do_discard_fails;
    [asks_|done|done|done|intros; computes|computes|eassumption|htiming|intros]. fine.
  conflict_flaky (mkErrs None None (Some err_boom)).
  apply wp_fatalf_if; [by rewrite Hcode|flaky_calms].
Qed.

(** *** The request that outlives its lease *)

Lemma wp_Sleep_log T rnd k o w d (Q : () → world S → Prop) :
  state T rnd k o w →
  (∀ w', state (T + Z.max 0 d) rnd k o w' → w_log w' = w_log w →
     app_clock (w_now w) + Z.max 0 d ≤ app_clock (w_now w') → Q () w') →
  wp (Sleep d) Q w.
Proof.
  intros Hs HQ. destruct (wp_Sleep T rnd k o w d (λ _ w', state (T + Z.max 0 d) rnd k o w' ∧
    app_clock (w_now w) + Z.max 0 d ≤ app_clock (w_now w')) Hs) as ([] & w' & E & Hs' & Hle); [by split|].
  exists (), w'. split; [done|]. apply HQ; [done| |done].
  unfold Sleep in E. injection E as <-. rewrite log_advance. simpl. by rewrite log_advance.
Qed.

Lemma wp_log_contains attr (Q : bool → world S → Prop) w :
  Q (existsb (λ l, bool_decide (attr ∈ log_attrs l)) (w_log w)) w → wp (log_contains attr) Q w.
Proof. intros HQ. by eexists _, _. Qed.

Ltac as_do :=
  match goal with |- context [resume (do_request ?c ?h ?m ?t ?k ?b ?mu)] =>
    change (resume (do_request c h m t k b mu)) with (do_ (S:=S) c h m t k b mu) end.
Ltac loads n := apply wp_bind, wp_Load;
  match goal with |- context [length ?x] => replace (length x) with n by (symmetry; logs) end.

Lemma LeaseExpirySurvivor_http_passes b1 b2 b3 rnd w :
  calm (inl b1 :: inl b2 :: inl b3 :: rnd) w →
  wp (LeaseExpirySurvivor newStore) (λ _, calm rnd) w.
Proof.
  intros Hw. eapply wp_fresh; [exact Hw|]. intros w1 S1 Hl1. specialize (S1 (bs "k")). cbv zeta.
  apply wp_bind, wp_silent; [done|]. eapply wp_Now; [exact S1|]. intros w2 S2 L2 Hl2.
  loads 0%nat. start_. apply wp_bind, wp_silent; [done|]. eapply wp_Now; [eassumption|].
  intros w4 S4 L4 Hl4. unfold lease_500ms, Add in *.
  pose proof (state_now _ _ _ _ _ S4).
  rewrite Sub_exact by (unfold is_i64, min_int64, max_int64, two63, brisk, Millisecond in *; lia).
  apply wp_bind. eapply wp_Sleep_log; [exact S4|]. intros w5 S5 Hl5 L5.
  apply state_expire in S5; [|htiming]. loads 1%nat.
  as_do. first_. do 2 fine. resume_over_. fine.
  apply wp_bind, wp_log_contains, wp_bind, wp_fatalf_if; [logs|]. loads 2%nat. as_do. replay_. fine.
  apply wp_bind, wp_silent; [done|]. eapply wp_Get_live; [eassumption|htiming|].
  intros w9 ex D9 S9 L9 (_ & _ & Hst & _ & Hpay) _ _ Hl9.
  match goal with Hr : holds_result _ _ _ |- _ => destruct Hr as [Hst' _ Hpay'] end.
  apply wp_bind, wp_got_where; [unfold state_is; apply bool_decide_eq_true_2; congruence|].
  rewrite <-Hpay, Hpay'. apply wp_bind.
  match goal with |- wp ?t _ _ => replace t with (mret () : test S ()) by (vm_compute; reflexivity) end.
  apply wp_ret. counts. calms.
Qed.

Lemma ConcurrentSingleExecution_passes (bl : list bytes) rest w :
  (100 ≤ length bl)%nat → calm ((inl <$> bl) ++ rest) w →
  wp (ConcurrentSingleExecution newStore sched) (λ _ w', ∃ rnd, calm rnd w') w.
Proof.
  intros Hbl Hw. eapply wp_fresh; [exact Hw|]. intros w1 S1 Hl1. specialize (S1 (bs "same-key")). cbv zeta.
  apply wp_bind. eapply wp_posts;
    [asks_|htiming|done|intros; computes|computes|computes|split_and!; computes|exact S1|htiming|lia| |].
  { unfold runs. by rewrite Hl1. }
  intros w2 l j rnd x Hl S2 Hruns L2. apply wp_bind, wp_check_count; [exact Hruns|].
  apply wp_bind. eapply classify_race; [| |exact Hl|].
  { computes. }
  { apply (bool_decide_unpack _). vm_compute. exact I. }
  intros m c. apply wp_fatalf_if; [done|]. exists rnd. calms.
Qed.
End subtests.

(** ** The whole suite *)

Section http_suite.
Context {S : Type} `{Conforming S}.
Variable newStore : S → S.
Variable sched : string → list nat.
Hypothesis newStore_empty : ∀ i s, ready i s → ready i (newStore s) ∧ abs (newStore s) = ∅.
Implicit Types (w : world S) (rnd : list (bytes + error)).

Lemma Run_calm name t rnd w (Q : () → world S → Prop) :
  wp t (λ _, calm rnd) w → (∀ w', calm rnd w' → Q () w') → wp (Testing.Run name t) Q w.
Proof. intros Ht HQ. apply wp_Run. eapply wp_mono; [exact Ht|]. intros []. exact HQ. Qed.

Ltac runs_ lem :=
  apply wp_bind; eapply Run_calm; [eapply lem; eassumption|intros].
Ltac ends_ lem :=
  eapply Run_calm; [eapply lem; eassumption|intros].

Lemma StoreFailureOnBegin_passes b1 b2 b3 rnd w :
  calm (inl b1 :: inl b2 :: inl b3 :: rnd) w → wp (StoreFailureOnBegin newStore) (λ _, calm rnd) w.
Proof.
  intros Hw. runs_ (FailClosed503_passes newStore). ends_ (FailOpenPassesThrough_passes newStore). done.
Qed.

Lemma StoreFailureOnComplete_passes b1 b2 b3 b4 rnd w :
  calm (inl b1 :: inl b2 :: inl b3 :: inl b4 :: rnd) w →
  wp (StoreFailureOnComplete newStore) (λ _, calm rnd) w.
Proof.
  intros Hw. runs_ (ResponseReturnedAndReleased_passes newStore).
  ends_ (ReleaseAlsoFailsKeepsReservation_passes newStore). done.
Qed.

(** The suite draws 23 tokens one after the other and 100 in the last
    subtest. *)
Lemma RunHTTPTests_passes (bl : list bytes) rest w :
  (123 ≤ length bl)%nat → calm ((inl <$> bl) ++ rest) w →
  wp (RunHTTPTests newStore sched) (λ _ w', ∃ rnd, calm rnd w') w.
Proof.
  intros Hbl Hw. do 23 (destruct bl as [|? bl]; [simpl in Hbl; lia|]). simpl in Hbl.
  rewrite !fmap_cons, <-!app_comm_cons in Hw.
  runs_ (ReplayScenario_passes newStore). runs_ (CompletedFingerprintMismatch422_passes newStore).
  runs_ (InFlight409_passes newStore). runs_ (KeyScopeIsolation_passes newStore).
  runs_ (StoreFailureOnBegin_passes). runs_ (StoreFailureOnComplete_passes).
  runs_ (StoreFailureOnRelease_passes newStore). runs_ (LeaseExpirySurvivor_http_passes newStore).
  apply wp_Run. eapply wp_mono.
  - apply (ConcurrentSingleExecution_passes newStore sched newStore_empty bl rest); [lia|eassumption].
  - intros [] ? Hend. exact Hend.
Qed.
End http_suite.
