(* ===== verification/SuiteClaims.v ===== *)
(** * Which stores pass the conformance suites

    Every conforming store passes RunStoreTests, however its goroutines are
    scheduled; every store that also keeps deadlines exactly passes
    RunStateMachineTests; the middleware over every conforming store passes
    RunHTTPTests.  The in-memory store is one. *)
From S2P Require Import Prelude GoLib Errors Record Store Effects Memstore Core CoreSpec.
From S2P Require Import Testing Conforming Idemleasetest SuiteStore SuiteMachine.
From S2P Require Import Httpidemtest HttpRules SuiteHttp.
Import Time idemleasetest.
Local Open Scope Z_scope.

(** ** The in-memory store conforms *)

#[global] Instance mem_clocked : Clocked memstore.Store := {
  ready _ _ := True;
  unit_ns := 1;
  skew := 0;
  pace := 500 * Millisecond;
  remote := false;
}.

Lemma same_deadline (i : Instant) r : Expired r (authority (S:=memstore.Store) i) = false →
  reports (S:=memstore.Store) i r r.
Proof.
  intros (d & Hd & _)%Expired_false. split; [done|]. exists d, d. split_and!; try done.
  unfold close. simpl. lia.
Qed.

#[global] Instance mem_conforming : Conforming memstore.Store.
Proof.
  split; try done.
  - intros i i' _. unfold drift. simpl. lia.
  - intros i r s s' ex err _ Hr _ E. split; [done|].
    destruct (Reserve (S:=content) i r (memstore.recs s)) as [m' x] eqn:Em.
    destruct (refines_reserve (R:=mem_rel) i r s (memstore.recs s) _ _ _ _ ltac:(done) E Em)
      as [<- Hm].
    simpl in Em. unfold spec_Reserve in Em. unfold mem_rel in Hm. simpl.
    destruct (live _ _ _) as [old|] eqn:Hl; simplify_eq.
    + split; [by eexists|]. split; [|done]. exists old. split; [done|].
      apply same_deadline. by apply live_Some in Hl as [_ ?].
    + do 2 (split; [done|]). exists r, (rec_LeaseExpiresAt r). split; [done|].
      split; [unfold deadline; destruct Hr as [-> _]; done|]. split; [unfold close; simpl; lia|done].
  - intros i key tok p ttl s s' err _ _ E. split; [done|].
    destruct (Complete (S:=content) i key tok p ttl (memstore.recs s)) as [m' x] eqn:Em.
    destruct (refines_complete (R:=mem_rel) i key tok p ttl s (memstore.recs s) _ _ _ _ ltac:(done) E Em)
      as [<- Hm].
    simpl in Em. unfold spec_Complete in Em. unfold mem_rel in Hm. simpl.
    destruct (cas _ _ _ _) as [r|e] eqn:Hc; simplify_eq.
    + split; [done|]. exists (completed r p (Add (app_clock i) ttl)), (Add (app_clock i) ttl).
      do 2 (split; [done|]). split; [unfold close; simpl; lia|done].
    + split; [|done]. by eapply (cas_refuses (S:=memstore.Store)).
  - intros i key tok s s' err _ E. split; [done|].
    destruct (Release (S:=content) i key tok (memstore.recs s)) as [m' x] eqn:Em.
    destruct (refines_release (R:=mem_rel) i key tok s (memstore.recs s) _ _ _ _ ltac:(done) E Em)
      as [<- Hm].
    simpl in Em. unfold spec_Release in Em. unfold mem_rel in Hm. simpl.
    destruct (cas _ _ _ _) as [r|e] eqn:Hc; simplify_eq; [done|].
    split; [|done]. by eapply (cas_refuses (S:=memstore.Store)).
  - intros i key s s' ex err _ E. split; [done|].
    destruct (Get (S:=content) i key (memstore.recs s)) as [m' x] eqn:Em.
    destruct (refines_get (R:=mem_rel) i key s (memstore.recs s) _ _ _ _ ltac:(done) E Em)
      as [<- Hm].
    simpl in Em. unfold spec_Get in Em. unfold mem_rel in Hm. simplify_eq. simpl.
    do 2 (split; [done|]). destruct (live _ _ _) as [r|] eqn:Hl; [|done].
    exists r. split; [done|]. apply same_deadline. by apply live_Some in Hl as [_ ?].
Qed.

(** ** The suites accept conforming stores *)

(** C18. The store suite raises no false alarm.  A store that conforms -
    it keeps the contract of store.go, does not fail, and its deadlines are
    right within its skew - passes every subtest of RunStoreTests, whatever
    the order in which the goroutines of the concurrent subtests make their
    calls, provided the test itself is quick: its calls take no longer than
    the store's pace, and the clocks do not drift. *)
Theorem store_suite_accepts {S} `{Conforming S} (newStore : S → S) (sched : string → list nat)
    (w : world S) :
  (∀ i s, ready i s → ready i (newStore s) ∧ abs (newStore s) = ∅) →
  ready (w_now w) (w_store w) → time_left w ≤ pace → drift_left w ≤ max_drift →
  ∃ w', RunStoreTests newStore sched w = (([], Some ()), w').
Proof.
  intros Hnew Hr Ht Hd.
  destruct (RunStoreTests_passes newStore sched Hnew (w_rand w) w) as ([] & w' & E & _).
  - done.
  - by exists w'.
Qed.

(** C20. The state machine suite raises no false alarm.  Begin and Finish
    over a store that conforms and keeps deadlines exactly pass every
    subtest of RunStateMachineTests: replay after Persist, rejection in
    flight with an advice within the lease, re-execution after Discard and
    after expiry, the loss of an expired lease, and one winner among a
    hundred goroutines in any interleaving of their calls.  The random
    source yields 115 blocks whose tokens differ. *)
Theorem machine_suite_accepts {S} `{Conforming S} (newStore : S → S) (sched : string → list nat)
    (w : world S) (blocks : list bytes) (rest : list (bytes + error)) :
  (∀ i s, ready i s → ready i (newStore s) ∧ abs (newStore s) = ∅) → tolerance = 0 →
  ready (w_now w) (w_store w) → time_left w ≤ pace → drift_left w ≤ max_drift →
  w_rand w = (inl <$> blocks) ++ rest → (115 ≤ length blocks)%nat →
  NoDup (token_of <$> blocks) →
  ∃ w', RunStateMachineTests newStore sched w = (([], Some ()), w').
Proof.
  intros Hnew Hex Hr Ht Hd Hrand Hlen Hnd.
  destruct (RunStateMachineTests_passes newStore sched Hnew Hex blocks rest w) as ([] & w' & E & _).
  - done.
  - by split.
  - by exists w'.
Qed.

(** C17. The suite over HTTP raises no false alarm.  The middleware over any
    conforming store - deadlines on another clock included - passes every
    subtest of RunHTTPTests: replay, 422, 409 with its advice, scopes that do
    not share keys, failures of Reserve, Complete and Release, a handler that
    outlives its lease, and one execution among a hundred concurrent requests
    in any interleaving of their calls, if all the calls of the test take at
    most 50ms. *)
Theorem http_suite_accepts {S} `{Conforming S} (newStore : S → S) (sched : string → list nat)
    (w : world S) (blocks : list bytes) (rest : list (bytes + error)) :
  (∀ i s, ready i s → ready i (newStore s) ∧ abs (newStore s) = ∅) →
  ready (w_now w) (w_store w) → time_left w ≤ pace → time_left w ≤ brisk → drift_left w ≤ max_drift →
  w_rand w = (inl <$> blocks) ++ rest → (123 ≤ length blocks)%nat →
  ∃ w', httpidemtest.RunHTTPTests newStore sched w = (([], Some ()), w').
Proof.
  intros Hnew Hr Ht Hb Hd Hrand Hlen.
  destruct (RunHTTPTests_passes newStore sched Hnew blocks rest w) as ([] & w' & E & _).
  - done.
  - by split.
  - by exists w'.
Qed.

(** ** Witnesses: the in-memory store *)

(** A run whose clock moves, with a random source that counts. *)
Definition mem_new (_ : memstore.Store) : memstore.Store := memstore.New.
Definition count_blocks (n : nat) : list bytes :=
  (λ i, Z_byte (Z.of_nat i) :: replicate 15 x00) <$> seq 0 n.
Definition mem_world : world memstore.Store :=
  mkWorld memstore.New (mkInstant 1000000000000 0) (replicate 400 (mkTick 1000000 0))
    (inl <$> count_blocks 115) [].

(** The goroutines take turns. *)
Definition turns (_ : string) : list nat := seq 0 100 ++ reverse (seq 0 100) ++ seq 0 100.

Lemma store_suite_accepts_witness :
  ∃ w', RunStoreTests mem_new turns mem_world = (([], Some ()), w').
Proof.
  apply (store_suite_accepts mem_new turns mem_world); [done|done|by vm_compute|by vm_compute].
Defined.

Lemma machine_suite_accepts_witness :
  ∃ w', RunStateMachineTests mem_new turns mem_world = (([], Some ()), w').
Proof.
  apply (machine_suite_accepts mem_new turns mem_world (count_blocks 115) []);
    [done|done|done|by vm_compute|by vm_compute|by rewrite app_nil_r|done|].
  apply (bool_decide_unpack _). by vm_compute.
Defined.

Definition brisk_world : world memstore.Store :=
  mkWorld memstore.New (mkInstant 1000000000000 0) (replicate 400 (mkTick 100000 0))
    (inl <$> count_blocks 123) [].

Lemma http_suite_accepts_witness :
  ∃ w', httpidemtest.RunHTTPTests mem_new turns brisk_world = (([], Some ()), w').
Proof.
  apply (http_suite_accepts mem_new turns brisk_world (count_blocks 123) []);
    [done|done|by vm_compute|by vm_compute|by vm_compute|by rewrite app_nil_r|].
  apply (bool_decide_unpack _). by vm_compute.
Defined.
