(* ===== verification/SuiteRedis.v ===== *)
(** * The Redis store conforms

    Over a network that answers at once, redistore is a store a test can
    rely on: its deadlines are right within 10ms - whole milliseconds, and
    the time a request spends on the way - on any keyspace that satisfies
    the laws of the commands. *)
From S2P Require Import Prelude GoLib Strconv Errors Record Store Effects Core CoreSpec.
From S2P Require Import Testing Conforming Idemleasetest SuiteStore SuiteMachine.
From S2P Require Import Httpidemtest HttpRules SuiteHttp.
From S2P Require Import ContractClaims Redis Redistore RedistoreSpec RedisClaims.
Import Time idemleasetest.
Import redistore(mkStore, s_prefix, s_client, pxUntil, stateReserved, statusToErr).
Local Open Scope Z_scope.

(** A round trip without losses, 9ms each way at most. *)
Definition prompt (t : trip) : Prop :=
  tr_repeats t = O ∧ tr_fault t = None ∧
  Z.of_N (tr_before t) ≤ 9 * Millisecond ∧ Z.of_N (tr_after t) ≤ 9 * Millisecond.

Section redis.
Context {D : Type} `{RedisLaws D}.

Record up (i : Instant) (s : redistore.Store D) : Prop := {
  up_net : Forall prompt (c_net (s_client s));
  up_near : near max_ms (server_ms i) (contents s);
}.

Lemma next_trip_prompt (c : client D) : Forall prompt (c_net c) → prompt (next_trip c).
Proof. unfold next_trip. destruct (c_net c); [done|]. by intros [? _]%Forall_cons. Qed.

(** The rest of the network is no worse. *)
Lemma Run_net (f : script D) (i : Instant) (c : client D) :
  Forall prompt (c_net c) → Forall prompt (c_net (Run f i c).1).
Proof.
  intros Hp%Forall_tail. unfold Run. destruct (tr_fault _) as [[[|] msg]|]; simpl; try done.
  by destruct (f _ _).
Qed.

Lemma ops_net (i : Instant) (s : redistore.Store D) :
  Forall prompt (c_net (s_client s)) →
  (∀ r, Forall prompt (c_net (s_client (redistore.Reserve i r s).1))) ∧
  (∀ key tok payload ttl, Forall prompt (c_net (s_client (redistore.Complete i key tok payload ttl s).1))) ∧
  (∀ key tok, Forall prompt (c_net (s_client (redistore.Release i key tok s).1))) ∧
  (∀ key, Forall prompt (c_net (s_client (redistore.Get i key s).1))).
Proof.
  intros Hp. unfold redistore.Reserve, redistore.Complete, redistore.Release, redistore.Get.
  split_and!; intros *;
    match goal with |- context [Run ?f i (s_client s)] =>
      pose proof (Run_net f i (s_client s) Hp) as Hn; by destruct (Run f i (s_client s)) end.
Qed.

(** ** Deadlines within the skew *)

Definition redis_skew : Duration := 10 * Millisecond.
Abbreviation within_skew i d t :=
  (Z.abs ((d - server_ms i) * Millisecond - (t - app_clock i)) ≤ redis_skew).

Lemma usual_px (i : Instant) (c : client D) t dead :
  prompt (next_trip c) → 50 * Millisecond ≤ t - app_clock i ≤ longest →
  let px := pxUntil (sent_at i c) t in
  server_ms i + px ≤ dead ≤ server_ms i + px + 1 →
  within_skew i dead t ∧ dead ≤ server_ms i + max_ms.
Proof.
  intros (_ & _ & Hb & _) Ht px Hd. pose proof (pxUntil_rounds (sent_at i c) t) as Hr.
  fold px in Hr. unfold Until in Hr. rewrite Sub_exact in Hr
    by (unfold sent_at; clocks).
  unfold sent_at, redis_skew in *. clocks.
Qed.

Lemma usual_ttl (i : Instant) ttl dead :
  50 * Millisecond ≤ ttl ≤ longest →
  let ms := Milliseconds (i64 ttl) in
  let px := if ms <? 1 then 1 else ms in
  server_ms i + px ≤ dead ≤ server_ms i + px + 1 →
  within_skew i dead (Add (app_clock i) ttl) ∧ dead ≤ server_ms i + max_ms.
Proof.
  intros Ht. cbv zeta. rewrite i64_small by clocks.
  pose proof (Milliseconds_bounds ttl) as Hb. unfold Add.
  unfold redis_skew. case_match; clocks.
Qed.

(** What a live record is reported as. *)
Definition reported (i : Instant) (r ex : Record) : Prop :=
  same_identity r ex ∧ ∃ d t, deadline r = Some d ∧ deadline ex = Some t ∧ within_skew i d t.

Lemma tells_reported (i : Instant) (s : redistore.Store D) key old ex :
  up i s → live (server_ms i) (contents s) key = Some old →
  tells (left_at (server_ms i) (answered_at i (s_client s))) old ex → reported i old ex.
Proof.
  intros [Hnet Hnear] Hl (Hid & d & t & Hd & Ht & n & Hn & Hb & ->). split; [done|].
  exists d, (Add (answered_at i (s_client s)) (millis n)). do 2 (split; [done|]).
  destruct (next_trip_prompt _ Hnet) as (_ & _ & _ & Ha).
  specialize (Hnear _ _ _ Hl Hd). unfold Add. rewrite millis_small by clocks.
  unfold answered_at, redis_skew. clocks.
Qed.

(** ** The operations *)

(** A request of a store that is up is one execution. *)
Lemma up_once {A} (i : Instant) (s : redistore.Store D) (E : content → content → A → Prop) (fail : bytes → A) m m' a :
  up i s → executed (next_trip (s_client s)) E fail m m' a → E m m' a.
Proof. intros [Hnet _]. destruct (next_trip_prompt _ Hnet) as (? & ? & _). by apply executed_once. Qed.

Lemma redis_Reserve_up (i : Instant) r (s s' : redistore.Store D) ex err :
  wf s → up i s → reservation r → 50 * Millisecond ≤ rec_LeaseExpiresAt r - app_clock i ≤ longest →
  redistore.Reserve i r s = (s', (ex, err)) →
  up i s' ∧
  match live (server_ms i) (contents s) (rec_Key r) with
  | Some old => err = Some (ErrAlreadyExists : error) ∧
      (∃ r', ex = Some r' ∧ reported i old r') ∧ contents s' ≡{server_ms i}≡ contents s
  | None => ex = None ∧ err = None ∧ ∃ r' d, same_identity r r' ∧ deadline r' = Some d ∧
      within_skew i d (rec_LeaseExpiresAt r) ∧
      contents s' ≡{server_ms i}≡ <[rec_Key r := r']> (contents s)
  end.
Proof.
  intros Hw Hup Hr Ht E. pose proof Hup as [Hnet Hnear].
  destruct (ops_net i s Hnet) as (Hn & _). specialize (Hn r). rewrite E in Hn. simpl in Hn.
  apply Reserve_executed in E as [_ E]; [|done]. specialize (E Hr). apply (up_once i) in E; [|done].
  unfold reserve_does in E. destruct (live _ _ _) as [old|] eqn:Hl.
  - destruct E as [(ex' & [= -> ->] & Htell) Hm]. split; [split; [done|by rewrite Hm]|].
    split; [done|]. split; [|done]. exists ex'. split; [done|]. by eapply tells_reported.
  - destruct E as [[= -> ->] (r' & d & Hid & Hdl & Hd & Hm)].
    destruct (usual_px i (s_client s) _ _ (next_trip_prompt _ Hnet) Ht Hd) as [Hc Hle].
    split; [split; [done|rewrite Hm; by eapply (near_insert _ _ _ _ d)]|].
    do 2 (split; [done|]). by exists r', d.
Qed.

Lemma redis_Get_up (i : Instant) key (s s' : redistore.Store D) ex err :
  wf s → up i s → redistore.Get i key s = (s', (ex, err)) →
  up i s' ∧ err = None ∧ contents s' ≡{server_ms i}≡ contents s ∧
  match live (server_ms i) (contents s) key with
  | Some r => ∃ r', ex = Some r' ∧ reported i r r'
  | None => ex = None
  end.
Proof.
  intros Hw Hup E. pose proof Hup as [Hnet Hnear].
  destruct (ops_net i s Hnet) as (_ & _ & _ & Hn). specialize (Hn key). rewrite E in Hn. simpl in Hn.
  apply Get_executed in E as [_ E]; [|done]. apply (up_once i) in E as [Hm E]; [|done].
  assert (up i s') as Hup' by (split; [done|by rewrite Hm]).
  destruct (live _ _ _) as [old|] eqn:Hl; [|by injection E as -> ->].
  destruct E as (ex' & [= -> ->] & Htell). split_and!; try done. exists ex'. split; [done|].
  by apply (tells_reported i s key).
Qed.

Lemma redis_Complete_up (i : Instant) key tok payload ttl (s s' : redistore.Store D) err :
  wf s → up i s → 50 * Millisecond ≤ ttl ≤ longest →
  redistore.Complete i key tok payload ttl s = (s', err) →
  up i s' ∧
  match cas (server_ms i) key tok (contents s) with
  | inl old => err = None ∧ ∃ r' d, same_identity (completed old payload 0) r' ∧
      deadline r' = Some d ∧ within_skew i d (Add (app_clock i) ttl) ∧
      contents s' ≡{server_ms i}≡ <[key := r']> (contents s)
  | inr e => err = Some e ∧ contents s' ≡{server_ms i}≡ contents s
  end.
Proof.
  intros Hw Hup Ht E. pose proof Hup as [Hnet Hnear].
  destruct (ops_net i s Hnet) as (_ & Hn & _). specialize (Hn key tok payload ttl).
  rewrite E in Hn. simpl in Hn.
  apply Complete_executed in E as [_ E]; [|done]. apply (up_once i) in E; [|done].
  unfold complete_does in E. destruct (cas _ _ _ _) as [old|e].
  - destruct E as (-> & r' & d & Hid & Hdl & Hd & Hm).
    destruct (usual_ttl i ttl d Ht Hd) as [Hc Hle].
    split; [split; [done|rewrite Hm; by eapply (near_insert _ _ _ _ d)]|].
    split; [done|]. by exists r', d.
  - destruct E as [-> Hm]. split; [|done]. split; [done|by rewrite Hm].
Qed.

Lemma redis_Release_up (i : Instant) key tok (s s' : redistore.Store D) err :
  wf s → up i s → redistore.Release i key tok s = (s', err) →
  up i s' ∧
  match cas (server_ms i) key tok (contents s) with
  | inl old => err = None ∧ contents s' ≡{server_ms i}≡ delete key (contents s)
  | inr e => err = Some e ∧ contents s' ≡{server_ms i}≡ contents s
  end.
Proof.
  intros Hw Hup E. pose proof Hup as [Hnet Hnear].
  destruct (ops_net i s Hnet) as (_ & _ & Hn & _). specialize (Hn key tok). rewrite E in Hn. simpl in Hn.
  apply Release_executed in E as [_ E]; [|done]. apply (up_once i) in E; [|done].
  unfold release_does in E. destruct (cas _ _ _ _) as [old|e].
  - destruct E as [-> Hm]. split; [|done]. split; [done|rewrite Hm; by apply near_delete].
  - destruct E as [-> Hm]. split; [|done]. split; [done|by rewrite Hm].
Qed.

(** ** The class *)

#[global] Instance redis_clocked : Clocked (owned D) := {
  ready i s := up i (o_store s);
  unit_ns := Millisecond;
  skew := redis_skew;
  pace := 50 * Millisecond;
  remote := true;
}.

#[global] Instance redis_conforming : Conforming (owned D).
Proof.
  split; try done.
  - intros i i' s [Ha Hs] [Hn Hl]. split; [done|]. eapply near_later; [|done].
    by apply Z.div_le_mono.
  - intros i i' _. pose proof (unit_rate Millisecond i i' ltac:(done)) as Hr.
    etrans; [exact Hr|]. simpl. unfold drift, redis_skew. simpl. clocks.
  - intros i r s s' ex err Hup Hr Hu [= <- E%pair_snd].
    apply redis_Reserve_up in E as [Hup' Hans]; [|apply o_wf|done|done|exact Hu].
    split; [done|]. destruct (live _ _ _) as [old|]; [|done].
    destruct Hans as (-> & Hex & ?). split; [by eexists|done].
  - intros i key tok payload ttl s s' err Hup Hu [= <- E%pair_snd].
    apply redis_Complete_up in E as [Hup' Hans]; [|apply o_wf|done|exact Hu].
    split; [done|]. destruct (cas _ _ _ _) as [old|e] eqn:Ec; [done|].
    destruct Hans as [-> Hsame]. split; [by eapply cas_refuses|done].
  - intros i key tok s s' err Hup [= <- E%pair_snd].
    apply redis_Release_up in E as [Hup' Hans]; [|apply o_wf|done].
    split; [done|]. destruct (cas _ _ _ _) as [old|e] eqn:Ec; [done|].
    destruct Hans as [-> Hsame]. split; [by eapply cas_refuses|done].
  - intros i key s s' ex err Hup [= <- E%pair_snd].
    by apply redis_Get_up in E; [|apply o_wf|].
Qed.
End redis.

(** ** The suites *)

Section factory.
Context {D : Type} `{RedisLaws D}.

(** The factory of redistore_test.go isolates a store under a prefix that
    nothing else uses. *)
Variable fresh : D → bytes.
Hypothesis unused : ∀ d k, entries d !! (fresh d ++ k) = None.

Definition isolated (s : owned D) : redistore.Store D :=
  redistore.New (s_client (o_store s)) [redistore.KeyPrefix (fresh (database (o_store s)))].

Lemma isolated_wf s : wf (isolated s).
Proof using unused. intros k e. unfold database. simpl. by rewrite unused. Qed.

Definition newStore (s : owned D) : owned D := mkOwned (isolated s) (isolated_wf s).

Lemma redis_newStore_empty i s : ready i s → ready i (newStore s) ∧ abs (newStore s) = ∅.
Proof.
  intros [Hn _]. assert (contents (isolated s) = ∅) as He.
  { apply map_eq. intros k. unfold contents. rewrite content_of_lookup. simpl. by rewrite unused. }
  split; [split; [done|simpl; rewrite He; apply near_empty]|done].
Qed.
End factory.

(** A prefix that is longer than every key. *)
Definition longer (m : keyspace) : bytes :=
  replicate (S (max_list (length <$> (map_to_list m).*1))) x00.

Lemma longer_unused (m : keyspace) k : entries m !! (longer m ++ k) = None.
Proof.
  simpl. destruct (m !! (longer m ++ k)) as [e|] eqn:E; [exfalso|done].
  apply elem_of_map_to_list in E. set (l := map_to_list m) in *.
  assert (length (longer m ++ k) ≤ max_list (length <$> l.*1))%nat as Hle.
  { apply max_list_elem_of_le, list_elem_of_fmap. exists (longer m ++ k). split; [done|].
    apply list_elem_of_fmap. by exists (longer m ++ k, e). }
  rewrite length_app in Hle. unfold longer in Hle. rewrite length_replicate in Hle.
  fold l in Hle. lia.
Qed.

Definition redis_blocks : list bytes :=
  (λ i, Z_byte (Z.of_nat i) :: replicate 15 x00) <$> seq 0 123.

(** A network of 3ms each way, and a server clock that runs faster. *)
Definition redis_world : world (owned keyspace) :=
  mkWorld (mkOwned (ExampleRedis.store (replicate 600 (mkTrip 3000000 3000000 0 None)))
             (ExampleRedis.store_wf _))
    (mkInstant 1000000000000 5000000000) (replicate 400 (mkTick 100000 101000))
    (inl <$> redis_blocks) [].

Lemma redis_world_up : up (w_now redis_world) (o_store (w_store redis_world)).
Proof.
  split; [|intros k r d Hl; discriminate Hl].
  apply (Forall_replicate prompt 600). by vm_compute.
Qed.
