(* ===== verification/SuitePg.v ===== *)
(** * The PostgreSQL store conforms

    A client alone on a database whose statements succeed: pgstore keeps
    deadlines in microseconds of the server clock, reports them rounded to
    milliseconds, and is right within 10ms. *)
From S2P Require Import Prelude GoLib Strconv Errors Record Store Effects Core CoreSpec.
From S2P Require Import Testing Conforming Idemleasetest SuiteStore SuiteMachine.
From S2P Require Import Httpidemtest HttpRules SuiteHttp.
From S2P Require Import ContractClaims Pgstore PgSpec PgClaims.
Import Time idemleasetest.
Import pgstore(row, table, stmt, r_state, r_token, r_fingerprint, r_payload, r_lease_expires_at,
  r_record_expires_at, live_row, expired_row, held_row, after_now, not_after_now, stateReserved,
  stateCompleted, leaseMs, recordMs, bigint_ms, now_plus_ms, pg_prog, PNow, PStmt, exec, decode_row,
  leaseTTLMillis, recordTTLMillis).
Local Open Scope Z_scope.

(** The rows the statements write. *)
Definition wf_row (r : row) : Prop :=
  r_state r = stateReserved ∨ (r_state r = stateCompleted ∧ is_Some (r_record_expires_at r)).

(** No statement is going to fail, and the readings of the clock are within
    9ms of the calls. *)
Record up (i : Instant) (c : conn) : Prop := {
  up_faults : Forall (λ f, f = None) (c_faults c);
  up_skews : Forall (λ d, Z.abs d ≤ 9 * Millisecond) (c_skews c);
  up_rows : map_Forall (λ _ r, wf_row r) (c_table c);
  up_near : near (max_ms * 1000) (server_us i) (records (c_table c));
}.

Lemma up_later (i i' : Instant) c : later i i' → up i c → up i' c.
Proof.
  intros [_ Hs] [Hf Hd Hr Hn]. split; try done. eapply near_later; [|exact Hn].
  by apply Z.div_le_mono.
Qed.

(** A row is live or expired. *)
Lemma wf_row_live now r : wf_row r → expired_row now r = false → live_row now r = true.
Proof.
  unfold wf_row, expired_row, live_row, not_after_now, after_now.
  intros [->|[-> [t ->]]]; simpl; rewrite ?orb_false_r; rewrite Z.leb_gt, Z.ltb_lt; done.
Qed.

Lemma up_put (i : Instant) c c' key r d :
  up i c → c_faults c' = tail (c_faults c) → c_skews c' = c_skews c →
  c_table c' = <[key := r]> (c_table c) → wf_row r →
  deadline (record_of key r) = Some d → d ≤ server_us i + max_ms * 1000 → up i c'.
Proof.
  intros [Hf Hd Hr Hn] Ef Ed Et Hw Hdl Hle. split.
  - rewrite Ef. by apply Forall_tail.
  - by rewrite Ed.
  - rewrite Et. by apply map_Forall_insert_2.
  - rewrite Et, records_insert. by eapply (near_insert _ _ _ _ d).
Qed.

(** ** Programs run alone *)

Lemma alone_now {A} (i : Instant) (k : Time → pg_prog A) c :
  up i c → ∃ t c', run_alone i (PNow k) c = run_alone i (k t) c' ∧
    up i c' ∧ c_table c' = c_table c ∧ Z.abs (t - app_clock i) ≤ 9 * Millisecond.
Proof.
  intros [Hf Hd Hr Hn]. destruct c as [t fs ds]. simpl in *.
  exists (app_clock i + match ds with d :: _ => d | [] => 0 end), (mkConn t fs (tail ds)).
  split; [by unfold run_alone|]. split; [split; [done|by apply Forall_tail|done|done]|].
  split; [done|]. rewrite Z.add_simpl_l. destruct ds as [|d ds]; [done|].
  by apply Forall_cons in Hd as [? _].
Qed.

Lemma alone_stmt {A} (i : Instant) s (k : pgstore.answer + error → pg_prog A) c :
  up i c → ∃ t x, exec (server_us i) plan_alone s (c_table c) = (t, x) ∧
    run_alone i (PStmt s k) c = run_alone i (k x) (mkConn t (tail (c_faults c)) (c_skews c)).
Proof.
  intros [Hf _ _ _]. destruct (exec (server_us i) plan_alone s (c_table c)) as [t x] eqn:E.
  exists t, x. split; [done|]. destruct c as [t0 fs ds]. simpl in *.
  unfold run_alone. simpl. unfold pgstore.run_stmt. simpl.
  assert (match fs with f :: _ => f | [] => None end = None) as ->.
  { destruct fs; [done|]. by apply Forall_cons in Hf as [-> _]. }
  rewrite E. by destruct (pgstore.prun _ _ (k x) _ t) as [[a [[fs' ds'] t']] tr].
Qed.

Lemma alone_ret {A} (i : Instant) (a : A) c : run_alone i (mret a) c = (c, a).
Proof. by destruct c. Qed.

(** ** Deadlines within the skew *)

Definition pg_skew : Duration := 10 * Millisecond.
Abbreviation within_skew i d t :=
  (Z.abs ((d - server_us i) * 1000 - (t - app_clock i)) ≤ pg_skew).

Lemma lease_within (i : Instant) t rec :
  Z.abs (t - app_clock i) ≤ 9 * Millisecond →
  50 * Millisecond ≤ rec_LeaseExpiresAt rec - app_clock i ≤ longest →
  let dead := now_plus_ms (server_us i) (leaseTTLMillis t rec) in
  within_skew i dead (rec_LeaseExpiresAt rec) ∧ dead ≤ server_us i + max_ms * 1000.
Proof.
  intros Ht Hd. unfold leaseTTLMillis, Until, now_plus_ms. rewrite Sub_exact by clocks.
  pose proof (Milliseconds_bounds (rec_LeaseExpiresAt rec - t)) as Hb.
  unfold pg_skew. case_match; clocks.
Qed.

Lemma record_within (i : Instant) ttl :
  50 * Millisecond ≤ ttl ≤ longest →
  let dead := now_plus_ms (server_us i) (recordTTLMillis ttl) in
  within_skew i dead (Add (app_clock i) ttl) ∧ dead ≤ server_us i + max_ms * 1000.
Proof.
  intros Hd. unfold recordTTLMillis, now_plus_ms, Add. rewrite i64_small by clocks.
  pose proof (Milliseconds_bounds ttl) as Hb. unfold pg_skew. case_match; clocks.
Qed.

Lemma bigint_ms_near us : 0 ≤ us → us - 500 ≤ bigint_ms us * 1000 ≤ us + 500.
Proof.
  intros Hus. unfold bigint_ms. rewrite (proj2 (Z.leb_le 0 us)) by done.
  pose proof (Z.div_mod (us + 500) 1000 ltac:(done)).
  pose proof (Z.mod_pos_bound (us + 500) 1000 ltac:(done)). lia.
Qed.

(** What a live row is reported as. *)
Definition reported (i : Instant) (r ex : Record) : Prop :=
  same_identity r ex ∧ ∃ d t, deadline r = Some d ∧ deadline ex = Some t ∧ within_skew i d t.

Lemma rounded_within (i : Instant) t dl :
  Z.abs (t - app_clock i) ≤ 9 * Millisecond → server_us i < dl ≤ server_us i + max_ms * 1000 →
  within_skew i dl (Add t (millis (bigint_ms (dl - server_us i)))).
Proof.
  intros Ht Hd. pose proof (bigint_ms_near (dl - server_us i)) as Hb. unfold Add.
  rewrite millis_small by clocks. unfold pg_skew. clocks.
Qed.

Lemma decode_row_reported (i : Instant) key t (r : row) :
  Z.abs (t - app_clock i) ≤ 9 * Millisecond → live_row (server_us i) r = true →
  (∀ d, deadline (record_of key r) = Some d → d ≤ server_us i + max_ms * 1000) →
  ∃ ex, decode_row key t (r_state r) (r_token r) (r_fingerprint r) (r_payload r)
          (leaseMs (server_us i) r) (recordMs (server_us i) r) = inl ex ∧
    reported i (record_of key r) ex.
Proof.
  intros Ht Hl Hb. unfold decode_row, reported, record_of, deadline, live_row, recordMs, leaseMs in *.
  cbn [rec_State rec_LeaseExpiresAt rec_RecordExpiresAt] in *. unfold after_now in Hl.
  destruct (Z.eqb_spec (r_state r) stateReserved) as [E|_].
  - rewrite E in Hl. change (stateReserved =? stateCompleted) with false in Hl. simpl in Hl.
    rewrite orb_false_r, Z.ltb_lt in Hl. specialize (Hb _ eq_refl).
    eexists. split; [done|]. split; [by repeat split|].
    exists (r_lease_expires_at r). eexists. do 2 (split; [done|]). by apply rounded_within.
  - destruct (r_state r =? stateCompleted); [|done]. simpl in Hl.
    destruct (r_record_expires_at r) as [x|]; [|done]. apply Z.ltb_lt in Hl. simpl.
    specialize (Hb _ eq_refl). eexists. split; [done|]. split; [by repeat split|].
    exists x. eexists. do 2 (split; [done|]). by apply rounded_within.
Qed.

(** The scan of a live row. *)
Lemma alone_scan {A} (i : Instant) key (r : row) (f : Record + error → pg_prog A) c :
  up i c → c_table c !! key = Some r → live_row (server_us i) r = true →
  ∃ ex c', run_alone i (pgstore.scanRecord
      (inl (pgstore.aRecord (r_state r) (r_token r) (r_fingerprint r) (r_payload r)
              (leaseMs (server_us i) r) (recordMs (server_us i) r))) key ≫= f) c =
      run_alone i (f (inl ex)) c' ∧
    up i c' ∧ c_table c' = c_table c ∧ reported i (record_of key r) ex.
Proof.
  intros Hup Hk Hl.
  destruct (alone_now i (λ now, f (decode_row key now (r_state r) (r_token r) (r_fingerprint r)
      (r_payload r) (leaseMs (server_us i) r) (recordMs (server_us i) r))) c Hup)
    as (t & c' & Hrun & Hup' & Htab & Ht).
  destruct (decode_row_reported i key t r Ht Hl) as (ex & Hdec & Hrep).
  { intros d. eapply (up_near _ _ Hup key). by rewrite live_records, Hk, Hl. }
  exists ex, c'. split; [|done]. rewrite <-Hdec. exact Hrun.
Qed.

(** ** The operations *)

#[local] Arguments run_alone : simpl never.
#[local] Arguments pgstore.scanRecord : simpl never.

(** The next statement of a program. *)
Ltac stmt := match goal with
  | Hup : up ?i ?c |- context [run_alone ?i (PStmt ?s ?k) ?c] =>
      let t := fresh "t" in let x := fresh "x" in
      let Hx := fresh "Hx" in let Hrun := fresh "Hrun" in
      destruct (alone_stmt i s k c Hup) as (t & x & Hx & Hrun); rewrite Hrun; clear Hrun
  end.

(** The scan of the live row a query answered. *)
Ltac scan Hk Hl ex c Hup' Ht Hrep := match goal with
  | Hup : up ?i ?c0 |- context [run_alone ?i (pgstore.scanRecord _ ?key ≫= ?f) ?c0] =>
      let Hrun := fresh "Hrun" in
      destruct (alone_scan i key _ f c0 Hup Hk Hl) as (ex & c & Hrun & Hup' & Ht & Hrep);
      rewrite Hrun; clear Hrun
  end.

Lemma up_next (i : Instant) c :
  up i c → up i (mkConn (c_table c) (tail (c_faults c)) (c_skews c)).
Proof. intros [Hf ? ? ?]. split; try done. by apply Forall_tail. Qed.

Lemma pg_Get_up (i : Instant) key c c' ex err :
  up i c → run_alone i (pgstore.Get key) c = (c', (ex, err)) →
  up i c' ∧ err = None ∧ c_table c' = c_table c ∧
  match live (server_us i) (records (c_table c)) key with
  | Some r => ∃ r', ex = Some r' ∧ reported i r r'
  | None => ex = None
  end.
Proof.
  intros Hup. rewrite live_records. unfold pgstore.Get, pgstore.query. simpl. stmt.
  apply up_next in Hup. simpl in Hx. unfold pgstore.sql_get in Hx. injection Hx as <- Hx.
  destruct (c_table c !! key) as [r|] eqn:Hk; [destruct (live_row _ r) eqn:Hl|]; subst x.
  - scan Hk Hl ex' c1 Hup1 Ht Hrep.
    rewrite alone_ret. intros [= <- <- <-]. split_and!; try done. by exists ex'.
  - simpl. unfold pgstore.scanRecord. simpl. rewrite alone_ret. by intros [= <- <- <-].
  - simpl. unfold pgstore.scanRecord. simpl. rewrite alone_ret. by intros [= <- <- <-].
Qed.

Lemma pg_Reserve_up (i : Instant) r c c' ex err :
  up i c → reservation r → 50 * Millisecond ≤ rec_LeaseExpiresAt r - app_clock i ≤ longest →
  run_alone i (pgstore.Reserve r) c = (c', (ex, err)) →
  up i c' ∧
  match live (server_us i) (records (c_table c)) (rec_Key r) with
  | Some old => err = Some (ErrAlreadyExists : error) ∧
      (∃ r', ex = Some r' ∧ reported i old r') ∧ c_table c' = c_table c
  | None => ex = None ∧ err = None ∧ ∃ r' d, same_identity r r' ∧ deadline r' = Some d ∧
      within_skew i d (rec_LeaseExpiresAt r) ∧
      records (c_table c') = <[rec_Key r := r']> (records (c_table c))
  end.
Proof.
  intros Hup [Hs Hp] Hd. unfold pgstore.Reserve. simpl.
  match goal with |- context [run_alone i (PNow ?k) c] =>
    destruct (alone_now i k c Hup) as (t0 & c0 & -> & Hup0 & <- & Hclk) end. clear c Hup.
  stmt. simpl in Hx. unfold pgstore.sql_reserve in Hx. rewrite live_records.
  destruct (lease_within i t0 r Hclk Hd) as [Hc Hle].
  set (new := pgstore.mkRow _ _ _ _ _ _ _) in Hx.
  assert (∀ y, (t, x) = (<[rec_Key r := new]> (c_table c0), inl y) →
    run_alone i (mret (None, None)) (mkConn t (tail (c_faults c0)) (c_skews c0)) = (c', (ex, err)) →
    up i c' ∧ ex = None ∧ err = None ∧ ∃ r' d, same_identity r r' ∧ deadline r' = Some d ∧
      within_skew i d (rec_LeaseExpiresAt r) ∧
      records (c_table c') = <[rec_Key r := r']> (records (c_table c0))) as Hclaim.
  { intros y [= -> ->]. rewrite alone_ret. intros [= <- <- <-].
    split; [by eapply (up_put i c0 _ (rec_Key r) new); [exact Hup0|..|exact Hle]; try done; left|].
    do 2 (split; [done|]). exists (record_of (rec_Key r) new). eexists.
    split; [|split; [done|split; [exact Hc|apply records_insert]]].
    by repeat split. }
  unfold wf_row in *. pose proof (up_rows _ _ Hup0 (rec_Key r)) as Hw.
  destruct (c_table c0 !! rec_Key r) as [old|] eqn:Hk; 
    [|injection Hx as <- <-; by apply (Hclaim _ eq_refl)].
  destruct (expired_row _ old) eqn:Hex.
  - rewrite (expired_not_live _ _ Hex). injection Hx as <- <-. by apply (Hclaim _ eq_refl).
  - pose proof (wf_row_live _ _ (Hw _ eq_refl) Hex) as Hl. rewrite Hl. injection Hx as <- <-. simpl.
    apply up_next in Hup0. stmt. simpl in Hx. unfold pgstore.sql_get in Hx.
    rewrite Hk, Hl in Hx. injection Hx as <- <-. apply up_next in Hup0. cbn [c_table c_faults c_skews] in *.
    scan Hk Hl ex' c1 Hup1 Ht Hrep. rewrite alone_ret. intros [= <- <- <-].
    split_and!; try done. by exists ex'.
Qed.

(** The compare-and-set that affected no row, classified. *)
Lemma classify_up (i : Instant) key tok op c c' err :
  up i c → run_alone i (pgstore.classifyFailure key tok op) c = (c', err) →
  up i c' ∧ c_table c' = c_table c ∧ refuses i key tok c err.
Proof.
  unfold pgstore.classifyFailure, pgstore.query. simpl. intros Hup. stmt. simpl in Hx.
  unfold pgstore.sql_classify in Hx. injection Hx as <- Hx. rewrite alone_ret. intros [= <- <-].
  split; [by apply up_next|]. split; [done|].
  unfold refuses. simpl. rewrite live_records. pose proof (up_rows _ _ Hup key) as Hw.
  destruct (c_table c !! key) as [r|]; [|subst x; simpl; by eexists].
  specialize (Hw _ eq_refl). unfold live_row, after_now, stateReserved, stateCompleted in *.
  destruct Hw as [E|[E [d Hd]]]; rewrite E in *; simpl in *; rewrite ?orb_false_r.
  - destruct (_ <? r_lease_expires_at r); subst x; simpl; [|by eexists].
    case_bool_decide as Ht; simpl; eexists; split_and!; try done.
    by intros r' [= <-] _ [].
  - subst x. simpl. eexists. split_and!; try done. intros r'.
    case_match; [|done]. intros [= <-]. unfold record_of. simpl. by rewrite E, Hd.
Qed.

(** Whether the row is held decides the compare-and-set. *)
Lemma cas_row (now : Z) (key tok : bytes) (t : table) :
  match cas now key tok (records t) with
  | inl old => ∃ r, t !! key = Some r ∧ old = record_of key r ∧ held_row now tok r = true
  | inr _ => match t !! key with Some r => held_row now tok r | None => false end = false
  end.
Proof.
  pose proof (held_row_cas now key tok t) as Hh.
  destruct (cas now key tok (records t)) as [old|e] eqn:E.
  - pose proof (proj2 Hh (ex_intro _ old eq_refl)) as H1. apply cas_inl in E as (Hl & _).
    rewrite live_records in Hl. destruct (t !! key) as [r|]; [|done].
    exists r. destruct (live_row now r); by simplify_eq.
  - apply not_true_is_false. by intros [r Hr]%Hh.
Qed.

Lemma pg_Complete_up (i : Instant) key tok payload ttl c c' err :
  up i c → 50 * Millisecond ≤ ttl ≤ longest →
  run_alone i (pgstore.Complete key tok payload ttl) c = (c', err) →
  up i c' ∧
  match cas (server_us i) key tok (records (c_table c)) with
  | inl old => err = None ∧ ∃ r' d, same_identity (completed old payload 0) r' ∧
      deadline r' = Some d ∧ within_skew i d (Add (app_clock i) ttl) ∧
      records (c_table c') = <[key := r']> (records (c_table c))
  | inr _ => refuses i key tok c err ∧ c_table c' = c_table c
  end.
Proof.
  intros Hup Hd. unfold pgstore.Complete, pgstore.query. simpl. stmt. simpl in Hx.
  unfold pgstore.sql_complete in Hx. pose proof (cas_row (server_us i) key tok (c_table c)) as Hc.
  destruct (record_within i ttl Hd) as [Hw Hle].
  destruct (cas _ _ _ _) as [old|e].
  - destruct Hc as (r & Hk & -> & Hh). rewrite Hk, Hh in Hx. injection Hx as <- <-. simpl.
    rewrite alone_ret. intros [= <- <-].
    match goal with |- context [<[key := ?n]> (c_table c)] => set (new := n) end.
    split; [eapply (up_put i c _ key new); [exact Hup|..|exact Hle]; try done; right; by eexists|].
    split; [done|]. exists (record_of key new). eexists.
    split; [|split; [done|split; [exact Hw|apply records_insert]]].
    by repeat split.
  - assert ((t, x) = (c_table c, inl (pgstore.aAffected 0))) as [= -> ->].
    { rewrite <-Hx. destruct (c_table c !! key) as [r|]; [by rewrite Hc|done]. }
    simpl. apply up_next in Hup as Hup1. intros (? & ? & ?)%classify_up; [|done]. by split_and!.
Qed.

Lemma up_remove (i : Instant) c key :
  up i c → up i (mkConn (delete key (c_table c)) (tail (c_faults c)) (c_skews c)).
Proof.
  intros [Hf Hd Hr Hn]. split; simpl; [by apply Forall_tail|done|by apply map_Forall_delete|].
  rewrite records_delete. by apply near_delete.
Qed.

Lemma pg_Release_up (i : Instant) key tok c c' err :
  up i c → run_alone i (pgstore.Release key tok) c = (c', err) →
  up i c' ∧
  match cas (server_us i) key tok (records (c_table c)) with
  | inl _ => err = None ∧ records (c_table c') = delete key (records (c_table c))
  | inr _ => refuses i key tok c err ∧ c_table c' = c_table c
  end.
Proof.
  intros Hup. unfold pgstore.Release, pgstore.query. simpl. stmt. simpl in Hx.
  unfold pgstore.sql_release in Hx. pose proof (cas_row (server_us i) key tok (c_table c)) as Hc.
  destruct (cas _ _ _ _) as [old|e].
  - destruct Hc as (r & Hk & -> & Hh). rewrite Hk, Hh in Hx. injection Hx as <- <-. simpl.
    rewrite alone_ret. intros [= <- <-]. split; [by apply up_remove|].
    split; [done|apply records_delete].
  - assert ((t, x) = (c_table c, inl (pgstore.aAffected 0))) as [= -> ->].
    { rewrite <-Hx. destruct (c_table c !! key) as [r|]; [by rewrite Hc|done]. }
    simpl. apply up_next in Hup as Hup1. intros (? & ? & ?)%classify_up; [|done]. by split_and!.
Qed.

(** ** The class *)

#[global] Instance pg_clocked : Clocked conn := {
  ready := up;
  unit_ns := 1000;
  skew := pg_skew;
  pace := 50 * Millisecond;
  remote := true;
}.

#[global] Instance pg_conforming : Conforming conn.
Proof.
  split; try done.
  - intros i i' c. apply up_later.
  - intros i i' _. pose proof (unit_rate 1000 i i' ltac:(done)) as Hr.
    etrans; [exact Hr|]. simpl. unfold drift, pg_skew. simpl. clocks.
  - intros i r c c' ex err Hup Hr Hu E. apply pg_Reserve_up in E as [Hup' E]; [|done..].
    split; [done|]. simpl. destruct (live _ _ _) as [old|].
    + destruct E as (-> & Hex & Ht). split; [by eexists|]. split; [done|by rewrite Ht].
    + destruct E as (-> & -> & r' & d & ? & ? & ? & Ht). do 2 (split; [done|]).
      exists r', d. split_and!; try done. by rewrite Ht.
  - intros i key tok payload ttl c c' err Hup Hu E. apply pg_Complete_up in E as [Hup' E]; [|done..].
    split; [done|]. simpl. destruct (cas _ _ _ _) as [old|e].
    + destruct E as (-> & r' & d & ? & ? & ? & Ht). split; [done|].
      exists r', d. split_and!; try done. by rewrite Ht.
    + destruct E as [Href Ht]. split; [done|by rewrite Ht].
  - intros i key tok c c' err Hup E. apply pg_Release_up in E as [Hup' E]; [|done..].
    split; [done|]. simpl. destruct (cas _ _ _ _) as [old|e].
    + destruct E as [-> Ht]. split; [done|by rewrite Ht].
    + destruct E as [Href Ht]. split; [done|by rewrite Ht].
  - intros i key c c' ex err Hup E. apply pg_Get_up in E as (? & ? & Ht & E); [|done].
    do 2 (split; [done|]). split; [simpl; by rewrite Ht|done].
Qed.

(** A table of its own, as pgstore_test.go creates one. *)
Definition newStore (c : conn) : conn := mkConn ∅ (c_faults c) (c_skews c).

Lemma pg_newStore_empty i c : ready i c → ready i (newStore c) ∧ abs (newStore c) = ∅.
Proof.
  intros [Hf Hd _ _]. assert (records ∅ = ∅) as He by done. split; [|done].
  split; [done|done|apply map_Forall_empty|]. simpl. rewrite He. apply near_empty.
Qed.

(** What the stores do not agree on: a completed record under another token
    is a token mismatch to the specification, memstore and Redis, and not
    found to pgstore. *)
Example pg_completed_not_found :
  let t := <[bs "k" := pgstore.mkRow stateCompleted (bs "a") [] None 0 (Some 9000000) 0]> ∅ in
  let i := mkInstant 0 5000000000 in
  (run_alone i (pgstore.Complete (bs "k") (bs "b") [] Second) (mkConn t [] [])).2 =
    Some (ErrNotFound : error) ∧
  cas (server_us i) (bs "k") (bs "b") (records t) = inr (ErrTokenMismatch : error).
Proof. by vm_compute. Qed.
