(* ===== verification/SuiteRemote.v ===== *)
(** * The stores on a clock of their own

    redistore and pgstore keep their deadlines on the server.  Both pass the
    suites their test files run. *)
From S2P Require Import Prelude GoLib Errors Record Store Effects.
From S2P Require Import Testing Conforming Idemleasetest SuiteStore SuiteMachine.
From S2P Require Import Httpidemtest HttpRules SuiteHttp.
From S2P Require Import Redis Redistore RedistoreSpec RedisClaims Pgstore PgSpec PgClaims.
From S2P Require Import SuiteRedis SuitePg.
Import Time idemleasetest.
Local Open Scope Z_scope.

(** TestConformance and TestHTTP report nothing. *)
Definition passes {S} `{Store S} (newStore : S → S) (sched : string → list nat) (w : world S) : Prop :=
  (∃ w', RunStoreTests newStore sched w = (([], Some ()), w')) ∧
  (∃ w', httpidemtest.RunHTTPTests newStore sched w = (([], Some ()), w')).

(** The world a test of [S] is run in: the calls take at most 50ms besides
    the waits, the clocks drift by 50ms at most, and the random source
    yields [blocks] first. *)
Record tested_in {S} `{Conforming S} (blocks : list bytes) (w : world S) : Prop := {
  ti_ready : ready (w_now w) (w_store w);
  ti_time : time_left w ≤ 50 * Millisecond;
  ti_drift : drift_left w ≤ max_drift;
  ti_rand : ∃ rest, w_rand w = (inl <$> blocks) ++ rest;
}.

Lemma conforming_passes {S} `{Conforming S} (newStore : S → S) (sched : string → list nat)
    (w : world S) (blocks : list bytes) :
  (∀ i s, ready i s → ready i (newStore s) ∧ abs (newStore s) = ∅) →
  50 * Millisecond ≤ pace → (123 ≤ length blocks)%nat → tested_in blocks w →
  passes newStore sched w.
Proof.
  intros Hnew Hp Hlen [Hr Ht Hd [rest Hrand]].
  assert (time_left w ≤ pace) as Ht' by (etrans; [exact Ht|exact Hp]). split.
  - destruct (RunStoreTests_passes newStore sched Hnew (w_rand w) w)
      as ([] & w' & E & _); [done|by exists w'].
  - destruct (RunHTTPTests_passes newStore sched Hnew blocks rest w)
      as ([] & w' & E & _); [done|by split|by exists w'].
Qed.

(** C19. The remote stores pass their own tests.  redistore, on every
    keyspace that satisfies the documented laws of the commands, over a
    network that answers each request within 9ms each way, and pgstore,
    alone on a database whose statements succeed, pass every subtest of
    RunStoreTests and of RunHTTPTests in any interleaving of the
    goroutines, although they keep deadlines in milliseconds and
    microseconds of a clock that drifts from the client's. *)
Theorem remote_stores_pass (sched : string → list nat) (blocks : list bytes) :
  (123 ≤ length blocks)%nat →
  (∀ D `(RedisLaws D) (fresh : D → bytes)
     (unused : ∀ d k, entries d !! (fresh d ++ k) = None) (w : world (owned D)),
     tested_in blocks w → passes (SuiteRedis.newStore fresh unused) sched w) ∧
  (∀ w : world conn, tested_in blocks w → passes SuitePg.newStore sched w).
Proof.
  intros Hlen. split.
  - intros D ? ? fresh unused w. apply conforming_passes; [|done..].
    apply redis_newStore_empty.
  - intros w. apply conforming_passes; [|done..]. apply pg_newStore_empty.
Qed.

(** ** Witnesses: a keyspace and a table *)

Definition pg_world : world conn :=
  mkWorld (mkConn ∅ (replicate 600 None) (replicate 600 2000000))
    (mkInstant 1000000000000 5000000000) (replicate 400 (mkTick 100000 101000))
    (inl <$> redis_blocks) [].

Lemma pg_world_up : SuitePg.up (w_now pg_world) (w_store pg_world).
Proof.
  split; [by apply Forall_replicate| |apply map_Forall_empty|intros k r d Hl; discriminate Hl].
  apply (Forall_replicate (λ d, Z.abs d ≤ 9 * Millisecond) 600). by vm_compute.
Qed.

Lemma remote_stores_pass_witness :
  passes (SuiteRedis.newStore longer longer_unused) (λ _, []) redis_world ∧
  passes SuitePg.newStore (λ _, []) pg_world.
Proof.
  destruct (remote_stores_pass (λ _, []) redis_blocks) as [Hr Hp]; [by vm_compute|].
  split; [apply Hr|apply Hp].
  - split; [exact redis_world_up|by vm_compute|by vm_compute|exists []; by rewrite app_nil_r].
  - split; [exact pg_world_up|by vm_compute|by vm_compute|exists []; by rewrite app_nil_r].
Defined.
