(* ===== verification/Liveness.v ===== *)
(** * Keys free themselves

    Nothing has to happen for a key to become usable again: whatever record
    holds it, a Begin that comes after the record's deadline proceeds, on
    every conforming store. *)
From S2P Require Import Prelude GoLib Errors Record Store Effects Memstore Core CoreSpec.
From S2P Require Import Testing Conforming SuiteStore SuiteMachine SuiteClaims.
Import Time.
Local Open Scope Z_scope.

Section liveness.
Context {S : Type} `{Conforming S}.
Implicit Types w : world S.

(** A record that the store holds, in the terms of a test. *)
Lemma state_of_record rnd k r d w :
  ready (w_now w) (w_store w) → time_left w ≤ pace → drift_left w ≤ max_drift → w_rand w = rnd →
  live (authority (w_now w)) (abs (w_store w)) k = Some r → deadline r = Some d →
  state (app_clock (w_now w) + time_left w) rnd k
    (Some (r, app_clock (w_now w) + (d - authority (w_now w)) * unit_ns)) w.
Proof.
  intros Hr Ht Hd Hrnd Hl Hdl. split; [done|done|done|lia|done| |].
  - intros t Hle. apply live_Some in Hl as [Hl _]. simpl. unfold live. by rewrite Hl.
  - exists (w_now w), d. split_and!; [done| |done|].
    + unfold close. pose proof skew_small. rewrite Z.add_simpl_l, Z.sub_diag. simpl. lia.
    + unfold drift. destruct remote; lia.
Qed.
End liveness.

(** C13. No key stays blocked.  Whatever live record holds a key - the
    reservation of a caller that crashed, or a completed record - a Begin
    that is made once the record's deadline has passed, by 100ms for the
    imprecision of the clocks, proceeds under a token of its own: nobody has
    to release the key. *)
Theorem begin_proceeds_after_deadline {S} `{Conforming S} (w : world S) (key fp b : bytes)
    (rest : list (bytes + error)) (o : Options) (r : Record) (d : Z) (wait : Duration) :
  ready (w_now w) (w_store w) → time_left w ≤ pace → drift_left w ≤ max_drift → w_rand w = inl b :: rest →
  live (authority (w_now w)) (abs (w_store w)) key = Some r → deadline r = Some d →
  (d - authority (w_now w)) * unit_ns + 100 * Millisecond ≤ wait →
  shortTTL ≤ leaseTTL o ≤ longest →
  ∃ w', (_ ← Sleep wait; call (Begin key fp o)) w =
    (([], Some (inl (mkOutcome Proceed (token_of b) [] 0))), w').
Proof.
  intros Hr Ht Hd Hrnd Hl Hdl Hwait Ho.
  pose proof (state_of_record _ _ _ _ _ Hr Ht Hd Hrnd Hl Hdl) as Hs.
  assert (wp (_ ← Sleep wait; call (Begin key fp o))
    (λ out _, out = inl (mkOutcome Proceed (token_of b) [] 0)) w) as (out & w' & E & ->).
  { apply wp_bind. eapply wp_Sleep; [exact Hs|]. intros w1 S1 L1.
    apply state_expire in S1; [|lia].
    eapply wp_Begin_free; [exact S1| |done]. split; [|lia].
    pose proof (time_left_nonneg w). lia. }
  by exists w'.
Qed.

(** The crash of a caller, on the in-memory store. *)
Definition crashed : world memstore.Store :=
  (run (Begin (bs "k") (bs "fp") (mkOptions (30 * Second) 0)) mem_world).2.

Lemma begin_proceeds_after_deadline_witness :
  ∃ w', (_ ← Sleep (31 * Second); call (Begin (bs "k") (bs "fp") (mkOptions (30 * Second) 0))) crashed =
    (([], Some (inl (mkOutcome Proceed (token_of (Z_byte 1 :: replicate 15 x00)) [] 0))), w').
Proof.
  eapply (begin_proceeds_after_deadline crashed); [done|by vm_compute|by vm_compute|by vm_compute|
    by vm_compute|by vm_compute|by vm_compute|by vm_compute].
Defined.
