(* ===== verification/Typed.v ===== *)
(** * Records are well typed

    The fields of a record are not independent: its key is the one it is
    stored under, a reservation carries no payload, no state but the two
    declared ones occurs, and its token was drawn by an execution.  Every
    call an execution makes, failed calls included, keeps the content of
    the store in this type. *)
From S2P Require Import Prelude GoLib Errors Record Store Effects Memstore Core Lease.
From S2P Require Import Key Context Http Config Middleware MiddlewareSpec.
Import Time.

(** The type of the record under [key], when [used] are the drawn tokens. *)
Record typed_record (used : gset bytes) (key : bytes) (r : Record) : Prop := {
  tr_key : rec_Key r = key;
  tr_token : rec_Token r ∈ used;
  tr_state : (rec_State r = StateReserved ∧ rec_Payload r = []) ∨ rec_State r = StateCompleted;
}.

Definition typed_content (used : gset bytes) (now : Time) (m : content) : Prop :=
  ∀ key r, live now m key = Some r → typed_record used key r.

Lemma typed_more used used' key r : used ⊆ used' → typed_record used key r → typed_record used' key r.
Proof. intros Hu [? ? ?]. split; [done|set_solver|done]. Qed.

Lemma typed_identity used key r r' : same_identity r r' → typed_record used key r → typed_record used key r'.
Proof. intros (Hk & _ & Hs & Ht & Hp) [? ? ?]. split; congruence || by rewrite <-?Ht, <-?Hs, <-?Hp. Qed.

Lemma typed_completed used key r p x : typed_record used key r → typed_record used key (completed r p x).
Proof. intros [? ? ?]. split; [done|done|by right]. Qed.

Section content.
Variables (used : gset bytes) (now : Time).

#[global] Instance typed_content_proper : Proper (live_equiv now ==> iff) (typed_content used now).
Proof. intros m1 m2 Hm. unfold typed_content. split; intros H key r; [rewrite <-Hm|rewrite Hm]; auto. Qed.

Lemma typed_later now' m : (now ≤ now')%Z → typed_content used now m → typed_content used now' m.
Proof. intros Hle H key r Hl. apply H. by eapply live_mono. Qed.

Lemma typed_insert m key r :
  typed_record used key r → typed_content used now m → typed_content used now (<[key := r]> m).
Proof.
  intros Hr H k r'. destruct (decide (key = k)) as [<-|].
  - rewrite live_insert_eq. unfold live_rec. case_match; [done|]. by intros [= <-].
  - rewrite live_insert_ne by done. apply H.
Qed.

Lemma typed_delete m key : typed_content used now m → typed_content used now (delete key m).
Proof.
  intros H k r'. destruct (decide (key = k)) as [<-|].
  - by rewrite live_delete_eq.
  - rewrite live_delete_ne by done. apply H.
Qed.

(** The effects of the calls. *)
Lemma typed_claims r m m' :
  claims now r m m' → reservation r → rec_Token r ∈ used →
  typed_content used now m → typed_content used now m'.
Proof.
  intros (r' & Hi & _ & ->) [Hs Hp] Ht Hm. apply typed_insert; [|done].
  apply (typed_identity _ _ _ _ Hi). split; [done|done|by left].
Qed.

Lemma typed_completes key tok p m m' :
  completes now key tok p m m' → typed_content used now m → typed_content used now m'.
Proof.
  intros (r & x & r' & Hl & _ & _ & Hi & ->) Hm. apply typed_insert; [|done].
  apply (typed_identity _ _ _ _ Hi), typed_completed. by apply Hm.
Qed.

Lemma typed_releases key tok m m' :
  releases now key tok m m' → typed_content used now m → typed_content used now m'.
Proof. intros (r & _ & _ & _ & ->). apply typed_delete. Qed.

Lemma typed_reserve r m m' ex err :
  reserve_post now r m m' ex err → reservation r → rec_Token r ∈ used →
  typed_content used now m → typed_content used now m'.
Proof.
  intros Hp Hr Ht Hm. unfold reserve_post in Hp. destruct err as [e|].
  - destruct Hp as [(_ & old & _ & [[-> _]|[Hc _]])|(_ & [->|Hc])]; eauto using typed_claims.
  - destruct Hp as [_ Hc]. eauto using typed_claims.
Qed.

Lemma typed_complete key tok p m m' err :
  complete_post now key tok p m m' err → typed_content used now m → typed_content used now m'.
Proof.
  intros Hp Hm. unfold complete_post in Hp. destruct err as [e|]; [|eauto using typed_completes].
  destruct Hp as [(_ & [[-> _]|Hc])|(_ & [->|Hc])]; eauto using typed_completes.
Qed.

Lemma typed_release key tok m m' err :
  release_post now key tok m m' err → typed_content used now m → typed_content used now m'.
Proof.
  intros Hp Hm. unfold release_post in Hp. destruct err as [e|]; [|eauto using typed_releases].
  destruct Hp as [(_ & [[-> _]|Hc])|(_ & [->|Hc])]; eauto using typed_releases.
Qed.
End content.

(** ** Executions *)

Section system.
Context {S : Type} `{SC : StoreContract S} {A : Type} (client : prog A → Prop).
Hypothesis client_disc : ∀ p, client p → disc (λ _ _, True) NoToken p.

Definition typed_sys (y : sys S A) : Prop :=
  typed_content (sy_used y) (sy_now y) (abs (sy_store y)).

Lemma typed_step (y y' : sys S A) : inv y → typed_sys y → step client y y' → typed_sys y'.
Proof using client_disc SC.
  unfold typed_sys. intros Hi Hm Hs. destruct Hs as
    [n p Hn Hp|now Hnow|n k ph l t Hn|n m k l b Hn Hf|n m k l e Hn
    |n r k t l i s ex Hn Hnow Hop|n r k t l i s ex err Hn Hnow Hop
    |n key tok p ttl k ph l i s x Hn Hnow Hop|n key tok k ph l i s x Hn Hnow Hop
    |n key k ph l i s x Hn Hnow Hop|n m k ph l Hn]; simpl; try done;
    try (apply (typed_later _ _ _ _ Hnow) in Hm).
  - done.
  - intros key r Hl. eapply typed_more; [|by apply Hm]. set_solver.
  - pose proof (inv_thread_disc _ _ _ _ _ Hi Hn) as Hd. inversion Hd; subst.
    apply reserve_contract in Hop; [|done]. eapply typed_reserve; [exact Hop|done| |done].
    by eapply (inv_used _ Hi _ _ _ Hn).
  - pose proof (inv_thread_disc _ _ _ _ _ Hi Hn) as Hd. inversion Hd; subst.
    apply reserve_contract in Hop; [|done]. eapply typed_reserve; [exact Hop|done| |done].
    by eapply (inv_used _ Hi _ _ _ Hn).
  - apply complete_contract in Hop. by eapply typed_complete.
  - apply release_contract in Hop. by eapply typed_release.
  - destruct x as [ex err]. apply get_contract in Hop as [-> _]. done.
Qed.

Lemma typed_steps (y y' : sys S A) :
  inv y → typed_sys y → rtc (step client) y y' → typed_sys y'.
Proof using client_disc SC.
  intros Hi Hm Hs. induction Hs as [|y y1 y2 Hs Hss IH]; [done|].
  apply IH; [by eapply inv_step|by eapply typed_step].
Qed.
End system.

(** C14. The type of records.  Whatever any number of middlewares do to a
    store that keeps the contract, in any order and with any failures, every
    live record stays well typed: it is stored under its own key, it is
    either a reservation without a payload or a completed record, and its
    token was drawn by one of the requests. *)
Theorem records_well_typed {S W} `{StoreContract S} `{ResponseWriter W}
    (y0 y : sys S (hstate W * outcome)) :
  initial y0 → typed_sys y0 → rtc (step http_request) y0 y → typed_sys y.
Proof.
  intros Hinit Hm. apply typed_steps; [|by apply inv_initial|done].
  intros p (cfg & next & w & r & b & Hcfg & Hn & Hr & ->). by apply ServeHTTP_any.
Qed.

Lemma records_well_typed_witness :
  ∃ y : sys memstore.Store (hstate response * outcome),
    holds_valid_lease y 0 (bs "key-1") ∧ typed_sys y.
Proof.
  destruct ExampleHTTP.is_running as (y & Hy & Hl). exists y. split; [exact Hl|].
  apply (records_well_typed ExampleHTTP.y0 y); [reflexivity| |exact Hy].
  intros key r Hr. discriminate Hr.
Defined.
